(* ===== verification/_CoqProject ===== *)
-Q . S2P
Prelude.v
TypedStore.v
Committee.v
Block.v
StakeAggregator.v
ThresholdClock.v
Commit.v
Error.v
BlockVerifier.v
Store.v
MemStore.v
RocksStore.v
ScoringMetrics.v
LeaderScoring.v
DagState.v
LeaderSchedule.v
Election.v
Linearizer.v
CommitTimestamp.v
BaseCommitter.v
UniversalCommitter.v
CommitRule.v
CommitterSpec.v
Safety.v
DagInv.v
DagOps.v
SubDag.v
TestDag.v
DagTheorems.v
BlockManager.v
BlockManagerInv.v
BlockManagerOps.v
BlockManagerTheorems.v
DagReads.v
QuorumRounds.v
Ancestor.v
Transactions.v
HandleCommit.v
CommitObserver.v
Delivery.v
Agreement.v
Core.v
ProposalAncestors.v
Proposal.v
Scoring.v
History.v
CoreCommit.v
CoreThread.v
CoreRun.v
NodeRun.v
RunAgreement.v
Inflight.v
Subscriptions.v
CommitSyncer.v
AuthorityService.v
FetchedBlocks.v
OwnBlock.v
ServiceReads.v
CommitSchedule.v
