(* ===== verification/Prelude.v ===== *)
(** * Verification of the Mysticeti consensus of the IOTA node

    This library models the consensus of the node, the crates
    [consensus/config] and [consensus/core], with the typed tables of
    [crates/typed-store] that it stores its data in, and proves the properties that
    make it correct.  The definitions are functions that evaluate; the theorems are
    about those functions.

    ** The program and its parts

    A validator receives signed blocks from its peers: [AuthorityService] handles
    their requests, and [Synchronizer] fetches blocks that are missing.
    [BlockVerifier] checks the blocks, [BlockManager] holds them back until their ancestors are known and then
    hands them to [DagState], the cache over the store.  [Core] runs on one
    thread: after new blocks arrive it asks [UniversalCommitter] (a pipeline of
    [BaseCommitter]s, whose leaders come from [LeaderSchedule]) which leaders are
    decided, has [Linearizer] turn each committed leader into an ordered sub-dag,
    records it, and sends it to the application through [CommitObserver].  Then
    it proposes a block of its own: [ThresholdClock] gives the round,
    [AncestorStateManager] the ancestors worth including, [TransactionConsumer]
    the transactions.  A node that falls behind imports commits with
    [CommitSyncer], which trusts a commit when a quorum voted for it.
    [CommitVoteMonitor] and [RoundProber] compute what a quorum has reported, and
    the scoring metrics count misbehaviour.

    ** Files

    Data and interfaces.
    - [Prelude]: machine integers, the panic monad [outcome], [Result], ordered
      maps and sets with ranges, stable sorting, and shared lemmas.
    - [Committee] ([committee.rs]), [Block] ([block.rs], [context.rs]), [Commit]
      ([commit.rs]), [Error] ([error.rs]).
    - [Store] is the storage trait as a class, with its laws on an abstract view;
      [MemStore] ([mem_store.rs]) and [RocksStore] ([rocksdb_store.rs]) are
      instances that satisfy them, and all theorems on stateful components hold for
      every store with these laws.  [TypedStore] models the tables below
      [RocksStore]: [util.rs], [memstore.rs], [database.rs] and the iterators of
      [crates/typed-store/src], over a RocksDB with its documented behaviour.
    Components, each with its state as a record and one function per operation.
    - [StakeAggregator], [ThresholdClock], [BlockVerifier], [ScoringMetrics],
      [LeaderScoring], [DagState], [LeaderSchedule], [Linearizer],
      [BaseCommitter], [UniversalCommitter], [BlockManager], [Ancestor],
      [Transactions], [CommitObserver], [Core], [CoreThread], [CommitSyncer] model
      the source files of the same name; [QuorumRounds] models [commit_vote_monitor.rs] and
      [round_prober.rs], [CommitSchedule] the scheduler of [commit_syncer.rs].
    - [AuthorityService] and [Subscriptions] model [authority_service.rs]: the
      handlers and the counter of the block streams.  A call of [handle_send_block]
      waits for its timestamp and for Core, so it is a value of [SendBlock] that is
      advanced by stretches.
    - [Inflight] (the locks on blocks in flight), [FetchedBlocks] (the verification
      and processing of an answer) and [OwnBlock] (the task that learns the last own
      block) model parts of [synchronizer.rs].
    Proofs.
    - [CommitRule] is the mathematics of votes and certificates over all blocks
      that exist; [CommitterSpec] defines [dag_view], what a node's DAG shows to
      the committer, and shows that the executable rule computes those notions;
      [Safety] proves that two nodes never decide a leader differently.
    - [DagInv], [DagOps], [DagTheorems], [DagReads]: the invariant [dag_ok] of the
      DAG state, its preservation by every operation, and what the readers return.
      [TestDag] builds concrete states for the witnesses.
    - [BlockManagerInv], [BlockManagerOps], [BlockManagerTheorems]: the invariant
      [bm_ok] of the block manager and its promises.
    - [SubDag], [CommitTimestamp], [HandleCommit], [Delivery], [Agreement]: what
      the linearizer commits, that the recorded commits advance the state
      correctly, and that two nodes produce the same sub-dags with every block
      once.
    - [Election]: the swap table and the election of leaders.
    - [ProposalAncestors], [Proposal]: the block that Core proposes.
    - [Scoring], [CoreCommit]: the leader scores, the change of the schedule, and
      the commit loop of Core, from the invariant [run_ok] of a running core.
    - [CoreRun], [NodeRun]: the invariant [thread_ok] of the core thread, the start
      of a node, and the runs of a node with its environment as a step relation
      ([node_step]).
    - [History], [RunAgreement]: the commits of a run as a function of what its DAG
      shows, and the agreement of two runs.
    - [ServiceReads]: what the handlers that read answer, and that a client accepts
      it.

    ** What the theorems show

    - Runs: in whatever order the other tasks send their commands (certified
      commits apart) while the consumer and the receivers of broadcasts stay there, a
      node that starts from nothing never panics, sends every commit to its consumer
      once and in order, and broadcasts only valid blocks, one per round
      ([node_run_correct]); the consumers of two nodes see the same sequence, up to
      how far they are ([runs_agree]); and peers that send messages to its service,
      with any bytes for a block but without forging signatures, make only such runs
      ([service_run_safe]).
    - Agreement: nodes decide the same leaders ([try_decide_agreement]) and
      deliver the same sub-dags ([handle_commit_agreement]), each block at most
      once and with its causal history ([handle_commit_exactly_once],
      [transactions_included]); the arithmetic of quorums is in [Committee].
    - Proposing: the proposed block is valid for every peer, has its parents'
      quorum, is stored before it is broadcast, and is the only one of its round
      ([try_new_block_correct]).
    - Import of commits: [fetch_once_correct] (only agreed commits, whatever the
      peer sends), [commit_sync_served] (what a client makes of the answers of a node
      that has the commits, and when it accepts them), [verify_commits_errors], and
      the scheduler as a step relation, with a Core that replies anything
      ([schedule_no_gap], [schedule_never_stalls]).
    - Acceptance of blocks: [verify_decides_valid_block],
      [try_accept_blocks_correct], [causal_history_accepted], [sweep_correct].
    - Requests and answers of peers: [send_block_admission], [fetch_blocks_served],
      [fetched_blocks_admitted], [inflight_locks], [subscribers_tracked],
      [own_last_block_learned]; and two faults, [unchecked_requests_panic] and
      [verified_cache_hides_blocks].
    - State and storage: [accept_block_correct], [add_commit_correct],
      [flush_correct], [contains_block_agrees], [observer_logs_then_sends],
      [recovery_resends]; the tables are maps ([db_map_refines]) and the persistent
      store behaves as the in-memory one ([rocks_store_agrees]).
    - Timestamps, leaders, ancestors, transactions and metrics: the remaining
      theorems, each described where it is stated.

    ** Conventions

    Unsigned integers are [N] with wrap-around written out ([+32], [-32], [*64]
    and so on), as the release profile compiles them.  A panic is a value of the
    monad [outcome], so a theorem that an operation returns also says that it
    does not panic.  Ordered maps and sets are stdpp's [gmap] and [gset] with an
    order on the keys ([OrdKey]).  Third-party code is a class, its documented
    behaviour a class of laws, and each has a concrete instance: [Crypto], [Signer]
    and [BcsDecode] (bcs and fastcrypto), [Rng] (rand), [CommitBcs], [KeySer]
    (bincode), [ValueBcs], [RocksDb] (rocksdb), [Lru] (lru).  The
    application's transaction verifier, the clocks and all network answers are
    arguments.

    ** Protocol versions

    [ProtocolConfig] has the flags and limits that the modelled code reads, and the
    definitions have both branches of its flags.  The theorems say which flags they
    need.  Proposals and commits of Core ([core_ok], [run_ok]) are of versions that
    take commit timestamps from the median and collect garbage; runs from nothing
    ([fresh_node]) also use the second linearizer and the distributed vote scores.
    The block manager is treated with the median and without: [stamps_ok] asks that
    the median is on or that no block is from the future or older than an ancestor,
    and [rejected_ancestor_panics] shows a panic otherwise.
    Verification, the admission of sent and fetched blocks, storage and commit sync
    hold for both.

    ** Bounds and fuel

    Recursion that is not structural takes fuel.  [unsuspend_loop], [gc_loop],
    [process_fetched] and [start_fetches] start with the size of the map they
    shrink and are proved to finish with it.  The graph walks
    ([find_supported_block], [ancestors_at_round], [linearize_v2]) take a fuel
    that the theorems require to exceed the number of cached blocks or rounds,
    which bounds the walk; the theorems then give the result.  [try_commit_loop]
    takes the number of its iterations, which a bound on the rounds made so far
    limits: each iteration that commits moves the round of the last commit.  In
    runs, [room] states both bounds against the blocks made so far, so that every
    state has bounds with room.  Theorems that add to a round or an index
    assume it is below the largest [u32].

    ** Not modelled

    Metrics, logging and tracing; the tokio tasks and timers around the core
    thread (a branch of its loop is one step here, a full queue makes the sender
    wait); certified commits inside the runs of [NodeRun] (their handling in Core
    is modelled, the runs leave that command out), and a consumer or receivers of
    broadcasts that close in a run; restarts inside a run; the
    gRPC transport; the command loop, the requests to peers and the periodic
    scheduler of [synchronizer.rs]; the opening, compaction and checkpoints of RocksDB
    and its range deletes; the wiring in [authority_node.rs]; test code.  Outside
    consensus nothing is modelled except [crates/typed-store] and the counters of
    [crates/iota-types] that consensus updates: the rest of the repository is
    execution of Move code, storage, indexing, RPC and client software, over
    databases and virtual machines that are not part of these sources or are
    projects of their own. *)
From stdpp Require Export prelude gmap sorting strings list.

(** ** Machine integers

    Every unsigned integer of the code ([u32], [u64], [usize]) is an [N].
    [saturating_sub] is then the truncated subtraction of [N]; an unchecked
    [+], [*] or [-] wraps around, as it does in the release profile, which does
    not enable overflow checks. *)

Declare Scope rust_scope.
Delimit Scope rust_scope with rust.

Definition U32_MOD : N := 4294967296.
Definition U64_MOD : N := 18446744073709551616.
Definition U32_MAX : N := 4294967295.
Definition U64_MAX : N := 18446744073709551615.

Definition wrap32 (x : N) : N := (x mod U32_MOD)%N.
Definition wrap64 (x : N) : N := (x mod U64_MOD)%N.

(** [a.saturating_add(b)] on [u32]. *)
Definition sat_add32 (a b : N) : N := N.min (a + b) U32_MAX.

Notation "a +32 b" := (wrap32 (a + b)%N) (at level 50, left associativity) : rust_scope.
Notation "a -32 b" := (wrap32 (a + U32_MOD - b)%N) (at level 50, left associativity) : rust_scope.
Notation "a *32 b" := (wrap32 (a * b)%N) (at level 40, left associativity) : rust_scope.
Notation "a +64 b" := (wrap64 (a + b)%N) (at level 50, left associativity) : rust_scope.
Notation "a -64 b" := (wrap64 (a + U64_MOD - b)%N) (at level 50, left associativity) : rust_scope.
Notation "a *64 b" := (wrap64 (a * b)%N) (at level 40, left associativity) : rust_scope.

(** A vector of bytes. *)
Abbreviation bytes := (list N) (only parsing).

Lemma wrap32_small x : (x < U32_MOD)%N → wrap32 x = x.
Proof. apply N.mod_small. Qed.

Lemma wrap64_small x : (x < U64_MOD)%N → wrap64 x = x.
Proof. apply N.mod_small. Qed.

Lemma wrap32_sub a b : (b <= a)%N → (a < U32_MOD)%N → wrap32 (a + U32_MOD - b) = (a - b)%N.
Proof.
  intros Hba Ha. unfold wrap32.
  replace (a + U32_MOD - b)%N with ((a - b) + 1 * U32_MOD)%N by lia.
  rewrite N.Div0.mod_add. apply N.mod_small. lia.
Qed.

Lemma wrap64_sub a b : (b <= a)%N → (a < U64_MOD)%N → wrap64 (a + U64_MOD - b) = (a - b)%N.
Proof.
  intros Hba Ha. unfold wrap64.
  replace (a + U64_MOD - b)%N with ((a - b) + 1 * U64_MOD)%N by lia.
  rewrite N.Div0.mod_add. apply N.mod_small. lia.
Qed.

(** ** Outcomes: values and panics

    The [panic = 'abort'] release profile makes a panic the end of the process,
    so a computation that may panic either returns or stops for good. *)

Inductive outcome (A : Type) : Type :=
| Ret (a : A)
| Panic (why : string).
Arguments Ret {_} _.
Arguments Panic {_} _.

#[export] Instance outcome_ret : MRet outcome := @Ret.
#[export] Instance outcome_bind : MBind outcome :=
  λ A B f m, match m with Ret a => f a | Panic why => Panic why end.
#[export] Instance outcome_fmap : FMap outcome :=
  λ A B f m, match m with Ret a => Ret (f a) | Panic why => Panic why end.

(** A fallible function of the code: [Result<T, E>]. *)
Inductive result (A E : Type) : Type :=
| Ok (a : A)
| Err (e : E).
Arguments Ok {_ _} _.
Arguments Err {_ _} _.

#[export] Instance outcome_eq_dec {A} `{!EqDecision A} : EqDecision (outcome A).
Proof. solve_decision. Defined.
#[export] Instance result_eq_dec {A E} `{!EqDecision A, !EqDecision E} : EqDecision (result A E).
Proof. solve_decision. Defined.

Definition is_ret {A} (m : outcome A) : Prop := ∃ a, m = Ret a.

(** [assert!(b, why)]. *)
Definition assert (b : bool) (why : string) : outcome unit :=
  if b then Ret tt else Panic why.

(** [o.expect(why)], [o.unwrap()]. *)
Definition expect {A} (o : option A) (why : string) : outcome A :=
  match o with Some a => Ret a | None => Panic why end.

(** [result.unwrap_or_else(|e| panic!(why))]. *)
Definition unwrap {A E} (r : result A E) (why : string) : outcome A :=
  match r with Ok a => Ret a | Err _ => Panic why end.

(** [unwrap] of a call that can panic. *)
Definition unwrapM {A E} (m : outcome (result A E)) (why : string) : outcome A := r ← m; unwrap r why.

(** A [for] loop whose body may panic. *)
Fixpoint foldM {A B} (f : B → A → outcome B) (b : B) (l : list A) : outcome B :=
  match l with
  | [] => Ret b
  | x :: l => b' ← f b x; foldM f b' l
  end.

(** [iter.filter(p)] and [iter.any(p)] with a test that may panic. *)
Fixpoint filterM {A} (p : A → outcome bool) (l : list A) : outcome (list A) :=
  match l with
  | [] => Ret []
  | x :: l => b ← p x; l' ← filterM p l; Ret (if b : bool then x :: l' else l')
  end.

(** [iter.take_while(p)]. *)
Fixpoint take_while {A} (p : A → bool) (l : list A) : list A :=
  match l with
  | [] => []
  | x :: l => if p x then x :: take_while p l else []
  end.

(** [iter.enumerate()]. *)
Definition enumerate {A} (l : list A) : list (N * A) := zip (N.of_nat <$> seq 0 (length l)) l.

(** Vector indexing panics out of range. *)
Definition vec_index {A} (l : list A) (i : N) : outcome A :=
  expect (l !! N.to_nat i) "index out of bounds".

Definition vec_set {A} (l : list A) (i : N) (x : A) : outcome (list A) :=
  if decide (N.to_nat i < length l)%nat then Ret (<[N.to_nat i := x]> l)
  else Panic "index out of bounds".

Lemma enumerate_lookup {A} (l : list A) (i : nat) : enumerate l !! i = (λ x, (N.of_nat i, x)) <$> l !! i.
Proof.
  unfold enumerate. rewrite lookup_zip_with, list_lookup_fmap. destruct (l !! i) as [x|] eqn:Hx; cbn.
  - rewrite lookup_seq_lt by by eapply lookup_lt_Some. done.
  - rewrite lookup_seq_ge by by apply lookup_ge_None. done.
Qed.

Lemma bind_ret_inv {A B} (f : A → outcome B) m b :
  m ≫= f = Ret b ↔ ∃ a, m = Ret a ∧ f a = Ret b.
Proof. destruct m; naive_solver. Qed.

Lemma fmap_ret_inv {A B} (f : A → B) (m : outcome A) b :
  f <$> m = Ret b ↔ ∃ a, m = Ret a ∧ f a = b.
Proof. destruct m; naive_solver. Qed.

Lemma assert_ret b why u : assert b why = Ret u ↔ b = true.
Proof. destruct b, u; naive_solver. Qed.

Lemma expect_ret {A} (o : option A) why a : expect o why = Ret a ↔ o = Some a.
Proof. destruct o; naive_solver. Qed.

Lemma vec_index_ret {A} (l : list A) i a : vec_index l i = Ret a ↔ l !! N.to_nat i = Some a.
Proof. apply expect_ret. Qed.

Lemma vec_set_ret {A} (l l' : list A) i x :
  vec_set l i x = Ret l' ↔ (N.to_nat i < length l)%nat ∧ l' = <[N.to_nat i := x]> l.
Proof. unfold vec_set. case_decide; naive_solver. Qed.

Lemma is_ret_bind {A B} (m : outcome A) (f : A → outcome B) a :
  m = Ret a → is_ret (f a) → is_ret (m ≫= f).
Proof. by intros ->. Qed.

(** Breaks hypotheses [x ← m; k = Ret v] into the steps that returned. *)
Ltac inv_ret :=
  repeat match goal with
  | H : mbind _ _ = Ret _ |- _ => apply bind_ret_inv in H as (? & ? & ?)
  | H : fmap _ _ = Ret _ |- _ => apply fmap_ret_inv in H as (? & ? & ?)
  | H : assert _ _ = Ret _ |- _ => apply assert_ret in H
  | H : expect _ _ = Ret _ |- _ => apply expect_ret in H
  | H : vec_index _ _ = Ret _ |- _ => apply vec_index_ret in H
  | H : vec_set _ _ _ = Ret _ |- _ => apply vec_set_ret in H as [? ?]
  | H : Ret _ = Ret _ |- _ => injection H as H
  | H : mret _ = Ret _ |- _ => injection H as H
  | H : Panic _ = Ret _ |- _ => discriminate H
  end; simplify_eq.

Lemma foldM_snoc {A B} (f : B → A → outcome B) l x : ∀ b, foldM f b (l ++ [x]) = (b' ← foldM f b l; f b' x).
Proof.
  induction l as [|y l IH]; intros b; cbn [app foldM].
  - change (Ret b ≫= λ b', f b' x) with (f b x). by destruct (f b x).
  - destruct (f b y); [apply IH|done].
Qed.

Lemma foldM_ret_ind_from {A B} (P : list A → B → Prop) (f : B → A → outcome B) todo :
  ∀ done b b',
  (∀ done b x b', P done b → f b x = Ret b' → x ∈ todo → P (done ++ [x]) b') →
  P done b → foldM f b todo = Ret b' → P (done ++ todo) b'.
Proof.
  induction todo as [|x todo IH]; simpl; intros done b b' Hstep Hb Hf; inv_ret.
  - by rewrite app_nil_r.
  - rewrite (cons_middle x done todo), app_assoc.
    eapply IH; [|by eapply Hstep; eauto; left|done].
    intros ?????? Hx. eapply Hstep; eauto. by right.
Qed.

Lemma foldM_ret_ind {A B} (P : list A → B → Prop) (f : B → A → outcome B) b l b' :
  (∀ done b x b', P done b → f b x = Ret b' → x ∈ l → P (done ++ [x]) b') →
  P [] b → foldM f b l = Ret b' → P l b'.
Proof. apply (foldM_ret_ind_from P f l []). Qed.

(** A loop whose body always returns and keeps an invariant. *)
Lemma foldM_inv {A B} (P : B → Prop) (f : B → A → outcome B) l : ∀ b,
  (∀ b x, x ∈ l → P b → ∃ b', f b x = Ret b' ∧ P b') → P b → ∃ b', foldM f b l = Ret b' ∧ P b'.
Proof.
  induction l as [|x l IH]; intros b Hf Hb; simpl; [by eauto|].
  destruct (Hf b x) as (b1 & -> & Hb1); [left|done|]. simpl. apply IH; [|done].
  intros b2 y Hy. apply Hf. by right.
Qed.

(** The same, where the invariant speaks of the elements processed so far. *)
Lemma foldM_prefix {A B} (P : list A → B → Prop) (f : B → A → outcome B) l : ∀ b,
  (∀ pre x post b, l = pre ++ x :: post → P pre b → ∃ b', f b x = Ret b' ∧ P (pre ++ [x]) b') → P [] b →
  ∃ b', foldM f b l = Ret b' ∧ P l b'.
Proof.
  intros b Hf. assert (∀ todo done b, l = done ++ todo → P done b → ∃ b', foldM f b todo = Ret b' ∧ P l b') as H;
    [|by apply H].
  induction todo as [|x todo IH]; intros pre b1 Hl Hb; simpl.
  - rewrite app_nil_r in Hl. subst. eauto.
  - destruct (Hf pre x todo b1 Hl Hb) as (b2 & -> & Hb2). apply (IH (pre ++ [x])); [|done]. by rewrite <-app_assoc.
Qed.

(** On a sorted list, a downward closed test takes exactly the elements that pass. *)
Lemma elem_of_take_while {A} (R : relation A) (p : A → bool) (l : list A) x :
  StronglySorted R l → (∀ y z, R y z → p z → p y) → x ∈ take_while p l ↔ x ∈ l ∧ p x.
Proof.
  intros Hs Hp. induction Hs as [|y l Hl IH Hy]; simpl; [set_solver|].
  destruct (p y) eqn:Ey.
  - rewrite !elem_of_cons, IH. intuition (subst; auto).
  - rewrite elem_of_nil, elem_of_cons. split; [done|]. intros [[->|Hx] Hpx]; [by rewrite Ey in Hpx|].
    eapply Forall_forall in Hy; [|done]. specialize (Hp _ _ Hy Hpx). by rewrite Ey in Hp.
Qed.

Lemma foldl_delete_lookup `{Countable K} {V} (ks : list K) (k : K) : ∀ m : gmap K V,
  foldl (λ m k, delete k m) m ks !! k = if decide (k ∈ ks) then None else m !! k.
Proof.
  induction ks as [|k' ks IH]; intros m; simpl; [done|]. rewrite IH. destruct (decide (k ∈ ks)).
  - by rewrite decide_True by set_solver.
  - rewrite lookup_delete. destruct (decide (k' = k)) as [->|]; [by rewrite decide_True by set_solver|].
    by rewrite decide_False by set_solver.
Qed.

Lemma mapM_ret_Forall2 {A B} (f : A → outcome B) l k :
  mapM f l = Ret k ↔ Forall2 (λ x y, f x = Ret y) l k.
Proof.
  revert k. induction l as [|x l IH]; intros k; cbn.
  - split; [by intros [= <-]|]. by inversion 1.
  - split.
    + intros Hk. inv_ret. constructor; [done|]. by apply IH.
    + inversion 1 as [|? y ? k' Hx Hl]; subst. rewrite Hx. cbn. apply IH in Hl as ->. done.
Qed.

Lemma mapM_total {A B} (f : A → outcome B) l : (∀ x, x ∈ l → ∃ y, f x = Ret y) → ∃ k, mapM f l = Ret k.
Proof.
  induction l as [|x l IH]; intros Hf; cbn; [by eexists|]. destruct (Hf x ltac:(left)) as [y ->].
  destruct IH as [k ->]; [intros z Hz; apply Hf; by right|]. by eexists.
Qed.

Lemma mapM_ret {A B} (f : A → outcome B) (g : A → B) l :
  (∀ x, x ∈ l → f x = Ret (g x)) → mapM f l = Ret (g <$> l).
Proof.
  intros Hf. apply mapM_ret_Forall2, Forall2_fmap_r, Forall2_same_length_lookup_2; [done|].
  intros i x y Hx Hy. simplify_eq. apply Hf. by eapply list_elem_of_lookup_2.
Qed.

Lemma mapM_is_ret {A B} (f : A → outcome B) l : (∀ x, x ∈ l → is_ret (f x)) → is_ret (mapM f l).
Proof.
  induction l as [|x l IH]; intros Hf; [by eexists|]. destruct (Hf x) as [y Hy]; [left|].
  destruct IH as [k Hk]; [set_solver|]. exists (y :: k). rewrite mapM_ret_Forall2 in Hk |- *. by constructor.
Qed.

Lemma filter_ext_elem {A} (P Q : A → Prop) `{!∀ x, Decision (P x), !∀ x, Decision (Q x)} (l : list A) :
  (∀ x, x ∈ l → P x ↔ Q x) → filter P l = filter Q l.
Proof.
  induction l as [|x l IH]; intros HPQ; [done|]. rewrite !filter_cons, IH by set_solver.
  pose proof (HPQ x ltac:(left)). do 2 case_decide; tauto.
Qed.

Lemma filter_none {A} (P : A → Prop) `{!∀ x, Decision (P x)} (l : list A) :
  (∀ x, x ∈ l → ¬ P x) → filter P l = [].
Proof.
  induction l as [|x l IH]; intros HP; [done|]. rewrite filter_cons, decide_False by (apply HP; left).
  apply IH. set_solver.
Qed.

Lemma filter_all {A} (P : A → Prop) `{!∀ x, Decision (P x)} (l : list A) :
  (∀ x, x ∈ l → P x) → filter P l = l.
Proof.
  induction l as [|x l IH]; intros HP; [done|]. rewrite filter_cons, decide_True by (apply HP; left).
  f_equal. apply IH. set_solver.
Qed.

Lemma filter_fmap {A B} (f : A → B) (P : B → Prop) `{!∀ x, Decision (P x)} (l : list A) :
  filter P (f <$> l) = f <$> filter (λ x, P (f x)) l.
Proof.
  induction l as [|x l IH]; [done|]. rewrite fmap_cons, !filter_cons, IH. by case_decide.
Qed.

Lemma omap_reverse {A B} (f : A → option B) (l : list A) : omap f (reverse l) = reverse (omap f l).
Proof.
  induction l as [|x l IH]; [done|]. rewrite reverse_cons, omap_app, IH.
  change (omap f (x :: l)) with (match f x with Some y => y :: omap f l | None => omap f l end).
  change (omap f [x]) with (match f x with Some y => [y] | None => [] end).
  destruct (f x); [by rewrite reverse_cons|apply app_nil_r].
Qed.

Lemma filterM_ret {A} (p : A → outcome bool) (q : A → bool) l :
  (∀ x, x ∈ l → p x = Ret (q x)) → filterM p l = Ret (filter (λ x, q x) l).
Proof.
  induction l as [|x l IH]; intros Hp; [done|].
  simpl. rewrite Hp by left. simpl. rewrite IH by (intros; apply Hp; by right). simpl.
  rewrite filter_cons. by destruct (q x).
Qed.

(** A filter whose test always returns. *)
Lemma filterM_total {A} (p : A → outcome bool) l :
  (∀ x, x ∈ l → ∃ b, p x = Ret b) →
  ∃ l', filterM p l = Ret l' ∧ l' `sublist_of` l ∧ ∀ x, x ∈ l' ↔ x ∈ l ∧ p x = Ret true.
Proof.
  induction l as [|y l IH]; intros Hp; simpl.
  { exists []. split_and!; [done..|]. set_solver. }
  destruct (Hp y ltac:(left)) as [b Hb]. destruct IH as (l' & -> & Hsub & Hl'); [set_solver|].
  rewrite Hb. simpl. eexists. split; [done|]. destruct b; split; try by constructor.
  - intros x. rewrite !elem_of_cons, Hl'. intuition (subst; auto).
  - intros x. rewrite elem_of_cons, Hl'. intuition (subst; congruence).
Qed.

Lemma filterM_ret_inv {A} (p : A → outcome bool) l l' :
  filterM p l = Ret l' → ∀ x, x ∈ l' ↔ x ∈ l ∧ p x = Ret true.
Proof.
  revert l'. induction l as [|y l IH]; simpl; intros l' Hl x; inv_ret.
  { by rewrite elem_of_nil; naive_solver. }
  match goal with H : filterM p l = _ |- _ => specialize (IH _ H x) end.
  case_match; rewrite ?elem_of_cons, IH; intuition (subst; try congruence; auto).
Qed.

(** [Iterator::take], which stops at the end whatever the limit. *)
Fixpoint iter_take {A} (n : N) (l : list A) : list A :=
  match l with
  | [] => []
  | x :: l => if (n =? 0)%N then [] else x :: iter_take (N.pred n) l
  end.

Lemma iter_take_take {A} (n : N) (l : list A) : iter_take n l = take (N.to_nat n) l.
Proof.
  revert n. induction l as [|x l IH]; intros n; simpl; [by rewrite take_nil|]. destruct (N.eqb_spec n 0) as [->|]; [done|].
  rewrite IH, N2Nat.inj_pred. by replace (N.to_nat n) with (S (pred (N.to_nat n))) by lia.
Qed.

(** ** Ordered maps and sets

    A [BTreeMap] or [BTreeSet] is a [gmap] or [gset] whose key type carries the
    code's [Ord] instance; iterating visits the keys in increasing order. *)

Class OrdKey (K : Type) `{Countable K} := {
  key_le : relation K;
  key_le_dec :: RelDecision key_le;
  key_le_preorder :: PreOrder key_le;
  key_le_antisymm :: AntiSymm (=) key_le;
  key_le_total :: Total key_le;
}.

#[export] Program Instance N_ord_key : OrdKey N := {| key_le := N.le |}.

Section btree.
Context {K : Type} `{OrdKey K}.
Local Open Scope stdpp_scope.

(** [set.iter()]. *)
Definition btree_iter (s : gset K) : list K := merge_sort key_le (elements s).

(** [map.keys()] and [map.iter()]. *)
Definition btree_keys {V} (m : gmap K V) : list K := btree_iter (dom m).
Definition btree_entries {V} (m : gmap K V) : list (K * V) :=
  omap (λ k, pair k <$> m !! k) (btree_keys m).

(** [set.range(..)] for the keys that satisfy the bound's test. *)
Definition btree_range (P : K → bool) (s : gset K) : list K :=
  filter (λ k, P k) (btree_iter s).
Definition btree_map_range {V} (P : K → bool) (m : gmap K V) : list (K * V) :=
  filter (λ kv, P kv.1) (btree_entries m).

(** [set.first()] and [set.last()]. *)
Definition btree_first (s : gset K) : option K := head (btree_iter s).
Definition btree_last (s : gset K) : option K := last (btree_iter s).

Lemma elem_of_btree_iter s k : k ∈ btree_iter s ↔ k ∈ s.
Proof. unfold btree_iter. by rewrite merge_sort_Permutation, elem_of_elements. Qed.

Lemma btree_iter_sorted s : StronglySorted key_le (btree_iter s).
Proof. apply (StronglySorted_merge_sort _ _). Qed.

Lemma btree_iter_NoDup s : NoDup (btree_iter s).
Proof. unfold btree_iter. rewrite merge_sort_Permutation. apply NoDup_elements. Qed.

Lemma elem_of_btree_range P s k : k ∈ btree_range P s ↔ P k ∧ k ∈ s.
Proof. unfold btree_range. by rewrite list_elem_of_filter, elem_of_btree_iter. Qed.

Lemma elem_of_btree_entries {V} (m : gmap K V) k v : (k, v) ∈ btree_entries m ↔ m !! k = Some v.
Proof.
  unfold btree_entries, btree_keys. rewrite list_elem_of_omap. split.
  - intros (k' & _ & Hk). destruct (m !! k') eqn:E; naive_solver.
  - intros Hk. exists k. rewrite elem_of_btree_iter, elem_of_dom, Hk. naive_solver.
Qed.

Lemma elem_of_btree_map_range {V} P (m : gmap K V) k v :
  (k, v) ∈ btree_map_range P m ↔ P k ∧ m !! k = Some v.
Proof. unfold btree_map_range. by rewrite list_elem_of_filter, elem_of_btree_entries. Qed.

Lemma btree_last_Some s k :
  btree_last s = Some k → k ∈ s ∧ ∀ k', k' ∈ s → key_le k' k.
Proof.
  unfold btree_last. intros [l Hl]%last_Some.
  assert (Hk : k ∈ btree_iter s) by (rewrite Hl; set_solver).
  rewrite elem_of_btree_iter in Hk. split; [done|].
  intros k' Hk'%elem_of_btree_iter. pose proof (btree_iter_sorted s) as Hs.
  rewrite Hl in Hk', Hs. apply elem_of_app in Hk' as [Hk'|Hk'].
  - eapply StronglySorted_app_1_elem_of; [done..|]. set_solver.
  - apply list_elem_of_singleton in Hk' as ->. reflexivity.
Qed.

Lemma btree_last_None s : btree_last s = None ↔ s = ∅.
Proof.
  unfold btree_last. rewrite last_None. split.
  - intros Hs. apply elem_of_equiv_empty_L. intros k. rewrite <-elem_of_btree_iter, Hs. set_solver.
  - intros ->. unfold btree_iter. by rewrite elements_empty.
Qed.

Lemma btree_first_Some s k :
  btree_first s = Some k → k ∈ s ∧ ∀ k', k' ∈ s → key_le k k'.
Proof.
  unfold btree_first. intros [l Hl]%head_Some.
  assert (Hk : k ∈ btree_iter s) by (rewrite Hl; set_solver).
  rewrite elem_of_btree_iter in Hk. split; [done|].
  intros k' Hk'%elem_of_btree_iter. pose proof (btree_iter_sorted s) as Hs.
  rewrite Hl in Hk', Hs. apply StronglySorted_cons in Hs as [Hall _].
  apply elem_of_cons in Hk' as [->|Hk']; [reflexivity|].
  by eapply Forall_forall in Hall.
Qed.

Lemma btree_first_None s : btree_first s = None ↔ s = ∅.
Proof.
  unfold btree_first. rewrite head_None. split.
  - intros Hs. apply elem_of_equiv_empty_L. intros k. rewrite <-elem_of_btree_iter, Hs. set_solver.
  - intros ->. unfold btree_iter. by rewrite elements_empty.
Qed.

(** A range over the ordered keys. *)
Inductive bound : Type :=
| Included (k : K)
| Excluded (k : K)
| Unbounded.

Definition above (lo : bound) (k : K) : bool :=
  match lo with
  | Included b => bool_decide (key_le b k)
  | Excluded b => bool_decide (key_le b k ∧ b ≠ k)
  | Unbounded => true
  end.

Definition below (hi : bound) (k : K) : bool :=
  match hi with
  | Included b => bool_decide (key_le k b)
  | Excluded b => bool_decide (key_le k b ∧ k ≠ b)
  | Unbounded => true
  end.

(** [range] panics when the start is greater than the end, or when both bounds
    exclude the same key. *)
Definition bounds_ok (lo hi : bound) : bool :=
  match lo, hi with
  | Unbounded, _ | _, Unbounded => true
  | Excluded a, Excluded b => bool_decide (key_le a b ∧ a ≠ b)
  | Included a, (Included b | Excluded b) => bool_decide (key_le a b)
  | Excluded a, Included b => bool_decide (key_le a b)
  end.

Definition set_range (lo hi : bound) (s : gset K) : outcome (list K) :=
  _ ← assert (bounds_ok lo hi) "range start is greater than range end in BTreeMap";
  Ret (btree_range (λ k, above lo k && below hi k) s).

Definition map_range {V} (lo hi : bound) (m : gmap K V) : outcome (list (K * V)) :=
  _ ← assert (bounds_ok lo hi) "range start is greater than range end in BTreeMap";
  Ret (btree_map_range (λ k, above lo k && below hi k) m).

Lemma set_range_ret lo hi s :
  bounds_ok lo hi = true → set_range lo hi s = Ret (btree_range (λ k, above lo k && below hi k) s).
Proof. unfold set_range. by intros ->. Qed.

Lemma map_range_ret {V} lo hi (m : gmap K V) :
  bounds_ok lo hi = true → map_range lo hi m = Ret (btree_map_range (λ k, above lo k && below hi k) m).
Proof. unfold map_range. by intros ->. Qed.

Lemma btree_entries_fst {V} (m : gmap K V) : (btree_entries m).*1 = btree_keys m.
Proof.
  unfold btree_entries. assert (∀ k, k ∈ btree_keys m → k ∈ dom m) as Hin
    by (intros k; apply elem_of_btree_iter).
  induction (btree_keys m) as [|k l IH]; [done|]. csimpl.
  destruct (m !! k) eqn:E; csimpl.
  - f_equal. apply IH. intros k' ?. apply Hin. by right.
  - exfalso. apply (not_elem_of_dom m k); [done|]. apply Hin. left.
Qed.

(** A sorted list is determined by its elements. *)
Lemma btree_sorted_unique (l1 l2 : list K) :
  StronglySorted key_le l1 → StronglySorted key_le l2 → NoDup l1 → NoDup l2 →
  (∀ k, k ∈ l1 ↔ k ∈ l2) → l1 = l2.
Proof.
  intros Hs1 Hs2 Hn1 Hn2 Heq. apply (StronglySorted_unique key_le); [done..|].
  by apply NoDup_Permutation.
Qed.

Lemma StronglySorted_filter {A} (R : relation A) (P : A → Prop) `{!∀ x, Decision (P x)} l :
  StronglySorted R l → StronglySorted R (filter P l).
Proof.
  induction 1 as [|x l Hl IH Hx]; [constructor|]. rewrite filter_cons. case_decide; [|done].
  constructor; [done|]. apply Forall_forall. intros y [_ Hy]%list_elem_of_filter.
  by eapply Forall_forall in Hx.
Qed.

Lemma btree_range_sorted P s : StronglySorted key_le (btree_range P s).
Proof. apply (StronglySorted_filter _ _), btree_iter_sorted. Qed.

Lemma btree_map_range_NoDup {V} P (m : gmap K V) : NoDup (btree_map_range P m).*1.
Proof.
  unfold btree_map_range. apply (sublist_NoDup _ (btree_entries m).*1).
  - rewrite btree_entries_fst. apply btree_iter_NoDup.
  - apply fmap_sublist, sublist_filter.
Qed.

Lemma btree_range_NoDup P s : NoDup (btree_range P s).
Proof. apply NoDup_filter, btree_iter_NoDup. Qed.

Lemma btree_map_range_fst {V} P (m : gmap K V) : (btree_map_range P m).*1 = btree_range P (dom m).
Proof.
  unfold btree_map_range, btree_range. change (btree_iter (dom m)) with (btree_keys m). rewrite <-btree_entries_fst. generalize (btree_entries m) as l.
  induction l as [|[k v] l IH]; [done|]. csimpl. rewrite !filter_cons. cbn [fst]. case_decide; csimpl; by rewrite IH.
Qed.

(** A map whose values are all converted. *)
Lemma btree_entries_omap {V W} (f : V → option W) (m : gmap K V) : (∀ k v, m !! k = Some v → is_Some (f v)) →
  btree_entries (omap f m) = omap (λ kv, pair kv.1 <$> f kv.2) (btree_entries m).
Proof.
  intros Hf. unfold btree_entries. assert (btree_keys (omap f m) = btree_keys m) as ->.
  { unfold btree_keys. f_equal. apply set_eq. intros k. rewrite !elem_of_dom, lookup_omap. destruct (m !! k) as [v|] eqn:Hk; cbn; [|by split; intros []].
    split; [by eexists|]. intros _. by eapply Hf. }
  induction (btree_keys m) as [|k l IH]; [done|]. csimpl. rewrite lookup_omap. destruct (m !! k) as [v|] eqn:Hk; csimpl; [|done].
  destruct (Hf k v Hk) as [w ->]. cbn. by rewrite IH.
Qed.

Lemma btree_map_range_omap {V W} P (f : V → option W) (m : gmap K V) : (∀ k v, m !! k = Some v → is_Some (f v)) →
  snd <$> btree_map_range P (omap f m) = omap (λ kv, f kv.2) (btree_map_range P m).
Proof.
  intros Hf. unfold btree_map_range. rewrite btree_entries_omap by done. generalize (btree_entries m) as l.
  induction l as [|[k v] l IH]; [done|]. csimpl. rewrite filter_cons. cbn [fst]. destruct (f v) as [w|] eqn:Hw; csimpl.
  - rewrite filter_cons. cbn [fst]. case_decide; csimpl; [by rewrite Hw, IH|done].
  - rewrite IH. case_decide; csimpl; by rewrite ?Hw.
Qed.

Lemma btree_map_range_all {V} P (m : gmap K V) : (∀ k, P k = true) → btree_map_range P m = btree_entries m.
Proof. intros HP. unfold btree_map_range. apply filter_all. intros [k v] _. cbn. by rewrite HP. Qed.
End btree.
Arguments bound : clear implicits.

(** The derived [Ord] of a tuple is lexicographic. *)
#[export] Program Instance prod_ord_key `{OrdKey A, OrdKey B} : OrdKey (A * B) :=
  {| key_le := λ x y, (key_le x.1 y.1 ∧ x.1 ≠ y.1) ∨ (x.1 = y.1 ∧ key_le x.2 y.2) |}.
Next Obligation. intros A ??? B ??? x y. solve_decision. Defined.
Next Obligation.
  intros A ??? B ???. split.
  - intros [a b]. right. by split.
  - intros [a b] [a' b'] [a'' b'']. simpl. intros [[Hl Hn]|[-> Hl]] [[Hl' Hn']|[-> Hl']]; auto.
    + left. split; [by trans a'|]. intros ->. apply Hn. by apply (anti_symm key_le).
    + right. split; [done|by trans b'].
Qed.
Next Obligation.
  intros A ??? B ??? [a b] [a' b']. simpl. intros [[Hl Hn]|[-> Hl]] [[Hl' Hn']|[? Hl']]; subst; try done.
  - destruct Hn. by apply (anti_symm key_le).
  - f_equal. by apply (anti_symm key_le).
Qed.
Next Obligation.
  intros A ??? B ??? [a b] [a' b']. simpl. destruct (decide (a = a')) as [->|Hn].
  - destruct (total key_le b b'); auto.
  - destruct (total key_le a a'); auto.
Qed.

Lemma prod_key_le `{OrdKey A, OrdKey B} (a a' : A) (b b' : B) :
  key_le (a, b) (a', b') ↔ (key_le a a' ∧ a ≠ a') ∨ (a = a' ∧ key_le b b').
Proof. done. Qed.

Lemma N_key_le (a b : N) : key_le a b ↔ (a <= b)%N.
Proof. done. Qed.

(** ** Stable sorting

    [slice.sort_by(cmp)] is stable, which determines its result: the sorted
    permutation that keeps elements that compare equal in their original order.
    [le a b] is [cmp(a, b) != Greater]. *)

Lemma StronglySorted_impl {A} (R R' : relation A) l : (∀ x y, R x y → R' x y) → StronglySorted R l → StronglySorted R' l.
Proof. intros HR. induction 1; constructor; [done|]. eapply Forall_impl; [done|]. auto. Qed.

Section stable_sort.
Context {A : Type} (le : A → A → bool).

Fixpoint sorted_insert (x : A) (l : list A) : list A :=
  match l with
  | [] => [x]
  | y :: l' => if le x y then x :: l else y :: sorted_insert x l'
  end.

Definition stable_sort (l : list A) : list A := foldr sorted_insert [] l.

Lemma sorted_insert_Permutation x l : sorted_insert x l ≡ₚ x :: l.
Proof.
  induction l as [|y l IH]; simpl; [done|]. case_match; [done|]. rewrite IH. apply perm_swap.
Qed.

Lemma stable_sort_Permutation l : stable_sort l ≡ₚ l.
Proof. induction l as [|x l IH]; simpl; [done|]. by rewrite sorted_insert_Permutation, IH. Qed.

Lemma elem_of_stable_sort x l : x ∈ stable_sort l ↔ x ∈ l.
Proof. by rewrite stable_sort_Permutation. Qed.

Context (le_total : ∀ x y, le x y ∨ le y x) (le_trans : ∀ x y z, le x y → le y z → le x z).

Lemma sorted_insert_sorted x l :
  StronglySorted (λ a b, le a b) l → StronglySorted (λ a b, le a b) (sorted_insert x l).
Proof.
  induction 1 as [|y l Hs IH Hall]; simpl; [by repeat constructor|].
  destruct (le x y) eqn:E.
  - constructor; [by constructor|]. constructor; [by rewrite E|].
    eapply Forall_impl; [done|]. intros z Hz. apply (le_trans x y z); [by rewrite E|exact Hz].
  - constructor; [done|]. rewrite sorted_insert_Permutation. constructor; [|done].
    destruct (le_total x y) as [Hxy|]; [by rewrite E in Hxy|done].
Qed.

Lemma stable_sort_sorted l : StronglySorted (λ a b, le a b) (stable_sort l).
Proof. induction l; simpl; [constructor|by apply sorted_insert_sorted]. Qed.

(** Elements equivalent to [k] keep their order. *)
Lemma stable_sort_stable k l :
  filter (λ x, le k x && le x k) (stable_sort l) = filter (λ x, le k x && le x k) l.
Proof.
  induction l as [|x l IH]; [done|]. simpl. rewrite filter_cons, <-IH. clear IH.
  induction (stable_sort l) as [|y l' IH]; simpl.
  { by rewrite filter_cons. }
  destruct (le x y) eqn:Exy; [by rewrite (filter_cons _ x)|].
  rewrite !(filter_cons _ y), IH. case_decide as Hy; case_decide as Hx; try done. exfalso.
  apply andb_prop_elim in Hx as [??]. apply andb_prop_elim in Hy as [??].
  assert (le x y) as Hle by eauto. by rewrite Exy in Hle.
Qed.
End stable_sort.

(** ** Sums *)

Definition sumN (l : list N) : N := foldr N.add 0%N l.

Lemma sumN_app l k : sumN (l ++ k) = (sumN l + sumN k)%N.
Proof. induction l; simpl; lia. Qed.

#[export] Instance sumN_Permutation : Proper ((≡ₚ) ==> (=)) sumN.
Proof. induction 1; simpl; lia. Qed.

Lemma sumN_elem_of x l : x ∈ l → (x <= sumN l)%N.
Proof. induction 1; simpl; lia. Qed.

Lemma sumN_fmap_le {A} (f g : A → N) l :
  (∀ x, x ∈ l → (f x <= g x)%N) → (sumN (f <$> l) <= sumN (g <$> l))%N.
Proof.
  induction l as [|x l IH]; intros Hfg; csimpl; [lia|].
  assert (f x <= g x)%N by (apply Hfg; left).
  assert (sumN (f <$> l) <= sumN (g <$> l))%N by (apply IH; intros; apply Hfg; by right). lia.
Qed.

Lemma sumN_submseteq l k : l ⊆+ k → (sumN l <= sumN k)%N.
Proof. intros [k' ->]%submseteq_Permutation. rewrite sumN_app. lia. Qed.

Lemma sumN_sublist l k : l `sublist_of` k → (sumN l <= sumN k)%N.
Proof. intros. by apply sumN_submseteq, sublist_submseteq. Qed.

(** ** Hints shared by the development *)
Create HintDb consensus.
#[export] Hint Resolve wrap32_small wrap64_small : consensus.
