(* ===== verification/TypedStore.v ===== *)
(** * TypedStore: typed tables over a byte database

    Models the parts of [crates/typed-store] that store and read entries: the key
    ranges of [util.rs], the in-memory database of [memstore.rs], the iterators of
    [rocks/safe_iter.rs], and [Database], [DBMap] and [DBBatch] of [database.rs],
    without metrics, pruning, checkpoints and the opening of files.  RocksDB itself
    is third-party code: the class [RocksDb], with its documented behaviour as
    [RocksDbLaws].  So are bincode, which encodes keys ([KeySer]), and bcs, which
    encodes values ([ValueBcs]).  A state change of the database returns the new
    database. *)
From S2P Require Import Prelude.
Local Open Scope N_scope.
Local Open Scope rust_scope.

(** ** Bytes in lexicographic order *)

Fixpoint bytes_le (a b : bytes) : Prop :=
  match a, b with
  | [], _ => True
  | _ :: _, [] => False
  | x :: a, y :: b => x < y ∨ (x = y ∧ bytes_le a b)
  end.

#[export] Program Instance bytes_ord_key : OrdKey (list N) := {| key_le := bytes_le |}.
Next Obligation.
  intros a. induction a as [|x a IH]; intros [|y b]; cbn; [left; exact I|left; exact I|right; intros []|].
  destruct (decide (x < y)) as [?|Hl]; [left; by left|]. destruct (decide (x = y)) as [->|Hn]; [|right; tauto].
  destruct (IH b) as [?|Hb]; [left; by right|right]. intros [?|[_ ?]]; [lia|done].
Defined.
Next Obligation.
  split.
  - intros a. induction a; cbn; auto.
  - intros a. induction a as [|x a IH]; intros [|y b] [|z c]; cbn; try done.
    intros [?|[-> ?]] [?|[-> ?]]; [left; lia|by left|by left|right; eauto].
Qed.
Next Obligation.
  intros a. induction a as [|x a IH]; intros [|y b]; cbn; try done.
  intros [?|[-> ?]] [?|[? ?]]; try lia. f_equal. auto.
Qed.
Next Obligation.
  intros a. induction a as [|x a IH]; intros [|y b]; cbn; [by left|by left|by right|].
  destruct (N.lt_trichotomy x y) as [?|[->|?]]; [by left; left| |by right; left].
  destruct (IH b); [left|right]; by right.
Qed.

(** ** Key ranges (util.rs) *)

(** The loop from the last byte, on the reversed bytes. *)
Fixpoint carry (v : bytes) : bytes :=
  match v with
  | [] => []
  | x :: v => if x =? 255 then 0 :: carry v else (x + 1) :: v
  end.

Definition is_max (v : bytes) : bool := forallb (λ x, x =? 255) v.

Definition big_endian_saturating_add_one (v : bytes) : bytes :=
  if is_max v then v else reverse (carry (reverse v)).

(** bincode with big-endian fixed-width integers; [None] is a [bincode::Error]. *)
Class KeySer (K : Type) := {
  be_fix_int_ser : K → bytes;
  key_deserialize : bytes → option K;
}.

(** [bcs::to_bytes] and [bcs::from_bytes] at the type of the values. *)
Class ValueBcs (V : Type) := {
  bcs_to_bytes : V → option bytes;
  bcs_from_bytes : bytes → option V;
}.

Section bounds.
Context {K : Type} `{KeySer K}.

Definition iterator_bounds (lower_bound upper_bound : option K) : option bytes * option bytes :=
  (be_fix_int_ser <$> lower_bound, be_fix_int_ser <$> upper_bound).

Definition iterator_bounds_with_range (lower_bound upper_bound : bound K) : option bytes * option bytes :=
  (match lower_bound with
   | Included k => Some (be_fix_int_ser k)
   | Excluded k => Some (big_endian_saturating_add_one (be_fix_int_ser k))
   | Unbounded => None
   end,
   match upper_bound with
   | Included k =>
     let key_buf := be_fix_int_ser k in
     if negb (is_max key_buf) then Some (big_endian_saturating_add_one key_buf) else None
   | Excluded k => Some (be_fix_int_ser k)
   | Unbounded => None
   end).
End bounds.

(** The keys of a range of the database: the lower bound is included, the upper
    one is not. *)
Definition in_range (lower upper : option bytes) (k : bytes) : bool :=
  match lower with Some l => bool_decide (key_le l k) | None => true end &&
  match upper with Some u => bool_decide (key_le k u ∧ k ≠ u) | None => true end.

(** ** Errors *)

Inductive TypedStoreError :=
| RocksDBError (why : string)
| Serialization (why : string)
| UnregisteredColumn (name : string)
| CrossDBBatch
| MetricsReporting
| RetryableTransaction.

(** ** The in-memory database (memstore.rs) *)

Inductive change :=
| Delete (cf_name : string) (key : bytes)
| Put (cf_name : string) (key value : bytes).

Record InMemoryDB := mk_in_memory { im_data : gmap string (gmap bytes bytes) }.

Definition im_get (db : InMemoryDB) (cf_name : string) (key : bytes) : option bytes :=
  match im_data db !! cf_name with Some cf => cf !! key | None => None end.

Definition im_multi_get (db : InMemoryDB) (cf_name : string) (keys : list bytes) : list (option bytes) :=
  match im_data db !! cf_name with Some cf => (λ k, cf !! k) <$> keys | None => [] end.

Definition im_delete (db : InMemoryDB) (cf_name : string) (key : bytes) : InMemoryDB :=
  mk_in_memory (<[cf_name := delete key (default ∅ (im_data db !! cf_name))]> (im_data db)).

Definition im_put (db : InMemoryDB) (cf_name : string) (key value : bytes) : InMemoryDB :=
  mk_in_memory (<[cf_name := <[key := value]> (default ∅ (im_data db !! cf_name))]> (im_data db)).

Definition im_write (db : InMemoryDB) (batch : list change) : InMemoryDB :=
  foldl (λ db c, match c with Delete cf k => im_delete db cf k | Put cf k v => im_put db cf k v end) db batch.

Definition im_has_cf (db : InMemoryDB) (name : string) : bool := bool_decide (is_Some (im_data db !! name)).
Definition im_drop_cf (db : InMemoryDB) (name : string) : InMemoryDB := mk_in_memory (delete name (im_data db)).

(** An iterator is the list of the items it yields. *)
Definition im_iterator {K V : Type} `{KeySer K} `{ValueBcs V} (db : InMemoryDB) (cf_name : string)
    (lower_bound upper_bound : option bytes) (reverse_ : bool) : outcome (list (result (K * V) TypedStoreError)) :=
  section ← map_range (from_option Included Unbounded lower_bound) (from_option Excluded Unbounded upper_bound)
              (default ∅ (im_data db !! cf_name));
  let section : list (bytes * bytes) := if reverse_ then reverse section else section in
  Ret ((λ '((raw_key, raw_value) : bytes * bytes),
    match key_deserialize raw_key, bcs_from_bytes raw_value with
    | Some key, Some value => Ok (key, value)
    | _, _ => Err (Serialization "deserialize")
    end) <$> section).

(** ** RocksDB *)

(** Where an iterator starts; after the first one it moves forward, after the
    others backward. *)
Inductive seek := SeekToFirst | SeekToLast | SeekForPrev (key : bytes).

Class RocksDb (R : Type) := {
  cf_handle : R → string → bool;
  rdb_get : R → string → bytes → result (option bytes) string;
  rdb_key_may_exist : R → string → bytes → bool;
  rdb_write : R → list change → result R string;
  (* the raw iterator with its two bounds: the entries it visits from where it was
     sought, and the status once it is not valid any more *)
  rdb_iterate : R → string → option bytes → option bytes → seek → list (bytes * bytes) * option string;
  rdb_drop_cf : R → string → result R string;
  rdb_create_cf : R → string → result R string;
}.

Definition apply_change (t : gmap string (gmap bytes bytes)) (c : change) : gmap string (gmap bytes bytes) :=
  match c with
  | Delete cf k => alter (delete k) cf t
  | Put cf k v => alter (<[k := v]>) cf t
  end.

Definition change_cf (c : change) : string := match c with Delete cf _ | Put cf _ _ => cf end.

(** The documented behaviour of operations that meet no I/O error. *)
Class RocksDbLaws (R : Type) `{RocksDb R} := {
  rdb_tables : R → gmap string (gmap bytes bytes);
  cf_handle_tables r name : cf_handle r name = bool_decide (is_Some (rdb_tables r !! name));
  rdb_get_tables r name t k : rdb_tables r !! name = Some t → rdb_get r name k = Ok (t !! k);
  rdb_key_may_exist_tables r name t k : rdb_tables r !! name = Some t → is_Some (t !! k) → rdb_key_may_exist r name k = true;
  rdb_write_tables r batch : (∀ c, c ∈ batch → is_Some (rdb_tables r !! change_cf c)) →
    ∃ r', rdb_write r batch = Ok r' ∧ rdb_tables r' = foldl apply_change (rdb_tables r) batch;
  rdb_iterate_tables r name t lower upper s : rdb_tables r !! name = Some t →
    rdb_iterate r name lower upper s =
      (let entries := btree_map_range (in_range lower upper) t in
       match s with
       | SeekToFirst => entries
       | SeekToLast => reverse entries
       | SeekForPrev k => reverse (filter (λ e : bytes * bytes, key_le e.1 k) entries)
       end, None);
}.

(** ** Databases and column families (database.rs) *)

Inductive Storage (R : Type) := Rocks (db : R) | InMemory (db : InMemoryDB).
Arguments Rocks {R} _.
Arguments InMemory {R} _.

Inductive ColumnFamily := CfRocks (name : string) | CfInMemory (name : string).

Definition cf_name (cf : ColumnFamily) : string := match cf with CfRocks name | CfInMemory name => name end.

(** [db_id] stands for the address of the shared database. *)
Record Database (R : Type) := mk_database { db_id : N; storage : Storage R }.
Arguments mk_database {R} _ _.
Arguments db_id {R} _.
Arguments storage {R} _.

Section database.
Context {R : Type} `{RocksDb R}.
Implicit Type db : Database R.

Definition set_storage db (s : Storage R) : Database R := mk_database (db_id db) s.

(** [rocks_cf]. *)
Definition rocks_cf (r : R) (name : string) : outcome unit :=
  assert (cf_handle r name) "Map-keying column family should have been checked at DB creation".

Definition rocks_result {A} (r : result A string) : result A TypedStoreError :=
  match r with Ok a => Ok a | Err e => Err (RocksDBError e) end.

Definition invariant_violation {A} : result A TypedStoreError := Err (RocksDBError "typed store invariant violation").

Definition db_get db (cf : ColumnFamily) (key : bytes) : outcome (result (option bytes) TypedStoreError) :=
  match storage db, cf with
  | Rocks r, CfRocks name => _ ← rocks_cf r name; Ret (rocks_result (rdb_get r name key))
  | InMemory m, CfInMemory name => Ret (Ok (im_get m name key))
  | _, _ => Ret invariant_violation
  end.

Definition db_multi_get db (cf : ColumnFamily) (keys : list bytes) : outcome (list (result (option bytes) TypedStoreError)) :=
  match storage db, cf with
  | Rocks r, CfRocks name => _ ← rocks_cf r name; Ret ((λ k, rocks_result (rdb_get r name k)) <$> keys)
  | InMemory m, CfInMemory name => Ret (Ok <$> im_multi_get m name keys)
  | _, _ => Panic "typed store invariant violation"
  end.

Definition db_create_cf db (name : string) : result (Database R) string :=
  match storage db with
  | Rocks r => match rdb_create_cf r name with Ok r => Ok (set_storage db (Rocks r)) | Err e => Err e end
  | InMemory _ => Ok db
  end.

Definition db_drop_cf db (name : string) : result (Database R) string :=
  match storage db with
  | Rocks r => match rdb_drop_cf r name with Ok r => Ok (set_storage db (Rocks r)) | Err e => Err e end
  | InMemory m => Ok (set_storage db (InMemory (im_drop_cf m name)))
  end.

Definition db_delete_cf db (cf : ColumnFamily) (key : bytes) : outcome (result (Database R) TypedStoreError) :=
  match storage db, cf with
  | Rocks r, CfRocks name =>
    _ ← rocks_cf r name;
    Ret (match rocks_result (rdb_write r [Delete name key]) with Ok r => Ok (set_storage db (Rocks r)) | Err e => Err e end)
  | InMemory m, CfInMemory name => Ret (Ok (set_storage db (InMemory (im_delete m name key))))
  | _, _ => Ret invariant_violation
  end.

Definition db_put_cf db (cf : ColumnFamily) (key value : bytes) : outcome (result (Database R) TypedStoreError) :=
  match storage db, cf with
  | Rocks r, CfRocks name =>
    _ ← rocks_cf r name;
    Ret (match rocks_result (rdb_write r [Put name key value]) with Ok r => Ok (set_storage db (Rocks r)) | Err e => Err e end)
  | InMemory m, CfInMemory name => Ret (Ok (set_storage db (InMemory (im_put m name key value))))
  | _, _ => Ret invariant_violation
  end.

Definition key_may_exist_cf db (cf : ColumnFamily) (key : bytes) : outcome bool :=
  match storage db with
  | Rocks r => _ ← rocks_cf r (cf_name cf); Ret (rdb_key_may_exist r (cf_name cf) key)
  | InMemory _ => Ret true
  end.

Inductive StorageWriteBatch := BatchRocks (ops : list change) | BatchInMemory (ops : list change).

Definition db_write db (batch : StorageWriteBatch) : result (Database R) TypedStoreError :=
  match storage db, batch with
  | Rocks r, BatchRocks ops =>
    match rocks_result (rdb_write r ops) with Ok r => Ok (set_storage db (Rocks r)) | Err e => Err e end
  | InMemory m, BatchInMemory ops => Ok (set_storage db (InMemory (im_write m ops)))
  | _, _ => Err (RocksDBError "using invalid batch type for the database")
  end.

(** [rocks_cf_from_db]. *)
Definition rocks_cf_from_db db (name : string) : outcome (result unit TypedStoreError) :=
  match storage db with
  | Rocks r => _ ← rocks_cf r name; Ret (Ok tt)
  | InMemory _ => Ret (Err (RocksDBError "using invalid batch type for the database"))
  end.

(** ** Tables *)

(** The table of a column family of the database [dm_db]. *)
Record DBMap (K V : Type) := mk_db_map { dm_db : N; column_family : ColumnFamily }.

Record DBBatch := mk_db_batch { bt_database : N; bt_batch : StorageWriteBatch }.

Definition DBMap_reopen {K V} db (opt_cf : option string) : DBMap K V :=
  let cf_key := default "default" opt_cf in
  mk_db_map K V (db_id db) (match storage db with Rocks _ => CfRocks cf_key | InMemory _ => CfInMemory cf_key end).

(** [DBMap::batch]. *)
Definition new_batch db : DBBatch :=
  mk_db_batch (db_id db) (match storage db with Rocks _ => BatchRocks [] | InMemory _ => BatchInMemory [] end).

Definition batch_write db (b : DBBatch) : result (Database R) TypedStoreError := db_write db (bt_batch b).

(** What [SafeIter::next] yields: it stops at an entry that does not decode, and
    reports the status at the end. *)
Fixpoint safe_iter_items {K V : Type} `{KeySer K} `{ValueBcs V} (entries : list (bytes * bytes)) (status : option string)
    : list (result (K * V) TypedStoreError) :=
  match entries with
  | [] => match status with None => [] | Some e => [Err (RocksDBError e)] end
  | (raw_key, raw_value) :: entries =>
    match key_deserialize raw_key, bcs_from_bytes raw_value with
    | Some key, Some value => Ok (key, value) :: safe_iter_items entries status
    | _, _ => []
    end
  end.

Section map.
Context {K V : Type} `{KeySer K} `{ValueBcs V}.
Implicit Type m : DBMap K V.
Abbreviation items := (list (result (K * V) TypedStoreError)).

(** A raw iterator over the table, with its bounds set in the read options. *)
Definition rocks_items (r : R) m (lower upper : option bytes) (s : seek) : outcome items :=
  _ ← rocks_cf r (cf_name (column_family K V m));
  let '(entries, status) := rdb_iterate r (cf_name (column_family K V m)) lower upper s in
  Ret (safe_iter_items entries status).

Definition safe_iter db m : outcome items :=
  match storage db with
  | Rocks r => rocks_items r m None None SeekToFirst
  | InMemory im => im_iterator im (cf_name (column_family K V m)) None None false
  end.

Definition safe_iter_with_bounds db m (lower_bound upper_bound : option K) : outcome items :=
  let '(lower, upper) := iterator_bounds lower_bound upper_bound in
  match storage db with
  | Rocks r => rocks_items r m lower upper SeekToFirst
  | InMemory im => im_iterator im (cf_name (column_family K V m)) lower upper false
  end.

Definition safe_range_iter db m (start_bound end_bound : bound K) : outcome items :=
  let '(lower, upper) := iterator_bounds_with_range start_bound end_bound in
  match storage db with
  | Rocks r => rocks_items r m lower upper SeekToFirst
  | InMemory im => im_iterator im (cf_name (column_family K V m)) lower upper false
  end.

Definition reversed_safe_iter_with_bounds db m (lower_bound upper_bound : option K) : outcome items :=
  let '(lower, upper) := iterator_bounds_with_range (from_option Included Unbounded lower_bound)
                           (from_option Included Unbounded upper_bound) in
  match storage db with
  | Rocks r =>
    rocks_items r m lower upper (match upper_bound with None => SeekToLast | Some k => SeekForPrev (be_fix_int_ser k) end)
  | InMemory im => im_iterator im (cf_name (column_family K V m)) lower upper true
  end.

(** [collect] into a [Result]. *)
Fixpoint collect_results {A E} (l : list (result A E)) : result (list A) E :=
  match l with
  | [] => Ok []
  | Err e :: _ => Err e
  | Ok a :: l => match collect_results l with Ok l => Ok (a :: l) | Err e => Err e end
  end.

Definition multi_get_pinned db m (keys : list K) : outcome (result (list (option bytes)) TypedStoreError) :=
  results ← db_multi_get db (column_family K V m) (be_fix_int_ser <$> keys);
  Ret (collect_results results).

Definition decode_value (data : option bytes) : result (option V) TypedStoreError :=
  match data with
  | Some data => match bcs_from_bytes data with Some v => Ok (Some v) | None => Err (Serialization "bcs") end
  | None => Ok None
  end.

Definition contains_key db m (key : K) : outcome (result bool TypedStoreError) :=
  let key_buf := be_fix_int_ser key in
  may_exist ← key_may_exist_cf db (column_family K V m) key_buf;
  if (may_exist : bool) then
    r ← db_get db (column_family K V m) key_buf;
    Ret (match r : result (option bytes) TypedStoreError with Ok o => Ok (bool_decide (is_Some o)) | Err e => Err e end)
  else Ret (Ok false).

Definition multi_contains_keys db m (keys : list K) : outcome (result (list bool) TypedStoreError) :=
  r ← multi_get_pinned db m keys;
  Ret (match r : result (list (option bytes)) TypedStoreError with
       | Ok values => Ok ((λ v : option bytes, bool_decide (is_Some v)) <$> values)
       | Err e => Err e
       end).

Definition dm_get db m (key : K) : outcome (result (option V) TypedStoreError) :=
  r ← db_get db (column_family K V m) (be_fix_int_ser key);
  Ret (match r : result (option bytes) TypedStoreError with Ok data => decode_value data | Err e => Err e end).

Definition multi_get db m (keys : list K) : outcome (result (list (option V)) TypedStoreError) :=
  r ← multi_get_pinned db m keys;
  Ret (match r : result (list (option bytes)) TypedStoreError with
       | Ok values => collect_results (decode_value <$> values)
       | Err e => Err e
       end).

Definition dm_insert db m (key : K) (value : V) : outcome (result (Database R) TypedStoreError) :=
  match bcs_to_bytes value with
  | None => Ret (Err (Serialization "bcs"))
  | Some value_buf => db_put_cf db (column_family K V m) (be_fix_int_ser key) value_buf
  end.

Definition dm_remove db m (key : K) : outcome (result (Database R) TypedStoreError) :=
  db_delete_cf db (column_family K V m) (be_fix_int_ser key).

Definition unsafe_clear db m : result (Database R) TypedStoreError :=
  let name := cf_name (column_family K V m) in
  let db := match db_drop_cf db name with Ok db => db | Err _ => db end in
  rocks_result (db_create_cf db name).

Definition dm_is_empty db m : outcome bool := l ← safe_iter db m; Ret (bool_decide ((l : items) = [])).

(** Adds a change to a batch. *)
Definition push_change db (b : DBBatch) (cf : ColumnFamily) (c : string → change) : outcome (result DBBatch TypedStoreError) :=
  match bt_batch b, cf with
  | BatchRocks ops, CfRocks name =>
    r ← rocks_cf_from_db db name;
    Ret (match r : result unit TypedStoreError with
         | Ok _ => Ok (mk_db_batch (bt_database b) (BatchRocks (ops ++ [c name])))
         | Err e => Err e
         end)
  | BatchInMemory ops, CfInMemory name => Ret (Ok (mk_db_batch (bt_database b) (BatchInMemory (ops ++ [c name]))))
  | _, _ => Ret invariant_violation
  end.

(** [try_for_each] over the values to insert or delete. *)
Fixpoint try_for_each {A B} (f : B → A → outcome (result B TypedStoreError)) (b : B) (l : list A) : outcome (result B TypedStoreError) :=
  match l with
  | [] => Ret (Ok b)
  | x :: l => r ← f b x; match r : result B TypedStoreError with Ok b => try_for_each f b l | Err e => Ret (Err e) end
  end.

Definition delete_batch db (b : DBBatch) m (purged_vals : list K) : outcome (result DBBatch TypedStoreError) :=
  if negb (dm_db K V m =? bt_database b) then Ret (Err CrossDBBatch)
  else try_for_each (λ b k, push_change db b (column_family K V m) (λ name, Delete name (be_fix_int_ser k))) b purged_vals.

Definition insert_batch db (b : DBBatch) m (new_vals : list (K * V)) : outcome (result DBBatch TypedStoreError) :=
  if negb (dm_db K V m =? bt_database b) then Ret (Err CrossDBBatch)
  else try_for_each (λ b '((k, v) : K * V),
    match bcs_to_bytes v with
    | None => Ret (Err (Serialization "bcs"))
    | Some v_buf => push_change db b (column_family K V m) (λ name, Put name (be_fix_int_ser k) v_buf)
    end) b new_vals.

Definition multi_insert db m (key_val_pairs : list (K * V)) : outcome (result (Database R) TypedStoreError) :=
  r ← insert_batch db (new_batch db) m key_val_pairs;
  Ret (match r : result DBBatch TypedStoreError with Ok b => batch_write db b | Err e => Err e end).

Definition multi_remove db m (keys : list K) : outcome (result (Database R) TypedStoreError) :=
  r ← delete_batch db (new_batch db) m keys;
  Ret (match r : result DBBatch TypedStoreError with Ok b => batch_write db b | Err e => Err e end).
End map.
End database.

(** ** Bytes as big-endian numbers *)

Fixpoint be_value (v : bytes) : N :=
  match v with [] => 0 | x :: v => x * 256 ^ N.of_nat (length v) + be_value v end.

Abbreviation is_bytes := (Forall (λ x, x <= 255)).

Lemma be_value_bound v : is_bytes v → be_value v < 256 ^ N.of_nat (length v).
Proof.
  induction 1 as [|x v Hx Hv IH]; [done|]. cbn [be_value length]. rewrite Nat2N.inj_succ, N.pow_succ_r'. nia.
Qed.

Lemma bytes_le_value v w : is_bytes v → is_bytes w → length v = length w → key_le v w ↔ be_value v <= be_value w.
Proof.
  intros Hv. revert w. induction Hv as [|x v Hx Hv IH]; intros [|y w] Hw Hlen; try done.
  apply Forall_cons in Hw as [Hy Hw]. injection Hlen as Hlen. change (key_le (x :: v) (y :: w)) with (x < y ∨ (x = y ∧ key_le v w)).
  cbn [be_value]. rewrite (IH w Hw Hlen). apply be_value_bound in Hv as Hbv. apply be_value_bound in Hw as Hbw. rewrite Hlen in Hbv |- *.
  split; [intros [?|[-> ?]]; nia|]. intros Hle. destruct (N.lt_trichotomy x y) as [?|[->|?]]; [by left|right; split; [done|nia]|nia].
Qed.

Lemma be_value_snoc v x : be_value (v ++ [x]) = be_value v * 256 + x.
Proof.
  induction v as [|y v IH]; cbn [be_value app]; [cbn; lia|]. rewrite IH, length_app. cbn [length].
  rewrite Nat2N.inj_add, N.pow_add_r. change (256 ^ N.of_nat 1) with 256. lia.
Qed.

Lemma be_value_inj v w : is_bytes v → is_bytes w → length v = length w → be_value v = be_value w → v = w.
Proof. intros Hv Hw Hlen Heq. apply (anti_symm key_le); apply bytes_le_value; try done; lia. Qed.

(** The increment is the increment of the number, of the same length. *)
Lemma add_one_value v : is_bytes v → is_max v = false →
  let w := big_endian_saturating_add_one v in is_bytes w ∧ length w = length v ∧ be_value w = be_value v + 1.
Proof.
  unfold big_endian_saturating_add_one. intros Hv Hm. rewrite Hm. cbn zeta. induction v as [|x v IH] using rev_ind; [done|].
  apply Forall_app in Hv as [Hv [Hx _]%Forall_cons]. unfold is_max in Hm. rewrite forallb_app in Hm. cbn [forallb] in Hm. rewrite andb_true_r in Hm.
  rewrite reverse_snoc. cbn [carry]. destruct (N.eqb_spec x 255) as [->|Hne]; rewrite reverse_cons, !length_app; cbn [length].
  - rewrite andb_true_r in Hm. destruct (IH Hv Hm) as (Hb & Hl & Hval). rewrite !be_value_snoc, Hval, Hl.
    split_and!; [apply Forall_app; split; [done|]; by constructor|done|lia].
  - rewrite reverse_involutive, !be_value_snoc. split_and!; [apply Forall_app; split; [done|]; constructor; [lia|done]|done|lia].
Qed.

Lemma is_max_greatest v w : is_bytes w → length w = length v → is_max v = true → key_le w v.
Proof.
  unfold is_max. rewrite forallb_forall. intros Hw. revert v. induction Hw as [|x w Hx Hw IH]; intros [|y v] Hlen Hm; try done.
  injection Hlen as Hlen. assert (y = 255) as -> by (apply N.eqb_eq, Hm; by left).
  change (x < 255 ∨ (x = 255 ∧ key_le w v)). destruct (decide (x = 255)) as [->|?]; [right|left; lia].
  split; [done|]. apply IH; [done|]. intros z Hz. apply Hm. by right.
Qed.

(** ** The laws of the encodings *)

(** bincode writes integers with a fixed number of bytes, the most significant
    first, and the parts of a tuple or struct one after the other: so all keys of a
    type have the same length and the order of the bytes is the order of the keys.
    The end of a key shows in its bytes, so distinct keys have distinct bytes.
    [key_ok] states that the integers of a key fit their types. *)
Class KeySerLaws (K : Type) `{OrdKey K, KeySer K} := {
  key_ok : K → Prop;
  key_len : nat;
  key_delimited k k' s t : be_fix_int_ser k ++ s = be_fix_int_ser k' ++ t → k = k' ∧ s = t;
  key_roundtrip k : key_ok k → key_deserialize (be_fix_int_ser k) = Some k;
  key_bytes k : key_ok k → is_bytes (be_fix_int_ser k) ∧ length (be_fix_int_ser k) = key_len;
  key_order k k' : key_ok k → key_ok k' → key_le (be_fix_int_ser k) (be_fix_int_ser k') ↔ key_le k k';
}.

Class ValueBcsLaws (V : Type) `{ValueBcs V} := {
  value_ok : V → Prop;
  value_roundtrip v : value_ok v → ∃ bs, bcs_to_bytes v = Some bs ∧ bcs_from_bytes bs = Some v;
}.

Section keys.
Context {K : Type} `{KeySerLaws K}.
Implicit Types (k : K) (lo hi : bound K).

Lemma ser_inj k k' : be_fix_int_ser k = be_fix_int_ser k' → k = k'.
Proof. intros Heq. by destruct (key_delimited k k' [] []); [rewrite Heq|]. Qed.

(** The next key in the order of the bytes. *)
Lemma below_add_one k k' : key_ok k → key_ok k' → is_max (be_fix_int_ser k) = false →
  key_le (big_endian_saturating_add_one (be_fix_int_ser k)) (be_fix_int_ser k') ↔ ¬ key_le k' k.
Proof.
  intros Hk Hk' Hm. destruct (key_bytes k Hk) as [Hb Hl]. destruct (key_bytes k' Hk') as [Hb' Hl'].
  destruct (add_one_value _ Hb Hm) as (Hw & Hlw & Hval). rewrite <-(key_order k' k) by done.
  rewrite !bytes_le_value by (done || congruence). lia.
Qed.

Definition bound_ok (b : bound K) : Prop := match b with Included k | Excluded k => key_ok k | Unbounded => True end.

(** The byte range of [iterator_bounds_with_range] holds the keys of the range.  A
    lower bound that excludes the greatest key is not representable. *)
Lemma iterator_bounds_correct lo hi k lower upper : bound_ok lo → bound_ok hi → key_ok k →
  (∀ k0, lo = Excluded k0 → is_max (be_fix_int_ser k0) = false) →
  iterator_bounds_with_range lo hi = (lower, upper) →
  in_range lower upper (be_fix_int_ser k) = above lo k && below hi k.
Proof.
  intros Hlo Hhi Hk Hmax [= <- <-]. unfold in_range. f_equal.
  - destruct lo as [b|b|]; cbn [above]; [| |done]; apply bool_decide_ext; [by apply key_order|].
    rewrite below_add_one by auto. split; [|by intros [? Hn] ?; apply Hn, (anti_symm key_le)].
    intros Hn. destruct (total key_le b k) as [?|?]; [|done]. split; [done|]. intros ->. by apply Hn.
  - destruct hi as [b|b|]; cbn [below]; [| |done].
    + destruct (key_bytes b Hhi) as [Hb Hl]. destruct (key_bytes k Hk) as [Hbk Hlk].
      destruct (is_max (be_fix_int_ser b)) eqn:Hm; cbn [negb].
      * symmetry. apply bool_decide_eq_true, key_order; try done. by apply is_max_greatest; [|congruence|].
      * apply bool_decide_ext. pose proof (below_add_one b k Hhi Hk Hm) as Hadd.
        split; [|intros Hle; split].
        -- intros [Hle Hne]. destruct (decide (key_le k b)) as [?|Hn]; [done|]. destruct Hne. by apply (anti_symm key_le), Hadd.
        -- destruct (total key_le (be_fix_int_ser k) (big_endian_saturating_add_one (be_fix_int_ser b))) as [?|Hc]; [done|].
           by apply Hadd in Hc.
        -- intros Heq. assert (¬ key_le k b) as Hc; [|done]. apply Hadd. by rewrite Heq.
    + apply bool_decide_ext. rewrite key_order by done. split; intros [? Hn]; (split; [done|]); intros Heq; apply Hn; [by rewrite Heq|by apply ser_inj].
Qed.
End keys.

(** ** What a table holds *)

Section tables.
Context {K V : Type} `{KeySerLaws K} `{ValueBcsLaws V}.
Implicit Types (t : gmap bytes bytes) (g : gmap K V).

(** The bytes [t] hold the entries [g]. *)
Record encodes t g : Prop := {
  en_entry k v : g !! k = Some v → key_ok k ∧ value_ok v ∧ ∃ bs, bcs_to_bytes v = Some bs ∧ t !! be_fix_int_ser k = Some bs;
  en_key kb : is_Some (t !! kb) → ∃ k, kb = be_fix_int_ser k ∧ is_Some (g !! k);
}.

Lemma encodes_empty : encodes ∅ ∅.
Proof. split; [done|]. by intros kb [? ?]. Qed.

Lemma encodes_lookup t g k : encodes t g →
  match g !! k with
  | Some v => ∃ bs, t !! be_fix_int_ser k = Some bs ∧ bcs_from_bytes bs = Some v
  | None => t !! be_fix_int_ser k = None
  end.
Proof.
  intros He. destruct (g !! k) as [v|] eqn:Hg.
  - destruct (en_entry _ _ He k v Hg) as (_ & Hv & bs & Hb & Ht). destruct (value_roundtrip v Hv) as (bs' & Hb' & Hd).
    rewrite Hb in Hb'. injection Hb' as <-. eauto.
  - apply eq_None_not_Some. intros (k' & Hkk & [v Hg'])%(en_key _ _ He).
    apply ser_inj in Hkk as ->. congruence.
Qed.

Lemma encodes_insert t g k v bs : encodes t g → key_ok k → value_ok v → bcs_to_bytes v = Some bs →
  encodes (<[be_fix_int_ser k := bs]> t) (<[k := v]> g).
Proof.
  intros He Hk Hv Hb. split.
  - intros k' v'. rewrite lookup_insert_Some. intros [[<- <-]|[Hne Hg]].
    + split_and!; [done..|]. exists bs. by rewrite lookup_insert_eq.
    + destruct (en_entry _ _ He k' v' Hg) as (Hk' & Hv' & bs' & Hb' & Ht). split_and!; [done..|]. exists bs'.
      rewrite lookup_insert_ne; [done|]. by intros ->%ser_inj.
  - intros kb. rewrite lookup_insert_is_Some. intros [<-|[_ (k' & -> & Hg)%(en_key _ _ He)]].
    + exists k. by rewrite lookup_insert_eq.
    + exists k'. split; [done|]. rewrite lookup_insert_is_Some. by destruct (decide (k = k')); [left|right].
Qed.

Lemma encodes_delete t g k : encodes t g → key_ok k → encodes (delete (be_fix_int_ser k) t) (delete k g).
Proof.
  intros He Hk. split.
  - intros k' v'. rewrite lookup_delete_Some. intros [Hne Hg].
    destruct (en_entry _ _ He k' v' Hg) as (Hk' & Hv' & bs' & Hb' & Ht). split_and!; [done..|]. exists bs'.
    rewrite lookup_delete_ne; [done|]. by intros ->%ser_inj.
  - intros kb. rewrite lookup_delete_is_Some. intros [Hne (k' & -> & Hg)%(en_key _ _ He)]. exists k'. split; [done|].
    rewrite lookup_delete_is_Some. split; [|done]. by intros ->.
Qed.

(** The keys come in the same order. *)
Lemma encodes_keys t g : encodes t g → btree_keys t = be_fix_int_ser <$> btree_keys g.
Proof.
  intros He. assert (∀ k, k ∈ btree_keys g → key_ok k) as Hok.
  { intros k [v Hv]%elem_of_btree_iter%elem_of_dom. by apply (en_entry _ _ He k v). }
  apply btree_sorted_unique.
  - apply btree_iter_sorted.
  - pose proof (btree_iter_sorted (dom g)) as Hs. unfold btree_keys in Hok |- *. induction Hs as [|k l Hl IH Hk]; [constructor|]. csimpl. constructor.
    + apply IH. set_solver.
    + apply Forall_fmap, Forall_forall. intros k' Hk'. apply key_order; [set_solver..|]. by eapply Forall_forall in Hk'.
  - apply btree_iter_NoDup.
  - apply NoDup_fmap_2_strong; [|apply btree_iter_NoDup]. intros k k' _ _. apply ser_inj.
  - intros kb. unfold btree_keys. rewrite elem_of_btree_iter, elem_of_dom, list_elem_of_fmap. setoid_rewrite elem_of_btree_iter. setoid_rewrite elem_of_dom. split.
    + by apply en_key.
    + intros (k & -> & [v Hg]). destruct (en_entry _ _ He k v Hg) as (_ & _ & bs & _ & ->). by eexists.
Qed.

(** A stored entry and the typed entry it decodes to. *)
Definition entry_of (e : bytes * bytes) (x : K * V) : Prop :=
  key_ok x.1 ∧ e.1 = be_fix_int_ser x.1 ∧ bcs_from_bytes e.2 = Some x.2.

Lemma encodes_entries t g : encodes t g → Forall2 entry_of (btree_entries t) (btree_entries g).
Proof.
  intros He. unfold btree_entries at 1. rewrite (encodes_keys t g He). unfold btree_entries.
  assert (∀ k, k ∈ btree_keys g → is_Some (g !! k)) as Hin by (intros k; rewrite <-elem_of_dom; apply elem_of_btree_iter).
  induction (btree_keys g) as [|k l IH]; [constructor|]. csimpl. destruct (Hin k) as [v Hv]; [left|].
  destruct (en_entry _ _ He k v Hv) as (Hk & _). pose proof (encodes_lookup t g k He) as Hl. rewrite Hv in Hl. destruct Hl as (bs & -> & Hd).
  rewrite Hv. csimpl. constructor; [done|]. apply IH. set_solver.
Qed.

Lemma entries_filter (P : bytes → Prop) (Q : K → Prop) `{!∀ k, Decision (P k), !∀ k, Decision (Q k)} l l' :
  Forall2 entry_of l l' → (∀ k, key_ok k → P (be_fix_int_ser k) ↔ Q k) →
  Forall2 entry_of (filter (λ e : bytes * bytes, P e.1) l) (filter (λ x : K * V, Q x.1) l').
Proof.
  intros Hl Hiff. induction Hl as [|[kb bs] [k v] l l' (Hk & Hkb & Hd) Hl IH]; [constructor|]. rewrite !filter_cons. cbn in Hk, Hkb |- *.
  subst kb. destruct (decide (P (be_fix_int_ser k))) as [Hp|Hn]; destruct (decide (Q k)) as [Hq|Hn'].
  - by constructor.
  - by apply Hiff in Hp.
  - by apply Hiff in Hq.
  - done.
Qed.

Lemma entries_items l l' : Forall2 entry_of l l' → safe_iter_items l None = Ok <$> l'.
Proof.
  induction 1 as [|[kb bs] [k v] l l' (Hk & Hkb & Hd) Hl IH]; [done|]. cbn in Hk, Hkb, Hd. subst kb. csimpl.
  rewrite (key_roundtrip k Hk), Hd. by f_equal.
Qed.

Lemma entries_memory_items l l' : Forall2 entry_of l l' →
  (λ '((raw_key, raw_value) : bytes * bytes), match key_deserialize raw_key, bcs_from_bytes raw_value with
    | Some key, Some value => Ok (key, value) | _, _ => Err (Serialization "deserialize") end) <$> l = Ok <$> l'.
Proof.
  induction 1 as [|[kb bs] [k v] l l' (Hk & Hkb & Hd) Hl IH]; [done|]. cbn in Hk, Hkb, Hd. subst kb. csimpl.
  rewrite (key_roundtrip k Hk), Hd. by f_equal.
Qed.
End tables.

(** ** Tables as maps *)

Section typed_map.
Context {R : Type} `{RocksDbLaws R}.
Implicit Type db : Database R.

Definition raw_tables db : gmap string (gmap bytes bytes) :=
  match storage db with Rocks r => rdb_tables r | InMemory m => im_data m end.

Definition in_memory db : bool := match storage db with Rocks _ => false | InMemory _ => true end.

(** The column family [cf] is that of the table [name] of [db]. *)
Definition cf_of db (cf : ColumnFamily) (name : string) : Prop :=
  cf = (if in_memory db then CfInMemory name else CfRocks name) ∧ is_Some (raw_tables db !! name).

Lemma rocks_cf_ok (r : R) name : is_Some (rdb_tables r !! name) → rocks_cf r name = Ret tt.
Proof. intros Hs. unfold rocks_cf. rewrite cf_handle_tables. by rewrite bool_decide_eq_true_2. Qed.

Lemma db_get_ok db cf name t k : cf_of db cf name → raw_tables db !! name = Some t → db_get db cf k = Ret (Ok (t !! k)).
Proof.
  unfold cf_of, raw_tables, in_memory, db_get. destruct (storage db) as [r|m]; intros [-> Hs] Ht.
  - rewrite rocks_cf_ok by done. cbn. by rewrite (rdb_get_tables _ _ _ _ Ht).
  - unfold im_get. by rewrite Ht.
Qed.

Lemma db_multi_get_ok db cf name t ks : cf_of db cf name → raw_tables db !! name = Some t →
  db_multi_get db cf ks = Ret ((λ k, Ok (t !! k)) <$> ks).
Proof.
  unfold cf_of, raw_tables, in_memory, db_multi_get. destruct (storage db) as [r|m]; intros [-> Hs] Ht.
  - rewrite rocks_cf_ok by done. cbn. f_equal. apply list_fmap_ext. intros _ k _. by rewrite (rdb_get_tables _ _ _ _ Ht).
  - unfold im_multi_get. rewrite Ht, <-list_fmap_compose. done.
Qed.

Lemma key_may_exist_ok db cf name t k : cf_of db cf name → raw_tables db !! name = Some t →
  ∃ b, key_may_exist_cf db cf k = Ret b ∧ (is_Some (t !! k) → b = true).
Proof.
  unfold cf_of, raw_tables, in_memory, key_may_exist_cf. destruct (storage db) as [r|m]; intros [-> Hs] Ht; [|by eexists].
  cbn [cf_name]. rewrite rocks_cf_ok by done. eexists. split; [done|]. by apply rdb_key_may_exist_tables.
Qed.

(** A batch that is written changes the tables. *)
Definition batch_ops (b : DBBatch) : list change := match bt_batch b with BatchRocks ops | BatchInMemory ops => ops end.
Definition pending db (b : DBBatch) : gmap string (gmap bytes bytes) := foldl apply_change (raw_tables db) (batch_ops b).

Definition batch_of db (b : DBBatch) : Prop :=
  bt_database b = db_id db ∧ bt_batch b = (if in_memory db then BatchInMemory (batch_ops b) else BatchRocks (batch_ops b)) ∧
  ∀ c, c ∈ batch_ops b → is_Some (raw_tables db !! change_cf c).

Lemma apply_change_is_Some t c name : is_Some (apply_change t c !! name) ↔ is_Some (t !! name).
Proof.
  destruct c as [cf k|cf k v]; cbn [apply_change]; (destruct (decide (cf = name)) as [->|Hne];
    [rewrite lookup_alter_eq; apply fmap_is_Some|by rewrite lookup_alter_ne]).
Qed.

Lemma im_change_apply m c : is_Some (im_data m !! change_cf c) →
  im_data (match c with Delete cf k => im_delete m cf k | Put cf k v => im_put m cf k v end) = apply_change (im_data m) c.
Proof.
  intros [t Ht]. destruct c as [cf k|cf k v]; cbn in Ht |- *; rewrite Ht; cbn [default]; apply map_eq; intros name;
    (destruct (decide (cf = name)) as [->|Hne]; [by rewrite lookup_insert_eq, lookup_alter_eq, Ht|by rewrite lookup_insert_ne, lookup_alter_ne]).
Qed.

Lemma im_write_apply ops : ∀ m, (∀ c, c ∈ ops → is_Some (im_data m !! change_cf c)) → im_data (im_write m ops) = foldl apply_change (im_data m) ops.
Proof.
  induction ops as [|c ops IH]; intros m Hall; [done|]. unfold im_write in IH |- *. cbn [foldl].
  rewrite <-(im_change_apply m c) by (apply Hall; left). rewrite IH; [done|].
  intros c' Hc'. rewrite (im_change_apply m c), apply_change_is_Some by (apply Hall; left). apply Hall. by right.
Qed.

Lemma batch_write_ok db b : batch_of db b →
  ∃ db', batch_write db b = Ok db' ∧ raw_tables db' = pending db b ∧ in_memory db' = in_memory db ∧ db_id db' = db_id db.
Proof.
  unfold batch_of, batch_write, db_write, pending, raw_tables, in_memory. intros (_ & Hb & Hall). rewrite Hb. clear Hb.
  destruct (storage db) as [r|m] eqn:Hst.
  - destruct (rdb_write_tables r (batch_ops b) Hall) as (r' & -> & Ht). eexists. by split.
  - eexists. split; [done|]. cbn. by rewrite im_write_apply.
Qed.

Lemma new_batch_of db : batch_of db (new_batch db) ∧ pending db (new_batch db) = raw_tables db.
Proof.
  unfold batch_of, pending, new_batch, batch_ops, in_memory. by destruct (storage db); cbn; (split; [split_and!; [done|done|set_solver]|]).
Qed.

Lemma push_change_ok db b cf name c : batch_of db b → cf_of db cf name → change_cf (c name) = name →
  ∃ b', push_change db b cf c = Ret (Ok b') ∧ batch_of db b' ∧ pending db b' = apply_change (pending db b) (c name).
Proof.
  intros (Hid & Hb & Hall) [-> Hs] Hc. unfold push_change. rewrite Hb. unfold rocks_cf_from_db, batch_of, pending, in_memory, raw_tables in *.
  destruct (storage db) as [r|m]; [rewrite rocks_cf_ok by done|]; (eexists; split; [done|]; cbn; split_and!; try done;
    [|by rewrite foldl_snoc]); intros c' [?|Hc'%list_elem_of_singleton]%elem_of_app; [auto|by rewrite Hc', Hc|auto|by rewrite Hc', Hc].
Qed.

Section ops.
Context {K V : Type} `{KeySerLaws K} `{ValueBcsLaws V}.
Implicit Types (m : DBMap K V) (g : gmap K V) (tables : gmap string (gmap bytes bytes)).

(** The table [m] of [db], in the state [tables], holds the entries [g]. *)
Definition table_in db tables m g : Prop :=
  dm_db K V m = db_id db ∧ ∃ name t, cf_of db (column_family K V m) name ∧ tables !! name = Some t ∧ encodes t g.
Definition table_holds db m g : Prop := table_in db (raw_tables db) m g.

Lemma collect_results_Ok {A B E} (f : A → B) (l : list A) : collect_results ((λ x, Ok (f x) : result B E) <$> l) = Ok (f <$> l).
Proof. induction l as [|x l IH]; [done|]. csimpl. by rewrite IH. Qed.

Lemma dm_get_ok db m g k : table_holds db m g → dm_get db m k = Ret (Ok (g !! k)).
Proof.
  intros (_ & name & t & Hcf & Ht & He). unfold dm_get. rewrite (db_get_ok _ _ _ _ _ Hcf Ht). cbn [mbind outcome_bind].
  pose proof (encodes_lookup t g k He) as Hl. destruct (g !! k) as [v|]; [destruct Hl as (bs & -> & Hd)|rewrite Hl; done].
  cbn [decode_value]. by rewrite Hd.
Qed.

Lemma encodes_is_Some t g k : encodes t g → is_Some (t !! be_fix_int_ser k) ↔ is_Some (g !! k).
Proof.
  intros He. pose proof (encodes_lookup t g k He) as Hl. destruct (g !! k) as [v|]; [destruct Hl as (bs & -> & _)|rewrite Hl]; [|done].
  split; by eexists.
Qed.

Lemma contains_key_ok db m g k : table_holds db m g → contains_key db m k = Ret (Ok (bool_decide (is_Some (g !! k)))).
Proof.
  intros (_ & name & t & Hcf & Ht & He). unfold contains_key. destruct (key_may_exist_ok _ _ _ _ (be_fix_int_ser k) Hcf Ht) as (b & -> & Hb).
  cbn [mbind outcome_bind]. pose proof (encodes_is_Some t g k He) as Hi. destruct b.
  - rewrite (db_get_ok _ _ _ _ _ Hcf Ht). cbn [mbind outcome_bind]. do 2 f_equal. by apply bool_decide_ext.
  - do 2 f_equal. symmetry. apply bool_decide_eq_false. intros Hs. by apply Hi, Hb in Hs.
Qed.

Lemma multi_get_ok db m g ks : table_holds db m g →
  multi_get db m ks = Ret (Ok ((λ k, g !! k) <$> ks)) ∧ multi_contains_keys db m ks = Ret (Ok ((λ k, bool_decide (is_Some (g !! k))) <$> ks)).
Proof.
  intros (_ & name & t & Hcf & Ht & He). unfold multi_get, multi_contains_keys, multi_get_pinned.
  rewrite (db_multi_get_ok _ _ _ _ _ Hcf Ht). cbn [mbind outcome_bind]. rewrite <-list_fmap_compose. unfold compose.
  rewrite (collect_results_Ok (λ k, t !! be_fix_int_ser k) ks). rewrite <-!list_fmap_compose. unfold compose. split; do 2 f_equal.
  - rewrite <-(collect_results_Ok (E := TypedStoreError) (λ k, g !! k)). f_equal. apply list_fmap_ext. intros i k _. pose proof (encodes_lookup t g k He) as Hl.
    destruct (g !! k) as [v|]; [destruct Hl as (bs & -> & Hd)|by rewrite Hl]. cbn [decode_value]. by rewrite Hd.
  - apply list_fmap_ext. intros i k _. apply bool_decide_ext. by apply encodes_is_Some.
Qed.

(** The entries of a byte range. *)
Lemma range_entries t g lower upper (Q : K → bool) : encodes t g → (∀ k, key_ok k → in_range lower upper (be_fix_int_ser k) = Q k) →
  Forall2 entry_of (btree_map_range (in_range lower upper) t) (btree_map_range Q g).
Proof.
  intros He HQ. unfold btree_map_range. refine (entries_filter (λ k, Is_true (in_range lower upper k)) (λ k, Is_true (Q k)) _ _ (encodes_entries t g He) _).
  intros k Hk. by rewrite HQ.
Qed.

(** [BTreeMap::range] panics on an inverted range, a RocksDB iterator does not. *)
Definition memory_bounds db (lower upper : option bytes) : Prop :=
  in_memory db = true → bounds_ok (from_option Included Unbounded lower) (from_option Excluded Unbounded upper) = true.

Lemma memory_range (t : gmap bytes bytes) lower upper : bounds_ok (from_option Included Unbounded lower) (from_option Excluded Unbounded upper) = true →
  map_range (from_option Included Unbounded lower) (from_option Excluded Unbounded upper) t = Ret (btree_map_range (in_range lower upper) t).
Proof. intros Hb. rewrite map_range_ret by done. by destruct lower, upper. Qed.

Lemma forward_items db m g lower upper (Q : K → bool) : table_holds db m g →
  (∀ k, key_ok k → in_range lower upper (be_fix_int_ser k) = Q k) → memory_bounds db lower upper →
  match storage db with
  | Rocks r => rocks_items r m lower upper SeekToFirst
  | InMemory im => im_iterator im (cf_name (column_family K V m)) lower upper false
  end = Ret (Ok <$> btree_map_range Q g).
Proof.
  intros (_ & name & t & [Hcf Hs] & Ht & He) HQ Hb. pose proof (range_entries t g lower upper Q He HQ) as Hl.
  unfold memory_bounds, raw_tables, in_memory in *. destruct (storage db) as [r|im].
  - unfold rocks_items. rewrite Hcf. cbn [cf_name]. rewrite rocks_cf_ok, (rdb_iterate_tables _ _ _ _ _ _ Ht) by done. cbn [mbind outcome_bind].
    f_equal. by apply entries_items.
  - rewrite Hcf. cbn [cf_name]. unfold im_iterator. rewrite Ht. cbn [default]. rewrite memory_range by auto. cbn [mbind outcome_bind]. f_equal. by apply entries_memory_items.
Qed.

Lemma backward_items db m g lower upper (Q : K → bool) (hi : option K) : table_holds db m g →
  (∀ k, key_ok k → in_range lower upper (be_fix_int_ser k) = Q k) → memory_bounds db lower upper →
  (∀ k0 k, hi = Some k0 → key_ok k → Q k → key_le (be_fix_int_ser k) (be_fix_int_ser k0)) →
  match storage db with
  | Rocks r => rocks_items r m lower upper (match hi with None => SeekToLast | Some k => SeekForPrev (be_fix_int_ser k) end)
  | InMemory im => im_iterator im (cf_name (column_family K V m)) lower upper true
  end = Ret (Ok <$> reverse (btree_map_range Q g)).
Proof.
  intros (_ & name & t & [Hcf Hs] & Ht & He) HQ Hb Hhi. pose proof (range_entries t g lower upper Q He HQ) as Hl.
  unfold memory_bounds, raw_tables, in_memory in *. destruct (storage db) as [r|im].
  - unfold rocks_items. rewrite Hcf. cbn [cf_name]. rewrite rocks_cf_ok, (rdb_iterate_tables _ _ _ _ _ _ Ht) by done. cbn [mbind outcome_bind].
    f_equal. apply entries_items. destruct hi as [k0|]; apply Forall2_reverse; [|done].
    rewrite filter_all; [done|]. intros [kb bs] Hin. apply list_elem_of_lookup in Hin as [i Hi]. cbn [fst].
    destruct (Forall2_lookup_l _ _ _ _ _ Hl Hi) as ([k v] & Hk & (Hok & Hkb & _)). cbn in Hok, Hkb. subst kb.
    apply Hhi; [done|done|]. apply list_elem_of_lookup_2, elem_of_btree_map_range in Hk. by apply Hk.
  - rewrite Hcf. cbn [cf_name]. unfold im_iterator. rewrite Ht. cbn [default]. rewrite memory_range by auto. cbn [mbind outcome_bind]. f_equal.
    apply entries_memory_items. by apply Forall2_reverse.
Qed.

Definition range_ok db (lo hi : bound K) : Prop :=
  bound_ok lo ∧ bound_ok hi ∧ (∀ k, lo = Excluded k → is_max (be_fix_int_ser k) = false) ∧ (in_memory db = true → bounds_ok lo hi = true).

Lemma add_one_le (a b : K) : key_ok a → key_ok b → is_max (be_fix_int_ser b) = false → key_le a b →
  key_le (be_fix_int_ser a) (big_endian_saturating_add_one (be_fix_int_ser b)).
Proof.
  intros Ha Hb Hm Hle. destruct (key_bytes a Ha) as [Hba Hla]. destruct (key_bytes b Hb) as [Hbb Hlb].
  destruct (add_one_value _ Hbb Hm) as (Hw & Hlw & Hval). apply key_order in Hle; [|done..].
  rewrite bytes_le_value in Hle |- * by (done || congruence). lia.
Qed.

Lemma add_one_mono (a b : K) : key_ok a → key_ok b → is_max (be_fix_int_ser a) = false → is_max (be_fix_int_ser b) = false → key_le a b →
  key_le (big_endian_saturating_add_one (be_fix_int_ser a)) (big_endian_saturating_add_one (be_fix_int_ser b)).
Proof.
  intros Ha Hb Hma Hm Hle. destruct (key_bytes a Ha) as [Hba Hla]. destruct (key_bytes b Hb) as [Hbb Hlb].
  destruct (add_one_value _ Hba Hma) as (Hwa & Hlwa & Hvala). destruct (add_one_value _ Hbb Hm) as (Hw & Hlw & Hval). apply key_order in Hle; [|done..].
  rewrite bytes_le_value in Hle |- * by (done || congruence). lia.
Qed.

Lemma range_bounds lo hi lower upper : bound_ok lo → bound_ok hi → (∀ k, lo = Excluded k → is_max (be_fix_int_ser k) = false) →
  bounds_ok lo hi = true → iterator_bounds_with_range lo hi = (lower, upper) →
  bounds_ok (from_option Included Unbounded lower) (from_option Excluded Unbounded upper) = true.
Proof.
  intros Hlo Hhi Hmax Hb [= <- <-]. destruct lo as [a|a|]; destruct hi as [b|b|]; cbn in Hlo, Hhi, Hb |- *; try done;
    try apply bool_decide_eq_true in Hb.
  - destruct (is_max (be_fix_int_ser b)) eqn:Hmb; cbn; [done|]. by apply bool_decide_eq_true, add_one_le.
  - by apply bool_decide_eq_true, key_order.
  - destruct (is_max (be_fix_int_ser b)) eqn:Hmb; cbn; [done|]. by apply bool_decide_eq_true, add_one_mono; auto.
  - destruct Hb as [Hle Hne]. apply bool_decide_eq_true, below_add_one; auto. intros Hc. by apply Hne, (anti_symm key_le).
Qed.

Lemma range_memory_bounds db lo hi lower upper : range_ok db lo hi → iterator_bounds_with_range lo hi = (lower, upper) → memory_bounds db lower upper.
Proof. intros (Hlo & Hhi & Hmax & Hb) Heq Hm. by eapply (range_bounds lo hi); auto. Qed.

(** The lower bound that an iteration starts from: the key of all 0xFF bytes cannot be
    excluded. *)
Definition reached (lo : bound K) : bound K :=
  match lo with Excluded k => if is_max (be_fix_int_ser k) then Included k else lo | _ => lo end.

(** The byte range starts after its end. *)
Definition inverted (lo hi : bound K) : bool :=
  let '(lower, upper) := iterator_bounds_with_range lo hi in
  negb (bounds_ok (from_option Included Unbounded lower) (from_option Excluded Unbounded upper)).

Lemma bounds_reached lo hi : iterator_bounds_with_range (reached lo) hi = iterator_bounds_with_range lo hi.
Proof.
  destruct lo as [k|k|]; try done. cbn [reached]. destruct (is_max (be_fix_int_ser k)) eqn:Hm; [|done].
  unfold iterator_bounds_with_range, big_endian_saturating_add_one. by rewrite Hm.
Qed.

Lemma reached_ok lo : bound_ok lo → bound_ok (reached lo) ∧ ∀ k, reached lo = Excluded k → is_max (be_fix_int_ser k) = false.
Proof. destruct lo as [k|k|]; cbn [reached]; intros Hk; try done. destruct (is_max (be_fix_int_ser k)) eqn:Hm; [done|]. split; [done|]. by intros ? [= <-]. Qed.

(** Only inverted bounds give an inverted byte range. *)
Lemma not_inverted lo hi : bound_ok lo → bound_ok hi → bounds_ok (reached lo) hi = true → inverted lo hi = false.
Proof.
  intros [Hlo Hmax]%reached_ok Hhi Hb. unfold inverted. rewrite <-bounds_reached. destruct (iterator_bounds_with_range (reached lo) hi) as [lower upper] eqn:Heq.
  by rewrite (range_bounds _ _ _ _ Hlo Hhi Hmax Hb Heq).
Qed.

Lemma inverted_panics db m g lo hi lower upper rev : table_holds db m g → in_memory db && inverted lo hi = true →
  iterator_bounds_with_range lo hi = (lower, upper) → ∃ why, ∀ f : R → _,
  match storage db with
  | Rocks r => f r
  | InMemory im => im_iterator (K := K) (V := V) im (cf_name (column_family K V m)) lower upper rev
  end = Panic why.
Proof.
  unfold inverted, in_memory. intros _ [Hm Hi]%andb_true_iff Heq. rewrite Heq in Hi. apply negb_true_iff in Hi.
  destruct (storage db); [done|]. unfold im_iterator, map_range. rewrite Hi. by eexists.
Qed.

Lemma safe_range_iter_ok db m g lo hi : table_holds db m g → range_ok db lo hi →
  safe_range_iter db m lo hi = Ret (Ok <$> btree_map_range (λ k, above lo k && below hi k) g).
Proof.
  intros Ht Hr. unfold safe_range_iter. destruct (iterator_bounds_with_range lo hi) as [lower upper] eqn:Hb.
  apply forward_items; [done| |by eapply range_memory_bounds]. intros k Hk. destruct Hr as (? & ? & ? & _). by eapply iterator_bounds_correct.
Qed.

Lemma inverted_memory db lo hi lower upper : in_memory db && inverted lo hi = false → iterator_bounds_with_range lo hi = (lower, upper) →
  memory_bounds db lower upper.
Proof. unfold inverted. intros Hi Heq Hm. rewrite Heq, Hm in Hi. by apply negb_false_iff in Hi. Qed.

(** Ranges with any bounds. *)
Lemma safe_range_iter_total db m g lo hi : table_holds db m g → bound_ok lo → bound_ok hi →
  if in_memory db && inverted lo hi then ∃ why, safe_range_iter db m lo hi = Panic why
  else safe_range_iter db m lo hi = Ret (Ok <$> btree_map_range (λ k, above (reached lo) k && below hi k) g).
Proof.
  intros Ht Hlo Hhi. unfold safe_range_iter. destruct (iterator_bounds_with_range lo hi) as [lower upper] eqn:Hb.
  destruct (in_memory db && inverted lo hi) eqn:Hi.
  - destruct (inverted_panics db m g lo hi lower upper false Ht Hi Hb) as [why Hp].
    exists why. apply (Hp (λ r, rocks_items r m lower upper SeekToFirst)).
  - apply forward_items; [done| |by eapply inverted_memory]. rewrite <-bounds_reached in Hb. intros k Hk. apply reached_ok in Hlo as [? ?].
    by eapply iterator_bounds_correct.
Qed.

Lemma reversed_total db m g (lo hi : option K) : let l := from_option Included Unbounded lo in let h := from_option Included Unbounded hi in
  table_holds db m g → bound_ok l → bound_ok h →
  if in_memory db && inverted l h then ∃ why, reversed_safe_iter_with_bounds db m lo hi = Panic why
  else reversed_safe_iter_with_bounds db m lo hi = Ret (Ok <$> reverse (btree_map_range (λ k, above l k && below h k) g)).
Proof.
  intros l h Ht Hl Hh. unfold reversed_safe_iter_with_bounds. fold l h. destruct (iterator_bounds_with_range l h) as [lower upper] eqn:Hb.
  destruct (in_memory db && inverted l h) eqn:Hi.
  - destruct (inverted_panics db m g l h lower upper true Ht Hi Hb) as [why Hp].
    exists why. apply (Hp (λ r, rocks_items r m lower upper (match hi with None => SeekToLast | Some k => SeekForPrev (be_fix_int_ser k) end))).
  - apply backward_items; [done| |by eapply inverted_memory|].
    + intros k Hk. eapply iterator_bounds_correct; try done. by destruct lo.
    + intros k0 k -> Hk Hq. apply andb_prop_elim in Hq as [_ Hq]. cbn in Hq. apply bool_decide_unpack in Hq. by apply key_order.
Qed.

Lemma reversed_ok db m g (lo hi : option K) : table_holds db m g →
  range_ok db (from_option Included Unbounded lo) (from_option Included Unbounded hi) →
  reversed_safe_iter_with_bounds db m lo hi =
    Ret (Ok <$> reverse (btree_map_range (λ k, above (from_option Included Unbounded lo) k && below (from_option Included Unbounded hi) k) g)).
Proof.
  intros Ht Hr. unfold reversed_safe_iter_with_bounds. destruct (iterator_bounds_with_range _ _) as [lower upper] eqn:Hb.
  apply backward_items; [done| |by eapply range_memory_bounds|].
  - intros k Hk. destruct Hr as (? & ? & ? & _). by eapply iterator_bounds_correct.
  - intros k0 k -> Hk Hq. apply andb_prop_elim in Hq as [_ Hq]. cbn in Hq. apply bool_decide_unpack in Hq.
    apply key_order; [done| |done]. destruct Hr as (_ & Hhi & _). exact Hhi.
Qed.

Lemma safe_iter_ok db m g : table_holds db m g → safe_iter db m = Ret (Ok <$> btree_entries g).
Proof.
  intros Ht. unfold safe_iter. rewrite (forward_items db m g None None (λ _, true)); [|done|done|done].
  do 2 f_equal. unfold btree_map_range. by apply filter_all.
Qed.

(** ** Writing *)

(** The tables other than [name] are untouched. *)
Definition only_changed (name : string) (ts ts' : gmap string (gmap bytes bytes)) : Prop := ∀ n, n ≠ name → ts' !! n = ts !! n.

Lemma cf_of_same db db' cf name : in_memory db' = in_memory db → (∀ n, is_Some (raw_tables db' !! n) ↔ is_Some (raw_tables db !! n)) →
  cf_of db cf name → cf_of db' cf name.
Proof. intros Hm Hs [-> ?]. split; [by rewrite Hm|by apply Hs]. Qed.

Lemma pending_is_Some db b n : is_Some (pending db b !! n) ↔ is_Some (raw_tables db !! n).
Proof.
  unfold pending. generalize (raw_tables db) as ts. induction (batch_ops b) as [|c ops IH]; intros ts; [done|]. cbn [foldl].
  by rewrite IH, apply_change_is_Some.
Qed.

Lemma batch_written db b m g : batch_of db b → table_in db (pending db b) m g →
  ∃ db', batch_write db b = Ok db' ∧ table_holds db' m g ∧ raw_tables db' = pending db b.
Proof.
  intros Hb (Hid & name & t & Hcf & Ht & He). destruct (batch_write_ok db b Hb) as (db' & Hw & Hr & Hm & Hi). exists db'. split; [done|].
  split; [|done]. split; [congruence|]. exists name, t. rewrite Hr. split_and!; [|done|done].
  eapply cf_of_same; [done| |done]. intros n. rewrite Hr. apply pending_is_Some.
Qed.

Lemma insert_batch_ok db b m g kvs : batch_of db b → table_in db (pending db b) m g → Forall (λ kv : K * V, key_ok kv.1 ∧ value_ok kv.2) kvs →
  ∃ b', insert_batch db b m kvs = Ret (Ok b') ∧ batch_of db b' ∧
    table_in db (pending db b') m (foldl (λ g '(k, v), <[k := v]> g) g kvs) ∧
    ∀ name, cf_of db (column_family K V m) name → only_changed name (pending db b) (pending db b').
Proof.
  intros Hb Ht Hall. unfold insert_batch. destruct Ht as (Hid & name & t & Hcf & Ht & He). rewrite Hid. destruct Hb as (Hdb & Hb). rewrite <-Hdb, N.eqb_refl. cbn [negb].
  assert (batch_of db b) as Hbo by done. clear Hb. revert b t g Hdb Hbo Ht He. induction Hall as [|[k v] kvs [Hk Hv] Hall IH]; intros b t g Hdb Hbo Ht He.
  - exists b. split_and!; [done|done| |by intros ? _ ? ?]. split; [done|]. by exists name, t.
  - cbn in Hk, Hv. destruct (value_roundtrip v Hv) as (bs & Hbs & _). cbn [try_for_each]. rewrite Hbs.
    destruct (push_change_ok db b (column_family K V m) name (λ name, Put name (be_fix_int_ser k) bs) Hbo Hcf eq_refl) as (b1 & -> & Hb1 & Hp1).
    cbn [mbind outcome_bind]. destruct (IH b1 (<[be_fix_int_ser k := bs]> t) (<[k := v]> g)) as (b' & Hb' & Hbo' & Ht' & Ho').
    + apply Hb1.
    + done.
    + rewrite Hp1. cbn [apply_change]. by rewrite lookup_alter_eq, Ht.
    + by apply encodes_insert.
    + exists b'. split_and!; [done..|]. intros name' Hcf' n Hn. rewrite (Ho' name' Hcf'), Hp1 by done. cbn [apply_change].
      destruct Hcf as [Hcf _]. destruct Hcf' as [Hcf' _]. rewrite Hcf in Hcf'. apply lookup_alter_ne. destruct (in_memory db); congruence.
Qed.

Lemma delete_batch_ok db b m g ks : batch_of db b → table_in db (pending db b) m g → Forall key_ok ks →
  ∃ b', delete_batch db b m ks = Ret (Ok b') ∧ batch_of db b' ∧ table_in db (pending db b') m (foldl (λ g k, delete k g) g ks).
Proof.
  intros Hb Ht Hall. unfold delete_batch. destruct Ht as (Hid & name & t & Hcf & Ht & He). rewrite Hid. destruct Hb as (Hdb & Hb). rewrite <-Hdb, N.eqb_refl. cbn [negb].
  assert (batch_of db b) as Hbo by done. clear Hb. revert b t g Hdb Hbo Ht He. induction Hall as [|k ks Hk Hall IH]; intros b t g Hdb Hbo Ht He.
  - exists b. split_and!; [done|done|]. split; [done|]. by exists name, t.
  - cbn [try_for_each].
    destruct (push_change_ok db b (column_family K V m) name (λ name, Delete name (be_fix_int_ser k)) Hbo Hcf eq_refl) as (b1 & -> & Hb1 & Hp1).
    cbn [mbind outcome_bind]. apply (IH b1 (delete (be_fix_int_ser k) t) (delete k g)); [apply Hb1|done| |by apply encodes_delete].
    rewrite Hp1. cbn [apply_change]. by rewrite lookup_alter_eq, Ht.
Qed.

Lemma multi_insert_ok db m g kvs : table_holds db m g → Forall (λ kv : K * V, key_ok kv.1 ∧ value_ok kv.2) kvs →
  ∃ db', multi_insert db m kvs = Ret (Ok db') ∧ table_holds db' m (foldl (λ g '(k, v), <[k := v]> g) g kvs).
Proof.
  intros Ht Hall. destruct (new_batch_of db) as [Hb Hp]. unfold multi_insert.
  destruct (insert_batch_ok db _ m g kvs Hb) as (b & -> & Hb' & Ht' & _); [by rewrite Hp|done|].
  destruct (batch_written db b m _ Hb' Ht') as (db' & Hw & Hh & _). exists db'. cbn [mbind outcome_bind]. by rewrite Hw.
Qed.

Lemma multi_remove_ok db m g ks : table_holds db m g → Forall key_ok ks →
  ∃ db', multi_remove db m ks = Ret (Ok db') ∧ table_holds db' m (foldl (λ g k, delete k g) g ks).
Proof.
  intros Ht Hall. destruct (new_batch_of db) as [Hb Hp]. unfold multi_remove.
  destruct (delete_batch_ok db _ m g ks Hb) as (b & -> & Hb' & Ht'); [by rewrite Hp|done|].
  destruct (batch_written db b m _ Hb' Ht') as (db' & Hw & Hh & _). exists db'. cbn [mbind outcome_bind]. by rewrite Hw.
Qed.

(** A single change, outside a batch. *)
Lemma write_one_ok db cf name c : cf_of db cf name → change_cf c = name →
  ∃ db', raw_tables db' = apply_change (raw_tables db) c ∧ in_memory db' = in_memory db ∧ db_id db' = db_id db ∧
    match c with Delete _ k => db_delete_cf db cf k | Put _ k v => db_put_cf db cf k v end = Ret (Ok db').
Proof.
  unfold cf_of, raw_tables, in_memory. intros [-> Hs] Hc. unfold db_delete_cf, db_put_cf. destruct (storage db) as [r|im] eqn:Hst.
  - destruct (rdb_write_tables r [c]) as (r' & Hw & Ht); [intros ? ->%list_elem_of_singleton; by rewrite Hc|].
    exists (set_storage db (Rocks r')). cbn. split_and!; [done..|]. destruct c; cbn in Hc; subst; by rewrite rocks_cf_ok, Hw by done.
  - eexists (set_storage db (InMemory (match c with Delete cf k => im_delete im cf k | Put cf k v => im_put im cf k v end))).
    cbn [set_storage storage db_id]. split_and!; [apply im_change_apply; by rewrite Hc|done|done|]. by destruct c; cbn in Hc; subst.
Qed.

Lemma changed_table db db' m name t g : in_memory db' = in_memory db → db_id db' = db_id db →
  (∀ n, is_Some (raw_tables db' !! n) ↔ is_Some (raw_tables db !! n)) → dm_db K V m = db_id db → cf_of db (column_family K V m) name →
  raw_tables db' !! name = Some t → encodes t g → table_holds db' m g.
Proof. intros Hm Hi Hs Hid Hcf Ht He. split; [congruence|]. exists name, t. split_and!; [by eapply cf_of_same|done|done]. Qed.

Lemma dm_insert_ok db m g k v : table_holds db m g → key_ok k → value_ok v →
  ∃ db', dm_insert db m k v = Ret (Ok db') ∧ table_holds db' m (<[k := v]> g).
Proof.
  intros (Hid & name & t & Hcf & Ht & He) Hk Hv. destruct (value_roundtrip v Hv) as (bs & Hbs & _). unfold dm_insert. rewrite Hbs.
  destruct (write_one_ok db _ name (Put name (be_fix_int_ser k) bs) Hcf eq_refl) as (db' & Hr & Hm & Hi & Hw). exists db'. split; [done|].
  eapply (changed_table db); [done|done| |done|done| |by apply encodes_insert].
  - intros n. rewrite Hr. apply apply_change_is_Some.
  - rewrite Hr. cbn [apply_change]. by rewrite lookup_alter_eq, Ht.
Qed.

Lemma dm_remove_ok db m g k : table_holds db m g → key_ok k →
  ∃ db', dm_remove db m k = Ret (Ok db') ∧ table_holds db' m (delete k g).
Proof.
  intros (Hid & name & t & Hcf & Ht & He) Hk. unfold dm_remove.
  destruct (write_one_ok db _ name (Delete name (be_fix_int_ser k)) Hcf eq_refl) as (db' & Hr & Hm & Hi & Hw). exists db'. split; [done|].
  eapply (changed_table db); [done|done| |done|done| |by apply encodes_delete].
  - intros n. rewrite Hr. apply apply_change_is_Some.
  - rewrite Hr. cbn [apply_change]. by rewrite lookup_alter_eq, Ht.
Qed.

(** C13: a typed table is a map.  While a table of the database, on RocksDB or in
    memory, holds the entries [g], every read answers from [g]: point reads, batched
    reads, the iteration in key order, ranges, and reversed ranges between included
    bounds.  A range has the entries between its bounds, except that a lower bound
    cannot exclude the key of all 0xFF bytes, which is then included.  The bounds may
    be inverted: on RocksDB the range is then empty, in memory the call panics when
    the byte range is inverted, which it is only for inverted bounds.  Every write,
    alone or in a batch, makes the table hold the updated map. *)
Theorem db_map_refines db m g : table_holds db m g →
  (∀ k, dm_get db m k = Ret (Ok (g !! k)) ∧ contains_key db m k = Ret (Ok (bool_decide (is_Some (g !! k))))) ∧
  (∀ ks, multi_get db m ks = Ret (Ok ((λ k, g !! k) <$> ks)) ∧
    multi_contains_keys db m ks = Ret (Ok ((λ k, bool_decide (is_Some (g !! k))) <$> ks))) ∧
  safe_iter db m = Ret (Ok <$> btree_entries g) ∧
  (∀ lo hi, bound_ok lo → bound_ok hi →
    if in_memory db && inverted lo hi then ∃ why, safe_range_iter db m lo hi = Panic why
    else safe_range_iter db m lo hi = Ret (Ok <$> btree_map_range (λ k, above (reached lo) k && below hi k) g)) ∧
  (∀ lo hi, bound_ok lo → bound_ok hi → bounds_ok (reached lo) hi = true → inverted lo hi = false) ∧
  (∀ lo hi : option K, let l := from_option Included Unbounded lo in let h := from_option Included Unbounded hi in bound_ok l → bound_ok h →
    if in_memory db && inverted l h then ∃ why, reversed_safe_iter_with_bounds db m lo hi = Panic why
    else reversed_safe_iter_with_bounds db m lo hi = Ret (Ok <$> reverse (btree_map_range (λ k, above l k && below h k) g))) ∧
  (∀ k v, key_ok k → value_ok v → ∃ db', dm_insert db m k v = Ret (Ok db') ∧ table_holds db' m (<[k := v]> g)) ∧
  (∀ k, key_ok k → ∃ db', dm_remove db m k = Ret (Ok db') ∧ table_holds db' m (delete k g)) ∧
  (∀ kvs, Forall (λ kv : K * V, key_ok kv.1 ∧ value_ok kv.2) kvs →
    ∃ db', multi_insert db m kvs = Ret (Ok db') ∧ table_holds db' m (foldl (λ g '(k, v), <[k := v]> g) g kvs)) ∧
  (∀ ks, Forall key_ok ks → ∃ db', multi_remove db m ks = Ret (Ok db') ∧ table_holds db' m (foldl (λ g k, delete k g) g ks)).
Proof.
  intros Ht. split_and!.
  - intros k. split; [by apply dm_get_ok|by apply contains_key_ok].
  - intros ks. by apply multi_get_ok.
  - by apply safe_iter_ok.
  - intros lo hi Hlo Hhi. by apply safe_range_iter_total.
  - apply not_inverted.
  - intros lo hi l h Hl Hh. by apply reversed_total.
  - intros k v Hk Hv. by apply dm_insert_ok.
  - intros k Hk. by apply dm_remove_ok.
  - intros kvs Hkvs. by apply multi_insert_ok.
  - intros ks Hks. by apply multi_remove_ok.
Qed.
End ops.
End typed_map.

(** ** Concrete encodings *)

(** An unsigned integer of [n] bytes. *)
Fixpoint be_bytes (n : nat) (x : N) : bytes :=
  match n with
  | O => []
  | S n => x / 256 ^ N.of_nat n :: be_bytes n (x mod 256 ^ N.of_nat n)
  end.

Lemma be_bytes_spec n : ∀ x, x < 256 ^ N.of_nat n → is_bytes (be_bytes n x) ∧ length (be_bytes n x) = n ∧ be_value (be_bytes n x) = x.
Proof.
  induction n as [|n IH]; intros x Hx; [change (x < 1) in Hx; cbn; split_and!; [constructor|done|lia]|].
  assert (256 ^ N.of_nat n ≠ 0) as Hp by (apply N.pow_nonzero; lia).
  destruct (IH (x mod 256 ^ N.of_nat n)) as (Hb & Hl & Hv); [by apply N.mod_lt|]. cbn [be_bytes be_value length]. rewrite Hl, Hv.
  rewrite Nat2N.inj_succ, N.pow_succ_r' in Hx. split_and!; [|done|].
  - constructor; [|done]. assert (x / 256 ^ N.of_nat n < 256); [|lia]. apply N.Div0.div_lt_upper_bound. lia.
  - pose proof (N.div_mod x _ Hp). lia.
Qed.

(** The numbers that do not fit have codes that are not bytes. *)
Definition uint_code (n : nat) (x : N) : bytes := if x <? 256 ^ N.of_nat n then be_bytes n x else [256 + x].

Lemma uint_code_ok n x : x < 256 ^ N.of_nat n → uint_code n x = be_bytes n x.
Proof. intros Hx. unfold uint_code. by rewrite (proj2 (N.ltb_lt _ _) Hx). Qed.

Lemma uint_delimited n x y s t : uint_code (S n) x ++ s = uint_code (S n) y ++ t → x = y ∧ s = t.
Proof.
  unfold uint_code. destruct (N.ltb_spec x (256 ^ N.of_nat (S n))) as [Hx|Hx], (N.ltb_spec y (256 ^ N.of_nat (S n))) as [Hy|Hy].
  - destruct (be_bytes_spec (S n) x Hx) as (_ & Hl & Hv), (be_bytes_spec (S n) y Hy) as (_ & Hl' & Hv').
    intros [Heq ->]%app_inj_1; [|congruence]. by rewrite <-Hv, <-Hv', Heq.
  - destruct (be_bytes_spec (S n) x Hx) as (Hb & _ & _). cbn [be_bytes app] in Hb |- *. apply Forall_cons in Hb as [Hb _]. intros [= Heq _]. lia.
  - destruct (be_bytes_spec (S n) y Hy) as (Hb & _ & _). cbn [be_bytes app] in Hb |- *. apply Forall_cons in Hb as [Hb _]. intros [= Heq _]. lia.
  - cbn. intros [= Heq ->]. split; [lia|done].
Qed.

Definition uint_ser (n : nat) : KeySer N := {|
  be_fix_int_ser := uint_code n;
  key_deserialize bs := if decide (length bs = n) then Some (be_value bs) else None;
|}.

Program Definition uint_ser_laws (n : nat) : KeySerLaws N (H1 := uint_ser (S n)) := {|
  key_ok x := x < 256 ^ N.of_nat (S n);
  key_len := S n;
|}.
Next Obligation. intros n k k' s t. apply uint_delimited. Qed.
Next Obligation.
  intros n k Hk. unfold be_fix_int_ser, key_deserialize, uint_ser. rewrite uint_code_ok by done.
  destruct (be_bytes_spec (S n) k Hk) as (_ & -> & ->). by rewrite decide_True.
Qed.
Next Obligation.
  intros n k Hk. unfold be_fix_int_ser, uint_ser. rewrite uint_code_ok by done. by destruct (be_bytes_spec (S n) k Hk) as (? & ? & _).
Qed.
Next Obligation.
  intros n k k' Hk Hk'. unfold be_fix_int_ser, uint_ser. rewrite !uint_code_ok by done.
  destruct (be_bytes_spec (S n) k Hk) as (? & Hl & Hv). destruct (be_bytes_spec (S n) k' Hk') as (? & Hl' & Hv').
  rewrite bytes_le_value by (done || congruence). by rewrite Hv, Hv'.
Qed.

Lemma bytes_le_app (a a' b b' : bytes) : length a = length a' →
  key_le (a ++ b) (a' ++ b') ↔ (key_le a a' ∧ a ≠ a') ∨ (a = a' ∧ key_le b b').
Proof.
  revert a'. induction a as [|x a IH]; intros [|y a'] Hlen; try done.
  - cbn [app]. split; [by right|]. by intros [[_ ?]|[_ ?]].
  - injection Hlen as Hlen. cbn [app].
    change (x < y ∨ (x = y ∧ key_le (a ++ b) (a' ++ b')) ↔ ((x < y ∨ (x = y ∧ key_le a a')) ∧ x :: a ≠ y :: a') ∨ (x :: a = y :: a' ∧ key_le b b')).
    rewrite (IH a' Hlen). split.
    + intros [?|[-> [[? ?]|[-> ?]]]]; [left; split; [by left|]; intros [= ? _]; lia|left; split; [by right|congruence]|by right].
    + intros [[[?|[-> ?]] Hne]|[[= -> ->] ?]]; [by left|right; split; [done|]; left; split; congruence|right; split; [done|by right]].
Qed.

(** A tuple: its parts one after the other. *)
Section pair.
Context {A B : Type} `{KeySerLaws A} `{KeySerLaws B}.

Definition pair_ser : KeySer (A * B) := {|
  be_fix_int_ser x := be_fix_int_ser x.1 ++ be_fix_int_ser x.2;
  key_deserialize bs :=
    match key_deserialize (take (key_len (K := A)) bs), key_deserialize (drop (key_len (K := A)) bs) with
    | Some a, Some b => Some (a, b)
    | _, _ => None
    end;
|}.

Program Definition pair_ser_laws : KeySerLaws (A * B) (H1 := pair_ser) := {|
  key_ok x := key_ok x.1 ∧ key_ok x.2;
  key_len := key_len (K := A) + key_len (K := B);
|}.
Next Obligation.
  intros [a b] [a' b'] s t. cbn. rewrite <-!app_assoc. intros Heq. apply key_delimited in Heq as [-> Heq]. by apply key_delimited in Heq as [-> ->].
Qed.
Next Obligation.
  intros [a b] [Ha Hb]. cbn in Ha, Hb |- *. destruct (key_bytes a Ha) as [_ Hl].
  rewrite take_app_length', drop_app_length', !key_roundtrip by done. done.
Qed.
Next Obligation.
  intros [a b] [Ha Hb]. cbn in Ha, Hb |- *. destruct (key_bytes a Ha) as [? Hl]. destruct (key_bytes b Hb) as [? Hl'].
  rewrite length_app, Hl, Hl'. split; [|done]. by apply Forall_app.
Qed.
Next Obligation.
  intros [a b] [a' b'] [Ha Hb] [Ha' Hb']. cbn in Ha, Hb, Ha', Hb' |- *. destruct (key_bytes a Ha) as [_ Hl]. destruct (key_bytes a' Ha') as [_ Hl'].
  change (bytes_le ?x ?y) with (key_le x y). rewrite bytes_le_app, !key_order by (done || congruence). split.
  - intros [[? Hne]|[Heq ?]]; [left; split; [done|congruence]|right; split; [by apply ser_inj|done]].
  - intros [[? Hne]|[-> ?]]; [left; split; [done|]; intros Heq%ser_inj; done|by right].
Qed.
End pair.

(** ** A concrete database *)

Definition test_rocks : RocksDb (gmap string (gmap bytes bytes)) := {|
  cf_handle r name := bool_decide (is_Some (r !! name));
  rdb_get r name k := match r !! name with Some t => Ok (t !! k) | None => Err "no such column family"%string end;
  rdb_key_may_exist r name k := match r !! name with Some t => bool_decide (is_Some (t !! k)) | None => false end;
  rdb_write r batch := Ok (foldl apply_change r batch);
  rdb_iterate r name lower upper s :=
    let entries := btree_map_range (in_range lower upper) (default ∅ (r !! name)) in
    (match s with
     | SeekToFirst => entries
     | SeekToLast => reverse entries
     | SeekForPrev k => reverse (filter (λ e : bytes * bytes, key_le e.1 k) entries)
     end, None);
  rdb_drop_cf r name := Ok (delete name r);
  rdb_create_cf r name := Ok (<[name := ∅]> r);
|}.

Program Definition test_rocks_laws : RocksDbLaws (gmap string (gmap bytes bytes)) (H := test_rocks) := {| rdb_tables r := r |}.
Next Obligation. done. Qed.
Next Obligation. intros r name t k Ht. cbn. by rewrite Ht. Qed.
Next Obligation. intros r name t k Ht Hk. cbn. rewrite Ht. by apply bool_decide_eq_true. Qed.
Next Obligation. intros r batch _. by eexists. Qed.
Next Obligation. intros r name t lower upper s Ht. cbn. by rewrite Ht. Qed.

Definition test_value : ValueBcs N := {| bcs_to_bytes x := Some [x]; bcs_from_bytes bs := head bs |}.
Program Definition test_value_laws : ValueBcsLaws N (H := test_value) := {| value_ok _ := True |}.
Next Obligation. intros v _. by exists [v]. Qed.

Definition test_table_db : Database (gmap string (gmap bytes bytes)) := mk_database 0 (Rocks {[ "rows"%string := ∅ ]}).
Definition test_table : DBMap N N := DBMap_reopen test_table_db (Some "rows"%string).

Lemma db_map_refines_witness : ∃ db : Database (gmap string (gmap bytes bytes)),
  multi_insert (H := test_rocks) (H0 := uint_ser 4) (H1 := test_value) test_table_db test_table [(7, 70); (300, 3); (5, 50)] = Ret (Ok db) ∧
  table_holds (H0 := test_rocks_laws) (H4 := uint_ser_laws 3) (H6 := test_value_laws) db test_table {[5 := 50; 7 := 70; 300 := 3]} ∧
  safe_range_iter (H := test_rocks) (H0 := uint_ser 4) (H1 := test_value) db test_table (Included 6) (Included 300) = Ret [Ok (7, 70); Ok (300, 3)].
Proof.
  destruct (db_map_refines (H0 := test_rocks_laws) (H4 := uint_ser_laws 3) (H6 := test_value_laws) test_table_db test_table ∅) as (_ & _ & _ & _ & _ & _ & _ & _ & Hi & _).
  - split; [done|]. exists "rows"%string, ∅. split_and!; [split; [done|by eexists]|done|apply encodes_empty].
  - destruct (Hi [(7, 70); (300, 3); (5, 50)]) as (db & Hdb & Ht).
    + repeat constructor; cbn; lia.
    + exists db. split; [exact Hdb|]. split; [exact Ht|]. vm_compute in Hdb. injection Hdb as <-. vm_compute. reflexivity.
Defined.
