(* ===== verification/Committee.v ===== *)
(** * Committee: the stake-weighted validator set

    Models [consensus/config/src/committee.rs]: the [Committee] and [Authority]
    structures, the constructor with its thresholds, and the accessors.  The
    theorems are the arithmetic the whole protocol rests on: any two quorums
    share an authority that is not Byzantine, the authorities that are not
    Byzantine form a quorum, and a set that reaches the validity threshold holds
    one of them. *)
From S2P Require Import Prelude.
Local Open Scope N_scope.
Local Open Scope rust_scope.

Abbreviation Epoch := N (only parsing).
Abbreviation Stake := N (only parsing).

(** [AuthorityIndex(u32)]: the position of an authority in the committee. *)
Abbreviation AuthorityIndex := N (only parsing).
Definition AuthorityIndex_ZERO : AuthorityIndex := 0.
Definition AuthorityIndex_MAX : AuthorityIndex := U32_MAX.

(** The keys are kept as their serialised bytes. *)
Record Authority := mk_authority {
  stake : Stake;
  address : string;
  hostname : string;
  authority_key : bytes;
  protocol_key : bytes;
  network_key : bytes;
}.

Record Committee := mk_committee {
  committee_epoch : Epoch;
  total_stake : Stake;
  quorum_threshold : Stake;
  validity_threshold : Stake;
  authorities_vec : list Authority;
}.

(** [total_stake.div_ceil(d)]. *)
Definition div_ceil (a d : N) : N := if a mod d =? 0 then a / d else a / d + 1.

Definition Committee_new (epoch : Epoch) (authorities : list Authority) : outcome Committee :=
  _ ← assert (bool_decide (authorities ≠ [])) "Committee cannot be empty!";
  _ ← assert (bool_decide (N.of_nat (length authorities) < U32_MAX)) "Too many authorities!";
  let total_stake := wrap64 (sumN (stake <$> authorities)) in
  _ ← assert (bool_decide (total_stake ≠ 0)) "Total stake cannot be zero!";
  let quorum_threshold := (2 *64 total_stake) / 3 +64 1 in
  let validity_threshold := div_ceil total_stake 3 in
  Ret (mk_committee epoch total_stake quorum_threshold validity_threshold authorities).

Definition committee_size (c : Committee) : N := N.of_nat (length (authorities_vec c)).

Definition authority (c : Committee) (i : AuthorityIndex) : outcome Authority :=
  vec_index (authorities_vec c) i.

Definition committee_stake (c : Committee) (i : AuthorityIndex) : outcome Stake :=
  stake <$> vec_index (authorities_vec c) i.

(** [committee.authorities()]: every index with its authority. *)
Definition authorities (c : Committee) : list (AuthorityIndex * Authority) :=
  imap (λ i a, (N.of_nat i, a)) (authorities_vec c).

Definition reached_quorum (c : Committee) (s : Stake) : bool := quorum_threshold c <=? s.

Definition reached_validity (c : Committee) (s : Stake) : bool := validity_threshold c <=? s.

Definition to_authority_index (c : Committee) (index : N) : option AuthorityIndex :=
  if index <? committee_size c then Some index else None.

Definition is_valid_index (c : Committee) (i : AuthorityIndex) : bool := i <? committee_size c.

(** ** Stake of a set of authorities *)

Definition stake_at (c : Committee) (i : AuthorityIndex) : Stake :=
  default 0 (stake <$> authorities_vec c !! N.to_nat i).

Definition set_stake (c : Committee) (X : gset AuthorityIndex) : Stake :=
  sumN (stake_at c <$> elements X).

Definition all_indices (c : Committee) : gset AuthorityIndex :=
  list_to_set (N.of_nat <$> seq 0 (length (authorities_vec c))).

(** A committee the code can have built, with stakes far from the [u64] bound. *)
Definition committee_ok (c : Committee) : Prop :=
  ∃ e auths, Committee_new e auths = Ret c ∧ 2 * sumN (stake <$> auths) < U64_MOD.

Lemma elem_of_all_indices c i : i ∈ all_indices c ↔ is_valid_index c i.
Proof.
  unfold all_indices, is_valid_index, committee_size.
  rewrite elem_of_list_to_set, list_elem_of_fmap. setoid_rewrite elem_of_seq.
  rewrite Is_true_true, N.ltb_lt. split.
  - intros (n & -> & ?). lia.
  - intros Hi. exists (N.to_nat i). lia.
Qed.

Lemma authorities_valid c a x : (a, x) ∈ authorities c → is_valid_index c a.
Proof.
  unfold authorities, is_valid_index, committee_size. rewrite elem_of_lookup_imap. intros (i & y & [= -> ->] & Hi%lookup_lt_Some).
  apply Is_true_true, N.ltb_lt. lia.
Qed.

Lemma committee_stake_ret c i : is_valid_index c i → committee_stake c i = Ret (stake_at c i).
Proof.
  unfold is_valid_index, committee_size, committee_stake, stake_at, vec_index.
  rewrite Is_true_true, N.ltb_lt. intros Hi.
  destruct (lookup_lt_is_Some_2 (authorities_vec c) (N.to_nat i)) as [a Ha]; [lia|].
  by rewrite Ha.
Qed.

Lemma committee_stake_inv c i s :
  committee_stake c i = Ret s → is_valid_index c i ∧ s = stake_at c i.
Proof.
  unfold is_valid_index, committee_size, committee_stake, stake_at. intros Hs. inv_ret.
  match goal with H : _ !! _ = Some _ |- _ =>
    pose proof (lookup_lt_Some _ _ _ H); rewrite H end.
  rewrite Is_true_true, N.ltb_lt. split; [lia|done].
Qed.

Lemma authority_ret c i : is_valid_index c i → is_ret (authority c i).
Proof.
  unfold is_valid_index, committee_size, authority, vec_index. rewrite Is_true_true, N.ltb_lt.
  intros Hi. destruct (lookup_lt_is_Some_2 (authorities_vec c) (N.to_nat i)) as [a Ha]; [lia|].
  rewrite Ha. by exists a.
Qed.

(** ** Set sums *)

Lemma set_stake_empty c : set_stake c ∅ = 0.
Proof. unfold set_stake. by rewrite elements_empty. Qed.

Lemma set_stake_disj_union c X Y :
  X ## Y → set_stake c (X ∪ Y) = set_stake c X + set_stake c Y.
Proof. intros HXY. unfold set_stake. by rewrite elements_disj_union, fmap_app, sumN_app. Qed.

Lemma set_stake_insert c i X :
  i ∉ X → set_stake c ({[i]} ∪ X) = stake_at c i + set_stake c X.
Proof.
  intros Hi. rewrite set_stake_disj_union by set_solver.
  unfold set_stake at 1. rewrite elements_singleton. csimpl. lia.
Qed.

Lemma set_stake_split c X Y : set_stake c X = set_stake c (X ∩ Y) + set_stake c (X ∖ Y).
Proof.
  rewrite <-set_stake_disj_union by set_solver. f_equal.
  rewrite (comm_L (∪)). by rewrite (difference_union_intersection_L X Y).
Qed.

Lemma set_stake_mono c X Y : X ⊆ Y → set_stake c X <= set_stake c Y.
Proof. intros HXY. rewrite (set_stake_split c Y X). replace (Y ∩ X) with X by set_solver. lia. Qed.

Lemma stake_at_le_set_stake c i X : i ∈ X → stake_at c i <= set_stake c X.
Proof.
  intros Hi. rewrite (set_stake_split c X {[i]}). replace (X ∩ {[i]}) with ({[i]} : gset N) by set_solver.
  unfold set_stake at 1. rewrite elements_singleton. csimpl. lia.
Qed.

Lemma sum_all_indices c : set_stake c (all_indices c) = sumN (stake <$> authorities_vec c).
Proof.
  unfold set_stake, all_indices.
  rewrite elements_list_to_set by (apply NoDup_fmap_2; [apply _|apply NoDup_seq]).
  rewrite <-list_fmap_compose. unfold stake_at.
  induction (authorities_vec c) as [|a l IH]; [done|].
  cbn [length seq]. rewrite <-fmap_S_seq, fmap_cons, <-list_fmap_compose, fmap_cons. cbn [sumN foldr].
  f_equal. unfold sumN in IH. rewrite <-IH. f_equal.
  apply list_fmap_ext. intros i x _. unfold compose. by rewrite !Nat2N.id.
Qed.

(** ** Thresholds *)

Lemma committee_ok_fields c :
  committee_ok c →
  authorities_vec c ≠ [] ∧
  total_stake c = set_stake c (all_indices c) ∧ 0 < total_stake c ∧ 2 * total_stake c < U64_MOD ∧
  quorum_threshold c = 2 * total_stake c / 3 + 1 ∧
  validity_threshold c = div_ceil (total_stake c) 3 ∧
  committee_size c < U32_MAX.
Proof.
  intros (e & auths & Hnew & Hsum). unfold Committee_new in Hnew. inv_ret.
  repeat match goal with H : bool_decide _ = true |- _ => apply bool_decide_eq_true in H end.
  simpl. assert (wrap64 (sumN (stake <$> auths)) = sumN (stake <$> auths)) as Hw
    by (apply wrap64_small; lia).
  rewrite !Hw in *. split_and!; try done; try lia.
  - rewrite sum_all_indices. done.
  - rewrite (wrap64_small (2 * _)) by lia. apply wrap64_small.
    pose proof (N.Div0.div_lt_upper_bound (2 * sumN (stake <$> auths)) 3 (U64_MOD - 1)). lia.
Qed.

Lemma div_ceil_spec a d : 0 < d → d * div_ceil a d < a + d ∧ a <= d * div_ceil a d.
Proof.
  intros Hd. unfold div_ceil. pose proof (N.div_mod a d ltac:(lia)) as Hdm.
  pose proof (N.mod_lt a d ltac:(lia)) as Hm. revert Hdm Hm.
  generalize (a / d) as q, (a mod d) as m. intros q m -> ?.
  destruct (N.eqb_spec m 0); rewrite ?N.mul_add_distr_l; lia.
Qed.

Lemma exists_honest c (byz X : gset AuthorityIndex) :
  set_stake c byz < set_stake c X → ∃ i, i ∈ X ∧ i ∉ byz.
Proof.
  intros Hlt. destruct (set_choose_or_empty (X ∖ byz)) as [[i Hi]|Hempty].
  - exists i. set_solver.
  - assert (X ⊆ byz) as Hsub by set_solver. apply (set_stake_mono c) in Hsub. lia.
Qed.

Lemma set_stake_list_le c (l : list AuthorityIndex) :
  set_stake c (list_to_set l) <= sumN (stake_at c <$> l).
Proof.
  induction l as [|i l IH]; csimpl; [by rewrite set_stake_empty|]. simpl.
  destruct (decide (i ∈ (list_to_set l : gset AuthorityIndex))) as [Hi|Hi].
  - replace ({[i]} ∪ list_to_set l) with (list_to_set l : gset AuthorityIndex) by set_solver. lia.
  - rewrite set_stake_insert by done. lia.
Qed.

Section thresholds.
Context (c : Committee) (Hc : committee_ok c).

Lemma quorum_two_thirds : 2 * total_stake c < 3 * quorum_threshold c <= 2 * total_stake c + 3.
Proof.
  destruct (committee_ok_fields c Hc) as (_ & _ & _ & _ & Hq & _).
  pose proof (N.div_mod (2 * total_stake c) 3 ltac:(lia)) as Hdm.
  pose proof (N.mod_lt (2 * total_stake c) 3 ltac:(lia)) as Hm. revert Hq Hdm Hm.
  generalize (2 * total_stake c / 3) as q, (2 * total_stake c mod 3) as m. lia.
Qed.

(** The stake of the Byzantine authorities stays below [f + 1]. *)
Context (byz : gset AuthorityIndex) (Hbyz : set_stake c byz < validity_threshold c).

Lemma byz_third : 3 * set_stake c byz < total_stake c.
Proof.
  destruct (committee_ok_fields c Hc) as (_ & _ & _ & _ & _ & Hv & _).
  pose proof (div_ceil_spec (total_stake c) 3 ltac:(lia)). lia.
Qed.

Lemma quorum_overlap X Y :
  X ⊆ all_indices c → Y ⊆ all_indices c →
  reached_quorum c (set_stake c X) → reached_quorum c (set_stake c Y) →
  set_stake c byz < set_stake c (X ∩ Y).
Proof.
  unfold reached_quorum. rewrite !Is_true_true, !N.leb_le. intros HX HY HqX HqY.
  destruct (committee_ok_fields c Hc) as (_ & Ht & _).
  pose proof byz_third. pose proof quorum_two_thirds.
  pose proof (set_stake_split c X Y).
  assert (set_stake c (X ∖ Y) + set_stake c Y <= total_stake c).
  { rewrite Ht, <-set_stake_disj_union by set_solver. apply set_stake_mono. set_solver. }
  lia.
Qed.

(** Two quorums have a member in common that is not Byzantine. *)
Lemma quorums_share_honest X Y :
  X ⊆ all_indices c → Y ⊆ all_indices c →
  reached_quorum c (set_stake c X) → reached_quorum c (set_stake c Y) →
  ∃ i, i ∈ X ∧ i ∈ Y ∧ i ∉ byz.
Proof.
  intros HX HY HqX HqY.
  destruct (exists_honest c byz (X ∩ Y)) as (i & Hi & Hh); [by apply quorum_overlap|].
  exists i. set_solver.
Qed.
End thresholds.

(** C14: quorum intersection.  In a committee built by [Committee::new], when the
    Byzantine authorities hold less stake than the validity threshold, two sets
    of authorities that each reach the quorum threshold have a member in common
    that is not Byzantine. *)
Theorem quorum_intersection (c : Committee) (byz X Y : gset AuthorityIndex) :
  committee_ok c →
  set_stake c byz < validity_threshold c →
  X ⊆ all_indices c → Y ⊆ all_indices c →
  reached_quorum c (set_stake c X) → reached_quorum c (set_stake c Y) →
  ∃ i, i ∈ X ∧ i ∈ Y ∧ i ∉ byz.
Proof.
  intros Hc Hbyz. by apply quorums_share_honest.
Qed.

(** The thresholds leave room for progress and for trust.  Under the same
    bound on the Byzantine stake, the authorities that are not Byzantine reach
    the quorum threshold on their own, and every set that reaches the validity
    threshold has a member that is not Byzantine. *)
Theorem honest_quorum_and_validity (c : Committee) (byz : gset AuthorityIndex) :
  committee_ok c →
  byz ⊆ all_indices c →
  set_stake c byz < validity_threshold c →
  reached_quorum c (set_stake c (all_indices c ∖ byz)) ∧
  ∀ X, reached_validity c (set_stake c X) → ∃ i, i ∈ X ∧ i ∉ byz.
Proof.
  intros Hc Hsub Hbyz. unfold reached_quorum, reached_validity.
  destruct (committee_ok_fields c Hc) as (_ & Ht & _).
  pose proof (byz_third c Hc byz Hbyz). pose proof (quorum_two_thirds c Hc).
  split.
  - rewrite Is_true_true, N.leb_le. pose proof (set_stake_split c (all_indices c) byz) as Hs.
    replace (all_indices c ∩ byz) with byz in Hs by set_solver.
    destruct (committee_ok_fields c Hc) as (_ & _ & _ & _ & _ & Hv & _).
    pose proof (div_ceil_spec (total_stake c) 3 ltac:(lia)). lia.
  - intros X. rewrite Is_true_true, N.leb_le. intros HX. apply (exists_honest c byz). lia.
Qed.

(** ** A four-authority committee for the witnesses *)

Definition test_authority (s : Stake) : Authority := mk_authority s "addr" "host" [1] [2] [3].

(** The fields of the committee that [Committee::new] builds. *)
Definition test_committee (stakes : list Stake) : Committee :=
  let auths := test_authority <$> stakes in
  let t := wrap64 (sumN (stake <$> auths)) in
  mk_committee 0 t ((2 *64 t) / 3 +64 1) (div_ceil t 3) auths.

Lemma test_committee_ok : committee_ok (test_committee [1; 1; 1; 1]).
Proof. exists 0, (test_authority <$> [1; 1; 1; 1]). by split. Qed.

Lemma quorum_intersection_witness : ∃ i, i ∈ ({[0; 1; 2]} : gset N) ∧ i ∈ ({[1; 2; 3]} : gset N) ∧ i ∉ ({[1]} : gset N).
Proof.
  apply (quorum_intersection (test_committee [1; 1; 1; 1])); [apply test_committee_ok|..];
    try apply (bool_decide_unpack _); by vm_compute.
Defined.

Lemma honest_quorum_and_validity_witness :
  reached_quorum (test_committee [1; 1; 1; 1]) (set_stake (test_committee [1; 1; 1; 1])
    (all_indices (test_committee [1; 1; 1; 1]) ∖ {[3]})).
Proof.
  apply (honest_quorum_and_validity (test_committee [1; 1; 1; 1]) {[3]}); [apply test_committee_ok|..];
    try apply (bool_decide_unpack _); by vm_compute.
Defined.
