(* ===== verification/Block.v ===== *)
(** * Blocks, references, slots and the per-epoch context

    Models [consensus/core/src/block.rs] and the parts of [context.rs] the other
    components read.  Serialisation, hashing and signatures are third-party code
    (bcs, fastcrypto): they are the fields of the class [Crypto], an argument of
    the definitions that use them. *)
From S2P Require Import Prelude Committee.
Local Open Scope N_scope.

Abbreviation Round := N (only parsing).
Abbreviation BlockTimestampMs := N (only parsing).
Abbreviation CommitIndex := N (only parsing).

Definition GENESIS_ROUND : Round := 0.

(** A digest is an array of 32 bytes compared lexicographically; it is kept as
    the number those bytes spell in big-endian order, which has the same order. *)
Abbreviation BlockDigest := N (only parsing).
Abbreviation CommitDigest := N (only parsing).
Definition DIGEST_MIN : N := 0.
Definition DIGEST_MAX : N := 2 ^ 256 - 1.

Record Transaction := mk_transaction { data : bytes }.

Record BlockRef := mk_ref {
  ref_round : Round;
  ref_author : AuthorityIndex;
  ref_digest : BlockDigest;
}.

Record Slot := mk_slot {
  slot_round : Round;
  slot_authority : AuthorityIndex;
}.

(** [impl From<BlockRef> for Slot]. *)
Definition ref_slot (r : BlockRef) : Slot := mk_slot (ref_round r) (ref_author r).

Record CommitRef := mk_commit_ref {
  commit_ref_index : CommitIndex;
  commit_ref_digest : CommitDigest;
}.
Abbreviation CommitVote := CommitRef (only parsing).

Inductive MisbehaviorProof := InvalidBlock (r : BlockRef).
Record MisbehaviorReport := mk_report { target : AuthorityIndex; proof : MisbehaviorProof }.

Record BlockV1 := mk_block_v1 {
  v1_epoch : Epoch;
  v1_round : Round;
  v1_author : AuthorityIndex;
  v1_timestamp_ms : BlockTimestampMs;
  v1_ancestors : list BlockRef;
  v1_transactions : list Transaction;
  v1_commit_votes : list CommitVote;
  v1_misbehavior_reports : list MisbehaviorReport;
}.

Inductive Block := V1 (b : BlockV1).

(** ** [BlockAPI] *)
Definition epoch (b : Block) : Epoch := match b with V1 b => v1_epoch b end.
Definition round (b : Block) : Round := match b with V1 b => v1_round b end.
Definition author (b : Block) : AuthorityIndex := match b with V1 b => v1_author b end.
Definition slot (b : Block) : Slot := mk_slot (round b) (author b).
Definition timestamp_ms (b : Block) : BlockTimestampMs := match b with V1 b => v1_timestamp_ms b end.
Definition ancestors (b : Block) : list BlockRef := match b with V1 b => v1_ancestors b end.
Definition transactions (b : Block) : list Transaction := match b with V1 b => v1_transactions b end.
Definition commit_votes (b : Block) : list CommitVote := match b with V1 b => v1_commit_votes b end.

Record SignedBlock := mk_signed {
  inner : Block;
  signature : bytes;
}.

Record VerifiedBlock := mk_verified {
  signed_block : SignedBlock;
  digest : BlockDigest;
  serialized : bytes;
}.

(** The [Deref] implementations. *)
Coercion inner : SignedBlock >-> Block.
Coercion signed_block : VerifiedBlock >-> SignedBlock.

Definition reference (b : VerifiedBlock) : BlockRef := mk_ref (round b) (author b) (digest b).

(** ** Instances *)

#[export] Instance Transaction_eq_dec : EqDecision Transaction.
Proof. solve_decision. Defined.
#[export] Instance BlockRef_eq_dec : EqDecision BlockRef.
Proof. solve_decision. Defined.
#[export] Instance Slot_eq_dec : EqDecision Slot.
Proof. solve_decision. Defined.
#[export] Instance CommitRef_eq_dec : EqDecision CommitRef.
Proof. solve_decision. Defined.
#[export] Instance MisbehaviorProof_eq_dec : EqDecision MisbehaviorProof.
Proof. solve_decision. Defined.
#[export] Instance MisbehaviorReport_eq_dec : EqDecision MisbehaviorReport.
Proof. solve_decision. Defined.
#[export] Instance BlockV1_eq_dec : EqDecision BlockV1.
Proof. solve_decision. Defined.
#[export] Instance Block_eq_dec : EqDecision Block.
Proof. solve_decision. Defined.
#[export] Instance SignedBlock_eq_dec : EqDecision SignedBlock.
Proof. solve_decision. Defined.
#[export] Instance VerifiedBlock_eq_dec : EqDecision VerifiedBlock.
Proof. solve_decision. Defined.

#[export] Program Instance BlockRef_countable : Countable BlockRef :=
  inj_countable' (λ r, (ref_round r, ref_author r, ref_digest r))
    (λ '(r, a, d), mk_ref r a d) _.
Next Obligation. by intros []. Qed.
#[export] Program Instance CommitRef_countable : Countable CommitRef :=
  inj_countable' (λ r, (commit_ref_index r, commit_ref_digest r))
    (λ '(i, d), mk_commit_ref i d) _.
Next Obligation. by intros []. Qed.

(** The derived [Ord] of [BlockRef]: round, then author, then digest. *)
Definition ref_le (a b : BlockRef) : Prop :=
  ref_round a < ref_round b ∨
  (ref_round a = ref_round b ∧
    (ref_author a < ref_author b ∨ (ref_author a = ref_author b ∧ ref_digest a <= ref_digest b))).

#[export] Instance ref_le_dec : RelDecision ref_le.
Proof. intros a b. unfold ref_le. apply _. Defined.

#[export] Program Instance BlockRef_ord_key : OrdKey BlockRef := {| key_le := ref_le |}.
Next Obligation. split; [intros a | intros a b d]; unfold ref_le; lia. Qed.
Next Obligation.
  intros [r a d] [r' a' d']. unfold ref_le. simpl. intros. f_equal; lia.
Qed.
Next Obligation. intros a b. unfold ref_le. lia. Qed.

Lemma ref_le_round a b : ref_le a b → ref_round a <= ref_round b.
Proof. unfold ref_le. lia. Qed.

(** ** Context *)

(** The getters of [ProtocolConfig] that consensus reads. *)
Record ProtocolConfig := mk_protocol_config {
  gc_depth : N;
  consensus_median_timestamp_with_checkpoint_enforcement : bool;
  consensus_linearize_subdag_v2 : bool;
  consensus_distributed_vote_scoring_strategy : bool;
  consensus_bad_nodes_stake_threshold : N;
  max_transaction_size_bytes : N;
  max_num_transactions_in_block : N;
  max_transactions_in_block_bytes : N;
  consensus_smart_ancestor_selection : bool;
  consensus_round_prober_probe_accepted_rounds : bool;
}.

Record Context := mk_context {
  epoch_start_timestamp_ms : N;
  own_index : AuthorityIndex;
  committee : Committee;
  protocol_config : ProtocolConfig;
  (* the node's parameters *)
  dag_state_cached_rounds : Round;
  min_round_delay : N;
  propagation_delay_stop_proposal_threshold : Round;
}.

(** Third-party code: bcs serialisation ([None] is a [bcs::Error]), the hash
    function, and the decoding and verification of protocol signatures. *)
Class Crypto := {
  bcs_signed_block : SignedBlock → option bytes;
  bcs_block : Block → option bytes;
  bcs_block_intent : BlockDigest → option bytes;
  hash_function : bytes → N;
  decode_signature : bytes → option bytes;
  verify_protocol_signature : bytes → bytes → bytes → bool;
}.

Section crypto.
Context `{Crypto}.

Definition compute_digest (serialized : bytes) : BlockDigest := hash_function serialized.

Definition new_verified (b : SignedBlock) (serialized : bytes) : VerifiedBlock :=
  mk_verified b (compute_digest serialized) serialized.

Definition new_verified_with_digest (b : SignedBlock) (serialized : bytes) (d : BlockDigest) : VerifiedBlock :=
  mk_verified b d serialized.

Definition genesis_block (ctx : Context) (author : AuthorityIndex) : BlockV1 :=
  mk_block_v1 (committee_epoch (committee ctx)) GENESIS_ROUND author
    (if consensus_median_timestamp_with_checkpoint_enforcement (protocol_config ctx)
     then epoch_start_timestamp_ms ctx else 0)
    [] [] [] [].

Definition new_genesis (b : Block) : SignedBlock := mk_signed b [].

Definition genesis_blocks (ctx : Context) : outcome (list VerifiedBlock) :=
  mapM (λ '(i, _),
    let signed := new_genesis (V1 (genesis_block ctx i)) in
    serialized ← expect (bcs_signed_block signed) "Genesis block serialization failed.";
    Ret (new_verified signed serialized))
  (authorities (committee ctx)).
End crypto.

(** ** A concrete instance for the witnesses *)

Definition test_bytes (b : Block) : bytes :=
  [epoch b; round b; author b; timestamp_ms b] ++ (ancestors b ≫= λ a, [ref_round a; ref_author a; ref_digest a]).

(** A toy serialisation and a polynomial hash. *)
Definition test_crypto : Crypto := {|
  bcs_signed_block b := Some (test_bytes b);
  bcs_block b := Some (test_bytes b);
  bcs_block_intent d := Some [d];
  hash_function := foldl (λ h x, (h * 31 + x + 7) mod 1000003) 0;
  decode_signature := Some;
  verify_protocol_signature k m s := bool_decide (s = k ++ m);
|}.

Definition test_config (depth : N) : ProtocolConfig :=
  mk_protocol_config depth true true true 33 1000 512 100000 true true.

Definition test_context (depth : N) : Context :=
  mk_context 0 0 (test_committee [1; 1; 1; 1]) (test_config depth) 100 50 5.

(** A verified block whose digest is [d]. *)
Definition test_block (r : Round) (a : AuthorityIndex) (d : BlockDigest) (ts : N) (ancs : list BlockRef) : VerifiedBlock :=
  mk_verified (mk_signed (V1 (mk_block_v1 0 r a ts ancs [] [] [])) []) d [].
