(* ===== verification/StakeAggregator.v ===== *)
(** * StakeAggregator: counting the stake of distinct voters

    Models [consensus/core/src/stake_aggregator.rs].  The trait
    [CommitteeThreshold] is a class with the two implementations of the code as
    instances; the aggregator is generic in it. *)
From S2P Require Import Prelude Committee.
Local Open Scope N_scope.
Local Open Scope rust_scope.

Class CommitteeThreshold (T : Type) := {
  is_threshold : Committee → Stake → bool;
  threshold_of : Committee → Stake;
}.
#[export] Hint Mode CommitteeThreshold ! : typeclass_instances.

(** What a threshold promises: it is a lower bound on the stake, never met by
    an empty set of voters. *)
Class CommitteeThresholdLaws (T : Type) `{CommitteeThreshold T} := {
  is_threshold_spec c s : is_threshold (T:=T) c s = (threshold_of (T:=T) c <=? s);
  threshold_positive c : committee_ok c → 0 < threshold_of (T:=T) c;
}.

Inductive QuorumThreshold : Type := .
Inductive ValidityThreshold : Type := .

#[export] Instance quorum_threshold_instance : CommitteeThreshold QuorumThreshold :=
  {| is_threshold c s := reached_quorum c s; threshold_of c := quorum_threshold c |}.

#[export] Instance validity_threshold_instance : CommitteeThreshold ValidityThreshold :=
  {| is_threshold c s := reached_validity c s; threshold_of c := validity_threshold c |}.

#[export] Instance quorum_threshold_laws : CommitteeThresholdLaws QuorumThreshold.
Proof. split; [done|]. intros c Hc. pose proof (quorum_two_thirds c Hc). simpl. lia. Qed.

#[export] Instance validity_threshold_laws : CommitteeThresholdLaws ValidityThreshold.
Proof.
  split; [done|]. intros c Hc. simpl. destruct (committee_ok_fields c Hc) as (_ & _ & ? & _ & _ & -> & _).
  pose proof (div_ceil_spec (total_stake c) 3 ltac:(lia)). lia.
Qed.

Record StakeAggregator (T : Type) := mk_aggregator {
  votes : gset AuthorityIndex;
  agg_stake : Stake;
}.
Arguments mk_aggregator {_} _ _.
Arguments votes {_} _.
Arguments agg_stake {_} _.

Section aggregator.
Context {T : Type} `{CommitteeThreshold T}.

Definition StakeAggregator_new : StakeAggregator T := mk_aggregator ∅ 0.

(** Adds a vote, counted once per authority, and says whether the threshold is
    reached. *)
Definition add (a : StakeAggregator T) (vote : AuthorityIndex) (c : Committee)
    : outcome (StakeAggregator T * bool) :=
  a' ← (if decide (vote ∈ votes a) then Ret a
        else s ← committee_stake c vote;
             Ret (mk_aggregator ({[vote]} ∪ votes a) (agg_stake a +64 s)));
  Ret (a', is_threshold (T:=T) c (agg_stake a')).

Definition reached_threshold (a : StakeAggregator T) (c : Committee) : bool :=
  is_threshold (T:=T) c (agg_stake a).

Definition threshold (a : StakeAggregator T) (c : Committee) : Stake := threshold_of (T:=T) c.

Definition clear (a : StakeAggregator T) : StakeAggregator T := mk_aggregator ∅ 0.

(** The aggregator holds exactly the stake of its voters. *)
Definition agg_ok (c : Committee) (a : StakeAggregator T) : Prop :=
  votes a ⊆ all_indices c ∧ agg_stake a = set_stake c (votes a).

Lemma agg_ok_clear c a : agg_ok c (clear a).
Proof. split; [set_solver|]. by rewrite set_stake_empty. Qed.

Lemma agg_ok_new c : agg_ok c StakeAggregator_new.
Proof. apply (agg_ok_clear c StakeAggregator_new). Qed.

Section with_committee.
Context (c : Committee) (Hc : committee_ok c).

Lemma set_stake_le_total X : X ⊆ all_indices c → set_stake c X <= total_stake c.
Proof. destruct (committee_ok_fields c Hc) as (_ & -> & _). apply set_stake_mono. Qed.

Lemma add_spec a v :
  agg_ok c a → is_valid_index c v →
  ∃ a', add a v c = Ret (a', reached_threshold a' c) ∧
        votes a' = {[v]} ∪ votes a ∧ agg_ok c a'.
Proof.
  intros [Hv Hs] Hi. unfold add. case_decide as Hin.
  - exists a. split; [done|]. split; [set_solver|done].
  - rewrite committee_stake_ret by done. eexists. split; [done|]. split; [done|].
    assert ({[v]} ∪ votes a ⊆ all_indices c) as Hsub.
    { apply elem_of_all_indices in Hi. set_solver. }
    split; [done|]. simpl. rewrite Hs, set_stake_insert by done. rewrite (N.add_comm (set_stake _ _)).
    apply wrap64_small. pose proof (set_stake_le_total _ Hsub) as Hle.
    rewrite set_stake_insert in Hle by done.
    destruct (committee_ok_fields c Hc) as (_ & _ & _ & ? & _). lia.
Qed.

Lemma add_inv a v a' b :
  agg_ok c a → add a v c = Ret (a', b) →
  votes a' = {[v]} ∪ votes a ∧ agg_ok c a' ∧ b = reached_threshold a' c.
Proof.
  intros Ha Hadd. assert (is_valid_index c v) as Hv.
  { unfold add in Hadd. case_decide as Hin.
    - destruct Ha as [Hsub _]. apply elem_of_all_indices. set_solver.
    - inv_ret. by match goal with H : committee_stake _ _ = Ret _ |- _ =>
        apply committee_stake_inv in H as [? _] end. }
  destruct (add_spec a v Ha Hv) as (a'' & Heq & ? & ?). rewrite Heq in Hadd. by inv_ret.
Qed.
End with_committee.

(** A sequence of votes, as the loops of the callers feed them. *)
Definition add_votes (a : StakeAggregator T) (vs : list AuthorityIndex) (c : Committee)
    : outcome (StakeAggregator T) :=
  foldM (λ a v, fst <$> add a v c) a vs.

Lemma add_votes_spec c vs : committee_ok c → ∀ a,
  agg_ok c a → Forall (λ v, is_valid_index c v) vs →
  ∃ a', add_votes a vs c = Ret a' ∧ votes a' = list_to_set vs ∪ votes a ∧ agg_ok c a'.
Proof.
  intros Hc. induction vs as [|v vs IH]; intros a Ha Hvs.
  - exists a. split; [done|]. split; [set_solver|done].
  - apply Forall_cons in Hvs as [Hv Hvs].
    destruct (add_spec c Hc a v Ha Hv) as (a1 & Heq & Hv1 & Ha1).
    destruct (IH a1 Ha1 Hvs) as (a2 & Heq2 & Hv2 & Ha2).
    exists a2. unfold add_votes in *. simpl. rewrite Heq. simpl. split; [done|].
    split; [set_solver|done].
Qed.
End aggregator.

(** An authority's vote counts once.  Feeding any sequence of votes from
    committee members to a fresh aggregator never panics, and the threshold is
    reported as reached exactly when the set of distinct voters holds the
    required stake, however often and in whatever order they voted. *)
Theorem aggregator_counts_distinct_stake {T} `{CommitteeThresholdLaws T}
    (c : Committee) (vs : list AuthorityIndex) :
  committee_ok c → Forall (λ v, is_valid_index c v) vs →
  ∃ a, add_votes (T:=T) StakeAggregator_new vs c = Ret a ∧
       agg_stake a = set_stake c (list_to_set vs) ∧
       (reached_threshold a c ↔ threshold_of (T:=T) c <= set_stake c (list_to_set vs)).
Proof.
  intros Hc Hvs. destruct (add_votes_spec (T:=T) c vs Hc _ (agg_ok_new c) Hvs) as (a & Heq & Hv & Hsub & Hs).
  exists a. split; [done|]. simpl in Hv. rewrite (right_id_L ∅ (∪)) in Hv. rewrite Hv in Hs.
  split; [done|]. unfold reached_threshold. rewrite is_threshold_spec, Hs, Is_true_true. apply N.leb_le.
Qed.

Lemma aggregator_counts_distinct_stake_witness :
  ∃ a, add_votes (T:=QuorumThreshold) StakeAggregator_new [2; 0; 2; 1] (test_committee [1; 1; 1; 1]) = Ret a ∧
       agg_stake a = 3 ∧ reached_threshold a (test_committee [1; 1; 1; 1]).
Proof.
  destruct (aggregator_counts_distinct_stake (T:=QuorumThreshold) (test_committee [1; 1; 1; 1]) [2; 0; 2; 1])
    as (a & Heq & Hs & Hr).
  - apply test_committee_ok.
  - repeat constructor; by vm_compute.
  - exists a. split; [exact Heq|]. split; [exact Hs|]. apply Hr. by vm_compute.
Defined.
