(* ===== verification/ThresholdClock.v ===== *)
(** * ThresholdClock: when to move to the next round

    Models [consensus/core/src/threshold_clock.rs].  [Instant::now()] is an
    argument; the latency metric it feeds is not modelled.  The main theorem
    says that the round does not depend on the order in which blocks arrive. *)
From S2P Require Import Prelude Committee Block StakeAggregator.
Local Open Scope N_scope.
Local Open Scope rust_scope.

Record ThresholdClock := mk_clock {
  aggregator : StakeAggregator QuorumThreshold;
  clock_round : Round;
  quorum_ts : N;
}.

Definition ThresholdClock_new (r : Round) (now : N) : ThresholdClock :=
  mk_clock StakeAggregator_new r now.

Definition try_advance_round (c : Committee) (k : ThresholdClock) (new_round : Round) (now : N)
    : ThresholdClock * bool :=
  if reached_threshold (aggregator k) c
  then (mk_clock (clear (aggregator k)) new_round now, true)
  else (k, false).

(** [add_block], for the block with reference [b]. *)
Definition clock_add_block (c : Committee) (now : N) (k : ThresholdClock) (b : BlockRef)
    : outcome ThresholdClock :=
  k' ← match ref_round b ?= clock_round k with
       | Lt => Ret k
       | Gt =>
         '(a, _) ← add (clear (aggregator k)) (ref_author b) c;
         Ret (mk_clock a (ref_round b) (quorum_ts k))
       | Eq =>
         '(a, _) ← add (aggregator k) (ref_author b) c;
         Ret (mk_clock a (clock_round k) (quorum_ts k))
       end;
  Ret (fst (try_advance_round c k' (ref_round b +32 1) now)).

(** Blocks accepted one after the other, each at its own time. *)
Definition clock_add_blocks (c : Committee) (k : ThresholdClock) (bs : list (BlockRef * N))
    : outcome ThresholdClock :=
  foldM (λ k b, clock_add_block c b.2 k b.1) k bs.

(** ** Specification *)

Definition authors_at (r : Round) (bs : list BlockRef) : gset AuthorityIndex :=
  list_to_set (ref_author <$> filter (λ b, ref_round b = r) bs).

(** Whether the authors of the blocks of round [r] among [bs] are a quorum. *)
Definition quorum_at (c : Committee) (r : Round) (bs : list BlockRef) : bool :=
  reached_quorum c (set_stake c (authors_at r bs)).

(** The round a clock that started at [r0] and saw [bs] stands at: the lowest
    one that is not below any block nor at or below a quorum. *)
Record clock_round_spec (c : Committee) (r0 : Round) (bs : list BlockRef) (r : Round) : Prop := {
  spec_start : r0 <= r;
  spec_blocks : ∀ b, b ∈ bs → ref_round b <= r;
  spec_no_quorum : ∀ r', r <= r' → ¬ quorum_at c r' bs;
  spec_reason : r = r0 ∨ (∃ b, b ∈ bs ∧ ref_round b = r) ∨
                (r0 < r ∧ quorum_at c (r - 1) bs);
}.

Lemma clock_round_spec_unique c r0 bs bs' r r' :
  (∀ b, b ∈ bs ↔ b ∈ bs') →
  clock_round_spec c r0 bs r → clock_round_spec c r0 bs' r' → r = r'.
Proof.
  intros Hbs. assert (∀ ρ, quorum_at c ρ bs = quorum_at c ρ bs') as Hq.
  { intros ρ. unfold quorum_at, authors_at. do 2 f_equal. apply set_eq. intros i.
    rewrite !elem_of_list_to_set, !list_elem_of_fmap. setoid_rewrite list_elem_of_filter. naive_solver. }
  assert (∀ bs r bs' r', (∀ b, b ∈ bs ↔ b ∈ bs') → (∀ ρ, quorum_at c ρ bs = quorum_at c ρ bs') →
    clock_round_spec c r0 bs r → clock_round_spec c r0 bs' r' → r <= r') as Hle.
  { clear. intros bs r bs' r' Hbs Hq [H1 H2 H3 H4] [H1' H2' H3' H4'].
    destruct H4 as [->|[(b & Hb & <-)|[Hlt Hquo]]]; [done| |].
    - apply H2', Hbs, Hb.
    - destruct (decide (r <= r')) as [|Hn]; [done|]. exfalso.
      apply (H3' (r - 1)); [lia|]. by rewrite <-Hq. }
  intros Hs Hs'. apply N.le_antisymm; [by eapply Hle|]. eapply Hle; [| |done..]; naive_solver.
Qed.

(** ** Invariant of the clock *)

Record clock_ok (c : Committee) (r0 : Round) (bs : list BlockRef) (k : ThresholdClock) : Prop := {
  clock_agg : agg_ok c (aggregator k);
  clock_votes : votes (aggregator k) = authors_at (clock_round k) bs;
  clock_spec : clock_round_spec c r0 bs (clock_round k);
}.

Section clock.
Context (c : Committee) (Hc : committee_ok c) (r0 : Round).

Lemma not_quorum_empty : ¬ reached_quorum c (set_stake c ∅).
Proof.
  rewrite set_stake_empty. unfold reached_quorum. rewrite Is_true_true, N.leb_le.
  pose proof (threshold_positive (T:=QuorumThreshold) c Hc) as Hp. simpl in Hp. lia.
Qed.

Lemma authors_at_snoc r bs b :
  authors_at r (bs ++ [b]) =
    if decide (ref_round b = r) then {[ref_author b]} ∪ authors_at r bs else authors_at r bs.
Proof.
  unfold authors_at. rewrite filter_app, fmap_app, list_to_set_app_L, filter_cons, filter_nil.
  case_decide; set_solver.
Qed.

Lemma authors_at_above r bs : (∀ b, b ∈ bs → ref_round b < r) → authors_at r bs = ∅.
Proof.
  intros Hbs. apply elem_of_equiv_empty_L. intros i. unfold authors_at.
  rewrite elem_of_list_to_set, list_elem_of_fmap. setoid_rewrite list_elem_of_filter.
  intros (b & _ & Hr & Hb). specialize (Hbs b Hb). lia.
Qed.

Lemma clock_ok_new now : clock_ok c r0 [] (ThresholdClock_new r0 now).
Proof.
  split; simpl; [apply agg_ok_new|done|].
  split; [lia|set_solver| |by left]. intros r' _. apply not_quorum_empty.
Qed.

Lemma reached_threshold_quorum bs (k : ThresholdClock) r :
  agg_ok c (aggregator k) → votes (aggregator k) = authors_at r bs →
  reached_threshold (aggregator k) c = quorum_at c r bs.
Proof. intros [_ Hs] Hv. unfold reached_threshold, quorum_at. simpl. by rewrite Hs, Hv. Qed.

(** What both advancing and staying must re-establish. *)
Lemma clock_ok_advance bs k b now :
  agg_ok c (aggregator k) → votes (aggregator k) = authors_at (clock_round k) (bs ++ [b]) →
  ref_round b = clock_round k → ref_round b < U32_MAX → r0 <= clock_round k →
  (∀ b, b ∈ bs → ref_round b <= clock_round k) →
  clock_ok c r0 (bs ++ [b]) (fst (try_advance_round c k (ref_round b +32 1) now)).
Proof.
  intros Ha Hv Hb Hmax Hr0 Hbs. unfold try_advance_round.
  assert (∀ b', b' ∈ bs ++ [b] → ref_round b' <= clock_round k) as Hall by (set_solver by lia).
  assert (∀ r', clock_round k < r' → ¬ quorum_at c r' (bs ++ [b])) as Habove.
  { intros r' Hr'. unfold quorum_at. rewrite authors_at_above; [apply not_quorum_empty|].
    intros b' Hb'. specialize (Hall b' Hb'). lia. }
  rewrite (reached_threshold_quorum (bs ++ [b]) k (clock_round k)) by done.
  rewrite wrap32_small by (unfold U32_MOD, U32_MAX in *; lia).
  destruct (quorum_at c (clock_round k) (bs ++ [b])) eqn:Hq; split; simpl.
  - apply agg_ok_clear.
  - rewrite authors_at_above; [done|]. intros b' Hb'. specialize (Hall b' Hb'). lia.
  - split; [lia| | |].
    + intros b' Hb'. specialize (Hall b' Hb'). lia.
    + intros r' Hr'. apply Habove. lia.
    + right; right. split; [lia|]. replace (ref_round b + 1 - 1) with (clock_round k) by lia. by rewrite Hq.
  - done.
  - done.
  - split; [done|done| |].
    + intros r' Hr'. destruct (decide (r' = clock_round k)) as [->|]; [rewrite Hq; by intros []|]. apply Habove. lia.
    + right; left. exists b. set_solver.
Qed.

Lemma clock_add_block_ok bs k b now :
  clock_ok c r0 bs k → is_valid_index c (ref_author b) → ref_round b < U32_MAX →
  ∃ k', clock_add_block c now k b = Ret k' ∧ clock_ok c r0 (bs ++ [b]) k'.
Proof.
  intros [Ha Hv [Hr0 Hbs Hnq Hreason]] Hi Hmax. unfold clock_add_block.
  destruct (N.compare_spec (ref_round b) (clock_round k)) as [Heq|Hlt|Hgt].
  - destruct (add_spec c Hc (aggregator k) (ref_author b) Ha Hi) as (a & -> & Hva & Ha').
    eexists; split; [done|]. apply clock_ok_advance; simpl; try done.
    rewrite Hva, Hv, authors_at_snoc, decide_True by done. done.
  - eexists; split; [done|]. unfold try_advance_round.
    rewrite (reached_threshold_quorum bs k (clock_round k)) by done.
    assert (∀ r', clock_round k <= r' → authors_at r' (bs ++ [b]) = authors_at r' bs) as Hsame.
    { intros r' Hr'. rewrite authors_at_snoc, decide_False by lia. done. }
    specialize (Hnq (clock_round k) (N.le_refl _)) as Hnk. rewrite (Is_true_false_1 _ Hnk).
    split; simpl; [done|by rewrite Hsame|]. split; [done|set_solver by lia| |].
    + intros r' Hr'. unfold quorum_at. rewrite Hsame by done. by apply Hnq.
    + destruct Hreason as [->|[(b' & ? & ?)|[Hlt' Hq]]]; [by left|right; left; set_solver|].
      right; right. split; [done|]. unfold quorum_at in *. rewrite authors_at_snoc. case_decide; [|done].
      unfold reached_quorum in *. rewrite !Is_true_true, !N.leb_le in *.
      pose proof (set_stake_mono c (authors_at (clock_round k - 1) bs)
        ({[ref_author b]} ∪ authors_at (clock_round k - 1) bs) ltac:(set_solver)). lia.
  - destruct (add_spec c Hc (clear (aggregator k)) (ref_author b) (agg_ok_clear c _) Hi) as (a & -> & Hva & Ha').
    eexists; split; [done|]. apply clock_ok_advance; simpl; try done; try lia.
    + rewrite Hva, authors_at_snoc, decide_True by done. f_equal. symmetry. apply authors_at_above.
      intros b' Hb'. specialize (Hbs b' Hb'). lia.
    + intros b' Hb'. specialize (Hbs b' Hb'). lia.
Qed.

Lemma clock_add_blocks_ok todo : ∀ bs k,
  clock_ok c r0 bs k →
  Forall (λ b, is_valid_index c (ref_author b.1) ∧ ref_round b.1 < U32_MAX) todo →
  ∃ k', clock_add_blocks c k todo = Ret k' ∧ clock_ok c r0 (bs ++ (fst <$> todo)) k'.
Proof.
  induction todo as [|[b now] todo IH]; intros bs k Hk Hall.
  - exists k. csimpl. rewrite app_nil_r. done.
  - apply Forall_cons in Hall as [[Hi Hr] Hall].
    destruct (clock_add_block_ok bs k b now Hk Hi Hr) as (k1 & H1 & Hk1).
    destruct (IH _ _ Hk1 Hall) as (k2 & H2 & Hk2). exists k2. unfold clock_add_blocks in *. simpl.
    rewrite H1. simpl. split; [done|]. by rewrite <-app_assoc in Hk2.
Qed.
End clock.

(** C40: the round of the threshold clock is a function of the set of blocks.
    A clock started at [r0] that is fed blocks of committee members returns the
    round [clock_round_spec] describes, without panicking; and two clocks that
    saw the same blocks, in any order and any number of times, stand at the same
    round.  In particular a late block of an earlier round never moves the clock
    back although the code attempts an advance to [block.round + 1] for it. *)
Theorem threshold_clock_order_independent (c : Committee) (r0 now now' : N) (bs bs' : list (BlockRef * N)) :
  committee_ok c →
  Forall (λ b, is_valid_index c (ref_author b.1) ∧ ref_round b.1 < U32_MAX) bs →
  Forall (λ b, is_valid_index c (ref_author b.1) ∧ ref_round b.1 < U32_MAX) bs' →
  (∀ b, b ∈ bs.*1 ↔ b ∈ bs'.*1) →
  ∃ k k', clock_add_blocks c (ThresholdClock_new r0 now) bs = Ret k ∧
          clock_add_blocks c (ThresholdClock_new r0 now') bs' = Ret k' ∧
          clock_round k = clock_round k' ∧ clock_round_spec c r0 bs.*1 (clock_round k).
Proof.
  intros Hc Hbs Hbs' Hsame.
  destruct (clock_add_blocks_ok c Hc r0 bs [] _ (clock_ok_new c Hc r0 now) Hbs) as (k & Hk & [_ _ Hs]).
  destruct (clock_add_blocks_ok c Hc r0 bs' [] _ (clock_ok_new c Hc r0 now') Hbs') as (k' & Hk' & [_ _ Hs']).
  exists k, k'. split_and!; [done|done| |done]. by eapply clock_round_spec_unique.
Qed.

Lemma threshold_clock_order_independent_witness :
  ∃ k k', clock_add_blocks (test_committee [1; 1; 1; 1]) (ThresholdClock_new 0 0)
            [(mk_ref 0 0 7, 1); (mk_ref 0 1 7, 2); (mk_ref 0 2 7, 3); (mk_ref 1 3 7, 4)] = Ret k ∧
          clock_add_blocks (test_committee [1; 1; 1; 1]) (ThresholdClock_new 0 5)
            [(mk_ref 1 3 7, 1); (mk_ref 0 2 7, 2); (mk_ref 0 1 7, 3); (mk_ref 0 0 7, 4); (mk_ref 0 0 7, 5)] = Ret k' ∧
          clock_round k = clock_round k' ∧ clock_round k = 1.
Proof.
  destruct (threshold_clock_order_independent (test_committee [1; 1; 1; 1]) 0 0 5
    [(mk_ref 0 0 7, 1); (mk_ref 0 1 7, 2); (mk_ref 0 2 7, 3); (mk_ref 1 3 7, 4)]
    [(mk_ref 1 3 7, 1); (mk_ref 0 2 7, 2); (mk_ref 0 1 7, 3); (mk_ref 0 0 7, 4); (mk_ref 0 0 7, 5)])
    as (k & k' & Hk & Hk' & Heq & _).
  - apply test_committee_ok.
  - repeat constructor; by vm_compute.
  - repeat constructor; by vm_compute.
  - simpl. set_solver.
  - exists k, k'. split; [exact Hk|]. split; [exact Hk'|]. split; [exact Heq|].
    vm_compute in Hk. injection Hk as <-. reflexivity.
Defined.
