(* ===== verification/Commit.v ===== *)
(** * Commits, leader decisions and commit ranges

    Models [consensus/core/src/commit.rs]: [Commit], [TrustedCommit],
    [CertifiedCommit], [CommittedSubDag], the leader statuses, and [CommitRange]
    with its saturating end; with [ReputationScores] of [leader_scoring.rs],
    which a commit's metadata carries.  bcs serialisation of a commit is an
    argument. *)
From S2P Require Import Prelude Committee Block.
Local Open Scope N_scope.
Local Open Scope rust_scope.

Definition GENESIS_COMMIT_INDEX : CommitIndex := 0.
Definition MINIMUM_WAVE_LENGTH : Round := 3.
Definition DEFAULT_WAVE_LENGTH : Round := MINIMUM_WAVE_LENGTH.
Abbreviation WaveNumber := N (only parsing).

Record CommitV1 := mk_commit_v1 {
  v1_index : CommitIndex;
  v1_previous_digest : CommitDigest;
  v1_commit_timestamp_ms : BlockTimestampMs;
  v1_leader : BlockRef;
  v1_blocks : list BlockRef;
}.

Inductive Commit := CommitVersion1 (c : CommitV1).

Definition Commit_new (index : CommitIndex) (previous_digest : CommitDigest)
    (timestamp_ms : BlockTimestampMs) (leader : BlockRef) (blocks : list BlockRef) : Commit :=
  CommitVersion1 (mk_commit_v1 index previous_digest timestamp_ms leader blocks).

(** ** [CommitAPI] *)
Definition commit_v1 (c : Commit) : CommitV1 := match c with CommitVersion1 c => c end.
Definition commit_round (c : Commit) : Round := ref_round (v1_leader (commit_v1 c)).
Definition commit_index (c : Commit) : CommitIndex := v1_index (commit_v1 c).
Definition previous_digest (c : Commit) : CommitDigest := v1_previous_digest (commit_v1 c).
Definition commit_timestamp_ms (c : Commit) : BlockTimestampMs := v1_commit_timestamp_ms (commit_v1 c).
Definition commit_leader (c : Commit) : BlockRef := v1_leader (commit_v1 c).
Definition commit_blocks (c : Commit) : list BlockRef := v1_blocks (commit_v1 c).

Record TrustedCommit := mk_trusted {
  commit_inner : Commit;
  commit_digest : CommitDigest;
  commit_serialized : bytes;
}.
Coercion commit_inner : TrustedCommit >-> Commit.

Definition commit_reference (c : TrustedCommit) : CommitRef :=
  mk_commit_ref (commit_index c) (commit_digest c).

(** [TrustedCommit::new_trusted]: the digest is the hash of the bytes. *)
Definition new_trusted `{Crypto} (c : Commit) (serialized : bytes) : TrustedCommit :=
  mk_trusted c (hash_function serialized) serialized.

(** [commit.serialize()]; [None] is an error. *)
Class CommitBcs := { bcs_commit : Commit → option bytes }.

(** [bcs::from_bytes] at the two types that are received or stored; [None] is a
    [bcs::Error]. *)
Class BcsDecode := {
  decode_commit : bytes → option Commit;
  decode_signed_block : bytes → option SignedBlock;
}.

Record CertifiedCommit := new_certified {
  certified_commit : TrustedCommit;
  certified_blocks : list VerifiedBlock;
}.
Coercion certified_commit : CertifiedCommit >-> TrustedCommit.

Record CertifiedCommits := mk_certified_commits {
  certified_commits : list CertifiedCommit;
  certified_votes : list VerifiedBlock;
}.

Record CommittedSubDag := mk_sub_dag {
  sub_dag_leader : BlockRef;
  sub_dag_blocks : list VerifiedBlock;
  sub_dag_timestamp_ms : BlockTimestampMs;
  sub_dag_commit_ref : CommitRef;
  sub_dag_reputation_scores_desc : list (AuthorityIndex * N);
}.

(** [a.round().cmp(&b.round()).then_with(|| a.author().cmp(&b.author()))]. *)
Definition sub_dag_le (a b : VerifiedBlock) : bool :=
  (round a <? round b) || ((round a =? round b) && (author a <=? author b)).

Definition sort_sub_dag_blocks (bs : list VerifiedBlock) : list VerifiedBlock :=
  stable_sort sub_dag_le bs.

Inductive LeaderDecision := Direct | Indirect | Certified.

Inductive LeaderStatus :=
| LsCommit (b : VerifiedBlock)
| LsSkip (s : Slot)
| LsUndecided (s : Slot).

Inductive DecidedLeader :=
| DlCommit (b : VerifiedBlock)
| DlSkip (s : Slot).

#[export] Instance LeaderStatus_eq_dec : EqDecision LeaderStatus.
Proof. solve_decision. Defined.
#[export] Instance DecidedLeader_eq_dec : EqDecision DecidedLeader.
Proof. solve_decision. Defined.

Definition status_round (s : LeaderStatus) : Round :=
  match s with
  | LsCommit b => round b
  | LsSkip s | LsUndecided s => slot_round s
  end.

Definition is_decided (s : LeaderStatus) : bool :=
  match s with LsCommit _ | LsSkip _ => true | LsUndecided _ => false end.

Definition into_decided_leader (s : LeaderStatus) : option DecidedLeader :=
  match s with
  | LsCommit b => Some (DlCommit b)
  | LsSkip s => Some (DlSkip s)
  | LsUndecided _ => None
  end.

Definition decided_slot (d : DecidedLeader) : Slot :=
  match d with DlCommit b => ref_slot (reference b) | DlSkip s => s end.

Definition into_committed_block (d : DecidedLeader) : option VerifiedBlock :=
  match d with DlCommit b => Some b | DlSkip _ => None end.

(** ** Commit ranges

    Kept half-open as in the code, with an inclusive reading. *)
Record CommitRange := mk_range { range_lo : CommitIndex; range_hi : CommitIndex }.

#[export] Instance CommitRange_eq_dec : EqDecision CommitRange.
Proof. solve_decision. Defined.

Definition CommitRange_default : CommitRange := mk_range 0 0.

(** [CommitRange::new(lo..=hi)]. *)
Definition CommitRange_new (lo hi : CommitIndex) : CommitRange := mk_range lo (sat_add32 hi 1).
Definition range_start (r : CommitRange) : CommitIndex := range_lo r.
Definition range_end (r : CommitRange) : CommitIndex := range_hi r - 1.

Definition extend_to (r : CommitRange) (other : CommitIndex) : outcome CommitRange :=
  let new_end := sat_add32 other 1 in
  _ ← assert (range_hi r <=? new_end) "assertion failed: self.0.end <= new_end";
  Ret (mk_range (range_lo r) new_end).

Definition range_size (r : CommitRange) : outcome N :=
  if range_lo r <=? range_hi r then Ret (range_hi r - range_lo r)
  else Panic "Range should never have end < start".

Definition is_equal_size (r other : CommitRange) : outcome bool :=
  s ← range_size r; s' ← range_size other; Ret (s =? s').

Definition is_next_range (r other : CommitRange) : bool := range_hi r =? range_lo other.

Definition in_range (r : CommitRange) (i : CommitIndex) : Prop := range_start r <= i <= range_end r.

Record ReputationScores := mk_scores {
  scores_per_authority : list N;
  scores_commit_range : CommitRange;
}.

Record CommitInfo := mk_commit_info {
  committed_rounds : list Round;
  reputation_scores : ReputationScores;
}.

(** ** Sorting a sub-dag *)

Lemma sub_dag_le_total a b : sub_dag_le a b ∨ sub_dag_le b a.
Proof.
  unfold sub_dag_le. rewrite !Is_true_true, !orb_true_iff, !andb_true_iff, !N.ltb_lt, !N.eqb_eq, !N.leb_le.
  lia.
Qed.

Lemma sub_dag_le_trans a b d : sub_dag_le a b → sub_dag_le b d → sub_dag_le a d.
Proof.
  unfold sub_dag_le. rewrite !Is_true_true, !orb_true_iff, !andb_true_iff, !N.ltb_lt, !N.eqb_eq, !N.leb_le.
  lia.
Qed.

Lemma sub_dag_le_round a b : sub_dag_le a b → round a <= round b.
Proof.
  unfold sub_dag_le. rewrite !Is_true_true, !orb_true_iff, !andb_true_iff, !N.ltb_lt, !N.eqb_eq. lia.
Qed.

Lemma sort_sub_dag_blocks_Permutation bs : sort_sub_dag_blocks bs ≡ₚ bs.
Proof. apply stable_sort_Permutation. Qed.

Lemma sort_sub_dag_blocks_sorted bs : StronglySorted (λ a b, sub_dag_le a b) (sort_sub_dag_blocks bs).
Proof. apply stable_sort_sorted; [apply sub_dag_le_total|apply sub_dag_le_trans]. Qed.

(** Two sub-dags that hold the same blocks, at most one per slot, are put in the
    same order: the order of traversal leaves no trace. *)
Lemma sort_sub_dag_blocks_unique bs bs' :
  (∀ a b : VerifiedBlock, a ∈ bs → b ∈ bs → slot a = slot b → a = b) →
  bs ≡ₚ bs' → sort_sub_dag_blocks bs = sort_sub_dag_blocks bs'.
Proof.
  intros Huniq Hperm. eapply (StronglySorted_unique_strong (λ a b, sub_dag_le a b)).
  - intros a b Ha Hb. unfold sort_sub_dag_blocks in *. rewrite elem_of_stable_sort in *.
    rewrite <-Hperm in Hb. unfold sub_dag_le.
    rewrite !Is_true_true, !orb_true_iff, !andb_true_iff, !N.ltb_lt, !N.eqb_eq, !N.leb_le.
    intros Hab Hba. apply Huniq; [done..|]. unfold slot. f_equal; lia.
  - apply sort_sub_dag_blocks_sorted.
  - apply sort_sub_dag_blocks_sorted.
  - by rewrite !sort_sub_dag_blocks_Permutation.
Qed.

(** ** Laws of commit ranges *)

Lemma in_range_new lo hi i : hi < U32_MAX → in_range (CommitRange_new lo hi) i ↔ lo <= i <= hi.
Proof. unfold in_range, CommitRange_new, range_start, range_end, sat_add32. simpl. lia. Qed.

(** Commit ranges.  A range built from an inclusive pair below the [u32]
    bound holds exactly the indices between its ends; extending it to an index
    at or past its end keeps the start and makes that index its last one, so the
    next range that [is_next_range] accepts starts right after it and the two
    share no index; a range of [n] commits has size [n]. *)
Theorem commit_range_laws (lo hi other : CommitIndex) (next : CommitRange) :
  lo <= hi → hi <= other → other < U32_MAX →
  range_start (CommitRange_new lo hi) = lo ∧ range_end (CommitRange_new lo hi) = hi ∧
  range_size (CommitRange_new lo hi) = Ret (hi - lo + 1) ∧
  extend_to (CommitRange_new lo hi) other = Ret (CommitRange_new lo other) ∧
  (is_next_range (CommitRange_new lo other) next →
    range_start next = other + 1 ∧
    ∀ i, in_range (CommitRange_new lo other) i → ¬ in_range next i).
Proof.
  intros H1 H2 H3. unfold extend_to, range_size, is_next_range, CommitRange_new, sat_add32, range_start, range_end.
  simpl. replace (N.min (hi + 1) U32_MAX) with (hi + 1) by lia.
  replace (N.min (other + 1) U32_MAX) with (other + 1) by lia.
  split_and!; try lia.
  - rewrite (proj2 (N.leb_le _ _)) by lia. f_equal. lia.
  - rewrite (proj2 (N.leb_le _ _)) by lia. done.
  - rewrite Is_true_true, N.eqb_eq. intros Hnext. split; [done|]. unfold in_range, range_start, range_end.
    simpl. intros i. lia.
Qed.

Lemma commit_range_laws_witness :
  range_size (CommitRange_new 1 300) = Ret 300 ∧ extend_to (CommitRange_new 1 300) 301 = Ret (CommitRange_new 1 301).
Proof.
  destruct (commit_range_laws 1 300 301 (CommitRange_new 302 602)) as (_ & _ & Hs & He & _); try lia;
    [done|]. by split.
Defined.
