(* ===== verification/Error.v ===== *)
(** * ConsensusError

    Models [consensus/core/src/error.rs].  Errors of third-party libraries that
    the code only wraps (bcs, fastcrypto, the typed store) carry no payload. *)
From S2P Require Import Prelude Committee Block Commit.

Inductive ConsensusError :=
| MalformedBlock
| MalformedCommit
| SerializationFailure
| TransactionTooLarge (size limit : N)
| TooManyTransactions (count limit : N)
| TooManyTransactionBytes (size limit : N)
| UnexpectedAuthority (a b : AuthorityIndex)
| WrongEpoch (expected actual : Epoch)
| UnexpectedGenesisBlock
| UnexpectedGenesisBlockRequested
| UnexpectedNumberOfBlocksFetched (authority : AuthorityIndex) (requested received : N)
| UnexpectedFetchedBlock (index : AuthorityIndex) (block_ref : BlockRef)
| UnexpectedLastOwnBlock (index : AuthorityIndex) (block_ref : BlockRef)
| TooManyFetchedBlocksReturned (a : AuthorityIndex)
| TooManyFetchBlocksRequested (a : AuthorityIndex)
| TooManyAuthoritiesProvided (a : AuthorityIndex)
| InvalidSizeOfHighestAcceptedRounds (provided expected : N)
| InvalidAuthorityIndex (index : AuthorityIndex) (max : N)
| InvalidAncestorAuthorityIndex (block_authority ancestor_index : AuthorityIndex) (max : N)
| MalformedSignature
| SignatureVerificationFailure
| SynchronizerSaturated (a : AuthorityIndex) (peer : string)
| BlockRejected (block_ref : BlockRef) (reason : string)
| InvalidAncestorPosition (block_authority ancestor_authority : AuthorityIndex) (position : N)
| InvalidAncestorRound (ancestor block : Round)
| InvalidGenesisAncestor (r : BlockRef)
| TooManyAncestors (count limit : N)
| DuplicatedAncestorsAuthority (a : AuthorityIndex)
| InsufficientParentStakes (parent_stakes quorum : Stake)
| InvalidTransaction (why : string)
| InvalidBlockTimestamp (max_timestamp_ms block_timestamp_ms : N)
| NoCommitReceived (peer : AuthorityIndex)
| UnexpectedStartCommit (peer : AuthorityIndex) (start : CommitIndex) (commit : Commit)
| UnexpectedCommitSequence (peer : AuthorityIndex) (prev_commit curr_commit : Commit)
| NotEnoughCommitVotes (stake : Stake) (peer : AuthorityIndex) (commit : Commit)
| UnexpectedBlockForCommit (peer : AuthorityIndex) (requested received : BlockRef)
| UnexpectedCertifiedCommitIndex (expected_commit_index commit_index : CommitIndex)
| RocksDBFailure
| NetworkConfig (why : string)
| NetworkClientConnection (why : string)
| NetworkRequest (why : string)
| NetworkRequestTimeout (why : string)
| Shutdown.

#[export] Instance CommitV1_eq_dec : EqDecision CommitV1.
Proof. solve_decision. Defined.
#[export] Instance Commit_eq_dec : EqDecision Commit.
Proof. solve_decision. Defined.
#[export] Instance TrustedCommit_eq_dec : EqDecision TrustedCommit.
Proof. solve_decision. Defined.
#[export] Instance ConsensusError_eq_dec : EqDecision ConsensusError.
Proof. solve_decision. Defined.

Abbreviation ConsensusResult A := (result A ConsensusError) (only parsing).

(** [?] on a [Result] inside a function that may also panic. *)
Definition try {A B} (r : ConsensusResult A) (k : A → outcome (ConsensusResult B))
    : outcome (ConsensusResult B) :=
  match r with Ok a => k a | Err e => Ret (Err e) end.
