(* ===== verification/BlockVerifier.v ===== *)
(** * BlockVerifier: what a received block must satisfy

    Models [consensus/core/src/block_verifier.rs] and the signature check of
    [block.rs].  The application's transaction verifier (the trait
    [TransactionVerifier], implemented outside consensus) is the argument
    [verify_batch].  The specification [valid_block] is declarative; the theorem
    says that [verify] accepts exactly the blocks that satisfy it. *)
From S2P Require Import Prelude Committee Block StakeAggregator Commit Error.
Local Open Scope N_scope.
Local Open Scope rust_scope.

Section signature.
Context `{Crypto}.

Definition compute_inner_block_digest (b : Block) : ConsensusResult BlockDigest :=
  match bcs_block b with
  | Some ser => Ok (hash_function ser)
  | None => Err SerializationFailure
  end.

Definition verify_block_signature (b : Block) (sig protocol_pubkey : bytes) : ConsensusResult unit :=
  match compute_inner_block_digest b with
  | Err e => Err e
  | Ok d =>
    match bcs_block_intent d with
    | None => Err SerializationFailure
    | Some message =>
      match decode_signature sig with
      | None => Err MalformedSignature
      | Some sig =>
        if verify_protocol_signature protocol_pubkey message sig then Ok tt
        else Err SignatureVerificationFailure
      end
    end
  end.

(** [SignedBlock::verify_signature]. *)
Definition verify_signature (ctx : Context) (b : SignedBlock) : outcome (ConsensusResult unit) :=
  let c := committee ctx in
  if is_valid_index c (author b) then
    a ← authority c (author b);
    Ret (verify_block_signature b (signature b) (protocol_key a))
  else Ret (Err (InvalidAuthorityIndex (author b) (committee_size c - 1))).
End signature.

Definition find_too_large (limit : N) (batch : list bytes) : option N :=
  match filter (λ t, (limit <? N.of_nat (length t)) && (0 <? limit)) batch with
  | [] => None
  | t :: _ => Some (N.of_nat (length t))
  end.

Definition check_transactions (ctx : Context) (batch : list bytes) : ConsensusResult unit :=
  let cfg := protocol_config ctx in
  match find_too_large (max_transaction_size_bytes cfg) batch with
  | Some size => Err (TransactionTooLarge size (max_transaction_size_bytes cfg))
  | None =>
    let count := N.of_nat (length batch) in
    let max_num := max_num_transactions_in_block cfg in
    if (max_num <? count) && (0 <? max_num) then Err (TooManyTransactions count max_num)
    else
      let total := wrap64 (sumN ((λ t : bytes, N.of_nat (length t)) <$> batch)) in
      let max_total := max_transactions_in_block_bytes cfg in
      if (max_total <? total) && (0 <? max_total)
      then Err (TooManyTransactionBytes count max_total)
      else Ok tt
  end.

(** The loop of [verify] over [block.ancestors().iter().enumerate()], from
    position [i]; it returns the accumulated parent stake. *)
Fixpoint verify_ancestors (c : Committee) (genesis : gset BlockRef) (b : Block) (i : N)
    (ancs : list BlockRef) (seen_ancestors : list bool) (parent_stakes : Stake)
    : outcome (ConsensusResult Stake) :=
  match ancs with
  | [] => Ret (Ok parent_stakes)
  | a :: ancs =>
    if negb (is_valid_index c (ref_author a))
    then Ret (Err (InvalidAncestorAuthorityIndex (author b) (ref_author a) (committee_size c - 1)))
    else if ((i =? 0) && negb (ref_author a =? author b)) || ((0 <? i) && (ref_author a =? author b))
    then Ret (Err (InvalidAncestorPosition (author b) (ref_author a) i))
    else if round b <=? ref_round a
    then Ret (Err (InvalidAncestorRound (ref_round a) (round b)))
    else if (ref_round a =? GENESIS_ROUND) && negb (bool_decide (a ∈ genesis))
    then Ret (Err (InvalidGenesisAncestor a))
    else
      seen ← vec_index seen_ancestors (ref_author a);
      if seen : bool then Ret (Err (DuplicatedAncestorsAuthority (ref_author a)))
      else
        seen_ancestors' ← vec_set seen_ancestors (ref_author a) true;
        parent_round ← expect (if 1 <=? round b then Some (round b - 1) else None) "checked_sub";
        parent_stakes' ← (if ref_round a =? parent_round
                          then s ← committee_stake c (ref_author a); Ret (parent_stakes +64 s)
                          else Ret parent_stakes);
        verify_ancestors c genesis b (i + 1) ancs seen_ancestors' parent_stakes'
  end.

Section verifier.
Context `{Crypto} (verify_batch : list bytes → result unit string).

Record SignedBlockVerifier := mk_verifier {
  verifier_context : Context;
  verifier_genesis : gset BlockRef;
}.

Definition SignedBlockVerifier_new (ctx : Context) : outcome SignedBlockVerifier :=
  gs ← genesis_blocks ctx; Ret (mk_verifier ctx (list_to_set (reference <$> gs))).

Definition verify (v : SignedBlockVerifier) (b : SignedBlock) : outcome (ConsensusResult unit) :=
  let ctx := verifier_context v in
  let c := committee ctx in
  if negb (epoch b =? committee_epoch c) then Ret (Err (WrongEpoch (committee_epoch c) (epoch b)))
  else if round b =? 0 then Ret (Err UnexpectedGenesisBlock)
  else if negb (is_valid_index c (author b))
  then Ret (Err (InvalidAuthorityIndex (author b) (committee_size c - 1)))
  else
    sig ← verify_signature ctx b;
    try sig (λ _,
      let n := N.of_nat (length (ancestors b)) in
      if committee_size c <? n then Ret (Err (TooManyAncestors n (committee_size c)))
      else if n =? 0 then Ret (Err (InsufficientParentStakes 0 (quorum_threshold c)))
      else
        r ← verify_ancestors c (verifier_genesis v) b 0 (ancestors b)
              (replicate (N.to_nat (committee_size c)) false) 0;
        try r (λ parent_stakes,
          if negb (reached_quorum c parent_stakes)
          then Ret (Err (InsufficientParentStakes parent_stakes (quorum_threshold c)))
          else
            let batch := data <$> transactions b in
            try (check_transactions ctx batch) (λ _,
              match verify_batch batch with
              | Ok _ => Ret (Ok tt)
              | Err e => Ret (Err (InvalidTransaction e))
              end))).

(** [check_ancestors], the timestamp check against the ancestor blocks. *)
Fixpoint check_ancestors_gc (b : VerifiedBlock) (gc_round : Round)
    (ancs : list (option VerifiedBlock)) (max_timestamp_ms : N) : ConsensusResult unit :=
  match ancs with
  | [] => Ok tt
  | None :: ancs => check_ancestors_gc b gc_round ancs max_timestamp_ms
  | Some a :: ancs =>
    if round a <=? gc_round then check_ancestors_gc b gc_round ancs max_timestamp_ms
    else
      let m := N.max max_timestamp_ms (timestamp_ms a) in
      if timestamp_ms b <? m then Err (InvalidBlockTimestamp m (timestamp_ms b))
      else check_ancestors_gc b gc_round ancs m
  end.

Definition check_ancestors (b : VerifiedBlock) (ancs : list (option VerifiedBlock))
    (gc_enabled : bool) (gc_round : Round) : outcome (ConsensusResult unit) :=
  if gc_enabled then Ret (check_ancestors_gc b gc_round ancs 0)
  else
    _ ← assert (bool_decide (length (ancestors b) = length ancs)) "assertion failed: lengths";
    m ← foldM (λ m '((r, o) : BlockRef * option VerifiedBlock),
          match o with
          | None => Panic "There should never be an empty slot"
          | Some a =>
            _ ← assert (bool_decide (r = reference a)) "assertion failed: reference";
            Ret (N.max m (timestamp_ms a))
          end) 0 (zip (ancestors b) ancs);
    Ret (if timestamp_ms b <? m then Err (InvalidBlockTimestamp m (timestamp_ms b)) else Ok tt).
End verifier.

(** ** The specification *)

(** The authors among [rs] whose block has round [r]. *)
Definition ref_authors_at (r : Round) (rs : list BlockRef) : gset AuthorityIndex :=
  list_to_set (ref_author <$> filter (λ a, ref_round a = r) rs).

Record valid_ancestors (c : Committee) (genesis : gset BlockRef) (b : Block) : Prop := {
  va_nonempty : ancestors b ≠ [];
  va_length : N.of_nat (length (ancestors b)) <= committee_size c;
  va_index a : a ∈ ancestors b → is_valid_index c (ref_author a);
  va_own a : head (ancestors b) = Some a → ref_author a = author b;
  va_nodup : NoDup (ref_author <$> ancestors b);
  va_round a : a ∈ ancestors b → ref_round a < round b;
  va_genesis a : a ∈ ancestors b → ref_round a = GENESIS_ROUND → a ∈ genesis;
  va_quorum : reached_quorum c (set_stake c (ref_authors_at (round b - 1) (ancestors b)));
}.

Definition valid_transactions (ctx : Context) (batch : list bytes) : Prop :=
  let cfg := protocol_config ctx in
  (0 < max_transaction_size_bytes cfg →
    ∀ t, t ∈ batch → N.of_nat (length t) <= max_transaction_size_bytes cfg) ∧
  (0 < max_num_transactions_in_block cfg → N.of_nat (length batch) <= max_num_transactions_in_block cfg) ∧
  (0 < max_transactions_in_block_bytes cfg →
    wrap64 (sumN ((λ t : bytes, N.of_nat (length t)) <$> batch)) <= max_transactions_in_block_bytes cfg).

Record valid_block `{Crypto} (verify_batch : list bytes → result unit string)
    (v : SignedBlockVerifier) (b : SignedBlock) : Prop := {
  vb_epoch : epoch b = committee_epoch (committee (verifier_context v));
  vb_round : 0 < round b;
  vb_author : is_valid_index (committee (verifier_context v)) (author b);
  vb_signature : verify_signature (verifier_context v) b = Ret (Ok tt);
  vb_ancestors : valid_ancestors (committee (verifier_context v)) (verifier_genesis v) b;
  vb_transactions : valid_transactions (verifier_context v) (data <$> transactions b);
  vb_batch : verify_batch (data <$> transactions b) = Ok tt;
}.

(** ** Correctness of the ancestor loop *)

(** The bitmap of the authors met so far. *)
Definition seen_ok (c : Committee) (seen : list bool) (done : list BlockRef) : Prop :=
  length seen = N.to_nat (committee_size c) ∧
  ∀ i, is_valid_index c i → seen !! N.to_nat i = Some (bool_decide (i ∈ ref_author <$> done)).

Lemma seen_ok_nil c : seen_ok c (replicate (N.to_nat (committee_size c)) false) [].
Proof.
  split; [by rewrite length_replicate|]. intros i Hi. unfold is_valid_index in Hi.
  apply lookup_replicate. split; [|apply Is_true_true, N.ltb_lt in Hi; lia].
  apply bool_decide_eq_false_2. set_solver.
Qed.

Lemma seen_ok_snoc c seen done a :
  seen_ok c seen done → is_valid_index c (ref_author a) →
  (N.to_nat (ref_author a) < length seen)%nat ∧
  seen_ok c (<[N.to_nat (ref_author a) := true]> seen) (done ++ [a]).
Proof.
  intros [Hlen Hseen] Ha. pose proof Ha as Ha'. unfold is_valid_index in Ha'.
  apply Is_true_true, N.ltb_lt in Ha'. split; [lia|]. split; [by rewrite length_insert|].
  intros i Hi. rewrite fmap_app, list_lookup_insert. case_decide as Hd.
  - f_equal. symmetry. apply bool_decide_eq_true_2. assert (i = ref_author a) as -> by lia. set_solver.
  - rewrite Hseen by done. f_equal. apply bool_decide_ext. rewrite elem_of_app. csimpl.
    rewrite list_elem_of_singleton. split; [tauto|]. intros [?| ->]; [done|]. destruct Hd. split; [done|lia].
Qed.

(** What the loop demands of one ancestor at position [i]. *)
Definition ancestor_ok (c : Committee) (genesis : gset BlockRef) (b : Block) (i : N) (a : BlockRef) : Prop :=
  is_valid_index c (ref_author a) ∧ (i = 0 ↔ ref_author a = author b) ∧
  ref_round a < round b ∧ (ref_round a = GENESIS_ROUND → a ∈ genesis).

Fixpoint ancestors_ok (c : Committee) (genesis : gset BlockRef) (b : Block) (i : N) (ancs : list BlockRef) : Prop :=
  match ancs with
  | [] => True
  | a :: ancs => ancestor_ok c genesis b i a ∧ ancestors_ok c genesis b (i + 1) ancs
  end.

Lemma ref_authors_at_snoc r rs a :
  ref_authors_at r (rs ++ [a]) =
    if decide (ref_round a = r) then {[ref_author a]} ∪ ref_authors_at r rs else ref_authors_at r rs.
Proof.
  unfold ref_authors_at. rewrite filter_app, fmap_app, list_to_set_app_L, filter_cons, filter_nil.
  case_decide; set_solver.
Qed.

Lemma elem_of_ref_authors_at r rs i :
  i ∈ ref_authors_at r rs ↔ ∃ a, a ∈ rs ∧ ref_round a = r ∧ ref_author a = i.
Proof.
  unfold ref_authors_at. rewrite elem_of_list_to_set, list_elem_of_fmap.
  setoid_rewrite list_elem_of_filter. naive_solver.
Qed.

Lemma ref_authors_at_valid c r rs :
  (∀ a, a ∈ rs → is_valid_index c (ref_author a)) → ref_authors_at r rs ⊆ all_indices c.
Proof.
  intros Hrs i. rewrite elem_of_ref_authors_at, elem_of_all_indices. intros (a & ? & _ & <-). by apply Hrs.
Qed.

(** Adding a new author's stake cannot overflow. *)
Lemma parent_stakes_step c r rs a :
  committee_ok c → (∀ a, a ∈ rs → is_valid_index c (ref_author a)) → is_valid_index c (ref_author a) →
  ref_author a ∉ ref_author <$> rs → ref_round a = r →
  set_stake c (ref_authors_at r rs) +64 stake_at c (ref_author a) =
  set_stake c (ref_authors_at r (rs ++ [a])).
Proof.
  intros Hc Hrs Ha Hnew Hr. rewrite ref_authors_at_snoc, decide_True by done.
  assert (ref_author a ∉ ref_authors_at r rs) as Hni.
  { rewrite elem_of_ref_authors_at. intros (a' & ? & _ & Heq). apply Hnew. rewrite <-Heq. by apply list_elem_of_fmap_2. }
  rewrite set_stake_insert, N.add_comm by done. apply wrap64_small.
  rewrite <-set_stake_insert by done.
  assert ({[ref_author a]} ∪ ref_authors_at r rs ⊆ all_indices c) as Hsub.
  { pose proof (ref_authors_at_valid c r rs Hrs). apply elem_of_all_indices in Ha. set_solver. }
  pose proof (set_stake_le_total c Hc _ Hsub). destruct (committee_ok_fields c Hc) as (_ & _ & _ & ? & _). lia.
Qed.

#[export] Instance ancestor_ok_dec c genesis b i a : Decision (ancestor_ok c genesis b i a).
Proof. unfold ancestor_ok. apply _. Defined.

(** The per-ancestor tests that need no state amount to [ancestor_ok]. *)
Lemma verify_ancestors_cons c genesis b i a todo seen ps : ∃ e,
  verify_ancestors c genesis b i (a :: todo) seen ps =
  if decide (ancestor_ok c genesis b i a) then
    s ← vec_index seen (ref_author a);
    if s : bool then Ret (Err (DuplicatedAncestorsAuthority (ref_author a)))
    else
      seen' ← vec_set seen (ref_author a) true;
      parent_round ← expect (if 1 <=? round b then Some (round b - 1) else None) "checked_sub";
      ps' ← (if ref_round a =? parent_round
             then st ← committee_stake c (ref_author a); Ret (ps +64 st) else Ret ps);
      verify_ancestors c genesis b (i + 1) todo seen' ps'
  else Ret (Err e).
Proof.
  cbn [verify_ancestors]. destruct (decide (ancestor_ok c genesis b i a)) as [Hok|Hn].
  - exists UnexpectedGenesisBlock. destruct Hok as (Hi & Hpos & Hr & Hg).
    rewrite (Is_true_true_1 _ Hi), (proj2 (N.leb_gt _ _) Hr). simpl.
    destruct (N.eqb_spec (ref_author a) (author b)), (N.eqb_spec i 0), (N.ltb_spec 0 i); try lia; simpl;
      (destruct (N.eqb_spec (ref_round a) GENESIS_ROUND); [rewrite bool_decide_eq_true_2 by auto|]; done).
  - revert Hn. unfold ancestor_ok.
    destruct (is_valid_index c (ref_author a)); simpl; [|by eexists].
    destruct (N.eqb_spec (ref_author a) (author b)), (N.eqb_spec i 0), (N.ltb_spec 0 i); try lia; simpl;
      try (by eexists);
      (destruct (N.leb_spec (round b) (ref_round a)); [by eexists|]);
      (destruct (N.eqb_spec (ref_round a) GENESIS_ROUND); [case_bool_decide; [|by eexists]|]);
      intros Hn; destruct Hn; tauto.
Qed.

Lemma verify_ancestors_spec c genesis b todo : committee_ok c → 0 < round b → ∀ done seen,
  seen_ok c seen done → (∀ a, a ∈ done → is_valid_index c (ref_author a)) →
  NoDup (ref_author <$> done) →
  ∃ r, verify_ancestors c genesis b (N.of_nat (length done)) todo seen
         (set_stake c (ref_authors_at (round b - 1) done)) = Ret r ∧
  ∀ s, r = Ok s ↔
    ancestors_ok c genesis b (N.of_nat (length done)) todo ∧ NoDup (ref_author <$> done ++ todo) ∧
    s = set_stake c (ref_authors_at (round b - 1) (done ++ todo)).
Proof.
  intros Hc Hround. induction todo as [|a todo IH]; intros done seen Hseen Hdone Hnd.
  { eexists; split; [done|]. intros s. rewrite app_nil_r. simpl. naive_solver. }
  destruct (verify_ancestors_cons c genesis b (N.of_nat (length done)) a todo seen
    (set_stake c (ref_authors_at (round b - 1) done))) as [e ->].
  case_decide as Hok; [|by eexists; split; [done|]; intros s; split; [|intros ([??] & _)]].
  destruct Hok as (Hi & Hpos & Hr & Hg). pose proof (proj2 Hseen _ Hi) as Hlook.
  unfold vec_index. rewrite Hlook. simpl. case_bool_decide as Hdup.
  { eexists; split; [done|]. intros s. split; [done|]. intros (_ & Hnd' & _). exfalso.
    rewrite fmap_app, fmap_cons in Hnd'. apply NoDup_app in Hnd' as (_ & Hnd' & _).
    apply (Hnd' _ Hdup). left. }
  destruct (seen_ok_snoc c seen done a Hseen Hi) as [Hlt Hseen'].
  unfold vec_set. rewrite decide_True by done. simpl.
  rewrite (proj2 (N.leb_le 1 (round b))) by lia. simpl.
  destruct (IH (done ++ [a]) _ Hseen') as (r & Hr' & Hiff).
  { intros a'. rewrite elem_of_app, list_elem_of_singleton. naive_solver. }
  { rewrite fmap_app. apply NoDup_app. split_and!; [done| |apply NoDup_singleton]. csimpl. set_solver. }
  exists r. rewrite length_app, <-app_assoc in *. simpl in *. split.
  - replace (N.of_nat (length done) + 1) with (N.of_nat (length done + 1)) by lia. rewrite <-Hr'.
    rewrite ref_authors_at_snoc. destruct (N.eqb_spec (ref_round a) (round b - 1)) as [Hpr|Hpr].
    + rewrite committee_stake_ret by done. simpl.
      rewrite (parent_stakes_step c (round b - 1)) by done. by rewrite ref_authors_at_snoc.
    + simpl. by rewrite decide_False by done.
  - intros s. rewrite Hiff. replace (N.of_nat (length done) + 1) with (N.of_nat (length done + 1)) by lia.
    unfold ancestor_ok. tauto.
Qed.

Lemma ancestors_ok_lookup c genesis b ancs : ∀ i,
  ancestors_ok c genesis b i ancs ↔
  ∀ k a, ancs !! k = Some a → ancestor_ok c genesis b (i + N.of_nat k) a.
Proof.
  induction ancs as [|a ancs IH]; intros i; simpl; [naive_solver|]. rewrite IH. split.
  - intros [Ha Hrest] [|k] a' Hk; simplify_eq/=; [by rewrite N.add_0_r|].
    replace (i + N.of_nat (S k)) with (i + 1 + N.of_nat k) by lia. by apply Hrest.
  - intros Hall. split; [rewrite <-(N.add_0_r i); by apply (Hall 0%nat)|].
    intros k a' Hk. replace (i + 1 + N.of_nat k) with (i + N.of_nat (S k)) by lia. by apply Hall.
Qed.

Lemma valid_ancestors_iff c genesis b :
  valid_ancestors c genesis b ↔
  ancestors b ≠ [] ∧ N.of_nat (length (ancestors b)) <= committee_size c ∧
  ancestors_ok c genesis b 0 (ancestors b) ∧ NoDup (ref_author <$> ancestors b) ∧
  reached_quorum c (set_stake c (ref_authors_at (round b - 1) (ancestors b))).
Proof.
  split.
  - intros [Hne Hlen Hidx Hown Hnd Hr Hg Hq]. split_and!; try done.
    apply ancestors_ok_lookup. intros k a Hk. pose proof (list_elem_of_lookup_2 _ _ _ Hk) as Hin.
    split_and!; [by apply Hidx| |by apply Hr|by apply Hg].
    destruct (ancestors b) as [|a0 ancs] eqn:Ha; [done|]. destruct k as [|k]; simplify_eq/=.
    + split; [auto|done].
    + split; [lia|]. intros Heq. exfalso. rewrite <-(Hown a0 eq_refl) in Heq.
      apply NoDup_cons in Hnd as [Hnd _]. apply Hnd. rewrite <-Heq.
      apply list_elem_of_fmap_2. by eapply list_elem_of_lookup_2.
  - intros (Hne & Hlen & Hok & Hnd & Hq). rewrite ancestors_ok_lookup in Hok.
    assert (∀ a, a ∈ ancestors b → ∃ i, ancestor_ok c genesis b i a) as Hall.
    { intros a [k Hk]%list_elem_of_lookup_1. eauto. }
    split; try done; try (intros a Ha; by destruct (Hall a Ha) as (i & ? & ? & ? & ?)).
    intros a Ha. destruct (Hok 0%nat a) as (_ & Hpos & _); [by destruct (ancestors b)|]. by apply Hpos.
Qed.

Lemma find_too_large_None limit batch :
  find_too_large limit batch = None ↔ (0 < limit → ∀ t, t ∈ batch → N.of_nat (length t) <= limit).
Proof.
  unfold find_too_large. destruct (filter _ batch) as [|t l] eqn:Hf.
  - split; [|done]. intros _ Hlim t Ht. destruct (decide (N.of_nat (length t) <= limit)) as [|Hn]; [done|].
    exfalso. apply (not_elem_of_nil t). rewrite <-Hf. apply list_elem_of_filter. split; [|done].
    apply andb_prop_intro. split; apply Is_true_true, N.ltb_lt; lia.
  - split; [done|]. intros Hall. exfalso. assert (t ∈ filter (λ t, (limit <? N.of_nat (length t)) && (0 <? limit)) batch)
      as Ht by (rewrite Hf; left).
    apply list_elem_of_filter in Ht as [Hlim Ht]. apply andb_prop_elim in Hlim as [H1 H2].
    apply Is_true_true, N.ltb_lt in H1, H2. specialize (Hall H2 t Ht). lia.
Qed.

Lemma limit_test (limit n : N) :
  (limit <? n) && (0 <? limit) = false ↔ (0 < limit → n <= limit).
Proof. rewrite andb_false_iff, !N.ltb_ge. lia. Qed.

Lemma check_transactions_ok ctx batch :
  check_transactions ctx batch = Ok tt ↔ valid_transactions ctx batch.
Proof.
  unfold check_transactions, valid_transactions. rewrite <-find_too_large_None.
  destruct (find_too_large _ batch); [naive_solver|].
  rewrite <-!limit_test. destruct (_ && (0 <? max_num_transactions_in_block _)); [naive_solver|].
  destruct (_ && _); naive_solver.
Qed.

Lemma verify_signature_ret `{Crypto} ctx (b : SignedBlock) :
  is_valid_index (committee ctx) (author b) → ∃ r, verify_signature ctx b = Ret r.
Proof.
  intros Hi. unfold verify_signature. rewrite (Is_true_true_1 _ Hi).
  destruct (authority_ret _ _ Hi) as [a ->]. by eexists.
Qed.

(** The checks that follow the signature check, as [verify] orders them. *)
Lemma valid_block_checks `{Crypto} verify_batch v (b : SignedBlock) :
  let c := committee (verifier_context v) in
  epoch b = committee_epoch c → round b ≠ 0 → is_valid_index c (author b) = true →
  verify_signature (verifier_context v) b = Ret (Ok tt) →
  valid_block verify_batch v b ↔
  ancestors b ≠ [] ∧ N.of_nat (length (ancestors b)) <= committee_size c ∧
  (∃ s, (ancestors_ok c (verifier_genesis v) b 0 (ancestors b) ∧ NoDup (ref_author <$> ancestors b) ∧
         s = set_stake c (ref_authors_at (round b - 1) (ancestors b))) ∧ reached_quorum c s) ∧
  check_transactions (verifier_context v) (data <$> transactions b) = Ok tt ∧
  verify_batch (data <$> transactions b) = Ok tt.
Proof.
  intros c He Hr Ha Hsig. rewrite check_transactions_ok. split.
  - intros [_ _ _ _ Hvb]. apply valid_ancestors_iff in Hvb. naive_solver.
  - intros (? & ? & (s & (? & ? & ->) & ?) & ? & ?). split; try done; [lia|fold c; by rewrite Ha|].
    by apply valid_ancestors_iff.
Qed.

(** [verify] always returns, and returns [Ok] exactly on the valid blocks. *)
Lemma verify_spec `{Crypto} (verify_batch : list bytes → result unit string)
    (v : SignedBlockVerifier) (b : SignedBlock) :
  committee_ok (committee (verifier_context v)) →
  ∃ r, verify verify_batch v b = Ret r ∧ (r = Ok tt ↔ valid_block verify_batch v b).
Proof.
  intros Hc. set (c := committee (verifier_context v)) in *. unfold verify. fold c.
  destruct (N.eqb_spec (epoch b) (committee_epoch c)) as [He|He]; simpl;
    [|eexists; split; [done|]; split; [done|]; intros []; done].
  destruct (N.eqb_spec (round b) 0) as [Hr|Hr];
    [eexists; split; [done|]; split; [done|]; intros []; lia|].
  destruct (is_valid_index c (author b)) eqn:Ha; simpl;
    [|eexists; split; [done|]; split; [done|]; intros [_ _ Hv]; fold c in Hv; by rewrite Ha in Hv].
  destruct (verify_signature_ret (verifier_context v) b) as [sig Hsig]; [fold c; by rewrite Ha|].
  rewrite Hsig. simpl. destruct sig as [[]|e]; simpl;
    [|eexists; split; [done|]; split; [done|]; intros [_ _ _ Hv]; by rewrite Hsig in Hv].
  destruct (verify_ancestors_spec c (verifier_genesis v) b (ancestors b) Hc ltac:(lia) [] _
    (seen_ok_nil c)) as (r & Hva & Hiff); [set_solver|constructor|].
  change (ref_authors_at (round b - 1) []) with (∅ : gset N) in Hva. rewrite set_stake_empty in Hva.
  change (N.of_nat (length (@nil BlockRef))) with 0 in Hva.
  setoid_rewrite (valid_block_checks verify_batch v b); [|done..]. fold c. setoid_rewrite <-Hiff.
  destruct (N.ltb_spec (committee_size c) (N.of_nat (length (ancestors b)))) as [Hlen|Hlen];
    [eexists; split; [done|]; split; [done|]; lia|].
  destruct (N.eqb_spec (N.of_nat (length (ancestors b))) 0) as [Hz|Hz].
  { eexists; split; [done|]; split; [done|]. intros [Hne _]. by destruct (ancestors b). }
  rewrite Hva. simpl. destruct r as [s|e]; simpl; [|eexists; split; [done|]; naive_solver].
  destruct (reached_quorum c s) eqn:Hq; simpl;
    [|eexists; split; [done|]; split; [done|]; intros (_ & _ & (s' & [= <-] & Hq') & _); by rewrite Hq in Hq'].
  destruct (check_transactions _ _) as [[]|e]; simpl; [|eexists; split; [done|]; naive_solver].
  assert (ancestors b ≠ []) by (by intros Heq; rewrite Heq in Hz).
  destruct (verify_batch _) as [[]|e]; (eexists; split; [done|]); split; try done; [|naive_solver].
  intros _. split_and!; try done. exists s. by rewrite Hq.
Qed.

(** C27: [verify] decides block validity.  For a committee built by the code it
    always returns (no index is out of range, [checked_sub] succeeds, the stake
    sum does not overflow), and it accepts a block exactly when the block meets
    the declarative specification: right epoch, a proper round and author, a
    valid signature, ancestors of lower rounds by distinct authorities with the
    own previous block first, known genesis ancestors, a quorum of stake among
    the parents of the previous round, and transactions within the limits that
    the application accepts. *)
Theorem verify_decides_valid_block `{Crypto} (verify_batch : list bytes → result unit string)
    (v : SignedBlockVerifier) (b : SignedBlock) :
  committee_ok (committee (verifier_context v)) →
  ∃ r, verify verify_batch v b = Ret r ∧ (r = Ok tt ↔ valid_block verify_batch v b).
Proof. apply verify_spec. Qed.

Definition test_genesis : list BlockRef := (λ i, mk_ref 0 i (i + 10)) <$> [0; 1; 2; 3].

Definition test_verifier : SignedBlockVerifier := mk_verifier (test_context 0) (list_to_set test_genesis).

(** A signed first-round block of authority 1. *)
Definition test_signed : SignedBlock :=
  let b := V1 (mk_block_v1 0 1 1 5 [mk_ref 0 1 11; mk_ref 0 0 10; mk_ref 0 3 13] [mk_transaction [1; 2]] [] []) in
  mk_signed b ([2] ++ [@hash_function test_crypto (test_bytes b)]).

Lemma verify_decides_valid_block_witness :
  @valid_block test_crypto (λ _, Ok tt) test_verifier test_signed.
Proof.
  destruct (@verify_decides_valid_block test_crypto (λ _, Ok tt) test_verifier test_signed test_committee_ok)
    as (r & Hr & Hiff).
  apply Hiff. vm_compute in Hr. by injection Hr.
Defined.

(** ** The timestamp check *)

Lemma check_ancestors_gc_ok (b : VerifiedBlock) gc_round ancs : ∀ m, m <= timestamp_ms b →
  check_ancestors_gc b gc_round ancs m = Ok tt ↔
  ∀ a : VerifiedBlock, Some a ∈ ancs → gc_round < round a → timestamp_ms a <= timestamp_ms b.
Proof.
  induction ancs as [|[a|] ancs IH]; intros m Hm; simpl; [set_solver| |].
  - setoid_rewrite elem_of_cons.
    destruct (N.leb_spec (round a) gc_round); [rewrite IH by done; naive_solver lia|].
    destruct (N.ltb_spec (timestamp_ms b) (N.max m (timestamp_ms a))) as [Hlt|Hge].
    + split; [done|]. intros Hall. specialize (Hall a (or_introl eq_refl)). lia.
    + rewrite IH by lia. split; [|naive_solver]. intros Hall a' [[= ->]|Ha] Hr; [lia|auto].
  - rewrite IH by done. setoid_rewrite elem_of_cons. naive_solver.
Qed.

Lemma max_timestamp_fold (blocks : list VerifiedBlock) : ∀ m,
  foldM (λ m '((r, o) : BlockRef * option VerifiedBlock),
    match o with
    | None => Panic "There should never be an empty slot"
    | Some a =>
      _ ← assert (bool_decide (r = reference a)) "assertion failed: reference";
      Ret (N.max m (timestamp_ms a))
    end) m (zip (reference <$> blocks) (Some <$> blocks)) =
  Ret (foldl (λ m (a : VerifiedBlock), N.max m (timestamp_ms a)) m blocks).
Proof.
  induction blocks as [|b blocks IH]; intros m; [done|]. simpl.
  rewrite bool_decide_eq_true_2 by done. simpl. apply IH.
Qed.

Lemma foldl_max_le (blocks : list VerifiedBlock) t : ∀ m,
  foldl (λ m (a : VerifiedBlock), N.max m (timestamp_ms a)) m blocks <= t ↔
  m <= t ∧ ∀ a : VerifiedBlock, a ∈ blocks → timestamp_ms a <= t.
Proof.
  induction blocks as [|b blocks IH]; intros m; simpl; [set_solver|].
  rewrite IH. setoid_rewrite elem_of_cons. split; [|intros [Hm Hall]; pose proof (Hall b (or_introl eq_refl)); split; [lia|auto]].
  intros [Hm Hall]. split; [lia|]. intros a [->|]; [lia|auto].
Qed.

(** Timestamps never decrease along ancestor links.  With garbage collection
    [check_ancestors] accepts a block exactly when no present ancestor above
    the garbage-collection round has a later timestamp; without it, given the
    ancestor blocks in the order of the references, it does not panic and
    accepts exactly when no ancestor has a later timestamp. *)
Theorem check_ancestors_timestamps (b : VerifiedBlock) (blocks : list VerifiedBlock)
    (ancs : list (option VerifiedBlock)) (gc_round : Round) :
  ancestors b = reference <$> blocks →
  (check_ancestors b ancs true gc_round = Ret (Ok tt) ↔
    ∀ a : VerifiedBlock, Some a ∈ ancs → gc_round < round a → timestamp_ms a <= timestamp_ms b) ∧
  ∃ r, check_ancestors b (Some <$> blocks) false gc_round = Ret r ∧
    (r = Ok tt ↔ ∀ a : VerifiedBlock, a ∈ blocks → timestamp_ms a <= timestamp_ms b).
Proof.
  intros Hb. split.
  - unfold check_ancestors. rewrite <-(check_ancestors_gc_ok _ _ _ 0) by lia.
    split; [by intros [= ?]|by intros ->].
  - unfold check_ancestors. rewrite Hb, bool_decide_eq_true_2 by (by rewrite !length_fmap). simpl.
    rewrite max_timestamp_fold. simpl. eexists. split; [done|].
    pose proof (foldl_max_le blocks (timestamp_ms b) 0) as Hle.
    case_match eqn:Hlt; [apply N.ltb_lt in Hlt|apply N.ltb_ge in Hlt]; split; try done.
    + intros Hall. assert (foldl (λ m (a : VerifiedBlock), N.max m (timestamp_ms a)) 0 blocks <= timestamp_ms b)
        by (apply Hle; split; [lia|done]). lia.
    + intros _. by apply Hle.
Qed.

Lemma check_ancestors_timestamps_witness :
  let a := test_block 1 0 7 5 [] in
  check_ancestors (test_block 2 0 8 5 [reference a]) [Some a] true 0 = Ret (Ok tt).
Proof.
  intros a. apply (check_ancestors_timestamps (test_block 2 0 8 5 [reference a]) [a] [Some a] 0 eq_refl).
  intros a' [= ->]%list_elem_of_singleton _. by vm_compute.
Defined.
