(* ===== verification/Store.v ===== *)
(** * Store: persistent storage

    The trait [Store] of [consensus/core/src/storage/mod.rs] is the class
    [Store]; what the rest of consensus relies on is the class [StoreLaws],
    which describes every operation on an abstract view of the contents.
    [MemStore] of [storage/mem_store.rs] and [RocksDBStore] of
    [storage/rocksdb_store.rs] are modelled and shown to satisfy the laws. *)
From S2P Require Import Prelude Committee Block Commit Error.
Local Open Scope N_scope.
Local Open Scope rust_scope.

Record StorageScoringMetrics := mk_storage_metrics {
  faulty_blocks_provable : N;
  faulty_blocks_unprovable : N;
  equivocations : N;
  missing_proposals : N;
}.

Record WriteBatch := mk_batch {
  wb_blocks : list VerifiedBlock;
  wb_commits : list TrustedCommit;
  wb_commit_info : list (CommitRef * CommitInfo);
  wb_scoring_metrics : list (AuthorityIndex * StorageScoringMetrics);
}.

Class Store (S : Type) := {
  store_write : S → WriteBatch → outcome (ConsensusResult S);
  read_blocks : S → list BlockRef → outcome (ConsensusResult (list (option VerifiedBlock)));
  store_contains_blocks : S → list BlockRef → outcome (ConsensusResult (list bool));
  contains_block_at_slot : S → Slot → outcome (ConsensusResult bool);
  scan_blocks_by_author : S → AuthorityIndex → Round → outcome (ConsensusResult (list VerifiedBlock));
  scan_scoring_metrics : S → outcome (ConsensusResult (list (AuthorityIndex * StorageScoringMetrics)));
  scan_last_blocks_by_author :
    S → AuthorityIndex → N → option Round → outcome (ConsensusResult (list VerifiedBlock));
  read_last_commit : S → outcome (ConsensusResult (option TrustedCommit));
  scan_commits : S → CommitRange → outcome (ConsensusResult (list TrustedCommit));
  read_commit_votes : S → CommitIndex → outcome (ConsensusResult (list BlockRef));
  read_last_commit_info : S → outcome (ConsensusResult (option (CommitRef * CommitInfo)));
}.

(** ** [load_committed_subdag_from_store] (commit.rs) *)
Definition load_committed_subdag_from_store {St : Type} `{Store St} (s : St) (commit : TrustedCommit)
    (reputation_scores_desc : list (AuthorityIndex * N)) : outcome CommittedSubDag :=
  let why := "We should have the block referenced in the commit data"%string in
  commit_blocks ← unwrapM (read_blocks s (commit_blocks commit)) why;
  blocks ← mapM (λ o, expect o why) commit_blocks;
  leader ← expect (last (filter (λ b : VerifiedBlock, reference b = commit_leader commit) blocks))
             "Leader block must be in the sub-dag";
  Ret (mk_sub_dag (reference leader) blocks (commit_timestamp_ms commit) (commit_reference commit)
        reputation_scores_desc).

(** ** The abstract contents of a store *)

Record StoreView := mk_view {
  sv_blocks : gmap BlockRef VerifiedBlock;
  sv_commits : gmap (CommitIndex * CommitDigest) TrustedCommit;
  sv_commit_votes : gset (CommitIndex * CommitDigest * BlockRef);
  sv_commit_info : gmap (CommitIndex * CommitDigest) CommitInfo;
  sv_metrics : gmap AuthorityIndex StorageScoringMetrics;
}.

Definition insert_blocks (bs : list VerifiedBlock) (m : gmap BlockRef VerifiedBlock) :=
  foldl (λ m b, <[reference b := b]> m) m bs.

Definition insert_commits (cs : list TrustedCommit) (m : gmap (CommitIndex * CommitDigest) TrustedCommit) :=
  foldl (λ m (c : TrustedCommit), <[(commit_index c, commit_digest c) := c]> m) m cs.

Definition insert_votes (bs : list VerifiedBlock) (m : gset (CommitIndex * CommitDigest * BlockRef)) :=
  foldl (λ m (b : VerifiedBlock),
    foldl (λ m v, {[(commit_ref_index v, commit_ref_digest v, reference b)]} ∪ m) m (commit_votes b)) m bs.

Definition insert_infos (infos : list (CommitRef * CommitInfo)) (m : gmap (CommitIndex * CommitDigest) CommitInfo) :=
  foldl (λ m '((r, i) : CommitRef * CommitInfo), <[(commit_ref_index r, commit_ref_digest r) := i]> m) m infos.

Definition insert_metrics (ms : list (AuthorityIndex * StorageScoringMetrics))
    (m : gmap AuthorityIndex StorageScoringMetrics) :=
  foldl (λ m '((a, x) : AuthorityIndex * StorageScoringMetrics), <[a := x]> m) m ms.

Definition view_write (v : StoreView) (w : WriteBatch) : StoreView :=
  mk_view (insert_blocks (wb_blocks w) (sv_blocks v)) (insert_commits (wb_commits w) (sv_commits v))
    (insert_votes (wb_blocks w) (sv_commit_votes v)) (insert_infos (wb_commit_info w) (sv_commit_info v))
    (insert_metrics (wb_scoring_metrics w) (sv_metrics v)).

(** The width invariants of a reference: [u32] rounds, of which the last one is
    never reached, [u32] authors, a 32-byte digest. *)
Definition ref_ok (r : BlockRef) : Prop :=
  ref_round r < U32_MAX ∧ ref_author r <= U32_MAX ∧ ref_digest r <= DIGEST_MAX.

Definition commit_ref_ok (r : CommitRef) : Prop := commit_ref_index r <= U32_MAX ∧ commit_ref_digest r <= DIGEST_MAX.

Definition votes_ok (b : VerifiedBlock) : Prop := Forall commit_ref_ok (commit_votes b).

(** A batch that a store takes, when it takes the blocks in [B] and the commits in
    [C]: the keys fit their types. *)
Record batch_ok (B : VerifiedBlock → Prop) (C : TrustedCommit → Prop) (w : WriteBatch) : Prop := {
  bo_blocks b : b ∈ wb_blocks w → ref_ok (reference b) ∧ votes_ok b ∧ B b;
  bo_commits (c : TrustedCommit) : c ∈ wb_commits w → (commit_index c <= U32_MAX ∧ commit_digest c <= DIGEST_MAX) ∧ C c;
  bo_infos r i : (r, i) ∈ wb_commit_info w → commit_ref_ok r;
  bo_metrics a x : (a, x) ∈ wb_scoring_metrics w → a <= U32_MAX;
}.

(** The stored references of an author that satisfy a test, in order. *)
Definition author_refs (v : StoreView) (a : AuthorityIndex) (P : Round → bool) : list BlockRef :=
  btree_range (λ r, bool_decide (ref_author r = a) && P (ref_round r)) (dom (sv_blocks v)).

(** ** The ring buffer of a [VecDeque] of small elements

    The layout decides how many blocks [scan_last_blocks_by_author] returns. *)

Record ring := mk_ring { ring_cap : N; ring_head : N; ring_len : N }.

(** Doubles the capacity and makes the contents valid again. *)
Definition ring_grow (q : ring) : ring :=
  let new_cap := if ring_cap q =? 0 then 4 else 2 * ring_cap q in
  if ring_head q <=? ring_cap q - ring_len q then mk_ring new_cap (ring_head q) (ring_len q)
  else
    let head_len := ring_cap q - ring_head q in
    let tail_len := ring_len q - head_len in
    if (tail_len <? head_len) && (tail_len <=? new_cap - ring_cap q)
    then mk_ring new_cap (ring_head q) (ring_len q)
    else mk_ring new_cap (new_cap - head_len) (ring_len q).

Definition ring_push_front (q : ring) : ring :=
  let q := if ring_len q =? ring_cap q then ring_grow q else q in
  mk_ring (ring_cap q) (if ring_head q =? 0 then ring_cap q - 1 else ring_head q - 1) (ring_len q + 1).

(** The length of [as_slices().0]. *)
Definition first_slice_len (q : ring) : N := N.min (ring_len q) (ring_cap q - ring_head q).

(** The elements of the first slice, after pushing all of [l] to the front of an
    empty deque, last element first. *)
Definition first_slice {A} (l : list A) : list A :=
  take (N.to_nat (first_slice_len (Nat.iter (length l) ring_push_front (mk_ring 0 0 0)))) l.

(** The last [n] of them up to a round. *)
Definition latest_refs (v : StoreView) (a : AuthorityIndex) (n : N) (before : Round) : list BlockRef :=
  reverse (take (N.to_nat n) (reverse (author_refs v a (λ r, r <=? before)))).

(** The contract of a store, for operations that do not meet an I/O error.  A store
    that keeps only the bytes of blocks and commits takes those that their bytes
    decode to. *)
Class StoreLaws (S : Type) `{Store S} := {
  store_accepts_block : VerifiedBlock → Prop;
  store_accepts_commit : TrustedCommit → Prop;
  store_view : S → StoreView;
  store_ok : S → Prop;
  store_keys_ok s r b : store_ok s → sv_blocks (store_view s) !! r = Some b → reference b = r ∧ ref_ok r;
  store_write_view s w : store_ok s → batch_ok store_accepts_block store_accepts_commit w →
    ∃ s', store_write s w = Ret (Ok s') ∧ store_ok s' ∧ store_view s' = view_write (store_view s) w;
  read_blocks_view s rs : store_ok s →
    read_blocks s rs = Ret (Ok ((λ r, sv_blocks (store_view s) !! r) <$> rs));
  store_contains_blocks_view s rs : store_ok s →
    store_contains_blocks s rs = Ret (Ok ((λ r, bool_decide (r ∈ dom (sv_blocks (store_view s)))) <$> rs));
  scan_blocks_by_author_view s a start : store_ok s → a <= U32_MAX → start <= U32_MAX →
    scan_blocks_by_author s a start =
      Ret (Ok (omap (λ r, sv_blocks (store_view s) !! r) (author_refs (store_view s) a (λ r, start <=? r))));
  (* both stores read only the first slice of the deque of references *)
  scan_last_blocks_view s a n before : store_ok s → a <= U32_MAX → default U32_MAX before <= U32_MAX →
    scan_last_blocks_by_author s a n before =
      Ret (Ok (omap (λ r, sv_blocks (store_view s) !! r) (first_slice (latest_refs (store_view s) a n (default U32_MAX before)))));
  read_last_commit_view s : store_ok s →
    read_last_commit s = Ret (Ok (snd <$> last (btree_entries (sv_commits (store_view s)))));
  (* a range with inverted ends panics in memory *)
  scan_commits_view s rg : store_ok s → range_start rg <= range_end rg → range_end rg <= U32_MAX →
    scan_commits s rg =
      Ret (Ok (snd <$> btree_map_range (λ k, (range_start rg <=? k.1) && (k.1 <=? range_end rg)) (sv_commits (store_view s))));
  read_last_commit_info_view s : store_ok s →
    read_last_commit_info s =
      Ret (Ok ((λ '(k, i), (mk_commit_ref k.1 k.2, i)) <$> last (btree_entries (sv_commit_info (store_view s)))));
  scan_scoring_metrics_view s : store_ok s →
    scan_scoring_metrics s = Ret (Ok (btree_entries (sv_metrics (store_view s))));
  (* the slot reads *)
  contains_block_at_slot_view s slot : store_ok s → slot_authority slot <= U32_MAX → slot_round slot <= U32_MAX →
    contains_block_at_slot s slot =
      Ret (Ok (bool_decide (author_refs (store_view s) (slot_authority slot) (λ r, r =? slot_round slot) ≠ [])));
  read_commit_votes_view s i : store_ok s → i <= U32_MAX →
    read_commit_votes s i = Ret (Ok (snd <$> btree_range (λ k, k.1.1 =? i) (sv_commit_votes (store_view s))));
}.
Arguments store_accepts_block S {_ _} _.
Arguments store_accepts_commit S {_ _} _.

Lemma scan_commits_between {St : Type} `{StoreLaws St} (s : St) lo hi : store_ok s → lo <= hi → hi < U32_MAX →
  scan_commits s (CommitRange_new lo hi) = Ret (Ok (snd <$> btree_map_range (λ k, (lo <=? k.1) && (k.1 <=? hi)) (sv_commits (store_view s)))).
Proof.
  intros Hs Hlo Hhi. assert (range_end (CommitRange_new lo hi) = hi) as He by (unfold range_end, CommitRange_new, sat_add32; cbn; lia).
  rewrite scan_commits_view by (rewrite ?He; done || lia). by rewrite He.
Qed.

(** A block that can be stored. *)
Definition storable (St : Type) `{StoreLaws St} (b : VerifiedBlock) : Prop :=
  ref_ok (reference b) ∧ votes_ok b ∧ store_accepts_block St b.

(** A store takes the blocks that the node serialises. *)
Class BlockCodec (St : Type) `{StoreLaws St} `{Crypto} := {
  accepts_new_block s bs : bcs_signed_block s = Some bs → store_accepts_block St (new_verified s bs);
}.

(** A store takes the commits that the node serialises. *)
Class CommitCodec (St : Type) `{StoreLaws St} `{Crypto} `{CommitBcs} := {
  accepts_new_commit c bs : bcs_commit c = Some bs → store_accepts_commit St (new_trusted c bs);
}.

(** ** Two stores *)

(** The stores answer every read alike, for arguments within their types and ranges
    of commits whose ends are not inverted. *)
Record same_reads {S1 S2 : Type} `{Store S1, Store S2} (s1 : S1) (s2 : S2) : Prop := {
  sr_read_blocks rs : read_blocks s1 rs = read_blocks s2 rs;
  sr_contains_blocks rs : store_contains_blocks s1 rs = store_contains_blocks s2 rs;
  sr_contains_slot slot : slot_authority slot <= U32_MAX → slot_round slot <= U32_MAX → contains_block_at_slot s1 slot = contains_block_at_slot s2 slot;
  sr_scan_blocks a start : a <= U32_MAX → start <= U32_MAX → scan_blocks_by_author s1 a start = scan_blocks_by_author s2 a start;
  sr_scan_last a n before : a <= U32_MAX → default U32_MAX before <= U32_MAX →
    scan_last_blocks_by_author s1 a n before = scan_last_blocks_by_author s2 a n before;
  sr_last_commit : read_last_commit s1 = read_last_commit s2;
  sr_scan_commits rg : range_start rg <= range_end rg → range_end rg <= U32_MAX → scan_commits s1 rg = scan_commits s2 rg;
  sr_votes i : i <= U32_MAX → read_commit_votes s1 i = read_commit_votes s2 i;
  sr_last_info : read_last_commit_info s1 = read_last_commit_info s2;
  sr_metrics : scan_scoring_metrics s1 = scan_scoring_metrics s2;
}.

Lemma same_view_reads {S1 S2 : Type} `{StoreLaws S1} `{StoreLaws S2} (s1 : S1) (s2 : S2) :
  store_ok s1 → store_ok s2 → store_view s1 = store_view s2 → same_reads s1 s2.
Proof.
  intros Hs1 Hs2 Hv. split; intros.
  - by rewrite !read_blocks_view, Hv.
  - by rewrite !store_contains_blocks_view, Hv.
  - by rewrite !contains_block_at_slot_view, Hv.
  - by rewrite !scan_blocks_by_author_view, Hv.
  - by rewrite !scan_last_blocks_view, Hv.
  - by rewrite !read_last_commit_view, Hv.
  - by rewrite !scan_commits_view, Hv.
  - by rewrite !read_commit_votes_view, Hv.
  - by rewrite !read_last_commit_info_view, Hv.
  - by rewrite !scan_scoring_metrics_view, Hv.
Qed.

(** Batches written one after the other. *)
Fixpoint write_all {S : Type} `{Store S} (s : S) (ws : list WriteBatch) : outcome (ConsensusResult S) :=
  match ws with
  | [] => Ret (Ok s)
  | w :: ws => r ← store_write s w; match r with Ok s => write_all s ws | Err e => Ret (Err e) end
  end.

Lemma write_all_view {S : Type} `{StoreLaws S} ws : ∀ s : S, store_ok s → Forall (batch_ok (store_accepts_block S) (store_accepts_commit S)) ws →
  ∃ s', write_all s ws = Ret (Ok s') ∧ store_ok s' ∧ store_view s' = foldl view_write (store_view s) ws.
Proof.
  induction ws as [|w ws IH]; intros s Hs Hws; [by exists s|]. apply Forall_cons in Hws as [Hw Hws]. cbn [write_all foldl].
  destruct (store_write_view s w Hs Hw) as (s1 & -> & Hs1 & <-). cbn [mbind outcome_bind]. by apply IH.
Qed.

(** ** Facts on the view *)

Lemma insert_blocks_lookup_ne bs r : ∀ m, r ∉ reference <$> bs → insert_blocks bs m !! r = m !! r.
Proof.
  induction bs as [|b bs IH]; intros m Hr; [done|]. simpl. csimpl in Hr.
  rewrite IH by set_solver. apply lookup_insert_ne. set_solver.
Qed.

Lemma insert_blocks_app bs bs' m : insert_blocks (bs ++ bs') m = insert_blocks bs' (insert_blocks bs m).
Proof. unfold insert_blocks. apply foldl_app. Qed.

(** The last block with a reference wins. *)
Lemma insert_blocks_lookup_inv bs r b : ∀ m,
  insert_blocks bs m !! r = Some b → (b ∈ bs ∧ reference b = r) ∨ m !! r = Some b.
Proof.
  induction bs as [|b' bs IH]; intros m Hr; [by right|]. simpl in Hr. apply IH in Hr as [[Hb Hr]|Hr].
  - left. by split; [right|].
  - rewrite lookup_insert in Hr. case_decide; [|by right]. left. simplify_eq. split; [left|done].
Qed.

Lemma insert_blocks_lookup bs m b :
  NoDup (reference <$> bs) → b ∈ bs → insert_blocks bs m !! reference b = Some b.
Proof.
  intros Hnd (bs1 & bs2 & ->)%list_elem_of_split. rewrite insert_blocks_app. simpl.
  rewrite fmap_app, fmap_cons in Hnd. apply NoDup_app in Hnd as (_ & _ & Hnd).
  apply NoDup_cons in Hnd as [Hnd _]. rewrite insert_blocks_lookup_ne by done. apply lookup_insert_eq.
Qed.

Lemma insert_blocks_dom bs : ∀ m, dom (insert_blocks bs m) = list_to_set (reference <$> bs) ∪ dom m.
Proof.
  induction bs as [|b bs IH]; intros m; simpl; [set_solver|]. rewrite IH, dom_insert_L. set_solver.
Qed.

Lemma omap_lookup_refs (m : gmap BlockRef VerifiedBlock) (refs : list BlockRef) :
  (∀ r, r ∈ refs → ∃ b, m !! r = Some b ∧ reference b = r) →
  reference <$> omap (λ r, m !! r) refs = refs.
Proof.
  induction refs as [|r refs IH]; intros Hrefs; [done|]. csimpl.
  destruct (Hrefs r) as (b & -> & Hb); [left|]. csimpl. rewrite IH; [by rewrite Hb|]. set_solver.
Qed.
