(* ===== verification/MemStore.v ===== *)
(** * MemStore: the in-memory store satisfies the storage contract

    Models [consensus/core/src/storage/mem_store.rs].  [scan_last_blocks_by_author]
    reads only the first slice of a [VecDeque]. *)
From S2P Require Import Prelude Committee Block Commit Error Store.
Local Open Scope N_scope.
Local Open Scope rust_scope.

(** ** The store *)

Record MemStore := mk_mem_store {
  ms_blocks : gmap (Round * AuthorityIndex * BlockDigest) VerifiedBlock;
  ms_digests_by_authorities : gset (AuthorityIndex * Round * BlockDigest);
  ms_commits : gmap (CommitIndex * CommitDigest) TrustedCommit;
  ms_commit_votes : gset (CommitIndex * CommitDigest * BlockRef);
  ms_commit_info : gmap (CommitIndex * CommitDigest) CommitInfo;
  ms_scoring_metrics : gmap AuthorityIndex StorageScoringMetrics;
}.

Definition MemStore_new : MemStore := mk_mem_store ∅ ∅ ∅ ∅ ∅ ∅.

Definition ms_write_block (s : MemStore) (b : VerifiedBlock) : MemStore :=
  let r := reference b in
  mk_mem_store (<[(ref_round r, ref_author r, ref_digest r) := b]> (ms_blocks s))
    ({[(ref_author r, ref_round r, ref_digest r)]} ∪ ms_digests_by_authorities s) (ms_commits s)
    (foldl (λ m v, {[(commit_ref_index v, commit_ref_digest v, r)]} ∪ m) (ms_commit_votes s) (commit_votes b))
    (ms_commit_info s) (ms_scoring_metrics s).

Definition ms_write (s : MemStore) (w : WriteBatch) : outcome (ConsensusResult MemStore) :=
  let s := foldl ms_write_block s (wb_blocks w) in
  Ret (Ok (mk_mem_store (ms_blocks s) (ms_digests_by_authorities s)
    (insert_commits (wb_commits w) (ms_commits s)) (ms_commit_votes s)
    (insert_infos (wb_commit_info w) (ms_commit_info s))
    (insert_metrics (wb_scoring_metrics w) (ms_scoring_metrics s)))).

Definition ms_get (s : MemStore) (r : BlockRef) : option VerifiedBlock :=
  ms_blocks s !! (ref_round r, ref_author r, ref_digest r).

Definition ms_read_blocks (s : MemStore) (rs : list BlockRef) : outcome (ConsensusResult (list (option VerifiedBlock))) :=
  Ret (Ok (ms_get s <$> rs)).

Definition ms_contains_blocks (s : MemStore) (rs : list BlockRef) : outcome (ConsensusResult (list bool)) :=
  Ret (Ok ((λ r, bool_decide (is_Some (ms_get s r))) <$> rs)).

Definition ms_digest_range (s : MemStore) (a : AuthorityIndex) (lo hi : Round) : outcome (list BlockRef) :=
  ks ← set_range (Included (a, lo, DIGEST_MIN)) (Included (a, hi, DIGEST_MAX)) (ms_digests_by_authorities s);
  Ret ((λ '(a, r, d), mk_ref r a d) <$> (ks : list (AuthorityIndex * Round * BlockDigest))).

Definition ms_contains_block_at_slot (s : MemStore) (slot : Slot) : outcome (ConsensusResult bool) :=
  found ← ms_digest_range s (slot_authority slot) (slot_round slot) (slot_round slot);
  Ret (Ok (bool_decide ((found : list BlockRef) ≠ []))).

(** The blocks for [refs], zipped with the [results] that were read. *)
Definition ms_zip_blocks (refs : list BlockRef) (results : list (option VerifiedBlock)) (why : string)
    : outcome (list VerifiedBlock) :=
  mapM (λ '((_, o) : BlockRef * option VerifiedBlock), expect o why) (zip refs results).

Definition ms_scan_blocks_by_author (s : MemStore) (a : AuthorityIndex) (start_round : Round)
    : outcome (ConsensusResult (list VerifiedBlock)) :=
  refs ← ms_digest_range s a start_round U32_MAX;
  r ← ms_read_blocks s refs;
  try (r : ConsensusResult (list (option VerifiedBlock))) (λ results,
    blocks ← ms_zip_blocks refs results "Block not found!"; Ret (Ok blocks)).

Definition ms_scan_last_blocks_by_author (s : MemStore) (a : AuthorityIndex) (num_of_rounds : N)
    (before_round : option Round) : outcome (ConsensusResult (list VerifiedBlock)) :=
  refs ← ms_digest_range s a 0 (default U32_MAX before_round);
  let refs := reverse (take (N.to_nat num_of_rounds) (reverse refs)) in
  r ← ms_read_blocks s (first_slice refs);
  try (r : ConsensusResult (list (option VerifiedBlock))) (λ results,
    blocks ← ms_zip_blocks refs results "Storage inconsistency: block not found!"; Ret (Ok blocks)).

Definition ms_read_last_commit (s : MemStore) : outcome (ConsensusResult (option TrustedCommit)) :=
  Ret (Ok (snd <$> last (btree_entries (ms_commits s)))).

Definition ms_scan_commits (s : MemStore) (range : CommitRange) : outcome (ConsensusResult (list TrustedCommit)) :=
  cs ← map_range (Included (range_start range, DIGEST_MIN)) (Included (range_end range, DIGEST_MAX)) (ms_commits s);
  Ret (Ok (snd <$> (cs : list (CommitIndex * CommitDigest * TrustedCommit)))).

Definition ref_MIN : BlockRef := mk_ref 0 AuthorityIndex_ZERO DIGEST_MIN.
Definition ref_MAX : BlockRef := mk_ref U32_MAX AuthorityIndex_MAX DIGEST_MAX.

Definition ms_read_commit_votes (s : MemStore) (i : CommitIndex) : outcome (ConsensusResult (list BlockRef)) :=
  votes ← set_range (Included (i, DIGEST_MIN, ref_MIN)) (Included (i, DIGEST_MAX, ref_MAX)) (ms_commit_votes s);
  Ret (Ok (snd <$> (votes : list (CommitIndex * CommitDigest * BlockRef)))).

Definition ms_read_last_commit_info (s : MemStore) : outcome (ConsensusResult (option (CommitRef * CommitInfo))) :=
  Ret (Ok ((λ '(k, i), (mk_commit_ref k.1 k.2, i)) <$> last (btree_entries (ms_commit_info s)))).

Definition ms_scan_scoring_metrics (s : MemStore) : outcome (ConsensusResult (list (AuthorityIndex * StorageScoringMetrics))) :=
  Ret (Ok (btree_entries (ms_scoring_metrics s))).

#[export] Instance MemStore_Store : Store MemStore := {|
  store_write := ms_write;
  read_blocks := ms_read_blocks;
  store_contains_blocks := ms_contains_blocks;
  contains_block_at_slot := ms_contains_block_at_slot;
  scan_blocks_by_author := ms_scan_blocks_by_author;
  scan_scoring_metrics := ms_scan_scoring_metrics;
  scan_last_blocks_by_author := ms_scan_last_blocks_by_author;
  read_last_commit := ms_read_last_commit;
  scan_commits := ms_scan_commits;
  read_commit_votes := ms_read_commit_votes;
  read_last_commit_info := ms_read_last_commit_info;
|}.

(** ** The contract *)

Definition key_ref (k : Round * AuthorityIndex * BlockDigest) : BlockRef := mk_ref k.1.1 k.1.2 k.2.
Definition digest_ref (k : AuthorityIndex * Round * BlockDigest) : BlockRef := mk_ref k.1.2 k.1.1 k.2.

#[local] Instance key_ref_inj : Inj (=) (=) key_ref.
Proof. intros [[??]?] [[??]?]. unfold key_ref. naive_solver. Qed.
#[local] Instance digest_ref_inj : Inj (=) (=) digest_ref.
Proof. intros [[??]?] [[??]?]. unfold digest_ref. naive_solver. Qed.

Definition ms_view (s : MemStore) : StoreView :=
  mk_view (kmap key_ref (ms_blocks s)) (ms_commits s) (ms_commit_votes s) (ms_commit_info s) (ms_scoring_metrics s).

Record ms_ok (s : MemStore) : Prop := {
  ms_ok_digests k : k ∈ ms_digests_by_authorities s ↔ is_Some (ms_get s (digest_ref k));
  ms_ok_keys r b : ms_get s r = Some b → reference b = r ∧ ref_ok r;
  ms_ok_commits k c : ms_commits s !! k = Some c → k.1 <= U32_MAX ∧ k.2 <= DIGEST_MAX;
  ms_ok_votes k : k ∈ ms_commit_votes s → k.1.2 <= DIGEST_MAX ∧ ref_ok k.2;
}.

Lemma ms_view_get s r : sv_blocks (ms_view s) !! r = ms_get s r.
Proof. destruct r as [r a d]. apply (lookup_kmap key_ref _ (r, a, d)). Qed.

Lemma ms_ok_new : ms_ok MemStore_new.
Proof.
  split.
  - intros k. unfold ms_get. simpl. rewrite lookup_empty. split; [set_solver|by intros []].
  - intros r b. unfold ms_get. simpl. by rewrite lookup_empty.
  - intros k c. simpl. by rewrite lookup_empty.
  - intros k. simpl. set_solver.
Qed.

Lemma ms_get_write_block s b r :
  ms_get (ms_write_block s b) r = if decide (r = reference b) then Some b else ms_get s r.
Proof.
  unfold ms_get, ms_write_block. cbn [ms_blocks]. rewrite lookup_insert.
  destruct r as [r a d], (reference b) as [r' a' d']. cbn.
  do 2 case_decide; congruence.
Qed.

Lemma elem_of_block_votes (b : VerifiedBlock) k : ∀ m : gset (CommitIndex * CommitDigest * BlockRef),
  k ∈ foldl (λ m v, {[(commit_ref_index v, commit_ref_digest v, reference b)]} ∪ m) m (commit_votes b) ↔
  k ∈ m ∨ ∃ v, v ∈ commit_votes b ∧ k = (commit_ref_index v, commit_ref_digest v, reference b).
Proof.
  induction (commit_votes b) as [|v vs IH]; intros m; cbn [foldl]; [set_solver|]. rewrite IH. set_solver.
Qed.

Lemma ms_write_block_ok s b : ms_ok s → ref_ok (reference b) → votes_ok b → ms_ok (ms_write_block s b).
Proof.
  intros [Hd Hk Hc Hv] Hb Hvb. split; [| |done|].
  - intros k. rewrite ms_get_write_block. unfold ms_write_block. cbn [ms_digests_by_authorities].
    rewrite elem_of_union, elem_of_singleton, Hd.
    destruct k as [[a r] d], (reference b) as [r' a' d']. unfold digest_ref. cbn.
    case_decide as Heq; [|intuition congruence]. injection Heq as -> -> ->. split; [done|by left].
  - intros r b'. rewrite ms_get_write_block. case_decide; [|apply Hk]. intros [= <-]. by subst r.
  - intros k [?|(v & Hin & ->)]%elem_of_block_votes; [by apply Hv|]. eapply Forall_forall in Hvb; [|done]. by destruct Hvb.
Qed.

Lemma ms_write_block_view s b :
  ms_view (ms_write_block s b) =
  mk_view (insert_blocks [b] (sv_blocks (ms_view s))) (sv_commits (ms_view s))
    (insert_votes [b] (sv_commit_votes (ms_view s))) (sv_commit_info (ms_view s)) (sv_metrics (ms_view s)).
Proof.
  unfold ms_view. simpl. f_equal. by rewrite (kmap_insert key_ref).
Qed.

Lemma ms_write_blocks_view bs : ∀ s, ms_ok s → (∀ b, b ∈ bs → ref_ok (reference b) ∧ votes_ok b) →
  ms_ok (foldl ms_write_block s bs) ∧
  ms_view (foldl ms_write_block s bs) =
  mk_view (insert_blocks bs (sv_blocks (ms_view s))) (sv_commits (ms_view s))
    (insert_votes bs (sv_commit_votes (ms_view s))) (sv_commit_info (ms_view s)) (sv_metrics (ms_view s)).
Proof.
  induction bs as [|b bs IH]; intros s Hs Hbs; [done|]. simpl.
  destruct (IH (ms_write_block s b)) as [Hok ->]; [destruct (Hbs b) as [? ?]; [left|]; by apply ms_write_block_ok|intros b' Hb'; apply Hbs; by right|].
  split; [done|]. by rewrite ms_write_block_view.
Qed.

Lemma insert_commits_ok cs : ∀ m : gmap (CommitIndex * CommitDigest) TrustedCommit,
  (∀ k c, m !! k = Some c → k.1 <= U32_MAX ∧ k.2 <= DIGEST_MAX) →
  (∀ c : TrustedCommit, c ∈ cs → commit_index c <= U32_MAX ∧ commit_digest c <= DIGEST_MAX) →
  ∀ k c, insert_commits cs m !! k = Some c → k.1 <= U32_MAX ∧ k.2 <= DIGEST_MAX.
Proof.
  induction cs as [|c cs IH]; intros m Hm Hcs; [done|]. simpl. apply IH; [|set_solver].
  intros k c'. rewrite lookup_insert. case_decide as Hk; [|apply Hm]. intros _. subst k. apply Hcs. left.
Qed.

Lemma ms_write_view s w : ms_ok s → batch_ok (λ _, True) (λ _, True) w →
  ∃ s', ms_write s w = Ret (Ok s') ∧ ms_ok s' ∧ ms_view s' = view_write (ms_view s) w.
Proof.
  intros Hs [Hb Hc _ _]. eexists. split; [done|].
  destruct (ms_write_blocks_view (wb_blocks w) s Hs) as [[Hd Hk Hcs Hvs] Hv]; [intros b (? & ? & _)%Hb; done|].
  set (s' := foldl ms_write_block s (wb_blocks w)) in *. split.
  - split; [exact Hd|exact Hk| |exact Hvs]. apply insert_commits_ok; [done|]. intros c Hin. by apply Hc.
  - unfold view_write. unfold ms_view in *. simpl in *. injection Hv as -> -> -> -> ->. done.
Qed.

Lemma StronglySorted_fmap_with {A B} (R : relation A) (R' : relation B) (f : A → B) l :
  StronglySorted R l → (∀ x y, x ∈ l → y ∈ l → R x y → R' (f x) (f y)) → StronglySorted R' (f <$> l).
Proof.
  induction 1 as [|x l Hl IH Hx]; intros Hf; [constructor|]. csimpl. constructor.
  - apply IH. set_solver.
  - apply Forall_fmap, Forall_forall. intros y Hy. simpl. apply Hf; [left|by right|].
    by eapply Forall_forall in Hx.
Qed.

Lemma digest_in_range (a lo hi : N) k :
  above (Included (a, lo, DIGEST_MIN)) k && below (Included (a, hi, DIGEST_MAX)) k →
  k.1.1 = a ∧ lo <= k.1.2 <= hi.
Proof.
  intros [H1 H2]%andb_prop_elim. apply bool_decide_unpack in H1, H2.
  destruct k as [[a' r] d]. simpl. rewrite !prod_key_le, !N_key_le in H1, H2.
  assert (a <= a' ∧ a' <= a) as [? ?] by (split; [destruct H1|destruct H2]; naive_solver lia).
  assert (a' = a) as -> by lia. split; [done|]. naive_solver lia.
Qed.

Lemma digest_in_range_2 (a lo hi : N) k :
  k.1.1 = a → lo <= k.1.2 <= hi → k.2 <= DIGEST_MAX →
  above (Included (a, lo, DIGEST_MIN)) k && below (Included (a, hi, DIGEST_MAX)) k.
Proof.
  destruct k as [[a' r] d]. cbn [fst snd]. intros -> [Hlo Hhi] Hd. apply andb_prop_intro.
  split; apply bool_decide_pack; rewrite !prod_key_le, !N_key_le.
  - destruct (decide (lo = r)) as [->|]; [right; split; [done|unfold DIGEST_MIN; lia]|].
    left. split; [by right|congruence].
  - destruct (decide (hi = r)) as [->|]; [by right|]. left. split; [by right|congruence].
Qed.

(** The view of a store whose digest index [D] has the references of its blocks. *)
Definition indexed (v : StoreView) (D : gset (AuthorityIndex * Round * BlockDigest)) : Prop :=
  (∀ k, k ∈ D ↔ digest_ref k ∈ dom (sv_blocks v)) ∧ ∀ r, r ∈ dom (sv_blocks v) → ref_ok r.

(** The digest index lists the references of an author, in order. *)
Lemma digest_range_refs v D a lo hi : indexed v D →
  digest_ref <$> btree_range (λ k, above (Included (a, lo, DIGEST_MIN)) k && below (Included (a, hi, DIGEST_MAX)) k) D =
  author_refs v a (λ r, (lo <=? r) && (r <=? hi)).
Proof.
  intros [HD Hok]. apply btree_sorted_unique.
  - eapply StronglySorted_fmap_with; [apply btree_range_sorted|].
    intros x y [Hx _]%elem_of_btree_range [Hy _]%elem_of_btree_range Hle.
    apply digest_in_range in Hx as [Hx _], Hy as [Hy _].
    destruct x as [[? r] d], y as [[? r'] d']. cbn [fst snd] in *. subst. rewrite !prod_key_le, !N_key_le in Hle.
    unfold key_le; simpl. unfold ref_le; simpl. destruct Hle as [[Hle Hn]|[[= ->] ?]]; [|lia].
    assert (r ≠ r') by congruence. lia.
  - apply btree_range_sorted.
  - apply NoDup_fmap; [apply digest_ref_inj|apply btree_range_NoDup].
  - apply btree_range_NoDup.
  - intros r. unfold author_refs. rewrite elem_of_btree_range, list_elem_of_fmap. split.
    + intros (k & -> & Hk). apply elem_of_btree_range in Hk as [Hr Hk].
      apply digest_in_range in Hr as [Ha Hr]. apply HD in Hk. split; [|done].
      rewrite !andb_True, bool_decide_spec, !Is_true_true, !N.leb_le. done.
    + rewrite !andb_True, bool_decide_spec, !Is_true_true, !N.leb_le. intros [[Ha Hr] Hin].
      destruct (Hok r Hin) as (_ & _ & Hd). destruct r as [r a' d]. simpl in *. subst a'.
      exists (a, r, d). split; [done|]. apply elem_of_btree_range. split; [by apply digest_in_range_2|]. by apply HD.
Qed.

Lemma digest_bounds_ok (a lo hi : N) : lo <= hi → bounds_ok (Included (a, lo, DIGEST_MIN)) (Included (a, hi, DIGEST_MAX)) = true.
Proof.
  intros Hlo. apply bool_decide_eq_true_2. rewrite !prod_key_le, !N_key_le. destruct (decide (lo = hi)) as [->|];
    [right; split; [done|unfold DIGEST_MIN; lia]|left; split; [by right|congruence]].
Qed.

Lemma ms_indexed s : ms_ok s → indexed (ms_view s) (ms_digests_by_authorities s).
Proof.
  intros Hs. split.
  - intros k. by rewrite elem_of_dom, ms_view_get, (ms_ok_digests _ Hs).
  - intros r [b Hb]%elem_of_dom. rewrite ms_view_get in Hb. by apply (ms_ok_keys _ Hs r b).
Qed.

Lemma ms_digest_range_view s a lo hi : ms_ok s → lo <= hi →
  ms_digest_range s a lo hi = Ret (author_refs (ms_view s) a (λ r, (lo <=? r) && (r <=? hi))).
Proof.
  intros Hs Hlo. unfold ms_digest_range. rewrite set_range_ret by by apply digest_bounds_ok.
  cbn [mbind outcome_bind]. f_equal. rewrite <-(digest_range_refs _ _ a lo hi (ms_indexed s Hs)).
  apply list_fmap_ext. by intros i [[? ?] ?] _.
Qed.

Lemma ms_zip_blocks_take s refs why : (∀ r, r ∈ refs → is_Some (ms_get s r)) →
  ∀ n, ms_zip_blocks refs (ms_get s <$> take n refs) why = Ret (omap (ms_get s) (take n refs)).
Proof.
  intros Hr n. apply mapM_ret_Forall2. revert n. induction refs as [|r refs IH]; intros n; [destruct n; constructor|].
  destruct n as [|n]; [constructor|]. csimpl. destruct (Hr r) as [b Hb]; [left|]. rewrite Hb. constructor; [done|]. apply IH. set_solver.
Qed.

Lemma ms_zip_blocks_ret s refs why : (∀ r, r ∈ refs → is_Some (ms_get s r)) →
  ms_zip_blocks refs (ms_get s <$> refs) why = Ret (omap (ms_get s) refs).
Proof. intros Hr. rewrite <-(take_ge refs (length refs)) at 2 3 by done. by apply ms_zip_blocks_take. Qed.

Lemma elem_of_author_refs v a P r :
  r ∈ author_refs v a P ↔ ref_author r = a ∧ P (ref_round r) ∧ r ∈ dom (sv_blocks v).
Proof. unfold author_refs. rewrite elem_of_btree_range, andb_True, bool_decide_spec. tauto. Qed.

Lemma ms_author_refs_stored s a P r : r ∈ author_refs (ms_view s) a P → is_Some (ms_get s r).
Proof. intros (_ & _ & Hr)%elem_of_author_refs. by rewrite <-ms_view_get, <-elem_of_dom. Qed.

Lemma author_refs_ext v a P Q : (∀ r, r ∈ dom (sv_blocks v) → ref_ok r) → (∀ r, r <= U32_MAX → P r = Q r) → author_refs v a P = author_refs v a Q.
Proof.
  intros Hv HPQ. apply btree_sorted_unique; try apply btree_range_sorted; try apply btree_range_NoDup.
  intros r. rewrite !elem_of_author_refs. assert (r ∈ dom (sv_blocks v) → P (ref_round r) = Q (ref_round r)) as HP.
  { intros (Hr & _)%Hv. apply HPQ. lia. }
  split; intros (? & HP' & ?); (split; [done|]); [rewrite <-HP|rewrite HP]; done.
Qed.

Lemma author_refs_slot v a r : (∀ r, r ∈ dom (sv_blocks v) → ref_ok r) → author_refs v a (λ r', (r <=? r') && (r' <=? r)) = author_refs v a (λ r', r' =? r).
Proof.
  intros Hv. apply author_refs_ext; [done|]. intros r' _. destruct (N.eqb_spec r' r) as [->|Hne]; [by rewrite N.leb_refl|].
  apply andb_false_iff. destruct (N.lt_ge_cases r' r); [left|right]; apply N.leb_gt; lia.
Qed.

Lemma ms_scan_blocks_view s a start : ms_ok s → start <= U32_MAX →
  ms_scan_blocks_by_author s a start =
  Ret (Ok (omap (λ r, sv_blocks (ms_view s) !! r) (author_refs (ms_view s) a (λ r, start <=? r)))).
Proof.
  intros Hs Hstart. unfold ms_scan_blocks_by_author. rewrite ms_digest_range_view by done. simpl.
  rewrite ms_zip_blocks_ret by (intros r; apply ms_author_refs_stored). simpl. do 2 f_equal.
  rewrite (author_refs_ext _ a _ (λ r, start <=? r) (proj2 (ms_indexed s Hs))).
  - apply list_omap_ext, Forall2_same_length_lookup_2; [done|]. intros i x y ??. simplify_eq.
    symmetry. apply ms_view_get.
  - intros r Hr. rewrite (proj2 (N.leb_le r U32_MAX)) by done. apply andb_true_r.
Qed.

Lemma elem_of_latest_refs v a n before r : r ∈ latest_refs v a n before → r ∈ author_refs v a (λ r, r <=? before).
Proof.
  unfold latest_refs. rewrite elem_of_reverse. intros (i & Hi)%list_elem_of_lookup. apply elem_of_reverse.
  rewrite lookup_take_Some in Hi. destruct Hi as [Hi _]. by eapply list_elem_of_lookup_2.
Qed.

Lemma ms_scan_last_view s a n before : ms_ok s → a <= U32_MAX → default U32_MAX before <= U32_MAX →
  ms_scan_last_blocks_by_author s a n before =
  Ret (Ok (omap (λ r, sv_blocks (ms_view s) !! r) (first_slice (latest_refs (ms_view s) a n (default U32_MAX before))))).
Proof.
  intros Hs _ Hb. unfold ms_scan_last_blocks_by_author. rewrite ms_digest_range_view by (done || lia). cbn [mbind outcome_bind].
  rewrite (author_refs_ext _ a _ (λ r, r <=? default U32_MAX before) (proj2 (ms_indexed s Hs))).
  2:{ intros r _. by rewrite (proj2 (N.leb_le 0 r)) by lia. }
  fold (latest_refs (ms_view s) a n (default U32_MAX before)). unfold ms_read_blocks, first_slice. cbn [try mbind outcome_bind].
  rewrite ms_zip_blocks_take.
  2:{ intros r Hr%elem_of_latest_refs. by eapply ms_author_refs_stored. }
  cbn [mbind outcome_bind]. do 2 f_equal. apply list_omap_ext, Forall2_same_length_lookup_2; [done|]. intros i x y ??. simplify_eq.
  symmetry. apply ms_view_get.
Qed.

(** The commits of a range of indices, whatever their digests. *)
Lemma commits_range lo hi (k : CommitIndex * CommitDigest) : k.2 <= DIGEST_MAX →
  above (Included (lo, DIGEST_MIN)) k && below (Included (hi, DIGEST_MAX)) k = (lo <=? k.1) && (k.1 <=? hi).
Proof.
  destruct k as [i d]. cbn [fst snd]. intros Hd. apply eq_true_iff_eq. rewrite !andb_true_iff, !N.leb_le.
  unfold above, below. rewrite !bool_decide_eq_true, !prod_key_le, !N_key_le. unfold DIGEST_MIN in *. lia.
Qed.

Lemma commit_bounds_ok (lo hi : N) : lo <= hi → bounds_ok (Included (lo, DIGEST_MIN)) (Included (hi, DIGEST_MAX)) = true.
Proof.
  intros Hlo. apply bool_decide_eq_true_2. rewrite prod_key_le, !N_key_le. destruct (decide (lo = hi)) as [->|]; [right|left]; by split.
Qed.

Lemma ms_scan_commits_view s rg : ms_ok s → range_start rg <= range_end rg → range_end rg <= U32_MAX →
  ms_scan_commits s rg =
  Ret (Ok (snd <$> btree_map_range (λ k, (range_start rg <=? k.1) && (k.1 <=? range_end rg)) (ms_commits s))).
Proof.
  intros Hs Hlo Hhi. unfold ms_scan_commits. rewrite map_range_ret by by apply commit_bounds_ok.
  cbn [mbind outcome_bind]. do 3 f_equal. unfold btree_map_range. apply filter_ext_elem.
  intros [k c] Hk%elem_of_btree_entries. destruct (ms_ok_commits _ Hs _ _ Hk) as [_ Hd]. cbn [fst]. by rewrite commits_range.
Qed.

Lemma ms_scan_commits_inverted s rg : range_end rg < range_start rg → ∃ why, ms_scan_commits s rg = Panic why.
Proof.
  intros Hlt. unfold ms_scan_commits, map_range. cbn [bounds_ok]. rewrite bool_decide_eq_false_2; [by eexists|].
  rewrite prod_key_le, !N_key_le. lia.
Qed.

Lemma ms_read_blocks_view s rs : ms_read_blocks s rs = Ret (Ok ((λ r, sv_blocks (ms_view s) !! r) <$> rs)).
Proof. unfold ms_read_blocks. do 2 f_equal. apply list_fmap_ext. intros i r _. symmetry. apply ms_view_get. Qed.

Lemma ms_contains_blocks_view s rs :
  ms_contains_blocks s rs = Ret (Ok ((λ r, bool_decide (r ∈ dom (sv_blocks (ms_view s)))) <$> rs)).
Proof.
  unfold ms_contains_blocks. do 2 f_equal. apply list_fmap_ext. intros i r _.
  apply bool_decide_ext. by rewrite elem_of_dom, ms_view_get.
Qed.

Lemma ms_keys_ok s r b : ms_ok s → sv_blocks (ms_view s) !! r = Some b → reference b = r ∧ ref_ok r.
Proof. intros Hs. rewrite ms_view_get. by apply ms_ok_keys. Qed.

Lemma ms_contains_slot_view s slot : ms_ok s → slot_authority slot <= U32_MAX → slot_round slot <= U32_MAX → ms_contains_block_at_slot s slot =
  Ret (Ok (bool_decide (author_refs (ms_view s) (slot_authority slot) (λ r, r =? slot_round slot) ≠ []))).
Proof.
  intros Hs _ _. unfold ms_contains_block_at_slot. rewrite ms_digest_range_view by (done || lia). cbn [mbind outcome_bind]. do 3 f_equal.
  by rewrite (author_refs_slot _ _ _ (proj2 (ms_indexed s Hs))).
Qed.

Lemma ref_below_MAX r : ref_ok r → key_le ref_MIN r ∧ key_le r ref_MAX.
Proof.
  destruct r as [r a d]. unfold ref_ok. cbn [ref_round ref_author ref_digest]. intros (Hr & Ha & Hd).
  change (ref_le ref_MIN (mk_ref r a d) ∧ ref_le (mk_ref r a d) ref_MAX).
  unfold ref_le, ref_MIN, ref_MAX, AuthorityIndex_ZERO, AuthorityIndex_MAX, DIGEST_MIN. cbn [ref_round ref_author ref_digest]. lia.
Qed.

(** The votes for a commit index, whatever their digests. *)
Lemma votes_range (i : CommitIndex) (k : CommitIndex * CommitDigest * BlockRef) : k.1.2 <= DIGEST_MAX → ref_ok k.2 →
  above (Included (i, DIGEST_MIN, ref_MIN)) k && below (Included (i, DIGEST_MAX, ref_MAX)) k = (k.1.1 =? i).
Proof.
  destruct k as [[j d] r]. cbn [fst snd]. intros Hd Hr. destruct (ref_below_MAX r Hr) as [Hlo Hhi].
  unfold above, below. destruct (N.eqb_spec j i) as [->|Hne].
  - apply andb_true_iff. split; apply bool_decide_eq_true; rewrite !prod_key_le, !N_key_le.
    + destruct (decide (DIGEST_MIN = d)) as [->|Hn]; [by right|left]. split; [right; split; [done|unfold DIGEST_MIN; lia]|congruence].
    + destruct (decide (d = DIGEST_MAX)) as [->|Hn]; [by right|left]. split; [by right|congruence].
  - apply andb_false_iff. destruct (N.lt_ge_cases j i) as [Hl|Hg]; [left|right]; apply bool_decide_eq_false; rewrite !prod_key_le, !N_key_le;
      intros [[[[? ?]|[? ?]] _]|[[= ? ?] _]]; lia.
Qed.

Lemma vote_bounds_ok (i : N) : bounds_ok (Included (i, DIGEST_MIN, ref_MIN)) (Included (i, DIGEST_MAX, ref_MAX)) = true.
Proof.
  apply bool_decide_eq_true. rewrite !prod_key_le, !N_key_le. left. split; [right; split; [done|vm_compute; congruence]|].
  intros Heq. discriminate Heq.
Qed.

Lemma ms_read_votes_view s i : ms_ok s → i <= U32_MAX →
  ms_read_commit_votes s i = Ret (Ok (snd <$> btree_range (λ k, k.1.1 =? i) (ms_commit_votes s))).
Proof.
  intros Hs Hi. unfold ms_read_commit_votes. rewrite set_range_ret by apply vote_bounds_ok.
  cbn [mbind outcome_bind]. do 3 f_equal. unfold btree_range. apply filter_ext_elem. intros k Hk%elem_of_btree_iter.
  destruct (ms_ok_votes _ Hs k Hk). by rewrite votes_range.
Qed.

#[export] Instance MemStore_laws : StoreLaws MemStore := {|
  store_accepts_block _ := True;
  store_accepts_commit _ := True;
  store_view := ms_view;
  store_ok := ms_ok;
  store_keys_ok := ms_keys_ok;
  store_write_view := ms_write_view;
  read_blocks_view s rs _ := ms_read_blocks_view s rs;
  store_contains_blocks_view s rs _ := ms_contains_blocks_view s rs;
  scan_blocks_by_author_view s a start Hs _ := ms_scan_blocks_view s a start Hs;
  scan_last_blocks_view := ms_scan_last_view;
  read_last_commit_view s _ := eq_refl;
  scan_commits_view := ms_scan_commits_view;
  read_last_commit_info_view s _ := eq_refl;
  scan_scoring_metrics_view s _ := eq_refl;
  contains_block_at_slot_view := ms_contains_slot_view;
  read_commit_votes_view := ms_read_votes_view;
|}.

#[export] Instance MemStore_blocks `{Crypto} : BlockCodec MemStore.
Proof. by split. Qed.

#[export] Instance MemStore_commits `{Crypto} `{CommitBcs} : CommitCodec MemStore.
Proof. by split. Qed.

Lemma mem_accepts b : store_accepts_block MemStore b.
Proof. done. Qed.

(** What is written is read back.  A write never fails; afterwards every
    written block is read under its reference, every other reference reads as
    before, and scanning an author from a round returns exactly that author's
    stored blocks from that round on, in increasing order of reference. *)
Theorem mem_store_reads_back (s : MemStore) (w : WriteBatch) :
  ms_ok s → batch_ok (λ _, True) (λ _, True) w → NoDup (reference <$> wb_blocks w) →
  ∃ s', store_write s w = Ret (Ok s') ∧ ms_ok s' ∧
    (∀ b, b ∈ wb_blocks w → read_blocks s' [reference b] = Ret (Ok [Some b])) ∧
    (∀ r, r ∉ reference <$> wb_blocks w → read_blocks s' [r] = read_blocks s [r]) ∧
    ∀ a start, start <= U32_MAX →
      ∃ bs, scan_blocks_by_author s' a start = Ret (Ok bs) ∧
        StronglySorted ref_le (reference <$> bs) ∧
        ∀ b : VerifiedBlock, b ∈ bs ↔ author b = a ∧ start <= round b ∧ read_blocks s' [reference b] = Ret (Ok [Some b]).
Proof.
  intros Hs Hw Hnd. destruct (ms_write_view s w Hs Hw) as (s' & Hwr & Hs' & Hv).
  exists s'. split; [done|]. split; [done|].
  assert (∀ (t : MemStore) r, read_blocks t [r] = Ret (Ok [sv_blocks (ms_view t) !! r])) as Hread
    by (intros t r; apply (ms_read_blocks_view t [r])).
  split_and!.
  - intros b Hb. rewrite Hread, Hv. simpl. by rewrite insert_blocks_lookup.
  - intros r Hr. rewrite !Hread, Hv. simpl. by rewrite insert_blocks_lookup_ne.
  - intros a start Hstart. eexists. split; [by apply ms_scan_blocks_view|].
    set (refs := author_refs _ _ _).
    assert (∀ r, r ∈ refs → ∃ b, sv_blocks (ms_view s') !! r = Some b ∧ reference b = r) as Hrefs.
    { intros r (_ & _ & [b Hb]%elem_of_dom)%elem_of_author_refs. exists b. split; [done|].
      by apply (ms_keys_ok s' r b Hs'). }
    split.
    + rewrite (omap_lookup_refs _ _ Hrefs).
      exact (btree_range_sorted (λ r, bool_decide (ref_author r = a) && (start <=? ref_round r)) _).
    + intros b. rewrite list_elem_of_omap, Hread. split.
      * intros (r & Hr & Hb). destruct (Hrefs r Hr) as (b' & Hb' & Href). simplify_eq.
        apply elem_of_author_refs in Hr as (? & Hr & _). split_and!; [done| |by rewrite Hb'].
        by apply Is_true_true, N.leb_le in Hr.
      * intros (<- & Hr & [= Hb]). exists (reference b). split; [|done]. apply elem_of_author_refs.
        split_and!; [done|by apply Is_true_true, N.leb_le|by apply elem_of_dom].
Qed.

Definition test_batch : WriteBatch :=
  mk_batch ((λ r, test_block r 1 (r + 20) 0 []) <$> [1; 2; 3; 4; 5]) [] [] [].

Lemma test_batch_ok : batch_ok (λ _, True) (λ _, True) test_batch.
Proof.
  split; [|set_solver..]. intros b Hb. simpl in Hb. unfold ref_ok, votes_ok.
  repeat (apply elem_of_cons in Hb as [->|Hb]; [split; [by vm_compute|split; [constructor|done]]|]). set_solver.
Qed.

Lemma mem_store_reads_back_witness : ∃ s', store_write MemStore_new test_batch = Ret (Ok s') ∧ ms_ok s'.
Proof.
  destruct (mem_store_reads_back MemStore_new test_batch ms_ok_new test_batch_ok) as (s' & Hw & Hs & _).
  - apply (bool_decide_unpack _). by vm_compute.
  - by exists s'.
Defined.

(** With five stored blocks, asking for the last five returns one: only the
    first slice of the wrapped-around ring buffer is read. *)
Example scan_last_blocks_truncated s' :
  store_write MemStore_new test_batch = Ret (Ok s') →
  scan_last_blocks_by_author s' 1 4 None = Ret (Ok ((λ r, test_block r 1 (r + 20) 0 []) <$> [2; 3; 4; 5])) ∧
  scan_last_blocks_by_author s' 1 5 None = Ret (Ok [test_block 1 1 21 0 []]).
Proof. intros [= <-]. by vm_compute. Qed.
