(* ===== verification/RocksStore.v ===== *)
(** * RocksStore: the persistent store

    Models [consensus/core/src/storage/rocksdb_store.rs] over the typed tables of
    [TypedStore] and shows that it satisfies the contract of [Store].  It keeps the
    bytes of blocks and commits, so it takes those that their bytes decode to. *)
From S2P Require Import Prelude TypedStore Committee Block Commit Error Store MemStore.
Local Open Scope N_scope.
Local Open Scope rust_scope.

(** The encodings of the keys (bincode) and of the values (bcs) of the tables. *)
Class StoreEncoding := {
  enc_block_key :: KeySer (Round * AuthorityIndex * BlockDigest);
  enc_commit_key :: KeySer (CommitIndex * CommitDigest);
  enc_vote_key :: KeySer (CommitIndex * CommitDigest * BlockRef);
  enc_authority :: KeySer AuthorityIndex;
  enc_bytes :: ValueBcs bytes;
  enc_unit :: ValueBcs unit;
  enc_info :: ValueBcs CommitInfo;
  enc_metrics :: ValueBcs StorageScoringMetrics;
}.

Record RocksDBStore (R : Type) := mk_rocks_store {
  rs_db : Database R;
  rs_blocks : DBMap (Round * AuthorityIndex * BlockDigest) bytes;
  rs_digests_by_authorities : DBMap (AuthorityIndex * Round * BlockDigest) unit;
  rs_commits : DBMap (CommitIndex * CommitDigest) bytes;
  rs_commit_votes : DBMap (CommitIndex * CommitDigest * BlockRef) unit;
  rs_commit_info : DBMap (CommitIndex * CommitDigest) CommitInfo;
  rs_scoring_metrics : DBMap AuthorityIndex StorageScoringMetrics;
}.
Arguments mk_rocks_store {R}.
Arguments rs_db {R}.
Arguments rs_blocks {R}.
Arguments rs_digests_by_authorities {R}.
Arguments rs_commits {R}.
Arguments rs_commit_votes {R}.
Arguments rs_commit_info {R}.
Arguments rs_scoring_metrics {R}.

Definition BLOCKS_CF : string := "blocks".
Definition DIGESTS_BY_AUTHORITIES_CF : string := "digests".
Definition COMMITS_CF : string := "commits".
Definition COMMIT_VOTES_CF : string := "commit_votes".
Definition COMMIT_INFO_CF : string := "commit_info".
Definition SCORING_METRICS_CF : string := "scoring_metrics".

Section store.
Context {R : Type} `{RocksDb R} `{StoreEncoding} `{Crypto} `{BcsDecode}.
Implicit Type s : RocksDBStore R.

(** The tables of an open database. *)
Definition store_of (db : Database R) : RocksDBStore R :=
  mk_rocks_store db (DBMap_reopen db (Some BLOCKS_CF)) (DBMap_reopen db (Some DIGESTS_BY_AUTHORITIES_CF))
    (DBMap_reopen db (Some COMMITS_CF)) (DBMap_reopen db (Some COMMIT_VOTES_CF))
    (DBMap_reopen db (Some COMMIT_INFO_CF)) (DBMap_reopen db (Some SCORING_METRICS_CF)).

(** [opened] is what opening the database files returned. *)
Definition RocksDBStore_new (opened : result (Database R) TypedStoreError) : outcome (RocksDBStore R) :=
  db ← unwrap opened "Cannot open database"; Ret (store_of db).

(** The [?] operator on a call that can panic. *)
Definition ok_then {A B E} (m : outcome (result A E)) (f : A → outcome (result B E)) : outcome (result B E) :=
  r ← m; match r with Ok a => f a | Err e => Ret (Err e) end.

(** [?] and [map_err(ConsensusError::RocksDBFailure)]. *)
Definition db_then {A B} (m : outcome (result A TypedStoreError)) (f : A → outcome (ConsensusResult B)) : outcome (ConsensusResult B) :=
  r ← m; match r with Ok a => f a | Err _ => Ret (Err RocksDBFailure) end.

(** ** Writing *)

Definition rs_write_block s (batch : DBBatch) (block : VerifiedBlock) : outcome (result DBBatch TypedStoreError) :=
  let r := reference block in
  ok_then (insert_batch (rs_db s) batch (rs_blocks s) [((ref_round r, ref_author r, ref_digest r), serialized block)]) (λ batch,
  ok_then (insert_batch (rs_db s) batch (rs_digests_by_authorities s) [((ref_author r, ref_round r, ref_digest r), tt)]) (λ batch,
  try_for_each (λ batch vote,
    insert_batch (rs_db s) batch (rs_commit_votes s) [((commit_ref_index vote, commit_ref_digest vote, r), tt)]) batch (commit_votes block))).

Definition rs_write_commit s (batch : DBBatch) (commit : TrustedCommit) : outcome (result DBBatch TypedStoreError) :=
  insert_batch (rs_db s) batch (rs_commits s) [((commit_index commit, commit_digest commit), commit_serialized commit)].

Definition rs_write_info s (batch : DBBatch) (x : CommitRef * CommitInfo) : outcome (result DBBatch TypedStoreError) :=
  insert_batch (rs_db s) batch (rs_commit_info s) [((commit_ref_index x.1, commit_ref_digest x.1), x.2)].

Definition rs_write_metrics s (batch : DBBatch) (x : AuthorityIndex * StorageScoringMetrics) : outcome (result DBBatch TypedStoreError) :=
  insert_batch (rs_db s) batch (rs_scoring_metrics s) [(x.1, x.2)].

Definition set_db s (db : Database R) : RocksDBStore R :=
  mk_rocks_store db (rs_blocks s) (rs_digests_by_authorities s) (rs_commits s) (rs_commit_votes s) (rs_commit_info s) (rs_scoring_metrics s).

Definition rs_write s (w : WriteBatch) : outcome (ConsensusResult (RocksDBStore R)) :=
  db_then (ok_then (try_for_each (rs_write_block s) (new_batch (rs_db s)) (wb_blocks w)) (λ batch,
           ok_then (try_for_each (rs_write_commit s) batch (wb_commits w)) (λ batch,
           ok_then (try_for_each (rs_write_info s) batch (wb_commit_info w)) (λ batch,
           try_for_each (rs_write_metrics s) batch (wb_scoring_metrics w))))) (λ batch,
  db_then (Ret (batch_write (rs_db s) batch)) (λ db, Ret (Ok (set_db s db)))).

(** ** Reading *)

(** The blocks that the bytes read for [refs] decode to. *)
Fixpoint decode_blocks (refs : list BlockRef) (serialized : list (option bytes)) : outcome (ConsensusResult (list (option VerifiedBlock))) :=
  match refs, serialized with
  | key :: refs, Some bs :: serialized =>
    match decode_signed_block bs with
    | None => Ret (Err MalformedBlock)
    | Some signed_block =>
      let block := new_verified signed_block bs in
      _ ← assert (bool_decide (key = reference block)) "assertion failed: key == block.reference()";
      ok_then (decode_blocks refs serialized) (λ blocks, Ret (Ok (Some block :: blocks)))
    end
  | _ :: refs, None :: serialized => ok_then (decode_blocks refs serialized) (λ blocks, Ret (Ok (None :: blocks)))
  | _, _ => Ret (Ok [])
  end.

Definition rs_read_blocks s (refs : list BlockRef) : outcome (ConsensusResult (list (option VerifiedBlock))) :=
  db_then (multi_get (rs_db s) (rs_blocks s) ((λ r, (ref_round r, ref_author r, ref_digest r)) <$> refs)) (decode_blocks refs).

Definition rs_contains_blocks s (refs : list BlockRef) : outcome (ConsensusResult (list bool)) :=
  db_then (multi_contains_keys (rs_db s) (rs_blocks s) ((λ r, (ref_round r, ref_author r, ref_digest r)) <$> refs))
    (λ exist, Ret (Ok exist)).

Definition rs_contains_block_at_slot s (slot : Slot) : outcome (ConsensusResult bool) :=
  items ← safe_range_iter (rs_db s) (rs_digests_by_authorities s)
            (Included (slot_authority slot, slot_round slot, DIGEST_MIN)) (Included (slot_authority slot, slot_round slot, DIGEST_MAX));
  Ret (Ok (match items : list (result (AuthorityIndex * Round * BlockDigest * unit) TypedStoreError) with [] => false | _ => true end)).

(** The blocks of [refs], which must all have been read. *)
Definition rs_scan_loaded s (refs read : list BlockRef) : outcome (ConsensusResult (list VerifiedBlock)) :=
  ok_then (rs_read_blocks s read) (λ results,
    blocks ← mapM (λ '((_, o) : BlockRef * option VerifiedBlock), expect o "Storage inconsistency: block not found!") (zip refs results);
    Ret (Ok blocks)).

Definition digest_refs (kvs : list (AuthorityIndex * Round * BlockDigest * unit)) : list BlockRef :=
  (λ '((author, round, digest), _), mk_ref round author digest) <$> kvs.

Definition rs_scan_blocks_by_author s (author : AuthorityIndex) (start_round : Round) : outcome (ConsensusResult (list VerifiedBlock)) :=
  items ← safe_range_iter (rs_db s) (rs_digests_by_authorities s)
            (Included (author, start_round, DIGEST_MIN)) (Included (author, U32_MAX, DIGEST_MAX));
  db_then (Ret (collect_results items)) (λ kvs, let refs := digest_refs kvs in rs_scan_loaded s refs refs).

Definition rs_scan_scoring_metrics s : outcome (ConsensusResult (list (AuthorityIndex * StorageScoringMetrics))) :=
  items ← safe_iter (rs_db s) (rs_scoring_metrics s);
  db_then (Ret (collect_results items)) (λ kvs, Ret (Ok kvs)).

Definition rs_scan_last_blocks_by_author s (author : AuthorityIndex) (num_of_rounds : N) (before_round : option Round)
    : outcome (ConsensusResult (list VerifiedBlock)) :=
  let before_round := default U32_MAX before_round in
  items ← reversed_safe_iter_with_bounds (rs_db s) (rs_digests_by_authorities s)
            (Some (author, 0, DIGEST_MIN)) (Some (author, before_round, DIGEST_MAX));
  db_then (Ret (collect_results (take (N.to_nat num_of_rounds) items))) (λ kvs,
    let refs := reverse (digest_refs kvs) in rs_scan_loaded s refs (first_slice refs)).

(** A stored commit, whose digest must be that of its key. *)
Definition decode_stored_commit (digest : CommitDigest) (serialized : bytes) : outcome (ConsensusResult TrustedCommit) :=
  match decode_commit serialized with
  | None => Ret (Err MalformedCommit)
  | Some c =>
    let commit := new_trusted c serialized in
    _ ← assert (commit_digest commit =? digest) "assertion failed: commit.digest() == digest";
    Ret (Ok commit)
  end.

Definition rs_read_last_commit s : outcome (ConsensusResult (option TrustedCommit)) :=
  items ← reversed_safe_iter_with_bounds (rs_db s) (rs_commits s) None None;
  match (items : list (result (CommitIndex * CommitDigest * bytes) TypedStoreError)) with
  | [] => Ret (Ok None)
  | Err _ :: _ => Ret (Err RocksDBFailure)
  | Ok ((_, digest), serialized) :: _ => ok_then (decode_stored_commit digest serialized) (λ commit, Ret (Ok (Some commit)))
  end.

Fixpoint decode_commits (items : list (result (CommitIndex * CommitDigest * bytes) TypedStoreError)) : outcome (ConsensusResult (list TrustedCommit)) :=
  match items with
  | [] => Ret (Ok [])
  | Err _ :: _ => Ret (Err RocksDBFailure)
  | Ok ((_, digest), serialized) :: items =>
    ok_then (decode_stored_commit digest serialized) (λ commit, ok_then (decode_commits items) (λ commits, Ret (Ok (commit :: commits))))
  end.

Definition rs_scan_commits s (range : CommitRange) : outcome (ConsensusResult (list TrustedCommit)) :=
  items ← safe_range_iter (rs_db s) (rs_commits s) (Included (range_start range, DIGEST_MIN)) (Included (range_end range, DIGEST_MAX));
  decode_commits items.

Definition rs_read_commit_votes s (i : CommitIndex) : outcome (ConsensusResult (list BlockRef)) :=
  items ← safe_range_iter (rs_db s) (rs_commit_votes s) (Included (i, DIGEST_MIN, ref_MIN)) (Included (i, DIGEST_MAX, ref_MAX));
  db_then (Ret (collect_results items)) (λ kvs, Ret (Ok ((λ kv : CommitIndex * CommitDigest * BlockRef * unit, kv.1.2) <$> kvs))).

Definition rs_read_last_commit_info s : outcome (ConsensusResult (option (CommitRef * CommitInfo))) :=
  items ← reversed_safe_iter_with_bounds (rs_db s) (rs_commit_info s) None None;
  match (items : list (result (CommitIndex * CommitDigest * CommitInfo) TypedStoreError)) with
  | [] => Ret (Ok None)
  | Err _ :: _ => Ret (Err RocksDBFailure)
  | Ok (key, info) :: _ => Ret (Ok (Some (mk_commit_ref key.1 key.2, info)))
  end.

#[export] Instance RocksDBStore_Store : Store (RocksDBStore R) := {|
  store_write := rs_write;
  read_blocks := rs_read_blocks;
  store_contains_blocks := rs_contains_blocks;
  contains_block_at_slot := rs_contains_block_at_slot;
  scan_blocks_by_author := rs_scan_blocks_by_author;
  scan_scoring_metrics := rs_scan_scoring_metrics;
  scan_last_blocks_by_author := rs_scan_last_blocks_by_author;
  read_last_commit := rs_read_last_commit;
  scan_commits := rs_scan_commits;
  read_commit_votes := rs_read_commit_votes;
  read_last_commit_info := rs_read_last_commit_info;
|}.
End store.

(** ** The laws of the encodings *)

Class StoreEncodingLaws `{StoreEncoding} := {
  enc_block_key_laws :: KeySerLaws (Round * AuthorityIndex * BlockDigest);
  enc_commit_key_laws :: KeySerLaws (CommitIndex * CommitDigest);
  enc_vote_key_laws :: KeySerLaws (CommitIndex * CommitDigest * BlockRef);
  enc_authority_laws :: KeySerLaws AuthorityIndex;
  enc_bytes_laws :: ValueBcsLaws bytes;
  enc_unit_laws :: ValueBcsLaws unit;
  enc_info_laws :: ValueBcsLaws CommitInfo;
  enc_metrics_laws :: ValueBcsLaws StorageScoringMetrics;
  (* keys whose integers fit their types *)
  enc_block_key_ok (a b c : N) : a <= U32_MAX → b <= U32_MAX → c <= DIGEST_MAX → key_ok (a, b, c);
  enc_commit_key_ok (i d : N) : i <= U32_MAX → d <= DIGEST_MAX → key_ok (i, d);
  enc_vote_key_ok (i d : N) (r : BlockRef) : i <= U32_MAX → d <= DIGEST_MAX →
    ref_round r <= U32_MAX → ref_author r <= U32_MAX → ref_digest r <= DIGEST_MAX → key_ok (i, d, r);
  enc_authority_ok (a : N) : a <= U32_MAX → key_ok a;
  (* bcs encodes every value of these types *)
  enc_bytes_ok (v : bytes) : value_ok v;
  enc_unit_ok (v : unit) : value_ok v;
  enc_info_ok (v : CommitInfo) : value_ok v;
  enc_metrics_ok (v : StorageScoringMetrics) : value_ok v;
}.

(** ** The typed contents of a table *)

Section typed_table.
Context {K V : Type} `{KeySerLaws K} `{ValueBcsLaws V}.

Definition decode_entry (e : bytes * bytes) : option (K * V) :=
  match key_deserialize e.1, bcs_from_bytes e.2 with Some k, Some v => Some (k, v) | _, _ => None end.

Definition decode_table (t : gmap bytes bytes) : gmap K V := list_to_map (omap decode_entry (map_to_list t)).

Lemma decode_table_encodes t (g : gmap K V) : encodes t g → decode_table t = g.
Proof.
  intros He. assert (∀ k v, (k, v) ∈ omap decode_entry (map_to_list t) ↔ g !! k = Some v) as Hin.
  { intros k v. rewrite list_elem_of_omap. split.
    - intros ([kb bs] & Hkb%elem_of_map_to_list & Hd). destruct (en_key _ _ He kb) as (k' & -> & [v' Hg]); [by eexists|].
      destruct (en_entry _ _ He k' v' Hg) as (Hk' & _). pose proof (encodes_lookup t g k' He) as Hl. rewrite Hg in Hl.
      destruct Hl as (bs' & Hbs & Hdec). unfold decode_entry in Hd. cbn [fst snd] in Hd. rewrite key_roundtrip in Hd by done. simplify_eq.
      rewrite Hdec in Hd. by simplify_eq.
    - intros Hg. destruct (en_entry _ _ He k v Hg) as (Hk & _). pose proof (encodes_lookup t g k He) as Hl. rewrite Hg in Hl.
      destruct Hl as (bs & Hbs & Hdec). exists (be_fix_int_ser k, bs). rewrite elem_of_map_to_list. split; [done|].
      unfold decode_entry. cbn [fst snd]. by rewrite key_roundtrip, Hdec. }
  apply map_eq. intros k. destruct (g !! k) as [v|] eqn:Hg.
  - apply elem_of_list_to_map_1'; [|by apply Hin]. intros v' Hv'%Hin. congruence.
  - apply not_elem_of_list_to_map_1. intros ([k' v'] & -> & Hv'%Hin)%list_elem_of_fmap. cbn in Hg. congruence.
Qed.
End typed_table.

Section table_of.
Context {R : Type} `{RocksDbLaws R} {K V : Type} `{KeySerLaws K} `{ValueBcsLaws V}.

Definition table_of (db : Database R) (m : DBMap K V) : gmap K V :=
  decode_table (default ∅ (raw_tables db !! cf_name (column_family K V m))).

Lemma cf_of_name (db : Database R) cf name : cf_of db cf name → cf_name cf = name.
Proof. intros [-> _]. by destruct (in_memory db). Qed.

Lemma table_holds_of db m g : table_holds db m g → table_of db m = g.
Proof.
  intros (_ & name & t & Hcf & Ht & He). unfold table_of. rewrite (cf_of_name _ _ _ Hcf), Ht. by apply decode_table_encodes.
Qed.
End table_of.

Lemma table_in_other {R K V : Type} `{RocksDbLaws R} `{KeySerLaws K} `{ValueBcsLaws V} (db : Database R) ts ts' (m : DBMap K V) g name :
  table_in db ts m g → cf_name (column_family K V m) ≠ name → only_changed name ts ts' → table_in db ts' m g.
Proof.
  intros (Hid & n & t & Hcf & Ht & He) Hne Ho. split; [done|]. exists n, t. split_and!; [done| |done].
  rewrite Ho; [done|]. rewrite <-(cf_of_name _ _ _ Hcf). done.
Qed.

(** ** The contents of the six tables *)

Record contents := mk_contents {
  tb_blocks : gmap (Round * AuthorityIndex * BlockDigest) bytes;
  tb_digests : gmap (AuthorityIndex * Round * BlockDigest) unit;
  tb_commits : gmap (CommitIndex * CommitDigest) bytes;
  tb_votes : gmap (CommitIndex * CommitDigest * BlockRef) unit;
  tb_infos : gmap (CommitIndex * CommitDigest) CommitInfo;
  tb_metrics : gmap AuthorityIndex StorageScoringMetrics;
}.

Definition add_block_row (c : contents) (b : VerifiedBlock) : contents :=
  let r := reference b in
  mk_contents (<[(ref_round r, ref_author r, ref_digest r) := serialized b]> (tb_blocks c))
    (<[(ref_author r, ref_round r, ref_digest r) := tt]> (tb_digests c)) (tb_commits c)
    (foldl (λ m v, <[(commit_ref_index v, commit_ref_digest v, r) := tt]> m) (tb_votes c) (commit_votes b)) (tb_infos c) (tb_metrics c).

Definition add_commit_row (c : contents) (x : TrustedCommit) : contents :=
  mk_contents (tb_blocks c) (tb_digests c) (<[(commit_index x, commit_digest x) := commit_serialized x]> (tb_commits c)) (tb_votes c) (tb_infos c) (tb_metrics c).

Definition add_info_row (c : contents) (x : CommitRef * CommitInfo) : contents :=
  mk_contents (tb_blocks c) (tb_digests c) (tb_commits c) (tb_votes c) (<[(commit_ref_index x.1, commit_ref_digest x.1) := x.2]> (tb_infos c)) (tb_metrics c).

Definition add_metrics_row (c : contents) (x : AuthorityIndex * StorageScoringMetrics) : contents :=
  mk_contents (tb_blocks c) (tb_digests c) (tb_commits c) (tb_votes c) (tb_infos c) (<[x.1 := x.2]> (tb_metrics c)).

Definition add_batch (c : contents) (w : WriteBatch) : contents :=
  foldl add_metrics_row (foldl add_info_row (foldl add_commit_row (foldl add_block_row c (wb_blocks w)) (wb_commits w)) (wb_commit_info w)) (wb_scoring_metrics w).

Section laws.
Context {R : Type} `{RocksDbLaws R} `{StoreEncodingLaws} `{Crypto} `{BcsDecode}.
Implicit Types (s : RocksDBStore R) (db : Database R) (c : contents).

Record tables_hold db (ts : gmap string (gmap bytes bytes)) c : Prop := {
  th_blocks : table_in db ts (rs_blocks (store_of db)) (tb_blocks c);
  th_digests : table_in db ts (rs_digests_by_authorities (store_of db)) (tb_digests c);
  th_commits : table_in db ts (rs_commits (store_of db)) (tb_commits c);
  th_votes : table_in db ts (rs_commit_votes (store_of db)) (tb_votes c);
  th_infos : table_in db ts (rs_commit_info (store_of db)) (tb_infos c);
  th_metrics : table_in db ts (rs_scoring_metrics (store_of db)) (tb_metrics c);
}.

Lemma reopen_name {K V} db name : cf_name (column_family K V (DBMap_reopen db (Some name))) = name.
Proof. unfold DBMap_reopen. cbn. by destruct (storage db). Qed.

Lemma table_in_cf {K V : Type} `{KeySerLaws K} `{ValueBcsLaws V} db ts (m : DBMap K V) g :
  table_in db ts m g → cf_of db (column_family K V m) (cf_name (column_family K V m)).
Proof. intros (_ & n & t & Hcf & _). by rewrite (cf_of_name _ _ _ Hcf). Qed.

Definition batch_holds db (batch : DBBatch) c : Prop := batch_of db batch ∧ tables_hold db (pending db batch) c.

(** Adding a row to one table. *)
Lemma put_row {K V : Type} `{KeySerLaws K} `{ValueBcsLaws V} db batch (m : DBMap K V) g k v : batch_of db batch →
  table_in db (pending db batch) m g → key_ok k → value_ok v →
  ∃ batch', insert_batch db batch m [(k, v)] = Ret (Ok batch') ∧ batch_of db batch' ∧
    table_in db (pending db batch') m (<[k := v]> g) ∧ only_changed (cf_name (column_family K V m)) (pending db batch) (pending db batch').
Proof.
  intros Hb Ht Hk Hv. destruct (insert_batch_ok db batch m g [(k, v)] Hb Ht) as (b' & Heq & Hb' & Ht' & Ho); [by repeat constructor|].
  exists b'. split_and!; [done..|]. apply Ho. by eapply table_in_cf.
Qed.

Ltac other_tables Hh Ho :=
  destruct Hh; split; try done; (eapply table_in_other; [eassumption| |exact Ho]); unfold store_of;
  cbn [rs_blocks rs_digests_by_authorities rs_commits rs_commit_votes rs_commit_info rs_scoring_metrics]; rewrite !reopen_name; done.

Lemma put_block db batch c k v : batch_holds db batch c → key_ok k →
  ∃ batch', insert_batch db batch (rs_blocks (store_of db)) [(k, v)] = Ret (Ok batch') ∧
    batch_holds db batch' (mk_contents (<[k := v]> (tb_blocks c)) (tb_digests c) (tb_commits c) (tb_votes c) (tb_infos c) (tb_metrics c)).
Proof.
  intros [Hb Hh] Hk. destruct (put_row db batch _ _ k v Hb (th_blocks _ _ _ Hh) Hk (enc_bytes_ok v)) as (b' & Heq & Hb' & Ht & Ho).
  exists b'. split; [done|]. split; [done|]. other_tables Hh Ho.
Qed.

Lemma put_digest db batch c k : batch_holds db batch c → key_ok k →
  ∃ batch', insert_batch db batch (rs_digests_by_authorities (store_of db)) [(k, tt)] = Ret (Ok batch') ∧
    batch_holds db batch' (mk_contents (tb_blocks c) (<[k := tt]> (tb_digests c)) (tb_commits c) (tb_votes c) (tb_infos c) (tb_metrics c)).
Proof.
  intros [Hb Hh] Hk. destruct (put_row db batch _ _ k tt Hb (th_digests _ _ _ Hh) Hk (enc_unit_ok tt)) as (b' & Heq & Hb' & Ht & Ho).
  exists b'. split; [done|]. split; [done|]. other_tables Hh Ho.
Qed.

Lemma put_commit db batch c k v : batch_holds db batch c → key_ok k →
  ∃ batch', insert_batch db batch (rs_commits (store_of db)) [(k, v)] = Ret (Ok batch') ∧
    batch_holds db batch' (mk_contents (tb_blocks c) (tb_digests c) (<[k := v]> (tb_commits c)) (tb_votes c) (tb_infos c) (tb_metrics c)).
Proof.
  intros [Hb Hh] Hk. destruct (put_row db batch _ _ k v Hb (th_commits _ _ _ Hh) Hk (enc_bytes_ok v)) as (b' & Heq & Hb' & Ht & Ho).
  exists b'. split; [done|]. split; [done|]. other_tables Hh Ho.
Qed.

Lemma put_vote db batch c k : batch_holds db batch c → key_ok k →
  ∃ batch', insert_batch db batch (rs_commit_votes (store_of db)) [(k, tt)] = Ret (Ok batch') ∧
    batch_holds db batch' (mk_contents (tb_blocks c) (tb_digests c) (tb_commits c) (<[k := tt]> (tb_votes c)) (tb_infos c) (tb_metrics c)).
Proof.
  intros [Hb Hh] Hk. destruct (put_row db batch _ _ k tt Hb (th_votes _ _ _ Hh) Hk (enc_unit_ok tt)) as (b' & Heq & Hb' & Ht & Ho).
  exists b'. split; [done|]. split; [done|]. other_tables Hh Ho.
Qed.

Lemma put_info db batch c k v : batch_holds db batch c → key_ok k →
  ∃ batch', insert_batch db batch (rs_commit_info (store_of db)) [(k, v)] = Ret (Ok batch') ∧
    batch_holds db batch' (mk_contents (tb_blocks c) (tb_digests c) (tb_commits c) (tb_votes c) (<[k := v]> (tb_infos c)) (tb_metrics c)).
Proof.
  intros [Hb Hh] Hk. destruct (put_row db batch _ _ k v Hb (th_infos _ _ _ Hh) Hk (enc_info_ok v)) as (b' & Heq & Hb' & Ht & Ho).
  exists b'. split; [done|]. split; [done|]. other_tables Hh Ho.
Qed.

Lemma put_metrics db batch c k v : batch_holds db batch c → key_ok k →
  ∃ batch', insert_batch db batch (rs_scoring_metrics (store_of db)) [(k, v)] = Ret (Ok batch') ∧
    batch_holds db batch' (mk_contents (tb_blocks c) (tb_digests c) (tb_commits c) (tb_votes c) (tb_infos c) (<[k := v]> (tb_metrics c))).
Proof.
  intros [Hb Hh] Hk. destruct (put_row db batch _ _ k v Hb (th_metrics _ _ _ Hh) Hk (enc_metrics_ok v)) as (b' & Heq & Hb' & Ht & Ho).
  exists b'. split; [done|]. split; [done|]. other_tables Hh Ho.
Qed.

Lemma try_for_each_ok {A B C} (P : B → C → Prop) (f : B → A → outcome (result B TypedStoreError)) (g : C → A → C) l :
  (∀ b (c : C) x, x ∈ l → P b c → ∃ b', f b x = Ret (Ok b') ∧ P b' (g c x)) →
  ∀ b (c : C), P b c → ∃ b', try_for_each f b l = Ret (Ok b') ∧ P b' (foldl g c l).
Proof.
  induction l as [|x l IH]; intros Hf b c Hp; cbn [try_for_each foldl]; [by exists b|].
  destruct (Hf b c x) as (b1 & -> & Hp1); [left|done|]. cbn [mbind outcome_bind]. apply IH; [|done]. intros b' c' x' Hx'. apply Hf. by right.
Qed.

Definition accepts_block (b : VerifiedBlock) : Prop :=
  decode_signed_block (serialized b) = Some (signed_block b) ∧ digest b = compute_digest (serialized b).

Definition accepts_commit (c : TrustedCommit) : Prop :=
  decode_commit (commit_serialized c) = Some (commit_inner c) ∧ commit_digest c = hash_function (commit_serialized c).

Definition add_vote_row (r : BlockRef) c (v : CommitVote) : contents :=
  mk_contents (tb_blocks c) (tb_digests c) (tb_commits c) (<[(commit_ref_index v, commit_ref_digest v, r) := tt]> (tb_votes c)) (tb_infos c) (tb_metrics c).

Lemma vote_rows r vs : ∀ c, foldl (add_vote_row r) c vs = mk_contents (tb_blocks c) (tb_digests c) (tb_commits c)
  (foldl (λ m v, <[(commit_ref_index v, commit_ref_digest v, r) := tt]> m) (tb_votes c) vs) (tb_infos c) (tb_metrics c).
Proof. induction vs as [|v vs IH]; intros c; cbn [foldl]; [by destruct c|]. by rewrite IH. Qed.

Lemma write_block_ok db batch c b : batch_holds db batch c → ref_ok (reference b) → votes_ok b →
  ∃ batch', rs_write_block (store_of db) batch b = Ret (Ok batch') ∧ batch_holds db batch' (add_block_row c b).
Proof.
  intros Hb (Hr & Ha & Hd) Hv. unfold rs_write_block. change (rs_db (store_of db)) with db.
  destruct (put_block db batch c (ref_round (reference b), ref_author (reference b), ref_digest (reference b)) (serialized b) Hb) as (b1 & -> & Hb1);
    [apply enc_block_key_ok; lia|]. cbn [ok_then mbind outcome_bind].
  destruct (put_digest db b1 _ (ref_author (reference b), ref_round (reference b), ref_digest (reference b)) Hb1) as (b2 & -> & Hb2);
    [apply enc_block_key_ok; lia|]. cbn [ok_then mbind outcome_bind]. cbn [tb_blocks tb_digests tb_commits tb_votes tb_infos tb_metrics] in Hb2.
  destruct (try_for_each_ok (batch_holds db) (λ batch vote, insert_batch db batch (rs_commit_votes (store_of db)) [((commit_ref_index vote, commit_ref_digest vote, reference b), tt)])
    (add_vote_row (reference b)) (commit_votes b)) with b2 (mk_contents (<[(ref_round (reference b), ref_author (reference b), ref_digest (reference b)) := serialized b]> (tb_blocks c))
      (<[(ref_author (reference b), ref_round (reference b), ref_digest (reference b)) := tt]> (tb_digests c)) (tb_commits c) (tb_votes c) (tb_infos c) (tb_metrics c))
    as (b3 & Heq & Hb3); [|done|].
  - intros b' c' v Hin Hb'. unfold votes_ok in Hv. rewrite Forall_forall in Hv. destruct (Hv v Hin). apply put_vote; [done|]. apply enc_vote_key_ok; lia || done.
  - exists b3. split; [exact Heq|]. by rewrite vote_rows in Hb3.
Qed.

Lemma reopen_same {K V} db db' o : db_id db' = db_id db → in_memory db' = in_memory db → DBMap_reopen (K := K) (V := V) db' o = DBMap_reopen db o.
Proof. unfold DBMap_reopen, in_memory. intros ->. by destruct (storage db), (storage db'). Qed.

Lemma table_in_same {K V : Type} `{KeySerLaws K} `{ValueBcsLaws V} db db' ts (m m' : DBMap K V) g : db_id db' = db_id db → in_memory db' = in_memory db →
  (∀ n, is_Some (raw_tables db' !! n) ↔ is_Some (raw_tables db !! n)) → m' = m → table_in db ts m g → table_in db' ts m' g.
Proof. intros Hi Hm Hs -> (Hid & n & t & Hcf & Ht & He). split; [congruence|]. exists n, t. split_and!; [by eapply cf_of_same|done|done]. Qed.

Lemma tables_hold_same db db' ts c : db_id db' = db_id db → in_memory db' = in_memory db →
  (∀ n, is_Some (raw_tables db' !! n) ↔ is_Some (raw_tables db !! n)) → tables_hold db ts c → tables_hold db' ts c.
Proof. intros Hi Hm Hs [? ? ? ? ? ?]. split; (eapply (table_in_same db); [done|done|done|by apply reopen_same|done]). Qed.

Lemma rs_write_ok db c w : tables_hold db (raw_tables db) c → batch_ok accepts_block accepts_commit w →
  ∃ db', rs_write (store_of db) w = Ret (Ok (set_db (store_of db) db')) ∧ tables_hold db' (raw_tables db') (add_batch c w) ∧
    in_memory db' = in_memory db ∧ db_id db' = db_id db.
Proof.
  intros Hh [Hbl Hcm Hin Hme]. unfold rs_write. change (rs_db (store_of db)) with db. destruct (new_batch_of db) as [Hnb Hp].
  assert (batch_holds db (new_batch db) c) as H0b by (split; [done|by rewrite Hp]).
  destruct (try_for_each_ok (batch_holds db) (rs_write_block (store_of db)) add_block_row (wb_blocks w)) with (new_batch db) c as (b1 & -> & Hb1); [|done|].
  { intros b' c' b Hb Hb'. destruct (Hbl b Hb) as (? & ? & _). by apply write_block_ok. }
  cbn [ok_then mbind outcome_bind].
  destruct (try_for_each_ok (batch_holds db) (rs_write_commit (store_of db)) add_commit_row (wb_commits w)) with b1 (foldl add_block_row c (wb_blocks w)) as (b2 & -> & Hb2); [|done|].
  { intros b' c' x Hx Hb'. destruct (Hcm x Hx) as [[? ?] _]. apply put_commit; [done|]. by apply enc_commit_key_ok. }
  cbn [ok_then mbind outcome_bind].
  destruct (try_for_each_ok (batch_holds db) (rs_write_info (store_of db)) add_info_row (wb_commit_info w)) with b2
    (foldl add_commit_row (foldl add_block_row c (wb_blocks w)) (wb_commits w)) as (b3 & -> & Hb3); [|done|].
  { intros b' c' [r i] Hx Hb'. destruct (Hin r i Hx). apply put_info; [done|]. by apply enc_commit_key_ok. }
  cbn [ok_then mbind outcome_bind].
  destruct (try_for_each_ok (batch_holds db) (rs_write_metrics (store_of db)) add_metrics_row (wb_scoring_metrics w)) with b3
    (foldl add_info_row (foldl add_commit_row (foldl add_block_row c (wb_blocks w)) (wb_commits w)) (wb_commit_info w)) as (b4 & -> & [Hb4 Hh4]); [|done|].
  { intros b' c' [a x] Hx Hb'. apply put_metrics; [done|]. by eapply enc_authority_ok, Hme. }
  cbn [db_then mbind outcome_bind]. destruct (batch_write_ok db b4 Hb4) as (db' & -> & Hr & Hm & Hi). cbn [db_then mbind outcome_bind]. exists db'. split_and!; [done| |done|done].
  eapply tables_hold_same; [done|done| |]; rewrite Hr; [apply pending_is_Some|exact Hh4].
Qed.

(** ** The view *)

Definition block_of (bs : bytes) : option VerifiedBlock := (λ b, new_verified b bs) <$> decode_signed_block bs.
Definition commit_of (bs : bytes) : option TrustedCommit := (λ x, new_trusted x bs) <$> decode_commit bs.

Definition view_of c : StoreView :=
  mk_view (kmap key_ref (omap block_of (tb_blocks c))) (omap commit_of (tb_commits c)) (dom (tb_votes c)) (tb_infos c) (tb_metrics c).

Record contents_ok c : Prop := {
  ko_digests k : is_Some (tb_digests c !! k) ↔ is_Some (tb_blocks c !! (k.1.2, k.1.1, k.2));
  ko_blocks k bs : tb_blocks c !! k = Some bs → ∃ b, block_of bs = Some b ∧ reference b = key_ref k ∧ ref_ok (key_ref k);
  ko_commits k bs : tb_commits c !! k = Some bs → ∃ x, commit_of bs = Some x ∧ commit_digest x = k.2 ∧ k.1 <= U32_MAX ∧ k.2 <= DIGEST_MAX;
  ko_votes k : is_Some (tb_votes c !! k) → k.1.2 <= DIGEST_MAX ∧ ref_ok k.2;
}.

#[local] Instance key_ref_inj' : Inj (=) (=) key_ref.
Proof. intros [[??]?] [[??]?]. unfold key_ref. naive_solver. Qed.

Lemma accepted_block_of b : accepts_block b → block_of (serialized b) = Some b.
Proof. intros [Hd Hg]. unfold block_of. rewrite Hd. cbn. unfold new_verified. rewrite <-Hg. by destruct b. Qed.

Lemma accepted_commit_of x : accepts_commit x → commit_of (commit_serialized x) = Some x.
Proof. intros [Hd Hg]. unfold commit_of. rewrite Hd. cbn. unfold new_trusted. rewrite <-Hg. by destruct x. Qed.

Lemma votes_dom r vs : ∀ m : gmap (CommitIndex * CommitDigest * BlockRef) unit,
  dom (foldl (λ m v, <[(commit_ref_index v, commit_ref_digest v, r) := tt]> m) m vs) =
  foldl (λ m v, {[(commit_ref_index v, commit_ref_digest v, r)]} ∪ m) (dom m) vs.
Proof. induction vs as [|v vs IH]; intros m; cbn [foldl]; [done|]. by rewrite IH, dom_insert_L. Qed.

Lemma add_block_view c b : accepts_block b → view_of (add_block_row c b) =
  mk_view (insert_blocks [b] (sv_blocks (view_of c))) (sv_commits (view_of c)) (insert_votes [b] (sv_commit_votes (view_of c)))
    (sv_commit_info (view_of c)) (sv_metrics (view_of c)).
Proof.
  intros Hb. unfold view_of. cbn [add_block_row tb_blocks tb_commits tb_votes tb_infos tb_metrics sv_blocks sv_commits sv_commit_votes sv_commit_info sv_metrics].
  f_equal; [|by rewrite votes_dom]. rewrite (omap_insert_Some _ _ _ _ b (accepted_block_of b Hb)). by rewrite (kmap_insert key_ref).
Qed.

Lemma add_block_ok c b : contents_ok c → accepts_block b → ref_ok (reference b) → votes_ok b → contents_ok (add_block_row c b).
Proof.
  intros [Hd Hk Hc Hv] Hb Href Hvb. split; cbn [add_block_row tb_blocks tb_digests tb_commits tb_votes].
  - intros [[a r] d]. cbn [fst snd]. rewrite !lookup_insert_is_Some. specialize (Hd (a, r, d)). cbn [fst snd] in Hd. rewrite Hd.
    destruct (decide (reference b = mk_ref r a d)) as [Heq|Hne].
    + rewrite Heq. cbn. split; by left.
    + destruct (reference b) as [r' a' d']. cbn. assert ((a', r', d') ≠ (a, r, d) ∧ (r', a', d') ≠ (r, a, d)) by (split; congruence). tauto.
  - intros k bs. rewrite lookup_insert_Some. intros [[<- <-]|[_ Hl]]; [|by apply Hk]. exists b. rewrite accepted_block_of by done.
    by destruct (reference b) eqn:Hr.
  - done.
  - intros k. rewrite <-elem_of_dom, votes_dom. intros [Hin%elem_of_dom|(v & Hin & ->)]%elem_of_block_votes; [by apply Hv|].
    unfold votes_ok in Hvb. rewrite Forall_forall in Hvb. by destruct (Hvb v Hin).
Qed.

Lemma add_blocks_view bs : ∀ c, contents_ok c → (∀ b, b ∈ bs → ref_ok (reference b) ∧ votes_ok b ∧ accepts_block b) →
  contents_ok (foldl add_block_row c bs) ∧
  view_of (foldl add_block_row c bs) =
    mk_view (insert_blocks bs (sv_blocks (view_of c))) (sv_commits (view_of c)) (insert_votes bs (sv_commit_votes (view_of c)))
      (sv_commit_info (view_of c)) (sv_metrics (view_of c)).
Proof.
  induction bs as [|b bs IH]; intros c Hc Hbs; [done|]. cbn [foldl]. destruct (Hbs b) as (Hr & Hv & Ha); [left|].
  destruct (IH (add_block_row c b)) as [Hok Hview]; [by apply add_block_ok|intros b' Hb'; apply Hbs; by right|].
  split; [done|]. by rewrite Hview, add_block_view.
Qed.

Lemma add_commits_view xs : ∀ c, contents_ok c →
  (∀ x : TrustedCommit, x ∈ xs → (commit_index x <= U32_MAX ∧ commit_digest x <= DIGEST_MAX) ∧ accepts_commit x) →
  contents_ok (foldl add_commit_row c xs) ∧
  view_of (foldl add_commit_row c xs) =
    mk_view (sv_blocks (view_of c)) (insert_commits xs (sv_commits (view_of c))) (sv_commit_votes (view_of c))
      (sv_commit_info (view_of c)) (sv_metrics (view_of c)).
Proof.
  induction xs as [|x xs IH]; intros c Hc Hxs; [done|]. cbn [foldl]. destruct (Hxs x) as [Hw Ha]; [left|].
  destruct (IH (add_commit_row c x)) as [Hok Hview]; [|intros x' Hx'; apply Hxs; by right|].
  - destruct Hc as [Hd Hk Hcm Hv]. split; try done. cbn [add_commit_row tb_commits]. intros k bs. rewrite lookup_insert_Some.
    intros [[<- <-]|[_ Hl]]; [|by apply Hcm]. exists x. by rewrite accepted_commit_of.
  - split; [done|]. rewrite Hview. unfold view_of. cbn [add_commit_row tb_blocks tb_commits tb_votes tb_infos tb_metrics sv_blocks sv_commits sv_commit_votes sv_commit_info sv_metrics].
    by rewrite (omap_insert_Some _ _ _ _ x (accepted_commit_of x Ha)).
Qed.

Lemma add_infos_view xs : ∀ c, contents_ok c → contents_ok (foldl add_info_row c xs) ∧
  view_of (foldl add_info_row c xs) =
    mk_view (sv_blocks (view_of c)) (sv_commits (view_of c)) (sv_commit_votes (view_of c)) (insert_infos xs (sv_commit_info (view_of c))) (sv_metrics (view_of c)).
Proof.
  induction xs as [|[r i] xs IH]; intros c Hc; [done|]. cbn [foldl]. destruct (IH (add_info_row c (r, i))) as [Hok Hview]; [by destruct Hc; split|].
  split; [done|]. by rewrite Hview.
Qed.

Lemma add_metrics_view xs : ∀ c, contents_ok c → contents_ok (foldl add_metrics_row c xs) ∧
  view_of (foldl add_metrics_row c xs) =
    mk_view (sv_blocks (view_of c)) (sv_commits (view_of c)) (sv_commit_votes (view_of c)) (sv_commit_info (view_of c)) (insert_metrics xs (sv_metrics (view_of c))).
Proof.
  induction xs as [|[a x] xs IH]; intros c Hc; [done|]. cbn [foldl]. destruct (IH (add_metrics_row c (a, x))) as [Hok Hview]; [by destruct Hc; split|].
  split; [done|]. by rewrite Hview.
Qed.

Lemma add_batch_view c w : contents_ok c → batch_ok accepts_block accepts_commit w → contents_ok (add_batch c w) ∧ view_of (add_batch c w) = view_write (view_of c) w.
Proof.
  intros Hc [Hb Hcm _ _]. unfold add_batch. destruct (add_blocks_view (wb_blocks w) c Hc Hb) as [H1' V1'].
  destruct (add_commits_view (wb_commits w) _ H1' Hcm) as [H2' V2']. destruct (add_infos_view (wb_commit_info w) _ H2') as [H3' V3'].
  destruct (add_metrics_view (wb_scoring_metrics w) _ H3') as [H4' V4']. split; [done|]. by rewrite V4', V3', V2', V1'.
Qed.

(** ** Reading *)

Lemma view_get c r : sv_blocks (view_of c) !! r = tb_blocks c !! (ref_round r, ref_author r, ref_digest r) ≫= block_of.
Proof. destruct r as [r a d]. cbn [view_of sv_blocks ref_round ref_author ref_digest]. rewrite <-lookup_omap. apply (lookup_kmap key_ref _ (r, a, d)). Qed.

Lemma view_dom c r : contents_ok c → r ∈ dom (sv_blocks (view_of c)) ↔ is_Some (tb_blocks c !! (ref_round r, ref_author r, ref_digest r)).
Proof.
  intros Hc. rewrite elem_of_dom, view_get. destruct (tb_blocks c !! _) as [bs|] eqn:Hb; cbn; [|by split; intros []].
  destruct (ko_blocks _ Hc _ _ Hb) as (b & -> & _). split; by eexists.
Qed.

Lemma view_keys c r b : contents_ok c → sv_blocks (view_of c) !! r = Some b → reference b = r ∧ ref_ok r.
Proof.
  intros Hc. rewrite view_get. intros (bs & Hb & Hd)%bind_Some. destruct (ko_blocks _ Hc _ _ Hb) as (b' & Hd' & Hr & Hok).
  simplify_eq. by destruct r.
Qed.

Lemma view_indexed c : contents_ok c → indexed (view_of c) (dom (tb_digests c)).
Proof.
  intros Hc. split.
  - intros [[a r] d]. by rewrite view_dom, elem_of_dom, (ko_digests _ Hc).
  - intros r [b Hb]%elem_of_dom. by apply (view_keys c r b).
Qed.

Section reads.
Context db c (Hh : tables_hold db (raw_tables db) c) (Hc : contents_ok c).

Lemma decode_blocks_ok refs : decode_blocks refs ((λ r, tb_blocks c !! (ref_round r, ref_author r, ref_digest r)) <$> refs) =
  Ret (Ok ((λ r, sv_blocks (view_of c) !! r) <$> refs)).
Proof.
  induction refs as [|r refs IH]; [done|]. rewrite !fmap_cons. cbn [decode_blocks]. rewrite view_get.
  destruct (tb_blocks c !! (ref_round r, ref_author r, ref_digest r)) as [bs|] eqn:Hb; [|rewrite IH; done].
  destruct (ko_blocks _ Hc _ _ Hb) as (b & Hd & Hr & _). cbn [mbind option_bind]. rewrite Hd. unfold block_of in Hd.
  destruct (decode_signed_block bs) as [sb|]; [|done]. cbn in Hd. injection Hd as <-.
  rewrite bool_decide_eq_true_2 by (rewrite Hr; by destruct r). cbn [assert mbind outcome_bind]. rewrite IH. done.
Qed.

Lemma rs_read_blocks_ok refs : rs_read_blocks (store_of db) refs = Ret (Ok ((λ r, sv_blocks (view_of c) !! r) <$> refs)).
Proof.
  unfold rs_read_blocks. change (rs_db (store_of db)) with db. rewrite (proj1 (multi_get_ok _ _ _ _ (th_blocks _ _ _ Hh))).
  rewrite <-list_fmap_compose. apply decode_blocks_ok.
Qed.

Lemma rs_contains_blocks_ok refs : rs_contains_blocks (store_of db) refs = Ret (Ok ((λ r, bool_decide (r ∈ dom (sv_blocks (view_of c)))) <$> refs)).
Proof.
  unfold rs_contains_blocks. change (rs_db (store_of db)) with db. rewrite (proj2 (multi_get_ok _ _ _ _ (th_blocks _ _ _ Hh))).
  cbn [db_then mbind outcome_bind]. rewrite <-list_fmap_compose. do 2 f_equal. apply list_fmap_ext. intros i r _. apply bool_decide_ext. by rewrite view_dom.
Qed.

Lemma digest_range_ok a lo hi : a <= U32_MAX → lo <= U32_MAX → hi <= U32_MAX → lo <= hi →
  range_ok db (Included (a, lo, DIGEST_MIN)) (Included (a, hi, DIGEST_MAX)).
Proof.
  intros Ha Hlo Hhi Hle. split_and!; [by apply enc_block_key_ok|by apply enc_block_key_ok|done|]. intros _. by apply digest_bounds_ok.
Qed.

(** The references of an author, read from the digest index. *)
Lemma digest_refs_ok a lo hi : digest_refs (btree_map_range (λ k, above (Included (a, lo, DIGEST_MIN)) k && below (Included (a, hi, DIGEST_MAX)) k) (tb_digests c)) =
  author_refs (view_of c) a (λ r, (lo <=? r) && (r <=? hi)).
Proof.
  rewrite <-(digest_range_refs _ _ a lo hi (view_indexed c Hc)), <-btree_map_range_fst, <-list_fmap_compose.
  apply list_fmap_ext. by intros i [[[? ?] ?] ?] _.
Qed.

Lemma rs_contains_slot_ok slot : slot_authority slot <= U32_MAX → slot_round slot <= U32_MAX →
  rs_contains_block_at_slot (store_of db) slot =
    Ret (Ok (bool_decide (author_refs (view_of c) (slot_authority slot) (λ r, r =? slot_round slot) ≠ []))).
Proof.
  intros Ha Hr. unfold rs_contains_block_at_slot. change (rs_db (store_of db)) with db.
  rewrite (safe_range_iter_ok _ _ _ _ _ (th_digests _ _ _ Hh)) by by apply digest_range_ok. cbn [mbind outcome_bind].
  rewrite <-(author_refs_slot _ _ _ (proj2 (view_indexed c Hc))), <-digest_refs_ok. by destruct (btree_map_range _ (tb_digests c)).
Qed.

Lemma scan_loaded_take refs n : (∀ r, r ∈ refs → r ∈ dom (sv_blocks (view_of c))) →
  rs_scan_loaded (store_of db) refs (take n refs) = Ret (Ok (omap (λ r, sv_blocks (view_of c) !! r) (take n refs))).
Proof.
  intros Hin. unfold rs_scan_loaded. rewrite rs_read_blocks_ok. cbn [ok_then mbind outcome_bind].
  rewrite (proj2 (mapM_ret_Forall2 _ _ (omap (λ r, sv_blocks (view_of c) !! r) (take n refs)))); [done|].
  set (m := sv_blocks (view_of c)) in *. clearbody m. revert n.
  induction refs as [|r refs IH]; intros n; [destruct n; constructor|]. destruct n as [|n]; [constructor|]. csimpl.
  assert (r ∈ dom m) as [b ->]%elem_of_dom by (apply Hin; left). constructor; [done|]. apply IH. set_solver.
Qed.

Lemma author_refs_stored a P r : r ∈ author_refs (view_of c) a P → r ∈ dom (sv_blocks (view_of c)).
Proof. by intros (_ & _ & ?)%elem_of_author_refs. Qed.

Lemma rs_scan_blocks_ok a start : a <= U32_MAX → start <= U32_MAX → rs_scan_blocks_by_author (store_of db) a start =
  Ret (Ok (omap (λ r, sv_blocks (view_of c) !! r) (author_refs (view_of c) a (λ r, start <=? r)))).
Proof.
  intros Ha Hs. unfold rs_scan_blocks_by_author. change (rs_db (store_of db)) with db.
  rewrite (safe_range_iter_ok _ _ _ _ _ (th_digests _ _ _ Hh)) by (by apply digest_range_ok). cbn [mbind outcome_bind].
  rewrite (collect_results_Ok id), list_fmap_id. cbn [db_then mbind outcome_bind]. rewrite digest_refs_ok.
  rewrite (author_refs_ext _ a _ (λ r, start <=? r) (proj2 (view_indexed c Hc))).
  - set (refs := author_refs _ _ _). rewrite <-(take_ge refs (length refs)) at 2 3 by done. apply scan_loaded_take. intros r. apply author_refs_stored.
  - intros r Hr. rewrite (proj2 (N.leb_le r U32_MAX)) by done. apply andb_true_r.
Qed.

Lemma rs_scan_last_ok a n before : a <= U32_MAX → default U32_MAX before <= U32_MAX → rs_scan_last_blocks_by_author (store_of db) a n before =
  Ret (Ok (omap (λ r, sv_blocks (view_of c) !! r) (first_slice (latest_refs (view_of c) a n (default U32_MAX before))))).
Proof.
  intros Ha Hb. unfold rs_scan_last_blocks_by_author. change (rs_db (store_of db)) with db.
  rewrite (reversed_ok _ _ _ _ _ (th_digests _ _ _ Hh)) by (apply digest_range_ok; done || lia). cbn [mbind outcome_bind from_option].
  rewrite <-fmap_take, (collect_results_Ok id), list_fmap_id. cbn [db_then mbind outcome_bind]. unfold digest_refs. rewrite fmap_take, fmap_reverse.
  pose proof (digest_refs_ok a 0 (default U32_MAX before)) as Hr. unfold digest_refs in Hr. rewrite Hr.
  rewrite (author_refs_ext _ a _ (λ r, r <=? default U32_MAX before) (proj2 (view_indexed c Hc))).
  2:{ intros r _. by rewrite (proj2 (N.leb_le 0 r)) by lia. }
  apply scan_loaded_take. intros r Hl%elem_of_latest_refs. by eapply author_refs_stored.
Qed.

Lemma decode_stored_commit_ok k bs : tb_commits c !! k = Some bs → ∃ x, commit_of bs = Some x ∧ decode_stored_commit k.2 bs = Ret (Ok x).
Proof.
  intros Hk. destruct (ko_commits _ Hc _ _ Hk) as (x & Hx & Hd & _). exists x. split; [done|]. unfold commit_of in Hx. unfold decode_stored_commit.
  destruct (decode_commit bs) as [y|]; [|done]. cbn in Hx. injection Hx as <-. rewrite Hd, N.eqb_refl. done.
Qed.

Lemma commit_of_Some k bs : tb_commits c !! k = Some bs → is_Some (commit_of bs).
Proof. intros (x & Hx & _)%decode_stored_commit_ok. by exists x. Qed.

Lemma decode_commits_ok l : (∀ k bs, (k, bs) ∈ l → tb_commits c !! k = Some bs) →
  decode_commits (Ok <$> l) = Ret (Ok (omap (λ kv, commit_of kv.2) l)).
Proof.
  induction l as [|[[i d] bs] l IH]; intros Hl; [done|]. rewrite fmap_cons. cbn [decode_commits].
  destruct (decode_stored_commit_ok (i, d) bs) as (x & Hx & Hd); [apply Hl; left|]. cbn [snd] in Hd. rewrite Hd. cbn [ok_then mbind outcome_bind].
  rewrite IH by (intros k bs' Hk; apply Hl; by right). csimpl. by rewrite Hx.
Qed.

Lemma rs_scan_commits_ok rg : in_memory db = false → range_start rg <= U32_MAX → range_end rg <= U32_MAX → rs_scan_commits (store_of db) rg =
  Ret (Ok (snd <$> btree_map_range (λ k, (range_start rg <=? k.1) && (k.1 <=? range_end rg)) (sv_commits (view_of c)))).
Proof.
  intros Hm Hlo Hhi. unfold rs_scan_commits. change (rs_db (store_of db)) with db.
  pose proof (safe_range_iter_total db _ _ (Included (range_start rg, DIGEST_MIN)) (Included (range_end rg, DIGEST_MAX)) (th_commits _ _ _ Hh)) as Hr.
  rewrite Hm in Hr. cbn [andb reached] in Hr. rewrite Hr by by apply enc_commit_key_ok.
  cbn [mbind outcome_bind]. rewrite decode_commits_ok by (intros k bs Hk; by apply elem_of_btree_map_range in Hk as [_ ?]). do 2 f_equal.
  cbn [view_of sv_commits]. rewrite btree_map_range_omap by apply commit_of_Some. f_equal. unfold btree_map_range. apply filter_ext_elem.
  intros [k bs] Hk%elem_of_btree_entries. destruct (ko_commits _ Hc _ _ Hk) as (_ & _ & _ & _ & Hd). cbn [fst]. by rewrite commits_range.
Qed.

(** The first item of the reversed iteration is the last entry. *)
Lemma reversed_last {K V : Type} `{KeySerLaws K} `{ValueBcsLaws V} (m : DBMap K V) g : table_holds db m g →
  ∃ l, reversed_safe_iter_with_bounds db m None None = Ret l ∧ head l = Ok <$> last (btree_entries g).
Proof.
  intros Ht. eexists. split; [by apply (reversed_ok _ _ _ None None Ht)|]. rewrite btree_map_range_all by done.
  destruct (btree_entries g) as [|x l _] using rev_ind; [done|]. by rewrite reverse_snoc, last_snoc.
Qed.

Lemma rs_read_last_commit_ok : rs_read_last_commit (store_of db) = Ret (Ok (snd <$> last (btree_entries (sv_commits (view_of c))))).
Proof.
  unfold rs_read_last_commit. change (rs_db (store_of db)) with db. destruct (reversed_last _ _ (th_commits _ _ _ Hh)) as (l & -> & Hl).
  cbn [mbind outcome_bind]. cbn [view_of sv_commits]. rewrite btree_entries_omap by apply commit_of_Some.
  destruct (last (btree_entries (tb_commits c))) as [[[i d] bs]|] eqn:Hlast; destruct l as [|x l]; try done; cbn in Hl; simplify_eq.
  - pose proof (last_Some_elem_of _ _ Hlast) as Hin%elem_of_btree_entries. destruct (decode_stored_commit_ok _ _ Hin) as (x & Hx & Hd).
    cbn [snd] in Hd. rewrite Hd. cbn [ok_then mbind outcome_bind]. apply last_Some in Hlast as [l' ->]. rewrite omap_app. csimpl. rewrite Hx. csimpl.
    by rewrite last_snoc.
  - apply last_None in Hlast. by rewrite Hlast.
Qed.

Lemma rs_read_last_info_ok : rs_read_last_commit_info (store_of db) =
  Ret (Ok ((λ '(k, i), (mk_commit_ref k.1 k.2, i)) <$> last (btree_entries (sv_commit_info (view_of c))))).
Proof.
  unfold rs_read_last_commit_info. change (rs_db (store_of db)) with db. destruct (reversed_last _ _ (th_infos _ _ _ Hh)) as (l & -> & Hl).
  cbn [mbind outcome_bind view_of sv_commit_info]. destruct (last (btree_entries (tb_infos c))) as [[k i]|]; destruct l as [|x l]; try done; cbn in Hl; by simplify_eq.
Qed.

Lemma rs_scan_metrics_ok : rs_scan_scoring_metrics (store_of db) = Ret (Ok (btree_entries (sv_metrics (view_of c)))).
Proof.
  unfold rs_scan_scoring_metrics. change (rs_db (store_of db)) with db. rewrite (safe_iter_ok _ _ _ (th_metrics _ _ _ Hh)).
  cbn [mbind outcome_bind]. by rewrite (collect_results_Ok id), list_fmap_id.
Qed.

Lemma rs_read_votes_ok i : i <= U32_MAX → rs_read_commit_votes (store_of db) i =
  Ret (Ok (snd <$> btree_range (λ k, k.1.1 =? i) (sv_commit_votes (view_of c)))).
Proof.
  intros Hi. unfold rs_read_commit_votes. change (rs_db (store_of db)) with db. rewrite (safe_range_iter_ok _ _ _ _ _ (th_votes _ _ _ Hh)).
  2:{ split_and!; [by apply enc_vote_key_ok|by apply enc_vote_key_ok|done|]. intros _. apply vote_bounds_ok. }
  cbn [mbind outcome_bind]. rewrite (collect_results_Ok id), list_fmap_id. cbn [db_then mbind outcome_bind]. do 2 f_equal. cbn [view_of sv_commit_votes].
  transitivity (snd <$> (btree_map_range (λ k, above (Included (i, DIGEST_MIN, ref_MIN)) k && below (Included (i, DIGEST_MAX, ref_MAX)) k) (tb_votes c)).*1);
    [by rewrite <-list_fmap_compose|]. rewrite btree_map_range_fst. f_equal. unfold btree_range. apply filter_ext_elem.
  intros k Hk%elem_of_btree_iter%elem_of_dom. destruct (ko_votes _ Hc k Hk). by rewrite votes_range.
Qed.
End reads.

(** ** The contract *)

(** What the tables of a database hold. *)
Definition contents_of db : contents :=
  let s := store_of db in
  mk_contents (table_of db (rs_blocks s)) (table_of db (rs_digests_by_authorities s)) (table_of db (rs_commits s))
    (table_of db (rs_commit_votes s)) (table_of db (rs_commit_info s)) (table_of db (rs_scoring_metrics s)).

Definition rs_view s : StoreView := view_of (contents_of (rs_db s)).

(** The database was opened by [RocksDBStore::new], so it is not in memory. *)
Definition rs_ok s : Prop := s = store_of (rs_db s) ∧ in_memory (rs_db s) = false ∧ ∃ c, tables_hold (rs_db s) (raw_tables (rs_db s)) c ∧ contents_ok c.

Lemma contents_of_held db c : tables_hold db (raw_tables db) c → contents_of db = c.
Proof.
  intros [H1' H2' H3' H4' H5' H6']. unfold contents_of. rewrite (table_holds_of _ _ _ H1'), (table_holds_of _ _ _ H2'), (table_holds_of _ _ _ H3'),
    (table_holds_of _ _ _ H4'), (table_holds_of _ _ _ H5'), (table_holds_of _ _ _ H6'). by destruct c.
Qed.

Lemma rs_ok_elim s : rs_ok s → ∃ db c, s = store_of db ∧ in_memory db = false ∧ tables_hold db (raw_tables db) c ∧ contents_ok c ∧ rs_view s = view_of c.
Proof.
  intros (Hs & Hm & c & Hh & Hc). exists (rs_db s), c. split_and!; [done..|]. unfold rs_view. by rewrite (contents_of_held _ _ Hh).
Qed.

Lemma set_store_of db db' : in_memory db' = in_memory db → db_id db' = db_id db → set_db (store_of db) db' = store_of db'.
Proof.
  intros Hm Hid. unfold set_db, store_of. cbn [rs_blocks rs_digests_by_authorities rs_commits rs_commit_votes rs_commit_info rs_scoring_metrics].
  by rewrite !(reopen_same db db') by done.
Qed.

Lemma rs_write_view s w : rs_ok s → batch_ok accepts_block accepts_commit w →
  ∃ s', rs_write s w = Ret (Ok s') ∧ rs_ok s' ∧ rs_view s' = view_write (rs_view s) w.
Proof.
  intros (db & c & -> & Hmem & Hh & Hc & Hv)%rs_ok_elim Hw. destruct (rs_write_ok db c w Hh Hw) as (db' & Hdb & Hh' & Hm & Hid).
  destruct (add_batch_view c w Hc Hw) as [Hc' Hv']. rewrite (set_store_of db db' Hm Hid) in Hdb. exists (store_of db'). split; [done|]. split.
  - split; [done|]. split; [by rewrite <-Hmem|]. by exists (add_batch c w).
  - unfold rs_view. cbn [rs_db store_of]. by rewrite (contents_of_held _ _ Hh'), Hv', <-Hv.
Qed.

Ltac from_tables L := intros (db & c & -> & Hm & Hh & Hc & ->)%rs_ok_elim; by apply L.

#[export] Program Instance RocksDBStore_laws : StoreLaws (RocksDBStore R) := {|
  store_accepts_block := accepts_block;
  store_accepts_commit := accepts_commit;
  store_view := rs_view;
  store_ok := rs_ok;
  store_write_view := rs_write_view;
|}.
Next Obligation. intros s r b. from_tables view_keys. Qed.
Next Obligation. intros s rs. from_tables rs_read_blocks_ok. Qed.
Next Obligation. intros s rs. from_tables rs_contains_blocks_ok. Qed.
Next Obligation. intros s a start. from_tables rs_scan_blocks_ok. Qed.
Next Obligation. intros s a n before. from_tables rs_scan_last_ok. Qed.
Next Obligation. intros s. from_tables rs_read_last_commit_ok. Qed.
Next Obligation. intros s rg (db & c & -> & Hm & Hh & Hc & ->)%rs_ok_elim Hlo Hhi. apply rs_scan_commits_ok; [done..|lia|done]. Qed.
Next Obligation. intros s. from_tables rs_read_last_info_ok. Qed.
Next Obligation. intros s. from_tables rs_scan_metrics_ok. Qed.
Next Obligation. intros s slot. from_tables rs_contains_slot_ok. Qed.
Next Obligation. intros s i. from_tables rs_read_votes_ok. Qed.
End laws.

(** What is serialised by bcs decodes to itself. *)
Class BcsRoundtrip `{Crypto, CommitBcs, BcsDecode} := {
  signed_block_roundtrip b bs : bcs_signed_block b = Some bs → decode_signed_block bs = Some b;
  commit_roundtrip c bs : bcs_commit c = Some bs → decode_commit bs = Some c;
}.

#[export] Instance RocksDBStore_blocks {R : Type} `{RocksDbLaws R} `{StoreEncodingLaws} `{BcsRoundtrip} : BlockCodec (RocksDBStore R).
Proof. split. intros b bs Hb. split; [by apply signed_block_roundtrip|done]. Qed.

#[export] Instance RocksDBStore_commits {R : Type} `{RocksDbLaws R} `{StoreEncodingLaws} `{BcsRoundtrip} : CommitCodec (RocksDBStore R).
Proof. split. intros c bs Hc. split; [by apply commit_roundtrip|done]. Qed.

(** C12: the persistent store behaves like the in-memory one.  Started with the same
    contents, both take every sequence of write batches whose keys fit their types
    and whose blocks and commits decode from their bytes, and then answer the reads
    of the trait alike, for arguments within their types: reads of blocks by
    reference, the scans by author, by slot and by commit range, the last commit and
    its info, the commit votes and the scoring metrics.  The one difference is a scan
    of commits whose range ends before it starts: the persistent store finds nothing,
    and the in-memory one panics. *)
Theorem rocks_store_agrees {R : Type} `{RocksDbLaws R} `{StoreEncodingLaws} `{Crypto} `{BcsDecode} (s : RocksDBStore R) (m : MemStore) (ws : list WriteBatch) :
  rs_ok s → ms_ok m → rs_view s = ms_view m → Forall (batch_ok accepts_block accepts_commit) ws →
  ∃ s' m', write_all s ws = Ret (Ok s') ∧ write_all m ws = Ret (Ok m') ∧ rs_ok s' ∧ ms_ok m' ∧ same_reads s' m' ∧
    ∀ rg, range_end rg < range_start rg → range_start rg <= U32_MAX →
      scan_commits s' rg = Ret (Ok []) ∧ ∃ why, scan_commits m' rg = Panic why.
Proof.
  intros Hs Hm Hv Hws. destruct (write_all_view (H0 := RocksDBStore_laws) ws s Hs Hws) as (s' & Hws' & Hs' & Hv').
  assert (Forall (batch_ok (store_accepts_block MemStore) (store_accepts_commit MemStore)) ws) as Hws2.
  { eapply Forall_impl; [exact Hws|]. intros w [Hb Hc ? ?]. split; try done; [intros b (? & ? & _)%Hb|intros c [? _]%Hc]; done. }
  destruct (write_all_view (H0 := MemStore_laws) ws m Hm Hws2) as (m' & Hwm' & Hm' & Hvm'). exists s', m'. split_and!; [done..| |].
  2:{ intros rg Hlt Hlo. split; [|by apply ms_scan_commits_inverted]. destruct (rs_ok_elim s' Hs') as (db & c & -> & Hmem & Hh & Hc & _).
      cbn [scan_commits RocksDBStore_Store]. rewrite (rs_scan_commits_ok db c Hh Hc) by (done || lia). do 2 f_equal.
      apply elem_of_nil_inv. intros x ([k y] & _ & [Hk _]%elem_of_btree_map_range)%list_elem_of_fmap.
      apply Is_true_true, andb_true_iff in Hk as [?%N.leb_le ?%N.leb_le]. lia. }
  apply (same_view_reads (H0 := RocksDBStore_laws) (H2 := MemStore_laws)); [done..|]. cbn [store_view RocksDBStore_laws MemStore_laws] in Hv', Hvm' |- *. by rewrite Hv', Hvm', Hv.
Qed.

(** ** A concrete store *)

(** A type encoded as another one. *)
Section iso.
Context {A B : Type} `{OrdKey A} `{KeySerLaws B} (f : A → B) (g : B → A).
Hypothesis iso_back : ∀ a, g (f a) = a.
Hypothesis iso_order : ∀ a a', key_le (f a) (f a') ↔ key_le a a'.

Definition iso_ser : KeySer A := {| be_fix_int_ser a := be_fix_int_ser (f a); key_deserialize bs := g <$> key_deserialize bs |}.

Program Definition iso_ser_laws : KeySerLaws A (H1 := iso_ser) := {| key_ok a := key_ok (f a); key_len := key_len (K := B) |}.
Next Obligation.
  intros a a' s t Heq. apply (key_delimited (f a) (f a')) in Heq as [Hf ->]. split; [|done]. by rewrite <-(iso_back a), Hf, iso_back.
Qed.
Next Obligation. intros a Ha. cbn. rewrite key_roundtrip by done. cbn. by rewrite iso_back. Qed.
Next Obligation. intros a Ha. exact (key_bytes (f a) Ha). Qed.
Next Obligation. intros a a' Ha Ha'. cbn. rewrite <-iso_order. exact (key_order (f a) (f a') Ha Ha'). Qed.
End iso.

Definition u32_laws : KeySerLaws N (H1 := uint_ser 4) := uint_ser_laws 3.
Definition u256_laws : KeySerLaws N (H1 := uint_ser 32) := uint_ser_laws 31.
Definition u32_pair_laws := pair_ser_laws (H2 := u32_laws) (H6 := u32_laws).
Definition block_key_laws := pair_ser_laws (H2 := u32_pair_laws) (H6 := u256_laws).
Definition commit_key_laws := pair_ser_laws (H2 := u32_laws) (H6 := u256_laws).

Definition ref_tuple (r : BlockRef) : Round * AuthorityIndex * BlockDigest := (ref_round r, ref_author r, ref_digest r).

Lemma ref_tuple_back r : key_ref (ref_tuple r) = r.
Proof. by destruct r. Qed.

Lemma ref_tuple_order r r' : key_le (ref_tuple r) (ref_tuple r') ↔ key_le r r'.
Proof.
  destruct r as [r a d], r' as [r' a' d']. unfold ref_tuple. cbn [ref_round ref_author ref_digest]. rewrite !prod_key_le, !N_key_le.
  change (key_le (mk_ref r a d) (mk_ref r' a' d')) with (ref_le (mk_ref r a d) (mk_ref r' a' d')). unfold ref_le. cbn [ref_round ref_author ref_digest].
  assert ((r, a) = (r', a') ↔ r = r' ∧ a = a') as -> by naive_solver. lia.
Qed.

Definition ref_key_laws := iso_ser_laws (H4 := block_key_laws) ref_tuple key_ref ref_tuple_back ref_tuple_order.
Definition vote_key_laws := pair_ser_laws (H2 := commit_key_laws) (H6 := ref_key_laws).

Definition test_info_bytes (i : CommitInfo) : bytes :=
  let scores := reputation_scores i in
  [range_lo (scores_commit_range scores); range_hi (scores_commit_range scores); N.of_nat (length (scores_per_authority scores))] ++
  scores_per_authority scores ++ committed_rounds i.

Definition test_info_decode (bs : bytes) : option CommitInfo :=
  match bs with
  | lo :: hi :: n :: l => Some (mk_commit_info (drop (N.to_nat n) l) (mk_scores (take (N.to_nat n) l) (mk_range lo hi)))
  | _ => None
  end.

Definition test_encoding : StoreEncoding := {|
  enc_block_key := pair_ser (H2 := u32_pair_laws) (H5 := uint_ser 32);
  enc_commit_key := pair_ser (H2 := u32_laws) (H5 := uint_ser 32);
  enc_vote_key := pair_ser (H2 := commit_key_laws) (H5 := iso_ser (H3 := pair_ser (H2 := u32_pair_laws) (H5 := uint_ser 32)) ref_tuple key_ref);
  enc_authority := uint_ser 4;
  enc_bytes := {| bcs_to_bytes := Some; bcs_from_bytes := Some |};
  enc_unit := {| bcs_to_bytes _ := Some []; bcs_from_bytes _ := Some tt |};
  enc_info := {| bcs_to_bytes i := Some (test_info_bytes i); bcs_from_bytes := test_info_decode |};
  enc_metrics := {|
    bcs_to_bytes x := Some [faulty_blocks_provable x; faulty_blocks_unprovable x; equivocations x; missing_proposals x];
    bcs_from_bytes bs := match bs with [a; b; c; d] => Some (mk_storage_metrics a b c d) | _ => None end;
  |};
|}.

Lemma u32_fits x : x <= U32_MAX → x < 256 ^ N.of_nat 4.
Proof. intros Hx. change (256 ^ N.of_nat 4) with (U32_MAX + 1). lia. Qed.

Lemma u256_fits x : x <= DIGEST_MAX → x < 256 ^ N.of_nat 32.
Proof. intros Hx. change (256 ^ N.of_nat 32) with (DIGEST_MAX + 1). lia. Qed.

Program Definition test_encoding_laws : @StoreEncodingLaws test_encoding := {|
  enc_block_key_laws := block_key_laws;
  enc_commit_key_laws := commit_key_laws;
  enc_vote_key_laws := vote_key_laws;
  enc_authority_laws := u32_laws;
  enc_bytes_laws := {| value_ok _ := True |};
  enc_unit_laws := {| value_ok _ := True |};
  enc_info_laws := {| value_ok _ := True |};
  enc_metrics_laws := {| value_ok _ := True |};
|}.
Next Obligation. intros v _. by exists v. Qed.
Next Obligation. intros [] _. by exists []. Qed.
Next Obligation.
  intros [rounds [scores [lo hi]]] _. eexists. split; [done|]. cbn. rewrite Nat2N.id. by rewrite take_app_length, drop_app_length.
Qed.
Next Obligation. intros [a b c d] _. by eexists. Qed.
Next Obligation. intros a b c Ha Hb Hc. cbn. split; [split; by apply u32_fits|by apply u256_fits]. Qed.
Next Obligation. intros i d Hi Hd. cbn. split; [by apply u32_fits|by apply u256_fits]. Qed.
Next Obligation.
  intros i d r Hi Hd Hr Ha Hg. cbn. split; [split; [by apply u32_fits|by apply u256_fits]|].
  split; [split; by apply u32_fits|by apply u256_fits].
Qed.
Next Obligation. intros a Ha. by apply u32_fits. Qed.
Next Obligation. done. Qed.
Next Obligation. done. Qed.
Next Obligation. done. Qed.
Next Obligation. done. Qed.

(** The decoding of the blocks without ancestors, and of the commits of one block. *)
Definition test_decoding : BcsDecode := {|
  decode_signed_block bs := match bs with [e; r; a; t] => Some (mk_signed (V1 (mk_block_v1 e r a t [] [] [] [])) []) | _ => None end;
  decode_commit bs :=
    match bs with [i; p; t; r; a; d] => Some (Commit_new i p t (mk_ref r a d) [mk_ref r a d]) | _ => None end;
|}.

Definition stored_block (r : Round) (a : AuthorityIndex) : VerifiedBlock :=
  let b := V1 (mk_block_v1 0 r a 5 [] [] [] []) in @new_verified test_crypto (mk_signed b []) (test_bytes b).

Definition stored_commit (b : VerifiedBlock) : TrustedCommit :=
  let r := reference b in
  @new_trusted test_crypto (Commit_new 1 0 5 r [r]) [1; 0; 5; ref_round r; ref_author r; ref_digest r].

Definition test_batches : list WriteBatch :=
  [mk_batch (stored_block 1 <$> [0; 1; 2]) [] [] []; mk_batch [stored_block 2 1] [stored_commit (stored_block 1 0)] [(mk_commit_ref 1 9, mk_commit_info [0; 0] (mk_scores [3; 4] (mk_range 1 2)))] [(1, mk_storage_metrics 1 2 3 4)]].

Definition test_rocks_db : Database (gmap string (gmap bytes bytes)) :=
  mk_database 0 (Rocks (list_to_map ((λ name, (name, ∅)) <$> [BLOCKS_CF; DIGESTS_BY_AUTHORITIES_CF; COMMITS_CF; COMMIT_VOTES_CF; COMMIT_INFO_CF; SCORING_METRICS_CF]))).

Definition empty_contents : contents := mk_contents ∅ ∅ ∅ ∅ ∅ ∅.

Lemma empty_contents_ok `{Crypto} `{BcsDecode} : contents_ok empty_contents.
Proof. split; cbn; intros k; try (intros bs; by rewrite lookup_empty); rewrite lookup_empty; [|by intros []]. by rewrite lookup_empty; split; intros []. Qed.

Lemma empty_table_holds {R K V : Type} `{RocksDbLaws R} `{KeySerLaws K} `{ValueBcsLaws V} (db : Database R) name :
  raw_tables db !! name = Some ∅ → table_holds db (DBMap_reopen (K := K) (V := V) db (Some name)) ∅.
Proof.
  intros Hn. split; [done|]. exists name, ∅. split_and!; [|done|apply encodes_empty]. split; [|by eexists].
  unfold DBMap_reopen, in_memory. cbn. by destruct (storage db).
Qed.

Lemma stored_block_ok r a : r < U32_MAX → a <= U32_MAX →
  ref_ok (reference (stored_block r a)) ∧ votes_ok (stored_block r a) ∧ @accepts_block test_crypto test_decoding (stored_block r a).
Proof.
  intros Hr Ha. split_and!; [|constructor|done]. split_and!; [done..|]. cbn. pose proof (N.mod_lt ((((((0 * 31 + 0 + 7) mod 1000003) * 31 + r + 7) mod 1000003 * 31 + a + 7) mod 1000003) * 31 + 5 + 7) 1000003 ltac:(done)) as Hm.
  etransitivity; [apply N.lt_le_incl, Hm|]. by vm_compute.
Qed.

Lemma test_batches_ok : Forall (batch_ok (@accepts_block test_crypto test_decoding) (@accepts_commit test_crypto test_decoding)) test_batches.
Proof.
  unfold test_batches. constructor; [|constructor; [|constructor]]; split; cbn [wb_blocks wb_commits wb_commit_info wb_scoring_metrics].
  - intros b (a & -> & Ha)%list_elem_of_fmap. apply stored_block_ok; [done|]. unfold U32_MAX. by repeat (apply elem_of_cons in Ha as [->|Ha]; [lia|]); apply not_elem_of_nil in Ha.
  - by intros c ?%not_elem_of_nil.
  - by intros r i ?%not_elem_of_nil.
  - by intros a x ?%not_elem_of_nil.
  - intros b ->%list_elem_of_singleton. by apply stored_block_ok.
  - intros c ->%list_elem_of_singleton. split; [by vm_compute|done].
  - intros r i [= -> ->]%list_elem_of_singleton. by vm_compute.
  - intros a x [= -> ->]%list_elem_of_singleton. by vm_compute.
Qed.

Lemma test_rocks_ok : rs_ok (H0 := test_rocks_laws) (H2 := test_encoding_laws) (H3 := test_crypto) (H4 := test_decoding) (store_of test_rocks_db) ∧
  rs_view (H := test_rocks) (H0 := test_rocks_laws) (H1 := test_encoding) (H3 := test_crypto) (H4 := test_decoding) (store_of test_rocks_db) = ms_view MemStore_new.
Proof.
  assert (tables_hold (H0 := test_rocks_laws) (H2 := test_encoding_laws) test_rocks_db (raw_tables (H0 := test_rocks_laws) test_rocks_db) empty_contents) as Hh.
  { split; by apply (empty_table_holds (H0 := test_rocks_laws) test_rocks_db). }
  split; [split; [done|]; split; [done|]; exists empty_contents; split; [exact Hh|apply empty_contents_ok]|].
  unfold rs_view. cbn [rs_db store_of]. rewrite (contents_of_held (H0 := test_rocks_laws) (H2 := test_encoding_laws) _ _ Hh). done.
Qed.

Lemma rocks_store_agrees_witness : ∃ (s : RocksDBStore (gmap string (gmap bytes bytes))) (m : MemStore),
  write_all (H := RocksDBStore_Store (H := test_rocks) (H0 := test_encoding) (H1 := test_crypto) (H2 := test_decoding)) (store_of test_rocks_db) test_batches = Ret (Ok s) ∧
  write_all MemStore_new test_batches = Ret (Ok m) ∧
  same_reads (H := RocksDBStore_Store (H := test_rocks) (H0 := test_encoding) (H1 := test_crypto) (H2 := test_decoding)) s m ∧
  scan_blocks_by_author m 1 1 = Ret (Ok [stored_block 1 1; stored_block 2 1]).
Proof.
  destruct test_rocks_ok as [Hok Hv].
  destruct (rocks_store_agrees (H0 := test_rocks_laws) (H2 := test_encoding_laws) (H3 := test_crypto) (H4 := test_decoding)
    (store_of test_rocks_db) MemStore_new test_batches Hok ms_ok_new Hv test_batches_ok) as (s & m & Hs & Hm & _ & _ & Hr & _).
  exists s, m. split; [exact Hs|]. split; [exact Hm|]. split; [exact Hr|]. vm_compute in Hm. injection Hm as <-. vm_compute. reflexivity.
Defined.
