(* ===== verification/ScoringMetrics.v ===== *)
(** * Scoring metrics: counting misbehaviour per authority

    Models [consensus/core/src/scoring_metrics_store.rs] and the counters of
    [crates/iota-types/src/scoring_metrics.rs].  The counters are atomics that
    are updated one at a time; here each update is a step on the vectors.
    Prometheus gauges are write-only and left out. *)
From S2P Require Import Prelude Committee Block Commit Error Store.
Local Open Scope N_scope.
Local Open Scope rust_scope.

(** ** The counters (scoring_metrics.rs) *)

Record ScoringMetricsV1 := mk_metrics {
  m_faulty_blocks_provable : list N;
  m_faulty_blocks_unprovable : list N;
  m_missing_proposals : list N;
  m_equivocations : list N;
}.

Definition ScoringMetricsV1_new (committee_size : N) : ScoringMetricsV1 :=
  let zeros := replicate (N.to_nat committee_size) 0 in mk_metrics zeros zeros zeros zeros.

(** [v[i].fetch_add(x)] and [v[i].fetch_max(x)]. *)
Definition fetch_add (v : list N) (i x : N) : outcome (list N) :=
  old ← vec_index v i; vec_set v i (old +64 x).
Definition fetch_max (v : list N) (i x : N) : outcome (list N) :=
  old ← vec_index v i; vec_set v i (N.max old x).

Definition increment_faulty_blocks_provable (m : ScoringMetricsV1) (i x : N) : outcome ScoringMetricsV1 :=
  v ← fetch_add (m_faulty_blocks_provable m) i x;
  Ret (mk_metrics v (m_faulty_blocks_unprovable m) (m_missing_proposals m) (m_equivocations m)).
Definition increment_faulty_blocks_unprovable (m : ScoringMetricsV1) (i x : N) : outcome ScoringMetricsV1 :=
  v ← fetch_add (m_faulty_blocks_unprovable m) i x;
  Ret (mk_metrics (m_faulty_blocks_provable m) v (m_missing_proposals m) (m_equivocations m)).
Definition increment_equivocations (m : ScoringMetricsV1) (i x : N) : outcome ScoringMetricsV1 :=
  v ← fetch_add (m_equivocations m) i x;
  Ret (mk_metrics (m_faulty_blocks_provable m) (m_faulty_blocks_unprovable m) (m_missing_proposals m) v).
Definition increment_missing_proposals (m : ScoringMetricsV1) (i x : N) : outcome ScoringMetricsV1 :=
  v ← fetch_add (m_missing_proposals m) i x;
  Ret (mk_metrics (m_faulty_blocks_provable m) (m_faulty_blocks_unprovable m) v (m_equivocations m)).

Definition store_faulty_blocks_provable (m : ScoringMetricsV1) (i x : N) : outcome ScoringMetricsV1 :=
  v ← vec_set (m_faulty_blocks_provable m) i x;
  Ret (mk_metrics v (m_faulty_blocks_unprovable m) (m_missing_proposals m) (m_equivocations m)).
Definition store_faulty_blocks_unprovable (m : ScoringMetricsV1) (i x : N) : outcome ScoringMetricsV1 :=
  v ← vec_set (m_faulty_blocks_unprovable m) i x;
  Ret (mk_metrics (m_faulty_blocks_provable m) v (m_missing_proposals m) (m_equivocations m)).
Definition store_equivocations (m : ScoringMetricsV1) (i x : N) : outcome ScoringMetricsV1 :=
  v ← vec_set (m_equivocations m) i x;
  Ret (mk_metrics (m_faulty_blocks_provable m) (m_faulty_blocks_unprovable m) (m_missing_proposals m) v).
Definition store_missing_proposals (m : ScoringMetricsV1) (i x : N) : outcome ScoringMetricsV1 :=
  v ← vec_set (m_missing_proposals m) i x;
  Ret (mk_metrics (m_faulty_blocks_provable m) (m_faulty_blocks_unprovable m) v (m_equivocations m)).

(** [reset] stores zero in every counter. *)
Definition metrics_reset (m : ScoringMetricsV1) : ScoringMetricsV1 :=
  let z (l : list N) := (λ _, 0) <$> l in
  mk_metrics (z (m_faulty_blocks_provable m)) (z (m_faulty_blocks_unprovable m))
    (z (m_missing_proposals m)) (z (m_equivocations m)).

(** A misbehaviour report carries the same four vectors. *)
Record MisbehaviorsV1 := mk_misbehaviors {
  r_faulty_blocks_provable : list N;
  r_faulty_blocks_unprovable : list N;
  r_missing_proposals : list N;
  r_equivocations : list N;
}.

Definition report_verify (r : MisbehaviorsV1) (committee_size : N) : bool :=
  let len (l : list N) := N.of_nat (length l) =? committee_size in
  len (r_faulty_blocks_provable r) && len (r_faulty_blocks_unprovable r) &&
  len (r_equivocations r) && len (r_missing_proposals r).

(** [for (i, value) in report.iter().enumerate() { f(v, i, value) }]. *)
Fixpoint for_enumerate (f : list N → N → N → outcome (list N)) (v : list N) (i : N) (report : list N)
    : outcome (list N) :=
  match report with
  | [] => Ret v
  | x :: report => v' ← f v i x; for_enumerate f v' (i + 1) report
  end.

Definition update_from_report (m : ScoringMetricsV1) (r : MisbehaviorsV1) : outcome ScoringMetricsV1 :=
  p ← for_enumerate fetch_max (m_faulty_blocks_provable m) 0 (r_faulty_blocks_provable r);
  u ← for_enumerate fetch_max (m_faulty_blocks_unprovable m) 0 (r_faulty_blocks_unprovable r);
  e ← for_enumerate fetch_max (m_equivocations m) 0 (r_equivocations r);
  s ← for_enumerate fetch_max (m_missing_proposals m) 0 (r_missing_proposals r);
  Ret (mk_metrics p u s e).

Definition from_report (r : MisbehaviorsV1) : outcome ScoringMetricsV1 :=
  let m := ScoringMetricsV1_new (N.of_nat (length (r_faulty_blocks_provable r))) in
  p ← for_enumerate vec_set (m_faulty_blocks_provable m) 0 (r_faulty_blocks_provable r);
  u ← for_enumerate vec_set (m_faulty_blocks_unprovable m) 0 (r_faulty_blocks_unprovable r);
  e ← for_enumerate vec_set (m_equivocations m) 0 (r_equivocations r);
  s ← for_enumerate vec_set (m_missing_proposals m) 0 (r_missing_proposals r);
  Ret (mk_metrics p u s e).

Definition to_report (m : ScoringMetricsV1) : MisbehaviorsV1 :=
  mk_misbehaviors (m_faulty_blocks_provable m) (m_faulty_blocks_unprovable m)
    (m_missing_proposals m) (m_equivocations m).

(** ** Error classification (scoring_metrics_store.rs) *)

Inductive StoreType := Cached | Uncached.
Inductive MetricType := Provable | Unprovable | Untracked.
Inductive ErrorSource := SrcCommitSyncer | SrcSubscriber | SrcSynchronizer.

Definition classify_block_verifier_error (e : ConsensusError) : MetricType :=
  match e with
  | WrongEpoch _ _ | UnexpectedGenesisBlock | InvalidAuthorityIndex _ _ | SerializationFailure
  | MalformedSignature | SignatureVerificationFailure => Unprovable
  | TooManyAncestors _ _ | InsufficientParentStakes _ _ | InvalidAncestorAuthorityIndex _ _ _
  | InvalidAncestorPosition _ _ _ | InvalidAncestorRound _ _ | InvalidGenesisAncestor _
  | DuplicatedAncestorsAuthority _ | TransactionTooLarge _ _ | TooManyTransactions _ _
  | TooManyTransactionBytes _ _ | InvalidTransaction _ => Provable
  | _ => Untracked
  end.

Definition make_unprovable (t : MetricType) : MetricType :=
  match t with Provable => Unprovable | t => t end.

Definition classify_commit_syncer_error (e : ConsensusError) : MetricType :=
  match e with
  | MalformedCommit | UnexpectedStartCommit _ _ _ | UnexpectedCommitSequence _ _ _ | NoCommitReceived _
  | MalformedBlock | NotEnoughCommitVotes _ _ _ | UnexpectedNumberOfBlocksFetched _ _ _
  | UnexpectedBlockForCommit _ _ _ => Unprovable
  | e => make_unprovable (classify_block_verifier_error e)
  end.

Definition classify_subscriber_error (e : ConsensusError) : MetricType :=
  match e with
  | MalformedBlock | UnexpectedAuthority _ _ => Unprovable
  | BlockRejected _ _ => Untracked
  | e => classify_block_verifier_error e
  end.

Definition classify_synchronizer_error (e : ConsensusError) : MetricType :=
  match e with
  | TooManyFetchedBlocksReturned _ | MalformedBlock | UnexpectedFetchedBlock _ _ => Unprovable
  | e => make_unprovable (classify_block_verifier_error e)
  end.

(** ** The metrics store *)

Record MysticetiScoringMetricsStore := mk_metrics_store {
  current_local_metrics_count : ScoringMetricsV1;
  cached_metrics : ScoringMetricsV1;
  uncached_metrics : ScoringMetricsV1;
}.

(** [None] stands for an absent scorer version. *)
Definition MysticetiScoringMetricsStore_new (committee_size : N) (current : ScoringMetricsV1)
    (scorer_version : option N) : outcome MysticetiScoringMetricsStore :=
  if match scorer_version with None => true | Some v => v =? 1 end
  then Ret (mk_metrics_store current (ScoringMetricsV1_new committee_size) (ScoringMetricsV1_new committee_size))
  else Panic "Unsupported scorer version".

Definition set_cached (s : MysticetiScoringMetricsStore) (m : ScoringMetricsV1) :=
  mk_metrics_store (current_local_metrics_count s) m (uncached_metrics s).
Definition set_uncached (s : MysticetiScoringMetricsStore) (m : ScoringMetricsV1) :=
  mk_metrics_store (current_local_metrics_count s) (cached_metrics s) m.

Definition initialize_faulty_blocks_metrics (s : MysticetiScoringMetricsStore) (provable unprovable : N)
    (a : AuthorityIndex) : outcome MysticetiScoringMetricsStore :=
  m ← store_faulty_blocks_provable (uncached_metrics s) a provable;
  m ← store_faulty_blocks_unprovable m a unprovable;
  Ret (set_uncached s m).

Definition update_missing_blocks_and_equivocations (s : MysticetiScoringMetricsStore)
    (missing_blocks equivocations : N) (a : AuthorityIndex) (t : StoreType)
    : outcome MysticetiScoringMetricsStore :=
  match t with
  | Cached =>
    m ← store_equivocations (cached_metrics s) a equivocations;
    m ← store_missing_proposals m a missing_blocks;
    Ret (set_cached s m)
  | Uncached =>
    m ← increment_equivocations (uncached_metrics s) a equivocations;
    m ← increment_missing_proposals m a missing_blocks;
    Ret (set_uncached s m)
  end.

(** [Vec::dedup]: drops repeated neighbours. *)
Fixpoint dedup (l : list N) : list N :=
  match l with
  | x :: (y :: _) as l' => if x =? y then dedup l' else x :: dedup l'
  | _ => l
  end.

Definition calculate_scoring_metrics_for_range (block_rounds : list Round) (start end_ : Round) : N * N :=
  let block_rounds := filter (λ r, start <= r ∧ r <= end_) block_rounds in
  let number_of_blocks := N.of_nat (length block_rounds) in
  let unique_block_rounds := N.of_nat (length (dedup block_rounds)) in
  (number_of_blocks - unique_block_rounds, (end_ +32 1) - (start +32 wrap32 unique_block_rounds)).

Definition update_current_local_metrics_count (s : MysticetiScoringMetricsStore) (a : AuthorityIndex)
    : outcome MysticetiScoringMetricsStore :=
  let u := uncached_metrics s in
  p ← vec_index (m_faulty_blocks_provable u) a;
  up ← vec_index (m_faulty_blocks_unprovable u) a;
  e ← vec_index (m_equivocations u) a;
  mp ← vec_index (m_missing_proposals u) a;
  m ← store_faulty_blocks_provable (current_local_metrics_count s) a p;
  m ← store_faulty_blocks_unprovable m a up;
  m ← store_equivocations m a e;
  m ← store_missing_proposals m a mp;
  Ret (mk_metrics_store m (cached_metrics s) (uncached_metrics s)).

Definition update_scoring_metrics_on_eviction (s : MysticetiScoringMetricsStore) (a : AuthorityIndex)
    (recent_refs : gset BlockRef) (eviction_round last_eviction_round threshold_clock_round : Round)
    : outcome (MysticetiScoringMetricsStore * option StorageScoringMetrics) :=
  if (threshold_clock_round =? 0) || (N.of_nat (length (m_faulty_blocks_provable (uncached_metrics s))) <=? a)
  then Ret (s, None)
  else
    let rounds := ref_round <$> btree_iter recent_refs in
    let cached := filter (λ r, eviction_round < r ∧ r < threshold_clock_round) rounds in
    let '(cached_equivocations, missing_cached) :=
      calculate_scoring_metrics_for_range cached (eviction_round +32 1) (threshold_clock_round - 1) in
    s ← update_missing_blocks_and_equivocations s missing_cached cached_equivocations a Cached;
    if eviction_round =? last_eviction_round then Ret (s, None)
    else
      let evicted := filter (λ r, r <= eviction_round) rounds in
      let '(evicted_equivocations, missing_evicted) :=
        calculate_scoring_metrics_for_range evicted (last_eviction_round +32 1) eviction_round in
      s ← update_missing_blocks_and_equivocations s missing_evicted evicted_equivocations a Uncached;
      s ← update_current_local_metrics_count s a;
      let u := uncached_metrics s in
      p ← vec_index (m_faulty_blocks_provable u) a;
      up ← vec_index (m_faulty_blocks_unprovable u) a;
      e ← vec_index (m_equivocations u) a;
      mp ← vec_index (m_missing_proposals u) a;
      Ret (s, Some (mk_storage_metrics p up e mp)).

Definition update_scoring_metrics_on_block_receival (s : MysticetiScoringMetricsStore) (a : AuthorityIndex)
    (e : ConsensusError) (source : ErrorSource) : outcome MysticetiScoringMetricsStore :=
  if N.of_nat (length (m_faulty_blocks_provable (cached_metrics s))) <=? a then Ret s
  else
    match (match source with
           | SrcCommitSyncer => classify_commit_syncer_error e
           | SrcSubscriber => classify_subscriber_error e
           | SrcSynchronizer => classify_synchronizer_error e
           end) with
    | Provable => m ← increment_faulty_blocks_provable (uncached_metrics s) a 1; Ret (set_uncached s m)
    | Unprovable => m ← increment_faulty_blocks_unprovable (uncached_metrics s) a 1; Ret (set_uncached s m)
    | Untracked => Ret s
    end.

(** [Vec::insert] panics past the end. *)
Definition vec_insert {A} (l : list A) (i : N) (x : A) : outcome (list A) :=
  _ ← assert (i <=? N.of_nat (length l)) "insertion index should be <= len";
  Ret (take (N.to_nat i) l ++ x :: drop (N.to_nat i) l).

(** Adds zeroed metrics for the authorities that have none. *)
Definition fill_recovered_metrics (committee_size : N) (recovered : list (AuthorityIndex * StorageScoringMetrics))
    : outcome (list (AuthorityIndex * StorageScoringMetrics)) :=
  if N.of_nat (length recovered) <? committee_size then
    foldM (λ recovered i,
      if existsb (λ '((a, _) : AuthorityIndex * StorageScoringMetrics), a =? i) recovered then Ret recovered
      else vec_insert recovered i (i, mk_storage_metrics 0 0 0 0))
      recovered (N.of_nat <$> seq 0 (N.to_nat committee_size))
  else Ret recovered.

Definition initialize_scoring_metrics (c : Committee) (s : MysticetiScoringMetricsStore)
    (recovered : list (AuthorityIndex * StorageScoringMetrics)) (blocks_in_cache_by_authority : list (gset BlockRef))
    (threshold_clock_round : Round) (eviction_rounds : list Round) : outcome MysticetiScoringMetricsStore :=
  recovered ← fill_recovered_metrics (committee_size c) recovered;
  foldM (λ s '((((a, metrics), _), blocks_in_cache), eviction_round),
    s ← initialize_faulty_blocks_metrics s (faulty_blocks_provable metrics) (faulty_blocks_unprovable metrics) a;
    s ← update_missing_blocks_and_equivocations s (missing_proposals metrics) (equivocations metrics) a Uncached;
    let '(cached_equivocations, missing_cached) :=
      calculate_scoring_metrics_for_range (ref_round <$> btree_iter (blocks_in_cache : gset BlockRef)) (eviction_round +32 1)
        (threshold_clock_round -32 1) in
    update_missing_blocks_and_equivocations s missing_cached cached_equivocations a Cached)
    s (zip (zip (zip recovered (authorities c)) blocks_in_cache_by_authority) eviction_rounds).

(** ** Counting over a range of rounds *)

Lemma dedup_sorted (l : list N) : StronglySorted N.le l →
  NoDup (dedup l) ∧ (∀ x, x ∈ dedup l ↔ x ∈ l).
Proof.
  induction 1 as [|x l Hl [IH1 IH2] Hx]; [split; [constructor|done]|].
  destruct l as [|y l]; [split; [apply NoDup_singleton|done]|].
  cbn [dedup]. fold (dedup (y :: l)). destruct (N.eqb_spec x y) as [->|Hne].
  - split; [done|]. intros z. rewrite IH2, !elem_of_cons. tauto.
  - split; [|intros z; rewrite elem_of_cons, IH2, (elem_of_cons (y :: l)); tauto].
    apply NoDup_cons. split; [|done]. rewrite IH2. intros Hin.
    apply Forall_cons in Hx as [Hxy _]. apply StronglySorted_cons in Hl as [Hy _].
    apply elem_of_cons in Hin as [->|Hin]; [done|].
    pose proof (proj1 (Forall_forall _ _) Hy x Hin) as Hyx. simpl in Hyx. lia.
Qed.

Lemma dedup_length (l : list N) : StronglySorted N.le l →
  length (dedup l) = size (list_to_set l : gset N).
Proof.
  intros [Hnd Hin]%dedup_sorted. rewrite <-(size_list_to_set (C:=gset N) (dedup l)) by done. f_equal. set_solver.
Qed.

(** The rounds from [start] to [end_]. *)
Definition rounds_between (start end_ : Round) : gset Round :=
  list_to_set ((λ i, start + N.of_nat i) <$> seq 0 (N.to_nat (end_ + 1 - start))).

Lemma elem_of_rounds_between start end_ r : r ∈ rounds_between start end_ ↔ start <= r <= end_.
Proof.
  unfold rounds_between. rewrite elem_of_list_to_set, list_elem_of_fmap. split.
  - intros (i & -> & Hi%elem_of_seq). lia.
  - intros Hr. exists (N.to_nat (r - start)). split; [lia|]. apply elem_of_seq. lia.
Qed.

Lemma size_rounds_between start end_ : size (rounds_between start end_) = N.to_nat (end_ + 1 - start).
Proof.
  unfold rounds_between. rewrite size_list_to_set; [by rewrite length_fmap, length_seq|].
  apply NoDup_fmap; [|apply NoDup_seq]. intros i j. lia.
Qed.

Definition rounds_in (start end_ : Round) (rs : list Round) : list Round :=
  filter (λ r, start <= r ∧ r <= end_) rs.

Lemma unique_rounds_le start end_ rs :
  (list_to_set (rounds_in start end_ rs) : gset N) ⊆ rounds_between start end_.
Proof.
  intros r. rewrite elem_of_list_to_set, elem_of_rounds_between. by intros [? _]%list_elem_of_filter.
Qed.

(** The range statistics count what their names say.  For the rounds of an
    authority's blocks in increasing order, the first number is how many blocks
    in the range are not the first of their round, the second how many rounds
    of the range have no block. *)
Theorem range_metrics_count (rs : list Round) (start end_ : Round) :
  StronglySorted N.le rs → start <= end_ + 1 → end_ < U32_MAX →
  let present := list_to_set (rounds_in start end_ rs) : gset Round in
  calculate_scoring_metrics_for_range rs start end_ =
    (N.of_nat (length (rounds_in start end_ rs) - size present),
     N.of_nat (size (rounds_between start end_ ∖ present))).
Proof.
  intros Hs Hse Hend present. unfold calculate_scoring_metrics_for_range. fold (rounds_in start end_ rs).
  rewrite dedup_length by (by apply StronglySorted_filter). fold present.
  pose proof (subseteq_size _ _ (unique_rounds_le start end_ rs)) as Hle. fold present in Hle.
  rewrite size_rounds_between in Hle. rewrite size_difference by apply unique_rounds_le.
  rewrite size_rounds_between. unfold U32_MAX in *.
  rewrite (wrap32_small (end_ + 1)), (wrap32_small (N.of_nat (size present))) by (unfold U32_MOD; lia).
  rewrite wrap32_small by (unfold U32_MOD; lia). f_equal; lia.
Qed.

Lemma range_metrics_count_witness :
  calculate_scoring_metrics_for_range [2; 3; 3; 3; 6] 2 5 = (2, 2).
Proof.
  rewrite (range_metrics_count [2; 3; 3; 3; 6] 2 5); [by vm_compute| |by vm_compute..].
  repeat constructor; by vm_compute.
Defined.

(** ** Merging reports *)

Definition vmax (v r : list N) : list N := imap (λ i x, N.max x (default 0 (r !! i))) v.

Lemma vmax_length v r : length (vmax v r) = length v.
Proof. apply length_imap. Qed.

Lemma vmax_lookup v r i : vmax v r !! i = (λ x, N.max x (default 0 (r !! i))) <$> v !! i.
Proof. apply list_lookup_imap. Qed.

Lemma for_enumerate_max r : ∀ v i, (i <= length v)%nat →
  for_enumerate fetch_max v (N.of_nat i) r =
  if decide (i + length r <= length v)%nat
  then Ret (vmax v (replicate i 0 ++ r)) else Panic "index out of bounds".
Proof.
  induction r as [|x r IH]; intros v i Hle; cbn [for_enumerate length].
  - rewrite decide_True by lia. f_equal. apply list_eq. intros j. rewrite app_nil_r, vmax_lookup.
    destruct (v !! j) as [y|]; [|done]. simpl. f_equal.
    destruct (replicate i 0 !! j) as [z|] eqn:Hz; simpl; [apply lookup_replicate in Hz as [-> _]|]; lia.
  - unfold fetch_max, vec_index, vec_set. rewrite Nat2N.id.
    destruct (v !! i) as [old|] eqn:Hi; simpl.
    + pose proof (lookup_lt_Some _ _ _ Hi). rewrite decide_True by done. simpl.
      replace (N.of_nat i + 1) with (N.of_nat (S i)) by lia. rewrite IH by (rewrite length_insert; lia).
      rewrite length_insert, (decide_ext _ (i + S (length r) <= length v)%nat) by lia.
      case_decide; [|done]. f_equal. apply list_eq. intros j. rewrite !vmax_lookup.
      rewrite list_lookup_insert. destruct (decide (i = j ∧ (i < length v)%nat)) as [[<- _]|Hn].
      * rewrite Hi. cbn [fmap option_fmap option_map]. f_equal. rewrite (lookup_app_l (replicate (S i) 0)) by (rewrite length_replicate; lia).
        rewrite (lookup_app_r _ (x :: r)) by (by rewrite length_replicate).
        rewrite length_replicate, Nat.sub_diag. cbn [lookup list_lookup].
        rewrite lookup_replicate_2 by lia. cbn. lia.
      * destruct (v !! j) as [y|] eqn:Hj; [|done]. cbn [fmap option_fmap option_map]. do 2 f_equal.
        assert (i ≠ j) by (intros ->; naive_solver).
        replace (replicate (S i) 0 ++ r) with (replicate i 0 ++ 0 :: r) by (by rewrite replicate_S_end, <-app_assoc).
        destruct (decide (j < i)%nat); [by rewrite !lookup_app_l by (rewrite length_replicate; lia)|].
        rewrite !lookup_app_r by (rewrite length_replicate; lia). rewrite length_replicate.
        by destruct (j - i)%nat as [|k] eqn:?; [lia|].
    + rewrite decide_False; [done|]. apply lookup_ge_None in Hi. lia.
Qed.

Lemma for_enumerate_max_0 v r :
  for_enumerate fetch_max v 0 r =
  if decide (length r <= length v)%nat then Ret (vmax v r) else Panic "index out of bounds".
Proof. apply (for_enumerate_max r v 0). lia. Qed.

(** The report's vectors are no longer than the counters'. *)
Definition report_fits (m : ScoringMetricsV1) (r : MisbehaviorsV1) : Prop :=
  (length (r_faulty_blocks_provable r) <= length (m_faulty_blocks_provable m))%nat ∧
  (length (r_faulty_blocks_unprovable r) <= length (m_faulty_blocks_unprovable m))%nat ∧
  (length (r_equivocations r) <= length (m_equivocations m))%nat ∧
  (length (r_missing_proposals r) <= length (m_missing_proposals m))%nat.

#[local] Instance report_fits_dec m r : Decision (report_fits m r).
Proof. unfold report_fits. apply _. Defined.

Definition metrics_max (m : ScoringMetricsV1) (r : MisbehaviorsV1) : ScoringMetricsV1 :=
  mk_metrics (vmax (m_faulty_blocks_provable m) (r_faulty_blocks_provable r))
    (vmax (m_faulty_blocks_unprovable m) (r_faulty_blocks_unprovable r))
    (vmax (m_missing_proposals m) (r_missing_proposals r)) (vmax (m_equivocations m) (r_equivocations r)).

Lemma update_from_report_max m r :
  update_from_report m r =
  if bool_decide (report_fits m r) then Ret (metrics_max m r) else Panic "index out of bounds".
Proof.
  unfold update_from_report, report_fits. rewrite !for_enumerate_max_0.
  case_bool_decide as Hf; [destruct Hf as (?&?&?&?); by rewrite !decide_True|].
  repeat (case_decide; cbn [mbind outcome_bind]; try done). by destruct Hf.
Qed.

Lemma report_fits_max m r r' : report_fits (metrics_max m r) r' ↔ report_fits m r'.
Proof. unfold report_fits. simpl. by rewrite !vmax_length. Qed.

Lemma vmax_comm v r r' : vmax (vmax v r) r' = vmax (vmax v r') r.
Proof.
  apply list_eq. intros i. rewrite !vmax_lookup. destruct (v !! i); [|done]. simpl. f_equal. lia.
Qed.

Lemma vmax_idemp v r : vmax (vmax v r) r = vmax v r.
Proof.
  apply list_eq. intros i. rewrite !vmax_lookup. destruct (v !! i); [|done]. simpl. f_equal. lia.
Qed.

(** Received reports can be applied in any order and any number of times:
    two reports commute, also in whether they panic on a vector that is too
    long, and a report applied again changes nothing. *)
Lemma reports_commute (m : ScoringMetricsV1) (r r' : MisbehaviorsV1) :
  (m1 ← update_from_report m r; update_from_report m1 r') =
  (m1 ← update_from_report m r'; update_from_report m1 r) ∧
  (m1 ← update_from_report m r; update_from_report m1 r) = update_from_report m r.
Proof.
  rewrite !update_from_report_max. split.
  - do 2 case_bool_decide; simpl; rewrite ?update_from_report_max, ?bool_decide_eq_true_2, ?bool_decide_eq_false_2
      by (by rewrite report_fits_max); try done.
    unfold metrics_max. simpl. do 2 f_equal; apply vmax_comm.
  - case_bool_decide; simpl; [|done]. rewrite update_from_report_max, bool_decide_eq_true_2 by (by rewrite report_fits_max).
    unfold metrics_max. simpl. do 2 f_equal; apply vmax_idemp.
Qed.

(** ** Reports and counters carry the same data *)

Lemma for_enumerate_set r : ∀ pre post, (length post = length r)%nat →
  for_enumerate vec_set (pre ++ post) (N.of_nat (length pre)) r = Ret (pre ++ r).
Proof.
  induction r as [|x r IH]; intros pre post Hlen; cbn [for_enumerate].
  - destruct post; [done|]. done.
  - destruct post as [|y post]; [done|].
    assert (vec_set (pre ++ y :: post) (N.of_nat (length pre)) x = Ret (pre ++ x :: post)) as ->.
    { apply vec_set_ret. rewrite Nat2N.id, insert_app_r_alt, Nat.sub_diag, length_app by done. simpl. split; [lia|done]. }
    cbn [mbind outcome_bind].
    rewrite (cons_middle x pre post), app_assoc, (cons_middle x pre r), (app_assoc pre [x] r).
    replace (N.of_nat (length pre) + 1) with (N.of_nat (length (pre ++ [x]))) by (rewrite length_app; simpl; lia).
    apply IH. by injection Hlen.
Qed.

(** A report made from the counters and read back gives the same counters,
    for counters that hold one entry per authority (the check that
    [verify] makes of a report). *)
Theorem report_roundtrip (n : N) (m : ScoringMetricsV1) :
  report_verify (to_report m) n → from_report (to_report m) = Ret m.
Proof.
  destruct m as [p u s e]. unfold report_verify. simpl. rewrite !andb_True, !Is_true_true, !N.eqb_eq.
  intros [[[Hp Hu] He] Hs]. unfold from_report. cbn.
  assert (∀ l : list N, length l = length p →
    for_enumerate vec_set (replicate (N.to_nat (N.of_nat (length p))) 0) 0 l = Ret l) as Hset.
  { intros l Hl. apply (for_enumerate_set l [] (replicate _ 0)). rewrite length_replicate. lia. }
  rewrite !Hset by lia. done.
Qed.

Lemma report_roundtrip_witness :
  from_report (to_report (mk_metrics [1; 2] [0; 4] [5; 6] [7; 0])) = Ret (mk_metrics [1; 2] [0; 4] [5; 6] [7; 0]).
Proof. apply (report_roundtrip 2). by vm_compute. Defined.

(** ** Well-formed metric stores *)

(** One entry per authority in every vector. *)
Definition metrics_ok (n : N) (m : ScoringMetricsV1) : Prop :=
  length (m_faulty_blocks_provable m) = N.to_nat n ∧ length (m_faulty_blocks_unprovable m) = N.to_nat n ∧
  length (m_missing_proposals m) = N.to_nat n ∧ length (m_equivocations m) = N.to_nat n.

Definition metrics_store_ok (n : N) (s : MysticetiScoringMetricsStore) : Prop :=
  metrics_ok n (current_local_metrics_count s) ∧ metrics_ok n (cached_metrics s) ∧ metrics_ok n (uncached_metrics s).

Lemma vec_set_in {A} (l : list A) i x : (N.to_nat i < length l)%nat → vec_set l i x = Ret (<[N.to_nat i := x]> l).
Proof. intros Hi. by apply vec_set_ret. Qed.

Lemma vec_index_in {A} (l : list A) i : (N.to_nat i < length l)%nat → ∃ x, vec_index l i = Ret x.
Proof. intros [x Hx]%lookup_lt_is_Some_2. exists x. by apply vec_index_ret. Qed.

Lemma fetch_add_in (v : list N) i x : (N.to_nat i < length v)%nat →
  ∃ v', fetch_add v i x = Ret v' ∧ length v' = length v.
Proof.
  intros Hi. unfold fetch_add. destruct (vec_index_in v i Hi) as [old ->]. cbn. rewrite vec_set_in by done.
  eexists. split; [done|]. by rewrite length_insert.
Qed.

Lemma update_missing_ok n s missing eqs a t : metrics_store_ok n s → a < n →
  ∃ s', update_missing_blocks_and_equivocations s missing eqs a t = Ret s' ∧ metrics_store_ok n s'.
Proof.
  intros (Hc & Hca & Hu) Ha. destruct t; cbn [update_missing_blocks_and_equivocations].
  - destruct Hca as (?&?&?&?). unfold store_equivocations, store_missing_proposals. rewrite vec_set_in by lia. cbn.
    rewrite vec_set_in by lia. cbn. eexists. split; [done|]. split_and!; try done; split_and!; simpl; rewrite ?length_insert; done.
  - destruct Hu as (?&?&?&?). unfold increment_equivocations, increment_missing_proposals.
    destruct (fetch_add_in (m_equivocations (uncached_metrics s)) a eqs) as (v & -> & Hv); [lia|]. cbn.
    destruct (fetch_add_in (m_missing_proposals (uncached_metrics s)) a missing) as (w & -> & Hw); [lia|]. cbn.
    eexists. split; [done|]. split_and!; try done; split_and!; simpl; lia.
Qed.

Lemma update_current_ok n s a : metrics_store_ok n s → a < n →
  ∃ s', update_current_local_metrics_count s a = Ret s' ∧ metrics_store_ok n s' ∧ uncached_metrics s' = uncached_metrics s.
Proof.
  intros (Hc & Hca & Hu) Ha. unfold update_current_local_metrics_count. pose proof Hu as (?&?&?&?). destruct Hc as (?&?&?&?).
  destruct (vec_index_in (m_faulty_blocks_provable (uncached_metrics s)) a) as [p ->]; [lia|]. cbn [mbind outcome_bind].
  destruct (vec_index_in (m_faulty_blocks_unprovable (uncached_metrics s)) a) as [u ->]; [lia|]. cbn [mbind outcome_bind].
  destruct (vec_index_in (m_equivocations (uncached_metrics s)) a) as [e ->]; [lia|]. cbn [mbind outcome_bind].
  destruct (vec_index_in (m_missing_proposals (uncached_metrics s)) a) as [mp ->]; [lia|]. cbn [mbind outcome_bind].
  unfold store_faulty_blocks_provable, store_faulty_blocks_unprovable, store_equivocations, store_missing_proposals.
  do 4 (rewrite vec_set_in by (simpl; lia); cbn [mbind outcome_bind]).
  eexists. split; [done|]. split; [|done]. split_and!; try done; split_and!; simpl; rewrite ?length_insert; done.
Qed.

Lemma update_on_eviction_ok n s a refs e e0 t : metrics_store_ok n s → a < n →
  ∃ s' o, update_scoring_metrics_on_eviction s a refs e e0 t = Ret (s', o) ∧ metrics_store_ok n s'.
Proof.
  intros Hs Ha. unfold update_scoring_metrics_on_eviction. destruct (_ || _); [by exists s, None|].
  destruct (calculate_scoring_metrics_for_range _ _ _) as [x y].
  destruct (update_missing_ok n s y x a Cached Hs Ha) as (s1 & -> & Hs1). cbn [mbind outcome_bind].
  destruct (e =? e0); [by exists s1, None|]. destruct (calculate_scoring_metrics_for_range _ _ _) as [x' y'].
  destruct (update_missing_ok n s1 y' x' a Uncached Hs1 Ha) as (s2 & -> & Hs2). cbn [mbind outcome_bind].
  destruct (update_current_ok n s2 a Hs2 Ha) as (s3 & -> & Hs3 & _). cbn [mbind outcome_bind].
  pose proof Hs3 as (_ & _ & ?&?&?&?).
  destruct (vec_index_in (m_faulty_blocks_provable (uncached_metrics s3)) a) as [p ->]; [lia|]. cbn [mbind outcome_bind].
  destruct (vec_index_in (m_faulty_blocks_unprovable (uncached_metrics s3)) a) as [u ->]; [lia|]. cbn [mbind outcome_bind].
  destruct (vec_index_in (m_equivocations (uncached_metrics s3)) a) as [eq ->]; [lia|]. cbn [mbind outcome_bind].
  destruct (vec_index_in (m_missing_proposals (uncached_metrics s3)) a) as [mp ->]; [lia|]. cbn [mbind outcome_bind].
  by eexists _, _.
Qed.

(** A received block's error is charged within the vectors, whoever sent it. *)
Lemma update_on_receival_ok n s a e src : metrics_store_ok n s →
  ∃ s', update_scoring_metrics_on_block_receival s a e src = Ret s' ∧ metrics_store_ok n s'.
Proof.
  intros Hs. pose proof Hs as (Hc & (Hl & _) & Hu). unfold update_scoring_metrics_on_block_receival.
  destruct (N.leb_spec (N.of_nat (length (m_faulty_blocks_provable (cached_metrics s)))) a); [by exists s|].
  destruct Hu as (?&?&?&?). destruct (match src with SrcCommitSyncer => _ | _ => _ end); [| |by exists s].
  - unfold increment_faulty_blocks_provable.
    destruct (fetch_add_in (m_faulty_blocks_provable (uncached_metrics s)) a 1) as (v & -> & Hv); [lia|]. cbn.
    eexists. split; [done|]. split_and!; try apply Hs; split_and!; simpl; lia.
  - unfold increment_faulty_blocks_unprovable.
    destruct (fetch_add_in (m_faulty_blocks_unprovable (uncached_metrics s)) a 1) as (v & -> & Hv); [lia|]. cbn.
    eexists. split; [done|]. split_and!; try apply Hs; split_and!; simpl; lia.
Qed.
