(* ===== verification/LeaderScoring.v ===== *)
(** * Leader scoring: votes and reputation scores

    Models [consensus/core/src/leader_scoring.rs]: the scoring sub-dag, which
    collects the votes for committed leaders and the stake that includes each
    vote, and the older vote-scoring calculator over unscored sub-dags. *)
From S2P Require Import Prelude Committee Block StakeAggregator Commit.
Local Open Scope N_scope.
Local Open Scope rust_scope.

(** ** [ReputationScores] *)

Definition highest_score (s : ReputationScores) : N := foldl N.max 0 (scores_per_authority s).

Definition authorities_by_score (c : Committee) (s : ReputationScores) : outcome (list (AuthorityIndex * N)) :=
  mapM (λ '((i, score) : N * N),
    a ← expect (to_authority_index c i) "Should be a valid AuthorityIndex"; Ret (a, score))
    (zip (N.of_nat <$> seq 0 (length (scores_per_authority s))) (scores_per_authority s)).

(** ** [ScoringSubdag] *)

Record ScoringSubdag := mk_scoring {
  sc_commit_range : option CommitRange;
  sc_leaders : gset BlockRef;
  sc_votes : gmap BlockRef (StakeAggregator QuorumThreshold);
}.

Definition ScoringSubdag_new : ScoringSubdag := mk_scoring None ∅ ∅.

(** The body of the loop over the ancestors of [block]. *)
Definition score_ancestor (c : Committee) (leaders : gset BlockRef) (block : VerifiedBlock)
    (votes : gmap BlockRef (StakeAggregator QuorumThreshold)) (ancestor : BlockRef)
    : outcome (gmap BlockRef (StakeAggregator QuorumThreshold)) :=
  if negb (ref_round ancestor =? round block - 1) then Ret votes
  else
    votes ← (if bool_decide (ancestor ∈ leaders) then
               _ ← assert (bool_decide (votes !! reference block = None))
                     "Vote already exists. Duplicate vote found for leader";
               Ret (<[reference block := StakeAggregator_new]> votes)
             else Ret votes);
    match votes !! ancestor with
    | Some agg => '(agg, _) ← add agg (author block) c; Ret (<[ancestor := agg]> votes)
    | None => Ret votes
    end.

Definition score_block (c : Committee) (leaders : gset BlockRef)
    (votes : gmap BlockRef (StakeAggregator QuorumThreshold)) (block : VerifiedBlock) :=
  foldM (score_ancestor c leaders block) votes (ancestors block).

Definition add_subdag (c : Committee) (s : ScoringSubdag) (subdag : CommittedSubDag) : outcome ScoringSubdag :=
  let index := commit_ref_index (sub_dag_commit_ref subdag) in
  range ← (match sc_commit_range s with
           | None => Ret (CommitRange_new index index)
           | Some r => extend_to r index
           end);
  let leaders := {[sub_dag_leader subdag]} ∪ sc_leaders s in
  votes ← foldM (score_block c leaders) (sc_votes s) (sub_dag_blocks subdag);
  Ret (mk_scoring (Some range) leaders votes).

Definition add_subdags (c : Committee) (s : ScoringSubdag) (subdags : list CommittedSubDag) : outcome ScoringSubdag :=
  foldM (add_subdag c) s subdags.

Definition distributed_votes_scores (c : Committee) (s : ScoringSubdag) : outcome (list N) :=
  foldM (λ scores '((vote, agg) : BlockRef * StakeAggregator QuorumThreshold),
    old ← vec_index scores (ref_author vote);
    vec_set scores (ref_author vote) (old +64 agg_stake agg))
    (replicate (N.to_nat (committee_size c)) 0) (btree_entries (sc_votes s)).

Definition calculate_distributed_vote_scores (c : Committee) (s : ScoringSubdag) : outcome ReputationScores :=
  scores ← distributed_votes_scores c s;
  range ← expect (sc_commit_range s) "CommitRange should be set if calculate_scores is called.";
  Ret (mk_scores scores range).

Definition scored_subdags_count (s : ScoringSubdag) : outcome N :=
  match sc_commit_range s with Some r => range_size r | None => Ret 0 end.

Definition scoring_is_empty (s : ScoringSubdag) : bool :=
  bool_decide (sc_leaders s = ∅) && bool_decide (dom (sc_votes s) = ∅) && bool_decide (sc_commit_range s = None).

Definition scoring_clear (s : ScoringSubdag) : ScoringSubdag := mk_scoring None ∅ ∅.

(** ** [UnscoredSubdag] *)

Record UnscoredSubdag := mk_unscored {
  un_commit_range : CommitRange;
  un_committed_leaders : list BlockRef;
  un_blocks : gmap BlockRef VerifiedBlock;
}.

(** The commit indices are consecutive. *)
Fixpoint check_contiguous (subdags : list CommittedSubDag) : outcome unit :=
  match subdags with
  | s :: (s' :: _) as rest =>
    _ ← assert (commit_ref_index (sub_dag_commit_ref s') =? commit_ref_index (sub_dag_commit_ref s) +32 1)
          "Non-contiguous commit index";
    check_contiguous rest
  | _ => Ret tt
  end.

Definition UnscoredSubdag_new (subdags : list CommittedSubDag) : outcome UnscoredSubdag :=
  _ ← check_contiguous subdags;
  let blocks := foldl (λ m b, <[reference b := b]> m) ∅ (subdags ≫= sub_dag_blocks) in
  first ← expect (head subdags) "unwrap";
  last ← expect (last subdags) "unwrap";
  let range := CommitRange_new (commit_ref_index (sub_dag_commit_ref first))
                 (commit_ref_index (sub_dag_commit_ref last)) in
  _ ← assert (bool_decide (blocks ≠ ∅)) "Attempted to create UnscoredSubdag with no blocks";
  Ret (mk_unscored range (sub_dag_leader <$> subdags) blocks).

Definition un_get_block (u : UnscoredSubdag) (r : BlockRef) : option VerifiedBlock := un_blocks u !! r.

(** Each call recurses into an ancestor block; the ancestors of a verified block
    have lower rounds, so [round from + 1] nested calls are enough.  Without
    that bound the recursion would exhaust the stack. *)
Fixpoint find_supported_leader_block_fuel (fuel : nat) (u : UnscoredSubdag) (leader_slot : Slot)
    (from : VerifiedBlock) {struct fuel} : outcome (option BlockRef) :=
  match fuel with
  | O => Panic "stack overflow"
  | S fuel =>
    if round from <? slot_round leader_slot then Ret None
    else
      (fix go (ancs : list BlockRef) : outcome (option BlockRef) :=
        match ancs with
        | [] => Ret None
        | a :: ancs =>
          if bool_decide (ref_slot a = leader_slot) then Ret (Some a)
          else if ref_round a <=? slot_round leader_slot then go ancs
          else
            match un_get_block u a with
            | Some ab =>
              support ← find_supported_leader_block_fuel fuel u leader_slot ab;
              match support : option BlockRef with Some r => Ret (Some r) | None => go ancs end
            | None => Ret None
            end
        end) (ancestors from)
  end.

Definition find_supported_leader_block (u : UnscoredSubdag) (leader_slot : Slot) (from : VerifiedBlock)
    : outcome (option BlockRef) :=
  find_supported_leader_block_fuel (S (N.to_nat (round from))) u leader_slot from.

Definition un_is_vote (u : UnscoredSubdag) (potential_vote leader_block : VerifiedBlock) : outcome bool :=
  let r := reference leader_block in
  o ← find_supported_leader_block u (ref_slot r) potential_vote; Ret (bool_decide (o = Some r)).

Definition un_get_blocks_at_slot (u : UnscoredSubdag) (s : Slot) : outcome (list VerifiedBlock) :=
  kvs ← map_range (Included (mk_ref (slot_round s) (slot_authority s) DIGEST_MIN))
          (Included (mk_ref (slot_round s) (slot_authority s) DIGEST_MAX)) (un_blocks u);
  Ret (snd <$> (kvs : list (BlockRef * VerifiedBlock))).

Definition un_get_blocks_at_round (u : UnscoredSubdag) (r : Round) : outcome (list VerifiedBlock) :=
  kvs ← map_range (Included (mk_ref r AuthorityIndex_ZERO DIGEST_MIN))
          (Excluded (mk_ref (r +32 1) AuthorityIndex_ZERO DIGEST_MIN)) (un_blocks u);
  Ret (snd <$> (kvs : list (BlockRef * VerifiedBlock))).

(** ** [ReputationScoreCalculator] *)

Definition calculate_scores_for_leader (c : Committee) (u : UnscoredSubdag) (leader_slot : Slot) : outcome (list N) :=
  let scores := replicate (N.to_nat (committee_size c)) 0 in
  leader_blocks ← un_get_blocks_at_slot u leader_slot;
  match leader_blocks with
  | [] => Ret scores
  | leader_block :: _ =>
    _ ← assert (bool_decide (length leader_blocks = 1%nat)) "assertion failed: leader_blocks.len() == 1";
    voting_blocks ← un_get_blocks_at_round u (slot_round leader_slot +32 1);
    foldM (λ scores (potential_vote : VerifiedBlock),
      v ← un_is_vote u potential_vote leader_block;
      if v : bool then
        old ← vec_index scores (author potential_vote); vec_set scores (author potential_vote) (old +64 1)
      else Ret scores) scores voting_blocks
  end.

Definition add_scores (total scores : list N) : outcome (list N) :=
  _ ← assert (bool_decide (length scores = length total)) "assertion failed: scores.len()";
  Ret (zip_with (λ t s, t +64 s) total scores).

Definition calculate_reputation_scores (c : Committee) (unscored_subdags : list CommittedSubDag) : outcome ReputationScores :=
  _ ← assert (negb (bool_decide (unscored_subdags = []))) "Attempted to calculate scores with no unscored subdags";
  u ← UnscoredSubdag_new unscored_subdags;
  total ← foldM (λ total leader,
    scores ← calculate_scores_for_leader c u (ref_slot leader);
    add_scores total scores)
    (replicate (N.to_nat (committee_size c)) 0) (un_committed_leaders u);
  Ret (mk_scores total (un_commit_range u)).
