(* ===== verification/DagState.v ===== *)
(** * DagState: the accepted blocks and the commit bookkeeping

    Models [consensus/core/src/dag_state.rs].  The state is parameterised by the
    store.  Wall-clock readings are arguments.  Metrics and logging are left
    out.  A failed storage operation panics in the code and here. *)
From S2P Require Import Prelude Committee Block StakeAggregator ThresholdClock Commit Error Store ScoringMetrics.
From S2P Require Import LeaderScoring.
Local Open Scope N_scope.
Local Open Scope rust_scope.

Record BlockInfo := mk_block_info { bi_block : VerifiedBlock; bi_committed : bool }.

Definition BlockInfo_new (b : VerifiedBlock) : BlockInfo := mk_block_info b false.

Record DagState (St : Type) := mk_dag_state {
  ds_context : Context;
  ds_genesis : gmap BlockRef VerifiedBlock;
  ds_recent_blocks : gmap BlockRef BlockInfo;
  ds_recent_refs_by_authority : list (gset BlockRef);
  ds_threshold_clock : ThresholdClock;
  ds_evicted_rounds : list Round;
  ds_highest_accepted_round : Round;
  ds_last_commit : option TrustedCommit;
  ds_last_commit_round_advancement_time : option N;
  ds_last_committed_rounds : list Round;
  ds_scoring_subdag : ScoringSubdag;
  ds_unscored_committed_subdags : list CommittedSubDag;
  ds_pending_commit_votes : list CommitVote;
  ds_blocks_to_write : list VerifiedBlock;
  ds_commits_to_write : list TrustedCommit;
  ds_commit_info_to_write : list (CommitRef * CommitInfo);
  ds_store : St;
  ds_cached_rounds : Round;
  (* [context.scoring_metrics_store], which flushing updates *)
  ds_scoring_metrics : MysticetiScoringMetricsStore;
}.
Arguments mk_dag_state {_}.
Arguments ds_context {_}.
Arguments ds_genesis {_}.
Arguments ds_recent_blocks {_}.
Arguments ds_recent_refs_by_authority {_}.
Arguments ds_threshold_clock {_}.
Arguments ds_evicted_rounds {_}.
Arguments ds_highest_accepted_round {_}.
Arguments ds_last_commit {_}.
Arguments ds_last_commit_round_advancement_time {_}.
Arguments ds_last_committed_rounds {_}.
Arguments ds_scoring_subdag {_}.
Arguments ds_unscored_committed_subdags {_}.
Arguments ds_pending_commit_votes {_}.
Arguments ds_blocks_to_write {_}.
Arguments ds_commits_to_write {_}.
Arguments ds_commit_info_to_write {_}.
Arguments ds_store {_}.
Arguments ds_cached_rounds {_}.
Arguments ds_scoring_metrics {_}.

Section dag_state.
Context {St : Type} `{Store St}.
Implicit Type d : DagState St.

(** ** Field updates *)

Definition set_recent d blocks refs clock highest : DagState St :=
  mk_dag_state (ds_context d) (ds_genesis d) blocks refs clock (ds_evicted_rounds d) highest
    (ds_last_commit d) (ds_last_commit_round_advancement_time d) (ds_last_committed_rounds d)
    (ds_scoring_subdag d) (ds_unscored_committed_subdags d) (ds_pending_commit_votes d)
    (ds_blocks_to_write d) (ds_commits_to_write d) (ds_commit_info_to_write d) (ds_store d)
    (ds_cached_rounds d) (ds_scoring_metrics d).

Definition set_to_write d blocks commits infos : DagState St :=
  mk_dag_state (ds_context d) (ds_genesis d) (ds_recent_blocks d) (ds_recent_refs_by_authority d)
    (ds_threshold_clock d) (ds_evicted_rounds d) (ds_highest_accepted_round d)
    (ds_last_commit d) (ds_last_commit_round_advancement_time d) (ds_last_committed_rounds d)
    (ds_scoring_subdag d) (ds_unscored_committed_subdags d) (ds_pending_commit_votes d)
    blocks commits infos (ds_store d) (ds_cached_rounds d) (ds_scoring_metrics d).

Definition set_commit d last time rounds votes : DagState St :=
  mk_dag_state (ds_context d) (ds_genesis d) (ds_recent_blocks d) (ds_recent_refs_by_authority d)
    (ds_threshold_clock d) (ds_evicted_rounds d) (ds_highest_accepted_round d)
    last time rounds
    (ds_scoring_subdag d) (ds_unscored_committed_subdags d) votes
    (ds_blocks_to_write d) (ds_commits_to_write d) (ds_commit_info_to_write d) (ds_store d)
    (ds_cached_rounds d) (ds_scoring_metrics d).

Definition set_scoring d scoring unscored : DagState St :=
  mk_dag_state (ds_context d) (ds_genesis d) (ds_recent_blocks d) (ds_recent_refs_by_authority d)
    (ds_threshold_clock d) (ds_evicted_rounds d) (ds_highest_accepted_round d)
    (ds_last_commit d) (ds_last_commit_round_advancement_time d) (ds_last_committed_rounds d)
    scoring unscored (ds_pending_commit_votes d)
    (ds_blocks_to_write d) (ds_commits_to_write d) (ds_commit_info_to_write d) (ds_store d)
    (ds_cached_rounds d) (ds_scoring_metrics d).

Definition set_evicted d blocks refs evicted : DagState St :=
  mk_dag_state (ds_context d) (ds_genesis d) blocks refs
    (ds_threshold_clock d) evicted (ds_highest_accepted_round d)
    (ds_last_commit d) (ds_last_commit_round_advancement_time d) (ds_last_committed_rounds d)
    (ds_scoring_subdag d) (ds_unscored_committed_subdags d) (ds_pending_commit_votes d)
    (ds_blocks_to_write d) (ds_commits_to_write d) (ds_commit_info_to_write d) (ds_store d)
    (ds_cached_rounds d) (ds_scoring_metrics d).

Definition set_store d store metrics : DagState St :=
  mk_dag_state (ds_context d) (ds_genesis d) (ds_recent_blocks d) (ds_recent_refs_by_authority d)
    (ds_threshold_clock d) (ds_evicted_rounds d) (ds_highest_accepted_round d)
    (ds_last_commit d) (ds_last_commit_round_advancement_time d) (ds_last_committed_rounds d)
    (ds_scoring_subdag d) (ds_unscored_committed_subdags d) (ds_pending_commit_votes d)
    (ds_blocks_to_write d) (ds_commits_to_write d) (ds_commit_info_to_write d) store
    (ds_cached_rounds d) metrics.

(** ** Commit state *)

Definition last_commit_index d : CommitIndex :=
  match ds_last_commit d with Some c => commit_index c | None => 0 end.

Definition last_commit_digest d : CommitDigest :=
  match ds_last_commit d with Some c => commit_digest c | None => DIGEST_MIN end.

Definition last_commit_timestamp_ms d : BlockTimestampMs :=
  match ds_last_commit d with Some c => commit_timestamp_ms c | None => 0 end.

Definition last_commit_leader d : outcome Slot :=
  match ds_last_commit d with
  | Some c => Ret (ref_slot (commit_leader c))
  | None => r ← expect (btree_first (dom (ds_genesis d))) "Genesis blocks should always be available.";
            Ret (ref_slot r)
  end.

Definition last_commit_round d : Round :=
  match ds_last_commit d with Some c => ref_round (commit_leader c) | None => 0 end.

Definition calculate_gc_round d (commit_round : Round) : Round :=
  let depth := gc_depth (protocol_config (ds_context d)) in
  if 0 <? depth then commit_round - depth else GENESIS_ROUND.

Definition gc_round d : Round := calculate_gc_round d (last_commit_round d).

Definition gc_enabled d : bool := 0 <? gc_depth (protocol_config (ds_context d)).

(** ** Reading blocks *)

(** The blocks that [get_blocks] finds in memory; [None] is a reference that
    must be looked up in the store. *)
Definition get_cached d (r : BlockRef) : option (option VerifiedBlock) :=
  if ref_round r =? GENESIS_ROUND then Some (ds_genesis d !! r)
  else match ds_recent_blocks d !! r with Some i => Some (Some (bi_block i)) | None => None end.

(** Puts the results for the missing references in their places. *)
Fixpoint fill_missing {A} (found : list (option A)) (results : list A) (dflt : A) : list A :=
  match found with
  | [] => []
  | Some x :: found => x :: fill_missing found results dflt
  | None :: found =>
    match results with
    | x :: results => x :: fill_missing found results dflt
    | [] => dflt :: fill_missing found [] dflt
    end
  end.

Definition missing_refs {A} (refs : list BlockRef) (found : list (option A)) : list BlockRef :=
  (filter (λ p : BlockRef * option A, p.2 = None) (zip refs found)).*1.

Definition get_blocks d (refs : list BlockRef) : outcome (list (option VerifiedBlock)) :=
  let found := get_cached d <$> refs in
  let missing := missing_refs refs found in
  match missing with
  | [] => Ret (fill_missing found [] None)
  | _ =>
    results ← unwrapM (read_blocks (ds_store d) missing) "Failed to read from storage";
    Ret (fill_missing found results None)
  end.

Definition get_block d (r : BlockRef) : outcome (option VerifiedBlock) :=
  blocks ← get_blocks d [r];
  expect (last blocks) "Exactly one element should be returned".

Definition set_committed d (r : BlockRef) : outcome (DagState St * bool) :=
  match ds_recent_blocks d !! r with
  | Some i =>
    if bi_committed i then Ret (d, false)
    else Ret (set_recent d (<[r := mk_block_info (bi_block i) true]> (ds_recent_blocks d))
                (ds_recent_refs_by_authority d) (ds_threshold_clock d) (ds_highest_accepted_round d), true)
  | None => Panic "Block not found in cache to set as committed."
  end.

Definition is_committed d (r : BlockRef) : outcome bool :=
  i ← expect (ds_recent_blocks d !! r) "Attempted to query for commit status for a block not in cached data";
  Ret (bi_committed i).

Definition slot_lo (s : Slot) : bound BlockRef := Included (mk_ref (slot_round s) (slot_authority s) DIGEST_MIN).
Definition slot_hi (s : Slot) : bound BlockRef := Included (mk_ref (slot_round s) (slot_authority s) DIGEST_MAX).
Definition round_start (r : Round) : BlockRef := mk_ref r AuthorityIndex_ZERO DIGEST_MIN.

Definition get_uncommitted_blocks_at_slot d (s : Slot) : outcome (list VerifiedBlock) :=
  kvs ← map_range (slot_lo s) (slot_hi s) (ds_recent_blocks d);
  Ret ((λ kv, bi_block kv.2) <$> (kvs : list (BlockRef * BlockInfo))).

Definition get_uncommitted_blocks_at_round d (r : Round) : outcome (list VerifiedBlock) :=
  if r <=? last_commit_round d then Panic "Round have committed blocks!"
  else
    kvs ← map_range (Included (round_start r)) (Excluded (round_start (r +32 1))) (ds_recent_blocks d);
    Ret ((λ kv, bi_block kv.2) <$> (kvs : list (BlockRef * BlockInfo))).

(** The [while] loop of [ancestors_at_round]; [fuel] bounds its iterations. *)
Fixpoint drain_linked (fuel : nat) d (earlier_round : Round) (linked : gset BlockRef) : outcome (gset BlockRef) :=
  match fuel with
  | O => Panic "out of fuel"
  | S fuel =>
    match btree_last linked with
    | None => Ret linked
    | Some block_ref =>
      if ref_round block_ref <=? earlier_round then Ret linked
      else
        o ← get_block d block_ref;
        match o : option VerifiedBlock with
        | None => Panic "Block should exist in DAG!"
        | Some block =>
          drain_linked fuel d earlier_round (list_to_set (ancestors block) ∪ linked ∖ {[block_ref]})
        end
    end
  end.

Definition ancestors_at_round (fuel : nat) d (later_block : VerifiedBlock) (earlier_round : Round)
    : outcome (list VerifiedBlock) :=
  linked ← drain_linked fuel d earlier_round (list_to_set (ancestors later_block));
  refs ← set_range (Included (round_start earlier_round)) Unbounded linked;
  mapM (λ r, o ← get_block d r; expect o "Block should exist in DAG!") refs.

Definition get_last_block_for_authority d (a : AuthorityIndex) : outcome VerifiedBlock :=
  refs ← vec_index (ds_recent_refs_by_authority d) a;
  match btree_last (refs : gset BlockRef) with
  | Some last => i ← expect (ds_recent_blocks d !! last) "Block should be found in recent blocks"; Ret (bi_block i)
  | None =>
    kv ← expect (head (filter (λ kv : BlockRef * VerifiedBlock, ref_author kv.1 = a) (btree_entries (ds_genesis d))))
           "Genesis should be found for authority {authority_index}";
    Ret (snd (kv : BlockRef * VerifiedBlock))
  end.

Definition get_last_proposed_block d : outcome VerifiedBlock :=
  get_last_block_for_authority d (own_index (ds_context d)).

Definition get_cached_blocks_in_range d (a : AuthorityIndex) (start_round end_round : Round) (limit : N)
    : outcome (list VerifiedBlock) :=
  if (end_round <=? start_round) || (limit =? 0) then Ret []
  else
    refs ← vec_index (ds_recent_refs_by_authority d) a;
    rs ← set_range (Included (mk_ref start_round a DIGEST_MIN)) (Excluded (round_start end_round)) (refs : gset BlockRef);
    mapM (λ r, i ← expect (ds_recent_blocks d !! r) "Block should exist in recent blocks"; Ret (bi_block i))
      (iter_take limit rs).

Definition get_cached_blocks d (a : AuthorityIndex) (start : Round) : outcome (list VerifiedBlock) :=
  get_cached_blocks_in_range d a start U32_MAX U64_MAX.

Definition get_last_cached_block_in_range d (a : AuthorityIndex) (start_round end_round : Round)
    : outcome (option VerifiedBlock) :=
  if end_round <=? start_round then Ret None
  else
    refs ← vec_index (ds_recent_refs_by_authority d) a;
    rs ← set_range (Included (mk_ref start_round a DIGEST_MIN)) (Excluded (round_start end_round)) (refs : gset BlockRef);
    Ret (match last rs with
         | Some r => bi_block <$> ds_recent_blocks d !! r
         | None => None
         end).

(** The loop over one authority's references, latest first: the first one is
    the block, the others of its round are equivocations. *)
Definition last_and_equivocations d (rs : list BlockRef) : outcome (option (VerifiedBlock * list BlockRef)) :=
  match rs with
  | [] => Ret None
  | r :: rs =>
    i ← expect (ds_recent_blocks d !! r) "Block should exist in recent blocks";
    Ret (Some (bi_block i, take_while (λ r', negb (ref_round r' <? ref_round r)) rs))
  end.

Definition get_last_cached_block_per_authority d (end_round : Round)
    : outcome (list (VerifiedBlock * list BlockRef)) :=
  let blocks := snd <$> btree_entries (ds_genesis d) in
  let equivocating_blocks := replicate (N.to_nat (committee_size (committee (ds_context d)))) [] in
  if end_round =? GENESIS_ROUND
  then Panic "Attempted to retrieve blocks earlier than the genesis round which is not possible"
  else if end_round =? GENESIS_ROUND + 1 then Ret ((λ b, (b, [])) <$> blocks)
  else
    '(blocks, equivocating_blocks) ←
      foldM (λ '((blocks, equivocating_blocks) : list VerifiedBlock * list (list BlockRef))
               '((i, refs) : N * gset BlockRef),
        a ← expect (to_authority_index (committee (ds_context d)) i) "unwrap";
        last_evicted_round ← vec_index (ds_evicted_rounds d) a;
        if end_round - 1 <=? last_evicted_round
        then Panic "Attempted to request for blocks of rounds < end_round, when the last evicted round is later"
        else
          rs ← set_range (Included (mk_ref (last_evicted_round +32 1) a DIGEST_MIN))
                 (Excluded (mk_ref end_round a DIGEST_MIN)) refs;
          found ← last_and_equivocations d (reverse rs);
          match found : option (VerifiedBlock * list BlockRef) with
          | None => Ret (blocks, equivocating_blocks)
          | Some (b, eqs) =>
            blocks ← vec_set blocks a b;
            equivocating_blocks ← vec_set equivocating_blocks a eqs;
            Ret (blocks, equivocating_blocks)
          end) (blocks, equivocating_blocks) (enumerate (ds_recent_refs_by_authority d));
    Ret (zip blocks equivocating_blocks).

Definition contains_cached_block_at_slot d (s : Slot) : outcome bool :=
  if slot_round s =? GENESIS_ROUND then Ret true
  else
    eviction_round ← vec_index (ds_evicted_rounds d) (slot_authority s);
    if slot_round s <=? eviction_round then Panic "Attempted to check for slot that is <= the last evicted round"
    else
      refs ← vec_index (ds_recent_refs_by_authority d) (slot_authority s);
      rs ← set_range (slot_lo s) (slot_hi s) (refs : gset BlockRef);
      Ret (negb (bool_decide (rs = []))).

(** Whether memory decides that a block exists; [None] asks the store. *)
Definition contains_cached d (r : BlockRef) : outcome (option bool) :=
  refs ← vec_index (ds_recent_refs_by_authority d) (ref_author r);
  Ret (if bool_decide (r ∈ (refs : gset BlockRef)) || bool_decide (is_Some (ds_genesis d !! r)) then Some true
       else match btree_last (refs : gset BlockRef) with
            | None => Some false
            | Some last => if ref_round last <? ref_round r then Some false else None
            end).

Definition contains_blocks d (refs : list BlockRef) : outcome (list bool) :=
  found ← mapM (contains_cached d) refs;
  match missing_refs refs found with
  | [] => Ret (fill_missing found [] false)
  | missing =>
    results ← unwrapM (store_contains_blocks (ds_store d) missing) "Failed to read from storage";
    Ret (fill_missing found results false)
  end.

Definition contains_block d (r : BlockRef) : outcome bool :=
  blocks ← contains_blocks d [r]; expect (head blocks) "unwrap".

(** ** Accepting blocks *)

Definition update_block_metadata (instant : N) d (b : VerifiedBlock) : outcome (DagState St) :=
  let r := reference b in
  let blocks := <[r := BlockInfo_new b]> (ds_recent_blocks d) in
  refs ← vec_index (ds_recent_refs_by_authority d) (ref_author r);
  all_refs ← vec_set (ds_recent_refs_by_authority d) (ref_author r) ({[r]} ∪ (refs : gset BlockRef));
  clock ← clock_add_block (committee (ds_context d)) instant (ds_threshold_clock d) r;
  _ ← authority (committee (ds_context d)) (ref_author r);
  Ret (set_recent d blocks all_refs clock (N.max (ds_highest_accepted_round d) (round b))).

(** [now] is [timestamp_utc_ms()], [instant] the monotonic clock. *)
Definition accept_block (now instant : N) d (b : VerifiedBlock) : outcome (DagState St) :=
  _ ← assert (negb (round b =? 0)) "Genesis block should not be accepted into DAG.";
  let r := reference b in
  contained ← contains_block d r;
  if contained : bool then Ret d
  else
    _ ← assert ((timestamp_ms b <=? now) ||
                consensus_median_timestamp_with_checkpoint_enforcement (protocol_config (ds_context d)))
          "Block cannot be accepted! Block timestamp is greater than local timestamp.";
    _ ← authority (committee (ds_context d)) (ref_author r);
    _ ← (if ref_author r =? own_index (ds_context d) then
           existing ← get_uncommitted_blocks_at_slot d (ref_slot r);
           assert (bool_decide (existing = []))
             "Block Rejected! Attempted to add block to own slot where block(s) already exists."
         else Ret tt);
    d ← update_block_metadata instant d b;
    Ret (set_to_write d (ds_blocks_to_write d ++ [b]) (ds_commits_to_write d) (ds_commit_info_to_write d)).

Definition accept_blocks (now instant : N) d (bs : list VerifiedBlock) : outcome (DagState St) :=
  foldM (accept_block now instant) d bs.

(** ** Commits *)

(** [for block_ref in blocks { rounds[author] = max(rounds[author], round) }]. *)
Definition raise_rounds (rounds : list Round) (refs : list BlockRef) : outcome (list Round) :=
  foldM (λ rounds r,
    old ← vec_index rounds (ref_author r); vec_set rounds (ref_author r) (N.max old (ref_round r))) rounds refs.

Definition add_commit (instant : N) d (commit : TrustedCommit) : outcome (DagState St) :=
  let go :=
    let advanced := match ds_last_commit d with
                    | Some prev => commit_round prev <? commit_round commit
                    | None => true
                    end in
    let time := if advanced then Some instant else ds_last_commit_round_advancement_time d in
    rounds ← raise_rounds (ds_last_committed_rounds d) (commit_blocks commit);
    _ ← mapM (λ i, a ← expect (to_authority_index (committee (ds_context d)) i) "unwrap";
                   authority (committee (ds_context d)) a)
          (N.of_nat <$> seq 0 (length rounds));
    let d := set_commit d (Some commit) time rounds (ds_pending_commit_votes d ++ [commit_reference commit]) in
    Ret (set_to_write d (ds_blocks_to_write d) (ds_commits_to_write d ++ [commit]) (ds_commit_info_to_write d)) in
  match ds_last_commit d with
  | Some last =>
    if commit_index commit <=? commit_index last then Ret d
    else
      _ ← assert (commit_index commit =? commit_index last +32 1) "assertion failed: commit index";
      if commit_timestamp_ms commit <? commit_timestamp_ms last
      then Panic "Commit timestamps do not monotonically increment"
      else go
  | None => _ ← assert (commit_index commit =? 1) "assertion failed: commit index"; go
  end.

Definition add_commit_info d (scores : ReputationScores) : outcome (DagState St) :=
  _ ← assert (bool_decide (ds_unscored_committed_subdags d = [])) "assertion failed: unscored_committed_subdags";
  _ ← assert (scoring_is_empty (ds_scoring_subdag d)) "assertion failed: scoring_subdag";
  last ← expect (ds_last_commit d) "Last commit should already be set.";
  Ret (set_to_write d (ds_blocks_to_write d) (ds_commits_to_write d)
        (ds_commit_info_to_write d ++ [(commit_reference last, mk_commit_info (ds_last_committed_rounds d) scores)])).

Definition take_commit_votes d (limit : N) : DagState St * list CommitVote :=
  let n := N.to_nat limit in
  (set_commit d (ds_last_commit d) (ds_last_commit_round_advancement_time d) (ds_last_committed_rounds d)
     (drop n (ds_pending_commit_votes d)),
   take n (ds_pending_commit_votes d)).

Definition recover_last_commit_info d : outcome (option (CommitRef * CommitInfo)) :=
  unwrapM (read_last_commit_info (ds_store d)) "Failed to read from storage".

(** ** Scoring *)

Definition unscored_committed_subdags_count d : N := N.of_nat (length (ds_unscored_committed_subdags d)).

Definition add_unscored_committed_subdags d (subdags : list CommittedSubDag) : DagState St :=
  set_scoring d (ds_scoring_subdag d) (ds_unscored_committed_subdags d ++ subdags).

Definition take_unscored_committed_subdags d : DagState St * list CommittedSubDag :=
  (set_scoring d (ds_scoring_subdag d) [], ds_unscored_committed_subdags d).

Definition add_scoring_subdags d (subdags : list CommittedSubDag) : outcome (DagState St) :=
  s ← add_subdags (committee (ds_context d)) (ds_scoring_subdag d) subdags;
  Ret (set_scoring d s (ds_unscored_committed_subdags d)).

Definition clear_scoring_subdag d : DagState St :=
  set_scoring d (scoring_clear (ds_scoring_subdag d)) (ds_unscored_committed_subdags d).

Definition scoring_subdags_count d : outcome N := scored_subdags_count (ds_scoring_subdag d).

Definition is_scoring_subdag_empty d : bool := scoring_is_empty (ds_scoring_subdag d).

Definition calculate_scoring_subdag_scores d : outcome ReputationScores :=
  calculate_distributed_vote_scores (committee (ds_context d)) (ds_scoring_subdag d).

Definition scoring_subdag_commit_range d : outcome CommitIndex :=
  r ← expect (sc_commit_range (ds_scoring_subdag d)) "commit range should exist for scoring subdag";
  Ret (range_end r).

(** ** Flushing and eviction *)

Definition eviction_round (commit_round cached_rounds : Round) : Round := commit_round - cached_rounds.

Definition gc_eviction_round (last_round gc_round cached_rounds : Round) : Round :=
  N.min gc_round (last_round - cached_rounds).

Definition calculate_authority_eviction_round d (a : AuthorityIndex) : outcome Round :=
  if gc_enabled d then
    refs ← vec_index (ds_recent_refs_by_authority d) a;
    let last_round := match btree_last (refs : gset BlockRef) with Some r => ref_round r | None => GENESIS_ROUND end in
    Ret (gc_eviction_round last_round (gc_round d) (ds_cached_rounds d))
  else
    commit_round ← vec_index (ds_last_committed_rounds d) a;
    Ret (eviction_round commit_round (ds_cached_rounds d)).

Definition flush_metrics d
    : outcome (MysticetiScoringMetricsStore * list (AuthorityIndex * StorageScoringMetrics)) :=
  foldM (λ '((s, to_write) : MysticetiScoringMetricsStore * list (AuthorityIndex * StorageScoringMetrics))
           '((a, _) : AuthorityIndex * Authority),
    last_eviction_round ← vec_index (ds_evicted_rounds d) a;
    current_eviction_round ← calculate_authority_eviction_round d a;
    refs ← vec_index (ds_recent_refs_by_authority d) a;
    '(s, o) ← update_scoring_metrics_on_eviction s a refs current_eviction_round last_eviction_round
                (clock_round (ds_threshold_clock d));
    Ret (s, match o : option StorageScoringMetrics with Some m => to_write ++ [(a, m)] | None => to_write end))
    (ds_scoring_metrics d, []) (authorities (committee (ds_context d))).

(** The [while let] loop that pops the first references of an authority. *)
Definition evict_authority d (a : AuthorityIndex) : outcome (DagState St) :=
  eviction_round ← calculate_authority_eviction_round d a;
  refs ← vec_index (ds_recent_refs_by_authority d) a;
  let evicted := take_while (λ r, ref_round r <=? eviction_round) (btree_iter (refs : gset BlockRef)) in
  all_refs ← vec_set (ds_recent_refs_by_authority d) a (refs ∖ list_to_set evicted);
  evicted_rounds ← vec_set (ds_evicted_rounds d) a eviction_round;
  Ret (set_evicted d (foldl (λ m r, delete r m) (ds_recent_blocks d) evicted) all_refs evicted_rounds).

Definition flush d : outcome (DagState St) :=
  let blocks := ds_blocks_to_write d in
  let commits := ds_commits_to_write d in
  let infos := ds_commit_info_to_write d in
  let d := set_to_write d [] [] [] in
  if bool_decide (blocks = []) && bool_decide (commits = []) then Ret d
  else
    '(metrics, metrics_to_write) ← flush_metrics d;
    store ← unwrapM (store_write (ds_store d) (mk_batch blocks commits infos metrics_to_write))
              "Failed to write to storage";
    foldM (λ d '((a, _) : AuthorityIndex * Authority), evict_authority d a)
      (set_store d store metrics) (authorities (committee (ds_context d))).

(** ** Recovery from storage *)

(** The committed rounds and the sub-dags of the commits after the last stored
    [CommitInfo]. *)
Definition recover_commits (num_authorities : N) (s : St) (last_commit : option TrustedCommit)
    : outcome (list Round * list CommittedSubDag) :=
  commit_info ← unwrapM (read_last_commit_info s) "Failed to read from storage";
  let '(rounds, start) := match commit_info : option (CommitRef * CommitInfo) with
                          | Some (r, i) => (committed_rounds i, commit_ref_index r +32 1)
                          | None => (replicate (N.to_nat num_authorities) 0, GENESIS_COMMIT_INDEX + 1)
                          end in
  match last_commit with
  | None => Ret (rounds, [])
  | Some last =>
    r ← scan_commits s (CommitRange_new start (commit_index last));
    commits ← unwrap (r : ConsensusResult (list TrustedCommit)) "Failed to read from storage";
    foldM (λ '((rounds, subdags) : list Round * list CommittedSubDag) (commit : TrustedCommit),
      rounds ← raise_rounds rounds (commit_blocks commit);
      subdag ← load_committed_subdag_from_store s commit [];
      Ret (rounds, subdags ++ [subdag])) (rounds, []) commits
  end.

(** Loads the cached blocks of authority [i], whose last committed round is
    [round]. *)
Definition recover_authority (instant : N) d (i : N) (round : Round) : outcome (DagState St) :=
  a ← expect (to_authority_index (committee (ds_context d)) i) "unwrap";
  eviction ← (if gc_enabled d then
      r ← scan_last_blocks_by_author (ds_store d) a 1 None;
      last_block ← unwrap (r : ConsensusResult (list VerifiedBlock)) "Database error";
      let last_block_round := match last (last_block : list VerifiedBlock) with Some b => Block.round b | None => GENESIS_ROUND end in
      Ret (gc_eviction_round last_block_round (gc_round d) (ds_cached_rounds d))
    else Ret (eviction_round round (ds_cached_rounds d)));
  r ← scan_blocks_by_author (ds_store d) a (eviction +32 1);
  blocks ← unwrap (r : ConsensusResult (list VerifiedBlock)) "Database error";
  evicted_rounds ← vec_set (ds_evicted_rounds d) a eviction;
  foldM (update_block_metadata instant)
    (set_evicted d (ds_recent_blocks d) (ds_recent_refs_by_authority d) evicted_rounds) blocks.

(** The loop that marks the blocks of the latest commits, from index [n] down. *)
Fixpoint recover_commit_statuses (n : nat) (gc_round : Round) d : outcome (DagState St) :=
  let index := N.of_nat n in
  r ← scan_commits (ds_store d) (CommitRange_new index index);
  commits ← unwrap (r : ConsensusResult (list TrustedCommit)) "Failed to read from storage";
  match head (commits : list TrustedCommit) with
  | None => Ret d
  | Some commit =>
    if (0 <? gc_round) && (ref_round (commit_leader commit) <=? gc_round) then Ret d
    else
      d ← foldM (λ d r,
            '(d, b) ← set_committed d r;
            _ ← assert b "Attempted to set again a block as committed when recovering commit";
            Ret d) d (filter (λ r, gc_round < ref_round r) (commit_blocks commit));
      match n with
      | S (S _ as n') => recover_commit_statuses n' gc_round d
      | _ => Ret d
      end
  end.

Definition DagState_new `{Crypto} (instant : N) (ctx : Context) (metrics : MysticetiScoringMetricsStore) (s : St)
    : outcome (DagState St) :=
  let c := committee ctx in
  gs ← genesis_blocks ctx;
  last_commit ← unwrapM (read_last_commit s) "Failed to read from storage";
  '(rounds, unscored) ← recover_commits (committee_size c) s last_commit;
  '(scoring, unscored) ←
    (if consensus_distributed_vote_scoring_strategy (protocol_config ctx)
     then sc ← add_subdags c ScoringSubdag_new unscored; Ret (sc, [])
     else Ret (ScoringSubdag_new, unscored));
  let d := mk_dag_state ctx (insert_blocks gs ∅) ∅
             (replicate (N.to_nat (committee_size c)) ∅) (ThresholdClock_new 1 instant)
             (replicate (N.to_nat (committee_size c)) 0) 0 last_commit None rounds scoring unscored
             [] [] [] [] s (dag_state_cached_rounds ctx) metrics in
  d ← foldM (λ d '((i, round) : N * Round), recover_authority instant d i round) d (enumerate rounds);
  recovered ← unwrapM (scan_scoring_metrics (ds_store d)) "Database error";
  metrics ← initialize_scoring_metrics c (ds_scoring_metrics d) recovered (ds_recent_refs_by_authority d)
              (clock_round (ds_threshold_clock d)) (ds_evicted_rounds d);
  let d := set_store d (ds_store d) metrics in
  if gc_enabled d then
    match last_commit with
    | Some last => recover_commit_statuses (N.to_nat (commit_index last)) (gc_round d) d
    | None => Ret d
    end
  else Ret d.
End dag_state.
