(* ===== verification/LeaderSchedule.v ===== *)
(** * LeaderSchedule: electing and swapping leaders

    Models [consensus/core/src/leader_schedule.rs].  The random generator of the
    [rand] crate is the class [Rng]: the weighted shuffle that elects a leader,
    the shuffle of equal scores and the choice of a good node, each a function
    of its seed.  What the code relies on is [RngLaws]. *)
From S2P Require Import Prelude Committee Block StakeAggregator Commit Error Store ScoringMetrics LeaderScoring.
From S2P Require Import DagState.
Local Open Scope N_scope.
Local Open Scope rust_scope.

(** [rand] seeded by the 32 bytes that the code fills from its integers. *)
Class Rng := {
  (* [choose_multiple_weighted(rng, amount, weight)], [None] on a weight error; the
     weights are the stakes, which the code converts to [f32] *)
  choose_multiple_weighted : N → list (AuthorityIndex * Stake) → N → option (list AuthorityIndex);
  (* [shuffle] of the (authority, score) pairs *)
  rng_shuffle : N → list (AuthorityIndex * N) → list (AuthorityIndex * N);
  (* [choose] of a slice element *)
  rng_choose : N → N → list (AuthorityIndex * string * Stake) → option (AuthorityIndex * string * Stake);
}.

Class RngLaws `{Rng} := {
  choose_multiple_weighted_perm seed l : l ≠ [] → (∀ x, x ∈ l → 0 < x.2) →
    ∃ l', choose_multiple_weighted seed l (N.of_nat (length l)) = Some l' ∧ l' ≡ₚ l.*1;
  rng_shuffle_perm seed l : rng_shuffle seed l ≡ₚ l;
  rng_choose_elem seed offset l : l ≠ [] → ∃ x, rng_choose seed offset l = Some x ∧ x ∈ l;
  rng_choose_nil seed offset : rng_choose seed offset [] = None;
}.

Record LeaderSwapTable := mk_swap_table {
  good_nodes : list (AuthorityIndex * string * Stake);
  bad_nodes : gmap AuthorityIndex (string * Stake);
  reputation_scores_desc : list (AuthorityIndex * N);
  swap_reputation_scores : ReputationScores;
}.

Definition ReputationScores_default : ReputationScores := mk_scores [] CommitRange_default.
Definition LeaderSwapTable_default : LeaderSwapTable := mk_swap_table [] ∅ [] ReputationScores_default.

Record LeaderSchedule := mk_leader_schedule {
  leader_swap_table : LeaderSwapTable;
  ls_context : Context;
  num_commits_per_schedule : N;
}.

Definition CONSENSUS_COMMITS_PER_SCHEDULE : N := 300.

Definition LeaderSchedule_new (ctx : Context) (table : LeaderSwapTable) : LeaderSchedule :=
  mk_leader_schedule table ctx CONSENSUS_COMMITS_PER_SCHEDULE.

(** The loop of [retrieve_first_nodes] with the stake accumulated so far. *)
Fixpoint retrieve_first_nodes (c : Committee) (stake_threshold : N) (stake : Stake)
    (authorities : list (AuthorityIndex * N)) : outcome (list (AuthorityIndex * string * Stake)) :=
  match authorities with
  | [] => Ret []
  | (a, _) :: rest =>
    s ← committee_stake c a;
    let stake := stake +64 s in
    if (stake_threshold *64 total_stake c) / 100 <? stake then Ret []
    else
      auth ← authority c a;
      nodes ← retrieve_first_nodes c stake_threshold stake rest;
      Ret ((a, hostname auth, Committee.stake auth) :: nodes)
  end.

(** [sort_by(|a1, a2| a2.1.cmp(&a1.1))]: by score, highest first. *)
Definition score_desc (a1 a2 : AuthorityIndex * N) : bool := a2.2 <=? a1.2.

Section schedule.
Context `{Rng}.

Definition LeaderSwapTable_new_inner (ctx : Context) (swap_stake_threshold : N) (index : CommitIndex)
    (scores : ReputationScores) : outcome LeaderSwapTable :=
  let c := committee ctx in
  _ ← assert (swap_stake_threshold <=? 33)
        "The swap_stake_threshold should be in range [0 - 33], out of bounds parameter detected";
  if bool_decide (scores_per_authority scores = []) then Ret LeaderSwapTable_default
  else
    by_score ← authorities_by_score c scores;
    _ ← assert (N.of_nat (length by_score) =? committee_size c) "assertion failed: authorities_by_score.len()";
    let by_score := stable_sort score_desc (rng_shuffle index by_score) in
    good ← retrieve_first_nodes c swap_stake_threshold 0 by_score;
    bad ← retrieve_first_nodes c swap_stake_threshold 0 (reverse by_score);
    Ret (mk_swap_table good
          (list_to_map ((λ '((i, h, s) : AuthorityIndex * string * Stake), (i, (h, s))) <$> bad))
          by_score scores).

Definition LeaderSwapTable_new (ctx : Context) (index : CommitIndex) (scores : ReputationScores)
    : outcome LeaderSwapTable :=
  LeaderSwapTable_new_inner ctx (consensus_bad_nodes_stake_threshold (protocol_config ctx)) index scores.

Definition swap (t : LeaderSwapTable) (leader : AuthorityIndex) (leader_round : Round) (leader_offset : N)
    : outcome (option AuthorityIndex) :=
  match bad_nodes t !! leader with
  | Some _ =>
    _ ← assert (leader_offset =? 0) "Swap for multi-leader case not implemented yet.";
    x ← expect (rng_choose leader_round leader_offset (good_nodes t))
          "There should be at least one good node available";
    Ret (Some (x : AuthorityIndex * string * Stake).1.1)
  | None => Ret None
  end.

Definition elect_leader_stake_based (s : LeaderSchedule) (r : Round) (offset : N) : outcome AuthorityIndex :=
  let c := committee (ls_context s) in
  _ ← assert (offset <? committee_size c) "assertion failed: offset";
  let choices := (λ '((i, a) : AuthorityIndex * Authority), (i, Committee.stake a)) <$> authorities c in
  order ← expect (choose_multiple_weighted r choices (committee_size c))
            "Weighted choice error: stake values incorrect!";
  expect (head (drop (N.to_nat offset) (order : list AuthorityIndex))) "unwrap".

Definition elect_leader (s : LeaderSchedule) (r : Round) (leader_offset : N) : outcome AuthorityIndex :=
  leader ← elect_leader_stake_based s r leader_offset;
  o ← swap (leader_swap_table s) leader r leader_offset;
  Ret (default leader o).

Definition update_leader_swap_table (s : LeaderSchedule) (table : LeaderSwapTable) : outcome LeaderSchedule :=
  let old_range := scores_commit_range (swap_reputation_scores (leader_swap_table s)) in
  let new_range := scores_commit_range (swap_reputation_scores table) in
  _ ← (if bool_decide (old_range = CommitRange_default) then Ret tt
       else
         ok ← (if is_next_range old_range new_range then is_equal_size old_range new_range else Ret false);
         assert ok "The new LeaderSwapTable has an invalid CommitRange.");
  Ret (mk_leader_schedule table (ls_context s) (num_commits_per_schedule s)).

Section with_store.
Context {St : Type} `{Store St}.

Definition LeaderSchedule_from_store (ctx : Context) (d : DagState St) : outcome LeaderSchedule :=
  info ← recover_last_commit_info d;
  table ← (match info : option (CommitRef * CommitInfo) with
           | None => Ret LeaderSwapTable_default
           | Some (r, i) => LeaderSwapTable_new ctx (commit_ref_index r) (reputation_scores i)
           end);
  _ ← (if consensus_distributed_vote_scoring_strategy (protocol_config ctx) then scoring_subdags_count d
       else Ret 0);
  Ret (LeaderSchedule_new ctx table).

Definition commits_until_leader_schedule_update (s : LeaderSchedule) (d : DagState St) : outcome N :=
  subdag_count ← (if consensus_distributed_vote_scoring_strategy (protocol_config (ls_context s))
                  then scoring_subdags_count d
                  else Ret (unscored_committed_subdags_count d));
  _ ← assert (subdag_count <=? num_commits_per_schedule s)
        "Committed subdags count exceeds the number of commits per schedule";
  Ret (num_commits_per_schedule s - subdag_count).

Definition leader_schedule_updated (s : LeaderSchedule) (d : DagState St) : bool :=
  if consensus_distributed_vote_scoring_strategy (protocol_config (ls_context s))
  then is_scoring_subdag_empty d
  else unscored_committed_subdags_count d =? 0.

Definition update_leader_schedule_v2 (s : LeaderSchedule) (d : DagState St)
    : outcome (LeaderSchedule * DagState St) :=
  scores ← calculate_scoring_subdag_scores d;
  last_commit_index ← scoring_subdag_commit_range d;
  d ← add_commit_info (clear_scoring_subdag d) scores;
  table ← LeaderSwapTable_new (ls_context s) last_commit_index scores;
  s ← update_leader_swap_table s table;
  Ret (s, d).

Definition update_leader_schedule_v1 (s : LeaderSchedule) (d : DagState St)
    : outcome (LeaderSchedule * DagState St) :=
  let '(d, unscored_subdags) := take_unscored_committed_subdags d in
  scores ← calculate_reputation_scores (committee (ls_context s)) unscored_subdags;
  last ← expect (last unscored_subdags) "unwrap";
  table ← LeaderSwapTable_new (ls_context s) (commit_ref_index (sub_dag_commit_ref last)) scores;
  s ← update_leader_swap_table s table;
  d ← add_commit_info d scores;
  Ret (s, d).
End with_store.
End schedule.
