(* ===== verification/Election.v ===== *)
(** * Election: leader election and the swap table

    Theorems on [LeaderSchedule]: the good and the bad nodes of the swap table are
    the longest ends of the ranking by score within the stake threshold, and do not
    overlap; a swap replaces a bad leader by a good one; and an election always
    returns a member of the committee when a good node exists. *)
From S2P Require Import Prelude Committee Block StakeAggregator Commit Error Store MemStore ScoringMetrics.
From S2P Require Import LeaderScoring DagState LeaderSchedule.
Local Open Scope N_scope.
Local Open Scope rust_scope.

Definition node_ids (nodes : list (AuthorityIndex * string * Stake)) : list AuthorityIndex := nodes.*1.*1.

(** The stake that a percentage of the committee holds. *)
Definition stake_cutoff (c : Committee) (threshold : N) : N := threshold * total_stake c / 100.

(** ** Prefixes by stake *)

(** [p] is the longest prefix of [l] with at most the share [threshold] of the stake. *)
Definition longest_within (c : Committee) (threshold : N) (l p : list AuthorityIndex) : Prop :=
  ∃ q, l = p ++ q ∧ 100 * sumN (stake_at c <$> p) <= threshold * total_stake c ∧
    ∀ a q', q = a :: q' → threshold * total_stake c < 100 * (sumN (stake_at c <$> p) + stake_at c a).

Section retrieve.
Context (c : Committee) (threshold : N) (Hno : threshold * total_stake c < U64_MOD).

Lemma retrieve_first_nodes_spec l : ∀ acc,
  (∀ a, a ∈ l.*1 → is_valid_index c a) → acc + sumN (stake_at c <$> l.*1) < U64_MOD → acc <= stake_cutoff c threshold →
  ∃ nodes, retrieve_first_nodes c threshold acc l = Ret nodes ∧
    node_ids nodes `prefix_of` l.*1 ∧
    acc + sumN (stake_at c <$> node_ids nodes) <= stake_cutoff c threshold ∧
    (∀ a rest, l.*1 = node_ids nodes ++ a :: rest →
      stake_cutoff c threshold < acc + sumN (stake_at c <$> node_ids nodes) + stake_at c a).
Proof.
  induction l as [|[a score] l IH]; intros acc Hl Hsum Hacc; cbn [retrieve_first_nodes].
  { exists []. split_and!; [done|done|simpl; lia|]. intros a rest. done. }
  assert (is_valid_index c a) as Ha by (apply Hl; left). csimpl in Hsum.
  rewrite committee_stake_ret by done. cbn [mbind outcome_bind]. rewrite (wrap64_small (acc + _)) by lia.
  rewrite (wrap64_small (threshold * _)) by done. fold (stake_cutoff c threshold).
  destruct (N.ltb_spec (stake_cutoff c threshold) (acc + stake_at c a)) as [Hlt|Hle].
  { exists []. split_and!; [done|apply prefix_nil|simpl; lia|]. intros a' rest. simpl. intros [= <- _]. lia. }
  destruct (authority_ret c a Ha) as [auth ->]. cbn [mbind outcome_bind].
  destruct (IH (acc + stake_at c a)) as (nodes & -> & Hpre & Hcut & Hmax); [set_solver|lia|done|].
  cbn [mbind outcome_bind]. eexists. split; [done|]. unfold node_ids in *. csimpl. split_and!.
  - by apply prefix_cons.
  - lia.
  - intros a' rest [= Heq]. specialize (Hmax a' rest Heq). lia.
Qed.

Lemma retrieve_longest l : (∀ a, a ∈ l.*1 → is_valid_index c a) → sumN (stake_at c <$> l.*1) < U64_MOD →
  ∃ nodes, retrieve_first_nodes c threshold 0 l = Ret nodes ∧ longest_within c threshold l.*1 (node_ids nodes).
Proof.
  intros Hl Hsum. destruct (retrieve_first_nodes_spec l 0 Hl Hsum ltac:(lia)) as (nodes & Heq & [q Hq] & Hle & Hmax).
  exists nodes. split; [done|]. exists q. unfold stake_cutoff in *. split_and!; [done| |].
  - pose proof (N.Div0.mul_div_le (threshold * total_stake c) 100). lia.
  - intros a q' ->. apply N.nle_gt. intros Hc. specialize (Hmax a q' Hq). apply (N.Div0.div_le_mono _ _ 100) in Hc.
    rewrite (N.mul_comm 100), N.div_mul in Hc by done. lia.
Qed.
End retrieve.

(** ** The swap table *)

(** A prefix and a suffix of a list without duplicates that hold less than all
    of its weight do not meet. *)
Lemma ends_disjoint (w : AuthorityIndex → N) (l p q s t : list AuthorityIndex) :
  l = p ++ q → l = s ++ t → sumN (w <$> p) + sumN (w <$> t) < sumN (w <$> l) → p `prefix_of` s.
Proof.
  intros Hl Hl'. subst l. apply app_eq_inv in Hl' as [(k & -> & ->)|(k & -> & ->)].
  - rewrite !fmap_app, !sumN_app. lia.
  - intros _. by exists k.
Qed.

Lemma score_desc_total a b : score_desc a b ∨ score_desc b a.
Proof. unfold score_desc. rewrite !Is_true_true, !N.leb_le. lia. Qed.

Lemma score_desc_trans a b d : score_desc a b → score_desc b d → score_desc a d.
Proof. unfold score_desc. rewrite !Is_true_true, !N.leb_le. lia. Qed.

Lemma authorities_by_score_ret c s : N.of_nat (length (scores_per_authority s)) = committee_size c →
  authorities_by_score c s = Ret (zip (N.of_nat <$> seq 0 (length (scores_per_authority s))) (scores_per_authority s)).
Proof.
  intros Hlen. unfold authorities_by_score. rewrite (mapM_ret _ (λ x, x)); [by rewrite list_fmap_id|].
  intros [i score] (n & Hn)%list_elem_of_lookup. apply lookup_zip_Some in Hn as [Hn _].
  rewrite list_lookup_fmap in Hn. apply fmap_Some in Hn as (m & Hm%lookup_seq & ->). unfold to_authority_index.
  rewrite (proj2 (N.ltb_lt _ _)) by lia. done.
Qed.

Lemma all_indices_list c : list_to_set (N.of_nat <$> seq 0 (N.to_nat (committee_size c))) = all_indices c.
Proof. unfold all_indices, committee_size. by rewrite Nat2N.id. Qed.

(** The stake of a list of distinct members is the stake of the set. *)
Lemma sum_stake_list c (l : list AuthorityIndex) : NoDup l → sumN (stake_at c <$> l) = set_stake c (list_to_set l).
Proof.
  induction 1 as [|a l Ha Hl IH]; [by rewrite set_stake_empty|].
  cbn [list_to_set fmap list_fmap sumN foldr]. rewrite set_stake_insert by set_solver. unfold sumN in IH. by rewrite <-IH.
Qed.

Section table.
Context `{RngLaws} (ctx : Context) (threshold : N) (index : CommitIndex) (scores : ReputationScores).
Let c := committee ctx.
Context (Hc : committee_ok c) (Hthr : threshold <= 33) (Hno : threshold * total_stake c < U64_MOD).
Context (Hlen : N.of_nat (length (scores_per_authority scores)) = committee_size c).

Definition score_of (a : AuthorityIndex) : N := scores_per_authority scores !!! N.to_nat a.

Let ranking : list (AuthorityIndex * N) :=
  stable_sort score_desc (rng_shuffle index
    (zip (N.of_nat <$> seq 0 (length (scores_per_authority scores))) (scores_per_authority scores))).

Lemma ranking_perm : ranking ≡ₚ zip (N.of_nat <$> seq 0 (length (scores_per_authority scores))) (scores_per_authority scores).
Proof. unfold ranking. by rewrite stable_sort_Permutation, rng_shuffle_perm. Qed.

Lemma ranking_ids : ranking.*1 ≡ₚ N.of_nat <$> seq 0 (N.to_nat (committee_size c)).
Proof.
  rewrite ranking_perm, fst_zip by by rewrite length_fmap, length_seq. by rewrite <-Hlen, Nat2N.id.
Qed.

Lemma ranking_NoDup : NoDup ranking.*1.
Proof. rewrite ranking_ids. apply NoDup_fmap_2, NoDup_seq. apply _. Qed.

Lemma ranking_valid a : a ∈ ranking.*1 → is_valid_index c a.
Proof.
  rewrite ranking_ids. intros Ha. apply elem_of_all_indices. rewrite <-all_indices_list. by apply elem_of_list_to_set.
Qed.

Lemma ranking_stake : sumN (stake_at c <$> ranking.*1) = total_stake c.
Proof.
  rewrite sum_stake_list by apply ranking_NoDup. destruct (committee_ok_fields c Hc) as (_ & -> & _). f_equal.
  rewrite <-all_indices_list. apply set_eq. intros a. by rewrite !elem_of_list_to_set, ranking_ids.
Qed.

Lemma ranking_score a s : (a, s) ∈ ranking → s = score_of a.
Proof.
  rewrite ranking_perm. intros (n & Hn)%list_elem_of_lookup. apply lookup_zip_Some in Hn as [Hn Hs].
  rewrite list_lookup_fmap in Hn. apply fmap_Some in Hn as (m & Hm%lookup_seq & ->). destruct Hm as [-> _].
  unfold score_of. rewrite Nat2N.id. symmetry. by apply list_lookup_total_correct.
Qed.

(** The two ends of the ranking. *)
Lemma table_ends : ∃ good bad,
  retrieve_first_nodes c threshold 0 ranking = Ret good ∧
  retrieve_first_nodes c threshold 0 (reverse ranking) = Ret bad ∧
  longest_within c threshold ranking.*1 (node_ids good) ∧ longest_within c threshold (reverse ranking.*1) (node_ids bad).
Proof.
  destruct (committee_ok_fields c Hc) as (_ & _ & _ & Htot & _).
  destruct (retrieve_longest c threshold Hno ranking) as (good & Hgood & Hg).
  { apply ranking_valid. } { rewrite ranking_stake. lia. }
  destruct (retrieve_longest c threshold Hno (reverse ranking)) as (bad & Hbad & Hb).
  { intros a. rewrite fmap_reverse, elem_of_reverse. apply ranking_valid. }
  { rewrite fmap_reverse, (reverse_Permutation ranking.*1), ranking_stake. lia. }
  rewrite fmap_reverse in Hb. by exists good, bad.
Qed.

(** There is a good node when no authority is too large to be one. *)
Lemma ends_nonempty p : longest_within c threshold ranking.*1 p →
  (∀ a, is_valid_index c a → stake_at c a <= stake_cutoff c threshold) → p ≠ [].
Proof.
  intros (q & Hq & _ & Hmax) Hsmall ->. destruct q as [|a q].
  - pose proof ranking_stake as Hz. rewrite Hq in Hz. destruct (committee_ok_fields c Hc) as (_ & _ & ? & _). simpl in Hz. lia.
  - specialize (Hmax a q eq_refl). assert (is_valid_index c a) as Ha by (apply ranking_valid; rewrite Hq; left).
    specialize (Hsmall a Ha). unfold stake_cutoff in Hsmall. simpl in Hmax.
    pose proof (N.Div0.mul_div_le (threshold * total_stake c) 100). lia.
Qed.

Lemma table_score_order (g b : AuthorityIndex) (p q : list AuthorityIndex) :
  ranking.*1 = p ++ q → g ∈ p → b ∈ q → score_of b <= score_of g.
Proof.
  intros Heq Hg Hb. apply fmap_app_inv in Heq as (k1 & k2 & -> & -> & Hk).
  apply list_elem_of_fmap in Hg as ([g' sg] & -> & Hg), Hb as ([b' sb] & -> & Hb). cbn [fst].
  rewrite <-(ranking_score g' sg), <-(ranking_score b' sb) by (rewrite Hk; set_solver).
  pose proof (stable_sort_sorted score_desc score_desc_total score_desc_trans (rng_shuffle index
    (zip (N.of_nat <$> seq 0 (length (scores_per_authority scores))) (scores_per_authority scores)))) as Hs.
  fold ranking in Hs. rewrite Hk in Hs.
  assert (score_desc (g', sg) (b', sb)) as Hle by exact (StronglySorted_app_1_elem_of _ _ _ _ _ Hs Hg Hb).
  by apply Is_true_true, N.leb_le in Hle.
Qed.

Lemma table_spec : ∃ good bad t, LeaderSwapTable_new_inner ctx threshold index scores = Ret t ∧
  good_nodes t = good ∧ dom (bad_nodes t) = list_to_set (node_ids bad) ∧
  100 * sumN (stake_at c <$> node_ids good) <= threshold * total_stake c ∧
  100 * sumN (stake_at c <$> node_ids bad) <= threshold * total_stake c ∧
  NoDup (node_ids bad) ∧
  (∀ a, a ∈ node_ids good ∨ a ∈ node_ids bad → is_valid_index c a) ∧
  (∀ g b, g ∈ node_ids good → b ∈ node_ids bad → g ≠ b ∧ score_of b <= score_of g) ∧
  swap_reputation_scores t = scores ∧
  (reputation_scores_desc t = ranking ∧
   longest_within c threshold ranking.*1 (node_ids good) ∧ longest_within c threshold (reverse ranking.*1) (node_ids bad)) ∧
  ((∀ a, is_valid_index c a → stake_at c a <= stake_cutoff c threshold) → good ≠ []).
Proof.
  destruct table_ends as (good & bad & Hgood & Hbad & Hgl & Hbl). exists good, bad.
  pose proof Hgl as (q & Hq & Hgs & _). pose proof Hbl as (t & Ht & Hbs & _).
  destruct (committee_ok_fields c Hc) as (Hne & _ & Hpos & _).
  assert (scores_per_authority scores ≠ []) as Hsc.
  { intros Heq. rewrite Heq in Hlen. unfold committee_size in Hlen. by destruct (authorities_vec c). }
  unfold LeaderSwapTable_new_inner. rewrite (proj2 (N.leb_le _ _) Hthr). cbn [assert mbind outcome_bind].
  rewrite bool_decide_eq_false_2 by done. rewrite authorities_by_score_ret by done. cbn [mbind outcome_bind].
  rewrite length_zip, length_fmap, length_seq, Nat.min_id, Hlen, N.eqb_refl. cbn [assert mbind outcome_bind].
  fold ranking. change (committee ctx) with c. rewrite Hgood. cbn [mbind outcome_bind]. rewrite Hbad. cbn [mbind outcome_bind].
  eexists. split; [done|]. split; [done|].
  apply (f_equal reverse) in Ht. rewrite reverse_involutive, reverse_app in Ht.
  assert (node_ids good `prefix_of` reverse t) as [k Hk].
  { apply (ends_disjoint (stake_at c) ranking.*1 (node_ids good) q (reverse t) (reverse (node_ids bad)) Hq Ht).
    rewrite ranking_stake, fmap_reverse, (reverse_Permutation (stake_at c <$> node_ids bad)).
    assert (threshold * total_stake c <= 33 * total_stake c) by (apply N.mul_le_mono_r; done). lia. }
  pose proof ranking_NoDup as Hnd. rewrite Ht in Hnd. apply NoDup_app in Hnd as (_ & Hdisj & Hndb).
  split_and!; [|done|done|by rewrite reverse_Permutation in Hndb| | |done..|].
  - cbn [bad_nodes]. rewrite dom_list_to_map_L. f_equal. rewrite <-list_fmap_compose. unfold node_ids.
    rewrite <-list_fmap_compose. apply list_fmap_ext. by intros ? [[??]?].
  - intros a Ha. apply ranking_valid. destruct Ha; [rewrite Hq; set_solver|]. rewrite Ht, elem_of_app, !elem_of_reverse. by right.
  - intros g b Hg Hb. assert (g ∈ reverse t) as Hg' by (rewrite Hk; set_solver).
    apply elem_of_reverse in Hb as Hb'. split; [intros ->; by apply (Hdisj b)|]. by eapply table_score_order.
  - intros Hsmall ->. by apply (ends_nonempty _ Hgl Hsmall).
Qed.

Lemma ranking_sorted : StronglySorted (λ x y : AuthorityIndex * N, y.2 <= x.2) ranking.
Proof.
  pose proof (stable_sort_sorted score_desc score_desc_total score_desc_trans (rng_shuffle index
    (zip (N.of_nat <$> seq 0 (length (scores_per_authority scores))) (scores_per_authority scores)))) as Hs.
  fold ranking in Hs. eapply StronglySorted_impl; [|exact Hs]. intros x y. unfold score_desc. by rewrite Is_true_true, N.leb_le.
Qed.
End table.

(** A table that a swap can use: every node is a member, and a bad leader has a
    good one to take its place. *)
Definition swap_table_ok (c : Committee) (t : LeaderSwapTable) : Prop :=
  (∀ a, a ∈ node_ids (good_nodes t) → is_valid_index c a) ∧ (bad_nodes t ≠ ∅ → good_nodes t ≠ []).

Lemma swap_table_ok_default c : swap_table_ok c LeaderSwapTable_default.
Proof. split; [set_solver|done]. Qed.

Lemma swap_ret `{RngLaws} c t leader r : swap_table_ok c t →
  swap t leader r 0 = Ret None ∧ leader ∉ dom (bad_nodes t) ∨
  ∃ a, swap t leader r 0 = Ret (Some a) ∧ leader ∈ dom (bad_nodes t) ∧ a ∈ node_ids (good_nodes t).
Proof.
  intros [_ Hgood]. unfold swap. destruct (bad_nodes t !! leader) as [x|] eqn:Hb.
  - right. destruct (rng_choose_elem r 0 (good_nodes t)) as ([[a h] s] & Hch & Hin).
    { apply Hgood. intros Heq. by rewrite Heq in Hb. }
    rewrite Hch. cbn. exists a. split_and!; [done|by apply elem_of_dom_2 in Hb|].
    apply list_elem_of_fmap. exists (a, h). split; [done|]. apply list_elem_of_fmap. by exists (a, h, s).
  - left. split; [done|]. by apply not_elem_of_dom.
Qed.

Lemma elect_leader_ret `{RngLaws} (s : LeaderSchedule) r :
  committee_ok (committee (ls_context s)) →
  (∀ a, a ∈ authorities_vec (committee (ls_context s)) → 0 < stake a) →
  swap_table_ok (committee (ls_context s)) (leader_swap_table s) →
  ∃ a, elect_leader s r 0 = Ret a ∧ is_valid_index (committee (ls_context s)) a.
Proof.
  intros Hc Hpos Ht. set (c := committee (ls_context s)) in *. destruct (committee_ok_fields c Hc) as (Hne & _).
  unfold elect_leader, elect_leader_stake_based. fold c.
  assert (0 < committee_size c) as Hsz by (unfold committee_size; destruct (authorities_vec c); [done|simpl; lia]).
  rewrite (proj2 (N.ltb_lt 0 _)) by done. cbn [assert mbind outcome_bind].
  set (choices := _ <$> authorities c). destruct (choose_multiple_weighted_perm r choices) as (order & Hch & Hperm).
  { intros Hnil%(f_equal length). unfold choices, authorities in Hnil. rewrite length_fmap, length_imap in Hnil.
    unfold committee_size in Hsz. simpl in Hnil. lia. }
  { intros x (y & -> & Hy)%list_elem_of_fmap. unfold authorities in Hy. apply elem_of_lookup_imap in Hy as (i & a & -> & Ha).
    simpl. apply Hpos. by eapply list_elem_of_lookup_2. }
  assert (N.of_nat (length choices) = committee_size c) as Hl.
  { unfold choices, authorities. by rewrite length_fmap, length_imap. }
  rewrite <-Hl, Hch. cbn [expect mbind outcome_bind drop N.to_nat].
  destruct order as [|a order]; [apply Permutation_length in Hperm; rewrite length_fmap in Hperm; simpl in Hperm; lia|].
  change (drop (N.to_nat 0) (a :: order)) with (a :: order). cbn [head expect mbind outcome_bind].
  assert (is_valid_index c a) as Ha.
  { assert (a ∈ choices.*1) as ([i w] & -> & Hin)%list_elem_of_fmap by (rewrite <-Hperm; left).
    apply list_elem_of_fmap in Hin as ([i' x] & [= -> ->] & Hin). by apply authorities_valid in Hin. }
  destruct (swap_ret c _ a r Ht) as [[-> _]|(a' & -> & _ & Ha')]; cbn; [by eauto|]. exists a'. split; [done|]. by apply Ht.
Qed.

(** ** A concrete generator *)

(** Rotates by the seed; picks the element at the seed's place. *)
Definition test_rng : Rng := {|
  choose_multiple_weighted seed l n :=
    let k := (N.to_nat seed mod length l)%nat in Some (drop k l.*1 ++ take k l.*1);
  rng_shuffle seed l := reverse l;
  rng_choose seed offset l := l !! (N.to_nat seed mod length l)%nat;
|}.

#[export] Instance test_rng_laws : RngLaws (H := test_rng).
Proof.
  split; simpl.
  - intros seed l _ _. eexists. split; [done|]. rewrite (Permutation_app_comm (drop _ _)), take_drop. done.
  - intros _ l. apply reverse_Permutation.
  - intros seed _ l Hl. destruct (lookup_lt_is_Some_2 l (N.to_nat seed mod length l)%nat) as [x Hx].
    { apply Nat.mod_upper_bound. by destruct l. }
    exists x. split; [done|]. by eapply list_elem_of_lookup_2.
  - intros seed _. apply lookup_nil.
Qed.

(** C36: the swap table.  From the scores of all authorities and a threshold of
    at most 33 percent, building the table returns.  Its ranking lists every
    authority with its score, the highest scores first.  The good nodes are the
    longest beginning of the ranking that holds at most the threshold's share of the
    stake, and the bad nodes are the longest end of it that does; no node is both.
    A leader that is not bad is not swapped.  When there is a good node, a bad leader
    is replaced by a good node; this is so when no authority holds more than the
    threshold's share.  When there is none, swapping a bad leader panics. *)
Theorem swap_table_correct `{RngLaws} (ctx : Context) (threshold index : N) (scores : ReputationScores) :
  let c := committee ctx in
  committee_ok c → threshold <= 33 → threshold * total_stake c < U64_MOD →
  N.of_nat (length (scores_per_authority scores)) = committee_size c →
  ∃ t bad, LeaderSwapTable_new_inner ctx threshold index scores = Ret t ∧
    reputation_scores_desc t ≡ₚ zip (N.of_nat <$> seq 0 (length (scores_per_authority scores))) (scores_per_authority scores) ∧
    StronglySorted (λ x y : AuthorityIndex * N, y.2 <= x.2) (reputation_scores_desc t) ∧
    longest_within c threshold (reputation_scores_desc t).*1 (node_ids (good_nodes t)) ∧
    longest_within c threshold (reverse (reputation_scores_desc t).*1) bad ∧ dom (bad_nodes t) = list_to_set bad ∧
    (∀ a, a ∈ node_ids (good_nodes t) → a ∉ bad) ∧
    (∀ leader r, leader ∉ bad → swap t leader r 0 = Ret None) ∧
    (∀ leader r, leader ∈ bad → good_nodes t ≠ [] → ∃ a, swap t leader r 0 = Ret (Some a) ∧ a ∈ node_ids (good_nodes t)) ∧
    ((∀ a, is_valid_index c a → 100 * stake_at c a <= threshold * total_stake c) → good_nodes t ≠ []) ∧
    (∀ leader r, leader ∈ bad → good_nodes t = [] → ∃ why, swap t leader r 0 = Panic why).
Proof.
  intros c Hc Hthr Hno Hlen.
  destruct (table_spec ctx threshold index scores Hc Hthr Hno Hlen)
    as (good & bad & t & Ht & <- & Hdom & _ & _ & _ & Hval & Hdisj & _ & (Hrank & Hgood & Hbad) & Hne).
  rewrite <-Hrank in Hgood, Hbad. exists t, (node_ids bad).
  assert (∀ leader, leader ∈ node_ids bad ↔ is_Some (bad_nodes t !! leader)) as Hin.
  { intros leader. by rewrite <-elem_of_dom, Hdom, elem_of_list_to_set. }
  split_and!; try done.
  - rewrite Hrank. apply ranking_perm.
  - rewrite Hrank. apply ranking_sorted.
  - intros a Ha Hb. by destruct (Hdisj a a Ha Hb).
  - intros leader r Hl. rewrite Hin in Hl. apply eq_None_not_Some in Hl. unfold swap. by rewrite Hl.
  - intros leader r Hl Hg. assert (swap_table_ok c t) as Hok by (split; [intros a Ha; apply Hval; by left|done]).
    destruct (swap_ret c t leader r Hok) as [[_ Hn]|(a & Ha & _ & Hgd)]; [by apply Hin, elem_of_dom in Hl|by exists a].
  - intros Hsmall. apply Hne. intros a Ha. unfold stake_cutoff. apply N.div_le_lower_bound; [done|by apply Hsmall].
  - intros leader r [x Hx]%Hin Hg. unfold swap. rewrite Hx, Hg, rng_choose_nil. by eexists.
Qed.

Lemma swap_table_correct_witness :
  ∃ t, LeaderSwapTable_new_inner (H := test_rng) (test_context 60) 33 7 (mk_scores [5; 9; 1; 7] (CommitRange_new 1 7)) = Ret t ∧
    node_ids (good_nodes t) = [1] ∧ dom (bad_nodes t) = {[2]} ∧ swap (H := test_rng) t 2 3 0 = Ret (Some 1).
Proof.
  destruct (swap_table_correct (H := test_rng) (test_context 60) 33 7 (mk_scores [5; 9; 1; 7] (CommitRange_new 1 7)))
    as (t & bad & Ht & _ & _ & _ & _ & Hdom & _ & _ & Hswap & _); [apply test_committee_ok|done|done|done|].
  exists t. split; [exact Ht|]. vm_compute in Ht. injection Ht as <-. split; [reflexivity|].
  split; [vm_compute; reflexivity|]. destruct (Hswap 2 3) as (a & Ha & Hin); [|done|].
  { apply (elem_of_list_to_set (C := gset N)). rewrite <-Hdom. apply (bool_decide_unpack _). vm_compute. exact I. }
  rewrite Ha. do 2 f_equal. by apply list_elem_of_singleton in Hin.
Defined.

(** When the best authority alone holds more than the threshold's share of the
    stake there is no good node, yet there may be a bad one; electing it panics. *)
Theorem swap_without_good_node :
  let ctx := mk_context 0 0 (test_committee [40; 20; 20; 20]) (test_config 60) 100 50 5 in
  ∃ t, LeaderSwapTable_new_inner (H := test_rng) ctx 33 7 (mk_scores [9; 5; 3; 1] (CommitRange_new 1 7)) = Ret t ∧
    swap (H := test_rng) t 3 10 0 = Panic "There should be at least one good node available".
Proof. eexists. split; vm_compute; reflexivity. Qed.
