(* ===== verification/Linearizer.v ===== *)
(** * Linearizer: from committed leaders to ordered sub-dags

    Models [consensus/core/src/linearizer.rs].  The loops that walk the causal
    history take a bound on their iterations; the write lock on the DAG state is
    the threaded state.  The serialisation of a commit is third-party code, and
    the metric of pruned blocks is left out. *)
From S2P Require Import Prelude Committee Block StakeAggregator ThresholdClock Commit Error BlockVerifier Store.
From S2P Require Import ScoringMetrics LeaderScoring DagState LeaderSchedule.
Local Open Scope N_scope.
Local Open Scope rust_scope.

(** ** Commit timestamps *)

(** [median_timestamps_by_stake_inner] on the sorted timestamps. *)
Fixpoint median_loop (total_stake cumulative : Stake) (ts : list (BlockTimestampMs * Stake)) : option BlockTimestampMs :=
  match ts with
  | [] => None
  | (t, stake) :: ts =>
    let cumulative := cumulative +64 stake in
    if total_stake / 2 <? cumulative then Some t else median_loop total_stake cumulative ts
  end.

Definition timestamp_le (a b : BlockTimestampMs * Stake) : bool := a.1 <=? b.1.

Definition median_timestamps_by_stake_inner (timestamps : list (BlockTimestampMs * Stake)) (total_stake : Stake)
    : outcome BlockTimestampMs :=
  let timestamps := stable_sort timestamp_le timestamps in
  match median_loop total_stake 0 timestamps with
  | Some t => Ret t
  | None => l ← expect (last timestamps) "unwrap"; Ret (fst (l : BlockTimestampMs * Stake))
  end.

Definition median_timestamp_by_stake (c : Committee) (blocks : list VerifiedBlock)
    : outcome (result BlockTimestampMs string) :=
  '(timestamps, total) ← foldM (λ '((timestamps, total) : list (BlockTimestampMs * Stake) * Stake) (b : VerifiedBlock),
      a ← authority c (author b);
      Ret (timestamps ++ [(timestamp_ms b, Committee.stake a)], total +64 Committee.stake a)) ([], 0) blocks;
  if bool_decide (timestamps = []) then Ret (Err "No blocks provided")
  else if (total : Stake) <? quorum_threshold c then Ret (Err "Total stake < quorum threshold")
  else t ← median_timestamps_by_stake_inner timestamps total; Ret (Ok t).

Section linearizer.
Context {St : Type} `{Store St} (fuel : nat).
Implicit Type d : DagState St.

Definition calculate_commit_timestamp d (leader_block : VerifiedBlock) (last_commit_timestamp_ms : BlockTimestampMs)
    : outcome BlockTimestampMs :=
  timestamp_ms ←
    (if consensus_median_timestamp_with_checkpoint_enforcement (protocol_config (ds_context d)) then
       blocks ← get_blocks d (filter (λ r, ref_round r = round leader_block -32 1) (ancestors leader_block));
       blocks ← mapM (λ o, expect o "We should have all blocks in dag state.") (blocks : list (option VerifiedBlock));
       r ← median_timestamp_by_stake (committee (ds_context d)) blocks;
       unwrap (r : result BlockTimestampMs string) "Cannot compute median timestamp for leader block"
     else Ret (timestamp_ms leader_block));
  Ret (N.max timestamp_ms last_commit_timestamp_ms).

(** ** Walking the causal history *)

(** The [while let] loop of the second version; the buffer's top is its head. *)
Fixpoint linearize_v2 (fuel : nat) d (gc_round : Round) (buffer to_commit : list VerifiedBlock)
    : outcome (DagState St * list VerifiedBlock) :=
  match buffer with
  | [] => Ret (d, to_commit)
  | x :: buffer =>
    match fuel with
    | O => Panic "out of fuel"
    | S fuel =>
      refs ← filterM (λ r, if gc_round <? ref_round r then c ← is_committed d r; Ret (negb c) else Ret false) (ancestors x);
      opts ← get_blocks d refs;
      blocks ← mapM (λ o, expect o "We should have all uncommitted blocks in dag state.") (opts : list (option VerifiedBlock));
      '(d, buffer) ← foldM (λ '((d, buffer) : DagState St * list VerifiedBlock) (b : VerifiedBlock),
          '(d, fresh) ← set_committed d (reference b);
          _ ← assert fresh "Block attempted to be committed twice";
          Ret (d, b :: buffer)) (d, buffer) blocks;
      linearize_v2 fuel d gc_round buffer (to_commit ++ [x])
    end
  end.

(** The loop of the first version. *)
Fixpoint linearize_v1 (fuel : nat) d (last_committed_rounds : list Round) (committed : gset BlockRef)
    (buffer to_commit : list VerifiedBlock) : outcome (list VerifiedBlock) :=
  match buffer with
  | [] => Ret to_commit
  | x :: buffer =>
    match fuel with
    | O => Panic "out of fuel"
    | S fuel =>
      refs ← filterM (λ r, if bool_decide (r ∈ committed) then Ret false
                           else last ← vec_index last_committed_rounds (ref_author r); Ret (last <? ref_round r)) (ancestors x);
      let refs := filter (λ r, negb (gc_enabled d) || (gc_round d <? ref_round r)) (refs : list BlockRef) in
      opts ← get_blocks d refs;
      blocks ← mapM (λ o, expect o "We should have all uncommitted blocks in dag state.") (opts : list (option VerifiedBlock));
      '(committed, buffer) ← foldM (λ '((committed, buffer) : gset BlockRef * list VerifiedBlock) (b : VerifiedBlock),
          _ ← assert (negb (bool_decide (reference b ∈ committed))) "assertion failed: committed.insert(ancestor.reference())";
          Ret ({[reference b]} ∪ committed, b :: buffer)) (committed, buffer) blocks;
      linearize_v1 fuel d last_committed_rounds committed buffer (to_commit ++ [x])
    end
  end.

Definition linearize_sub_dag d (leader_block : VerifiedBlock) (last_committed_rounds : list Round)
    : outcome (DagState St * list VerifiedBlock) :=
  let gc := gc_round d in
  let leader_block_ref := reference leader_block in
  '(d, to_commit) ←
    (if consensus_linearize_subdag_v2 (protocol_config (ds_context d)) then
       '(d, fresh) ← set_committed d leader_block_ref;
       _ ← assert fresh "Leader block attempted to be committed twice";
       linearize_v2 fuel d gc [leader_block] []
     else
       to_commit ← linearize_v1 fuel d last_committed_rounds {[leader_block_ref]} [leader_block] [];
       Ret (d, to_commit));
  _ ← (if gc_enabled d then
         assert (forallb (λ b : VerifiedBlock, gc <? round b) to_commit) "No blocks <= gc_round should be committed"
       else Ret tt);
  Ret (d, sort_sub_dag_blocks to_commit).

(** ** Commits *)

Definition collect_sub_dag_and_commit `{Crypto} `{CommitBcs} d (leader_block : VerifiedBlock)
    (reputation_scores_desc : list (AuthorityIndex * N)) : outcome (DagState St * CommittedSubDag * TrustedCommit) :=
  let last_index := last_commit_index d in
  let last_digest := last_commit_digest d in
  let last_timestamp_ms := last_commit_timestamp_ms d in
  '(d, to_commit) ← linearize_sub_dag d leader_block (ds_last_committed_rounds d);
  timestamp_ms ← calculate_commit_timestamp d leader_block last_timestamp_ms;
  let commit := Commit_new (last_index +32 1) last_digest timestamp_ms (reference leader_block) (reference <$> to_commit) in
  serialized ← expect (bcs_commit commit) "Failed to serialize commit";
  let commit := new_trusted commit serialized in
  Ret (d, mk_sub_dag (reference leader_block) to_commit timestamp_ms (commit_reference commit) reputation_scores_desc, commit).

Definition handle_commit `{Crypto} `{CommitBcs} (instant : N) (sched : LeaderSchedule) d (committed_leaders : list VerifiedBlock)
    : outcome (DagState St * list CommittedSubDag) :=
  if bool_decide (committed_leaders = []) then Ret (d, [])
  else
    let schedule_updated := leader_schedule_updated sched d in
    '(d, sub_dags) ← foldM (λ '((d, sub_dags) : DagState St * list CommittedSubDag) '((i, leader_block) : N * VerifiedBlock),
        let scores := if schedule_updated && (i =? 0) then reputation_scores_desc (leader_swap_table sched) else [] in
        '(d, sub_dag, commit) ← collect_sub_dag_and_commit d leader_block scores;
        d ← add_commit instant d commit;
        Ret (d, sub_dags ++ [sub_dag])) (d, []) (enumerate committed_leaders);
    d ← flush d;
    Ret (d, sub_dags).
End linearizer.
