(* ===== verification/CommitTimestamp.v ===== *)
(** * CommitTimestamp: the median timestamp of a commit

    The stake-weighted median that [linearizer.rs] computes over the parents of
    a leader lies between the timestamps of two honest parents, and commit
    timestamps never decrease. *)
From S2P Require Import Prelude Committee Block StakeAggregator ThresholdClock Commit Error BlockVerifier Store.
From S2P Require Import ScoringMetrics LeaderScoring DagState LeaderSchedule Election Linearizer.
Local Open Scope N_scope.
Local Open Scope rust_scope.

Definition stakes (l : list (BlockTimestampMs * Stake)) : N := sumN l.*2.

Lemma median_loop_spec total l : ∀ cum, cum + stakes l < U64_MOD → cum <= total / 2 →
  match median_loop total cum l with
  | Some m => ∃ p s q, l = p ++ (m, s) :: q ∧ cum + stakes p <= total / 2 < cum + stakes p + s
  | None => cum + stakes l <= total / 2
  end.
Proof.
  induction l as [|[t s] l IH]; intros cum Hsum Hcum; cbn [median_loop].
  { unfold stakes. simpl. lia. }
  unfold stakes in *. csimpl in Hsum. rewrite (wrap64_small (cum + s)) by lia.
  destruct (N.ltb_spec (total / 2) (cum + s)) as [Hlt|Hle].
  { exists [], s, l. split; [done|]. simpl. lia. }
  specialize (IH (cum + s) ltac:(lia) Hle). destruct (median_loop total (cum + s) l) as [m|].
  - destruct IH as (p & s' & q & -> & Hp). exists ((t, s) :: p), s', q. split; [done|]. csimpl. lia.
  - csimpl. lia.
Qed.

Lemma timestamp_le_total a b : timestamp_le a b ∨ timestamp_le b a.
Proof. unfold timestamp_le. rewrite !Is_true_true, !N.leb_le. lia. Qed.

Lemma timestamp_le_trans a b c : timestamp_le a b → timestamp_le b c → timestamp_le a c.
Proof. unfold timestamp_le. rewrite !Is_true_true, !N.leb_le. lia. Qed.

#[export] Instance stakes_Permutation : Proper ((≡ₚ) ==> (=)) stakes.
Proof. intros l k Hlk. unfold stakes. by rewrite Hlk. Qed.

Lemma stakes_app l k : stakes (l ++ k) = stakes l + stakes k.
Proof. unfold stakes. by rewrite fmap_app, sumN_app. Qed.

Lemma stakes_filter_le P `{!∀ x, Decision (P x)} l : stakes (filter P l) <= stakes l.
Proof. apply sumN_sublist, fmap_sublist, sublist_filter. Qed.

(** More than half of the stake is at or below the median, and at least half is
    at or above it. *)
Lemma median_spec ts : 0 < stakes ts → stakes ts < U64_MOD →
  ∃ m, median_timestamps_by_stake_inner ts (stakes ts) = Ret m ∧
    stakes ts / 2 < stakes (filter (λ x, x.1 <= m) ts) ∧
    stakes ts <= stakes ts / 2 + stakes (filter (λ x, m <= x.1) ts).
Proof.
  intros Hpos Hmax. unfold median_timestamps_by_stake_inner.
  pose proof (stable_sort_Permutation timestamp_le ts) as Hperm.
  pose proof (stable_sort_sorted timestamp_le timestamp_le_total timestamp_le_trans ts) as Hsort.
  set (l := stable_sort timestamp_le ts) in *.
  assert (stakes l = stakes ts) as Hst by by rewrite Hperm.
  pose proof (median_loop_spec (stakes ts) l 0 ltac:(lia) (N.le_0_l _)) as Hspec.
  destruct (median_loop (stakes ts) 0 l) as [m|].
  2: { assert (stakes ts / 2 < stakes ts) by (apply N.div_lt; lia). lia. }
  exists m. split; [done|]. destruct Hspec as (p & s & q & Hl & Hp). rewrite Hl in Hsort, Hperm, Hst.
  assert (∀ k x, stakes (x :: k) = x.2 + stakes k) as Hcons by done. rewrite stakes_app, Hcons in Hst. cbn [snd] in Hst.
  rewrite <-(filter_Permutation (λ x : N * N, x.1 <= m) _ _ Hperm), <-(filter_Permutation (λ x : N * N, m <= x.1) _ _ Hperm).
  rewrite !filter_app, !filter_cons, !stakes_app, !decide_True by (simpl; lia). rewrite !Hcons. cbn [snd].
  split.
  - assert (filter (λ x : N * N, x.1 <= m) p = p) as ->.
    { apply filter_all. intros x Hx.
      assert (timestamp_le x (m, s)) as Hle by (eapply (StronglySorted_app_1_elem_of _ _ _ _ _ Hsort); [done|left]).
      by apply Is_true_true, N.leb_le in Hle. }
    lia.
  - assert (filter (λ x : N * N, m <= x.1) q = q) as ->.
    { apply filter_all. intros x Hx. apply StronglySorted_app_1_r, StronglySorted_cons in Hsort as [Hall _].
      rewrite Forall_forall in Hall. specialize (Hall x Hx). by apply Is_true_true, N.leb_le in Hall. }
    lia.
Qed.

Definition block_author (b : VerifiedBlock) : AuthorityIndex := author b.
Definition stamp (c : Committee) (b : VerifiedBlock) : BlockTimestampMs * Stake := (timestamp_ms b, stake_at c (author b)).

Lemma authority_stake c a : is_valid_index c a → ∃ x, authority c a = Ret x ∧ Committee.stake x = stake_at c a.
Proof.
  intros Ha. pose proof (committee_stake_ret c a Ha) as Hs. unfold committee_stake in Hs. apply fmap_ret_inv in Hs as (x & Hx & Hsx).
  by exists x.
Qed.

Section blocks.
Context (c : Committee) (Hc : committee_ok c) (blocks : list VerifiedBlock).
Context (Hvalid : ∀ b : VerifiedBlock, b ∈ blocks → is_valid_index c (author b)) (Hnd : NoDup (block_author <$> blocks)).

Lemma stamps_sum (l : list VerifiedBlock) : l `sublist_of` blocks →
  stakes (stamp c <$> l) = set_stake c (list_to_set (block_author <$> l)) ∧ stakes (stamp c <$> l) <= total_stake c.
Proof.
  intros Hsub. assert (stakes (stamp c <$> l) = set_stake c (list_to_set (block_author <$> l))) as Heq.
  { rewrite <-sum_stake_list.
    - unfold stakes. by rewrite <-!list_fmap_compose.
    - eapply sublist_NoDup; [exact Hnd|]. by apply fmap_sublist. }
  split; [done|]. rewrite Heq. apply (set_stake_le_total c Hc). intros a Ha. apply elem_of_list_to_set, list_elem_of_fmap in Ha as (b & -> & Hb).
  apply elem_of_all_indices, Hvalid. by eapply elem_of_sublist.
Qed.

Lemma median_timestamp_ret :
  median_timestamp_by_stake c blocks =
    if bool_decide (blocks = []) then Ret (Err "No blocks provided")
    else if stakes (stamp c <$> blocks) <? quorum_threshold c then Ret (Err "Total stake < quorum threshold")
    else t ← median_timestamps_by_stake_inner (stamp c <$> blocks) (stakes (stamp c <$> blocks)); Ret (Ok t).
Proof.
  unfold median_timestamp_by_stake.
  destruct (committee_ok_fields c Hc) as (_ & _ & _ & Htot & _).
  assert (∀ l done, blocks = done ++ l → foldM (λ '(timestamps, total) (b : VerifiedBlock),
      a ← authority c (author b); Ret (timestamps ++ [(timestamp_ms b, Committee.stake a)], total +64 Committee.stake a))
      (stamp c <$> done, stakes (stamp c <$> done)) l = Ret (stamp c <$> blocks, stakes (stamp c <$> blocks))) as Hfold.
  { induction l as [|b l IH]; intros done Heq; [by rewrite Heq, app_nil_r|]. cbn [foldM].
    destruct (authority_stake c (author b)) as (x & -> & Hx); [apply Hvalid; rewrite Heq; set_solver|]. cbn [mbind outcome_bind].
    rewrite Hx. specialize (IH (done ++ [b])). rewrite fmap_app, stakes_app in IH. cbn [fmap list_fmap] in IH.
    assert (stakes [stamp c b] = stake_at c (author b)) as Hs by (unfold stakes; simpl; lia). rewrite Hs in IH.
    rewrite wrap64_small; [apply IH; by rewrite Heq, <-app_assoc|].
    destruct (stamps_sum (done ++ [b])) as [_ Hle]; [rewrite Heq, (cons_middle b done l), app_assoc; by apply sublist_inserts_r|].
    rewrite fmap_app, stakes_app in Hle. cbn [fmap list_fmap] in Hle. rewrite Hs in Hle. lia. }
  specialize (Hfold blocks [] eq_refl). cbn [fmap list_fmap] in Hfold. change (stakes []) with 0 in Hfold.
  rewrite Hfold. cbn [mbind outcome_bind]. destruct blocks; done.
Qed.
End blocks.

(** Half of a quorum outweighs what is below the validity threshold. *)
Lemma half_quorum (T q S b x : N) : 2 * T < 3 * q → 3 * b < T → q <= S → S <= S / 2 + x → b < x.
Proof.
  intros Hq Hb HS. pose proof (N.div_mod S 2 ltac:(lia)) as Hdm. revert Hdm. generalize (S / 2) (S mod 2). intros h r Hdm Hx. lia.
Qed.

(** C35: commit timestamps are honest.  For parents of distinct members that
    hold a quorum, the weighted median is computed, and it lies between the
    timestamps of two parents made by authorities outside any set whose stake is
    below the validity threshold; without a quorum an error is returned. *)
Theorem median_between_honest (c : Committee) (byz : gset AuthorityIndex) (blocks : list VerifiedBlock) :
  committee_ok c → set_stake c byz < validity_threshold c →
  (∀ b : VerifiedBlock, b ∈ blocks → is_valid_index c (author b)) → NoDup (block_author <$> blocks) →
  if reached_quorum c (set_stake c (list_to_set (block_author <$> blocks)))
  then ∃ (m : BlockTimestampMs) (lo hi : VerifiedBlock), median_timestamp_by_stake c blocks = Ret (Ok m) ∧
    lo ∈ blocks ∧ hi ∈ blocks ∧ (author lo ∉ byz) ∧ (author hi ∉ byz) ∧ timestamp_ms lo <= m <= timestamp_ms hi
  else ∃ e, median_timestamp_by_stake c blocks = Ret (Err e).
Proof.
  intros Hc Hbyz Hval Hnd. rewrite median_timestamp_ret by done.
  destruct (stamps_sum c Hc blocks Hval Hnd blocks ltac:(done)) as [Hsum Hle]. unfold reached_quorum. rewrite <-Hsum.
  destruct (quorum_two_thirds c Hc) as [Hq _]. pose proof (byz_third c Hc byz Hbyz) as Hthird.
  destruct (committee_ok_fields c Hc) as (_ & _ & _ & Htot & _).
  destruct (N.leb_spec (quorum_threshold c) (stakes (stamp c <$> blocks))) as [Hge|Hlt].
  2: { case_bool_decide; [by eexists|]. rewrite (proj2 (N.ltb_lt _ _)) by done. by eexists. }
  assert (blocks ≠ []) as Hne by (intros ->; change (stakes (stamp c <$> [])) with 0 in Hge; lia).
  rewrite bool_decide_eq_false_2 by done. rewrite (proj2 (N.ltb_ge _ _)) by done.
  destruct (median_spec (stamp c <$> blocks)) as (m & -> & Hlo & Hhi); [lia..|]. cbn [mbind outcome_bind].
  rewrite !filter_fmap in Hlo, Hhi. cbv beta in Hlo, Hhi.
  assert (∀ P `{!∀ x : VerifiedBlock, Decision (P x)}, set_stake c byz < stakes (stamp c <$> filter P blocks) →
    ∃ b : VerifiedBlock, b ∈ blocks ∧ P b ∧ author b ∉ byz) as Hfind.
  { intros P HP Hlt. destruct (stamps_sum c Hc blocks Hval Hnd (filter P blocks)) as [Heq _]; [apply sublist_filter|].
    rewrite Heq in Hlt. destruct (exists_honest c byz _ Hlt) as (a & Ha & Hn).
    apply elem_of_list_to_set, list_elem_of_fmap in Ha as (b & -> & [HPb Hb]%list_elem_of_filter). by exists b. }
  destruct (Hfind (λ b, (stamp c b).1 <= m) _) as (lo & Hlo' & Hml & Hnl).
  { eapply half_quorum; [exact Hq|exact Hthird|exact Hge|]. clear -Hlo. revert Hlo.
    pose proof (N.div_mod (stakes (stamp c <$> blocks)) 2 ltac:(lia)) as Hdm.
    pose proof (N.mod_lt (stakes (stamp c <$> blocks)) 2 ltac:(lia)) as Hm. revert Hdm Hm.
    generalize (stakes (stamp c <$> blocks) / 2) (stakes (stamp c <$> blocks) mod 2). intros h r Hdm Hm Hlo. lia. }
  destruct (Hfind (λ b, m <= (stamp c b).1) _) as (hi & Hhi' & Hmh & Hnh).
  { eapply half_quorum; [exact Hq|exact Hthird|exact Hge|exact Hhi]. }
  exists m, lo, hi. by split_and!.
Qed.

Lemma median_between_honest_witness :
  ∃ (m : BlockTimestampMs) (lo hi : VerifiedBlock),
    let blocks := [test_block 1 0 10 5 []; test_block 1 1 11 900 []; test_block 1 2 12 7 []] in
    median_timestamp_by_stake (test_committee [1; 1; 1; 1]) blocks = Ret (Ok m) ∧
    lo ∈ blocks ∧ hi ∈ blocks ∧ author lo ≠ 1 ∧ author hi ≠ 1 ∧ timestamp_ms lo <= m <= timestamp_ms hi.
Proof.
  pose proof (median_between_honest (test_committee [1; 1; 1; 1]) {[1]}
    [test_block 1 0 10 5 []; test_block 1 1 11 900 []; test_block 1 2 12 7 []]) as Hm.
  destruct Hm as (m & lo & hi & Heq & Hlo & Hhi & Hnl & Hnh & Hb).
  - apply test_committee_ok.
  - by vm_compute.
  - assert (forallb (λ b : VerifiedBlock, is_valid_index (test_committee [1; 1; 1; 1]) (author b))
      [test_block 1 0 10 5 []; test_block 1 1 11 900 []; test_block 1 2 12 7 []] = true) as Hf by reflexivity.
    rewrite forallb_forall in Hf. intros b Hb%list_elem_of_In. apply Is_true_true. by apply Hf.
  - apply (bool_decide_unpack _). by vm_compute.
  - exists m, lo, hi. split; [exact Heq|]. split; [exact Hlo|]. split; [exact Hhi|]. split; [set_solver|]. split; [set_solver|exact Hb].
Defined.
