(* ===== verification/BaseCommitter.v ===== *)
(** * BaseCommitter: the commit rule of one leader slot

    Models [consensus/core/src/base_committer.rs].  Reads of the DAG go through
    [DagState]; the [all_votes] cache is threaded as the code threads it.
    [fuel] bounds the traversal loop of [ancestors_at_round]; the recursion of
    [find_supported_block] descends in rounds, and a recursion deeper than that
    would overflow the stack. *)
From S2P Require Import Prelude Committee Block StakeAggregator Commit Error Store DagState LeaderSchedule.
Local Open Scope N_scope.
Local Open Scope rust_scope.

Record BaseCommitterOptions := mk_options {
  wave_length : N;
  leader_offset : N;
  round_offset : N;
}.

Definition BaseCommitterOptions_default : BaseCommitterOptions := mk_options DEFAULT_WAVE_LENGTH 0 0.

(** [BaseCommitter::new] refuses short waves. *)
Definition BaseCommitter_new (o : BaseCommitterOptions) : outcome BaseCommitterOptions :=
  _ ← assert (MINIMUM_WAVE_LENGTH <=? wave_length o) "assertion failed: wave_length"; Ret o.

Definition leader_round (o : BaseCommitterOptions) (wave : WaveNumber) : Round :=
  (wave *32 wave_length o) +32 round_offset o.

Definition decision_round (o : BaseCommitterOptions) (wave : WaveNumber) : Round :=
  (((wave *32 wave_length o) +32 wave_length o) -32 1) +32 round_offset o.

Definition wave_number (o : BaseCommitterOptions) (r : Round) : WaveNumber :=
  (r - round_offset o) / wave_length o.

Definition committer_elect_leader `{Rng} (o : BaseCommitterOptions) (s : LeaderSchedule) (r : Round)
    : outcome (option Slot) :=
  if negb (leader_round o (wave_number o r) =? r) then Ret None
  else a ← elect_leader s r (leader_offset o); Ret (Some (mk_slot r a)).

(** [for x in l { if p(x) && aggregator.add(author(x)) { return true } } false]:
    the loop that counts votes, certificates and blames; [p] may update [σ]. *)
Fixpoint for_until_quorum {A Σ : Type} (c : Committee) (p : A → Σ → outcome (bool * Σ)) (au : A → AuthorityIndex)
    (l : list A) (σ : Σ) (agg : StakeAggregator QuorumThreshold) : outcome (bool * Σ) :=
  match l with
  | [] => Ret (false, σ)
  | x :: l =>
    '(counts, σ) ← p x σ;
    if counts : bool then
      '(agg, reached) ← add agg (au x) c;
      if reached : bool then Ret (true, σ) else for_until_quorum c p au l σ agg
    else for_until_quorum c p au l σ agg
  end.

Section committer.
Context {St : Type} `{Store St} (d : DagState St).

(** ** Votes *)

Fixpoint find_supported_block_fuel (fuel : nat) (leader_slot : Slot) (from : VerifiedBlock) {struct fuel}
    : outcome (option BlockRef) :=
  match fuel with
  | O => Panic "stack overflow"
  | S fuel =>
    if round from <? slot_round leader_slot then Ret None
    else
      (fix go (ancs : list BlockRef) : outcome (option BlockRef) :=
        match ancs with
        | [] => Ret None
        | a :: ancs =>
          if bool_decide (ref_slot a = leader_slot) then Ret (Some a)
          else if ref_round a <=? slot_round leader_slot then go ancs
          else
            o ← get_block d a;
            match o : option VerifiedBlock with
            | None => Panic "Block not found in storage"
            | Some ab =>
              support ← find_supported_block_fuel fuel leader_slot ab;
              match support : option BlockRef with Some r => Ret (Some r) | None => go ancs end
            end
        end) (ancestors from)
  end.

Definition find_supported_block (leader_slot : Slot) (from : VerifiedBlock) : outcome (option BlockRef) :=
  find_supported_block_fuel (S (N.to_nat (round from))) leader_slot from.

Definition is_vote (potential_vote leader_block : VerifiedBlock) : outcome bool :=
  let r := reference leader_block in
  o ← find_supported_block (ref_slot r) potential_vote; Ret (bool_decide (o = Some r)).

(** ** Certificates *)

(** Whether the block with reference [r] is a vote for [leader_block]. *)
Definition reference_is_vote (leader_block : VerifiedBlock) (r : BlockRef) : outcome bool :=
  potential_vote ← get_block d r;
  match potential_vote : option VerifiedBlock with
  | Some v => is_vote v leader_block
  | None =>
    if gc_enabled d then
      _ ← assert (ref_round r <=? gc_round d) "Block not found in storage, and is not below gc_round";
      Ret false
    else Panic "Block not found in storage"
  end.

(** The vote status of [r], from the cache or computed and then cached. *)
Definition cached_vote (leader_block : VerifiedBlock) (r : BlockRef) (all_votes : gmap BlockRef bool)
    : outcome (bool * gmap BlockRef bool) :=
  match all_votes !! r with
  | Some v => Ret (v, all_votes)
  | None => v ← reference_is_vote leader_block r; Ret (v, <[r := v]> all_votes)
  end.

Definition is_certificate (potential_certificate leader_block : VerifiedBlock) (all_votes : gmap BlockRef bool)
    : outcome (bool * gmap BlockRef bool) :=
  for_until_quorum (committee (ds_context d)) (cached_vote leader_block) ref_author
    (ancestors potential_certificate) all_votes StakeAggregator_new.

(** ** The direct rule *)

Definition is_blame (leader : AuthorityIndex) (b : VerifiedBlock) : bool :=
  forallb (λ a, negb (ref_author a =? leader)) (ancestors b).

Definition enough_leader_blame (voting_round : Round) (leader : AuthorityIndex) : outcome bool :=
  voting_blocks ← get_uncommitted_blocks_at_round d voting_round;
  '(reached, _) ← for_until_quorum (committee (ds_context d)) (λ b (_ : unit), Ret (is_blame leader b, tt))
                    (λ b : VerifiedBlock, author b) voting_blocks tt StakeAggregator_new;
  Ret reached.

Definition enough_leader_support (decision_round : Round) (leader_block : VerifiedBlock) : outcome bool :=
  let c := committee (ds_context d) in
  decision_blocks ← get_uncommitted_blocks_at_round d decision_round;
  total ← foldM (λ t (b : VerifiedBlock), s ← committee_stake c (author b); Ret (t +64 s)) 0 decision_blocks;
  if negb (reached_quorum c total) then Ret false
  else
    '(reached, _) ← for_until_quorum c (λ b, is_certificate b leader_block) (λ b : VerifiedBlock, author b)
                      decision_blocks ∅ StakeAggregator_new;
    Ret reached.

Definition try_direct_decide (o : BaseCommitterOptions) (leader : Slot) : outcome LeaderStatus :=
  blame ← enough_leader_blame (slot_round leader +32 1) (slot_authority leader);
  if blame : bool then Ret (LsSkip leader)
  else
    let decision := decision_round o (wave_number o (slot_round leader)) in
    leader_blocks ← get_uncommitted_blocks_at_slot d leader;
    supported ← filterM (enough_leader_support decision) leader_blocks;
    match supported with
    | [] => Ret (LsUndecided leader)
    | [b] => Ret (LsCommit b)
    | _ => Panic "More than one certified block"
    end.

(** ** The indirect rule *)

(** [potential_certificates.iter().any(..)] with the shared cache. *)
Fixpoint any_certificate (leader_block : VerifiedBlock) (certs : list VerifiedBlock)
    (all_votes : gmap BlockRef bool) : outcome bool :=
  match certs with
  | [] => Ret false
  | b :: bs =>
    '(cert, all_votes) ← is_certificate b leader_block all_votes;
    if cert : bool then Ret true else any_certificate leader_block bs all_votes
  end.

Definition decide_leader_from_anchor (fuel : nat) (o : BaseCommitterOptions) (anchor : VerifiedBlock)
    (leader_slot : Slot) : outcome LeaderStatus :=
  leader_blocks ← get_uncommitted_blocks_at_slot d leader_slot;
  let decision := decision_round o (wave_number o (slot_round leader_slot)) in
  potential_certificates ← ancestors_at_round fuel d anchor decision;
  certified ← filterM (λ b, any_certificate b potential_certificates ∅) leader_blocks;
  match certified with
  | [] => Ret (LsSkip leader_slot)
  | [b] => Ret (LsCommit b)
  | _ => Panic "More than one certified block"
  end.

(** The first anchor that is not skipped decides. *)
Fixpoint indirect_loop (fuel : nat) (o : BaseCommitterOptions) (leader_slot : Slot) (anchors : list LeaderStatus)
    : outcome LeaderStatus :=
  match anchors with
  | [] => Ret (LsUndecided leader_slot)
  | LsCommit anchor :: _ => decide_leader_from_anchor fuel o anchor leader_slot
  | LsSkip _ :: rest => indirect_loop fuel o leader_slot rest
  | LsUndecided _ :: _ => Ret (LsUndecided leader_slot)
  end.

Definition try_indirect_decide (fuel : nat) (o : BaseCommitterOptions) (leader_slot : Slot)
    (leaders : list LeaderStatus) : outcome LeaderStatus :=
  indirect_loop fuel o leader_slot
    (filter (λ x, slot_round leader_slot +32 wave_length o <= status_round x) leaders).
End committer.
