(* ===== verification/UniversalCommitter.v ===== *)
(** * UniversalCommitter: deciding a sequence of leaders

    Models [consensus/core/src/universal_committer.rs] with its builder.  The
    metrics that [try_decide] updates look up the leader's authority, which is
    kept because it can panic. *)
From S2P Require Import Prelude Committee Block Commit Error Store DagState LeaderSchedule BaseCommitter.
Local Open Scope N_scope.
Local Open Scope rust_scope.

(** ** The builder *)

Record UniversalCommitterBuilder := mk_builder {
  b_wave_length : Round;
  b_number_of_leaders : N;
  b_pipeline : bool;
}.

Definition UniversalCommitterBuilder_new : UniversalCommitterBuilder := mk_builder DEFAULT_WAVE_LENGTH 1 false.
Definition with_wave_length (b : UniversalCommitterBuilder) (w : Round) :=
  mk_builder w (b_number_of_leaders b) (b_pipeline b).
Definition with_number_of_leaders (b : UniversalCommitterBuilder) (n : N) :=
  mk_builder (b_wave_length b) n (b_pipeline b).
Definition with_pipeline (b : UniversalCommitterBuilder) (p : bool) :=
  mk_builder (b_wave_length b) (b_number_of_leaders b) p.

Definition build (b : UniversalCommitterBuilder) : outcome (list BaseCommitterOptions) :=
  let stages := if b_pipeline b then b_wave_length b else 1 in
  mapM BaseCommitter_new
    (r ← (N.of_nat <$> seq 0 (N.to_nat stages));
     (λ l, mk_options (b_wave_length b) (wrap32 l) r) <$> (N.of_nat <$> seq 0 (N.to_nat (b_number_of_leaders b)))).

(** The rounds [lo..=hi], highest first. *)
Definition rounds_rev (lo hi : Round) : list Round :=
  reverse ((λ i, lo + N.of_nat i) <$> seq 0 (N.to_nat (hi + 1 - lo))).

Section universal.
Context {St : Type} `{Store St} `{Rng} (fuel : nat).
Context (committers : list BaseCommitterOptions) (s : LeaderSchedule) (d : DagState St).

(** The committers of one round, last one first; [true] is [break 'outer]. *)
Fixpoint decide_round (last_decided : Slot) (r : Round) (cs : list BaseCommitterOptions)
    (leaders : list (LeaderStatus * LeaderDecision))
    : outcome (list (LeaderStatus * LeaderDecision) * bool) :=
  match cs with
  | [] => Ret (leaders, false)
  | o :: cs =>
    elected ← committer_elect_leader o s r;
    match elected : option Slot with
    | None => decide_round last_decided r cs leaders
    | Some slot =>
      if bool_decide (slot = last_decided) then Ret (leaders, true)
      else
        status ← try_direct_decide d o slot;
        if is_decided status then decide_round last_decided r cs ((status, Direct) :: leaders)
        else
          status ← try_indirect_decide d fuel o slot leaders.*1;
          decide_round last_decided r cs ((status, Indirect) :: leaders)
    end
  end.

Fixpoint decide_rounds (last_decided : Slot) (rounds : list Round)
    (leaders : list (LeaderStatus * LeaderDecision)) : outcome (list (LeaderStatus * LeaderDecision)) :=
  match rounds with
  | [] => Ret leaders
  | r :: rounds =>
    '(leaders, stop) ← decide_round last_decided r (reverse committers) leaders;
    if stop : bool then Ret leaders else decide_rounds last_decided rounds leaders
  end.

(** The longest decided prefix. *)
Fixpoint decided_prefix (leaders : list (LeaderStatus * LeaderDecision)) : outcome (list DecidedLeader) :=
  match leaders with
  | [] => Ret []
  | (leader, _) :: rest =>
    if status_round leader =? GENESIS_ROUND then decided_prefix rest
    else
      match into_decided_leader leader with
      | None => Ret []
      | Some dl =>
        _ ← authority (committee (ds_context d)) (slot_authority (decided_slot dl));
        ds ← decided_prefix rest;
        Ret (dl :: ds)
      end
  end.

Definition try_decide (last_decided : Slot) : outcome (list DecidedLeader) :=
  leaders ← decide_rounds last_decided
              (rounds_rev (slot_round last_decided +32 1) (ds_highest_accepted_round d - 2)) [];
  decided_prefix leaders.

Definition get_leaders (r : Round) : outcome (list AuthorityIndex) :=
  slots ← mapM (λ o, committer_elect_leader o s r) committers;
  Ret (slot_authority <$> omap (λ o : option Slot, o) (slots : list (option Slot))).
End universal.
