(* ===== verification/CommitRule.v ===== *)
(** * CommitRule: votes, certificates and why decisions cannot conflict

    The mathematics of the Mysticeti commit rule over a universe of blocks, the
    blocks that any authority ever produced, Byzantine ones included.  A leader
    block of round [R] is voted for by blocks of round [R + 1] that link it, and
    certified by blocks of round [R + 2] that link a quorum of votes.  Nothing
    here depends on how a node stores or traverses its DAG. *)
From S2P Require Import Prelude Committee Block Commit Error BlockVerifier.
Local Open Scope N_scope.

(** What the block verifier guarantees of a block, as far as the commit rule
    needs it. *)
Record block_ok (c : Committee) (b : Block) : Prop := {
  bo_author : is_valid_index c (author b);
  bo_index a : a ∈ ancestors b → is_valid_index c (ref_author a);
  bo_round a : a ∈ ancestors b → ref_round a < round b;
  bo_nodup : NoDup (ref_author <$> ancestors b);
  bo_quorum : reached_quorum c (set_stake c (ref_authors_at (round b - 1) (ancestors b)));
}.

Lemma valid_block_ok `{Crypto} verify_batch v (b : SignedBlock) :
  valid_block verify_batch v b → block_ok (committee (verifier_context v)) b.
Proof. intros [_ _ Ha _ [] _ _]. by split. Qed.

(** One ancestor per author. *)
Lemma ancestor_unique c b a a' : block_ok c b →
  a ∈ ancestors b → a' ∈ ancestors b → ref_author a = ref_author a' → a = a'.
Proof.
  intros Hb Ha Ha' Heq. apply list_elem_of_lookup in Ha as [i Hi], Ha' as [j Hj].
  assert (i = j) as -> by (eapply (NoDup_lookup (ref_author <$> ancestors b));
    [apply (bo_nodup _ _ Hb)|by rewrite list_lookup_fmap, Hi|by rewrite list_lookup_fmap, Hj, Heq]).
  congruence.
Qed.

Lemma parents_valid c b : block_ok c b → ref_authors_at (round b - 1) (ancestors b) ⊆ all_indices c.
Proof. intros Hb. apply ref_authors_at_valid, Hb. Qed.

(** ** Votes and certificates *)

(** [v] links the leader block [l] of the round before. *)
Definition votes_for (v : VerifiedBlock) (l : BlockRef) : Prop :=
  round v = ref_round l + 1 ∧ l ∈ ancestors v.

#[export] Instance votes_for_dec v l : Decision (votes_for v l).
Proof. unfold votes_for. apply _. Defined.

Definition is_voter (U : gmap BlockRef VerifiedBlock) (l r : BlockRef) : bool :=
  match U !! r with Some v => bool_decide (votes_for v l) | None => false end.

(** The authors of the votes for [l] among the ancestors of [b]. *)
Definition cert_voters (U : gmap BlockRef VerifiedBlock) (b : Block) (l : BlockRef) : gset AuthorityIndex :=
  list_to_set (ref_author <$> filter (λ r, is_voter U l r) (ancestors b)).

Definition certifies (c : Committee) (U : gmap BlockRef VerifiedBlock) (b : Block) (l : BlockRef) : Prop :=
  round b = ref_round l + 2 ∧ reached_quorum c (set_stake c (cert_voters U b l)).

#[export] Instance certifies_dec c U b l : Decision (certifies c U b l).
Proof. unfold certifies. apply _. Defined.

Lemma certifies_bool c U b l : round b = ref_round l + 2 →
  reached_quorum c (set_stake c (cert_voters U b l)) = bool_decide (certifies c U b l).
Proof.
  intros Hr. destruct (bool_decide (certifies c U b l)) eqn:Hb.
  - apply bool_decide_eq_true in Hb as [_ Hq]. by apply Is_true_true_1.
  - apply bool_decide_eq_false in Hb. apply Is_true_false_1. intros Hq. by apply Hb.
Qed.

Lemma elem_of_cert_voters U b l i :
  i ∈ cert_voters U b l ↔ ∃ r v, r ∈ ancestors b ∧ U !! r = Some v ∧ votes_for v l ∧ ref_author r = i.
Proof.
  unfold cert_voters, is_voter. rewrite elem_of_list_to_set, list_elem_of_fmap. split.
  - intros (r & -> & [Hv Hr]%list_elem_of_filter). case_match; [|done].
    apply bool_decide_unpack in Hv. eauto 10.
  - intros (r & v & Hr & Hv & Hvote & <-). exists r. split; [done|]. apply list_elem_of_filter.
    split; [|done]. rewrite Hv. by apply bool_decide_pack.
Qed.

(** ** The universe of blocks *)

Record universe_ok (c : Committee) (byz : gset AuthorityIndex) (U : gmap BlockRef VerifiedBlock) : Prop := {
  un_committee : committee_ok c;
  un_byz : set_stake c byz < validity_threshold c;
  un_reference r b : U !! r = Some b → reference b = r;
  un_block r (b : VerifiedBlock) : U !! r = Some b → 0 < round b → block_ok c b;
  un_genesis r (b : VerifiedBlock) : U !! r = Some b → round b = 0 → ancestors b = [];
  (* an honest authority makes one block per round *)
  un_honest r r' (b b' : VerifiedBlock) : U !! r = Some b → U !! r' = Some b' → 0 < round b →
    round b = round b' → author b = author b' → author b ∉ byz → b = b';
}.

Section universe.
Context (c : Committee) (byz : gset AuthorityIndex) (U : gmap BlockRef VerifiedBlock) (HU : universe_ok c byz U).

Lemma cert_voters_valid r (b : VerifiedBlock) l : U !! r = Some b → 0 < round b → cert_voters U b l ⊆ all_indices c.
Proof.
  intros Hb Hr i (r' & v & Hin & _ & _ & <-)%elem_of_cert_voters.
  apply elem_of_all_indices. by eapply bo_index; [eapply un_block|].
Qed.

Lemma voter_block r (v : VerifiedBlock) : U !! r = Some v → ref_author r = author v ∧ ref_round r = round v.
Proof. by intros <-%(un_reference _ _ _ HU). Qed.

(** A quorum of authors, each with a block of round [r] that satisfies [P]. *)
Definition quorum_of (r : Round) (P : VerifiedBlock → Prop) : Prop :=
  ∃ S : gset AuthorityIndex, S ⊆ all_indices c ∧ reached_quorum c (set_stake c S) ∧
    ∀ i, i ∈ S → ∃ b, U !! reference b = Some b ∧ round b = r ∧ author b = i ∧ P b.

Lemma certificate_quorum r (b : VerifiedBlock) l : U !! r = Some b → certifies c U b l →
  quorum_of (ref_round l + 1) (λ v, l ∈ ancestors v).
Proof.
  intros Hb [Hr Hq]. exists (cert_voters U b l). split_and!; [|done|].
  - eapply cert_voters_valid; [done|lia].
  - intros i (r' & v & Hin & Hv & [Hvr Hvl] & <-)%elem_of_cert_voters. exists v.
    assert (reference v = r') as <- by (by eapply un_reference). done.
Qed.

(** Two quorums of the same round have a block of an honest author in common. *)
Lemma quorums_share_block r P Q : 0 < r → quorum_of r P → quorum_of r Q →
  ∃ b, U !! reference b = Some b ∧ round b = r ∧ P b ∧ Q b.
Proof.
  intros Hr (X & HX & HqX & HPX) (Y & HY & HqY & HQY).
  destruct (quorums_share_honest c (un_committee _ _ _ HU) byz (un_byz _ _ _ HU) X Y) as (i & HiX & HiY & Hi);
    [done..|].
  destruct (HPX i HiX) as (b & Hb & Hbr & Hba & HP), (HQY i HiY) as (b' & Hb' & Hbr' & Hba' & HQ).
  assert (b = b') as <- by (eapply (un_honest _ _ _ HU); [exact Hb|exact Hb'|lia|congruence..]).
  eauto.
Qed.

(** A slot has at most one certified block. *)
Lemma certified_unique r r' (b b' : VerifiedBlock) l l' :
  U !! r = Some b → U !! r' = Some b' → certifies c U b l → certifies c U b' l' →
  ref_slot l = ref_slot l' → l = l'.
Proof.
  intros Hb Hb' Hc Hc' [= Hr Ha].
  apply (certificate_quorum _ _ _ Hb) in Hc. apply (certificate_quorum _ _ _ Hb') in Hc'. rewrite <-Hr in Hc'.
  destruct (quorums_share_block (ref_round l + 1) _ _ ltac:(lia) Hc Hc') as (v & Hv & Hvr & Hl & Hl').
  eapply ancestor_unique; [eapply un_block; [done|exact Hv|lia]|done..].
Qed.

(** A quorum of blocks of round [R + 1] without a link to the leader's author
    excludes certificates for the leader's slot. *)
Lemma blame_excludes_certificate r (b : VerifiedBlock) l :
  quorum_of (ref_round l + 1) (λ v, ∀ a, a ∈ ancestors v → ref_author a ≠ ref_author l) →
  U !! r = Some b → ¬ certifies c U b l.
Proof.
  intros Hblame Hb Hc%(certificate_quorum _ _ _ Hb).
  destruct (quorums_share_block (ref_round l + 1) _ _ ltac:(lia) Hblame Hc) as (v & _ & _ & Hn & Hl). by eapply Hn.
Qed.

(** ** Links *)

(** [b] is reached from [x] by following ancestors through blocks of [U]. *)
Inductive reaches (x : VerifiedBlock) : VerifiedBlock → Prop :=
| reaches_refl : reaches x x
| reaches_step y a z : reaches x y → a ∈ ancestors y → U !! a = Some z → reaches x z.

Lemma reaches_universe x y : U !! reference x = Some x → reaches x y → U !! reference y = Some y.
Proof.
  intros Hx. induction 1 as [|y a z Hxy IH Ha Hz]; [done|]. by rewrite (un_reference _ _ _ HU _ _ Hz).
Qed.

(** Links go to lower rounds. *)
Lemma ancestor_lower r (y : VerifiedBlock) a : U !! r = Some y → a ∈ ancestors y → ref_round a < round y.
Proof.
  intros Hy Ha. destruct (decide (round y = 0)) as [Hz|Hz].
  - rewrite (un_genesis _ _ _ HU _ _ Hy Hz) in Ha. by apply elem_of_nil in Ha.
  - eapply bo_round; [|done]. eapply un_block; [done|done|lia].
Qed.

Lemma reaches_trans x y z : reaches x y → reaches y z → reaches x z.
Proof. intros Hxy. induction 1; [done|]. by eapply reaches_step. Qed.

(** A quorum has a member. *)
Lemma quorum_nonempty X : X ⊆ all_indices c → reached_quorum c (set_stake c X) → ∃ i, i ∈ X.
Proof.
  intros HX Hq.
  destruct (quorums_share_honest c (un_committee _ _ _ HU) byz (un_byz _ _ _ HU) X X) as (i & Hi & _); eauto.
Qed.

(** All ancestors of the blocks reached from [x] above round [r] are in [U]. *)
Definition closed_above (r : Round) (x : VerifiedBlock) : Prop :=
  ∀ y a, reaches x y → a ∈ ancestors y → r < ref_round a → is_Some (U !! a).

Lemma closed_above_step r x a z :
  closed_above r x → a ∈ ancestors x → U !! a = Some z → closed_above r z.
Proof.
  intros Hx Ha Hz y a' Hy. apply Hx. eapply reaches_trans; [|done]. by eapply reaches_step; [apply reaches_refl|..].
Qed.

(** A causally complete block links a block of the round before. *)
Lemma has_parent r x : U !! reference x = Some x → closed_above r x → r + 1 < round x →
  ∃ p, reference p ∈ ancestors x ∧ U !! reference p = Some p ∧ round p = round x - 1.
Proof.
  intros Hx Hcl Hr. pose proof (un_block _ _ _ HU _ _ Hx ltac:(lia)) as Hok.
  destruct (quorum_nonempty _ (parents_valid _ _ Hok) (bo_quorum _ _ Hok)) as (i & Hi).
  apply elem_of_ref_authors_at in Hi as (a & Ha & Har & _).
  destruct (Hcl x a) as [p Hp]; [apply reaches_refl|done|lia|].
  pose proof (un_reference _ _ _ HU _ _ Hp) as <-. by exists p.
Qed.

(** If a quorum of blocks of round [r] satisfies [P], every later block that is
    causally complete reaches one that does. *)
Lemma quorum_is_reached r P x : 0 < r → quorum_of r P →
  U !! reference x = Some x → closed_above (r - 1) x → r < round x →
  ∃ b, reaches x b ∧ U !! reference b = Some b ∧ round b = r ∧ P b.
Proof.
  intros Hr HP. remember (N.to_nat (round x - r)) as n eqn:Hn. revert x Hn.
  induction n as [|n IH]; intros x Hn Hx Hcl Hrx; [lia|].
  destruct (decide (round x = r + 1)) as [Heq|Hne].
  - pose proof (un_block _ _ _ HU _ _ Hx ltac:(lia)) as Hok.
    assert (quorum_of r (λ b, reference b ∈ ancestors x)) as Hpar.
    { exists (ref_authors_at (round x - 1) (ancestors x)).
      split_and!; [by apply parents_valid|apply Hok|].
      intros i (a & Ha & Har & <-)%elem_of_ref_authors_at.
      destruct (Hcl x a) as [p Hp]; [apply reaches_refl|done|lia|].
      pose proof (un_reference _ _ _ HU _ _ Hp) as <-. exists p. split_and!; try done. simpl in Har. lia. }
    destruct (quorums_share_block r P _ Hr HP Hpar) as (b & Hb & Hbr & HPb & Hin).
    exists b. split_and!; try done. by eapply reaches_step; [apply reaches_refl|..].
  - destruct (has_parent (r - 1) x Hx Hcl ltac:(lia)) as (p & Hin & Hp & Hpr).
    destruct (IH p) as (b & Hb & ? & ? & ?); [lia|done|by eapply closed_above_step|lia|].
    exists b. split_and!; try done. eapply reaches_trans; [|done]. by eapply reaches_step; [apply reaches_refl|..].
Qed.
End universe.

(** ** What the status of a leader slot rests on *)

(** What a direct decision of slot [s] rests on. *)
Definition direct_reason (c : Committee) (U : gmap BlockRef VerifiedBlock) (s : Slot) (st : LeaderStatus) : Prop :=
  match st with
  | LsSkip _ => quorum_of c U (slot_round s + 1) (λ v, ∀ a, a ∈ ancestors v → ref_author a ≠ slot_authority s)
  | LsCommit b => quorum_of c U (slot_round s + 2) (λ C, certifies c U C (reference b))
  | LsUndecided _ => True
  end.

Definition status_slot (st : LeaderStatus) : Slot :=
  match st with LsCommit b => slot b | LsSkip s | LsUndecided s => s end.

(** A commit names a block of the view. *)
Definition status_in_view (V : gmap BlockRef VerifiedBlock) (st : LeaderStatus) : Prop :=
  match st with LsCommit b => V !! reference b = Some b | _ => True end.

(** What a decision of slot [s] through the anchor [X] rests on. *)
Definition anchor_reason (c : Committee) (U : gmap BlockRef VerifiedBlock) (X : VerifiedBlock) (s : Slot) (st : LeaderStatus) : Prop :=
  match st with
  | LsCommit b => ∃ C, reaches U X C ∧ certifies c U C (reference b)
  | LsSkip _ => ∀ C l, reaches U X C → certifies c U C l → ref_slot l = s → False
  | LsUndecided _ => False
  end.
