(* ===== verification/CommitterSpec.v ===== *)
(** * CommitterSpec: what the committer's reads and loops compute

    [dag_view] is the interface between the DAG state and the committer: the
    blocks above a round that a node has accepted, causally complete, and the
    reads that return them.  Against it, the executable commit rule of
    [BaseCommitter] is shown to compute the notions of [CommitRule]: votes,
    certificates, blames and reachability. *)
From S2P Require Import Prelude Committee Block StakeAggregator Commit Error BlockVerifier Store DagState.
From S2P Require Import LeaderSchedule BaseCommitter CommitRule.
Local Open Scope N_scope.
Local Open Scope rust_scope.

(** ** Counting until a quorum *)

Lemma for_until_quorum_spec {A Σ} c (p : A → Σ → outcome (bool * Σ)) au (I : Σ → Prop) (q : A → bool) l :
  committee_ok c →
  (∀ x σ, x ∈ l → I σ → ∃ σ', p x σ = Ret (q x, σ') ∧ I σ') →
  (∀ x, x ∈ l → is_valid_index c (au x)) → ∀ σ agg,
  I σ → agg_ok c agg → reached_threshold agg c = false →
  ∃ σ', for_until_quorum c p au l σ agg =
          Ret (reached_quorum c (set_stake c (list_to_set (au <$> filter (λ x, q x) l) ∪ votes agg)), σ') ∧ I σ'.
Proof.
  intros Hc. induction l as [|x l IH]; intros Hp Hau σ agg Hσ Hagg Hno; cbn [for_until_quorum].
  - exists σ. split; [|done]. do 2 f_equal. destruct Hagg as [_ Hs]. unfold reached_threshold in Hno.
    cbn in *. by rewrite (left_id_L ∅ (∪)), <-Hs.
  - destruct (Hp x σ ltac:(left) Hσ) as (σ1 & -> & Hσ1). cbn [mbind outcome_bind].
    rewrite filter_cons. destruct (q x) eqn:Hq.
    + rewrite decide_True, fmap_cons, list_to_set_cons by done.
      destruct (add_spec c Hc agg (au x) Hagg (Hau x ltac:(left))) as (agg1 & -> & Hv1 & Hagg1). cbn [mbind outcome_bind].
      set (X := list_to_set (au <$> filter (λ x, q x) l) : gset N).
      replace ({[au x]} ∪ X ∪ votes agg) with (X ∪ votes agg1) by set_solver.
      destruct (reached_threshold agg1 c) eqn:Hr.
      * exists σ1. split; [|done]. do 2 f_equal. destruct Hagg1 as [_ Hs1]. unfold reached_threshold in Hr. cbn in Hr.
        unfold reached_quorum in *. apply N.leb_le in Hr. symmetry. apply N.leb_le. rewrite Hs1 in Hr.
        etrans; [exact Hr|]. apply set_stake_mono. set_solver.
      * apply IH; try done; intros; [apply Hp|apply Hau]; try done; by right.
    + rewrite decide_False by (by intros []).
      apply IH; try done; intros; [apply Hp|apply Hau]; try done; by right.
Qed.

Lemma reached_new_false c : committee_ok c →
  reached_threshold (StakeAggregator_new (T:=QuorumThreshold)) c = false.
Proof.
  intros Hc. unfold reached_threshold, StakeAggregator_new. cbn. unfold reached_quorum. apply N.leb_gt.
  pose proof (quorum_two_thirds c Hc). destruct (committee_ok_fields c Hc) as (_ & _ & ? & _). lia.
Qed.

(** From a fresh aggregator. *)
Lemma for_until_quorum_new {A Σ} c (p : A → Σ → outcome (bool * Σ)) au (I : Σ → Prop) (q : A → bool) l σ :
  committee_ok c →
  (∀ x σ, x ∈ l → I σ → ∃ σ', p x σ = Ret (q x, σ') ∧ I σ') →
  (∀ x, x ∈ l → is_valid_index c (au x)) → I σ →
  ∃ σ', for_until_quorum c p au l σ StakeAggregator_new =
          Ret (reached_quorum c (set_stake c (list_to_set (au <$> filter (λ x, q x) l))), σ') ∧ I σ'.
Proof.
  intros Hc Hp Hau Hσ.
  destruct (for_until_quorum_spec c p au I q l Hc Hp Hau σ StakeAggregator_new) as (σ' & -> & Hσ');
    [done|apply agg_ok_new|by apply reached_new_false|].
  exists σ'. split; [|done]. do 4 f_equal. cbn. set_solver.
Qed.

(** ** Rounds of a wave *)

Lemma decision_round_leader o w r :
  wave_length o = 3 → leader_round o w = r → r + 2 < U32_MOD → decision_round o w = r + 2.
Proof.
  unfold leader_round, decision_round. intros -> <- Hlt. unfold wrap32 in *.
  set (x := w * 3) in *. set (m := U32_MOD) in *. assert (Hm : 3 < m) by (unfold m, U32_MOD; lia). clearbody x m.
  generalize dependent (x mod m). clear x. intros x Hlt. revert Hlt. generalize (round_offset o). intros f Hlt.
  assert (((x + 3) mod m + m - 1) mod m = (x + 2) mod m) as ->.
  { rewrite <-N.add_sub_assoc, N.Div0.add_mod_idemp_l by lia.
    replace (x + 3 + (m - 1)) with (x + 2 + 1 * m) by lia. apply N.Div0.mod_add. }
  rewrite N.Div0.add_mod_idemp_l. replace (x + 2 + f) with (x + f + 2) by lia.
  rewrite <-N.Div0.add_mod_idemp_l. by apply N.mod_small.
Qed.

(** ** The view of the DAG that the committer reads *)

Record dag_view {St : Type} `{Store St} (d : DagState St) (V : gmap BlockRef VerifiedBlock) (L : Round) : Prop := {
  dv_commit : last_commit_round d <= L;
  dv_block r (b : VerifiedBlock) : V !! r = Some b → reference b = r ∧ L < round b ∧ block_ok (committee (ds_context d)) b;
  dv_get r : L < ref_round r → get_block d r = Ret (V !! r);
  dv_closed r (b : VerifiedBlock) a : V !! r = Some b → a ∈ ancestors b → L < ref_round a → is_Some (V !! a);
  (* an older ancestor is stored, or may have been garbage collected *)
  dv_old r (b : VerifiedBlock) a : V !! r = Some b → a ∈ ancestors b → ref_round a <= L →
    ∃ o : option VerifiedBlock, get_block d a = Ret o ∧
      match o with
      | Some b' => reference b' = a
      | None => gc_enabled d = true ∧ ref_round a <= gc_round d
      end;
  dv_slot s : L < slot_round s →
    ∃ bs : list VerifiedBlock, get_uncommitted_blocks_at_slot d s = Ret bs ∧ NoDup bs ∧
      ∀ b, b ∈ bs ↔ V !! reference b = Some b ∧ slot b = s;
  dv_round r : L < r → r < U32_MAX →
    ∃ bs : list VerifiedBlock, get_uncommitted_blocks_at_round d r = Ret bs ∧ NoDup bs ∧
      ∀ b : VerifiedBlock, b ∈ bs ↔ V !! reference b = Some b ∧ round b = r;
}.

(** The first ancestor in a slot. *)
Definition first_in_slot (s : Slot) (ancs : list BlockRef) : option BlockRef :=
  head (filter (λ a, ref_slot a = s) ancs).

Lemma first_in_slot_Some c b s r : block_ok c b →
  first_in_slot s (ancestors b) = Some r ↔ r ∈ ancestors b ∧ ref_slot r = s.
Proof.
  intros Hb. unfold first_in_slot. split.
  - intros [l Hl]%head_Some.
    assert (r ∈ filter (λ a, ref_slot a = s) (ancestors b)) as ?%list_elem_of_filter by (rewrite Hl; left). tauto.
  - intros [Hr Hs]. assert (r ∈ filter (λ a, ref_slot a = s) (ancestors b)) as Hin by (by apply list_elem_of_filter).
    destruct (filter _ _) as [|r' l] eqn:Hl; [by apply elem_of_nil in Hin|]. simpl. f_equal.
    assert (r' ∈ filter (λ a, ref_slot a = s) (ancestors b)) as [Hs' Hr']%list_elem_of_filter by (rewrite Hl; left).
    eapply ancestor_unique; [done..|]. rewrite <-Hs in Hs'. by injection Hs'.
Qed.

(** The authors of the blocks of [V] that satisfy [P]. *)
Definition authors_of (V : gmap BlockRef VerifiedBlock) (P : VerifiedBlock → bool) : gset AuthorityIndex :=
  list_to_set ((λ b : VerifiedBlock, author b) <$> filter (λ b, P b) (map_to_list V).*2).

Lemma elem_of_view_blocks (V : gmap BlockRef VerifiedBlock) b : b ∈ (map_to_list V).*2 ↔ ∃ r, V !! r = Some b.
Proof.
  rewrite list_elem_of_fmap. split.
  - intros ([r b'] & -> & Hb%elem_of_map_to_list). eauto.
  - intros [r Hr]. exists (r, b). by rewrite elem_of_map_to_list.
Qed.

Lemma elem_of_authors_of V P i :
  i ∈ authors_of V P ↔ ∃ r (b : VerifiedBlock), V !! r = Some b ∧ P b ∧ author b = i.
Proof.
  unfold authors_of. rewrite elem_of_list_to_set, list_elem_of_fmap. setoid_rewrite list_elem_of_filter.
  setoid_rewrite elem_of_view_blocks. split.
  - intros (b & -> & HP & r & Hr). eauto 10.
  - intros (r & b & Hr & HP & <-). eauto 10.
Qed.

Lemma authors_of_round (V : gmap BlockRef VerifiedBlock) (P : VerifiedBlock → bool) r bs :
  (∀ r' b, V !! r' = Some b → reference b = r') →
  (∀ b : VerifiedBlock, b ∈ bs ↔ V !! reference b = Some b ∧ round b = r) →
  list_to_set ((λ b : VerifiedBlock, author b) <$> filter (λ b, P b) bs) =
  authors_of V (λ b, (round b =? r) && P b).
Proof.
  intros Href Hbs. apply set_eq. intros i. rewrite elem_of_authors_of, elem_of_list_to_set, list_elem_of_fmap.
  setoid_rewrite list_elem_of_filter. setoid_rewrite Hbs. setoid_rewrite andb_True.
  setoid_rewrite Is_true_true. setoid_rewrite N.eqb_eq. split.
  - intros (b & -> & HP & Hb & Hr). eauto 10.
  - intros (r' & b & Hb & [Hr HP] & <-). pose proof (Href _ _ Hb) as <-. eauto 10.
Qed.

(** Distinct blocks of a map have at most the map's total. *)
Lemma sumN_blocks_round (V : gmap BlockRef VerifiedBlock) (f : VerifiedBlock → N) (Q : VerifiedBlock → bool) bs :
  NoDup bs → (∀ b, b ∈ bs → V !! reference b = Some b ∧ Q b = true) →
  sumN (f <$> bs) <= sumN ((λ b, if Q b then f b else 0) <$> (map_to_list V).*2).
Proof.
  intros Hnd Hbs. assert (bs ⊆+ (map_to_list V).*2) as Hsub.
  { apply NoDup_submseteq; [done|]. intros b [Hb _]%Hbs. apply elem_of_view_blocks. eauto. }
  transitivity (sumN ((λ b, if Q b then f b else 0) <$> bs)).
  - apply sumN_fmap_le. intros b Hb. by destruct (Hbs b Hb) as [_ ->].
  - by apply sumN_submseteq, fmap_submseteq.
Qed.

Section view.
Context {St : Type} `{Store St} (d : DagState St) (V : gmap BlockRef VerifiedBlock) (L : Round).
Context (HV : dag_view d V L).
Let c := committee (ds_context d).

Lemma dv_ref r b : V !! r = Some b → reference b = r.
Proof. by intros [? _]%(dv_block _ _ _ HV). Qed.

(** Up to the voting round, support is a direct link. *)
Lemma find_supported_direct (s : Slot) (v : VerifiedBlock) :
  round v <= slot_round s + 1 → (∀ a, a ∈ ancestors v → ref_round a < round v) →
  find_supported_block d s v = Ret (first_in_slot s (ancestors v)).
Proof.
  intros Hr Hlt. unfold find_supported_block, first_in_slot. cbn [find_supported_block_fuel].
  destruct (N.ltb_spec (round v) (slot_round s)) as [Hlow|Hhigh].
  - replace (filter (λ a, ref_slot a = s) (ancestors v)) with (@nil BlockRef); [done|]. symmetry.
    apply filter_none. intros a Ha <-. specialize (Hlt a Ha). simpl in *. lia.
  - induction (ancestors v) as [|a ancs IH]; [done|]. rewrite filter_cons.
    destruct (decide (ref_slot a = s)) as [Heq|Hne]; [by rewrite bool_decide_eq_true_2|].
    rewrite bool_decide_eq_false_2 by done.
    assert (ref_round a <= slot_round s) as ->%N.leb_le by (specialize (Hlt a ltac:(left)); lia).
    apply IH. intros; apply Hlt; by right.
Qed.

(** ** Votes *)

Lemma is_vote_direct (v l : VerifiedBlock) :
  round v <= round l + 1 → block_ok c v →
  is_vote d v l = Ret (bool_decide (votes_for v (reference l))).
Proof.
  intros Hr Hv. unfold is_vote. rewrite find_supported_direct; [|done|apply Hv]. cbn [mbind outcome_bind].
  f_equal. apply bool_decide_ext. rewrite (first_in_slot_Some c) by done. unfold votes_for.
  split; [|tauto]. intros [Hin _]. split; [|done].
  pose proof (bo_round _ _ Hv _ Hin). simpl in *. lia.
Qed.

Lemma is_vote_old (v l : VerifiedBlock) : round v < round l → is_vote d v l = Ret false.
Proof.
  intros Hr. unfold is_vote, find_supported_block. cbn [find_supported_block_fuel].
  assert ((round v <? slot_round (ref_slot (reference l))) = true) as -> by (by apply N.ltb_lt). done.
Qed.

Lemma reference_is_vote_spec r (b l : VerifiedBlock) a :
  V !! r = Some b → a ∈ ancestors b → L < round l → round b = round l + 2 →
  reference_is_vote d l a = Ret (is_voter V (reference l) a).
Proof.
  intros Hb Ha Hl Hround. unfold reference_is_vote, is_voter.
  assert (ref_round a < round b) as Hlt by (by eapply bo_round; [eapply dv_block|]).
  destruct (decide (L < ref_round a)) as [Hhi|Hlo].
  - rewrite (dv_get _ _ _ HV) by done. destruct (dv_closed _ _ _ HV _ _ _ Hb Ha Hhi) as [v Hv]. rewrite Hv. cbn [mbind outcome_bind].
    destruct (dv_block _ _ _ HV _ _ Hv) as (Href & _ & Hok). subst a. simpl in *.
    rewrite is_vote_direct; [done|lia|done].
  - destruct (dv_old _ _ _ HV _ _ _ Hb Ha ltac:(lia)) as (o & -> & Ho). cbn [mbind outcome_bind].
    assert (V !! a = None) as ->.
    { destruct (V !! a) as [v|] eqn:Hv; [|done]. destruct (dv_block _ _ _ HV _ _ Hv) as (<- & ? & _). simpl in *. lia. }
    destruct o as [v|].
    + apply is_vote_old. subst a. simpl in *. lia.
    + destruct Ho as [-> Ho%N.leb_le]. by rewrite Ho.
Qed.

(** ** Certificates *)

(** A cache that agrees with the votes for [l]. *)
Definition votes_cache (l : BlockRef) (m : gmap BlockRef bool) : Prop :=
  ∀ r v, m !! r = Some v → v = is_voter V l r.

Lemma votes_cache_empty l : votes_cache l ∅.
Proof. intros r v. by rewrite lookup_empty. Qed.

Lemma cached_vote_spec r (b l : VerifiedBlock) a m :
  V !! r = Some b → a ∈ ancestors b → L < round l → round b = round l + 2 → votes_cache (reference l) m →
  ∃ m', cached_vote d l a m = Ret (is_voter V (reference l) a, m') ∧ votes_cache (reference l) m'.
Proof.
  intros Hb Ha Hl Hround Hm. unfold cached_vote. destruct (m !! a) as [v|] eqn:Hma.
  - exists m. apply Hm in Hma as ->. done.
  - erewrite reference_is_vote_spec by done. cbn. eexists. split; [done|].
    intros r' v'. rewrite lookup_insert. case_decide; [|apply Hm]. subst r'. by intros [= <-].
Qed.

Lemma is_certificate_spec r (b l : VerifiedBlock) m : committee_ok c →
  V !! r = Some b → L < round l → round b = round l + 2 → votes_cache (reference l) m →
  ∃ m', is_certificate d b l m = Ret (bool_decide (certifies c V b (reference l)), m') ∧ votes_cache (reference l) m'.
Proof.
  intros Hc Hb Hl Hround Hm. unfold is_certificate. fold c.
  destruct (for_until_quorum_new c (cached_vote d l) ref_author (votes_cache (reference l))
    (is_voter V (reference l)) (ancestors b) m Hc) as (m' & -> & Hm'); [| |done|].
  - intros a m0 Ha Hm0. by eapply cached_vote_spec.
  - intros a Ha. eapply bo_index; [|done]. by eapply dv_block.
  - exists m'. split; [|done]. do 2 f_equal. by apply certifies_bool.
Qed.

(** ** Traversal *)

Lemma reaches_in_view x y : V !! reference x = Some x → reaches V x y → V !! reference y = Some y.
Proof.
  intros Hx. induction 1 as [|y a z Hxy IH Ha Hz]; [done|].
  destruct (dv_block _ _ _ HV _ _ Hz) as (<- & _). done.
Qed.

(** The references still to visit and those already expanded. *)
Record drain_inv (x : VerifiedBlock) (e : Round) (E linked : gset BlockRef) : Prop := {
  di_linked r : r ∈ linked → ∃ y, reaches V x y ∧ r ∈ ancestors y ∧ e < round y;
  di_expanded r : r ∈ E → ∃ b : VerifiedBlock, V !! r = Some b ∧ e < round b ∧
    ∀ a, a ∈ ancestors b → a ∈ linked ∪ E;
  di_below r r' : r ∈ linked → r' ∈ E → ref_le r r' ∧ r ≠ r';
  di_start a : a ∈ ancestors x → a ∈ linked ∪ E;
}.

Lemma drain_inv_step x e E linked r (b : VerifiedBlock) :
  V !! reference x = Some x → drain_inv x e E linked → r ∈ linked → (∀ r', r' ∈ linked → ref_le r' r) →
  e < ref_round r → V !! r = Some b →
  drain_inv x e ({[r]} ∪ E) (list_to_set (ancestors b) ∪ linked ∖ {[r]}).
Proof.
  intros Hx [Hl He Hb Hs] Hr Hmax Hround HVr. destruct (dv_block _ _ _ HV _ _ HVr) as (Href & _ & Hok).
  assert (round b = ref_round r) as Hbr by (by rewrite <-Href).
  assert (∀ a, a ∈ linked ∪ E → a ∈ list_to_set (ancestors b) ∪ linked ∖ {[r]} ∪ ({[r]} ∪ E)) as Hmono.
  { intros a Ha. destruct (decide (a = r)); set_solver. }
  split.
  - intros a [Ha%elem_of_list_to_set|[Ha _]%elem_of_difference]%elem_of_union; [|by apply Hl].
    destruct (Hl r Hr) as (y & Hy & Hin & _). exists b. split_and!; [by eapply reaches_step|done|lia].
  - intros a [->%elem_of_singleton|Ha]%elem_of_union.
    + exists b. split_and!; [done|lia|]. set_solver.
    + destruct (He a Ha) as (b' & ? & ? & Hall). exists b'. split_and!; [done..|]. auto.
  - intros a a' [Ha%elem_of_list_to_set|[Ha Hne]%elem_of_difference]%elem_of_union
      [->%elem_of_singleton|Ha']%elem_of_union.
    + pose proof (bo_round _ _ Hok a Ha). split; [left; lia|]. intros ->. lia.
    + destruct (Hb r a' Hr Ha') as [Hle _]. pose proof (bo_round _ _ Hok a Ha).
      apply ref_le_round in Hle. split; [left; lia|]. intros ->. lia.
    + split; [by apply Hmax|set_solver].
    + by apply Hb.
  - intros a Ha. apply Hmono. auto.
Qed.

Lemma drain_linked_spec x e : V !! reference x = Some x → L < e → ∀ fuel E linked,
  drain_inv x e E linked → (size (dom V ∖ E) < fuel)%nat →
  ∃ E' linked', drain_linked fuel d e linked = Ret linked' ∧ drain_inv x e E' linked' ∧
    ∀ r, r ∈ linked' → ref_round r <= e.
Proof.
  intros Hx He. induction fuel as [|fuel IH]; intros E linked Hinv Hfuel; [lia|]. cbn [drain_linked].
  destruct (btree_last linked) as [r|] eqn:Hlast.
  2:{ apply btree_last_None in Hlast as ->. exists E, ∅. split_and!; [done..|set_solver]. }
  apply btree_last_Some in Hlast as [Hr Hmax].
  destruct (N.leb_spec (ref_round r) e) as [Hle|Hgt].
  { exists E, linked. split_and!; [done..|]. intros r' Hr'. specialize (Hmax r' Hr').
    apply ref_le_round in Hmax. lia. }
  rewrite (dv_get _ _ _ HV) by lia. cbn [mbind outcome_bind].
  destruct (di_linked _ _ _ _ Hinv r Hr) as (y & Hy & Hin & _).
  destruct (dv_closed _ _ _ HV _ _ _ (reaches_in_view _ _ Hx Hy) Hin ltac:(lia)) as [b Hb]. rewrite Hb.
  apply (IH ({[r]} ∪ E)); [by apply drain_inv_step|].
  assert (r ∉ E) by (intros Hr'; by destruct (di_below _ _ _ _ Hinv r r Hr Hr')).
  assert (r ∈ dom V ∖ E) by (apply elem_of_difference; split; [by apply elem_of_dom|done]).
  replace (dom V ∖ ({[r]} ∪ E)) with ((dom V ∖ E) ∖ {[r]}) by set_solver.
  rewrite size_difference, size_singleton by set_solver.
  assert (size (dom V ∖ E) ≠ 0%nat) by (apply size_non_empty_iff; set_solver). lia.
Qed.

Lemma drain_complete x e E linked y : L < e → V !! reference x = Some x → drain_inv x e E linked →
  (∀ r, r ∈ linked → ref_round r <= e) → reaches V x y → e <= round y → y = x ∨ reference y ∈ linked ∪ E.
Proof.
  intros He Hx Hinv Hlow. induction 1 as [|y a z Hxy IH Ha Hz]; intros Hr; [by left|]. right.
  destruct (dv_block _ _ _ HV _ _ (reaches_in_view _ _ Hx Hxy)) as (_ & _ & Hoky).
  destruct (dv_block _ _ _ HV _ _ Hz) as (<- & _).
  pose proof (bo_round _ _ Hoky _ Ha) as Hlt. simpl in Hlt.
  destruct IH as [->|Hy]; [lia|by apply (di_start _ _ _ _ Hinv)|].
  assert (reference y ∈ E) as HyE.
  { apply elem_of_union in Hy as [Hy|]; [|done]. apply Hlow in Hy. simpl in Hy. lia. }
  destruct (di_expanded _ _ _ _ Hinv _ HyE) as (b & Hb & _ & Hall).
  rewrite (reaches_in_view _ _ Hx Hxy) in Hb. injection Hb as <-. auto.
Qed.

(** [ancestors_at_round] returns the blocks of the round that [x] reaches. *)
Lemma ancestors_at_round_spec fuel (x : VerifiedBlock) e :
  V !! reference x = Some x → L < e → e < round x → (size V < fuel)%nat →
  ∃ bs : list VerifiedBlock, ancestors_at_round fuel d x e = Ret bs ∧
    ∀ b, b ∈ bs ↔ reaches V x b ∧ round b = e.
Proof.
  intros Hx He Hex Hfuel. unfold ancestors_at_round.
  destruct (drain_linked_spec x e Hx He fuel ∅ (list_to_set (ancestors x))) as (E & linked & -> & Hinv & Hlow).
  { split; [|set_solver..]. intros r Hr%elem_of_list_to_set. exists x. split_and!; [apply reaches_refl|done..]. }
  { rewrite difference_empty_L, size_dom. done. }
  cbn [mbind outcome_bind]. rewrite set_range_ret by done. cbn [mbind outcome_bind].
  assert (∀ r, r ∈ linked → ref_round r = e → ∃ b, V !! r = Some b ∧ reaches V x b ∧ reference b = r) as Hres.
  { intros r Hr Hre. destruct (di_linked _ _ _ _ Hinv r Hr) as (y & Hy & Hin & _).
    destruct (dv_closed _ _ _ HV _ _ _ (reaches_in_view _ _ Hx Hy) Hin ltac:(lia)) as [b Hb].
    exists b. split_and!; [done|by eapply reaches_step|by apply (dv_block _ _ _ HV) in Hb as [? _]]. }
  set (refs := btree_range _ linked).
  assert (∀ r, r ∈ refs ↔ r ∈ linked ∧ ref_round r = e) as Hrefs.
  { intros r. unfold refs. rewrite elem_of_btree_range, andb_True. cbn [above below].
    rewrite bool_decide_spec. unfold key_le, BlockRef_ord_key, ref_le, round_start. simpl.
    unfold AuthorityIndex_ZERO, DIGEST_MIN. split; [|intros [? <-]; split; [split; [lia|done]|done]].
    intros [[Hle _] Hr]. split; [done|]. apply Hlow in Hr. lia. }
  exists (omap (λ r, V !! r) refs). split.
  - apply mapM_ret_Forall2. clearbody refs. assert (∀ r, r ∈ refs → is_Some (V !! r) ∧ L < ref_round r) as Hin.
    { intros r [Hr <-]%Hrefs. split; [|done]. destruct (Hres r Hr eq_refl) as (b & -> & _). done. }
    clear Hrefs. induction refs as [|r refs IH]; [constructor|]. destruct (Hin r ltac:(left)) as [[b Hb] HLr].
    cbn. rewrite Hb. constructor; [by rewrite (dv_get _ _ _ HV), Hb by done|]. apply IH. set_solver.
  - intros b. rewrite list_elem_of_omap. split.
    + intros (r & [Hr Hre]%Hrefs & Hb). destruct (Hres r Hr Hre) as (b' & Hb' & Hrb & <-). simplify_eq. done.
    + intros [Hb Hbr]. pose proof (reaches_in_view _ _ Hx Hb) as HVb. exists (reference b). split; [|done].
      apply Hrefs. split; [|done].
      destruct (drain_complete x e E linked b He Hx Hinv Hlow Hb ltac:(lia)) as [->|[Hin|Hin]%elem_of_union]; [lia|done|].
      destruct (di_expanded _ _ _ _ Hinv _ Hin) as (b' & Hb' & Hlt & _). rewrite HVb in Hb'. injection Hb' as <-. lia.
Qed.

(** ** The direct rule *)

Lemma enough_leader_blame_spec r a : committee_ok c → L < r → r < U32_MAX →
  enough_leader_blame d r a =
  Ret (reached_quorum c (set_stake c (authors_of V (λ b, (round b =? r) && is_blame a b)))).
Proof.
  intros Hc Hr Hmax. unfold enough_leader_blame. fold c.
  destruct (dv_round _ _ _ HV r Hr Hmax) as (bs & -> & _ & Hbs). cbn [mbind outcome_bind].
  destruct (for_until_quorum_new c (λ b (_ : unit), Ret (is_blame a b, tt)) (λ b : VerifiedBlock, author b)
    (λ _, True) (is_blame a) bs tt Hc) as (? & -> & _); [by eauto| |done|].
  { intros b [Hb _]%Hbs. by eapply bo_author, dv_block. }
  cbn [mbind outcome_bind]. do 3 f_equal. apply authors_of_round; [apply dv_ref|done].
Qed.

Lemma total_stake_fold (bs : list VerifiedBlock) : (∀ b : VerifiedBlock, b ∈ bs → is_valid_index c (author b)) → ∀ t,
  t < U64_MOD →
  foldM (λ t (b : VerifiedBlock), s ← committee_stake c (author b); Ret (t +64 s)) t bs =
  Ret (wrap64 (t + sumN ((λ b : VerifiedBlock, stake_at c (author b)) <$> bs))).
Proof.
  induction bs as [|b bs IH]; intros Hbs t Ht; cbn [foldM].
  - cbn. by rewrite N.add_0_r, wrap64_small.
  - rewrite committee_stake_ret by (apply Hbs; left). cbn [mbind outcome_bind].
    rewrite IH; [|set_solver|by apply N.mod_lt]. f_equal. unfold wrap64.
    rewrite N.Div0.add_mod_idemp_l, <-N.add_assoc. done.
Qed.

(** The blocks of the round [r] that certify [l]. *)
Definition certifiers (r : Round) (l : BlockRef) : gset AuthorityIndex :=
  authors_of V (λ b, (round b =? r) && bool_decide (certifies c V b l)).

Lemma enough_leader_support_spec (l : VerifiedBlock) : committee_ok c → L < round l → round l + 2 < U32_MAX →
  ∃ sup, enough_leader_support d (round l + 2) l = Ret sup ∧
    (sup = true → reached_quorum c (set_stake c (certifiers (round l + 2) (reference l)))) ∧
    (sumN ((λ b : VerifiedBlock, if round b =? round l + 2 then stake_at c (author b) else 0)
       <$> (map_to_list V).*2) < U64_MOD →
     reached_quorum c (set_stake c (certifiers (round l + 2) (reference l))) → sup = true).
Proof.
  intros Hc Hl Hmax. unfold enough_leader_support. fold c.
  destruct (dv_round _ _ _ HV (round l + 2) ltac:(lia) Hmax) as (bs & -> & Hnd & Hbs). cbn [mbind outcome_bind].
  assert (∀ b : VerifiedBlock, b ∈ bs → is_valid_index c (author b)) as Hval.
  { intros b [Hb _]%Hbs. by eapply bo_author, dv_block. }
  rewrite total_stake_fold by (done || unfold U64_MOD; lia). cbn [mbind outcome_bind]. rewrite N.add_0_l.
  destruct (for_until_quorum_new c (λ b, is_certificate d b l) (λ b : VerifiedBlock, author b)
    (votes_cache (reference l)) (λ b : VerifiedBlock, bool_decide (certifies c V b (reference l))) bs ∅ Hc)
    as (m' & Hloop & _); [| done | apply votes_cache_empty |].
  { intros b m [Hb Hbr]%Hbs Hm. by eapply is_certificate_spec. }
  assert (list_to_set ((λ b : VerifiedBlock, author b) <$> filter (λ b : VerifiedBlock,
    bool_decide (certifies c V b (reference l))) bs) = certifiers (round l + 2) (reference l)) as Heq
    by (apply authors_of_round; [apply dv_ref|done]).
  rewrite Heq in Hloop. destruct (reached_quorum c (wrap64 _)) eqn:Hq; cbn [negb].
  - rewrite Hloop. cbn. eexists. split; [done|]. split; [by intros ->|]. intros _. by apply Is_true_true_1.
  - exists false. split_and!; [done..|]. intros Hsum Hcert. exfalso.
    assert (sumN ((λ b : VerifiedBlock, stake_at c (author b)) <$> bs) < U64_MOD ∧
      set_stake c (certifiers (round l + 2) (reference l)) <=
      sumN ((λ b : VerifiedBlock, stake_at c (author b)) <$> bs)) as [Hsmall Hle].
    { split.
      - eapply N.le_lt_trans; [|exact Hsum]. apply sumN_blocks_round; [done|]. intros b Hb. apply Hbs in Hb as [Hb Hbr].
        split; [done|]. by apply N.eqb_eq.
      - rewrite <-Heq. etrans; [apply set_stake_list_le|]. rewrite <-list_fmap_compose. apply sumN_sublist.
        apply fmap_sublist, sublist_filter. }
    rewrite wrap64_small in Hq by done. unfold reached_quorum in *. apply N.leb_gt in Hq.
    apply Is_true_true, N.leb_le in Hcert. lia.
Qed.

(** ** The view inside the universe *)

Context (byz : gset AuthorityIndex) (U : gmap BlockRef VerifiedBlock) (HU : universe_ok c byz U) (HVU : V ⊆ U).

Lemma view_universe r b : V !! r = Some b → U !! r = Some b.
Proof. intros. by eapply lookup_weaken. Qed.

Lemma is_voter_view r (b : VerifiedBlock) l a :
  V !! r = Some b → a ∈ ancestors b → L < ref_round l → is_voter V l a = is_voter U l a.
Proof.
  intros Hb Ha Hl. unfold is_voter. destruct (decide (L < ref_round a)) as [Hhi|Hlo].
  - destruct (dv_closed _ _ _ HV _ _ _ Hb Ha Hhi) as [v Hv]. by rewrite Hv, (view_universe _ _ Hv).
  - assert (V !! a = None) as ->.
    { destruct (V !! a) as [v|] eqn:Hv; [|done]. destruct (dv_block _ _ _ HV _ _ Hv) as (<- & ? & _). simpl in *. lia. }
    destruct (U !! a) as [v|] eqn:Hv; [|done]. symmetry. apply bool_decide_eq_false_2. intros [Hr _].
    apply (un_reference _ _ _ HU) in Hv as <-. simpl in *. lia.
Qed.

Lemma certifies_view r (b : VerifiedBlock) l : V !! r = Some b → L < ref_round l →
  certifies c V b l ↔ certifies c U b l.
Proof.
  intros Hb Hl. unfold certifies. replace (cert_voters V b l) with (cert_voters U b l); [done|].
  unfold cert_voters. do 2 f_equal. apply filter_ext_elem. intros a Ha. by rewrite (is_voter_view r b l a).
Qed.

Lemma quorum_of_view r (P : VerifiedBlock → bool) (P' : VerifiedBlock → Prop) : L < r →
  reached_quorum c (set_stake c (authors_of V (λ b, (round b =? r) && P b))) →
  (∀ b, V !! reference b = Some b → P b → P' b) → quorum_of c U r P'.
Proof.
  intros Hr Hq HP. eexists. split_and!; [|exact Hq|].
  - intros i (r' & b & Hb & _ & <-)%elem_of_authors_of. apply elem_of_all_indices.
    by eapply bo_author, dv_block.
  - intros i (r' & b & Hb & [Hbr HPb]%andb_True & <-)%elem_of_authors_of. apply Is_true_true, N.eqb_eq in Hbr.
    pose proof (dv_ref _ _ Hb) as <-. exists b. split_and!; auto using view_universe.
Qed.

Lemma is_blame_spec a b : is_blame a b ↔ ∀ x, x ∈ ancestors b → ref_author x ≠ a.
Proof.
  unfold is_blame. rewrite Is_true_true, forallb_forall. setoid_rewrite negb_true_iff. setoid_rewrite N.eqb_neq.
  by setoid_rewrite list_elem_of_In.
Qed.

Lemma support_quorum (l : VerifiedBlock) : L < round l →
  reached_quorum c (set_stake c (certifiers (round l + 2) (reference l))) →
  quorum_of c U (round l + 2) (λ C, certifies c U C (reference l)).
Proof.
  intros Hl Hq. eapply quorum_of_view; [lia|exact Hq|]. intros b Hb Hcert%bool_decide_unpack.
  by apply (certifies_view (reference b)).
Qed.

Lemma try_direct_decide_spec o s :
  wave_length o = 3 → leader_round o (wave_number o (slot_round s)) = slot_round s →
  L < slot_round s → slot_round s + 2 < U32_MAX →
  ∃ st, try_direct_decide d o s = Ret st ∧ status_slot st = s ∧ status_in_view V st ∧ direct_reason c U s st.
Proof.
  intros Hwl Hlead HL Hmax. pose proof (un_committee _ _ _ HU) as Hc. unfold try_direct_decide.
  rewrite (wrap32_small (slot_round s + 1)) by (unfold U32_MOD, U32_MAX in *; lia).
  rewrite enough_leader_blame_spec by (done || lia). cbn [mbind outcome_bind].
  destruct (reached_quorum c _) eqn:Hblame.
  { eexists. split_and!; [done..|]. simpl. eapply quorum_of_view; [lia|by rewrite Hblame|].
    intros b _. apply is_blame_spec. }
  rewrite (decision_round_leader o _ (slot_round s)) by (done || unfold U32_MOD, U32_MAX in *; lia).
  destruct (dv_slot _ _ _ HV s HL) as (bs & -> & Hnd & Hbs). cbn [mbind outcome_bind].
  assert (∀ b : VerifiedBlock, b ∈ bs → V !! reference b = Some b ∧ slot b = s ∧ round b = slot_round s) as Hin.
  { intros b [Hb <-]%Hbs. done. }
  destruct (filterM_total (enough_leader_support d (slot_round s + 2)) bs) as (sup & -> & Hsub & Hsup).
  { intros b Hb. destruct (Hin b Hb) as (_ & _ & <-).
    destruct (enough_leader_support_spec b) as (x & -> & _); [done|by destruct (Hin b Hb) as (_ & _ & ->)..|eauto]. }
  assert (∀ b : VerifiedBlock, b ∈ sup → V !! reference b = Some b ∧ slot b = s ∧
    quorum_of c U (slot_round s + 2) (λ C, certifies c U C (reference b))) as Hcert.
  { intros b [Hb Hs]%Hsup. destruct (Hin b Hb) as (HVb & Hslot & Hr). split_and!; [done..|]. rewrite <-Hr in *.
    destruct (enough_leader_support_spec b) as (x & Heq & Hx & _); [done..|]. apply support_quorum; [done|].
    apply Hx. congruence. }
  cbn [mbind outcome_bind]. destruct sup as [|b [|b' sup]]; [eexists; by split_and!|..].
  { destruct (Hcert b ltac:(left)) as (? & ? & ?). eexists; by split_and!. }
  exfalso. destruct (Hcert b ltac:(left)) as (HVb & Hsl & Hq), (Hcert b' ltac:(right; left)) as (HVb' & Hsl' & Hq').
  destruct (quorums_share_block c byz U HU (slot_round s + 2) _ _ ltac:(lia) Hq Hq') as (C & HC & _ & HC1 & HC2).
  assert (reference b = reference b') as Heq by (eapply (certified_unique c byz U HU); [exact HC|exact HC|done..|];
    change (slot b = slot b'); congruence).
  rewrite Heq in HVb. rewrite HVb in HVb'. injection HVb' as ->.
  assert (NoDup (b' :: b' :: sup)) as Hdup by (by eapply sublist_NoDup). apply NoDup_cons in Hdup as [Hdup _]. set_solver.
Qed.

(** ** The indirect rule *)

(** Above the view's round, the links of the universe are links of the view. *)
Lemma reaches_view x y : V !! reference x = Some x → reaches U x y → L < round y → reaches V x y.
Proof.
  intros Hx. induction 1 as [|y a z Hxy IH Ha Hz]; intros Hr; [apply reaches_refl|].
  pose proof (reaches_universe c byz U HU _ _ (view_universe _ _ Hx) Hxy) as Hy.
  pose proof (ancestor_lower c byz U HU _ _ _ Hy Ha) as Hlt. pose proof (un_reference _ _ _ HU _ _ Hz) as <-.
  simpl in Hlt. assert (reaches V x y) as Hxy' by (apply IH; lia).
  destruct (dv_closed _ _ _ HV _ _ _ (reaches_in_view _ _ Hx Hxy') Ha ltac:(done)) as [z' Hz'].
  pose proof (view_universe _ _ Hz') as Heq. rewrite Hz in Heq. injection Heq as <-. by eapply reaches_step.
Qed.

Lemma view_reaches x y : reaches V x y → reaches U x y.
Proof.
  induction 1; [apply reaches_refl|]. eapply reaches_step; [done..|]. by apply view_universe.
Qed.

Lemma view_closed_above r x : L <= r → V !! reference x = Some x → closed_above U r x.
Proof.
  intros Hr Hx y a Hy Ha Hra.
  pose proof (reaches_universe c byz U HU _ _ (view_universe _ _ Hx) Hy) as HUy.
  pose proof (ancestor_lower c byz U HU _ _ _ HUy Ha) as Hlt.
  assert (reaches V x y) as Hy' by (apply reaches_view; [done..|lia]).
  destruct (dv_closed _ _ _ HV _ _ _ (reaches_in_view _ _ Hx Hy') Ha ltac:(lia)) as [b Hb].
  exists b. by apply view_universe.
Qed.

(** A certified leader block is in the view. *)
Lemma certified_in_view r (C : VerifiedBlock) l : V !! r = Some C → L < ref_round l → certifies c U C l →
  ∃ b, V !! l = Some b ∧ reference b = l.
Proof.
  intros HC Hl Hcert. pose proof Hcert as [Hr Hq].
  destruct (quorum_nonempty c byz U HU (cert_voters U C l)) as [i Hi]; [|done|].
  { eapply cert_voters_valid; [done|by apply view_universe|lia]. }
  apply elem_of_cert_voters in Hi as (a & v & Ha & Hv & [Hvr Hlv] & _).
  pose proof (un_reference _ _ _ HU _ _ Hv) as <-.
  destruct (dv_closed _ _ _ HV _ _ _ HC Ha) as [v' Hv']; [simpl; lia|].
  pose proof (view_universe _ _ Hv') as Heq. rewrite Hv in Heq. injection Heq as <-.
  destruct (dv_closed _ _ _ HV _ _ _ Hv' Hlv Hl) as [b Hb]. exists b. split; [done|]. by apply dv_ref.
Qed.

Lemma any_certificate_spec (l : VerifiedBlock) certs : L < round l →
  (∀ C : VerifiedBlock, C ∈ certs → V !! reference C = Some C ∧ round C = round l + 2) → ∀ m,
  votes_cache (reference l) m →
  any_certificate d l certs m = Ret (existsb (λ C : VerifiedBlock, bool_decide (certifies c V C (reference l))) certs).
Proof.
  intros Hl. induction certs as [|C certs IH]; intros Hcs m Hm; [done|]. cbn [any_certificate existsb].
  destruct (Hcs C ltac:(left)) as [HC HCr].
  destruct (is_certificate_spec (reference C) C l m) as (m' & -> & Hm'); [apply HU|done..|]. cbn [mbind outcome_bind].
  destruct (bool_decide _); [done|]. apply IH; [set_solver|done].
Qed.

Lemma decide_leader_from_anchor_spec fuel o s (X : VerifiedBlock) :
  wave_length o = 3 → leader_round o (wave_number o (slot_round s)) = slot_round s →
  L < slot_round s → slot_round s + 3 <= round X → slot_round s + 2 < U32_MAX → (size V < fuel)%nat →
  V !! reference X = Some X →
  ∃ st, decide_leader_from_anchor d fuel o X s = Ret st ∧ status_slot st = s ∧ status_in_view V st ∧ anchor_reason c U X s st.
Proof.
  intros Hwl Hlead HL HX Hmax Hfuel HVX. unfold decide_leader_from_anchor.
  destruct (dv_slot _ _ _ HV s HL) as (bs & -> & Hnd & Hbs). cbn [mbind outcome_bind].
  rewrite (decision_round_leader o _ (slot_round s)) by (done || unfold U32_MOD, U32_MAX in *; lia).
  destruct (ancestors_at_round_spec fuel X (slot_round s + 2)) as (certs & -> & Hcerts); [done|lia..|done|].
  cbn [mbind outcome_bind].
  assert (∀ b : VerifiedBlock, b ∈ bs → any_certificate d b certs ∅ =
    Ret (existsb (λ C : VerifiedBlock, bool_decide (certifies c V C (reference b))) certs)) as Hany.
  { intros b [Hb Hs]%Hbs. assert (round b = slot_round s) as Hbr by (by rewrite <-Hs).
    apply any_certificate_spec; [lia| |apply votes_cache_empty].
    intros C [HC HCr]%Hcerts. split; [by apply (reaches_in_view X)|lia]. }
  rewrite (filterM_ret _ _ _ Hany). cbn [mbind outcome_bind].
  set (P := λ b : VerifiedBlock, existsb (λ C : VerifiedBlock, bool_decide (certifies c V C (reference b))) certs).
  assert (∀ b : VerifiedBlock, b ∈ filter (λ b, P b) bs ↔ V !! reference b = Some b ∧ slot b = s ∧
    ∃ C, reaches U X C ∧ certifies c U C (reference b)) as Hcertified.
  { intros b. rewrite list_elem_of_filter, Hbs. unfold P. rewrite Is_true_true, existsb_exists.
    setoid_rewrite bool_decide_eq_true. setoid_rewrite <-list_elem_of_In. setoid_rewrite Hcerts. split.
    - intros [(C & [HC HCr] & Hcert) [Hb Hs]]. split_and!; [done..|]. exists C. split; [by apply view_reaches|].
      apply (certifies_view (reference C)); [by apply (reaches_in_view X)| |done]. simpl. rewrite <-Hs in HL. done.
    - intros (Hb & Hs & C & HC & Hcert). split; [|done]. assert (L < round b) by (by rewrite <-Hs in HL).
      assert (round C = slot_round s + 2) as HCr by (destruct Hcert as [-> _]; by rewrite <-Hs).
      assert (reaches V X C) as HC' by (apply reaches_view; [done..|lia]). exists C. split; [done|].
      apply (certifies_view (reference C)); [by apply (reaches_in_view X)|done..]. }
  destruct (filter _ bs) as [|b [|b' bs']] eqn:Hf.
  - eexists. split_and!; [done..|]. intros C l HC Hcert Hls.
    assert (L < ref_round l) as Hl by (by rewrite <-Hls in HL).
    assert (reaches V X C) as HC' by (apply reaches_view; [done..|destruct Hcert; lia]).
    destruct (certified_in_view _ _ _ (reaches_in_view _ _ HVX HC') Hl Hcert) as (b & Hb & <-).
    apply (elem_of_nil (A:=VerifiedBlock) b), Hcertified. split_and!; [done..|eauto].
  - destruct (proj1 (Hcertified b) ltac:(left)) as (? & ? & ?). eexists. by split_and!.
  - exfalso. destruct (proj1 (Hcertified b) ltac:(left)) as (HVb & Hs & C & HC & Hcert).
    destruct (proj1 (Hcertified b') ltac:(right; left)) as (HVb' & Hs' & C' & HC' & Hcert').
    assert (reference b = reference b') as Heq.
    { eapply (certified_unique c byz U HU); [| |exact Hcert|exact Hcert'|change (slot b = slot b'); congruence];
        eapply (reaches_universe c byz U HU); try done; by apply view_universe. }
    rewrite Heq in HVb. rewrite HVb in HVb'. injection HVb' as ->.
    assert (NoDup (b' :: b' :: bs')) as Hdup by (rewrite <-Hf; by apply NoDup_filter).
    apply NoDup_cons in Hdup as [Hdup _]. set_solver.
Qed.
End view.
