(* ===== verification/Safety.v ===== *)
(** * Safety: nodes commit the same sequence of leaders

    Two nodes that start from the same decided leader and the same leader
    schedule never decide differently, whatever subset of the blocks each of
    them has accepted: one's sequence of decided leaders is a prefix of the
    other's.  The theorem is about [UniversalCommitter::try_decide] run on the
    two nodes' [DagState]s, which are seen through the interface [dag_view]. *)
From S2P Require Import Prelude Committee Block StakeAggregator Commit Error BlockVerifier Store DagState.
From S2P Require Import LeaderSchedule BaseCommitter UniversalCommitter CommitRule CommitterSpec.
Local Open Scope N_scope.
Local Open Scope rust_scope.

(** ** Reasons cannot conflict *)

Section reasons.
Context (c : Committee) (byz : gset AuthorityIndex) (U : gmap BlockRef VerifiedBlock) (HU : universe_ok c byz U).

Lemma closed_above_mono r r' x : r <= r' → closed_above U r x → closed_above U r' x.
Proof. intros Hr Hx y a Hy Ha Hlt. eapply Hx; [done..|lia]. Qed.

(** A committed block is known and causally complete above round [L]. *)
Definition status_ok (L : Round) (st : LeaderStatus) : Prop :=
  match st with LsCommit b => U !! reference b = Some b ∧ closed_above U L b | _ => True end.

Lemma blocks_eq (b b' : VerifiedBlock) :
  U !! reference b = Some b → U !! reference b' = Some b' → reference b = reference b' → b = b'.
Proof. intros Hb Hb' Heq. rewrite Heq in Hb. congruence. Qed.

Lemma commit_unique LA LB (b b' : VerifiedBlock) C C' :
  status_ok LA (LsCommit b) → status_ok LB (LsCommit b') → slot b = slot b' →
  U !! reference C = Some C → U !! reference C' = Some C' →
  certifies c U C (reference b) → certifies c U C' (reference b') → b = b'.
Proof.
  intros [Hb _] [Hb' _] Hs HC HC' Hcert Hcert'. apply blocks_eq; [done..|].
  eapply (certified_unique c byz U HU); [exact HC|exact HC'|done..].
Qed.

Lemma quorum_of_inhabited r P : 0 < r → quorum_of c U r P → ∃ b, U !! reference b = Some b ∧ round b = r ∧ P b.
Proof.
  intros Hr HP. destruct (quorums_share_block c byz U HU r P P Hr HP HP) as (b & ? & ? & ? & _). eauto.
Qed.

(** A direct skip and a certificate exclude each other. *)
Lemma skip_excludes_commit s C l :
  quorum_of c U (slot_round s + 1) (λ v, ∀ a, a ∈ ancestors v → ref_author a ≠ slot_authority s) →
  U !! reference C = Some C → certifies c U C l → ref_slot l = s → False.
Proof. intros Hq HC Hcert <-. exact (blame_excludes_certificate c byz U HU _ C l Hq HC Hcert). Qed.

Lemma direct_agree LA LB s a b :
  status_slot a = s → status_slot b = s → status_ok LA a → status_ok LB b →
  direct_reason c U s a → direct_reason c U s b → is_decided a → is_decided b → a = b.
Proof.
  intros Hsa Hsb Ha Hb Hra Hrb Hda Hdb.
  destruct a as [x|sx|sx], b as [y|sy|sy]; try done; cbn [direct_reason status_slot] in *; [| | |congruence].
  - destruct (quorums_share_block c byz U HU (slot_round s + 2) _ _ ltac:(lia) Hra Hrb) as (C & HC & _ & H1 & H2).
    f_equal. by eapply commit_unique; [exact Ha|exact Hb|congruence|..].
  - exfalso. destruct (quorum_of_inhabited (slot_round s + 2) _ ltac:(lia) Hra) as (C & HC & _ & Hcert).
    by eapply skip_excludes_commit.
  - exfalso. destruct (quorum_of_inhabited (slot_round s + 2) _ ltac:(lia) Hrb) as (C & HC & _ & Hcert).
    by eapply skip_excludes_commit.
Qed.

(** A direct decision binds every later anchor. *)
Lemma direct_anchor_agree LA LB s a b X :
  status_slot a = s → status_slot b = s → status_ok LA a → status_ok LB b →
  status_ok LB (LsCommit X) → LB < slot_round s → slot_round s + 3 <= round X →
  direct_reason c U s a → anchor_reason c U X s b → is_decided a → a = b.
Proof.
  intros Hsa Hsb Ha Hb [HX Hcl] HL HrX Hra Hrb Hda.
  destruct b as [y|sy|sy]; simpl in Hrb; [|clear Hb|done].
  - destruct Hrb as (C & HC & Hcert). pose proof (reaches_universe c byz U HU _ _ HX HC) as HUC.
    destruct a as [x|sx|sx]; simpl in Hra; [|exfalso; by eapply skip_excludes_commit|done].
    destruct (quorum_of_inhabited (slot_round s + 2) _ ltac:(lia) Hra) as (C' & HC' & _ & Hcert'). f_equal.
    eapply commit_unique; [exact Ha|exact Hb|simpl in *; congruence|exact HC'|exact HUC|done..].
  - destruct a as [x|sx|sx]; [exfalso|simpl in *; by subst|done].
    destruct (quorum_is_reached c byz U HU (slot_round s + 2) _ X ltac:(lia) Hra HX) as (C & HC & _ & _ & Hcert);
      [by eapply closed_above_mono; [|exact Hcl]; lia|lia|].
    by eapply Hrb.
Qed.

(** The same anchor decides the same. *)
Lemma anchor_agree LA LB s a b X :
  status_slot a = s → status_slot b = s → status_ok LA a → status_ok LB b → U !! reference X = Some X →
  anchor_reason c U X s a → anchor_reason c U X s b → a = b.
Proof.
  intros Hsa Hsb Ha Hb HX Hra Hrb. destruct a as [x|sx|sx], b as [y|sy|sy]; simpl in *; try done; subst; try done.
  - destruct Hra as (C & HC & Hcert), Hrb as (C' & HC' & Hcert'). f_equal.
    eapply commit_unique; [done..| | |exact Hcert|exact Hcert']; by eapply (reaches_universe c byz U HU).
  - exfalso. destruct Hra as (C & HC & Hcert). by eapply Hrb.
  - exfalso. destruct Hrb as (C & HC & Hcert). by eapply Hra.
Qed.

(** ** Sequences of statuses *)

(** [X] is the first committed leader at least three rounds after [s] in [sts],
    with only skipped ones between. *)
Definition first_anchor (s : Slot) (sts : list LeaderStatus) (X : VerifiedBlock) : Prop :=
  ∃ j, sts !! j = Some (LsCommit X) ∧ slot_round s + 3 <= round X ∧
    ∀ k st, (k < j)%nat → sts !! k = Some st → slot_round s + 3 <= slot_round (status_slot st) →
      ∃ s', st = LsSkip s'.

Definition reason (s : Slot) (later : list LeaderStatus) (st : LeaderStatus) : Prop :=
  direct_reason c U s st ∨ ∃ X, first_anchor s later X ∧ anchor_reason c U X s st.

(** The statuses of the slots [ss], each with a reason. *)
Inductive decided_list (L : Round) : list Slot → list LeaderStatus → Prop :=
| decided_nil : decided_list L [] []
| decided_cons s ss st sts :
    decided_list L ss sts → L < slot_round s → status_slot st = s → status_ok L st → reason s sts st →
    decided_list L (s :: ss) (st :: sts).

Lemma decided_list_lookup L ss sts i st : decided_list L ss sts → sts !! i = Some st →
  ∃ s, ss !! i = Some s ∧ L < slot_round s ∧ status_slot st = s ∧ status_ok L st ∧ reason s (drop (S i) sts) st.
Proof.
  intros Hd. revert i. induction Hd as [|s ss st' sts Hd IH HL Hs Hok Hr]; intros i Hi; [done|].
  destruct i as [|i]; simpl in *; [|by apply IH]. simplify_eq. exists (status_slot st). by rewrite drop_0.
Qed.

Lemma first_anchor_lookup s sts i X : first_anchor s (drop (S i) sts) X →
  ∃ j, (i < j)%nat ∧ sts !! j = Some (LsCommit X) ∧ slot_round s + 3 <= round X ∧
    ∀ k st, (i < k < j)%nat → sts !! k = Some st → slot_round s + 3 <= slot_round (status_slot st) →
      ∃ s', st = LsSkip s'.
Proof.
  intros (j & Hj & HX & Hskip). rewrite lookup_drop in Hj. exists (S i + j)%nat. split_and!; [lia|done..|].
  intros k st Hk Hst. apply (Hskip (k - S i)%nat); [lia|]. rewrite lookup_drop. replace (S i + (k - S i))%nat with k by lia. done.
Qed.

(** Slots of two sequences agree where both have one. *)
Definition slots_agree (ssA ssB : list Slot) : Prop :=
  ∀ i s s', ssA !! i = Some s → ssB !! i = Some s' → s = s'.

Section two.
Context (LA LB : Round) (ssA ssB : list Slot) (stsA stsB : list LeaderStatus).
Context (HA : decided_list LA ssA stsA) (HB : decided_list LB ssB stsB) (Hss : slots_agree ssA ssB).

(** If the statuses after position [i] agree, the anchors are the same. *)
Lemma anchors_agree s i X Y :
  (∀ j a b, (i < j)%nat → stsA !! j = Some a → stsB !! j = Some b → is_decided a → is_decided b → a = b) →
  first_anchor s (drop (S i) stsA) X → first_anchor s (drop (S i) stsB) Y → X = Y.
Proof.
  intros IH (j & Hij & Hj & HX & HskX)%first_anchor_lookup (k & Hik & Hk & HY & HskY)%first_anchor_lookup.
  destruct (decided_list_lookup _ _ _ _ _ HA Hj) as (sj & Hsj & _ & Hslj & _).
  destruct (decided_list_lookup _ _ _ _ _ HB Hk) as (sk & Hsk & _ & Hslk & _).
  destruct (lt_eq_lt_dec j k) as [[Hlt|<-]|Hlt].
  - destruct (lookup_lt_is_Some_2 stsB j) as [b Hb]; [apply lookup_lt_Some in Hk; lia|].
    destruct (decided_list_lookup _ _ _ _ _ HB Hb) as (sb & Hsb & _ & Hslb & _).
    assert (sj = sb) as <- by (by eapply Hss).
    destruct (HskY j b ltac:(lia) Hb) as [s' ->]; [rewrite Hslb, <-Hslj; done|].
    by specialize (IH j _ _ Hij Hj Hb I I).
  - specialize (IH j _ _ Hij Hj Hk I I). congruence.
  - destruct (lookup_lt_is_Some_2 stsA k) as [a Ha]; [apply lookup_lt_Some in Hj; lia|].
    destruct (decided_list_lookup _ _ _ _ _ HA Ha) as (sa & Hsa & _ & Hsla & _).
    assert (sa = sk) as -> by (by eapply Hss).
    destruct (HskX k a ltac:(lia) Ha) as [s' ->]; [rewrite Hsla, <-Hslk; done|].
    by specialize (IH k _ _ Hik Ha Hk I I).
Qed.

Lemma anchor_ok L ss sts s i X : decided_list L ss sts → first_anchor s (drop i sts) X →
  status_ok L (LsCommit X) ∧ slot_round s + 3 <= round X.
Proof.
  intros Hd (j & Hj & HX & _). split; [|done]. rewrite lookup_drop in Hj.
  by destruct (decided_list_lookup _ _ _ _ _ Hd Hj) as (? & _ & _ & _ & ? & _).
Qed.

(** Two decided statuses of the same slot are equal. *)
Lemma statuses_agree n : ∀ i a b, (length stsA - i <= n)%nat →
  stsA !! i = Some a → stsB !! i = Some b → is_decided a → is_decided b → a = b.
Proof.
  induction n as [|n IH]; intros i a b Hn Ha Hb Hda Hdb; [apply lookup_lt_Some in Ha; lia|].
  destruct (decided_list_lookup _ _ _ _ _ HA Ha) as (s & Hs & HLA & Hsa & Hoka & Hra).
  destruct (decided_list_lookup _ _ _ _ _ HB Hb) as (s' & Hs' & HLB & Hsb & Hokb & Hrb).
  assert (s = s') as <- by (by eapply Hss).
  destruct Hra as [Hra|(X & HX & Hra)], Hrb as [Hrb|(Y & HY & Hrb)].
  - by eapply direct_agree.
  - destruct (anchor_ok _ _ _ _ _ _ HB HY). by eapply (direct_anchor_agree LA LB s a b Y).
  - destruct (anchor_ok _ _ _ _ _ _ HA HX). symmetry. by eapply (direct_anchor_agree LB LA s b a X).
  - destruct (anchor_ok _ _ _ _ _ _ HA HX) as [[HUX _] _].
    assert (X = Y) as <-.
    { eapply anchors_agree; [|done..]. intros j ? ? Hij. apply IH. apply lookup_lt_Some in Ha. lia. }
    by eapply anchor_agree.
Qed.
End two.
End reasons.

(** ** One node's run of [try_decide] *)

(** The committers and the schedule elect the same leaders on all nodes: [el]
    is that election. *)
Record election `{Rng} (c : Committee) (committers : list BaseCommitterOptions) (sched : LeaderSchedule)
    (el : BaseCommitterOptions → Round → option Slot) : Prop := {
  el_wave o : o ∈ committers → wave_length o = 3;
  el_ret o r : o ∈ committers → committer_elect_leader o sched r = Ret (el o r);
  el_valid o r s : o ∈ committers → el o r = Some s → is_valid_index c (slot_authority s);
}.

Lemma elected_slot `{Rng} c committers sched el o r s : election c committers sched el →
  o ∈ committers → el o r = Some s → slot_round s = r ∧ leader_round o (wave_number o r) = r.
Proof.
  intros Hel Ho Hs. pose proof (el_ret _ _ _ _ Hel o r Ho) as Hret. rewrite Hs in Hret.
  unfold committer_elect_leader in Hret. destruct (N.eqb_spec (leader_round o (wave_number o r)) r) as [Heq|];
    simpl in Hret; [|done]. inv_ret. done.
Qed.

(** The slots of the rounds [lo], ..., [lo + n - 1], in order. *)
Fixpoint slots_from (committers : list BaseCommitterOptions) (el : BaseCommitterOptions → Round → option Slot)
    (lo : Round) (n : nat) : list Slot :=
  match n with
  | O => []
  | S n => omap (λ o, el o lo) committers ++ slots_from committers el (lo + 1) n
  end.

Lemma slots_from_snoc committers el n : ∀ lo,
  slots_from committers el lo (S n) = slots_from committers el lo n ++ omap (λ o, el o (lo + N.of_nat n)) committers.
Proof.
  induction n as [|n IH]; intros lo.
  - cbn [slots_from app]. by rewrite app_nil_r, N.add_0_r.
  - change (slots_from committers el lo (S (S n))) with
      (omap (λ o, el o lo) committers ++ slots_from committers el (lo + 1) (S n)).
    rewrite IH, app_assoc. by replace (lo + 1 + N.of_nat n) with (lo + N.of_nat (S n)) by lia.
Qed.

Lemma elem_of_slots_from committers el n s : ∀ lo, s ∈ slots_from committers el lo n →
  ∃ o r, o ∈ committers ∧ el o r = Some s ∧ lo <= r.
Proof.
  induction n as [|n IH]; intros lo; cbn [slots_from]; [by intros ?%elem_of_nil|].
  intros [(o & Ho & Hs)%list_elem_of_omap|Hs]%elem_of_app; [exists o, lo; split_and!; [done..|lia]|].
  destruct (IH _ Hs) as (o & r & ? & ? & ?). exists o, r. split_and!; [done..|lia].
Qed.

Lemma slots_from_agree committers el lo n m :
  slots_agree (slots_from committers el lo n) (slots_from committers el lo m).
Proof.
  assert (∀ n k, slots_from committers el lo n `prefix_of` slots_from committers el lo (n + k)) as Hpre.
  { clear. intros n k. induction k as [|k IH]; [by rewrite Nat.add_0_r|]. rewrite Nat.add_succ_r, slots_from_snoc.
    by apply prefix_app_r. }
  intros i s s' Hs Hs'. destruct (le_ge_dec n m) as [Hle|Hle].
  - replace m with (n + (m - n))%nat in Hs' by lia. pose proof (prefix_lookup_Some _ _ _ _ Hs (Hpre n (m - n)%nat)). congruence.
  - replace n with (m + (n - m))%nat in Hs by lia. pose proof (prefix_lookup_Some _ _ _ _ Hs' (Hpre m (n - m)%nat)). congruence.
Qed.

(** The decided leaders before the first undecided one. *)
Fixpoint prefix_decided (sts : list LeaderStatus) : list DecidedLeader :=
  match sts with
  | [] => []
  | st :: sts => match into_decided_leader st with Some dl => dl :: prefix_decided sts | None => [] end
  end.

Lemma prefix_decided_agree stsA : ∀ stsB,
  (∀ i a b, stsA !! i = Some a → stsB !! i = Some b → is_decided a → is_decided b → a = b) →
  prefix_decided stsA `prefix_of` prefix_decided stsB ∨ prefix_decided stsB `prefix_of` prefix_decided stsA.
Proof.
  induction stsA as [|a stsA IH]; intros stsB Hag; [left; apply prefix_nil|].
  destruct stsB as [|b stsB]; [right; apply prefix_nil|]. cbn [prefix_decided].
  destruct (into_decided_leader a) as [da|] eqn:Ha; [|left; apply prefix_nil].
  destruct (into_decided_leader b) as [db|] eqn:Hb; [|right; apply prefix_nil].
  assert (a = b) as <- by (by apply (Hag 0%nat); destruct a, b).
  assert (da = db) as <- by congruence.
  destruct (IH stsB) as [Hp|Hp]; [intros i; apply (Hag (S i))|left|right]; by apply prefix_cons.
Qed.

Section node.
Context {St : Type} `{Store St} `{Rng} (d : DagState St) (V : gmap BlockRef VerifiedBlock) (L : Round).
Context (HV : dag_view d V L).
Let c := committee (ds_context d).
Context (byz : gset AuthorityIndex) (U : gmap BlockRef VerifiedBlock) (HU : universe_ok c byz U) (HVU : V ⊆ U).
Context (fuel : nat) (Hfuel : (size V < fuel)%nat).
Context (committers : list BaseCommitterOptions) (sched : LeaderSchedule).
Context (el : BaseCommitterOptions → Round → option Slot) (Hel : election c committers sched el).

Lemma view_status_ok st : status_in_view V st → status_ok U L st.
Proof.
  destruct st as [b| |]; simpl; try done. intros Hb. split; [by eapply lookup_weaken|].
  by eapply (view_closed_above d V L HV byz U HU HVU).
Qed.

Lemma first_anchor_cons s st sts X : (slot_round s + 3 <= slot_round (status_slot st) → ∃ s', st = LsSkip s') →
  first_anchor s sts X → first_anchor s (st :: sts) X.
Proof.
  intros Hst (j & Hj & HX & Hskip). exists (S j). split_and!; [done..|].
  intros [|k] st' Hk Hst'; [by simplify_eq/=|]. apply (Hskip k); [lia|done].
Qed.

Lemma status_round_slot st : status_round st = slot_round (status_slot st).
Proof. by destruct st. Qed.

Lemma indirect_loop_spec o s sts :
  wave_length o = 3 → leader_round o (wave_number o (slot_round s)) = slot_round s →
  L < slot_round s → slot_round s + 2 < U32_MAX → (∀ st, st ∈ sts → status_in_view V st) →
  ∃ st, indirect_loop d fuel o s (filter (λ x, slot_round s + 3 <= status_round x) sts) = Ret st ∧
    status_slot st = s ∧ status_in_view V st ∧ reason c U s sts st.
Proof.
  intros Hwl Hlead HL Hmax. induction sts as [|st sts IH]; intros Hin.
  { eexists. split_and!; [done..|]. by left. }
  rewrite filter_cons. destruct (IH ltac:(set_solver)) as (st' & IHret & Hs' & Hv' & Hr').
  assert ((slot_round s + 3 <= slot_round (status_slot st) → ∃ s', st = LsSkip s') → reason c U s (st :: sts) st') as Hcons.
  { intros Hst. destruct Hr' as [?|(X & HX & ?)]; [by left|]. right. exists X. split; [by apply first_anchor_cons|done]. }
  case_decide as Hfar; rewrite status_round_slot in Hfar; [|exists st'; split_and!; try done; by apply Hcons].
  destruct st as [X|sx|sx]; cbn [indirect_loop].
  - destruct (decide_leader_from_anchor_spec d V L HV byz U HU HVU fuel o s X) as (st0 & -> & ? & ? & Hr0); try done.
    { apply (Hin (LsCommit X)). left. }
    exists st0. split_and!; try done. right. exists X. split; [|done]. exists 0%nat. split_and!; [done..|]. lia.
  - exists st'. split_and!; try done. apply Hcons. eauto.
  - eexists. split_and!; [done..|]. by left.
Qed.

(** The leaders deque holds the statuses of the slots [ss]. *)
Definition leaders_ok (ss : list Slot) (leaders : list (LeaderStatus * LeaderDecision)) : Prop :=
  decided_list c U L ss leaders.*1 ∧ ∀ st, st ∈ leaders.*1 → status_in_view V st.

Lemma leaders_ok_push ss leaders s st dec :
  leaders_ok ss leaders → L < slot_round s → status_slot st = s → status_in_view V st →
  reason c U s leaders.*1 st → leaders_ok (s :: ss) ((st, dec) :: leaders).
Proof.
  intros [Hd Hv] HL Hs Hst Hr. split.
  - constructor; try done. by apply view_status_ok.
  - intros st' [->|Hst']%elem_of_cons; [done|by apply Hv].
Qed.

Lemma decide_round_spec last r cs : L < r → slot_round last < r → r + 2 < U32_MAX →
  (∀ o, o ∈ cs → o ∈ committers) → ∀ ss leaders, leaders_ok ss leaders →
  ∃ leaders', decide_round fuel sched d last r cs leaders = Ret (leaders', false) ∧
    leaders_ok (reverse (omap (λ o, el o r) cs) ++ ss) leaders'.
Proof.
  intros HL Hlast Hmax. induction cs as [|o cs IH]; intros Hcs ss leaders Hok; [by exists leaders|].
  cbn [decide_round]. rewrite (el_ret _ _ _ _ Hel) by (apply Hcs; left). cbn [mbind outcome_bind].
  assert (omap (λ o, el o r) (o :: cs) = option_list (el o r) ++ omap (λ o, el o r) cs) as ->.
  { simpl. by destruct (el o r). }
  destruct (el o r) as [s|] eqn:Hs; [|simpl; apply IH; set_solver].
  destruct (elected_slot c committers sched el o r s Hel (Hcs o ltac:(left)) Hs) as [Hsr Hlead]. subst r.
  pose proof (el_wave _ _ _ _ Hel o (Hcs o ltac:(left))) as Hwl.
  rewrite bool_decide_eq_false_2 by (intros ->; lia).
  assert (reverse (option_list (Some s) ++ omap (λ o, el o (slot_round s)) cs) ++ ss =
    reverse (omap (λ o, el o (slot_round s)) cs) ++ s :: ss) as ->.
  { simpl. by rewrite reverse_cons, <-app_assoc. }
  destruct (try_direct_decide_spec d V L HV byz U HU HVU o s) as (st & -> & Hst & Hvst & Hrst); [done..|].
  cbn [mbind outcome_bind]. destruct (is_decided st).
  { apply IH; [set_solver|]. apply leaders_ok_push; try done. by left. }
  unfold try_indirect_decide. rewrite Hwl, wrap32_small by (unfold U32_MOD, U32_MAX in *; lia).
  destruct (indirect_loop_spec o s leaders.*1) as (st' & -> & ? & ? & ?); try done; [apply Hok|].
  cbn [mbind outcome_bind]. apply IH; [set_solver|]. by apply leaders_ok_push.
Qed.

Lemma decide_rounds_spec last lo n : L < lo → slot_round last < lo → lo + N.of_nat n + 1 < U32_MAX →
  ∀ ss leaders, leaders_ok ss leaders →
  ∃ leaders', decide_rounds fuel committers sched d last (reverse ((λ i, lo + N.of_nat i) <$> seq 0 n)) leaders =
      Ret leaders' ∧ leaders_ok (slots_from committers el lo n ++ ss) leaders'.
Proof.
  intros HL Hlast Hmax. induction n as [|n IH]; intros ss leaders Hok; [by exists leaders|].
  rewrite seq_S, fmap_app, reverse_app. cbn [fmap list_fmap]. rewrite reverse_singleton. cbn [app decide_rounds Nat.add].
  destruct (decide_round_spec last (lo + N.of_nat n) (reverse committers)) with (ss := ss) (leaders := leaders)
    as (leaders' & -> & Hok'); [lia..| |done|].
  { intros o Ho. by apply elem_of_reverse. }
  cbn [mbind outcome_bind]. rewrite omap_reverse, reverse_involutive in Hok'.
  destruct (IH ltac:(lia) _ _ Hok') as (leaders'' & -> & Hok''). exists leaders''. split; [done|].
  by rewrite slots_from_snoc, <-app_assoc.
Qed.

Lemma decided_prefix_spec ss leaders : leaders_ok ss leaders →
  (∀ s, s ∈ ss → 0 < slot_round s ∧ is_valid_index c (slot_authority s)) →
  decided_prefix d leaders = Ret (prefix_decided leaders.*1).
Proof.
  intros [Hd _]. revert ss Hd. induction leaders as [|[st dec] leaders IH]; intros ss Hd Hss; [done|].
  cbn [fmap list_fmap fst] in Hd. inversion Hd as [|s ss' st' sts Hd' HL Hs Hok Hr]; subst.
  destruct (Hss (status_slot st) ltac:(left)) as [Hpos Hval]. cbn [decided_prefix fmap list_fmap fst prefix_decided].
  rewrite status_round_slot, (proj2 (N.eqb_neq _ GENESIS_ROUND)) by (unfold GENESIS_ROUND; lia).
  destruct (into_decided_leader st) as [dl|] eqn:Hdl; [|done].
  assert (decided_slot dl = status_slot st) as -> by (by destruct st; simplify_eq/=).
  destruct (authority_ret (committee (ds_context d)) _ Hval) as [a ->]. cbn [mbind outcome_bind].
  rewrite (IH ss' Hd'); [done|]. set_solver.
Qed.

(** [try_decide] returns, and its result comes from statuses with reasons. *)
Lemma try_decide_spec last : L <= slot_round last → ds_highest_accepted_round d < U32_MAX →
  slot_round last < U32_MAX →
  ∃ sts, decided_list c U L (slots_from committers el (slot_round last + 1)
           (N.to_nat (ds_highest_accepted_round d - 1 - (slot_round last + 1)))) sts ∧
    try_decide fuel committers sched d last = Ret (prefix_decided sts).
Proof.
  intros HL Hmax Hlast. unfold try_decide, rounds_rev.
  rewrite wrap32_small by (unfold U32_MOD, U32_MAX in *; lia).
  set (lo := slot_round last + 1). set (n := N.to_nat (ds_highest_accepted_round d - 1 - lo)).
  replace (N.to_nat (ds_highest_accepted_round d - 2 + 1 - lo)) with n by lia.
  destruct (decide (n = 0%nat)) as [Hn|Hn].
  { rewrite Hn. exists []. split; [constructor|done]. }
  destruct (decide_rounds_spec last lo n ltac:(lia) ltac:(lia) ltac:(lia) [] []) as (leaders & -> & Hok);
    [split; [constructor|set_solver]|].
  rewrite app_nil_r in Hok. exists leaders.*1. split; [apply Hok|]. cbn [mbind outcome_bind].
  eapply decided_prefix_spec; [done|]. intros s (o & r & Ho & Hs & Hr)%elem_of_slots_from.
  destruct (elected_slot c committers sched el o r s Hel Ho Hs) as [<- _]. split; [lia|].
  by eapply el_valid.
Qed.
End node.

(** ** Agreement *)

(** A node: its DAG state shows the blocks [V] above round [L], all of them
    blocks of the universe, and it has decided the leaders up to [last]. *)
Record node_ok {St : Type} `{Store St} (c : Committee) (U : gmap BlockRef VerifiedBlock) (last : Slot)
    (d : DagState St) (V : gmap BlockRef VerifiedBlock) (L : Round) (fuel : nat) : Prop := {
  nd_committee : committee (ds_context d) = c;
  nd_view : dag_view d V L;
  nd_universe : V ⊆ U;
  nd_last : L <= slot_round last;
  nd_highest : ds_highest_accepted_round d < U32_MAX;
  nd_fuel : (size V < fuel)%nat;
}.

Lemma node_decides {St} `{Store St} `{Rng} c byz U last (d : DagState St) V L fuel committers sched el :
  universe_ok c byz U → slot_round last < U32_MAX → election c committers sched el →
  node_ok c U last d V L fuel →
  ∃ n sts, decided_list c U L (slots_from committers el (slot_round last + 1) n) sts ∧
    try_decide fuel committers sched d last = Ret (prefix_decided sts).
Proof.
  intros HU Hlast Hel [Hc HV HVU HL Hmax Hfuel]. subst c.
  destruct (try_decide_spec d V L HV byz U HU HVU fuel Hfuel committers sched el Hel last HL Hmax Hlast)
    as (sts & Hd & Heq).
  eauto.
Qed.
