(* ===== verification/DagInv.v ===== *)
(** * DagInv: the invariant of the DAG state

    The invariant [dag_ok] relates the caches of [DagState] to each other and to
    the store.  Under it every read has a simple meaning ([lookup_block]), each
    operation preserves it, and it provides the interface [dag_view] that the
    committer's theorems are proved against. *)
From S2P Require Import Prelude Committee Block StakeAggregator ThresholdClock Commit Error BlockVerifier Store.
From S2P Require Import ScoringMetrics LeaderScoring DagState BaseCommitter CommitRule CommitterSpec.
Local Open Scope N_scope.
Local Open Scope rust_scope.

(** ** Batched reads *)

Lemma missing_refs_cons {A} (r : BlockRef) (refs : list BlockRef) (x : option A) found :
  missing_refs (r :: refs) (x :: found) =
  match x with None => r :: missing_refs refs found | Some _ => missing_refs refs found end.
Proof. unfold missing_refs. cbn [zip zip_with]. rewrite filter_cons. by destruct x. Qed.

(** Results read for the missing references land in their places. *)
Lemma fill_missing_spec {A} (f : BlockRef → option A) (g : BlockRef → A) refs dflt :
  fill_missing (f <$> refs) (g <$> missing_refs refs (f <$> refs)) dflt =
  (λ r, match f r with Some x => x | None => g r end) <$> refs.
Proof.
  induction refs as [|r refs IH]; [done|]. rewrite !fmap_cons, missing_refs_cons.
  destruct (f r) as [x|] eqn:Hf; [|rewrite fmap_cons]; cbn [fill_missing]; by rewrite IH.
Qed.

(** ** Ranges of references *)

Lemma slot_range s r : ref_digest r <= DIGEST_MAX → above (slot_lo s) r && below (slot_hi s) r ↔ ref_slot r = s.
Proof.
  intros Hd. rewrite andb_True. cbn [above below slot_lo slot_hi]. rewrite !bool_decide_spec.
  destruct s as [sr sa], r as [r a h]. unfold key_le, BlockRef_ord_key, ref_le, ref_slot, DIGEST_MIN. simpl in *.
  split; [|intros [= -> ->]; lia]. intros [H1 H2]. f_equal; lia.
Qed.

Lemma round_range r k : r < U32_MAX →
  above (Included (round_start r)) k && below (Excluded (round_start (r +32 1))) k ↔ ref_round k = r.
Proof.
  intros Hr. rewrite andb_True. cbn [above below]. rewrite !bool_decide_spec.
  rewrite wrap32_small by (unfold U32_MOD, U32_MAX in *; lia).
  destruct k as [kr a h]. unfold key_le, BlockRef_ord_key, ref_le, round_start, DIGEST_MIN, AuthorityIndex_ZERO.
  simpl. split.
  - intros [H1 [H2 H3]]. destruct (decide (kr = r + 1)) as [->|]; [|lia]. exfalso. apply H3. f_equal; lia.
  - intros ->. split; [lia|]. split; [lia|]. intros [= Heq]. lia.
Qed.

Lemma slot_bounds_ok s : bounds_ok (slot_lo s) (slot_hi s) = true.
Proof. apply bool_decide_eq_true_2. unfold key_le, BlockRef_ord_key, ref_le. simpl. unfold DIGEST_MIN. lia. Qed.

Lemma round_bounds_ok r : r < U32_MAX → bounds_ok (Included (round_start r)) (Excluded (round_start (r +32 1))) = true.
Proof.
  intros Hr. apply bool_decide_eq_true_2. rewrite wrap32_small by (unfold U32_MOD, U32_MAX in *; lia).
  unfold key_le, BlockRef_ord_key, ref_le. simpl. lia.
Qed.

Section dag_inv.
Context {St : Type} `{StoreLaws St}.
Implicit Type d : DagState St.

Definition stored d (r : BlockRef) : option VerifiedBlock := sv_blocks (store_view (ds_store d)) !! r.

(** What [get_block] returns. *)
Definition lookup_block d (r : BlockRef) : option VerifiedBlock :=
  match get_cached d r with Some o => o | None => stored d r end.

Lemma get_blocks_ret d refs : store_ok (ds_store d) → get_blocks d refs = Ret (lookup_block d <$> refs).
Proof.
  intros Hs. unfold get_blocks. pose proof (fill_missing_spec (get_cached d) (stored d) refs None) as Hfill.
  destruct (missing_refs refs (get_cached d <$> refs)) as [|r rs] eqn:Hm; [f_equal; exact Hfill|].
  rewrite (read_blocks_view _ _ Hs). cbn [unwrapM unwrap mbind outcome_bind]. f_equal. exact Hfill.
Qed.

Lemma get_block_ret d r : store_ok (ds_store d) → get_block d r = Ret (lookup_block d r).
Proof. intros Hs. unfold get_block. by rewrite get_blocks_ret. Qed.

(** ** The invariant *)

(** ** The threshold clock *)

(** The authority [a] has a known block of round [r]. *)
Definition authored d (r : Round) (a : AuthorityIndex) : Prop :=
  ∃ b : VerifiedBlock, lookup_block d (reference b) = Some b ∧ round b = r ∧ author b = a.

(** A quorum has known blocks of round [r]. *)
Definition quorum_authored d (r : Round) : Prop :=
  ∃ X, X ⊆ all_indices (committee (ds_context d)) ∧ reached_quorum (committee (ds_context d)) (set_stake (committee (ds_context d)) X) ∧
    ∀ a, a ∈ X → authored d r a.

Record clock_inv d : Prop := {
  ci_positive : 0 < clock_round (ds_threshold_clock d);
  ci_highest : ds_highest_accepted_round d <= clock_round (ds_threshold_clock d);
  ci_committed : last_commit_round d <= ds_highest_accepted_round d;
  ci_agg : agg_ok (committee (ds_context d)) (aggregator (ds_threshold_clock d));
  ci_waiting : reached_threshold (aggregator (ds_threshold_clock d)) (committee (ds_context d)) = false;
  ci_votes a : a ∈ votes (aggregator (ds_threshold_clock d)) → authored d (clock_round (ds_threshold_clock d)) a;
  ci_parents : quorum_authored d (clock_round (ds_threshold_clock d) - 1);
}.

Lemma clock_inv_same d d' : ds_context d' = ds_context d → ds_threshold_clock d' = ds_threshold_clock d →
  ds_highest_accepted_round d' = ds_highest_accepted_round d → last_commit_round d' <= ds_highest_accepted_round d →
  (∀ r, lookup_block d' r = lookup_block d r) → clock_inv d → clock_inv d'.
Proof.
  intros Hc Hk Hh Hl Hlk [H1 H2 H3 H4 H5 H6 H7].
  assert (∀ r a, authored d r a → authored d' r a) as Hau.
  { intros r a (b & Hb & Hr & Ha). exists b. by rewrite Hlk. }
  split; rewrite ?Hk, ?Hc, ?Hh; try done.
  - intros a Ha. by apply Hau, H6.
  - destruct H7 as (X & HX & Hq & Hp). exists X. rewrite Hc. split_and!; [done..|]. intros a Ha. by apply Hau, Hp.
Qed.

(** ** The invariant *)

Record dag_ok d : Prop := {
  ok_committee : committee_ok (committee (ds_context d));
  ok_store : store_ok (ds_store d);
  ok_cached_rounds : 0 < ds_cached_rounds d;
  ok_refs_length : length (ds_recent_refs_by_authority d) = N.to_nat (committee_size (committee (ds_context d)));
  ok_evicted_length : length (ds_evicted_rounds d) = N.to_nat (committee_size (committee (ds_context d)));
  ok_rounds_length : length (ds_last_committed_rounds d) = N.to_nat (committee_size (committee (ds_context d)));
  ok_genesis r b : ds_genesis d !! r = Some b → reference b = r ∧ ref_round r = 0;
  (* one genesis block per authority *)
  ok_genesis_authors :
    (λ kv : BlockRef * VerifiedBlock, author kv.2) <$> btree_entries (ds_genesis d) =
    N.of_nat <$> seq 0 (N.to_nat (committee_size (committee (ds_context d))));
  ok_recent r i : ds_recent_blocks d !! r = Some i →
    reference (bi_block i) = r ∧ ref_ok r ∧ 0 < ref_round r ∧ block_ok (committee (ds_context d)) (bi_block i);
  ok_storable r i : ds_recent_blocks d !! r = Some i → votes_ok (bi_block i) ∧ store_accepts_block St (bi_block i);
  ok_stored r b : stored d r = Some b → 0 < ref_round r ∧ is_valid_index (committee (ds_context d)) (ref_author r);
  ok_refs a rs : ds_recent_refs_by_authority d !! N.to_nat a = Some rs →
    ∀ r, r ∈ rs ↔ is_Some (ds_recent_blocks d !! r) ∧ ref_author r = a;
  ok_written b : b ∈ ds_blocks_to_write d → ∃ i, ds_recent_blocks d !! reference b = Some i ∧ bi_block i = b;
  ok_written_nodup : NoDup (reference <$> ds_blocks_to_write d);
  ok_persist r i : ds_recent_blocks d !! r = Some i →
    bi_block i ∈ ds_blocks_to_write d ∨ stored d r = Some (bi_block i);
  ok_commits (commit : TrustedCommit) : commit ∈ ds_commits_to_write d →
    (commit_index commit <= U32_MAX ∧ commit_digest commit <= DIGEST_MAX) ∧ store_accepts_commit St commit;
  ok_infos r i : (r, i) ∈ ds_commit_info_to_write d → commit_ref_ok r;
  ok_votes : Forall commit_ref_ok (ds_pending_commit_votes d);
  ok_last_commit (commit : TrustedCommit) : ds_last_commit d = Some commit → commit_ref_ok (commit_reference commit);
  (* above the evicted round everything stored is cached *)
  ok_cached r b e : stored d r = Some b → ds_evicted_rounds d !! N.to_nat (ref_author r) = Some e →
    e < ref_round r → is_Some (ds_recent_blocks d !! r);
  (* the latest reference of an author is never evicted *)
  ok_last r b : stored d r = Some b →
    ∃ r' i, ds_recent_blocks d !! r' = Some i ∧ ref_author r' = ref_author r ∧ ref_round r <= ref_round r';
  ok_evicted a e e' : ds_evicted_rounds d !! N.to_nat a = Some e →
    calculate_authority_eviction_round d a = Ret e' → e <= e';
  ok_committed_rounds a r : ds_last_committed_rounds d !! a = Some r → r <= last_commit_round d;
  ok_committed_known a r : ds_last_committed_rounds d !! N.to_nat a = Some r → 0 < r →
    ∃ r' i, ds_recent_blocks d !! r' = Some i ∧ ref_author r' = a ∧ r <= ref_round r';
  ok_metrics : metrics_store_ok (committee_size (committee (ds_context d))) (ds_scoring_metrics d);
  (* every ancestor is known, or garbage collected; genesis blocks are always known *)
  ok_complete r i a : ds_recent_blocks d !! r = Some i → a ∈ ancestors (bi_block i) →
    is_Some (lookup_block d a) ∨ (gc_enabled d = true ∧ 0 < ref_round a <= gc_round d);
  ok_highest r i : ds_recent_blocks d !! r = Some i → ref_round r <= ds_highest_accepted_round d;
  ok_clock : clock_inv d;
}.

Lemma valid_lookup {A} d (l : list A) a : length l = N.to_nat (committee_size (committee (ds_context d))) →
  is_valid_index (committee (ds_context d)) a → ∃ x, l !! N.to_nat a = Some x.
Proof.
  intros Hlen Ha. apply lookup_lt_is_Some_2. unfold is_valid_index in Ha. apply Is_true_true, N.ltb_lt in Ha. lia.
Qed.

Lemma gc_round_le d : gc_round d <= last_commit_round d.
Proof. unfold gc_round, calculate_gc_round. case_match; unfold GENESIS_ROUND; lia. Qed.

Section with_ok.
Context d (Hok : dag_ok d).
Let c := committee (ds_context d).

Lemma refs_valid a : is_valid_index c a →
  ∃ rs, ds_recent_refs_by_authority d !! N.to_nat a = Some rs ∧
    ∀ r, r ∈ rs ↔ is_Some (ds_recent_blocks d !! r) ∧ ref_author r = a.
Proof.
  intros Ha. destruct (valid_lookup d _ a (ok_refs_length _ Hok) Ha) as [rs Hrs].
  exists rs. split; [done|]. by apply (ok_refs _ Hok).
Qed.

Lemma eviction_round_ret a : is_valid_index c a →
  ∃ e, calculate_authority_eviction_round d a = Ret e ∧ e <= last_commit_round d.
Proof.
  intros Ha. unfold calculate_authority_eviction_round, vec_index. destruct (gc_enabled d).
  - destruct (refs_valid a Ha) as (rs & -> & _). cbn. eexists. split; [done|].
    unfold gc_eviction_round. pose proof (gc_round_le d). lia.
  - destruct (valid_lookup d _ a (ok_rounds_length _ Hok) Ha) as [r Hr]. rewrite Hr. cbn. eexists. split; [done|].
    pose proof (ok_committed_rounds _ Hok _ _ Hr). unfold eviction_round. lia.
Qed.

Lemma evicted_le a e : is_valid_index c a → ds_evicted_rounds d !! N.to_nat a = Some e → e <= last_commit_round d.
Proof.
  intros Ha He. destruct (eviction_round_ret a Ha) as (e' & He' & Hle).
  pose proof (ok_evicted _ Hok _ _ _ He He'). lia.
Qed.

Lemma lookup_block_reference r b : lookup_block d r = Some b → reference b = r.
Proof.
  unfold lookup_block, get_cached. destruct (ref_round r =? GENESIS_ROUND).
  - intros Hb. by apply (ok_genesis _ Hok).
  - destruct (ds_recent_blocks d !! r) as [i|] eqn:Hi.
    + intros [= <-]. by apply (ok_recent _ Hok).
    + intros Hb. by apply (store_keys_ok _ _ _ (ok_store _ Hok)) in Hb as [? _].
Qed.

Lemma recent_author r i : ds_recent_blocks d !! r = Some i → is_valid_index c (ref_author r).
Proof. intros Hi. destruct (ok_recent _ Hok _ _ Hi) as (<- & _ & _ & Hb). apply Hb. Qed.

(** The cached blocks whose reference satisfies [P]. *)
Lemma recent_range_spec (P : BlockRef → bool) :
  let bs := (λ kv, bi_block kv.2) <$> btree_map_range P (ds_recent_blocks d) in
  NoDup bs ∧ ∀ b, b ∈ bs ↔ ∃ i, ds_recent_blocks d !! reference b = Some i ∧ bi_block i = b ∧ P (reference b).
Proof.
  intros bs. split.
  - apply (NoDup_fmap_1 reference). unfold bs. rewrite <-list_fmap_compose.
    assert ((reference ∘ (λ kv : BlockRef * BlockInfo, bi_block kv.2)) <$> btree_map_range P (ds_recent_blocks d) =
      (btree_map_range P (ds_recent_blocks d)).*1) as ->.
    { apply list_fmap_ext. intros j [r i] [_ Hi]%list_elem_of_lookup_2%elem_of_btree_map_range.
      by apply (ok_recent _ Hok). }
    apply btree_map_range_NoDup.
  - intros b. unfold bs. rewrite list_elem_of_fmap. split.
    + intros ([r i] & -> & [HP Hi]%elem_of_btree_map_range). simpl.
      destruct (ok_recent _ Hok _ _ Hi) as (-> & _). eauto.
    + intros (i & Hi & <- & HP). exists (reference (bi_block i), i). split; [done|]. by apply elem_of_btree_map_range.
Qed.

Lemma uncommitted_at_slot_ret s : ∃ bs : list VerifiedBlock,
  get_uncommitted_blocks_at_slot d s = Ret bs ∧ NoDup bs ∧
  ∀ b : VerifiedBlock, b ∈ bs ↔ ∃ i, ds_recent_blocks d !! reference b = Some i ∧ bi_block i = b ∧ slot b = s.
Proof.
  unfold get_uncommitted_blocks_at_slot. rewrite map_range_ret by apply slot_bounds_ok. cbn [mbind outcome_bind].
  destruct (recent_range_spec (λ k, above (slot_lo s) k && below (slot_hi s) k)) as [Hnd Hbs].
  eexists. split; [done|]. split; [done|]. intros b. rewrite Hbs. split.
  - intros (i & Hi & Hb & Hs). exists i. split_and!; [done..|].
    apply slot_range in Hs; [exact Hs|]. by destruct (ok_recent _ Hok _ _ Hi) as (_ & (_ & _ & ?) & _).
  - intros (i & Hi & Hb & Hs). exists i. split; [done|]. split; [done|].
    apply slot_range; [|exact Hs]. by destruct (ok_recent _ Hok _ _ Hi) as (_ & (_ & _ & ?) & _).
Qed.

Lemma uncommitted_at_round_ret r : last_commit_round d < r → r < U32_MAX → ∃ bs : list VerifiedBlock,
  get_uncommitted_blocks_at_round d r = Ret bs ∧ NoDup bs ∧
  ∀ b : VerifiedBlock, b ∈ bs ↔ ∃ i, ds_recent_blocks d !! reference b = Some i ∧ bi_block i = b ∧ round b = r.
Proof.
  intros Hr Hmax. unfold get_uncommitted_blocks_at_round. rewrite (proj2 (N.leb_gt _ _)) by done.
  rewrite map_range_ret by (by apply round_bounds_ok). cbn [mbind outcome_bind].
  destruct (recent_range_spec (λ k, above (Included (round_start r)) k && below (Excluded (round_start (r +32 1))) k))
    as [Hnd Hbs].
  eexists. split; [done|]. split; [done|]. intros b. rewrite Hbs. by setoid_rewrite round_range.
Qed.

(** ** The committer's view *)

Definition view_above (L : Round) (m : gmap BlockRef BlockInfo) : gmap BlockRef VerifiedBlock :=
  omap (λ i, if L <? round (bi_block i) then Some (bi_block i) else None) m.

Lemma view_above_Some L m r b :
  view_above L m !! r = Some b ↔ ∃ i, m !! r = Some i ∧ bi_block i = b ∧ L < round b.
Proof.
  unfold view_above. rewrite lookup_omap. destruct (m !! r) as [i|]; cbn; [|naive_solver].
  destruct (N.ltb_spec L (round (bi_block i))); naive_solver lia.
Qed.

Lemma lookup_block_above r : last_commit_round d < ref_round r →
  lookup_block d r = view_above (last_commit_round d) (ds_recent_blocks d) !! r.
Proof.
  intros Hr. unfold lookup_block, get_cached. rewrite (proj2 (N.eqb_neq _ GENESIS_ROUND)) by (unfold GENESIS_ROUND; lia).
  unfold view_above. rewrite lookup_omap. destruct (ds_recent_blocks d !! r) as [i|] eqn:Hi; cbn.
  - destruct (ok_recent _ Hok _ _ Hi) as (Href & _). rewrite <-Href in Hr. simpl in Hr.
    by rewrite (proj2 (N.ltb_lt _ _)).
  - destruct (stored d r) as [b|] eqn:Hb; [exfalso|done].
    destruct (ok_stored _ Hok _ _ Hb) as [_ Ha].
    destruct (valid_lookup d _ _ (ok_evicted_length _ Hok) Ha) as [e He].
    pose proof (evicted_le _ _ Ha He). destruct (ok_cached _ Hok _ _ _ Hb He ltac:(lia)). congruence.
Qed.

Lemma recent_lookup r i : ds_recent_blocks d !! r = Some i → lookup_block d r = Some (bi_block i).
Proof.
  intros Hi. unfold lookup_block, get_cached. destruct (ok_recent _ Hok _ _ Hi) as (_ & _ & Hpos & _).
  rewrite (proj2 (N.eqb_neq _ GENESIS_ROUND)) by (unfold GENESIS_ROUND; lia). by rewrite Hi.
Qed.

Lemma dag_ok_view : dag_view d (view_above (last_commit_round d) (ds_recent_blocks d)) (last_commit_round d).
Proof.
  split.
  - done.
  - intros r b (i & Hi & <- & Hlt)%view_above_Some. by destruct (ok_recent _ Hok _ _ Hi) as (? & _ & _ & ?).
  - intros r Hr. rewrite get_block_ret by apply Hok. by rewrite lookup_block_above.
  - intros r b a (i & Hi & <- & _)%view_above_Some Ha Hlt. rewrite <-lookup_block_above by done.
    destruct (ok_complete _ Hok _ _ _ Hi Ha) as [?|[_ [_ Hgc]]]; [done|]. pose proof (gc_round_le d). lia.
  - intros r b a (i & Hi & <- & _)%view_above_Some Ha Hle. exists (lookup_block d a).
    split; [apply get_block_ret, Hok|]. destruct (lookup_block d a) as [b'|] eqn:Hb'; [by apply lookup_block_reference|].
    destruct (ok_complete _ Hok _ _ _ Hi Ha) as [[? ?]|[? [_ ?]]]; [congruence|done].
  - intros s Hs. destruct (uncommitted_at_slot_ret s) as (bs & -> & Hnd & Hbs). exists bs. split_and!; [done..|].
    intros b. rewrite Hbs. setoid_rewrite view_above_Some. split; [|naive_solver].
    intros (i & Hi & Hb & Hsl). split; [|done]. exists i. split_and!; [done..|]. by rewrite <-Hsl in Hs.
  - intros r Hr Hmax. destruct (uncommitted_at_round_ret r Hr Hmax) as (bs & -> & Hnd & Hbs).
    exists bs. split_and!; [done..|]. intros b. rewrite Hbs. setoid_rewrite view_above_Some. naive_solver.
Qed.

(** ** Existence checks *)

Lemma contains_cached_ret r : is_valid_index c (ref_author r) →
  ∃ o, contains_cached d r = Ret o ∧
    default (bool_decide (r ∈ dom (sv_blocks (store_view (ds_store d))))) o = bool_decide (is_Some (lookup_block d r)).
Proof.
  intros Ha. unfold contains_cached, vec_index. destruct (refs_valid _ Ha) as (rs & -> & Hrs). cbn [expect mbind outcome_bind].
  eexists. split; [done|]. destruct (bool_decide (r ∈ rs)) eqn:Hin; cbn [orb].
  { apply bool_decide_eq_true, Hrs in Hin as [[i Hi] _]. symmetry. apply bool_decide_eq_true_2.
    rewrite (recent_lookup _ _ Hi). by eexists. }
  apply bool_decide_eq_false in Hin.
  assert (ds_recent_blocks d !! r = None) as Hnone.
  { apply eq_None_not_Some. intros Hi. apply Hin, Hrs. done. }
  destruct (bool_decide (is_Some (ds_genesis d !! r))) eqn:Hg.
  { apply bool_decide_eq_true in Hg as [b Hb]. symmetry. apply bool_decide_eq_true_2.
    unfold lookup_block, get_cached. destruct (ok_genesis _ Hok _ _ Hb) as [_ ->]. by rewrite Hb. }
  apply bool_decide_eq_false in Hg.
  assert (is_Some (lookup_block d r) ↔ is_Some (stored d r)) as Hl.
  { unfold lookup_block, get_cached. destruct (N.eqb_spec (ref_round r) GENESIS_ROUND) as [Hz|Hz]; [|by rewrite Hnone].
    split; [done|]. intros [b Hb]. apply (ok_stored _ Hok) in Hb as [Hb _]. unfold GENESIS_ROUND in Hz. lia. }
  rewrite (bool_decide_ext _ _ Hl).
  assert (∀ b, stored d r = Some b → ∃ r', r' ∈ rs ∧ ref_round r <= ref_round r') as Hst.
  { intros b Hb. destruct (ok_last _ Hok _ _ Hb) as (r' & i & Hi & Ha' & Hle). exists r'. split; [|done].
    apply Hrs. eauto. }
  destruct (btree_last rs) as [last|] eqn:Hlast.
  - apply btree_last_Some in Hlast as [_ Hmax]. destruct (N.ltb_spec (ref_round last) (ref_round r)) as [Hlt|_].
    + symmetry. apply bool_decide_eq_false_2. intros [b Hb]. destruct (Hst b Hb) as (r' & Hr' & Hle).
      specialize (Hmax r' Hr'). apply ref_le_round in Hmax. lia.
    + apply bool_decide_ext. by rewrite elem_of_dom.
  - apply btree_last_None in Hlast as ->. symmetry. apply bool_decide_eq_false_2. intros [b Hb].
    destruct (Hst b Hb) as (r' & Hr' & _). set_solver.
Qed.

Lemma contains_blocks_ret refs : (∀ r, r ∈ refs → is_valid_index c (ref_author r)) →
  contains_blocks d refs = Ret ((λ r, bool_decide (is_Some (lookup_block d r))) <$> refs).
Proof.
  intros Hrefs. unfold contains_blocks.
  set (f := λ r, match contains_cached d r with Ret o => o | Panic _ => None end).
  assert (∀ r, r ∈ refs → contains_cached d r = Ret (f r)) as Hf.
  { intros r Hr. unfold f. by destruct (contains_cached_ret r (Hrefs r Hr)) as (o & -> & _). }
  rewrite (mapM_ret _ f) by done. cbn [mbind outcome_bind].
  pose proof (fill_missing_spec f (λ r, bool_decide (r ∈ dom (sv_blocks (store_view (ds_store d))))) refs false) as Hfill.
  assert ((λ r, match f r with Some x => x | None => bool_decide (r ∈ dom (sv_blocks (store_view (ds_store d)))) end) <$> refs =
    (λ r, bool_decide (is_Some (lookup_block d r))) <$> refs) as Heq.
  { apply list_fmap_ext. intros i r Hr%list_elem_of_lookup_2.
    destruct (contains_cached_ret r (Hrefs r Hr)) as (o & Ho & <-). rewrite Hf in Ho by done. injection Ho as ->.
    by destruct o. }
  rewrite <-Heq, <-Hfill. destruct (missing_refs refs (f <$> refs)); [done|].
  by rewrite (store_contains_blocks_view _ _ (ok_store _ Hok)).
Qed.

Lemma contains_block_ret r : is_valid_index c (ref_author r) →
  contains_block d r = Ret (bool_decide (is_Some (lookup_block d r))).
Proof. intros Ha. unfold contains_block. rewrite contains_blocks_ret; [done|]. by intros r' ->%list_elem_of_singleton. Qed.
End with_ok.
End dag_inv.
