(* ===== verification/DagOps.v ===== *)
(** * DagOps: the operations of the DAG state keep its invariant

    Accepting blocks, marking blocks as committed, adding commits and flushing
    all return without a panic from a state that satisfies [dag_ok], keep the
    invariant, and change what the readers see ([lookup_block]) exactly as they
    should: accepting adds the block, the other operations change nothing. *)
From S2P Require Import Prelude Committee Block StakeAggregator ThresholdClock Commit Error BlockVerifier Store.
From S2P Require Import ScoringMetrics LeaderScoring DagState BaseCommitter CommitRule CommitterSpec DagInv.
Local Open Scope N_scope.
Local Open Scope rust_scope.

Lemma clock_add_block_ret c now k r : is_valid_index c (ref_author r) → is_ret (clock_add_block c now k r).
Proof.
  intros Hr. unfold clock_add_block, add. destruct (_ ?= _).
  all: repeat case_decide; rewrite ?committee_stake_ret by done; by eexists.
Qed.

Definition last_round (rs : gset BlockRef) : Round :=
  match btree_last rs with Some r => ref_round r | None => GENESIS_ROUND end.

Lemma last_round_ge rs r : r ∈ rs → ref_round r <= last_round rs.
Proof.
  intros Hr. unfold last_round. destruct (btree_last rs) as [l|] eqn:Hl.
  - apply btree_last_Some in Hl as [_ Hmax]. apply ref_le_round. by apply Hmax.
  - apply btree_last_None in Hl. set_solver.
Qed.

Lemma last_round_elem rs : rs ≠ ∅ → ∃ r, r ∈ rs ∧ ref_round r = last_round rs.
Proof.
  intros Hne. unfold last_round. destruct (btree_last rs) as [l|] eqn:Hl.
  - apply btree_last_Some in Hl as [Hin _]. eauto.
  - by apply btree_last_None in Hl.
Qed.

Lemma last_round_empty : last_round ∅ = 0.
Proof. unfold last_round. by rewrite (proj2 (btree_last_None _)). Qed.

Lemma last_round_mono rs rs' : rs ⊆ rs' → last_round rs <= last_round rs'.
Proof.
  intros Hsub. destruct (decide (rs = ∅)) as [->|Hne]; [rewrite last_round_empty; lia|].
  destruct (last_round_elem rs Hne) as (r & Hr & <-). apply last_round_ge. set_solver.
Qed.

Section dag_ops.
Context {St : Type} `{StoreLaws St}.
Implicit Type d : DagState St.

(** The eviction round of an authority, with the lookups done. *)
Lemma eviction_round_eq d a rs lc :
  ds_recent_refs_by_authority d !! N.to_nat a = Some rs → ds_last_committed_rounds d !! N.to_nat a = Some lc →
  calculate_authority_eviction_round d a =
    Ret (if gc_enabled d then gc_eviction_round (last_round rs) (gc_round d) (ds_cached_rounds d)
         else eviction_round lc (ds_cached_rounds d)).
Proof.
  intros Hrs Hlc. unfold calculate_authority_eviction_round, vec_index. rewrite Hrs, Hlc. by destruct (gc_enabled d).
Qed.

Section with_ok.
Context d (Hok : dag_ok d).
Let c := committee (ds_context d).

Lemma valid_of_lookup {A} (l : list A) a x :
  length l = N.to_nat (committee_size c) → l !! N.to_nat a = Some x → is_valid_index c a.
Proof.
  intros Hlen Hx%lookup_lt_Some. apply Is_true_true, N.ltb_lt. lia.
Qed.

(** The evicted rounds stay below the eviction rounds when these grow. *)
Lemma ok_evicted_mono d' :
  ds_context d' = ds_context d → ds_cached_rounds d' = ds_cached_rounds d → ds_evicted_rounds d' = ds_evicted_rounds d →
  (∀ a rs rs', ds_recent_refs_by_authority d !! N.to_nat a = Some rs →
    ds_recent_refs_by_authority d' !! N.to_nat a = Some rs' → last_round rs <= last_round rs') →
  (∀ a lc lc', ds_last_committed_rounds d !! N.to_nat a = Some lc →
    ds_last_committed_rounds d' !! N.to_nat a = Some lc' → lc <= lc') →
  gc_round d <= gc_round d' →
  ∀ a e e', ds_evicted_rounds d' !! N.to_nat a = Some e →
    calculate_authority_eviction_round d' a = Ret e' → e <= e'.
Proof.
  intros Hctx Hcr Hev Hrefs Hrounds Hgc a e e' He He'. rewrite Hev in He.
  pose proof (valid_of_lookup _ _ _ (ok_evicted_length _ Hok) He) as Ha.
  destruct (refs_valid d Hok a Ha) as (rs & Hrs & _). destruct (valid_lookup d _ a (ok_rounds_length _ Hok) Ha) as [lc Hlc].
  pose proof (ok_evicted _ Hok a e _ He (eviction_round_eq d a rs lc Hrs Hlc)) as Hle. etrans; [exact Hle|].
  assert (gc_enabled d' = gc_enabled d) as Hen by (unfold gc_enabled; by rewrite Hctx).
  unfold calculate_authority_eviction_round in He'. rewrite Hen, Hcr in He'. destruct (gc_enabled d); inv_ret.
  - match goal with H : ds_recent_refs_by_authority d' !! _ = Some _ |- _ => pose proof (Hrefs a _ _ Hrs H) as Hl end.
    unfold gc_eviction_round, last_round in *. lia.
  - match goal with H : ds_last_committed_rounds d' !! _ = Some _ |- _ => pose proof (Hrounds a _ _ Hlc H) as Hl end.
    unfold eviction_round. lia.
Qed.

(** ** Accepting a block *)

(** What the block manager guarantees of a block it hands over. *)
Record acceptable (now : N) (b : VerifiedBlock) : Prop := {
  ac_round : 0 < round b;
  ac_block : block_ok c b;
  ac_ref : ref_ok (reference b);
  ac_storable : votes_ok b ∧ store_accepts_block St b;
  ac_time : timestamp_ms b <= now ∨
    consensus_median_timestamp_with_checkpoint_enforcement (protocol_config (ds_context d)) = true;
  (* an authority does not equivocate against itself *)
  ac_own r i : author b = own_index (ds_context d) → ds_recent_blocks d !! r = Some i →
    ref_slot r = slot b → r = reference b;
  ac_ancestors a : a ∈ ancestors b →
    is_Some (lookup_block d a) ∨ (gc_enabled d = true ∧ 0 < ref_round a <= gc_round d);
}.

(** The state after a block that was not known is accepted. *)
Definition accepted (clock : ThresholdClock) (rs : gset BlockRef) (b : VerifiedBlock) : DagState St :=
  set_to_write
    (set_recent d (<[reference b := BlockInfo_new b]> (ds_recent_blocks d))
       (<[N.to_nat (author b) := {[reference b]} ∪ rs]> (ds_recent_refs_by_authority d)) clock
       (N.max (ds_highest_accepted_round d) (round b)))
    (ds_blocks_to_write d ++ [b]) (ds_commits_to_write d) (ds_commit_info_to_write d).

Lemma accept_block_cases now instant b : acceptable now b →
  (is_Some (lookup_block d (reference b)) ∧ accept_block now instant d b = Ret d) ∨
  (lookup_block d (reference b) = None ∧
   ∃ clock rs, clock_add_block c instant (ds_threshold_clock d) (reference b) = Ret clock ∧
     ds_recent_refs_by_authority d !! N.to_nat (author b) = Some rs ∧
     accept_block now instant d b = Ret (accepted clock rs b)).
Proof.
  intros [Hr Hb Href Hsto Htime Hown Hanc]. pose proof (bo_author _ _ Hb) as Ha.
  unfold accept_block, c in *.
  destruct (N.eqb_spec (round b) 0); [lia|]. cbn [negb assert mbind outcome_bind].
  rewrite contains_block_ret by done. cbn [mbind outcome_bind].
  destruct (lookup_block d (reference b)) as [b0|] eqn:Hl; [left; by split|].
  rewrite bool_decide_eq_false_2 by by intros []. right. split; [done|].
  assert ((timestamp_ms b <=? now) || consensus_median_timestamp_with_checkpoint_enforcement (protocol_config (ds_context d)) = true) as ->.
  { apply orb_true_iff. destruct Htime as [?|?]; [left; by apply N.leb_le|by right]. }
  cbn [assert mbind outcome_bind]. destruct (authority_ret _ _ Ha) as [auth Hauth].
  cbn [ref_author reference]. rewrite Hauth. cbn [mbind outcome_bind].
  assert ((if author b =? own_index (ds_context d)
    then get_uncommitted_blocks_at_slot d (ref_slot (reference b)) ≫= (λ existing : list VerifiedBlock, assert (bool_decide (existing = []))
      "Block Rejected! Attempted to add block to own slot where block(s) already exists.") else Ret tt) = Ret tt) as ->.
  { destruct (N.eqb_spec (author b) (own_index (ds_context d))) as [Heq|]; [|done].
    destruct (uncommitted_at_slot_ret d Hok (ref_slot (reference b))) as (bs & -> & _ & Hbs). cbn [mbind outcome_bind].
    rewrite bool_decide_eq_true_2; [done|]. apply elem_of_nil_inv. intros b' Hb'. apply Hbs in Hb' as (i & Hi & Hib & Hs).
    assert (reference b' = reference b) as Heq'.
    { apply (Hown _ i); [done|congruence|]. done. }
    rewrite Heq' in Hi. rewrite (recent_lookup d Hok _ _ Hi) in Hl. done. }
  cbn [mbind outcome_bind]. unfold update_block_metadata, vec_index. cbn [ref_author reference].
  destruct (refs_valid d Hok _ Ha) as (rs & Hrs & _). rewrite Hrs. cbn [expect mbind outcome_bind].
  rewrite vec_set_in by by eapply lookup_lt_Some. cbn [mbind outcome_bind].
  destruct (clock_add_block_ret (committee (ds_context d)) instant (ds_threshold_clock d) (reference b) Ha) as [clock Hc].
  rewrite Hc. cbn [mbind outcome_bind]. rewrite Hauth. cbn [mbind outcome_bind]. eauto.
Qed.

Lemma lookup_block_accepted clock rs (b : VerifiedBlock) r : 0 < round b →
  lookup_block (accepted clock rs b) r = if decide (r = reference b) then Some b else lookup_block d r.
Proof.
  intros Hr. unfold lookup_block, get_cached, stored. simpl. rewrite lookup_insert.
  destruct (decide (reference b = r)) as [<-|Hne]; [|by rewrite decide_False by done].
  rewrite decide_True by done. simpl. destruct (N.eqb_spec (round b) GENESIS_ROUND); [unfold GENESIS_ROUND in *; lia|done].
Qed.

Lemma authored_accepted clock rs (b : VerifiedBlock) r a : 0 < round b → lookup_block d (reference b) = None →
  authored d r a ∨ (round b = r ∧ author b = a) → authored (accepted clock rs b) r a.
Proof.
  intros Hr Hnone [(x & Hx & Hrx & Hax)|[Hrb Hab]].
  - exists x. rewrite lookup_block_accepted by done. rewrite decide_False by congruence. done.
  - exists b. by rewrite lookup_block_accepted, decide_True.
Qed.

(** A block above the clock brings a quorum of parents. *)
Lemma parents_authored now (b : VerifiedBlock) : acceptable now b → clock_round (ds_threshold_clock d) < round b →
  quorum_authored d (round b - 1).
Proof.
  intros [Hr Hb Href Hsto Htime Hown Hanc] Hgt. destruct (ok_clock _ Hok) as [Hpos Hhigh Hcom _ _ _ _].
  exists (ref_authors_at (round b - 1) (ancestors b)). split_and!.
  - intros a Ha. apply elem_of_all_indices. apply elem_of_list_to_set, list_elem_of_fmap in Ha as (x & -> & [_ Hx]%list_elem_of_filter).
    by apply (bo_index _ _ Hb).
  - apply (bo_quorum _ _ Hb).
  - intros a Ha. apply elem_of_list_to_set, list_elem_of_fmap in Ha as (x & -> & [Hrx Hx]%list_elem_of_filter).
    destruct (Hanc x Hx) as [[y Hy]|[Hen Hgc]].
    + pose proof (lookup_block_reference d Hok _ _ Hy) as Href'. exists y. rewrite Href'. split; [done|]. by rewrite <-Href' in *.
    + exfalso. unfold gc_enabled in Hen. unfold gc_round, calculate_gc_round in Hgc. rewrite Hen in Hgc. apply N.ltb_lt in Hen. lia.
Qed.

Lemma clock_inv_accepted now instant clock rs (b : VerifiedBlock) : acceptable now b → lookup_block d (reference b) = None →
  clock_add_block c instant (ds_threshold_clock d) (reference b) = Ret clock → clock_inv (accepted clock rs b).
Proof.
  intros Hac Hnone. pose proof Hac as [Hr Hb Href _ _ _ _]. destruct (ok_clock _ Hok) as [Hpos Hhigh Hcom Hagg Hwait Hvotes Hpar].
  fold c in Hagg, Hwait. pose proof (bo_author _ _ Hb) as Hauth. fold c in Hauth.
  assert (∀ r a, authored d r a → authored (accepted clock rs b) r a) as Hau by (intros; apply authored_accepted; auto).
  assert (∀ r, quorum_authored d r → quorum_authored (accepted clock rs b) r) as Hqa.
  { intros r (X & HX & Hq & Hp). exists X. split_and!; [done..|]. intros a Ha. by apply Hau, Hp. }
  (* after the vote was counted in round [round b] *)
  assert (∀ agg, agg_ok c agg → (∀ a, a ∈ votes agg → authored (accepted clock rs b) (round b) a) →
    quorum_authored d (round b - 1) → clock_round (ds_threshold_clock d) <= round b →
    fst (try_advance_round c (mk_clock agg (round b) (quorum_ts (ds_threshold_clock d))) (round b +32 1) instant) = clock →
    clock_inv (accepted clock rs b)) as Hcount.
  { intros agg Ha Hv Hp Hle. unfold try_advance_round. cbn [aggregator]. destruct Href as (Hmax & _ & _). cbn in Hmax.
    destruct (reached_threshold agg c) eqn:Hreach; cbn [fst]; intros <-.
    - rewrite wrap32_small by (unfold U32_MOD, U32_MAX in *; lia). split; cbn [accepted set_to_write set_recent ds_threshold_clock
        clock_round ds_highest_accepted_round aggregator ds_context last_commit_round ds_last_commit]; try lia.
      + change (last_commit_round (accepted _ rs b)) with (last_commit_round d). lia.
      + apply agg_ok_clear.
      + apply not_true_is_false. intros Hx. by apply (not_quorum_empty c (ok_committee _ Hok)), Is_true_true; rewrite set_stake_empty.
      + set_solver.
      + replace (round b + 1 - 1) with (round b) by lia. exists (votes agg). destruct Ha as [Hsub Hst]. split_and!; [done| |done].
        unfold reached_threshold in Hreach. cbn in Hreach. rewrite Hst in Hreach. by apply Is_true_true.
    - split; cbn [accepted set_to_write set_recent ds_threshold_clock clock_round ds_highest_accepted_round aggregator ds_context]; try done; try lia.
      + change (last_commit_round (accepted _ rs b)) with (last_commit_round d). lia.
      + by apply Hqa. }
  unfold clock_add_block. cbn [ref_round ref_author reference].
  destruct (N.compare_spec (round b) (clock_round (ds_threshold_clock d))) as [Heq|Hlt|Hgt].
  - destruct (add_spec c (ok_committee _ Hok) _ (author b) Hagg Hauth) as (agg & -> & Hva & Ha). cbn [mbind outcome_bind fst].
    rewrite <-Heq. intros [= Hcl]. apply (Hcount agg Ha); [|by rewrite Heq|lia|done].
    intros a. rewrite Hva, elem_of_union, elem_of_singleton. intros [->|Hin]; apply authored_accepted; auto. left. rewrite Heq. by apply Hvotes.
  - cbn [mbind outcome_bind]. unfold try_advance_round. rewrite Hwait. cbn [fst]. intros [= <-].
    split; cbn [accepted set_to_write set_recent ds_threshold_clock ds_highest_accepted_round ds_context]; try done; try lia.
    + change (last_commit_round (accepted _ rs b)) with (last_commit_round d). lia.
    + intros a Ha. by apply Hau, Hvotes.
    + by apply Hqa.
  - destruct (add_spec c (ok_committee _ Hok) _ (author b) (agg_ok_clear c (aggregator (ds_threshold_clock d))) Hauth) as (agg & -> & Hva & Ha).
    cbn [mbind outcome_bind fst]. intros [= Hcl]. apply (Hcount agg Ha); [|by eapply parents_authored|lia|done].
    intros a. rewrite Hva, elem_of_union, elem_of_singleton. intros [->|Hin]; [apply authored_accepted; auto|set_solver].
Qed.

Lemma dag_ok_accepted now instant clock rs (b : VerifiedBlock) : acceptable now b → lookup_block d (reference b) = None →
  clock_add_block c instant (ds_threshold_clock d) (reference b) = Ret clock → ds_recent_refs_by_authority d !! N.to_nat (author b) = Some rs → dag_ok (accepted clock rs b).
Proof.
  intros Hac Hnone Hclock Hrs. pose proof Hac as [Hr Hb Href Hsto Htime Hown Hanc].
  assert (ds_recent_blocks d !! reference b = None) as Hrec.
  { destruct (ds_recent_blocks d !! reference b) eqn:E; [|done]. by rewrite (recent_lookup d Hok _ _ E) in Hnone. }
  assert (∀ r, is_Some (lookup_block d r) → is_Some (lookup_block (accepted clock rs b) r)) as Hmono.
  { intros r. rewrite lookup_block_accepted by done. by case_decide. }
  assert (∀ r, is_Some (ds_recent_blocks d !! r) → is_Some (ds_recent_blocks (accepted clock rs b) !! r)) as Hmono'.
  { intros r Hi. simpl. rewrite lookup_insert. by case_decide. }
  assert (∀ (P : BlockRef → Prop), (∃ r' i, ds_recent_blocks d !! r' = Some i ∧ P r') →
    ∃ r' i, ds_recent_blocks (accepted clock rs b) !! r' = Some i ∧ P r') as Hex.
  { intros P (r' & i & Hi & HP). destruct (Hmono' r') as [i' Hi']; [by eexists|]. eauto. }
  split; try by apply Hok; simpl.
  - simpl. rewrite length_insert. apply Hok.
  - intros r i. simpl. rewrite lookup_insert. case_decide as Heq; [|apply (ok_recent _ Hok)].
    intros [= <-]. subst r. simpl. done.
  - intros r i. simpl. rewrite lookup_insert. case_decide as Heq; [|apply (ok_storable _ Hok)]. by intros [= <-].
  - intros a rs' Ha r. simpl in Ha |- *. rewrite list_lookup_insert in Ha. rewrite lookup_insert.
    case_decide as Hd.
    + destruct Hd as [Heq _]. apply (inj N.to_nat) in Heq. simplify_eq. rewrite elem_of_union, elem_of_singleton.
      rewrite (ok_refs _ Hok _ _ Hrs). case_decide; [|naive_solver]. subst. naive_solver.
    + rewrite (ok_refs _ Hok _ _ Ha). case_decide as He; [|done]. subst r. rewrite Hrec. cbn [ref_author reference].
      split; [by intros [[] _]|]. intros [_ <-]. destruct Hd. split; [done|]. by eapply lookup_lt_Some.
  - intros b'. simpl. rewrite elem_of_app, list_elem_of_singleton, lookup_insert. intros [Hb'| ->].
    + destruct (ok_written _ Hok _ Hb') as (i & Hi & <-). rewrite decide_False by congruence. eauto.
    + rewrite decide_True by done. by eexists.
  - simpl. rewrite fmap_app. apply NoDup_app. split; [apply Hok|]. split; [|apply NoDup_singleton].
    intros r (b' & -> & Hb')%list_elem_of_fmap Heq%list_elem_of_singleton.
    destruct (ok_written _ Hok _ Hb') as (i & Hi & _). congruence.
  - intros r i. simpl. rewrite lookup_insert, elem_of_app. case_decide.
    + intros [= <-]. left. right. by left.
    + intros Hi. destruct (ok_persist _ Hok _ _ Hi); [by left; left|by right].
  - intros r b' e Hs He Hlt. apply Hmono'. by apply (ok_cached _ Hok _ b' e).
  - intros r b' Hs. by apply Hex, (ok_last _ Hok _ b').
  - apply ok_evicted_mono; try done; [|intros ?? lc' ??; simpl in *; by simplify_eq].
    intros a rs0 rs1 Ha. simpl. rewrite list_lookup_insert. case_decide as Hd; intros; simplify_eq; [|done].
    destruct Hd as [Heq%(inj N.to_nat) _]. simplify_eq. apply last_round_mono. set_solver.
  - intros a r Hlc Hpos. by apply Hex, (ok_committed_known _ Hok).
  - intros r i a. simpl. rewrite lookup_insert. case_decide.
    + intros [= <-] Ha. destruct (Hanc a Ha) as [?|?]; [left; by apply Hmono|by right].
    + intros Hi Ha. destruct (ok_complete _ Hok _ _ _ Hi Ha) as [?|?]; [left; by apply Hmono|by right].
  - intros r i. simpl. rewrite lookup_insert. case_decide.
    + intros [= <-]. subst r. simpl. lia.
    + intros Hi%(ok_highest _ Hok). lia.
  - by eapply clock_inv_accepted.
Qed.

Lemma accept_block_spec now instant b : acceptable now b →
  ∃ d', accept_block now instant d b = Ret d' ∧ dag_ok d' ∧ ds_context d' = ds_context d ∧
    ds_last_commit d' = ds_last_commit d ∧
    ∀ r, lookup_block d' r = match lookup_block d r with
                             | Some b' => Some b'
                             | None => if decide (r = reference b) then Some b else None
                             end.
Proof.
  intros Hb. destruct (accept_block_cases now instant b Hb) as [[[b0 Hl] ->]|(Hl & clock & rs & Hcl & Hrs & ->)].
  - exists d. split_and!; [done..|]. intros r. destruct (lookup_block d r) eqn:E; [done|].
    rewrite decide_False; [done|]. congruence.
  - eexists. split; [done|]. split; [by eapply dag_ok_accepted|]. split_and!; [done..|]. intros r.
    rewrite lookup_block_accepted by apply Hb. destruct (decide (r = reference b)) as [->|]; [by rewrite Hl|].
    by destruct (lookup_block d r).
Qed.

(** ** Commit statuses *)

(** The state with the blocks in [X] marked as committed. *)
Definition mark_info (X : gset BlockRef) (r : BlockRef) (i : BlockInfo) : BlockInfo :=
  mk_block_info (bi_block i) (bi_committed i || bool_decide (r ∈ X)).

Definition mark_committed (X : gset BlockRef) : DagState St :=
  set_recent d (map_imap (λ r i, Some (mark_info X r i)) (ds_recent_blocks d))
    (ds_recent_refs_by_authority d) (ds_threshold_clock d) (ds_highest_accepted_round d).

Lemma mark_lookup X r : ds_recent_blocks (mark_committed X) !! r = mark_info X r <$> ds_recent_blocks d !! r.
Proof. simpl. rewrite map_lookup_imap. by destruct (ds_recent_blocks d !! r). Qed.

Lemma mark_lookup_block X r : lookup_block (mark_committed X) r = lookup_block d r.
Proof.
  unfold lookup_block, get_cached, stored. rewrite mark_lookup. by destruct (ds_recent_blocks d !! r).
Qed.

Lemma dag_ok_mark X : dag_ok (mark_committed X).
Proof.
  assert (∀ r i, ds_recent_blocks d !! r = Some i → ∃ i', ds_recent_blocks (mark_committed X) !! r = Some i' ∧ bi_block i' = bi_block i) as Hfwd.
  { intros r i Hi. rewrite mark_lookup, Hi. by eexists. }
  assert (∀ r i', ds_recent_blocks (mark_committed X) !! r = Some i' → ∃ i, ds_recent_blocks d !! r = Some i ∧ bi_block i' = bi_block i) as Hbwd.
  { intros r i'. rewrite mark_lookup. intros (i & Hi & ->)%fmap_Some. eauto. }
  assert (∀ r, is_Some (ds_recent_blocks (mark_committed X) !! r) ↔ is_Some (ds_recent_blocks d !! r)) as Hdom.
  { intros r. rewrite mark_lookup. apply fmap_is_Some. }
  assert (∀ (P : BlockRef → Prop), (∃ r' i, ds_recent_blocks d !! r' = Some i ∧ P r') →
    ∃ r' i, ds_recent_blocks (mark_committed X) !! r' = Some i ∧ P r') as Hex.
  { intros P (r' & i & Hi & HP). destruct (Hfwd r' i Hi) as (i' & Hi' & _). eauto. }
  split; try by apply Hok.
  - intros r i' (i & Hi & ->)%Hbwd. by apply (ok_recent _ Hok).
  - intros r i' (i & Hi & ->)%Hbwd. by apply (ok_storable _ Hok r i).
  - intros a rs Hrs r. by rewrite (ok_refs _ Hok _ _ Hrs), Hdom.
  - intros b Hb. destruct (ok_written _ Hok _ Hb) as (i & Hi & <-). by apply Hfwd.
  - intros r i' (i & Hi & ->)%Hbwd. by apply (ok_persist _ Hok).
  - intros r b e Hs He Hlt. apply Hdom. by apply (ok_cached _ Hok r b e).
  - intros r b Hs. apply Hex. by apply (ok_last _ Hok r b).
  - intros a x Ha Hx. apply Hex. by apply (ok_committed_known _ Hok).
  - intros r i' a (i & Hi & ->)%Hbwd Ha. rewrite mark_lookup_block. by apply (ok_complete _ Hok r i).
  - intros r i' (i & Hi & _)%Hbwd. by apply (ok_highest _ Hok r i).
  - apply (clock_inv_same d); try done; [apply (ok_clock _ Hok)|apply mark_lookup_block|apply Hok].
Qed.

Lemma mark_empty : mark_committed ∅ = d.
Proof.
  unfold mark_committed. replace (map_imap _ _) with (ds_recent_blocks d); [by destruct d|]. apply map_eq. intros r.
  rewrite map_lookup_imap. destruct (ds_recent_blocks d !! r) as [[b f]|]; [|done]. simpl. unfold mark_info. simpl.
  by rewrite orb_false_r.
Qed.

(** Marking one more block. *)
Lemma set_committed_mark X r i : ds_recent_blocks d !! r = Some i → bi_committed i = false → r ∉ X →
  set_committed (mark_committed X) r = Ret (mark_committed ({[r]} ∪ X), true).
Proof.
  intros Hi Hc Hr. unfold set_committed. rewrite mark_lookup, Hi. cbn [fmap option_fmap option_map mark_info bi_committed].
  rewrite Hc, bool_decide_eq_false_2 by done. cbn [orb]. do 2 f_equal.
  unfold mark_committed, set_recent. simpl. f_equal. apply map_eq. intros r'. rewrite lookup_insert, !map_lookup_imap.
  destruct (decide (r = r')) as [<-|Hne]; [rewrite Hi; simpl; unfold mark_info; by rewrite Hc, bool_decide_eq_true_2 by set_solver|].
  destruct (ds_recent_blocks d !! r'); [|done]. simpl. unfold mark_info. do 3 f_equal. apply bool_decide_ext. set_solver.
Qed.

(** ** Commits *)

Lemma raise_rounds_spec n refs : ∀ rounds, length rounds = n →
  (∀ r, r ∈ refs → (N.to_nat (ref_author r) < n)%nat) →
  ∃ rounds', raise_rounds rounds refs = Ret rounds' ∧ length rounds' = n ∧
    (∀ a x', rounds' !! N.to_nat a = Some x' → ∃ x, rounds !! N.to_nat a = Some x ∧ x <= x' ∧
      (x' = x ∨ ∃ r, r ∈ refs ∧ ref_author r = a ∧ ref_round r = x')) ∧
    (∀ r x', r ∈ refs → rounds' !! N.to_nat (ref_author r) = Some x' → ref_round r <= x').
Proof.
  induction refs as [|r refs IH]; intros rounds Hlen Hrefs.
  { exists rounds. split_and!; [done|done| |set_solver]. intros a x' Hx. exists x'. split_and!; [done|lia|by left]. }
  unfold raise_rounds. cbn [foldM]. assert (N.to_nat (ref_author r) < n)%nat as Hr by (apply Hrefs; left).
  destruct (lookup_lt_is_Some_2 rounds (N.to_nat (ref_author r))) as [old Hold]; [lia|].
  unfold vec_index. rewrite Hold. cbn [expect mbind outcome_bind]. rewrite vec_set_in by lia. cbn [mbind outcome_bind].
  destruct (IH (<[N.to_nat (ref_author r) := N.max old (ref_round r)]> rounds)) as (rounds' & Heq & Hlen' & Hval & Hge).
  { by rewrite length_insert. } { set_solver. }
  exists rounds'. split_and!; [exact Heq|done| |].
  - intros a x' Hx'. destruct (Hval a x' Hx') as (x & Hx & Hle & Hwhy). rewrite list_lookup_insert in Hx. case_decide as Hd.
    + destruct Hd as [Ha%(inj N.to_nat) _]. subst a. simplify_eq. exists old. split_and!; [done|lia|].
      destruct Hwhy as [->|(r' & ? & ? & ?)]; [|right; exists r'; set_solver].
      destruct (N.max_spec old (ref_round r)) as [[_ ->]|[_ ->]]; [right; exists r; set_solver|by left].
    + exists x. split_and!; [done..|]. destruct Hwhy as [->|(r' & ? & ? & ?)]; [by left|right; exists r'; set_solver].
  - intros r' x' [->|Hr']%elem_of_cons Hx'; [|by apply Hge].
    destruct (Hval _ x' Hx') as (x & Hx & Hle & _). rewrite list_lookup_insert_eq in Hx by lia. simplify_eq. lia.
Qed.

(** What the committer and the linearizer guarantee of the next commit. *)
Record next_commit (commit : TrustedCommit) : Prop := {
  nc_index : commit_index commit = last_commit_index d + 1;
  nc_width : commit_index commit <= U32_MAX ∧ commit_digest commit <= DIGEST_MAX;
  nc_store : store_accepts_commit St commit;
  nc_timestamp : last_commit_timestamp_ms d <= commit_timestamp_ms commit;
  nc_round : last_commit_round d <= commit_round commit;
  nc_leader : commit_round commit <= ds_highest_accepted_round d;
  nc_blocks r : r ∈ commit_blocks commit →
    is_Some (lookup_block d r) ∧ 0 < ref_round r <= commit_round commit;
}.

Lemma known_above r : is_Some (lookup_block d r) → 0 < ref_round r →
  is_valid_index c (ref_author r) ∧
  ∃ r' i, ds_recent_blocks d !! r' = Some i ∧ ref_author r' = ref_author r ∧ ref_round r <= ref_round r'.
Proof.
  intros [b Hb] Hr. unfold lookup_block, get_cached in Hb. destruct (N.eqb_spec (ref_round r) GENESIS_ROUND).
  { unfold GENESIS_ROUND in *. lia. }
  destruct (ds_recent_blocks d !! r) as [i|] eqn:Hi.
  - destruct (ok_recent _ Hok _ _ Hi) as (Href & _ & _ & Hbo). split; [|exists r, i; split_and!; [done..|lia]].
    rewrite <-Href. apply Hbo.
  - split; [by apply (ok_stored _ Hok) in Hb as [_ ?]|by eapply (ok_last _ Hok)].
Qed.

(** The state after a commit is added. *)
Definition committed_state (commit : TrustedCommit) (time : option N) (rounds : list Round) : DagState St :=
  set_to_write
    (set_commit d (Some commit) time rounds (ds_pending_commit_votes d ++ [commit_reference commit]))
    (ds_blocks_to_write d) (ds_commits_to_write d ++ [commit]) (ds_commit_info_to_write d).

Lemma add_commit_ret instant commit : next_commit commit →
  ∃ time rounds, raise_rounds (ds_last_committed_rounds d) (commit_blocks commit) = Ret rounds ∧
    add_commit instant d commit = Ret (committed_state commit time rounds).
Proof.
  intros [Hidx Hw Hst Hts Hr Hlead Hbs].
  destruct (raise_rounds_spec _ (commit_blocks commit) _ (ok_rounds_length _ Hok)) as (rounds & Hrounds & Hlen & _).
  { intros r Hin. destruct (Hbs r Hin) as [Hk [Hpos _]]. destruct (known_above r Hk Hpos) as [Hv _].
    apply Is_true_true, N.ltb_lt in Hv. unfold c in Hv. lia. }
  destruct (mapM_is_ret (λ i, a ← expect (to_authority_index c i) "unwrap"; authority c a)
    (N.of_nat <$> seq 0 (length rounds))) as [k Hk].
  { intros i (n & -> & Hn%elem_of_seq)%list_elem_of_fmap. unfold to_authority_index.
    rewrite (proj2 (N.ltb_lt _ _)) by (unfold c; lia). cbn [expect mbind outcome_bind].
    apply authority_ret, Is_true_true, N.ltb_lt. unfold c. lia. }
  unfold add_commit. rewrite Hrounds. cbn [mbind outcome_bind]. unfold c in Hk. rewrite Hk. cbn [mbind outcome_bind].
  unfold last_commit_index, last_commit_timestamp_ms in *. destruct (ds_last_commit d) as [last|].
  - destruct (N.leb_spec (commit_index commit) (commit_index last)); [lia|].
    rewrite wrap32_small by (unfold U32_MOD, U32_MAX in *; lia). rewrite Hidx, N.eqb_refl. cbn [assert mbind outcome_bind].
    destruct (N.ltb_spec (commit_timestamp_ms commit) (commit_timestamp_ms last)); [lia|]. by eexists _, _.
  - rewrite Hidx. cbn. by eexists _, _.
Qed.

Lemma gc_round_mono d' : ds_context d' = ds_context d → last_commit_round d <= last_commit_round d' →
  gc_round d <= gc_round d'.
Proof. intros Hc Hr. unfold gc_round, calculate_gc_round. rewrite Hc. case_match; lia. Qed.

Lemma add_commit_spec instant commit : next_commit commit →
  ∃ d', add_commit instant d commit = Ret d' ∧ dag_ok d' ∧ (∀ r, lookup_block d' r = lookup_block d r) ∧
    ds_last_commit d' = Some commit ∧ ds_commits_to_write d' = ds_commits_to_write d ++ [commit] ∧
    ds_recent_blocks d' = ds_recent_blocks d ∧ ds_context d' = ds_context d.
Proof.
  intros Hnc. destruct (add_commit_ret instant commit Hnc) as (time & rounds & Hrounds & Heq).
  eexists. split; [exact Heq|]. split; [|done]. set (d' := committed_state _ _ _).
  assert (gc_round d <= gc_round d') as Hgc by (apply gc_round_mono; [done|apply Hnc]).
  destruct (raise_rounds_spec _ (commit_blocks commit) _ (ok_rounds_length _ Hok)) as (rounds' & Hrounds' & Hlen & Hval & _).
  { intros r Hin. destruct (nc_blocks _ Hnc r Hin) as [Hk [Hpos _]]. destruct (known_above r Hk Hpos) as [Hv _].
    apply Is_true_true, N.ltb_lt in Hv. unfold c in Hv. lia. }
  rewrite Hrounds' in Hrounds. injection Hrounds as ->.
  split; try by apply Hok.
  - done.
  - intros commit'. simpl. rewrite elem_of_app, list_elem_of_singleton. intros [?| ->]; [by apply (ok_commits _ Hok)|split; apply Hnc].
  - simpl. apply Forall_app. split; [apply Hok|]. constructor; [apply Hnc|done].
  - intros commit' [= <-]. apply Hnc.
  - apply ok_evicted_mono; try done.
    + intros a rs rs' Hrs Hrs'. simpl in *. by simplify_eq.
    + intros a lc lc' Hlc Hlc'. destruct (Hval a lc' Hlc') as (x & Hx & Hle & _). by simplify_eq.
  - intros n r Hn. replace n with (N.to_nat (N.of_nat n)) in Hn by lia. destruct (Hval _ _ Hn) as (x & Hx & Hle & Hwhy).
    simpl. destruct Hwhy as [->|(r' & Hr' & _ & <-)].
    + etrans; [by eapply (ok_committed_rounds _ Hok)|]. apply Hnc.
    + apply (nc_blocks _ Hnc r' Hr').
  - intros a r Hn Hpos. destruct (Hval _ _ Hn) as (x & Hx & Hle & [->|(r' & Hr' & <- & <-)]).
    + by apply (ok_committed_known _ Hok).
    + apply known_above; [|done]. apply (nc_blocks _ Hnc r' Hr').
  - intros r i a Hi Ha. destruct (ok_complete _ Hok _ _ _ Hi Ha) as [?|[? ?]]; [by left|right]. split; [done|]. lia.
  - apply (clock_inv_same d); try done; [apply Hnc|apply Hok].
Qed.

(** ** Flushing *)

Lemma flush_metrics_ret : ∃ m w, flush_metrics d = Ret (m, w) ∧ metrics_store_ok (committee_size c) m ∧ ∀ a x, (a, x) ∈ w → a <= U32_MAX.
Proof.
  destruct (foldM_inv (λ p : MysticetiScoringMetricsStore * list (AuthorityIndex * StorageScoringMetrics),
    metrics_store_ok (committee_size c) p.1 ∧ ∀ a x, (a, x) ∈ p.2 → a <= U32_MAX)
    (λ '(s, to_write) '((a, _) : AuthorityIndex * Authority),
      last_eviction_round ← vec_index (ds_evicted_rounds d) a;
      current_eviction_round ← calculate_authority_eviction_round d a;
      refs ← vec_index (ds_recent_refs_by_authority d) a;
      '(s, o) ← update_scoring_metrics_on_eviction s a refs current_eviction_round last_eviction_round
                (clock_round (ds_threshold_clock d));
      Ret (s, match o : option StorageScoringMetrics with Some m => to_write ++ [(a, m)] | None => to_write end))
    (authorities c) (ds_scoring_metrics d, [])) as ([m w] & Heq & Hm & Hw).
  - intros [s w] [a x] Hx%authorities_valid [Hs Hw]. cbn [fst snd] in Hs, Hw.
    destruct (valid_lookup d _ a (ok_evicted_length _ Hok) Hx) as [e He]. rewrite (proj2 (vec_index_ret _ _ _) He).
    cbn [mbind outcome_bind]. destruct (eviction_round_ret d Hok a Hx) as (e' & -> & _). cbn [mbind outcome_bind].
    destruct (refs_valid d Hok a Hx) as (rs & Hrs & _). rewrite (proj2 (vec_index_ret _ _ _) Hrs).
    cbn [mbind outcome_bind].
    destruct (update_on_eviction_ok (committee_size c) s a rs e' e (clock_round (ds_threshold_clock d)) Hs)
      as (s' & o & -> & Hs'); [by apply N.ltb_lt, Is_true_true|]. cbn [mbind outcome_bind]. eexists. split; [done|]. split; [done|].
    intros a' x' Hin. destruct o as [mx|]; [|by eapply Hw]. apply elem_of_app in Hin as [Hin|[= -> ->]%list_elem_of_singleton]; [by eapply Hw|].
    destruct (committee_ok_fields c (ok_committee _ Hok)) as (_ & _ & _ & _ & _ & _ & Hsize). apply Is_true_true, N.ltb_lt in Hx. lia.
  - split; [apply Hok|]. intros a x Hin. by apply elem_of_nil in Hin.
  - by exists m, w.
Qed.

(** The state once the pending blocks and commits are stored. *)
Definition written (store : St) (metrics : MysticetiScoringMetricsStore) : DagState St :=
  set_store (set_to_write d [] [] []) store metrics.

Lemma dag_ok_written store metrics w :
  wb_blocks w = ds_blocks_to_write d → store_ok store →
  store_view store = view_write (store_view (ds_store d)) w →
  metrics_store_ok (committee_size c) metrics →
  dag_ok (written store metrics) ∧ ∀ r, lookup_block (written store metrics) r = lookup_block d r.
Proof.
  intros Hw Hs Hview Hm.
  assert (∀ r, stored (written store metrics) r = insert_blocks (ds_blocks_to_write d) (sv_blocks (store_view (ds_store d))) !! r) as Hst.
  { intros r. unfold stored. simpl. rewrite Hview. simpl. by rewrite Hw. }
  assert (∀ r b, stored (written store metrics) r = Some b → is_Some (ds_recent_blocks d !! r) ∨ stored d r = Some b) as Hinv.
  { intros r b. rewrite Hst. intros [[Hb <-]|Hb]%insert_blocks_lookup_inv; [|by right]. left.
    destruct (ok_written _ Hok _ Hb) as (i & Hi & _). by eexists. }
  assert (∀ r, lookup_block (written store metrics) r = lookup_block d r) as Hl.
  { intros r. unfold lookup_block. change (get_cached (written store metrics) r) with (get_cached d r).
    destruct (get_cached d r) eqn:Hc; [done|]. rewrite Hst. apply insert_blocks_lookup_ne.
    intros (b & -> & Hb)%list_elem_of_fmap. destruct (ok_written _ Hok _ Hb) as (i & Hi & _). unfold get_cached in Hc.
    rewrite Hi in Hc. by destruct (_ =? _). }
  split; [|done]. split; try by apply Hok.
  - done.
  - intros r b Hb. destruct (Hinv _ _ Hb) as [[i Hi]|Hb']; [|by apply (ok_stored _ Hok) in Hb'].
    destruct (ok_recent _ Hok _ _ Hi) as (<- & _ & ? & Hbo). split; [done|apply Hbo].
  - intros b Hb. simpl in Hb. set_solver.
  - apply NoDup_nil_2.
  - intros r i Hi. right. rewrite Hst. destruct (ok_persist _ Hok _ _ Hi) as [Hb|Hb].
    + destruct (ok_recent _ Hok _ _ Hi) as (<- & _). apply insert_blocks_lookup; [apply Hok|done].
    + destruct (decide (r ∈ reference <$> ds_blocks_to_write d)) as [(b & -> & Hin)%list_elem_of_fmap|Hn].
      * destruct (ok_written _ Hok _ Hin) as (i' & Hi' & <-). simpl in Hi. simplify_eq.
        apply insert_blocks_lookup; [apply Hok|done].
      * by rewrite insert_blocks_lookup_ne.
  - simpl. set_solver.
  - intros r i Hin. by apply elem_of_nil in Hin.
  - intros r b e Hb He Hlt. destruct (Hinv _ _ Hb) as [?|Hb']; [done|]. by apply (ok_cached _ Hok r b e).
  - intros r b Hb. destruct (Hinv _ _ Hb) as [[i Hi]|Hb']; [exists r, i; by split_and!|by apply (ok_last _ Hok r b)].
  - done.
  - intros r i a Hi Ha. rewrite Hl. by apply (ok_complete _ Hok r i).
  - apply (clock_inv_same d); try done; [apply (ok_clock _ Hok)|apply Hok].
Qed.

(** The last reference of an authority is above its eviction round. *)
Lemma eviction_below_last a rs e : ds_recent_refs_by_authority d !! N.to_nat a = Some rs → rs ≠ ∅ →
  calculate_authority_eviction_round d a = Ret e → e < last_round rs.
Proof.
  intros Hrs Hne He. pose proof (valid_of_lookup _ _ _ (ok_refs_length _ Hok) Hrs) as Ha.
  destruct (valid_lookup d _ a (ok_rounds_length _ Hok) Ha) as [lc Hlc].
  rewrite (eviction_round_eq d a rs lc Hrs Hlc) in He. injection He as <-. pose proof (ok_cached_rounds _ Hok).
  assert (0 < last_round rs) as Hpos.
  { destruct (last_round_elem rs Hne) as (r & Hr & <-). apply (ok_refs _ Hok _ _ Hrs) in Hr as [[i Hi] _].
    by apply (ok_recent _ Hok) in Hi as (_ & _ & ? & _). }
  destruct (gc_enabled d); [unfold gc_eviction_round; lia|]. unfold eviction_round.
  destruct (decide (lc = 0)) as [->|Hlc0]; [lia|].
  destruct (ok_committed_known _ Hok a lc Hlc) as (r & i & Hi & Ha' & Hle); [lia|].
  assert (ref_round r <= last_round rs); [|lia]. apply last_round_ge, (ok_refs _ Hok _ _ Hrs). eauto.
Qed.

(** The state after the references [evicted] of [a] are dropped. *)
Definition evicted_state (a : AuthorityIndex) (rs : gset BlockRef) (evicted : list BlockRef) (e : Round) : DagState St :=
  set_evicted d (foldl (λ m r, delete r m) (ds_recent_blocks d) evicted)
    (<[N.to_nat a := rs ∖ list_to_set evicted]> (ds_recent_refs_by_authority d))
    (<[N.to_nat a := e]> (ds_evicted_rounds d)).

Lemma evict_authority_ret a : is_valid_index c a →
  ∃ rs evicted e, ds_recent_refs_by_authority d !! N.to_nat a = Some rs ∧
    calculate_authority_eviction_round d a = Ret e ∧
    (∀ r, r ∈ evicted ↔ is_Some (ds_recent_blocks d !! r) ∧ ref_author r = a ∧ ref_round r <= e) ∧
    evict_authority d a = Ret (evicted_state a rs evicted e).
Proof.
  intros Ha. destruct (refs_valid d Hok a Ha) as (rs & Hrs & Hin).
  destruct (eviction_round_ret d Hok a Ha) as (e & He & _).
  exists rs, (take_while (λ r, ref_round r <=? e) (btree_iter rs)), e. split_and!; [done..| |].
  - intros r. rewrite (elem_of_take_while key_le).
    + rewrite elem_of_btree_iter, Hin, Is_true_true, N.leb_le. tauto.
    + apply btree_iter_sorted.
    + intros y z Hyz%ref_le_round. rewrite !Is_true_true, !N.leb_le. lia.
  - unfold evict_authority. rewrite He. cbn [mbind outcome_bind]. rewrite (proj2 (vec_index_ret _ _ _) Hrs).
    cbn [mbind outcome_bind]. rewrite (vec_set_in (ds_recent_refs_by_authority d)) by by eapply lookup_lt_Some.
    cbn [mbind outcome_bind]. rewrite vec_set_in; [done|]. rewrite (ok_evicted_length _ Hok), <-(ok_refs_length _ Hok). by eapply lookup_lt_Some.
Qed.

Section evict.
Context (a : AuthorityIndex) (rs : gset BlockRef) (evicted : list BlockRef) (e : Round).
Context (Hrs : ds_recent_refs_by_authority d !! N.to_nat a = Some rs)
  (He : calculate_authority_eviction_round d a = Ret e)
  (Hev : ∀ r, r ∈ evicted ↔ is_Some (ds_recent_blocks d !! r) ∧ ref_author r = a ∧ ref_round r <= e)
  (Hempty : ds_blocks_to_write d = []).
Let d' := evicted_state a rs evicted e.

Lemma evicted_recent r i :
  ds_recent_blocks d' !! r = Some i ↔ ds_recent_blocks d !! r = Some i ∧ ¬ (ref_author r = a ∧ ref_round r <= e).
Proof.
  simpl. rewrite foldl_delete_lookup. case_decide as Hin.
  - apply Hev in Hin. naive_solver.
  - rewrite Hev in Hin. split; [|naive_solver]. intros Hi. split; [done|]. intros ?. apply Hin. by split; [eexists|].
Qed.

Lemma evicted_lookup r : lookup_block d' r = lookup_block d r.
Proof.
  unfold lookup_block, get_cached. change (ds_genesis d') with (ds_genesis d). change (stored d' r) with (stored d r).
  destruct (_ =? _); [done|]. simpl. rewrite foldl_delete_lookup. case_decide as Hin; [|done].
  apply Hev in Hin as [[i Hi] _]. rewrite Hi. destruct (ok_persist _ Hok _ _ Hi) as [Hb|Hb]; [|done].
  rewrite Hempty in Hb. set_solver.
Qed.

Lemma evicted_refs a' rs' : ds_recent_refs_by_authority d' !! N.to_nat a' = Some rs' →
  ∃ rs0, ds_recent_refs_by_authority d !! N.to_nat a' = Some rs0 ∧ last_round rs0 = last_round rs' ∧
    ∀ r, r ∈ rs' ↔ r ∈ rs0 ∧ r ∉ evicted.
Proof.
  simpl. rewrite list_lookup_insert. case_decide as Hd.
  - destruct Hd as [<-%(inj N.to_nat) _]. intros [= <-]. exists rs. split; [done|]. split; [|set_solver].
    apply (anti_symm N.le); [|apply last_round_mono; set_solver].
    destruct (decide (rs = ∅)) as [->|Hne]; [rewrite last_round_empty; lia|].
    destruct (last_round_elem rs Hne) as (r & Hr & Heq). rewrite <-Heq. apply last_round_ge.
    apply elem_of_difference. split; [done|]. rewrite elem_of_list_to_set, Hev.
    pose proof (eviction_below_last a rs e Hrs Hne He). lia.
  - intros Hrs'. exists rs'. split; [done|]. split; [done|]. intros r. split; [|tauto]. intros Hr. split; [done|].
    rewrite Hev. apply (ok_refs _ Hok _ _ Hrs') in Hr as [_ Ha']. intros (_ & Ha & _). apply Hd.
    split; [congruence|]. by eapply lookup_lt_Some.
Qed.

(** Whatever an author's cached blocks reach, the ones kept still reach. *)
Lemma evicted_reach a' x :
  (∃ r i, ds_recent_blocks d !! r = Some i ∧ ref_author r = a' ∧ x <= ref_round r) →
  ∃ r i, ds_recent_blocks d' !! r = Some i ∧ ref_author r = a' ∧ x <= ref_round r.
Proof.
  intros (r & i & Hi & Ha & Hx). destruct (decide (a' = a)) as [->|Hne].
  - assert (r ∈ rs) as Hr by (apply (ok_refs _ Hok _ _ Hrs); eauto).
    destruct (last_round_elem rs) as (r' & Hr' & Heq); [set_solver|].
    pose proof (last_round_ge rs r Hr). pose proof (eviction_below_last a rs e Hrs ltac:(set_solver) He).
    apply (ok_refs _ Hok _ _ Hrs) in Hr' as [[i' Hi'] Ha']. exists r', i'. rewrite evicted_recent.
    split_and!; [done|lia|done|lia].
  - exists r, i. rewrite evicted_recent. split_and!; [done|naive_solver|done..].
Qed.

Lemma evicted_eviction_round a' : (N.to_nat a' < length (ds_evicted_rounds d'))%nat →
  calculate_authority_eviction_round d' a' = calculate_authority_eviction_round d a'.
Proof.
  simpl. rewrite length_insert, (ok_evicted_length _ Hok). intros Ha.
  destruct (lookup_lt_is_Some_2 (ds_recent_refs_by_authority d') (N.to_nat a')) as [rs' Hrs'].
  { simpl. by rewrite length_insert, (ok_refs_length _ Hok). }
  destruct (lookup_lt_is_Some_2 (ds_last_committed_rounds d) (N.to_nat a')) as [lc Hlc].
  { by rewrite (ok_rounds_length _ Hok). }
  destruct (evicted_refs a' rs' Hrs') as (rs0 & Hrs0 & Hlast & _).
  rewrite (eviction_round_eq d a' rs0 lc Hrs0 Hlc), (eviction_round_eq d' a' rs' lc Hrs' Hlc). by rewrite Hlast.
Qed.

Lemma dag_ok_evicted : dag_ok d'.
Proof.
  pose proof (valid_of_lookup _ _ _ (ok_refs_length _ Hok) Hrs) as Ha.
  destruct (valid_lookup d _ a (ok_evicted_length _ Hok) Ha) as [e0 He0]. pose proof (ok_evicted _ Hok _ _ _ He0 He) as Hle.
  split; try by apply Hok.
  - simpl. rewrite length_insert. apply Hok.
  - simpl. rewrite length_insert. apply Hok.
  - intros r i [Hi _]%evicted_recent. by apply (ok_recent _ Hok).
  - intros r i [Hi _]%evicted_recent. by apply (ok_storable _ Hok r i).
  - intros a' rs' (rs0 & Hrs0 & _ & Hin)%evicted_refs r. rewrite Hin, Hev, (ok_refs _ Hok _ _ Hrs0). split.
    + intros [[[i Hi] Ha'] Hn]. split; [|done]. exists i. apply evicted_recent. split; [done|]. intros ?. apply Hn.
      split; [by eexists|done].
    + intros [[i [Hi Hn]%evicted_recent] Ha']. split; [eauto|]. tauto.
  - intros b Hb. simpl in Hb. rewrite Hempty in Hb. set_solver.
  - intros r i [Hi _]%evicted_recent. by apply (ok_persist _ Hok).
  - intros r b e1 Hb He1 Hlt. simpl in He1. rewrite list_lookup_insert in He1. case_decide as Hd.
    + injection He1 as <-. destruct Hd as [Heq%(inj N.to_nat) _]. rewrite Heq in He0.
      destruct (ok_cached _ Hok r b e0 Hb He0) as [i Hi]; [lia|]. exists i. apply evicted_recent. split; [done|lia].
    + destruct (ok_cached _ Hok r b e1 Hb He1 Hlt) as [i Hi]. exists i. apply evicted_recent. split; [done|].
      intros [<- _]. apply Hd. split; [done|]. by eapply lookup_lt_Some.
  - intros r b Hb. apply evicted_reach. by apply (ok_last _ Hok r b).
  - intros a' e1 e2 He1. rewrite evicted_eviction_round by by eapply lookup_lt_Some. simpl in He1.
    rewrite list_lookup_insert in He1. case_decide as Hd; [|by apply (ok_evicted _ Hok)].
    destruct Hd as [<-%(inj N.to_nat) _]. rewrite He. intros [= <-]. by simplify_eq.
  - intros a' r Hr Hpos. apply evicted_reach. by apply (ok_committed_known _ Hok).
  - intros r i a' [Hi _]%evicted_recent Hin. rewrite evicted_lookup. by apply (ok_complete _ Hok r i).
  - intros r i [Hi _]%evicted_recent. by apply (ok_highest _ Hok r i).
  - apply (clock_inv_same d); try done; [apply (ok_clock _ Hok)|apply evicted_lookup|apply Hok].
Qed.
End evict.

End with_ok.

(** What eviction leaves alone. *)
Record same_dag d d' : Prop := {
  sd_lookup r : lookup_block d' r = lookup_block d r;
  sd_context : ds_context d' = ds_context d;
  sd_last : ds_last_commit d' = ds_last_commit d;
  sd_store : ds_store d' = ds_store d;
  sd_blocks : ds_blocks_to_write d' = ds_blocks_to_write d;
  sd_commits : ds_commits_to_write d' = ds_commits_to_write d;
  sd_infos : ds_commit_info_to_write d' = ds_commit_info_to_write d;
  sd_recent r i : ds_recent_blocks d' !! r = Some i → ds_recent_blocks d !! r = Some i;
  sd_round a : is_valid_index (committee (ds_context d)) a → calculate_authority_eviction_round d' a = calculate_authority_eviction_round d a;
  sd_kept r i e : ds_recent_blocks d !! r = Some i → is_valid_index (committee (ds_context d)) (ref_author r) →
    calculate_authority_eviction_round d (ref_author r) = Ret e → e < ref_round r → ds_recent_blocks d' !! r = Some i;
}.

#[local] Instance same_dag_preorder : PreOrder same_dag.
Proof.
  split; [done|]. intros d1 d2 d3 [Hl1 Hc1 ? ? ? ? ? ? Hr1 Hk1] [Hl2 Hc2 ? ? ? ? ? ? Hr2 Hk2].
  split; [|congruence..|auto| |].
  - intros r. by rewrite Hl2, Hl1.
  - intros a Ha. rewrite Hr2 by by rewrite Hc1. by apply Hr1.
  - intros r i e Hi Ha He Hlt. apply (Hk2 r i e); [by apply (Hk1 r i e)|by rewrite Hc1|by rewrite Hr1|done].
Qed.

Lemma evict_all_spec d : dag_ok d → ds_blocks_to_write d = [] →
  ∃ d', foldM (λ d '((a, _) : AuthorityIndex * Authority), evict_authority d a) d
          (authorities (committee (ds_context d))) = Ret d' ∧ dag_ok d' ∧ same_dag d d'.
Proof.
  intros Hok Hempty.
  destruct (foldM_inv (λ d', dag_ok d' ∧ same_dag d d')
    (λ d '((a, _) : AuthorityIndex * Authority), evict_authority d a) (authorities (committee (ds_context d))) d)
    as (d' & ? & ? & ?); [|by split|by eauto].
  intros d1 [a x] Hx%authorities_valid [Hok1 Hsame]. rewrite <-(sd_context _ _ Hsame) in Hx.
  assert (ds_blocks_to_write d1 = []) as Hempty1 by by rewrite (sd_blocks _ _ Hsame).
  destruct (evict_authority_ret d1 Hok1 a Hx) as (rs & evicted & e & Hrs & He & Hev & ->).
  eexists. split; [done|]. split; [by apply dag_ok_evicted|]. etrans; [exact Hsame|]. split; try done.
  - intros r. by apply evicted_lookup.
  - intros r i. rewrite evicted_recent by done. tauto.
  - intros a' Ha'. apply (evicted_eviction_round d1 Hok1 a rs evicted e); try done. simpl.
    rewrite length_insert, (ok_evicted_length _ Hok1). apply Is_true_true, N.ltb_lt in Ha'. lia.
  - intros r i e' Hi Ha' He' Hlt. apply evicted_recent; [done..|]. split; [done|]. intros [Heq Hle]. rewrite Heq, He in He'. injection He' as <-. lia.
Qed.

Lemma flush_spec d : dag_ok d →
  ∃ d', flush d = Ret d' ∧ dag_ok d' ∧ (∀ r, lookup_block d' r = lookup_block d r) ∧
    (∀ r i, ds_recent_blocks d' !! r = Some i → ds_recent_blocks d !! r = Some i) ∧
    ds_last_commit d' = ds_last_commit d ∧ ds_context d' = ds_context d ∧
    ds_blocks_to_write d' = [] ∧ ds_commits_to_write d' = [] ∧ ds_commit_info_to_write d' = [] ∧
    (∀ r i e, ds_recent_blocks d !! r = Some i → calculate_authority_eviction_round d (ref_author r) = Ret e → e < ref_round r →
      ds_recent_blocks d' !! r = Some i) ∧
    ((ds_blocks_to_write d = [] ∧ ds_commits_to_write d = [] ∧ ds_store d' = ds_store d) ∨
     ∃ metrics, store_view (ds_store d') = view_write (store_view (ds_store d))
       (mk_batch (ds_blocks_to_write d) (ds_commits_to_write d) (ds_commit_info_to_write d) metrics)).
Proof.
  intros Hok. unfold flush. case_bool_decide as Hb; case_bool_decide as Hc; cbn [andb].
  { eexists. split; [done|]. split_and!; try done; [|by left].
    replace (set_to_write d [] [] []) with (written d (ds_store d) (ds_scoring_metrics d)) by done.
    apply (dag_ok_written d Hok _ _ (mk_batch [] [] [] [])); try apply Hok; [done|]. by destruct (store_view _). }
  all: change (flush_metrics (set_to_write d [] [] [])) with (flush_metrics d);
    destruct (flush_metrics_ret d Hok) as (m & w & -> & Hm & Hw); cbn [mbind outcome_bind];
    set (batch := mk_batch _ _ _ w);
    destruct (store_write_view (ds_store d) batch (ok_store _ Hok)) as (store & Hst & Hsok & Hview);
    [split; simpl; [intros b (i & Hi & <-)%(ok_written _ Hok); split; [by apply (ok_recent _ Hok) in Hi as (_ & ? & _)|by eapply (ok_storable _ Hok)]
                   |apply (ok_commits _ Hok)|apply (ok_infos _ Hok)|exact Hw]|];
    change (ds_store (set_to_write d [] [] [])) with (ds_store d); rewrite Hst; cbn [unwrapM unwrap mbind outcome_bind];
    destruct (dag_ok_written d Hok store m batch) as [Hok' Hl]; try done;
    destruct (evict_all_spec (written d store m) Hok' eq_refl) as (d' & Heq & Hok'' & [? Hctx Hlast Hstore Hbl Hcm Hin Hrec _ Hkept]);
    exists d'; split; [exact Heq|]; split; [done|]; split; [intros r; by rewrite <-Hl|]; split; [exact Hrec|];
    split_and!; try done;
    [intros r i e Hi He Hlt; apply (Hkept r i e); try done; destruct (ok_recent _ Hok _ _ Hi) as (<- & _ & _ & Hbo); apply Hbo|right; exists w; by rewrite Hstore].
Qed.
(** After a flush every cached block is stored. *)
Lemma flush_persists d : dag_ok d → ∀ d',
  ((ds_blocks_to_write d = [] ∧ ds_commits_to_write d = [] ∧ ds_store d' = ds_store d) ∨
   ∃ metrics, store_view (ds_store d') = view_write (store_view (ds_store d))
     (mk_batch (ds_blocks_to_write d) (ds_commits_to_write d) (ds_commit_info_to_write d) metrics)) →
  ∀ r i, ds_recent_blocks d !! r = Some i → stored d' r = Some (bi_block i).
Proof.
  intros Hok d' Hst r i Hi. unfold stored. destruct Hst as [(Hnb & _ & ->)|(metrics & ->)].
  - destruct (ok_persist _ Hok _ _ Hi) as [Hin|Hin]; [|done]. rewrite Hnb in Hin. set_solver.
  - destruct (ok_recent _ Hok _ _ Hi) as (Href & _). destruct (ok_persist _ Hok _ _ Hi) as [Hin|Hin]; simpl.
    + rewrite <-Href. apply insert_blocks_lookup; [apply Hok|done].
    + destruct (decide (r ∈ reference <$> ds_blocks_to_write d)) as [(b & -> & Hb')%list_elem_of_fmap|Hn].
      * destruct (ok_written _ Hok _ Hb') as (i' & Hi' & <-). simplify_eq. apply insert_blocks_lookup; [apply Hok|done].
      * by rewrite insert_blocks_lookup_ne.
Qed.
End dag_ops.
