(* ===== verification/SubDag.v ===== *)
(** * SubDag: what the linearizer commits

    The walk of [linearize_sub_dag] over the causal history of a leader collects
    exactly the blocks that are reachable from it through blocks that are not
    committed yet and above the garbage collection round, each one once, and
    marks them as committed. *)
From S2P Require Import Prelude Committee Block StakeAggregator ThresholdClock Commit Error BlockVerifier Store.
From S2P Require Import ScoringMetrics LeaderScoring DagState LeaderSchedule Linearizer BaseCommitter CommitRule.
From S2P Require Import CommitterSpec DagInv DagOps.
Local Open Scope N_scope.
Local Open Scope rust_scope.

Section sub_dag.
Context {St : Type} `{StoreLaws St}.
Implicit Type d : DagState St.

(** The block [r] of the cache when it is above the garbage collection round and
    neither committed nor in [X]. *)
Definition uncommitted d (X : gset BlockRef) (r : BlockRef) : option VerifiedBlock :=
  i ← ds_recent_blocks d !! r;
  if (gc_round d <? ref_round r) && negb (bi_committed i) && negb (bool_decide (r ∈ X)) then Some (bi_block i) else None.

(** The blocks that the walk pushes when it visits [x]. *)
Definition next_blocks d (X : gset BlockRef) (x : VerifiedBlock) : list VerifiedBlock :=
  omap (uncommitted d X) (ancestors x).

(** The sub-dag of the leader [l]. *)
Inductive in_sub_dag d (l : BlockRef) : BlockRef → Prop :=
| sub_leader : in_sub_dag d l l
| sub_ancestor r i a b : in_sub_dag d l r → ds_recent_blocks d !! r = Some i → a ∈ ancestors (bi_block i) →
    uncommitted d ∅ a = Some b → in_sub_dag d l a.

Lemma uncommitted_Some d X r b : uncommitted d X r = Some b ↔
  ∃ i, ds_recent_blocks d !! r = Some i ∧ bi_block i = b ∧ gc_round d < ref_round r ∧ bi_committed i = false ∧ r ∉ X.
Proof.
  unfold uncommitted. rewrite bind_Some. split.
  - intros (i & Hi & Hb). exists i. destruct (N.ltb_spec (gc_round d) (ref_round r)); [|done].
    destruct (bi_committed i) eqn:Hc; [done|]. case_bool_decide; simpl in Hb; [done|]. by simplify_eq.
  - intros (i & Hi & <- & Hr & Hc & HX). exists i. split; [done|].
    by rewrite (proj2 (N.ltb_lt _ _) Hr), Hc, bool_decide_eq_false_2.
Qed.

Section walk.
Context d (Hok : dag_ok d) (Hgc : gc_enabled d = true).

(** Above the garbage collection round everything known is cached. *)
Lemma cached_above_gc r : is_Some (lookup_block d r) → gc_round d < ref_round r → is_Some (ds_recent_blocks d !! r).
Proof.
  intros [b Hb] Hr. unfold lookup_block, get_cached in Hb. destruct (N.eqb_spec (ref_round r) GENESIS_ROUND).
  { unfold GENESIS_ROUND in *. lia. }
  destruct (ds_recent_blocks d !! r) eqn:Hi; [by eexists|]. destruct (ok_stored _ Hok _ _ Hb) as [_ Ha].
  destruct (valid_lookup d _ _ (ok_evicted_length _ Hok) Ha) as [e He].
  destruct (refs_valid d Hok _ Ha) as (rs & Hrs & _). destruct (valid_lookup d _ _ (ok_rounds_length _ Hok) Ha) as [lc Hlc].
  pose proof (ok_evicted _ Hok _ _ _ He (eviction_round_eq d _ rs lc Hrs Hlc)) as Hle. rewrite Hgc in Hle.
  rewrite <-Hi. apply (ok_cached _ Hok _ _ _ Hb He). unfold gc_eviction_round in Hle. lia.
Qed.

Lemma ancestor_cached r i a : ds_recent_blocks d !! r = Some i → a ∈ ancestors (bi_block i) → gc_round d < ref_round a →
  is_Some (ds_recent_blocks d !! a).
Proof.
  intros Hi Ha Hr. apply cached_above_gc; [|done]. destruct (ok_complete _ Hok _ _ _ Hi Ha) as [?|[_ ?]]; [done|lia].
Qed.

(** A block of the cache, not committed, with its reference. *)
Definition fresh_block (x : VerifiedBlock) : Prop :=
  ∃ i, ds_recent_blocks d !! reference x = Some i ∧ bi_block i = x ∧ bi_committed i = false ∧ gc_round d < round x.

Lemma uncommitted_fresh X r b : uncommitted d X r = Some b → fresh_block b ∧ reference b = r ∧ r ∉ X.
Proof.
  intros (i & Hi & <- & Hr & Hc & HX)%uncommitted_Some. destruct (ok_recent _ Hok _ _ Hi) as (Href & _).
  split; [|done]. exists i. rewrite Href. split_and!; [done..|]. by rewrite <-Href in Hr.
Qed.

Lemma next_blocks_refs X x : reference <$> next_blocks d X x `sublist_of` ancestors x.
Proof.
  unfold next_blocks. induction (ancestors x) as [|a l IH]; [done|]. cbn [omap list_omap].
  destruct (uncommitted d X a) as [b|] eqn:Hb; [|by constructor].
  rewrite fmap_cons. apply uncommitted_fresh in Hb as (_ & -> & _). by constructor.
Qed.

(** The loop that marks the blocks it pushes. *)
Lemma mark_blocks bs : ∀ X buffer, NoDup (reference <$> bs) →
  (∀ b, b ∈ bs → fresh_block b ∧ reference b ∉ X) →
  foldM (λ '((d, buffer) : DagState St * list VerifiedBlock) (b : VerifiedBlock),
    '(d, fresh) ← set_committed d (reference b);
    _ ← assert fresh "Block attempted to be committed twice";
    Ret (d, b :: buffer)) (mark_committed d X, buffer) bs =
  Ret (mark_committed d (list_to_set (reference <$> bs) ∪ X), reverse bs ++ buffer).
Proof.
  induction bs as [|b bs IH]; intros X buffer Hnd Hbs; cbn [foldM].
  { cbn [fmap list_fmap list_to_set]. by rewrite (left_id_L ∅ (∪)). }
  rewrite fmap_cons in Hnd. apply NoDup_cons in Hnd as [Hb Hnd].
  destruct (Hbs b ltac:(left)) as ((i & Hi & _ & Hc & _) & HX). rewrite (set_committed_mark d Hok X _ i) by done.
  cbn [assert mbind outcome_bind]. rewrite IH; [|done|].
  - rewrite reverse_cons, <-app_assoc, fmap_cons, list_to_set_cons. do 3 f_equal. set_solver.
  - intros b' Hb'. destruct (Hbs b' ltac:(by right)) as [? ?]. split; [done|]. rewrite not_elem_of_union, not_elem_of_singleton.
    split; [|done]. intros Heq. apply Hb. rewrite <-Heq. by apply list_elem_of_fmap_2.
Qed.

Lemma next_blocks_fresh X x b : b ∈ next_blocks d X x → fresh_block b ∧ reference b ∈ ancestors x ∧ reference b ∉ X.
Proof.
  intros (r & Hr & Hb)%list_elem_of_omap. apply uncommitted_fresh in Hb as (? & <- & ?). done.
Qed.

Lemma next_blocks_NoDup X x : fresh_block x → NoDup (reference <$> next_blocks d X x).
Proof.
  intros (i & Hi & <- & _). eapply sublist_NoDup; [|apply next_blocks_refs].
  destruct (ok_recent _ Hok _ _ Hi) as (_ & _ & _ & Hb). apply (NoDup_fmap_1 ref_author), Hb.
Qed.

(** One iteration of the walk. *)
Lemma walk_step fuel X x buffer to_commit : fresh_block x →
  linearize_v2 (S fuel) (mark_committed d X) (gc_round d) (x :: buffer) to_commit =
  linearize_v2 fuel (mark_committed d (list_to_set (reference <$> next_blocks d X x) ∪ X)) (gc_round d)
    (reverse (next_blocks d X x) ++ buffer) (to_commit ++ [x]).
Proof.
  intros (i & Hi & Hix & Hc & Hr). cbn [linearize_v2].
  assert (∀ a, a ∈ ancestors x → gc_round d < ref_round a → ∃ ia, ds_recent_blocks d !! a = Some ia ∧ reference (bi_block ia) = a) as Hanc.
  { intros a Ha Hlt. subst x. destruct (ancestor_cached _ _ a Hi Ha Hlt) as [ia Hia]. exists ia. split; [done|].
    by destruct (ok_recent _ Hok _ _ Hia). }
  rewrite (filterM_ret _ (λ r, bool_decide (is_Some (uncommitted d X r)))).
  2: { intros a Ha. destruct (N.ltb_spec (gc_round d) (ref_round a)) as [Hlt|Hge].
       - destruct (Hanc a Ha Hlt) as (ia & Hia & _). unfold is_committed. rewrite mark_lookup, Hia. cbn. f_equal.
         unfold uncommitted. rewrite Hia. cbn. rewrite (proj2 (N.ltb_lt _ _) Hlt). cbn [andb].
         destruct (bi_committed ia), (bool_decide (a ∈ X)); done.
       - f_equal. symmetry. apply bool_decide_eq_false_2. intros [b (? & _ & _ & ? & _)%uncommitted_Some]. lia. }
  cbn [mbind outcome_bind]. rewrite get_blocks_ret by (apply (dag_ok_mark d Hok X)). cbn [mbind outcome_bind].
  rewrite (mapM_ret _ (default x)).
  2: { intros o (r & -> & [Hu%bool_decide_unpack _]%list_elem_of_filter)%list_elem_of_fmap. destruct Hu as [b Hb].
       rewrite mark_lookup_block. apply uncommitted_Some in Hb as (ia & Hia & _). by rewrite (recent_lookup d Hok _ _ Hia). }
  cbn [mbind outcome_bind].
  assert (default x <$> (lookup_block (mark_committed d X) <$> filter (λ r, bool_decide (is_Some (uncommitted d X r))) (ancestors x)) =
    next_blocks d X x) as ->.
  { unfold next_blocks. induction (ancestors x) as [|a l IH]; [done|]. rewrite filter_cons. cbn [omap list_omap].
    specialize (IH ltac:(intros; apply Hanc; [by right|done])). destruct (uncommitted d X a) as [b|] eqn:Hb.
    - rewrite decide_True by by apply bool_decide_pack. rewrite !fmap_cons, IH. f_equal. rewrite mark_lookup_block.
      apply uncommitted_Some in Hb as (ia & Hia & <- & _). by rewrite (recent_lookup d Hok _ _ Hia).
    - rewrite decide_False; [done|]. intros Hx%bool_decide_unpack. by destruct Hx. }
  rewrite mark_blocks; [done|apply next_blocks_NoDup; by exists i|].
  intros b Hb%next_blocks_fresh. tauto.
Qed.

(** ** The whole walk *)

Record walk_inv (l : BlockRef) (X : gset BlockRef) (buffer to_commit : list VerifiedBlock) : Prop := {
  wi_refs : X = list_to_set (reference <$> to_commit ++ buffer);
  wi_nodup : NoDup (reference <$> to_commit ++ buffer);
  wi_fresh x : x ∈ to_commit ++ buffer → fresh_block x ∧ in_sub_dag d l (reference x);
  wi_closed (x : VerifiedBlock) a b : x ∈ to_commit → a ∈ ancestors x → uncommitted d ∅ a = Some b → a ∈ X;
  wi_leader : l ∈ X;
}.

Lemma uncommitted_empty X r b : uncommitted d ∅ r = Some b → r ∈ X ∨ uncommitted d X r = Some b.
Proof.
  intros (i & Hi & Hb & Hr & Hc & _)%uncommitted_Some. destruct (decide (r ∈ X)); [by left|right].
  apply uncommitted_Some. eauto 10.
Qed.

Lemma uncommitted_mono X r b : uncommitted d X r = Some b → uncommitted d ∅ r = Some b.
Proof. rewrite !uncommitted_Some. set_solver. Qed.

Lemma walk_inv_step l X x buffer to_commit : walk_inv l X (x :: buffer) to_commit →
  walk_inv l (list_to_set (reference <$> next_blocks d X x) ∪ X) (reverse (next_blocks d X x) ++ buffer) (to_commit ++ [x]).
Proof.
  intros [HX Hnd Hfr Hcl Hl]. assert (fresh_block x ∧ in_sub_dag d l (reference x)) as [Hx Hsub] by (apply Hfr; set_solver).
  assert ((to_commit ++ [x]) ++ reverse (next_blocks d X x) ++ buffer ≡ₚ next_blocks d X x ++ to_commit ++ x :: buffer) as Hperm.
  { rewrite reverse_Permutation, (app_assoc (to_commit ++ [x])), (Permutation_app_comm (to_commit ++ [x])), <-!app_assoc. done. }
  assert (∀ r, r ∈ X ↔ r ∈ reference <$> to_commit ++ x :: buffer) as HX' by (intros r; rewrite HX; apply elem_of_list_to_set).
  clear HX. split.
  - apply set_eq. intros r. rewrite elem_of_union, !elem_of_list_to_set, Hperm, fmap_app, elem_of_app. by rewrite <-HX'.
  - rewrite Hperm, fmap_app. apply NoDup_app. split_and!; [by apply next_blocks_NoDup| |done].
    intros r (b & -> & (_ & _ & Hb)%next_blocks_fresh)%list_elem_of_fmap Hr. apply Hb. by apply HX'.
  - intros y. rewrite Hperm, elem_of_app. intros [Hy|Hy]; [|by apply Hfr]. pose proof (next_blocks_fresh X x y Hy) as (Hf & Ha & _).
    split; [done|]. destruct Hx as (i & Hi & Hix & _). apply list_elem_of_omap in Hy as (r & Hr & Hb).
    pose proof (uncommitted_fresh _ _ _ Hb) as (_ & Href & _). subst r.
    eapply (sub_ancestor d l _ i); [done..|by rewrite Hix|by eapply uncommitted_mono].
  - intros y a b Hy Ha Hb. apply elem_of_app in Hy as [Hy|Hy]; [apply elem_of_union_r; by eapply Hcl|].
    apply list_elem_of_singleton in Hy as ->. destruct (uncommitted_empty X a b Hb) as [?|Hb']; [set_solver|].
    apply elem_of_union_l, elem_of_list_to_set, list_elem_of_fmap. exists b. split; [by apply uncommitted_fresh in Hb' as (_ & ? & _)|].
    apply list_elem_of_omap. eauto.
  - set_solver.
Qed.
Lemma walk_inv_size l X buffer to_commit : walk_inv l X buffer to_commit →
  (length (to_commit ++ buffer) <= size (ds_recent_blocks d))%nat.
Proof.
  intros [_ Hnd Hfr _ _]. rewrite <-(length_fmap reference), <-size_dom, <-(size_list_to_set (C := gset BlockRef)) by done.
  apply subseteq_size. intros r (x & -> & Hx)%elem_of_list_to_set%list_elem_of_fmap.
  destruct (Hfr x Hx) as [(i & Hi & _) _]. by apply elem_of_dom_2 in Hi.
Qed.

(** The walk ends: it visits a cached block at most once. *)
Lemma walk_spec l fuel : ∀ X buffer to_commit, walk_inv l X buffer to_commit →
  (size (ds_recent_blocks d) < fuel + length to_commit)%nat →
  ∃ bs, linearize_v2 fuel (mark_committed d X) (gc_round d) buffer to_commit =
      Ret (mark_committed d (list_to_set (reference <$> bs)), bs) ∧
    walk_inv l (list_to_set (reference <$> bs)) [] bs.
Proof.
  induction fuel as [|fuel IH]; intros X [|x buffer] to_commit Hinv Hfuel.
  1,3: exists to_commit; pose proof (wi_refs _ _ _ _ Hinv) as HX; rewrite app_nil_r in HX; rewrite <-HX; by split.
  - pose proof (walk_inv_size _ _ _ _ Hinv) as Hsz. rewrite length_app in Hsz. simpl in Hsz, Hfuel. lia.
  - rewrite walk_step by (apply (wi_fresh _ _ _ _ Hinv x); set_solver).
    apply IH; [by apply walk_inv_step|]. rewrite length_app. simpl. lia.
Qed.

Lemma walk_inv_end l X bs : walk_inv l X [] bs →
  NoDup (reference <$> bs) ∧ (∀ b, b ∈ bs → fresh_block b) ∧ ∀ r, r ∈ reference <$> bs ↔ in_sub_dag d l r.
Proof.
  intros [HX Hnd Hfr Hcl Hl]. rewrite app_nil_r in *. split; [done|]. split; [intros b Hb; by apply Hfr|].
  assert (∀ r, r ∈ X ↔ r ∈ reference <$> bs) as HX' by (intros r; rewrite HX; apply elem_of_list_to_set).
  intros r. split.
  - intros (b & -> & Hb)%list_elem_of_fmap. by apply Hfr.
  - induction 1 as [|r i a b Hr IH Hi Ha Hb]; [by apply HX'|]. apply HX'.
    apply list_elem_of_fmap in IH as (x & -> & Hx). apply (Hcl x a b Hx); [|done].
    destruct (Hfr x Hx) as [(i' & Hi' & <- & _) _]. by simplify_eq.
Qed.

Lemma in_sub_dag_round l r : in_sub_dag d l r → ref_round r <= ref_round l.
Proof.
  induction 1 as [|r i a b Hr IH Hi Ha Hb]; [done|]. destruct (ok_recent _ Hok _ _ Hi) as (Href & _ & _ & Hbo).
  pose proof (bo_round _ _ Hbo a Ha) as Hlt. rewrite <-Href in IH. simpl in IH. lia.
Qed.

(** [linearize_sub_dag] commits exactly the sub-dag of a leader that is not
    committed yet. *)
Lemma linearize_sub_dag_spec fuel leader rounds :
  consensus_linearize_subdag_v2 (protocol_config (ds_context d)) = true → fresh_block leader →
  (size (ds_recent_blocks d) < fuel)%nat →
  ∃ bs, linearize_sub_dag fuel d leader rounds = Ret (mark_committed d (list_to_set (reference <$> bs)), bs) ∧
    StronglySorted (λ a b, sub_dag_le a b) bs ∧ NoDup (reference <$> bs) ∧ (∀ b, b ∈ bs → fresh_block b) ∧
    ∀ r, r ∈ reference <$> bs ↔ in_sub_dag d (reference leader) r.
Proof.
  intros Hv2 Hl Hfuel. unfold linearize_sub_dag. rewrite Hv2. pose proof Hl as (i & Hi & Hil & Hc & Hr).
  pose proof (set_committed_mark d Hok ∅ _ i Hi Hc ltac:(set_solver)) as Hset. rewrite (mark_empty d Hok), (right_id_L ∅ (∪)) in Hset.
  rewrite Hset. cbn [assert mbind outcome_bind].
  destruct (walk_spec (reference leader) fuel {[reference leader]} [leader] []) as (bs & -> & Hend).
  { split; simpl; [set_solver|apply NoDup_singleton| |set_solver|set_solver].
    intros x ->%list_elem_of_singleton. split; [done|constructor]. }
  { simpl. lia. }
  cbn [mbind outcome_bind]. apply walk_inv_end in Hend as (Hnd & Hfr & Hin).
  change (gc_enabled (mark_committed d (list_to_set (reference <$> bs)))) with (gc_enabled d). rewrite Hgc.
  assert (forallb (λ b : VerifiedBlock, gc_round d <? round b) bs = true) as ->.
  { apply forallb_forall. intros b Hb%list_elem_of_In. destruct (Hfr b Hb) as (? & _ & _ & _ & ?). by apply N.ltb_lt. }
  cbn [assert mbind outcome_bind]. pose proof (sort_sub_dag_blocks_Permutation bs) as Hperm.
  exists (sort_sub_dag_blocks bs). split_and!.
  - do 3 f_equal. apply set_eq. intros r. by rewrite !elem_of_list_to_set, Hperm.
  - apply sort_sub_dag_blocks_sorted.
  - by rewrite Hperm.
  - intros b. rewrite Hperm. apply Hfr.
  - intros r. by rewrite Hperm.
Qed.
End walk.
End sub_dag.
