(* ===== verification/TestDag.v ===== *)
(** * TestDag: concrete DAG states

    A four-authority DAG over the in-memory store, for the witnesses: boolean
    checks of the hypotheses that the theorems make of blocks, universes and
    accepted sequences, and the states that accepting blocks leads to. *)
From S2P Require Import Prelude Committee Block StakeAggregator ThresholdClock Commit Error BlockVerifier Store.
From S2P Require Import MemStore ScoringMetrics LeaderScoring DagState BaseCommitter CommitRule CommitterSpec DagInv.
From S2P Require Import DagOps.
Local Open Scope N_scope.
Local Open Scope rust_scope.

(** ** Checks *)

Definition block_ok_b (c : Committee) (b : Block) : bool :=
  is_valid_index c (author b) &&
  forallb (λ a, is_valid_index c (ref_author a) && (ref_round a <? round b)) (ancestors b) &&
  bool_decide (NoDup (ref_author <$> ancestors b)) &&
  reached_quorum c (set_stake c (ref_authors_at (round b - 1) (ancestors b))).

Lemma block_ok_b_spec c b : block_ok_b c b = true → block_ok c b.
Proof.
  unfold block_ok_b. rewrite !andb_true_iff, forallb_forall, bool_decide_eq_true. intros [[[Ha Hf] Hn] Hq].
  assert (∀ a, a ∈ ancestors b → is_valid_index c (ref_author a) = true ∧ ref_round a < round b) as Hanc.
  { intros a Hin%list_elem_of_In. specialize (Hf a Hin). by rewrite andb_true_iff, N.ltb_lt in Hf. }
  split; [by rewrite Ha|intros a Hin; apply Is_true_true; by apply Hanc|intros a Hin; by apply Hanc|done|by rewrite Hq].
Qed.

Definition ref_ok_b (r : BlockRef) : bool :=
  (ref_round r <? U32_MAX) && (ref_author r <=? U32_MAX) && (ref_digest r <=? DIGEST_MAX).

Lemma ref_ok_b_spec r : ref_ok_b r = true → ref_ok r.
Proof. unfold ref_ok_b, ref_ok. rewrite !andb_true_iff, N.ltb_lt, !N.leb_le. tauto. Qed.

Definition votes_ok_b (b : VerifiedBlock) : bool :=
  forallb (λ v, (commit_ref_index v <=? U32_MAX) && (commit_ref_digest v <=? DIGEST_MAX)) (commit_votes b).

Lemma votes_ok_b_spec b : votes_ok_b b = true → votes_ok b.
Proof.
  unfold votes_ok_b, votes_ok. rewrite forallb_forall, Forall_forall. intros Hall v Hv%list_elem_of_In%Hall.
  by rewrite andb_true_iff, !N.leb_le in Hv.
Qed.

Section accept.
Context {St : Type} `{StoreLaws St}.
Implicit Type d : DagState St.

Definition cached_b d (a : BlockRef) : bool :=
  match get_cached d a with Some (Some _) => true | _ => false end.

Definition acceptable_b (now : N) d (b : VerifiedBlock) : bool :=
  (0 <? round b) && block_ok_b (committee (ds_context d)) b && ref_ok_b (reference b) && votes_ok_b b && (timestamp_ms b <=? now) &&
  (negb (author b =? own_index (ds_context d)) ||
   forallb (λ kv : BlockRef * BlockInfo, negb (bool_decide (ref_slot kv.1 = slot b))) (map_to_list (ds_recent_blocks d))) &&
  forallb (cached_b d) (ancestors b).

Lemma acceptable_b_spec now d b : store_accepts_block St b → acceptable_b now d b = true → acceptable d now b.
Proof.
  intros Hst. unfold acceptable_b. rewrite !andb_true_iff, orb_true_iff, !forallb_forall, N.ltb_lt, N.leb_le, negb_true_iff, N.eqb_neq.
  intros [[[[[[Hr Hb%block_ok_b_spec] Href%ref_ok_b_spec] Hv%votes_ok_b_spec] Ht] Hown] Hanc]. split; try done; [by left| |].
  - intros r i Ha Hi Hs. destruct Hown as [?|Hall]; [done|].
    specialize (Hall (r, i)). rewrite <-list_elem_of_In, elem_of_map_to_list in Hall. specialize (Hall Hi).
    by rewrite bool_decide_eq_true_2 in Hall.
  - intros a Ha%list_elem_of_In. left. specialize (Hanc a Ha). unfold cached_b in Hanc. unfold lookup_block.
    destruct (get_cached d a) as [[]|]; done.
Qed.

(** Accepts blocks one after the other, checking each. *)
Fixpoint accept_checked (now : N) d (bs : list VerifiedBlock) : option (DagState St) :=
  match bs with
  | [] => Some d
  | b :: bs =>
    if acceptable_b now d b then
      match accept_block now now d b with Ret d' => accept_checked now d' bs | Panic _ => None end
    else None
  end.

Lemma accept_checked_ok (Hst : ∀ b, store_accepts_block St b) now bs : ∀ d d', dag_ok d → accept_checked now d bs = Some d' →
  accept_blocks now now d bs = Ret d' ∧ dag_ok d' ∧ ds_context d' = ds_context d ∧ ds_last_commit d' = ds_last_commit d ∧
  ds_genesis d' = ds_genesis d ∧ ds_store d' = ds_store d.
Proof.
  induction bs as [|b bs IH]; intros d d' Hok; simpl; [by intros [= <-]|].
  destruct (acceptable_b now d b) eqn:Hb; [|done]. apply acceptable_b_spec in Hb; [|done].
  destruct (accept_block_spec d Hok now now b Hb) as (d1 & Heq & Hok1 & Hc1 & Hl1 & _).
  assert (ds_genesis d1 = ds_genesis d ∧ ds_store d1 = ds_store d) as [Hg1 Hs1].
  { destruct (accept_block_cases d Hok now now b Hb) as [[_ Heq']|(_ & clock & rs & _ & _ & Heq')]; rewrite Heq' in Heq; by injection Heq as <-. }
  unfold accept_blocks. cbn [foldM]. rewrite Heq. cbn [mbind outcome_bind]. intros Hd.
  destruct (IH d1 d' Hok1 Hd) as (? & ? & ? & ? & ? & ?). split_and!; [done..|congruence|congruence|congruence|congruence].
Qed.

(** ** A node that has no block yet *)

Definition fresh_dag (ctx : Context) (gs : list VerifiedBlock) (instant : N) (metrics : MysticetiScoringMetricsStore) (s : St)
    : DagState St :=
  mk_dag_state ctx (insert_blocks gs ∅) ∅ (replicate (N.to_nat (committee_size (committee ctx))) ∅)
    (ThresholdClock_new 1 instant) (replicate (N.to_nat (committee_size (committee ctx))) 0) 0 None None
    (replicate (N.to_nat (committee_size (committee ctx))) 0) ScoringSubdag_new [] [] [] [] [] s
    (dag_state_cached_rounds ctx) metrics.

Lemma clock_inv_fresh ctx gs instant metrics s :
  committee_ok (committee ctx) → (∀ b : VerifiedBlock, b ∈ gs → round b = 0) →
  (λ kv : BlockRef * VerifiedBlock, author kv.2) <$> btree_entries (insert_blocks gs ∅) =
    N.of_nat <$> seq 0 (N.to_nat (committee_size (committee ctx))) →
  clock_inv (fresh_dag ctx gs instant metrics s).
Proof.
  intros Hc Hgs Hga. split; simpl; try done.
  - by apply reached_new_false.
  - exists (all_indices (committee ctx)). split_and!; [done| |].
    + destruct (committee_ok_fields _ Hc) as (_ & Ht & Hpos & _ & Hq & _). cbn [fresh_dag ds_context].
      apply Is_true_true, N.leb_le. rewrite <-Ht, Hq. pose proof (N.Div0.div_lt_upper_bound (2 * total_stake (committee ctx)) 3 (total_stake (committee ctx))). lia.
    + intros a Ha%elem_of_all_indices. apply Is_true_true, N.ltb_lt in Ha.
      assert (a ∈ ((λ kv : BlockRef * VerifiedBlock, author kv.2) <$> btree_entries (insert_blocks gs ∅))) as Hin.
      { rewrite Hga. apply list_elem_of_fmap. exists (N.to_nat a). split; [lia|]. apply elem_of_seq. lia. }
      apply list_elem_of_fmap in Hin as ([r b] & -> & Hb%elem_of_btree_entries).
      pose proof Hb as [[Hin <-]|Hx]%insert_blocks_lookup_inv; [|done].
      exists b. split_and!; [|by apply Hgs|done]. unfold lookup_block, get_cached. change (ref_round (reference b)) with (round b). rewrite (Hgs b Hin). cbn [fresh_dag ds_genesis N.eqb]. by rewrite Hb.
Qed.

(** Only genesis blocks are known. *)
Lemma fresh_lookup ctx gs instant metrics s r b : sv_blocks (store_view s) = ∅ →
  lookup_block (fresh_dag ctx gs instant metrics s) r = Some b → ref_round r = 0.
Proof.
  intros Hs. unfold lookup_block, get_cached, stored. simpl. rewrite Hs, !lookup_empty.
  destruct (N.eqb_spec (ref_round r) GENESIS_ROUND) as [->|]; done.
Qed.

Lemma dag_ok_fresh ctx gs instant metrics s :
  committee_ok (committee ctx) → store_ok s → sv_blocks (store_view s) = ∅ → 0 < dag_state_cached_rounds ctx →
  (∀ b : VerifiedBlock, b ∈ gs → round b = 0) →
  (λ kv : BlockRef * VerifiedBlock, author kv.2) <$> btree_entries (insert_blocks gs ∅) =
    N.of_nat <$> seq 0 (N.to_nat (committee_size (committee ctx))) →
  metrics_store_ok (committee_size (committee ctx)) metrics →
  dag_ok (fresh_dag ctx gs instant metrics s).
Proof.
  intros Hc Hs Hempty Hcr Hgs Hga Hm.
  assert (∀ r, stored (fresh_dag ctx gs instant metrics s) r = None) as Hst.
  { intros r. unfold stored. simpl. by rewrite Hempty. }
  split; simpl; try done; rewrite ?length_replicate; try done;
    try (intros; match goal with H : stored _ _ = Some _ |- _ => by rewrite Hst in H end).
  - intros r b [[Hb <-]|Hb]%insert_blocks_lookup_inv; [|done]. split; [done|]. by apply Hgs.
  - intros a rs [-> _]%lookup_replicate r. rewrite lookup_empty. split; [set_solver|by intros [[] _]].
  - set_solver.
  - constructor.
  - set_solver.
  - set_solver.
  - intros a e e' [-> _]%lookup_replicate. lia.
  - intros a r [-> _]%lookup_replicate. lia.
  - intros a r [-> _]%lookup_replicate. lia.
  - by apply clock_inv_fresh.
Qed.
End accept.

(** ** Universes of blocks *)

Definition universe_of (bs : list VerifiedBlock) : gmap BlockRef VerifiedBlock := insert_blocks bs ∅.

Definition universe_ok_b (c : Committee) (byz : gset AuthorityIndex) (bs : list VerifiedBlock) : bool :=
  (set_stake c byz <? validity_threshold c) &&
  forallb (λ b : VerifiedBlock, if round b =? 0 then bool_decide (ancestors b = []) else block_ok_b c b) bs &&
  forallb (λ b : VerifiedBlock, forallb (λ b' : VerifiedBlock,
    (round b =? 0) || negb (bool_decide (slot b = slot b')) || bool_decide (author b ∈ byz) || bool_decide (b = b')) bs) bs.

Lemma universe_ok_b_spec c byz bs : committee_ok c → universe_ok_b c byz bs = true → universe_ok c byz (universe_of bs).
Proof.
  intros Hc. unfold universe_ok_b. rewrite !andb_true_iff, !forallb_forall, N.ltb_lt. intros [[Hbyz Hbs] Hpairs].
  assert (∀ r (b : VerifiedBlock), universe_of bs !! r = Some b → In b bs ∧ reference b = r) as Hin.
  { intros r b [[Hb Hr]|Hb]%insert_blocks_lookup_inv; [|done]. by apply list_elem_of_In in Hb. }
  split; try done.
  - intros r b [_ ?]%Hin. done.
  - intros r b [Hb _]%Hin Hr. specialize (Hbs b Hb). destruct (N.eqb_spec (round b) 0); [lia|]. by apply block_ok_b_spec.
  - intros r b [Hb _]%Hin Hr. specialize (Hbs b Hb). rewrite Hr in Hbs. by apply bool_decide_eq_true in Hbs.
  - intros r r' b b' [Hb _]%Hin [Hb' _]%Hin Hr Hrr Haa Hn. specialize (Hpairs b Hb). rewrite forallb_forall in Hpairs.
    specialize (Hpairs b' Hb'). rewrite !orb_true_iff, negb_true_iff, !bool_decide_eq_true, bool_decide_eq_false, N.eqb_eq in Hpairs.
    destruct Hpairs as [[[?|Hs]|?]|?]; [lia|destruct Hs; unfold slot; congruence|done..].
Qed.

(** ** The test DAG *)

Definition test_genesis_blocks : list VerifiedBlock :=
  match genesis_blocks (H := test_crypto) (test_context 60) with Ret gs => gs | Panic _ => [] end.

(** One block per authority, each linking the whole round before. *)
Definition test_layer (r : Round) (parents : list BlockRef) : list VerifiedBlock :=
  (λ a, test_block r a (100 * r + a) (10 * r) parents) <$> [0; 1; 2; 3].

Fixpoint test_layers (r : Round) (parents : list BlockRef) (n : nat) : list VerifiedBlock :=
  match n with
  | O => []
  | S n => let l := test_layer r parents in l ++ test_layers (r + 1) (reference <$> l) n
  end.

(** Authority 3 makes a second block in round 2. *)
Definition test_equivocation : VerifiedBlock :=
  test_block 2 3 299 21 (reference <$> test_layer 1 (reference <$> test_genesis_blocks)).

Definition test_blocks (n : nat) : list VerifiedBlock := test_layers 1 (reference <$> test_genesis_blocks) n.

Definition test_metrics : MysticetiScoringMetricsStore :=
  mk_metrics_store (ScoringMetricsV1_new 4) (ScoringMetricsV1_new 4) (ScoringMetricsV1_new 4).

Definition test_fresh : DagState MemStore :=
  fresh_dag (test_context 60) test_genesis_blocks 0 test_metrics MemStore_new.

Lemma test_fresh_ok : dag_ok test_fresh.
Proof.
  apply dag_ok_fresh; try done.
  - apply test_committee_ok.
  - apply ms_ok_new.
  - assert (forallb (λ b : VerifiedBlock, round b =? 0) test_genesis_blocks = true) as Hg by (vm_compute; reflexivity).
    intros b Hb%list_elem_of_In. rewrite forallb_forall in Hg. by apply N.eqb_eq, Hg.
Qed.

(** What [DagState::new] makes of an empty store. *)
Lemma test_fresh_new : @DagState_new MemStore _ test_crypto 0 (test_context 60) test_metrics MemStore_new = Ret test_fresh.
Proof. vm_compute. reflexivity. Qed.

(** A node with six full rounds, and one with four that has also seen the
    equivocation. *)
Definition test_state (bs : list VerifiedBlock) : DagState MemStore := default test_fresh (accept_checked 100 test_fresh bs).
Definition test_state_a : DagState MemStore := test_state (test_blocks 6).
Definition test_state_b : DagState MemStore := test_state (test_blocks 4 ++ [test_equivocation]).

Lemma test_state_facts bs : dag_ok (test_state bs) ∧ ds_context (test_state bs) = test_context 60 ∧
  ds_last_commit (test_state bs) = None ∧ ds_genesis (test_state bs) = ds_genesis test_fresh ∧ ds_store (test_state bs) = MemStore_new.
Proof.
  unfold test_state. destruct (accept_checked 100 test_fresh bs) as [d|] eqn:Hd; simpl.
  - by destruct (accept_checked_ok mem_accepts 100 bs test_fresh d test_fresh_ok Hd) as (_ & ? & -> & -> & -> & ->).
  - split; [apply test_fresh_ok|done].
Qed.

Lemma test_state_ok bs : dag_ok (test_state bs) ∧ ds_context (test_state bs) = test_context 60 ∧ ds_last_commit (test_state bs) = None.
Proof. destruct (test_state_facts bs) as (? & ? & ? & _). done. Qed.

(** Nothing is stored yet, so a block is in the genesis or in the cache. *)
Lemma test_state_lookup bs r : lookup_block (test_state bs) r =
  if ref_round r =? 0 then ds_genesis test_fresh !! r else bi_block <$> ds_recent_blocks (test_state bs) !! r.
Proof.
  destruct (test_state_facts bs) as (_ & _ & _ & Hg & Hs). unfold lookup_block, get_cached, stored. rewrite Hg, Hs.
  change GENESIS_ROUND with 0. destruct (_ =? 0); [done|]. by destruct (ds_recent_blocks (test_state bs) !! r).
Qed.

(** Two of these states never hold different blocks for a reference. *)
Lemma test_states_agree bs bs' :
  forallb (λ kv : BlockRef * BlockInfo, match ds_recent_blocks (test_state bs') !! kv.1 with
                                        | Some i => bool_decide (bi_block i = bi_block kv.2) | None => true end)
    (map_to_list (ds_recent_blocks (test_state bs))) = true →
  ∀ r b b', lookup_block (test_state bs) r = Some b → lookup_block (test_state bs') r = Some b' → b = b'.
Proof.
  intros Hf r b b'. rewrite !test_state_lookup. destruct (_ =? 0); [intros; congruence|].
  intros (i & Hi & ->)%fmap_Some (i' & Hi' & ->)%fmap_Some. rewrite forallb_forall in Hf.
  specialize (Hf (r, i)). rewrite <-list_elem_of_In, elem_of_map_to_list in Hf. specialize (Hf Hi). simpl in Hf.
  rewrite Hi' in Hf. by apply bool_decide_eq_true in Hf.
Qed.

Definition test_universe : gmap BlockRef VerifiedBlock := universe_of (test_blocks 6 ++ [test_equivocation]).

Lemma test_universe_ok : universe_ok (test_committee [1; 1; 1; 1]) {[3]} test_universe.
Proof. apply universe_ok_b_spec; [apply test_committee_ok|]. vm_compute. reflexivity. Qed.
