(* ===== verification/DagTheorems.v ===== *)
(** * DagTheorems: what the DAG state promises its callers

    The operations of [DagState] in terms of its own readers [get_block] and
    [contains_block], from the invariant of [DagInv] and the preservation
    lemmas of [DagOps]. *)
From S2P Require Import Prelude Committee Block StakeAggregator ThresholdClock Commit Error BlockVerifier Store.
From S2P Require Import MemStore ScoringMetrics LeaderScoring DagState BaseCommitter CommitRule CommitterSpec DagInv.
From S2P Require Import DagOps TestDag.
Local Open Scope N_scope.
Local Open Scope rust_scope.

Section theorems.
Context {St : Type} `{StoreLaws St}.
Implicit Type d : DagState St.

Lemma same_lookup_get d d' r : dag_ok d → dag_ok d' → lookup_block d' r = lookup_block d r →
  get_block d' r = get_block d r.
Proof. intros Hok Hok' Heq. rewrite !get_block_ret by (apply Hok || apply Hok'). by rewrite Heq. Qed.

(** C34: reads agree.  In a state that satisfies the invariant, reading a block
    and asking whether it exists never panic and give the same answer, although
    the existence check trusts the cache to rule out references newer than the
    last one of their author and asks the store only about the others. *)
Theorem contains_block_agrees d (r : BlockRef) : dag_ok d →
  is_valid_index (committee (ds_context d)) (ref_author r) →
  ∃ o : option VerifiedBlock, get_block d r = Ret o ∧ contains_block d r = Ret (bool_decide (is_Some o)).
Proof.
  intros Hok Hr. exists (lookup_block d r). split; [apply get_block_ret, Hok|by apply contains_block_ret].
Qed.

(** C26: accepting.  A well-formed block whose ancestors are known or garbage
    collected is accepted without a panic, the invariant is kept, the block can
    then be read back (the copy already held, if there was one), and no other
    read changes. *)
Theorem accept_block_correct d (now instant : N) (b : VerifiedBlock) : dag_ok d → acceptable d now b →
  ∃ d', accept_block now instant d b = Ret d' ∧ dag_ok d' ∧
    (∀ old : VerifiedBlock, get_block d (reference b) = Ret (Some old) → d' = d) ∧
    (get_block d (reference b) = Ret None → get_block d' (reference b) = Ret (Some b)) ∧
    (∀ r, r ≠ reference b → get_block d' r = get_block d r).
Proof.
  intros Hok Hb. destruct (accept_block_spec d Hok now instant b Hb) as (d' & Heq & Hok' & _ & _ & Hl).
  exists d'. split; [done|]. split; [done|]. rewrite !get_block_ret by (apply Hok || apply Hok'). split_and!.
  - intros old [= Hold]. destruct (accept_block_cases d Hok now instant b Hb) as [[_ Heq']|[Hn _]]; [|congruence].
    rewrite Heq' in Heq. by injection Heq.
  - intros [= Hn]. by rewrite Hl, Hn, decide_True.
  - intros r Hr. apply same_lookup_get; [done..|]. rewrite Hl. destruct (lookup_block d r); [done|]. by rewrite decide_False.
Qed.


(** C33: commits are consecutive.  A commit with the next index whose blocks are
    known is recorded as the last one and queued for the store, keeping the
    invariant and every read; a commit at or below the last index changes
    nothing; and one that skips an index panics. *)
Theorem add_commit_correct d (instant : N) (commit : TrustedCommit) : dag_ok d → last_commit_index d < U32_MAX →
  (next_commit d commit →
    ∃ d', add_commit instant d commit = Ret d' ∧ dag_ok d' ∧ ds_last_commit d' = Some commit ∧
      ds_commits_to_write d' = ds_commits_to_write d ++ [commit] ∧ ∀ r, get_block d' r = get_block d r) ∧
  (∀ last, ds_last_commit d = Some last → commit_index commit <= commit_index last → add_commit instant d commit = Ret d) ∧
  (last_commit_index d + 1 < commit_index commit → ¬ is_ret (add_commit instant d commit)).
Proof.
  intros Hok Hidx. split_and!.
  - intros Hn. destruct (add_commit_spec d Hok instant commit Hn) as (d' & Heq & Hok' & Hl & Hlast & Hcs & _).
    exists d'. split_and!; try done. intros r. by apply same_lookup_get.
  - intros last Hlast Hle. unfold add_commit. rewrite Hlast. by rewrite (proj2 (N.leb_le _ _) Hle).
  - unfold last_commit_index, add_commit in *. destruct (ds_last_commit d) as [last|]; intros Hgt [d' Hret].
    + destruct (N.leb_spec (commit_index commit) (commit_index last)); [lia|].
      rewrite wrap32_small in Hret by (unfold U32_MOD, U32_MAX in *; lia).
      rewrite (proj2 (N.eqb_neq _ _)) in Hret by lia. done.
    + rewrite (proj2 (N.eqb_neq _ _)) in Hret by lia. done.
Qed.
End theorems.

(** ** Witnesses *)

Lemma contains_block_agrees_witness :
  ∃ o, get_block test_state_a (mk_ref 5 2 502) = Ret o ∧ contains_block test_state_a (mk_ref 5 2 502) = Ret (bool_decide (is_Some o)).
Proof. apply (contains_block_agrees test_state_a (mk_ref 5 2 502)); [apply test_state_ok|by vm_compute]. Defined.

(** The next block of authority 1. *)
Definition test_next : VerifiedBlock := test_block 7 1 701 70 (reference <$> take 4 (reverse (test_blocks 6))).

Lemma accept_block_correct_witness :
  ∃ d', accept_block 100 100 test_state_a test_next = Ret d' ∧ dag_ok d' ∧ get_block d' (reference test_next) = Ret (Some test_next).
Proof.
  destruct (accept_block_correct test_state_a 100 100 test_next) as (d' & Heq & Hok & _ & Hget & _).
  - apply test_state_ok.
  - apply acceptable_b_spec; [apply mem_accepts|]. vm_compute. reflexivity.
  - exists d'. split; [exact Heq|]. split; [exact Hok|]. apply Hget. vm_compute. reflexivity.
Defined.


(** The commit of the leader of round 1. *)
Definition test_commit : TrustedCommit :=
  mk_trusted (Commit_new 1 0 10 (mk_ref 1 1 101) [mk_ref 1 1 101]) 77 [].

Lemma add_commit_correct_witness :
  ∃ d', add_commit 5 test_state_a test_commit = Ret d' ∧ dag_ok d' ∧ ds_last_commit d' = Some test_commit.
Proof.
  destruct (add_commit_correct test_state_a 5 test_commit) as [Hnext _]; [apply test_state_ok|by vm_compute|].
  destruct Hnext as (d' & Heq & Hok & Hlast & _).
  - split; [vm_compute; done..|]. intros r Hr. apply list_elem_of_singleton in Hr as ->. split; [vm_compute; by eexists|done].
  - exists d'. split; [exact Heq|]. split; [exact Hok|exact Hlast].
Defined.
