(* ===== verification/BlockManager.v ===== *)
(** * BlockManager: suspending blocks until their ancestors are known

    Models [consensus/core/src/block_manager.rs].  The manager and the DAG state
    it shares are threaded together.  Gauges and counters are left out, but the
    committee lookups that label them stay, because they can panic.  The loops
    take their fuel from the maps they shrink: unsuspending the children of a
    block removes a suspended block for each one it visits, and the loop over
    the garbage-collected ancestors removes one of them in each iteration. *)
From S2P Require Import Prelude Committee Block StakeAggregator Commit Error BlockVerifier Store DagState.
Local Open Scope N_scope.
Local Open Scope rust_scope.

Record SuspendedBlock := mk_suspended {
  sb_block : VerifiedBlock;
  sb_missing_ancestors : gset BlockRef;
  sb_timestamp : N;
}.

Record BlockManager := mk_block_manager {
  bm_suspended_blocks : gmap BlockRef SuspendedBlock;
  bm_missing_ancestors : gmap BlockRef (gset BlockRef);
  bm_missing_blocks : gmap BlockRef (gset AuthorityIndex);
  bm_received_block_rounds : list (option (Round * Round));
}.

Definition BlockManager_new (ctx : Context) : BlockManager :=
  mk_block_manager ∅ ∅ ∅ (replicate (N.to_nat (committee_size (committee ctx))) None).

Definition set_suspended (m : BlockManager) x :=
  mk_block_manager x (bm_missing_ancestors m) (bm_missing_blocks m) (bm_received_block_rounds m).
Definition set_missing_ancestors (m : BlockManager) x :=
  mk_block_manager (bm_suspended_blocks m) x (bm_missing_blocks m) (bm_received_block_rounds m).
Definition set_missing_blocks (m : BlockManager) x :=
  mk_block_manager (bm_suspended_blocks m) (bm_missing_ancestors m) x (bm_received_block_rounds m).
Definition set_received_rounds (m : BlockManager) x :=
  mk_block_manager (bm_suspended_blocks m) (bm_missing_ancestors m) (bm_missing_blocks m) x.

(** [TryAcceptResult]. *)
Inductive TryAcceptResult :=
| TaAccepted (b : VerifiedBlock)
| TaSuspended (to_fetch : gset BlockRef)
| TaProcessed
| TaSkipped.

(** ** Unsuspending *)

Definition try_unsuspend_block (m : BlockManager) (r dependency : BlockRef)
    : outcome (BlockManager * option SuspendedBlock) :=
  s ← expect (bm_suspended_blocks m !! r) "Block should be in suspended map";
  _ ← assert (bool_decide (dependency ∈ sb_missing_ancestors s)) "Block reference should be present in missing dependencies";
  let s := mk_suspended (sb_block s) (sb_missing_ancestors s ∖ {[dependency]}) (sb_timestamp s) in
  if bool_decide (sb_missing_ancestors s = ∅) then Ret (set_suspended m (delete r (bm_suspended_blocks m)), Some s)
  else Ret (set_suspended m (<[r := s]> (bm_suspended_blocks m)), None).

(** One child of a processed dependency; the stack's top is its head. *)
Definition unsuspend_child (dependency : BlockRef)
    '((m, to_process, unsuspended) : BlockManager * list BlockRef * list SuspendedBlock) (r : BlockRef)
    : outcome (BlockManager * list BlockRef * list SuspendedBlock) :=
  '(m, o) ← try_unsuspend_block m r dependency;
  Ret (match o : option SuspendedBlock with
       | Some s => (m, reference (sb_block s) :: to_process, unsuspended ++ [s])
       | None => (m, to_process, unsuspended)
       end).

Fixpoint unsuspend_loop (fuel : nat) (m : BlockManager) (to_process : list BlockRef) (unsuspended : list SuspendedBlock)
    : outcome (BlockManager * list SuspendedBlock) :=
  match to_process with
  | [] => Ret (m, unsuspended)
  | r :: to_process =>
    match fuel with
    | O => Panic "out of fuel"
    | S fuel =>
      match bm_missing_ancestors m !! r with
      | None => unsuspend_loop fuel m to_process unsuspended
      | Some children =>
        let m := set_missing_ancestors m (delete r (bm_missing_ancestors m)) in
        '(m, to_process, unsuspended) ← foldM (unsuspend_child r) (m, to_process, unsuspended) (btree_iter children);
        unsuspend_loop fuel m to_process unsuspended
      end
    end
  end.

Definition try_unsuspend_children_blocks (c : Committee) (m : BlockManager) (accepted_block : BlockRef)
    : outcome (BlockManager * list VerifiedBlock) :=
  '(m, unsuspended) ← unsuspend_loop (S (size (bm_suspended_blocks m))) m [accepted_block] [];
  _ ← mapM (λ s, authority c (author (sb_block s))) unsuspended;
  Ret (m, sb_block <$> unsuspended).

Definition update_block_received_metrics (c : Committee) (m : BlockManager) (b : VerifiedBlock) : outcome BlockManager :=
  old ← vec_index (bm_received_block_rounds m) (author b);
  let new := match old : option (Round * Round) with
             | Some (lo, hi) => (N.min lo (round b), N.max hi (round b))
             | None => (round b, round b)
             end in
  rounds ← vec_set (bm_received_block_rounds m) (author b) (Some new);
  _ ← authority c (author b);
  Ret (set_received_rounds m rounds).

Section manager.
Context {St : Type} `{Store St} (now instant : N).
Implicit Type d : DagState St.

(** ** Timestamps *)

(** The ancestor blocks of a block that is about to be accepted; [None] when an
    ancestor was rejected in the same batch. *)
Fixpoint collect_ancestor_blocks (gc_enabled : bool) (gc_round : Round) (to_accept to_reject : gmap BlockRef VerifiedBlock)
    (ancs : list (BlockRef * option VerifiedBlock)) : outcome (option (list (option VerifiedBlock))) :=
  match ancs with
  | [] => Ret (Some [])
  | (r, Some found) :: ancs =>
    _ ← assert (bool_decide (r = reference found)) "assertion failed: ancestor_ref";
    rest ← collect_ancestor_blocks gc_enabled gc_round to_accept to_reject ancs;
    Ret (cons (Some found) <$> (rest : option (list (option VerifiedBlock))))
  | (r, None) :: ancs =>
    match to_accept !! r with
    | Some a =>
      rest ← collect_ancestor_blocks gc_enabled gc_round to_accept to_reject ancs;
      Ret (cons (Some a) <$> (rest : option (list (option VerifiedBlock))))
    | None =>
      if bool_decide (is_Some (to_reject !! r)) then Ret None
      else if gc_enabled && (GENESIS_ROUND <? ref_round r) && (ref_round r <=? gc_round) then
        rest ← collect_ancestor_blocks gc_enabled gc_round to_accept to_reject ancs;
        Ret (cons None <$> (rest : option (list (option VerifiedBlock))))
      else Panic "Unsuspended block has a missing ancestor! Ancestor not found in DagState"
    end
  end.

Definition verify_one_timestamp d (gc_enabled : bool) (gc_round : Round)
    '((to_accept, to_reject) : gmap BlockRef VerifiedBlock * gmap BlockRef VerifiedBlock) (b : VerifiedBlock)
    : outcome (gmap BlockRef VerifiedBlock * gmap BlockRef VerifiedBlock) :=
  found ← get_blocks d (ancestors b);
  _ ← assert (bool_decide (length (ancestors b) = length (found : list (option VerifiedBlock)))) "assertion failed: lengths";
  o ← collect_ancestor_blocks gc_enabled gc_round to_accept to_reject (zip (ancestors b) found);
  match o : option (list (option VerifiedBlock)) with
  | None => Ret (to_accept, <[reference b := b]> to_reject)
  | Some ancestor_blocks =>
    checked ← check_ancestors b ancestor_blocks gc_enabled gc_round;
    match checked : ConsensusResult unit with
    | Err _ => Ret (to_accept, <[reference b := b]> to_reject)
    | Ok _ => Ret (<[reference b := b]> to_accept, to_reject)
    end
  end.

Definition verify_block_timestamps d (unsuspended : list VerifiedBlock) : outcome (DagState St * list VerifiedBlock) :=
  '(to_accept, to_reject) ← foldM (verify_one_timestamp d (gc_enabled d) (gc_round d)) (∅, ∅) unsuspended;
  _ ← mapM (λ r, authority (committee (ds_context d)) (ref_author r)) (btree_keys (to_reject : gmap BlockRef VerifiedBlock));
  let blocks_to_accept := (btree_entries (to_accept : gmap BlockRef VerifiedBlock)).*2 in
  d ← accept_blocks now instant d blocks_to_accept;
  Ret (d, blocks_to_accept).

Definition verify_block_timestamps_and_accept d (unsuspended : list VerifiedBlock)
    : outcome (DagState St * list VerifiedBlock) :=
  '(d, blocks_to_accept) ←
    (if consensus_median_timestamp_with_checkpoint_enforcement (protocol_config (ds_context d)) then Ret (d, unsuspended)
     else verify_block_timestamps d unsuspended);
  d ← accept_blocks now instant d blocks_to_accept;
  Ret (d, blocks_to_accept).

(** ** Accepting *)

Definition try_accept_one_committed_block (m : BlockManager) d (b : VerifiedBlock)
    : outcome (BlockManager * DagState St * TryAcceptResult) :=
  contained ← contains_block d (reference b);
  if contained : bool then Ret (m, d, TaProcessed)
  else
    let m := set_missing_blocks m (delete (reference b) (bm_missing_blocks m)) in
    let m := match bm_suspended_blocks m !! reference b with
             | None => m
             | Some s =>
               set_missing_ancestors (set_suspended m (delete (reference b) (bm_suspended_blocks m)))
                 (foldl (λ ma a, alter (λ refs, refs ∖ {[reference b]}) a ma) (bm_missing_ancestors m)
                    (btree_iter (sb_missing_ancestors s)))
             end in
    d ← accept_blocks now instant d [b];
    Ret (m, d, TaAccepted b).

(** [block_ref] waits for its missing ancestor [a]. *)
Definition wait_for_ancestor (m : BlockManager) (block_ref a : BlockRef) : BlockManager :=
  set_missing_ancestors m
    (<[a := {[block_ref]} ∪ default ∅ (bm_missing_ancestors m !! a)]> (bm_missing_ancestors m)).

(** The missing ancestor [a] is to be fetched; the author of [block_ref] has it. *)
Definition fetch_ancestor (m : BlockManager) (block_ref a : BlockRef) : BlockManager :=
  set_missing_blocks m
    (<[a := match bm_missing_blocks m !! a with
            | None => {[ref_author a; ref_author block_ref]}
            | Some who => {[ref_author block_ref]} ∪ who
            end]> (bm_missing_blocks m)).

Definition note_missing_ancestor (c : Committee) (block_ref : BlockRef)
    (acc : BlockManager * gset BlockRef * gset BlockRef) (x : bool * BlockRef)
    : outcome (BlockManager * gset BlockRef * gset BlockRef) :=
  let '(m, missing, to_fetch) := acc in
  let (found, a) := x in
  if found : bool then Ret acc
  else
    let missing := {[a]} ∪ missing in
    let suspended := bool_decide (is_Some (bm_suspended_blocks m !! a)) in
    _ ← authority c (ref_author a);
    Ret (if suspended then (wait_for_ancestor m block_ref a, missing, to_fetch)
         else (fetch_ancestor (wait_for_ancestor m block_ref a) block_ref a, missing, {[a]} ∪ to_fetch)).

Definition try_accept_one_block (m : BlockManager) d (b : VerifiedBlock) : outcome (BlockManager * TryAcceptResult) :=
  let c := committee (ds_context d) in
  let block_ref := reference b in
  processed ← (if bool_decide (is_Some (bm_suspended_blocks m !! block_ref)) then Ret true else contains_block d block_ref);
  if processed : bool then Ret (m, TaProcessed)
  else if gc_enabled d && (round b <=? gc_round d) then _ ← authority c (author b); Ret (m, TaSkipped)
  else
    let ancs := if gc_enabled d
                then filter (λ a, (ref_round a =? GENESIS_ROUND) || (gc_round d <? ref_round a)) (ancestors b)
                else ancestors b in
    found ← contains_blocks d ancs;
    '(m, missing, to_fetch) ← foldM (note_missing_ancestor c block_ref) (m, ∅, ∅) (zip (found : list bool) ancs);
    let m := set_missing_blocks m (delete block_ref (bm_missing_blocks m)) in
    if bool_decide (missing = ∅) then Ret (m, TaAccepted b)
    else
      _ ← authority c (author b);
      Ret (set_suspended m (<[block_ref := mk_suspended b missing instant]> (bm_suspended_blocks m)), TaSuspended to_fetch).

Definition round_le (a b : VerifiedBlock) : bool := round a <=? round b.

(** One block of [try_accept_blocks_internal]. *)
Definition accept_step (committed : bool)
    '((m, d, accepted, missing) : BlockManager * DagState St * list VerifiedBlock * gset BlockRef) (b : VerifiedBlock)
    : outcome (BlockManager * DagState St * list VerifiedBlock * gset BlockRef) :=
  m ← update_block_received_metrics (committee (ds_context d)) m b;
  let finish m d accepted to_accept :=
    '(m, unsuspended) ← try_unsuspend_children_blocks (committee (ds_context d)) m (reference b);
    '(d, blocks) ← verify_block_timestamps_and_accept d (to_accept ++ unsuspended);
    Ret (m, d, accepted ++ blocks, missing) in
  if committed then
    '(m, d, res) ← try_accept_one_committed_block m d b;
    match res with
    | TaAccepted b => finish m d (accepted ++ [b]) []
    | TaProcessed => Ret (m, d, accepted, missing)
    | TaSuspended _ | TaSkipped => Panic "Did not expect to suspend or skip a committed block"
    end
  else
    '(m, res) ← try_accept_one_block m d b;
    match res with
    | TaAccepted b => finish m d accepted [b]
    | TaSuspended to_fetch => Ret (m, d, accepted, missing ∪ to_fetch)
    | TaProcessed | TaSkipped => Ret (m, d, accepted, missing)
    end.

Definition try_accept_blocks_internal (committed : bool) (m : BlockManager) d (blocks : list VerifiedBlock)
    : outcome (BlockManager * DagState St * list VerifiedBlock * gset BlockRef) :=
  foldM (accept_step committed) (m, d, [], ∅) (stable_sort round_le blocks).

Definition try_accept_blocks (m : BlockManager) d (blocks : list VerifiedBlock)
    : outcome (BlockManager * DagState St * list VerifiedBlock * gset BlockRef) :=
  try_accept_blocks_internal false m d blocks.

Definition try_accept_committed_blocks (m : BlockManager) d (blocks : list VerifiedBlock)
    : outcome (BlockManager * DagState St * list VerifiedBlock) :=
  if negb (gc_enabled d) then Ret (m, d, [])
  else
    '(m, d, accepted, missing) ← try_accept_blocks_internal true m d blocks;
    _ ← assert (bool_decide (missing = ∅)) "No missing blocks should be returned for committed blocks";
    Ret (m, d, accepted).

(** ** Missing blocks *)

Definition ref_round_le (a b : BlockRef) : bool := ref_round a <=? ref_round b.

(** [missing_ancestors.entry(r).or_default()]. *)
Definition ensure_missing_ancestor (m : BlockManager) (r : BlockRef) : BlockManager :=
  set_missing_ancestors m (<[r := default ∅ (bm_missing_ancestors m !! r)]> (bm_missing_ancestors m)).

Definition find_step (c : Committee) (acc : BlockManager * gset BlockRef) (x : bool * BlockRef)
    : outcome (BlockManager * gset BlockRef) :=
  let (m, missing) := acc in
  let (found, r) := x in
  let suspended := bool_decide (is_Some (bm_suspended_blocks m !! r)) in
  if found || suspended then Ret acc
  else
    let m' := set_missing_blocks m (<[r := {[ref_author r]}]> (bm_missing_blocks m)) in
    let missing := {[r]} ∪ missing in
    match bm_missing_blocks m !! r with
    | Some _ => Ret (m', missing)
    | None => _ ← authority c (ref_author r); Ret (ensure_missing_ancestor m' r, missing)
    end.

Definition try_find_blocks (m : BlockManager) d (refs : list BlockRef) : outcome (BlockManager * gset BlockRef) :=
  let refs := filter (λ r, gc_round d < ref_round r) refs in
  if bool_decide (refs = []) then Ret (m, ∅)
  else
    let refs := stable_sort ref_round_le refs in
    found ← contains_blocks d refs;
    foldM (find_step (committee (ds_context d))) (m, ∅) (zip (found : list bool) refs).

(** ** Garbage collection *)

Fixpoint gc_loop (fuel : nat) (gc_round : Round) (m : BlockManager) d : outcome (BlockManager * DagState St) :=
  match btree_first (dom (bm_missing_ancestors m)) with
  | None => Ret (m, d)
  | Some r =>
    if gc_round <? ref_round r then Ret (m, d)
    else
      match fuel with
      | O => Panic "out of fuel"
      | S fuel =>
        let c := committee (ds_context d) in
        _ ← authority c (ref_author r);
        _ ← assert (negb (bool_decide (is_Some (bm_suspended_blocks m !! r))))
              "Block should not be suspended, as we are causally GC'ing and no suspended block should exist for a missing ancestor.";
        let m := set_missing_blocks m (delete r (bm_missing_blocks m)) in
        '(m, unsuspended) ← try_unsuspend_children_blocks c m r;
        '(d, blocks) ← verify_block_timestamps_and_accept d unsuspended;
        _ ← mapM (λ b : VerifiedBlock, authority c (author b)) blocks;
        gc_loop fuel gc_round m d
      end
  end.

Definition try_unsuspend_blocks_for_latest_gc_round (m : BlockManager) d : outcome (BlockManager * DagState St) :=
  if negb (gc_enabled d) then Ret (m, d)
  else gc_loop (S (size (bm_missing_ancestors m))) (gc_round d) m d.
End manager.
