(* ===== verification/BlockManagerInv.v ===== *)
(** * BlockManagerInv: the block manager's promises

    The invariant [bm_ok] ties the three maps of the block manager to each other
    and to the DAG state.  From it every operation returns without a panic and
    keeps the invariant, blocks are handed to the DAG state in causal order, and
    every block whose causal history arrives is accepted, whatever the order of
    arrival.  Protocol versions that take commit timestamps from the median
    accept unsuspended blocks without looking at their timestamps; the others
    reject a block that is older than an ancestor, after which its children
    panic.  [stamps_ok] says which of the two holds: the median is on, or no
    block is older than its ancestors or from the future. *)
From S2P Require Import Prelude Committee Block StakeAggregator ThresholdClock Commit Error BlockVerifier Store.
From S2P Require Import ScoringMetrics LeaderScoring DagState BaseCommitter CommitRule CommitterSpec DagInv DagOps.
From S2P Require Import BlockManager.
Local Open Scope N_scope.
Local Open Scope rust_scope.

Abbreviation median_on d := (consensus_median_timestamp_with_checkpoint_enforcement (protocol_config (ds_context d)) = true)
  (only parsing).

Section manager.
Context {St : Type} `{StoreLaws St} (now instant : N).
Implicit Type d : DagState St.

(** [U] holds the blocks that have been made; this authority, [own], makes one
    per round.  [g] is the garbage-collection round that the manager has last
    been swept for. *)
Context (own : AuthorityIndex) (U : VerifiedBlock → Prop).
Context (U_unique : ∀ b b', U b → U b' → author b = own → slot b = slot b' → reference b = reference b') (g : Round).

Definition known d (r : BlockRef) : Prop := is_Some (lookup_block d r).
Definition gced d (r : BlockRef) : Prop := gc_enabled d = true ∧ 0 < ref_round r <= gc_round d.

#[local] Instance gced_dec d r : Decision (gced d r).
Proof. unfold gced. apply _. Defined.

(** What the block verifier guarantees of a received block. *)
Record input_ok d (b : VerifiedBlock) : Prop := {
  in_round : 0 < round b;
  in_block : block_ok (committee (ds_context d)) b;
  in_ref : ref_ok (reference b);
  in_storable : votes_ok b ∧ store_accepts_block St b;
  in_genesis a : a ∈ ancestors b → ref_round a = 0 → known d a;
  in_made : U b;
}.

(** All blocks of the DAG state have been made. *)
Definition own_ok d : Prop :=
  own_index (ds_context d) = own ∧ ∀ r b, lookup_block d r = Some b → 0 < ref_round r → U b.

(** The parts of the state that accepting blocks does not touch. *)
Definition unaccepted d : ScoringSubdag * list CommittedSubDag * St * list TrustedCommit * gmap BlockRef VerifiedBlock :=
  (ds_scoring_subdag d, ds_unscored_committed_subdags d, ds_store d, ds_commits_to_write d, ds_genesis d).

(** [d'] holds the blocks of [d] and [bs]; nothing else that matters here differs. *)
Record extends d (bs : list VerifiedBlock) d' : Prop := {
  ex_ok : dag_ok d';
  ex_own : own_ok d';
  ex_context : ds_context d' = ds_context d;
  ex_commit : ds_last_commit d' = ds_last_commit d;
  ex_known r : known d' r ↔ known d r ∨ r ∈ (reference <$> bs);
  ex_same r (b : VerifiedBlock) : lookup_block d r = Some b → lookup_block d' r = Some b;
  ex_new r (b : VerifiedBlock) : lookup_block d' r = Some b → lookup_block d r = Some b ∨ b ∈ bs;
  (* new blocks are not committed, and nothing leaves the cache *)
  ex_cached r i : ds_recent_blocks d !! r = Some i → ds_recent_blocks d' !! r = Some i;
  ex_fresh r i : ds_recent_blocks d' !! r = Some i →
    ds_recent_blocks d !! r = Some i ∨ (bi_committed i = false ∧ lookup_block d r = None);
  ex_higher : ds_highest_accepted_round d <= ds_highest_accepted_round d';
  ex_highest : ds_highest_accepted_round d' = ds_highest_accepted_round d ∨ ∃ b : VerifiedBlock, b ∈ bs ∧ ds_highest_accepted_round d' = round b;
  ex_rest : unaccepted d' = unaccepted d;
}.

(** Timestamps: they are not looked at, or no block that has been made is from the
    future, and none is older than an ancestor. *)
Definition stamps_ok d : Prop := median_on d ∨
  (∀ b, U b → timestamp_ms b <= now) ∧
  (∀ b a : VerifiedBlock, U b → U a ∨ ds_genesis d !! reference a = Some a → reference a ∈ ancestors b → timestamp_ms a <= timestamp_ms b).

Lemma stamps_ok_extends d bs d' : extends d bs d' → stamps_ok d → stamps_ok d'.
Proof.
  intros He. assert (ds_genesis d' = ds_genesis d) as Hg by apply (f_equal snd (ex_rest _ _ _ He)).
  unfold stamps_ok. by rewrite (ex_context _ _ _ He), Hg.
Qed.

(** Each block comes after the ancestors it needs. *)
Definition causal (R : BlockRef → Prop) (bs : list VerifiedBlock) : Prop :=
  ∀ pre (b : VerifiedBlock) post, bs = pre ++ b :: post → ∀ a, a ∈ ancestors b → R a ∨ a ∈ (reference <$> pre).

Lemma extends_refl d : dag_ok d → own_ok d → extends d [] d.
Proof. intros Hok Hown. split; try done; [set_solver|by left|by left|by left]. Qed.

Lemma extends_trans d d1 d2 bs1 bs2 : extends d bs1 d1 → extends d1 bs2 d2 → extends d (bs1 ++ bs2) d2.
Proof.
  intros H1 H2. split; try apply H2.
  - by rewrite (ex_context _ _ _ H2), (ex_context _ _ _ H1).
  - by rewrite (ex_commit _ _ _ H2), (ex_commit _ _ _ H1).
  - intros r. rewrite (ex_known _ _ _ H2), (ex_known _ _ _ H1), fmap_app, elem_of_app. tauto.
  - intros r b Hb. by apply (ex_same _ _ _ H2), (ex_same _ _ _ H1).
  - intros r b Hb. rewrite elem_of_app. destruct (ex_new _ _ _ H2 r b Hb) as [Hb'|]; [|tauto].
    destruct (ex_new _ _ _ H1 r b Hb'); tauto.
  - intros r i Hi. by apply (ex_cached _ _ _ H2), (ex_cached _ _ _ H1).
  - intros r i Hi. destruct (ex_fresh _ _ _ H2 r i Hi) as [Hi1|[Hf Hn]]; [by apply (ex_fresh _ _ _ H1)|right].
    split; [done|]. destruct (lookup_block d r) as [b|] eqn:Hb; [|done]. by rewrite (ex_same _ _ _ H1 r b Hb) in Hn.
  - etrans; [apply H1|apply H2].
  - destruct (ex_highest _ _ _ H2) as [->|(b & ? & ->)]; [|right; exists b; rewrite elem_of_app; auto].
    destruct (ex_highest _ _ _ H1) as [->|(b & ? & ->)]; [by left|right; exists b; rewrite elem_of_app; auto].
  - by rewrite (ex_rest _ _ _ H2), (ex_rest _ _ _ H1).
Qed.

Lemma extends_gc_round d bs d' : extends d bs d' → gc_round d' = gc_round d.
Proof.
  intros He. unfold gc_round, calculate_gc_round, last_commit_round. by rewrite (ex_context _ _ _ He), (ex_commit _ _ _ He).
Qed.

Lemma extends_gced d bs d' r : extends d bs d' → gced d' r ↔ gced d r.
Proof.
  intros He. unfold gced, gc_enabled. by rewrite (extends_gc_round _ _ _ He), (ex_context _ _ _ He).
Qed.

Lemma extends_mono d bs d' r : extends d bs d' → known d r → known d' r.
Proof. intros He Hr. rewrite (ex_known _ _ _ He). by left. Qed.

Lemma input_ok_mono d d' (b : VerifiedBlock) : ds_context d' = ds_context d → (∀ r, known d r → known d' r) → input_ok d b → input_ok d' b.
Proof. intros Hctx Hk [? ? ? Hg ?]. split; rewrite ?Hctx; auto. Qed.

Lemma causal_snoc R bs (b : VerifiedBlock) : causal R bs → (∀ a, a ∈ ancestors b → R a ∨ a ∈ (reference <$> bs)) → causal R (bs ++ [b]).
Proof.
  intros Hbs Hb pre b' post Heq a Ha. destruct post as [|x post _] using rev_ind.
  - apply app_inj_tail in Heq as [<- <-]. by apply Hb.
  - rewrite app_comm_cons, app_assoc in Heq. apply app_inj_tail in Heq as [-> _]. by eapply Hbs.
Qed.

Lemma causal_cons R (b : VerifiedBlock) bs : causal R (b :: bs) ↔
  (∀ a, a ∈ ancestors b → R a) ∧ causal (λ a, R a ∨ a = reference b) bs.
Proof.
  split.
  - intros Hc. split.
    + intros a Ha. destruct (Hc [] b bs eq_refl a Ha) as [?|?%elem_of_nil]; done.
    + intros pre b' post -> a Ha. destruct (Hc (b :: pre) b' post eq_refl a Ha) as [?|Hin]; [by do 2 left|].
      apply elem_of_cons in Hin as [->|?]; [by left; right|by right].
  - intros [Hb Hc] pre b' post Heq a Ha. destruct pre as [|x pre]; simplify_eq/=; [left; by apply Hb|].
    destruct (Hc pre b' post eq_refl a Ha) as [[?| ->]|?]; [by left|right; left|by right; right].
Qed.

Lemma causal_impl (R R' : BlockRef → Prop) bs : (∀ a, R a → R' a) → causal R bs → causal R' bs.
Proof. intros HR Hc pre b post Heq a Ha. destruct (Hc pre b post Heq a Ha); auto. Qed.

Lemma causal_app bs1 bs2 : ∀ R : BlockRef → Prop,
  causal R bs1 → causal (λ a, R a ∨ a ∈ (reference <$> bs1)) bs2 → causal R (bs1 ++ bs2).
Proof.
  induction bs1 as [|b bs1 IH]; intros R H1 H2; simpl.
  - eapply causal_impl; [|exact H2]. intros a [?|[]%elem_of_nil]; done.
  - apply causal_cons in H1 as [Hb H1]. apply causal_cons. split; [done|]. apply IH; [done|].
    eapply causal_impl; [|exact H2]. intros a. rewrite fmap_cons, elem_of_cons. tauto.
Qed.

(** ** Handing blocks to the DAG state *)

Lemma accept_one d (b : VerifiedBlock) : dag_ok d → own_ok d → stamps_ok d → input_ok d b →
  (∀ a, a ∈ ancestors b → known d a ∨ gced d a) → ∃ d', accept_block now instant d b = Ret d' ∧ extends d [b] d'.
Proof.
  intros Hok Hown Hmed Hin Hanc.
  assert (acceptable d now b) as Hac.
  { split; try apply Hin; [destruct Hmed as [?|[Hnow _]]; [by right|left; apply Hnow, Hin]| |exact Hanc]. intros r i Ho Hi Hs. destruct Hown as [Hidx Hown].
    destruct (ok_recent _ Hok _ _ Hi) as (Href & _). rewrite <-Href. rewrite <-Href in Hs. injection Hs as Hsr Hsa.
    apply U_unique; [|apply Hin|congruence|unfold slot; congruence].
    apply (Hown r); [by apply (recent_lookup d Hok)|]. by destruct (ok_recent _ Hok _ _ Hi) as (_ & _ & ? & _). }
  destruct (accept_block_cases d Hok now instant b Hac) as [[Hk Heq]|(Hn & clock & rs & Hcl & Hrs & Heq)]; rewrite Heq.
  - exists d. split; [done|]. split; try done; [|by left|by left|by left]. intros r. split; [by left|].
    intros [?|Hr]; [done|]. simpl in Hr. by apply list_elem_of_singleton in Hr as ->.
  - pose proof (lookup_block_accepted d clock rs b) as Hl. eexists. split; [done|]. split; try done.
    + by eapply dag_ok_accepted.
    + split; [apply Hown|]. intros r b'. rewrite Hl by apply Hin. case_decide as Hr; [intros [= <-] _; apply Hin|apply Hown].
    + intros r. unfold known. rewrite Hl by apply Hin. simpl. rewrite list_elem_of_singleton. case_decide; [naive_solver|tauto].
    + intros r b' Hb'. rewrite Hl by apply Hin. rewrite decide_False; [done|]. congruence.
    + intros r b'. rewrite Hl by apply Hin. case_decide; [intros [= <-]; right; left|by left].
    + intros r i Hi. simpl. rewrite lookup_insert_ne; [done|]. intros <-. by rewrite (recent_lookup d Hok _ _ Hi) in Hn.
    + intros r i. simpl. rewrite lookup_insert. case_decide as Hr; [|by left]. intros [= <-]. subst r. by right.
    + cbn. lia.
    + cbn. destruct (N.max_spec (ds_highest_accepted_round d) (round b)) as [[_ ->]|[_ ->]]; [right; exists b; set_solver|by left].
Qed.

Lemma accept_blocks_extends bs : ∀ d, dag_ok d → own_ok d → stamps_ok d → Forall (input_ok d) bs →
  causal (λ a, known d a ∨ gced d a) bs → ∃ d', accept_blocks now instant d bs = Ret d' ∧ extends d bs d'.
Proof.
  induction bs as [|b bs IH]; intros d Hok Hown Hmed Hin Hc.
  { exists d. split; [done|by apply extends_refl]. }
  apply Forall_cons in Hin as [Hb Hbs]. apply causal_cons in Hc as [Hanc Hc].
  destruct (accept_one d b Hok Hown Hmed Hb Hanc) as (d1 & Heq & H1).
  destruct (IH d1) as (d2 & Heq2 & H2); [apply H1|apply H1|by eapply stamps_ok_extends| | |].
  - eapply Forall_impl; [done|]. intros x Hx. eapply input_ok_mono; [apply H1| |done].
    intros r. by apply extends_mono with (bs := [b]).
  - eapply causal_impl; [|exact Hc]. intros a. cbn beta. rewrite (ex_known _ _ _ H1), (extends_gced _ _ _ _ H1).
    simpl. rewrite list_elem_of_singleton. tauto.
  - exists d2. unfold accept_blocks. cbn [foldM]. rewrite Heq. split; [exact Heq2|].
    by apply (extends_trans d d1 d2 [b] bs).
Qed.

(** Accepting blocks that are known changes nothing. *)
Lemma accept_blocks_known d bs : dag_ok d → own_ok d → stamps_ok d → Forall (input_ok d) bs →
  (∀ b : VerifiedBlock, b ∈ bs → known d (reference b)) → accept_blocks now instant d bs = Ret d.
Proof.
  intros Hok Hown Hst Hin Hk. unfold accept_blocks. induction bs as [|b bs IH]; [done|]. cbn [foldM].
  apply Forall_cons in Hin as [Hb Hin]. destruct (Hk b ltac:(left)) as [x Hx]. unfold accept_block.
  rewrite (proj2 (N.eqb_neq (round b) 0)) by (pose proof (in_round _ _ Hb); lia). cbn [negb assert mbind outcome_bind].
  rewrite (contains_block_ret d Hok) by apply (in_block _ _ Hb). cbn [mbind outcome_bind]. rewrite bool_decide_eq_true_2 by eauto.
  apply IH; [done|]. intros b' Hb'. apply Hk. by right.
Qed.

(** Blocks in the order of their rounds come after the ancestors among them. *)
Lemma ordered_causal (R : BlockRef → Prop) d (bs : list VerifiedBlock) : Forall (input_ok d) bs →
  StronglySorted (λ a b : VerifiedBlock, round a <= round b) bs →
  (∀ b a : _, b ∈ bs → a ∈ ancestors (b : VerifiedBlock) → R a ∨ a ∈ (reference <$> bs)) → causal R bs.
Proof.
  intros Hin Hs Hclosed pre b post -> a Ha. destruct (Hclosed b a) as [?|Hr]; [set_solver|done|by left|].
  right. rewrite fmap_app, elem_of_app in Hr. destruct Hr as [?|Hr]; [done|exfalso].
  rewrite Forall_forall in Hin. pose proof (bo_round _ _ (in_block _ _ (Hin b ltac:(set_solver))) a Ha) as Hlt.
  apply StronglySorted_app in Hs as (_ & _ & [Hall _]%StronglySorted_cons).
  apply list_elem_of_fmap in Hr as (b' & -> & [->|Hb']%elem_of_cons); simpl in Hlt; [lia|].
  rewrite Forall_forall in Hall. specialize (Hall b' Hb'). cbn in Hall. lia.
Qed.

Section timestamps.
Context d (Hok : dag_ok d) (Hown : own_ok d).

(** An ancestor as it is found: a block made or of the genesis, or nothing below
    the garbage-collection round. *)
Definition found_ancestor (r : BlockRef) (o : option VerifiedBlock) : Prop :=
  match o with
  | Some a => reference a = r ∧ (U a ∨ ds_genesis d !! reference a = Some a)
  | None => gced d r
  end.

Lemma lookup_found r a : lookup_block d r = Some a → found_ancestor r (Some a).
Proof.
  intros Ha. pose proof (lookup_block_reference d Hok r a Ha) as Hr. split; [done|].
  destruct (decide (0 < ref_round r)) as [Hp|Hz]; [left; by apply (proj2 Hown r)|right].
  unfold lookup_block, get_cached in Ha. rewrite Hr. by rewrite (proj2 (N.eqb_eq (ref_round r) GENESIS_ROUND)) in Ha by (unfold GENESIS_ROUND; lia).
Qed.

Lemma collect_found to_accept l : (∀ r a, to_accept !! r = Some a → reference a = r ∧ U a) →
  (∀ r, r ∈ l → known d r ∨ gced d r ∨ is_Some (to_accept !! r)) →
  ∃ ancs, collect_ancestor_blocks (gc_enabled d) (gc_round d) to_accept ∅ (zip l (lookup_block d <$> l)) = Ret (Some ancs) ∧
    Forall2 found_ancestor l ancs.
Proof.
  intros Hacc. induction l as [|r l IH]; intros Hl; cbn [fmap list_fmap zip zip_with collect_ancestor_blocks].
  { exists []. split; [done|constructor]. }
  destruct IH as (ancs & -> & Hf); [intros; apply Hl; by right|]. cbn [mbind outcome_bind].
  destruct (lookup_block d r) as [a|] eqn:Ha.
  { destruct (lookup_found r a Ha) as [Hr Hu]. rewrite bool_decide_eq_true_2 by done. cbn. eexists. split; [done|]. by constructor. }
  destruct (to_accept !! r) as [a|] eqn:Hta.
  { destruct (Hacc r a Hta). cbn. eexists. split; [done|]. constructor; [|done]. split; [done|by left]. }
  rewrite lookup_empty, bool_decide_eq_false_2 by by intros []. destruct (Hl r) as [[? Hk]|[Hg|[? Ht]]]; [left|congruence| |congruence].
  pose proof Hg as [-> [Hz Hle]]. rewrite (proj2 (N.ltb_lt GENESIS_ROUND _)), (proj2 (N.leb_le _ _)) by (unfold GENESIS_ROUND; lia).
  cbn. eexists. split; [done|]. by constructor.
Qed.

Lemma check_found (b : VerifiedBlock) ancs : Forall2 found_ancestor (ancestors b) ancs →
  (∀ a : VerifiedBlock, U a ∨ ds_genesis d !! reference a = Some a → reference a ∈ ancestors b → timestamp_ms a <= timestamp_ms b) →
  check_ancestors b ancs (gc_enabled d) (gc_round d) = Ret (Ok tt).
Proof.
  intros Hf Hts. assert (∀ a : VerifiedBlock, Some a ∈ ancs → timestamp_ms a <= timestamp_ms b) as Hall.
  { intros a (i & Hi)%list_elem_of_lookup. destruct (Forall2_lookup_r _ _ _ _ _ Hf Hi) as (r & Hr & Hra & Hu).
    apply Hts; [done|]. rewrite Hra. by eapply list_elem_of_lookup_2. }
  unfold check_ancestors. destruct (gc_enabled d) eqn:Hgc.
  - f_equal. cut (∀ m, m <= timestamp_ms b → check_ancestors_gc b (gc_round d) ancs m = Ok tt); [intros Hcut; apply Hcut; lia|].
    clear Hf. induction ancs as [|[a|] ancs IH]; intros m Hm; cbn [check_ancestors_gc]; [done| |].
    + pose proof (Hall a ltac:(left)). destruct (_ <=? _); [by apply IH; [set_solver|]|]. rewrite (proj2 (N.ltb_ge _ _)) by lia.
      apply IH; [set_solver|lia].
    + apply IH; [set_solver|done].
  - rewrite bool_decide_eq_true_2 by by eapply Forall2_length. cbn [assert mbind outcome_bind].
    match goal with |- context [foldM ?f 0 ?l] => edestruct (foldM_inv (λ m, m <= timestamp_ms b) f l 0) as (m & -> & Hm) end;
      [| |cbn; by rewrite (proj2 (N.ltb_ge _ _)) by done].
    + intros m [r [a|]] Hin Hm; apply elem_of_lookup_zip_with in Hin as (i & r' & o' & Heq & Hi & Ho); simplify_eq;
        pose proof (Forall2_lookup_lr _ _ _ _ _ _ Hf Hi Ho) as Hfa.
      * destruct Hfa as [Hr _]. rewrite bool_decide_eq_true_2 by done. cbn. eexists. split; [done|].
        pose proof (Hall a (list_elem_of_lookup_2 _ _ _ Ho)). lia.
      * destruct Hfa as [Hg _]. congruence.
    + lia.
Qed.

Lemma verify_stamps_all bs : stamps_ok d → ¬ median_on d → Forall (input_ok d) bs → causal (λ a, known d a ∨ gced d a) bs →
  ∃ to_accept, foldM (verify_one_timestamp d (gc_enabled d) (gc_round d)) (∅, ∅) bs = Ret (to_accept, ∅) ∧
    (∀ r a, to_accept !! r = Some a → reference a = r ∧ a ∈ bs) ∧
    (∀ r, is_Some (to_accept !! r) ↔ r ∈ (reference <$> bs)).
Proof.
  intros [?|[_ Hts]] Hmed Hin Hc; [done|]. rewrite Forall_forall in Hin.
  edestruct (foldM_prefix (λ pre x, x.2 = ∅ ∧ (∀ r a, x.1 !! r = Some a → reference a = r ∧ a ∈ pre) ∧
    (∀ r, is_Some (x.1 !! r) ↔ r ∈ (reference <$> pre))) (verify_one_timestamp d (gc_enabled d) (gc_round d)) bs)
    as ([to_accept to_reject] & Heq & Hrej & Hacc); [| |cbn in *; subst; by exists to_accept].
  - intros pre b post [acc rej] -> (Hrej & Hacc & Hdom). cbn in Hrej, Hacc, Hdom. subst rej. unfold verify_one_timestamp.
    rewrite get_blocks_ret by apply Hok. cbn [mbind outcome_bind]. rewrite length_fmap, bool_decide_eq_true_2 by done. cbn [assert mbind outcome_bind].
    destruct (collect_found acc (ancestors b)) as (ancs & -> & Hf).
    { intros r a [Hr Ha]%Hacc. split; [done|]. apply (Hin a). set_solver. }
    { intros a Ha. destruct (Hc pre b post eq_refl a Ha) as [[?|?]|?]; [by left|by right; left|right; right; by apply Hdom]. }
    cbn [mbind outcome_bind]. rewrite (check_found b ancs Hf).
    2:{ intros a Hu Ha. apply Hts; [|done..]. apply (Hin b). set_solver. }
    cbn [mbind outcome_bind]. eexists. split; [done|]. cbn. split_and!; [done| |].
    + intros r a [[<- <-]|[_ [Hr Ha]%Hacc]]%lookup_insert_Some; [split; [done|set_solver]|split; [done|set_solver]].
    + intros r. rewrite lookup_insert_is_Some', Hdom, fmap_app, elem_of_app. cbn. rewrite list_elem_of_singleton. naive_solver.
  - cbn. split_and!; [done| |]; [by intros ?? ?%lookup_empty_Some|]. intros r. rewrite lookup_empty, elem_of_nil, is_Some_alt. done.
Qed.
End timestamps.

(** The blocks of a map by reference, in order. *)
Lemma entries_ordered (m : gmap BlockRef VerifiedBlock) : (∀ r a, m !! r = Some a → reference a = r) →
  StronglySorted (λ a b : VerifiedBlock, round a <= round b) (btree_entries m).*2.
Proof.
  intros Href. pose proof (btree_iter_sorted (dom m)) as Hs. fold (btree_keys m) in Hs. rewrite <-btree_entries_fst in Hs.
  assert (∀ x, x ∈ btree_entries m → reference x.2 = x.1) as Hm by (intros [r a] Hx%elem_of_btree_entries; by apply Href).
  induction (btree_entries m) as [|[r a] l IH]; [constructor|]. csimpl in *. apply StronglySorted_cons in Hs as [Hall Hs]. constructor.
  - apply IH; [done|]. intros x Hx. apply Hm. by right.
  - apply Forall_forall. intros b ([r' b'] & -> & Hx)%list_elem_of_fmap. rewrite Forall_forall in Hall. specialize (Hall r' ltac:(apply list_elem_of_fmap; by exists (r', b'))).
    apply ref_le_round in Hall. pose proof (Hm (r, a) ltac:(left)) as Hr. pose proof (Hm (r', b') ltac:(by right)) as Hr'.
    cbn in Hr, Hr'. by rewrite <-Hr, <-Hr' in Hall.
Qed.

(** The blocks are handed over; when their timestamps are looked at, in the order
    of their references. *)
Lemma verify_and_accept d bs : dag_ok d → own_ok d → stamps_ok d → Forall (input_ok d) bs →
  causal (λ a, known d a ∨ gced d a) bs →
  ∃ d' bs', verify_block_timestamps_and_accept now instant d bs = Ret (d', bs') ∧ extends d bs' d' ∧
    causal (λ a, known d a ∨ gced d a) bs' ∧ (∀ r, r ∈ (reference <$> bs') ↔ r ∈ (reference <$> bs)) ∧
    (∀ b : VerifiedBlock, b ∈ bs' → b ∈ bs) ∧ (median_on d → bs' = bs).
Proof.
  intros Hok Hown Hst Hin Hc. unfold verify_block_timestamps_and_accept.
  destruct (consensus_median_timestamp_with_checkpoint_enforcement (protocol_config (ds_context d))) eqn:Hmed.
  { destruct (accept_blocks_extends bs d Hok Hown Hst Hin Hc) as (d' & Heq & He). cbn [mbind outcome_bind]. exists d', bs. by rewrite Heq. }
  destruct (verify_stamps_all d Hok Hown bs Hst) as (acc & Hacc & Href & Hdom); [by rewrite Hmed|done|done|].
  unfold verify_block_timestamps. rewrite Hacc. cbn [mbind outcome_bind]. change (btree_keys ∅) with (@nil BlockRef). cbn [mapM mbind outcome_bind].
  set (bs' := (btree_entries acc).*2).
  assert (∀ b, b ∈ bs' ↔ acc !! reference b = Some b) as Hbs'.
  { intros b. unfold bs'. rewrite list_elem_of_fmap. split.
    - intros ([r b'] & -> & Hb%elem_of_btree_entries). cbn. by destruct (Href r b' Hb) as [-> _].
    - intros Hb. exists (reference b, b). split; [done|]. by apply elem_of_btree_entries. }
  assert (∀ r, r ∈ (reference <$> bs') ↔ r ∈ (reference <$> bs)) as Hrefs.
  { intros r. rewrite <-Hdom, list_elem_of_fmap. setoid_rewrite Hbs'. split; [intros (b & -> & Hb); by exists b|].
    intros [b Hb]. destruct (Href r b Hb) as [<- _]. by exists b. }
  assert (Forall (input_ok d) bs') as Hin'.
  { rewrite Forall_forall in *. intros b Hb%Hbs'. apply Hin. by destruct (Href _ b Hb). }
  assert (causal (λ a, known d a ∨ gced d a) bs') as Hc'.
  { apply (ordered_causal _ d); [done|apply entries_ordered; intros r a; apply Href|]. intros b a Hb%Hbs' Ha. rewrite Hrefs.
    destruct (Href _ b Hb) as [_ (pre & post & ->)%list_elem_of_split]. destruct (Hc pre b post eq_refl a Ha) as [?|Hp]; [by left|right].
    rewrite fmap_app. set_solver. }
  destruct (accept_blocks_extends bs' d Hok Hown Hst Hin' Hc') as (d' & -> & He). cbn [mbind outcome_bind mret outcome_ret].
  rewrite (accept_blocks_known d' bs'); [|apply He|apply He|by eapply stamps_ok_extends| |].
  - cbn [mbind outcome_bind]. exists d', bs'. split_and!; [done|done|done|done| |done]. intros b Hb%Hbs'. by destruct (Href _ b Hb).
  - eapply Forall_impl; [done|]. intros x Hx. eapply input_ok_mono; [apply He| |done]. intros r. by eapply extends_mono.
  - intros b Hb. apply (ex_known _ _ _ He). right. by apply list_elem_of_fmap_2.
Qed.

(** ** The invariant *)

(** The suspended blocks that wait for [a]. *)
Definition children (m : BlockManager) (a : BlockRef) : gset BlockRef := default ∅ (bm_missing_ancestors m !! a).

Definition waits_for (m : BlockManager) (a r : BlockRef) : Prop :=
  ∃ s, bm_suspended_blocks m !! r = Some s ∧ a ∈ sb_missing_ancestors s.

(** A suspended block and what it waits for; [R] holds of the ancestors it need
    not wait for. *)
Record suspended_ok d (R : BlockRef → Prop) (r : BlockRef) (s : SuspendedBlock) : Prop := {
  su_ref : reference (sb_block s) = r;
  su_input : input_ok d (sb_block s);
  su_waits : sb_missing_ancestors s ≠ ∅;
  su_missing a : a ∈ sb_missing_ancestors s → a ∈ ancestors (sb_block s);
  su_rest a : a ∈ ancestors (sb_block s) → a ∈ sb_missing_ancestors s ∨ R a;
}.

Definition missing_ok d (a : BlockRef) : Prop :=
  g < ref_round a ∧ is_valid_index (committee (ds_context d)) (ref_author a).

Record bm_ok (m : BlockManager) d : Prop := {
  bm_dag : dag_ok d;
  bm_own : own_ok d;
  bm_swept : g <= gc_round d;
  bm_rounds : length (bm_received_block_rounds m) = N.to_nat (committee_size (committee (ds_context d)));
  bm_suspended r s : bm_suspended_blocks m !! r = Some s →
    ¬ known d r ∧ suspended_ok d (λ a, known d a ∨ gced d a) r s;
  bm_link a r : r ∈ children m a ↔ waits_for m a r;
  bm_missing a : a ∈ dom (bm_missing_ancestors m) → missing_ok d a ∧ ¬ known d a;
  bm_fetch a : a ∈ dom (bm_missing_blocks m) ↔ a ∈ dom (bm_missing_ancestors m) ∧ a ∉ dom (bm_suspended_blocks m);
}.

(** ** Unsuspending children

    The state of the loop: [a0] has just become available, [out] are the blocks
    unsuspended so far, [todo] is the stack and [rest] the children of the
    dependency being processed. *)

Definition out_refs (out : list SuspendedBlock) : list BlockRef := (λ s, reference (sb_block s)) <$> out.

Definition resolved (a0 : BlockRef) (out : list SuspendedBlock) (a : BlockRef) : Prop := a = a0 ∨ a ∈ out_refs out.

Record loop_ok d (a0 : BlockRef) (S0 : gset BlockRef) (m : BlockManager) (todo : list BlockRef)
    (rest : list (BlockRef * BlockRef)) (out : list SuspendedBlock) : Prop := {
  lo_suspended r s : bm_suspended_blocks m !! r = Some s →
    ¬ known d r ∧ ¬ resolved a0 out r ∧ suspended_ok d (λ a, known d a ∨ gced d a ∨ resolved a0 out a) r s;
  lo_link a r : ((a, r) ∈ rest ∨ r ∈ children m a) ↔ waits_for m a r;
  lo_missing a : a ∈ dom (bm_missing_ancestors m) →
    missing_ok d a ∧ (a = a0 ∨ ¬ known d a) ∧ (resolved a0 out a → a ∈ todo);
  lo_fetch a : a ∈ dom (bm_missing_blocks m) ↔
    a ∈ dom (bm_missing_ancestors m) ∧ (a ∉ dom (bm_suspended_blocks m)) ∧ a ∉ todo;
  lo_todo a : a ∈ todo → resolved a0 out a;
  lo_rest a r : (a, r) ∈ rest → resolved a0 out a ∧ bm_missing_ancestors m !! a = None;
  lo_nodup : NoDup rest;
  lo_causal : causal (λ a, known d a ∨ gced d a ∨ a = a0) (sb_block <$> out);
  lo_input : Forall (λ s, input_ok d (sb_block s) ∧ ¬ known d (reference (sb_block s))) out;
  lo_before r : r ∈ S0 ↔ r ∈ dom (bm_suspended_blocks m) ∨ r ∈ out_refs out;
}.

Lemma out_refs_snoc out s a : a ∈ out_refs (out ++ [s]) ↔ a ∈ out_refs out ∨ a = reference (sb_block s).
Proof. unfold out_refs. rewrite fmap_app, elem_of_app. simpl. by rewrite list_elem_of_singleton. Qed.

Lemma resolved_snoc a0 out s a : resolved a0 (out ++ [s]) a ↔ resolved a0 out a ∨ a = reference (sb_block s).
Proof. unfold resolved. rewrite out_refs_snoc. tauto. Qed.

Lemma suspended_ok_impl d (R R' : BlockRef → Prop) r s : (∀ a, R a → R' a) → suspended_ok d R r s → suspended_ok d R' r s.
Proof. intros HR [? ? ? ? Hrest]. split; try done. intros a Ha. destruct (Hrest a Ha); auto. Qed.

(** The last missing ancestor of a block arrives. *)
Lemma loop_unsuspend d a0 S0 m todo a r rest out s :
  loop_ok d a0 S0 m todo ((a, r) :: rest) out → bm_suspended_blocks m !! r = Some s → sb_missing_ancestors s = {[a]} →
  loop_ok d a0 S0 (set_suspended m (delete r (bm_suspended_blocks m))) (r :: todo) rest
    (out ++ [mk_suspended (sb_block s) ∅ (sb_timestamp s)]).
Proof.
  intros Hl Hs Hmiss. destruct (lo_suspended _ _ _ _ _ _ _ Hl r s Hs) as (Hunk & Hunres & Hsu).
  pose proof (su_ref _ _ _ _ Hsu) as Href. destruct (lo_rest _ _ _ _ _ _ _ Hl a r ltac:(left)) as [Hres Hnone].
  pose proof (lo_nodup _ _ _ _ _ _ _ Hl) as [Hnin Hnd]%NoDup_cons.
  split; simpl.
  - intros r' s'. rewrite lookup_delete. case_decide as Hr; [done|]. intros Hs'.
    destruct (lo_suspended _ _ _ _ _ _ _ Hl r' s' Hs') as (Hunk' & Hunres' & Hsu'). split; [done|].
    rewrite resolved_snoc. simpl. rewrite Href. split; [naive_solver|].
    eapply suspended_ok_impl; [|exact Hsu']. intros a'. rewrite resolved_snoc. tauto.
  - intros a' r'. unfold waits_for, children. simpl. rewrite lookup_delete.
    pose proof (lo_link _ _ _ _ _ _ _ Hl a' r') as Hlink. unfold waits_for, children in Hlink. rewrite elem_of_cons in Hlink.
    case_decide as Hr; [subst r'|naive_solver].
    split; [|by intros (? & ? & _)]. intros Hin. exfalso.
    destruct (proj1 Hlink) as (s' & Hs' & Ha'); [tauto|]. rewrite Hs in Hs'. injection Hs' as <-.
    rewrite Hmiss in Ha'. apply elem_of_singleton in Ha' as ->. destruct Hin as [?|Hin]; [done|]. by rewrite Hnone in Hin.
  - intros a' Ha'. destruct (lo_missing _ _ _ _ _ _ _ Hl a' Ha') as (Hok & Hk & Ht). split; [done|]. split; [done|].
    rewrite resolved_snoc, elem_of_cons. simpl. rewrite Href. tauto.
  - intros a'. rewrite (lo_fetch _ _ _ _ _ _ _ Hl a'), dom_delete_L, elem_of_difference, elem_of_singleton, elem_of_cons.
    destruct (decide (a' = r)) as [->|]; [|tauto]. apply elem_of_dom_2 in Hs. tauto.
  - intros a'. rewrite elem_of_cons, resolved_snoc. simpl. rewrite Href. intros [->|Ha']; [by right|left; by eapply lo_todo].
  - intros a' r' Hin. destruct (lo_rest _ _ _ _ _ _ _ Hl a' r') as [? ?]; [by right|]. rewrite resolved_snoc. tauto.
  - done.
  - rewrite fmap_app. apply causal_snoc; [apply Hl|]. simpl. intros a' Ha'. rewrite <-list_fmap_compose.
    destruct (su_rest _ _ _ _ Hsu a' Ha') as [Hin|Hin].
    + rewrite Hmiss in Hin. apply elem_of_singleton in Hin as ->. destruct Hres as [->|Hres]; [tauto|by right].
    + unfold resolved in Hin. destruct Hin as [?|[?|[?|?]]]; [tauto..|by right].
  - apply Forall_app. split; [apply Hl|]. apply Forall_singleton. simpl. rewrite Href. split; [apply Hsu|done].
  - intros r'. rewrite (lo_before _ _ _ _ _ _ _ Hl r'), out_refs_snoc, dom_delete_L, elem_of_difference, elem_of_singleton. simpl.
    rewrite Href. destruct (decide (r' = r)) as [->|]; [|tauto]. apply elem_of_dom_2 in Hs. tauto.
Qed.

(** One of several missing ancestors of a block arrives. *)
Lemma loop_keep d a0 S0 m todo a r rest out s :
  loop_ok d a0 S0 m todo ((a, r) :: rest) out → bm_suspended_blocks m !! r = Some s →
  sb_missing_ancestors s ∖ {[a]} ≠ ∅ →
  loop_ok d a0 S0 (set_suspended m
    (<[r := mk_suspended (sb_block s) (sb_missing_ancestors s ∖ {[a]}) (sb_timestamp s)]> (bm_suspended_blocks m))) todo rest out.
Proof.
  intros Hl Hs Hne. destruct (lo_suspended _ _ _ _ _ _ _ Hl r s Hs) as (Hunk & Hunres & Hsu).
  destruct (lo_rest _ _ _ _ _ _ _ Hl a r ltac:(left)) as [Hres Hnone].
  pose proof (lo_nodup _ _ _ _ _ _ _ Hl) as [Hnin Hnd]%NoDup_cons.
  assert (dom (<[r := mk_suspended (sb_block s) (sb_missing_ancestors s ∖ {[a]}) (sb_timestamp s)]> (bm_suspended_blocks m)) =
    dom (bm_suspended_blocks m)) as Hdom.
  { rewrite dom_insert_L. apply elem_of_dom_2 in Hs. set_solver. }
  split; simpl; rewrite ?Hdom; try by apply Hl.
  - intros r' s'. rewrite lookup_insert. case_decide as Hr; [|apply Hl]. intros [= <-]. subst r'.
    split; [done|]. split; [done|]. split; simpl; try apply Hsu; [done| |].
    + intros a' [Ha' _]%elem_of_difference. by apply Hsu.
    + intros a' Ha'. destruct (su_rest _ _ _ _ Hsu a' Ha') as [Hin|?]; [|by right].
      rewrite elem_of_difference, elem_of_singleton. destruct (decide (a' = a)) as [->|]; tauto.
  - intros a' r'. unfold waits_for, children. simpl. rewrite lookup_insert.
    pose proof (lo_link _ _ _ _ _ _ _ Hl a' r') as Hlink. unfold waits_for, children in Hlink. rewrite elem_of_cons in Hlink.
    case_decide as Hr; [subst r'|naive_solver]. rewrite Hs in Hlink.
    transitivity (a' ∈ sb_missing_ancestors s ∖ {[a]}); [|naive_solver].
    rewrite elem_of_difference, elem_of_singleton. destruct (decide (a' = a)) as [->|Hne']; [|naive_solver].
    rewrite Hnone. simpl. set_solver.
  - intros a' r' Hin. apply (lo_rest _ _ _ _ _ _ _ Hl a' r'). by right.
  - exact Hnd.
Qed.

Abbreviation loop_size m todo := (length todo + size (bm_suspended_blocks m))%nat (only parsing).

Lemma unsuspend_child_ok d a0 S0 m todo a r rest out : loop_ok d a0 S0 m todo ((a, r) :: rest) out →
  ∃ m' todo' out', unsuspend_child a (m, todo, out) r = Ret (m', todo', out') ∧
    loop_ok d a0 S0 m' todo' rest out' ∧ loop_size m' todo' = loop_size m todo ∧
    bm_received_block_rounds m' = bm_received_block_rounds m.
Proof.
  intros Hl. destruct (proj1 (lo_link _ _ _ _ _ _ _ Hl a r)) as (s & Hs & Ha); [by left; left|].
  unfold unsuspend_child, try_unsuspend_block. rewrite Hs. cbn [expect mbind outcome_bind].
  rewrite (bool_decide_eq_true_2 (a ∈ _)) by exact Ha. cbn [assert mbind outcome_bind sb_missing_ancestors].
  destruct (lo_suspended _ _ _ _ _ _ _ Hl r s Hs) as (_ & _ & Hsu).
  case_bool_decide as He; cbn [mbind outcome_bind].
  - rewrite (su_ref _ _ _ _ Hsu : reference (sb_block (mk_suspended (sb_block s) _ _)) = r).
    assert (sb_missing_ancestors s = {[a]}) as Hm.
    { apply set_eq. intros x. rewrite elem_of_singleton. split; [|by intros ->]. intros Hx.
      destruct (decide (x = a)) as [|Hne]; [done|]. exfalso. apply (not_elem_of_empty (C := gset BlockRef) x). rewrite <-He.
      by rewrite elem_of_difference, elem_of_singleton. }
    do 3 eexists. split; [done|]. rewrite He. split; [by eapply loop_unsuspend|]. split; [|done].
    simpl. rewrite map_size_delete_Some by (rewrite Hs; by eexists).
    assert (size (bm_suspended_blocks m) ≠ 0%nat) by (intros Hz%map_size_empty_inv; by rewrite Hz in Hs). lia.
  - do 3 eexists. split; [done|]. split; [by eapply loop_keep|]. split; [|done].
    simpl. by rewrite map_size_insert_Some by (rewrite Hs; by eexists).
Qed.

Lemma unsuspend_children_ok d a0 S0 a rs : ∀ m todo out, loop_ok d a0 S0 m todo ((λ r, (a, r)) <$> rs) out →
  ∃ m' todo' out', foldM (unsuspend_child a) (m, todo, out) rs = Ret (m', todo', out') ∧
    loop_ok d a0 S0 m' todo' [] out' ∧ loop_size m' todo' = loop_size m todo ∧
    bm_received_block_rounds m' = bm_received_block_rounds m.
Proof.
  induction rs as [|r rs IH]; intros m todo out Hl; [by exists m, todo, out|].
  destruct (unsuspend_child_ok d a0 S0 m todo a r _ out Hl) as (m1 & todo1 & out1 & Heq & Hl1 & Hsz & Hr).
  destruct (IH m1 todo1 out1 Hl1) as (m2 & todo2 & out2 & Heq2 & Hl2 & Hsz2 & Hr2).
  exists m2, todo2, out2. cbn [foldM]. rewrite Heq. cbn [mbind outcome_bind]. split_and!; [done..|lia|congruence].
Qed.

Lemma loop_pop d a0 S0 m todo a out : loop_ok d a0 S0 m (a :: todo) [] out → bm_missing_ancestors m !! a = None →
  loop_ok d a0 S0 m todo [] out.
Proof.
  intros Hl Hnone. split; try apply Hl.
  - intros a' Ha'. destruct (lo_missing _ _ _ _ _ _ _ Hl a' Ha') as (Hok & Hk & Ht). split_and!; [done..|].
    intros Hr. specialize (Ht Hr). apply elem_of_cons in Ht as [->|]; [|done]. by apply not_elem_of_dom in Hnone.
  - intros a'. rewrite (lo_fetch _ _ _ _ _ _ _ Hl a'), elem_of_cons. destruct (decide (a' = a)) as [->|]; [|tauto].
    apply not_elem_of_dom in Hnone. tauto.
  - intros a' Ha'. apply (lo_todo _ _ _ _ _ _ _ Hl). by right.
Qed.

Lemma loop_process d a0 S0 m todo a cs out : loop_ok d a0 S0 m (a :: todo) [] out → bm_missing_ancestors m !! a = Some cs →
  loop_ok d a0 S0 (set_missing_ancestors m (delete a (bm_missing_ancestors m))) todo
    ((λ r, (a, r)) <$> btree_iter cs) out.
Proof.
  intros Hl Hcs.
  assert (∀ a' r, (a', r) ∈ ((λ r, (a, r)) <$> btree_iter cs) ↔ a' = a ∧ r ∈ cs) as Hrest.
  { intros a' r. rewrite list_elem_of_fmap. setoid_rewrite elem_of_btree_iter. naive_solver. }
  split; simpl; try apply Hl.
  - intros a' r. rewrite Hrest. pose proof (lo_link _ _ _ _ _ _ _ Hl a' r) as Hlink. unfold children in *. simpl.
    change (waits_for (set_missing_ancestors _ _) a' r) with (waits_for m a' r). rewrite <-Hlink, lookup_delete.
    case_decide as Ha; [subst a'; rewrite Hcs|]; simpl; set_solver.
  - intros a'. rewrite dom_delete_L, elem_of_difference, elem_of_singleton. intros [Ha' Hne].
    destruct (lo_missing _ _ _ _ _ _ _ Hl a' Ha') as (Hok & Hk & Ht). split_and!; [done..|].
    intros Hr. specialize (Ht Hr). by apply elem_of_cons in Ht as [->|].
  - intros a'. rewrite (lo_fetch _ _ _ _ _ _ _ Hl a'), dom_delete_L, elem_of_difference, elem_of_singleton, elem_of_cons. tauto.
  - intros a' Ha'. apply (lo_todo _ _ _ _ _ _ _ Hl). by right.
  - intros a' r [-> _]%Hrest. split; [apply (lo_todo _ _ _ _ _ _ _ Hl); left|by rewrite lookup_delete_eq].
  - apply (NoDup_fmap_2 _), btree_iter_NoDup.
Qed.

Lemma unsuspend_loop_ok d a0 S0 fuel : ∀ m todo out, loop_ok d a0 S0 m todo [] out → (loop_size m todo <= fuel)%nat →
  ∃ m' out', unsuspend_loop fuel m todo out = Ret (m', out') ∧ loop_ok d a0 S0 m' [] [] out' ∧
    bm_received_block_rounds m' = bm_received_block_rounds m.
Proof.
  induction fuel as [|fuel IH]; intros m [|a todo] out Hl Hsz; simpl in Hsz; try by exists m, out.
  { lia. }
  cbn [unsuspend_loop]. destruct (bm_missing_ancestors m !! a) as [cs|] eqn:Hcs.
  - destruct (unsuspend_children_ok d a0 S0 a _ _ _ _ (loop_process _ _ _ _ _ _ _ _ Hl Hcs))
      as (m1 & todo1 & out1 & -> & Hl1 & Hsz1 & Hr1). cbn [mbind outcome_bind]. simpl in Hsz1, Hr1.
    destruct (IH m1 todo1 out1 Hl1) as (m2 & out2 & Heq & Hl2 & Hr2); [lia|]. exists m2, out2. split_and!; [done..|congruence].
  - apply IH; [by eapply loop_pop|lia].
Qed.

Lemma loop_start d m mb a0 :
  (∀ r s, bm_suspended_blocks m !! r = Some s →
    ¬ known d r ∧ r ≠ a0 ∧ suspended_ok d (λ a, known d a ∨ gced d a) r s) →
  (∀ a r, r ∈ children m a ↔ waits_for m a r) →
  (∀ a, a ∈ dom (bm_missing_ancestors m) → missing_ok d a ∧ (a = a0 ∨ ¬ known d a)) →
  (∀ a, a ∈ dom mb ↔ a ∈ dom (bm_missing_ancestors m) ∧ (a ∉ dom (bm_suspended_blocks m)) ∧ a ≠ a0) →
  loop_ok d a0 (dom (bm_suspended_blocks m)) (set_missing_blocks m mb) [a0] [] [].
Proof.
  intros Hsus Hlink Hmiss Hfetch. split; simpl.
  - intros r s Hs. destruct (Hsus r s Hs) as (Hk & Hne & Hsu). split; [done|]. split; [by intros [?|[]%elem_of_nil]|].
    eapply suspended_ok_impl; [|exact Hsu]. cbn beta. tauto.
  - intros a r. change (waits_for (set_missing_blocks m mb) a r) with (waits_for m a r). rewrite <-Hlink.
    rewrite elem_of_nil. unfold children. simpl. tauto.
  - intros a Ha. destruct (Hmiss a Ha). split_and!; [done..|]. intros [->|[]%elem_of_nil]. left.
  - intros a. by rewrite list_elem_of_singleton.
  - intros a ->%list_elem_of_singleton. by left.
  - intros ?? []%elem_of_nil.
  - constructor.
  - intros [] ?? Heq; done.
  - constructor.
  - intros r. unfold out_refs. simpl. rewrite elem_of_nil. tauto.
Qed.

(** The children of [a0] are handed over and the invariant is back. *)
Lemma loop_finish d a0 S0 m out d' bs : loop_ok d a0 S0 m [] [] out → extends d bs d' → g <= gc_round d →
  length (bm_received_block_rounds m) = N.to_nat (committee_size (committee (ds_context d))) →
  (∀ r, r ∈ out_refs out → r ∈ (reference <$> bs)) → (∀ r, r ∈ (reference <$> bs) → resolved a0 out r) →
  known d' a0 ∨ gced d a0 → bm_ok m d'.
Proof.
  intros Hl He Hg Hrounds Hin Hout Ha0. pose proof (ex_context _ _ _ He) as Hctx.
  assert (∀ r, ¬ known d r → ¬ resolved a0 out r → ¬ known d' r) as Hunk.
  { intros r Hr Hres Hk. apply (ex_known _ _ _ He) in Hk as [?|Hb]; [done|]. by apply Hres, Hout. }
  split; rewrite ?Hctx, ?(extends_gc_round _ _ _ He); try done; try apply He.
  - intros r s Hs. destruct (lo_suspended _ _ _ _ _ _ _ Hl r s Hs) as (Hk & Hres & Hsu). split; [by apply Hunk|].
    destruct Hsu as [Href Hi Hw Hm Hrest]. split; try done.
    { eapply input_ok_mono; [done| |done]. intros ?. by eapply extends_mono. }
    intros a Ha. destruct (Hrest a Ha) as [?|[Hk'|[Hgd|[->|Hr]]]]; [by left|right..].
    + left. by eapply extends_mono.
    + right. by apply (extends_gced _ _ _ _ He).
    + destruct Ha0; [by left|right; by apply (extends_gced _ _ _ _ He)].
    + left. apply (ex_known _ _ _ He). right. by apply Hin.
  - intros a r. rewrite <-(lo_link _ _ _ _ _ _ _ Hl a r), elem_of_nil. tauto.
  - intros a Ha. destruct (lo_missing _ _ _ _ _ _ _ Hl a Ha) as (Hok & Hk & Ht). unfold missing_ok in *. rewrite Hctx.
    assert (¬ resolved a0 out a) as Hres by (intros []%Ht%elem_of_nil). split; [done|].
    apply Hunk; [|done]. destruct Hk as [->|]; [destruct Hres; by left|done].
  - intros a. rewrite (lo_fetch _ _ _ _ _ _ _ Hl a), elem_of_nil. tauto.
Qed.

Lemma unsuspend_children_blocks_ok d a0 S0 m : loop_ok d a0 S0 m [a0] [] [] →
  ∃ m' out, try_unsuspend_children_blocks (committee (ds_context d)) m a0 = Ret (m', sb_block <$> out) ∧
    loop_ok d a0 S0 m' [] [] out ∧ bm_received_block_rounds m' = bm_received_block_rounds m.
Proof.
  intros Hl. unfold try_unsuspend_children_blocks.
  destruct (unsuspend_loop_ok d a0 S0 (S (size (bm_suspended_blocks m))) m [a0] [] Hl) as (m' & out & -> & Hl' & Hr); [simpl; lia|].
  cbn [mbind outcome_bind]. exists m', out. split; [|done].
  destruct (mapM_is_ret (λ s, authority (committee (ds_context d)) (author (sb_block s))) out) as [k ->]; [|done].
  intros s Hs. pose proof (lo_input _ _ _ _ _ _ _ Hl') as Hall. rewrite Forall_forall in Hall.
  destruct (Hall s Hs) as [[_ Hb _ _ _] _]. destruct (authority_ret _ _ (bo_author _ _ Hb)) as [x Hx]. by exists x.
Qed.

Lemma sb_refs out : reference <$> (sb_block <$> out) = out_refs out.
Proof. unfold out_refs. by rewrite <-list_fmap_compose. Qed.

Lemma sb_inputs d a0 S0 m todo rest out : loop_ok d a0 S0 m todo rest out → Forall (input_ok d) (sb_block <$> out).
Proof. intros Hl. apply Forall_fmap. eapply Forall_impl; [apply Hl|]. by intros s [? _]. Qed.

(** A block that is ready, followed by the blocks it unsuspends. *)
Lemma accept_ready d m mb (b : VerifiedBlock) :
  dag_ok d → own_ok d → stamps_ok d → g <= gc_round d → input_ok d b → (∀ a, a ∈ ancestors b → known d a ∨ gced d a) →
  length (bm_received_block_rounds m) = N.to_nat (committee_size (committee (ds_context d))) →
  loop_ok d (reference b) (dom (bm_suspended_blocks m)) (set_missing_blocks m mb) [reference b] [] [] →
  ∃ m' d' out new, try_unsuspend_children_blocks (committee (ds_context d)) (set_missing_blocks m mb) (reference b) = Ret (m', out) ∧
    verify_block_timestamps_and_accept now instant d (b :: out) = Ret (d', new) ∧ (median_on d → new = b :: out) ∧
    bm_ok m' d' ∧ extends d new d' ∧ known d' (reference b) ∧ causal (λ a, known d a ∨ gced d a) new ∧
    (∀ r, r ∈ dom (bm_suspended_blocks m) → r ∈ dom (bm_suspended_blocks m') ∨ known d' r).
Proof.
  intros Hok Hown Hmed Hg Hin Hanc Hrounds Hl.
  destruct (unsuspend_children_blocks_ok _ _ _ _ Hl) as (m' & out & Heq & Hl' & Hr').
  assert (causal (λ a, known d a ∨ gced d a) (b :: (sb_block <$> out))) as Hc.
  { apply causal_cons. split; [done|]. eapply causal_impl; [|apply Hl']. cbn beta. tauto. }
  destruct (verify_and_accept d (b :: (sb_block <$> out)) Hok Hown Hmed) as (d' & new & Hacc & He & Hc' & Hrefs & _ & Hnew); [|exact Hc|].
  { constructor; [done|]. by eapply sb_inputs. }
  assert (known d' (reference b)) as Hkb by (apply (ex_known _ _ _ He); right; apply Hrefs; left).
  exists m', d', (sb_block <$> out), new. split_and!; [exact Heq|exact Hacc|exact Hnew| |exact He|exact Hkb|exact Hc'|].
  - eapply loop_finish; [exact Hl'|exact He|done|by rewrite Hr'| | |by left]; intros r; rewrite Hrefs, fmap_cons, sb_refs.
    + by right.
    + intros [->|?]%elem_of_cons; [by left|by right].
  - intros r Hr. apply (lo_before _ _ _ _ _ _ _ Hl') in Hr as [Hr|Hr]; [by left|right].
    apply (ex_known _ _ _ He). right. apply Hrefs. rewrite fmap_cons, sb_refs. by right.
Qed.

(** ** Receiving a block *)

(** The manager after [r0] was found to miss the ancestors [X]. *)
Record noted (m : BlockManager) (r0 : BlockRef) (X : gset BlockRef) (m' : BlockManager) : Prop := {
  no_suspended : bm_suspended_blocks m' = bm_suspended_blocks m;
  no_rounds : bm_received_block_rounds m' = bm_received_block_rounds m;
  no_children a r : r ∈ children m' a ↔ r ∈ children m a ∨ (r = r0 ∧ a ∈ X);
  no_missing a : a ∈ dom (bm_missing_ancestors m') ↔ a ∈ dom (bm_missing_ancestors m) ∨ a ∈ X;
  no_fetch a : a ∈ dom (bm_missing_blocks m') ↔
    a ∈ dom (bm_missing_blocks m) ∨ (a ∈ X ∧ a ∉ dom (bm_suspended_blocks m));
}.

Lemma noted_refl m r0 : noted m r0 ∅ m.
Proof. split; try done; set_solver. Qed.

Lemma noted_step m r0 X m1 a m2 :
  noted m r0 X m1 → m2 = (if bool_decide (is_Some (bm_suspended_blocks m1 !! a)) then wait_for_ancestor m1 r0 a
                          else fetch_ancestor (wait_for_ancestor m1 r0 a) r0 a) → noted m r0 ({[a]} ∪ X) m2.
Proof.
  intros Hn ->. destruct Hn as [Hsus Hrd Hch Hmi Hfe].
  assert (∀ m0, (m0 = wait_for_ancestor m1 r0 a ∨ m0 = fetch_ancestor (wait_for_ancestor m1 r0 a) r0 a) →
    bm_suspended_blocks m0 = bm_suspended_blocks m ∧ bm_received_block_rounds m0 = bm_received_block_rounds m ∧
    bm_missing_ancestors m0 = <[a := {[r0]} ∪ children m1 a]> (bm_missing_ancestors m1)) as Hm0.
  { intros m0 [->| ->]; by simpl. }
  set (m2 := if bool_decide _ then _ else _).
  destruct (Hm0 m2) as (Hs2 & Hr2 & Hma2); [unfold m2; case_bool_decide; tauto|]. split; try done.
  - intros a' r. rewrite elem_of_union, elem_of_singleton. unfold children in *. rewrite Hma2, lookup_insert.
    destruct (decide (a = a')) as [<-|Hne]; simpl.
    + rewrite elem_of_union, elem_of_singleton, Hch. naive_solver.
    + rewrite Hch. naive_solver.
  - intros a'. rewrite Hma2, dom_insert_L, elem_of_union, elem_of_singleton, Hmi, elem_of_union, elem_of_singleton. tauto.
  - intros a'. rewrite elem_of_union, elem_of_singleton. unfold m2. rewrite Hsus. case_bool_decide as Hsome; simpl.
    + rewrite Hfe. split; [tauto|]. apply elem_of_dom in Hsome. intros [?|[[->|?] ?]]; tauto.
    + rewrite dom_insert_L, elem_of_union, elem_of_singleton, Hfe. rewrite <-elem_of_dom in Hsome.
      destruct (decide (a' = a)) as [->|]; tauto.
Qed.

Lemma note_missing_ok d m r0 ancs : (∀ a, a ∈ ancs → is_valid_index (committee (ds_context d)) (ref_author a)) →
  ∃ m' to_fetch,
    foldM (note_missing_ancestor (committee (ds_context d)) r0) (m, ∅, ∅)
      (zip ((λ a, bool_decide (known d a)) <$> ancs) ancs) =
      Ret (m', list_to_set (filter (λ a, ¬ known d a) ancs), to_fetch) ∧
    noted m r0 (list_to_set (filter (λ a, ¬ known d a) ancs)) m'.
Proof.
  intros Hval. cut (∀ m1 X F, noted m r0 X m1 → ∃ m' F',
    foldM (note_missing_ancestor (committee (ds_context d)) r0) (m1, X, F)
      (zip ((λ a, bool_decide (known d a)) <$> ancs) ancs) =
      Ret (m', X ∪ list_to_set (filter (λ a, ¬ known d a) ancs), F') ∧
    noted m r0 (X ∪ list_to_set (filter (λ a, ¬ known d a) ancs)) m').
  { intros Hcut. destruct (Hcut m ∅ ∅ (noted_refl m r0)) as (m' & F' & Heq & Hn). rewrite union_empty_l_L in Heq, Hn.
    exists m', F'. by split. }
  induction ancs as [|a ancs IH]; intros m1 X F Hn; cbn [fmap list_fmap zip zip_with foldM].
  { exists m1, F. change (filter _ []) with (@nil BlockRef). cbn [list_to_set]. by rewrite union_empty_r_L. }
  rewrite filter_cons. unfold note_missing_ancestor at 2. destruct (decide (known d a)) as [Hk|Hk].
  - rewrite bool_decide_eq_true_2, decide_False by (done || tauto). cbn [mbind outcome_bind]. apply IH; [set_solver|done].
  - rewrite bool_decide_eq_false_2, decide_True by done. destruct (authority_ret _ _ (Hval a ltac:(left))) as [x ->].
    cbn [mbind outcome_bind]. cbn [list_to_set].
    pose proof (noted_step m r0 X m1 a _ Hn eq_refl) as Hn1.
    replace (X ∪ ({[a]} ∪ list_to_set (filter (λ a, ¬ known d a) ancs))) with
      (({[a]} ∪ X) ∪ list_to_set (filter (λ a, ¬ known d a) ancs) : gset BlockRef) by set_solver.
    case_bool_decide; apply IH; try done; set_solver.
Qed.

(** The ancestors that a received block must wait for. *)
Definition needed d (b : VerifiedBlock) : list BlockRef :=
  if gc_enabled d then filter (λ a, (ref_round a =? GENESIS_ROUND) || (gc_round d <? ref_round a)) (ancestors b)
  else ancestors b.

Lemma elem_of_needed d b a : a ∈ needed d b ↔ a ∈ ancestors b ∧ ¬ gced d a.
Proof.
  unfold needed, gced. destruct (gc_enabled d) eqn:Hgc; [|naive_solver].
  rewrite list_elem_of_filter, orb_True, !Is_true_true, N.eqb_eq, N.ltb_lt. unfold GENESIS_ROUND.
  split; [intros [Hr Ha]; split; [done|]; intros [_ ?]; lia|].
  intros [Ha Hng]. split; [|done]. destruct (decide (ref_round a = 0)); [by left|right].
  destruct (N.lt_ge_cases (gc_round d) (ref_round a)); [done|]. destruct Hng. split; [done|lia].
Qed.

Lemma missing_ancestors_ok d b a : g <= gc_round d → input_ok d b → a ∈ filter (λ a, ¬ known d a) (needed d b) →
  missing_ok d a ∧ ¬ known d a ∧ a ∈ ancestors b.
Proof.
  intros Hg Hin [Hk [Ha Hng]%elem_of_needed]%list_elem_of_filter. split_and!; [|done|done]. split; [|by apply Hin].
  destruct (decide (ref_round a = 0)); [destruct Hk; by apply Hin|].
  destruct (N.lt_ge_cases (gc_round d) (ref_round a)); [lia|]. destruct Hng. split; [|lia].
  unfold gc_round, calculate_gc_round, gc_enabled in *. case_match; [done|unfold GENESIS_ROUND in *; lia].
Qed.

(** A block that misses ancestors is suspended. *)
Lemma suspend_ok d m m1 (b : VerifiedBlock) :
  let X : gset BlockRef := list_to_set (filter (λ a, ¬ known d a) (needed d b)) in
  bm_ok m d → input_ok d b → ¬ known d (reference b) → bm_suspended_blocks m !! reference b = None →
  noted m (reference b) X m1 → X ≠ ∅ →
  bm_ok (set_suspended (set_missing_blocks m1 (delete (reference b) (bm_missing_blocks m1)))
           (<[reference b := mk_suspended b X instant]> (bm_suspended_blocks m1))) d.
Proof.
  intros X Hm Hin Hk Hns [Hsus Hrd Hch Hmi Hfe] HX.
  assert (∀ a, a ∈ X ↔ a ∈ filter (λ a, ¬ known d a) (needed d b)) as HXin by (intros a; apply elem_of_list_to_set).
  split; simpl; try apply Hm.
  - rewrite Hrd. apply Hm.
  - intros r s. rewrite Hsus, lookup_insert. case_decide as Hr; [|apply Hm]. intros [= <-]. subst r. split; [done|].
    split; simpl; try done.
    + intros a Ha%HXin. by apply (missing_ancestors_ok d b a (bm_swept _ _ Hm) Hin) in Ha as (_ & _ & ?).
    + intros a Ha. destruct (decide (known d a)); [by right; left|].
      destruct (decide (a ∈ needed d b)) as [Hn|Hn]; [left; apply HXin, list_elem_of_filter; done|right; right].
      rewrite elem_of_needed in Hn. apply dec_stable. tauto.
  - intros a r. match goal with |- (r ∈ children ?m2 a) ↔ _ => change (children m2 a) with (children m1 a) end.
    rewrite (Hch a r), (bm_link _ _ Hm a r). unfold waits_for. simpl. rewrite Hsus, lookup_insert. case_decide as Hr; [subst r; rewrite Hns|]; naive_solver.
  - intros a. rewrite Hmi. intros [Ha|Ha%HXin]; [by apply Hm|]. by destruct (missing_ancestors_ok d b a (bm_swept _ _ Hm) Hin Ha) as (? & ? & _).
  - intros a. rewrite dom_delete_L, dom_insert_L, elem_of_difference, elem_of_union, elem_of_singleton, Hfe, Hmi, Hsus,
      (bm_fetch _ _ Hm a). tauto.
Qed.

Lemma received_metrics_ok m d (b : VerifiedBlock) : bm_ok m d → is_valid_index (committee (ds_context d)) (author b) →
  ∃ rounds, update_block_received_metrics (committee (ds_context d)) m b = Ret (set_received_rounds m rounds) ∧
    length rounds = length (bm_received_block_rounds m).
Proof.
  intros Hm Hb. unfold update_block_received_metrics, vec_index.
  destruct (valid_lookup d _ _ (bm_rounds _ _ Hm) Hb) as [old Hold]. rewrite Hold. cbn [expect mbind outcome_bind].
  rewrite vec_set_in by by eapply lookup_lt_Some. cbn [mbind outcome_bind].
  destruct (authority_ret _ _ Hb) as [x ->]. cbn [mbind outcome_bind]. eexists. split; [done|]. apply length_insert.
Qed.

Lemma bm_ok_received m d rounds : bm_ok m d → length rounds = length (bm_received_block_rounds m) →
  bm_ok (set_received_rounds m rounds) d.
Proof. intros [] Hlen. split; try done. simpl. by rewrite Hlen. Qed.

Lemma try_accept_one_block_ok m d (b : VerifiedBlock) : bm_ok m d → input_ok d b →
  ∃ m' res, try_accept_one_block instant m d b = Ret (m', res) ∧
  match res with
  | TaProcessed => m' = m ∧ (known d (reference b) ∨ reference b ∈ dom (bm_suspended_blocks m))
  | TaSkipped => m' = m ∧ gced d (reference b)
  | TaSuspended _ => bm_ok m' d ∧ dom (bm_suspended_blocks m') = {[reference b]} ∪ dom (bm_suspended_blocks m) ∧
      ∃ a, a ∈ ancestors b ∧ ¬ known d a
  | TaAccepted b' => b' = b ∧ ¬ known d (reference b) ∧ (∀ a, a ∈ ancestors b → known d a ∨ gced d a) ∧
      bm_suspended_blocks m' = bm_suspended_blocks m ∧ bm_received_block_rounds m' = bm_received_block_rounds m ∧
      loop_ok d (reference b) (dom (bm_suspended_blocks m')) m' [reference b] [] []
  end.
Proof.
  intros Hm Hin. pose proof (bm_dag _ _ Hm) as Hok. pose proof (in_block _ _ Hin) as Hb.
  unfold try_accept_one_block. cbn zeta.
  destruct (bm_suspended_blocks m !! reference b) as [s|] eqn:Hs.
  { rewrite bool_decide_eq_true_2 by by eexists. cbn [mbind outcome_bind]. do 2 eexists. split; [done|].
    split; [done|]. right. by apply elem_of_dom_2 in Hs. }
  rewrite bool_decide_eq_false_2 by by intros []. rewrite (contains_block_ret d Hok) by apply Hb. cbn [mbind outcome_bind].
  case_bool_decide as Hk; [do 2 eexists; split; [done|]; cbn; by split; [|left]|].
  destruct (gc_enabled d && (round b <=? gc_round d)) eqn:Hgc.
  { apply andb_true_iff in Hgc as [Hen Hle%N.leb_le]. destruct (authority_ret _ _ (bo_author _ _ Hb)) as [x ->].
    do 2 eexists. split; [done|]. split; [done|]. split; [done|]. pose proof (in_round _ _ Hin). simpl. lia. }
  fold (needed d b). rewrite (contains_blocks_ret d Hok) by (intros r [Hr _]%elem_of_needed; by apply Hb).
  cbn [mbind outcome_bind].
  destruct (note_missing_ok d m (reference b) (needed d b)) as (m1 & to_fetch & Hfold & Hn).
  { intros a [Ha _]%elem_of_needed. by apply Hb. }
  unfold known at 1 in Hfold. rewrite Hfold. cbn [mbind outcome_bind].
  case_bool_decide as HX.
  - do 2 eexists. split; [done|]. cbn. rewrite HX in Hn. destruct Hn as [Hsus Hrd Hch Hmi Hfe].
    split_and!; [done|done| |done|done|].
    + intros a Ha. destruct (decide (known d a)); [by left|]. destruct (decide (gced d a)); [by right|]. exfalso.
      apply (not_elem_of_empty (C := gset BlockRef) a). rewrite <-HX. apply elem_of_list_to_set, list_elem_of_filter.
      split; [done|]. by apply elem_of_needed.
    + apply (loop_start d m1).
      * rewrite Hsus. intros r s' Hs'. destruct (bm_suspended _ _ Hm r s' Hs'). split_and!; [done| |done]. congruence.
      * intros a r. rewrite Hch. rewrite (bm_link _ _ Hm a r). unfold waits_for. rewrite Hsus. set_solver.
      * intros a. rewrite Hmi. intros [Ha|Ha]; [|set_solver]. destruct (bm_missing _ _ Hm a Ha). tauto.
      * intros a. rewrite dom_delete_L, elem_of_difference, elem_of_singleton, Hfe, Hmi, Hsus, (bm_fetch _ _ Hm a). set_solver.
  - destruct (authority_ret _ _ (bo_author _ _ Hb)) as [x ->]. cbn [mbind outcome_bind].
    do 2 eexists. split; [done|]. cbn. split_and!.
    + by apply (suspend_ok d m m1 b).
    + by rewrite dom_insert_L, (no_suspended _ _ _ _ Hn).
    + apply set_choose_L in HX as [a Ha]. apply elem_of_list_to_set, list_elem_of_filter in Ha as [Hk' [Ha _]%elem_of_needed]. eauto.
Qed.

(** What receiving the blocks [bs] does. *)
Record received (m : BlockManager) d (bs : list VerifiedBlock) (m' : BlockManager) d' (new : list VerifiedBlock) : Prop := {
  re_ok : bm_ok m' d';
  re_extends : extends d new d';
  re_causal : causal (λ a, known d a ∨ gced d a) new;
  re_block (b : VerifiedBlock) : b ∈ bs →
    known d' (reference b) ∨ reference b ∈ dom (bm_suspended_blocks m') ∨ gced d (reference b);
  re_suspended r : r ∈ dom (bm_suspended_blocks m) → r ∈ dom (bm_suspended_blocks m') ∨ known d' r;
}.

Lemma accept_step_ok m d acc missing (b : VerifiedBlock) : bm_ok m d → stamps_ok d → input_ok d b →
  ∃ m' d' new missing', accept_step now instant false (m, d, acc, missing) b = Ret (m', d', acc ++ new, missing') ∧
    received m d [b] m' d' new.
Proof.
  intros Hm0 Hst Hin. pose proof (in_block _ _ Hin) as Hb. unfold accept_step.
  destruct (received_metrics_ok m d b Hm0 (bo_author _ _ Hb)) as (rounds & -> & Hlen). cbn [mbind outcome_bind]. cbn zeta.
  pose proof (bm_ok_received m d rounds Hm0 Hlen) as Hm.
  destruct (try_accept_one_block_ok _ d b Hm Hin) as (m1 & res & -> & Hres). cbn [mbind outcome_bind].
  pose proof (extends_refl d (bm_dag _ _ Hm) (bm_own _ _ Hm)) as Hrefl.
  assert (causal (λ a, known d a ∨ gced d a) []) as Hnil by (intros [] ?? ?; done).
  destruct res as [b'|to_fetch| |].
  - destruct Hres as (-> & Hk & Hanc & Hsus & Hrd & Hl).
    destruct (accept_ready d m1 (bm_missing_blocks m1) b) as (m' & d' & out & new & Heq & Hacc & _ & Hm' & He & Hkb & Hc & Hkeep).
    { apply Hm. } { apply Hm. } { done. } { apply Hm. } { done. } { done. } { rewrite Hrd. apply Hm. } { by destruct m1. }
    replace (set_missing_blocks m1 (bm_missing_blocks m1)) with m1 in Heq by by destruct m1.
    rewrite Heq. cbn [mbind outcome_bind app]. rewrite Hacc. cbn [mbind outcome_bind]. do 4 eexists. split; [done|].
    split; [done..| |].
    + intros ? ->%list_elem_of_singleton. by left.
    + intros r Hr. apply Hkeep. by rewrite Hsus.
  - destruct Hres as (Hm' & Hdom & _). exists m1, d, [], (missing ∪ to_fetch). rewrite app_nil_r. split; [done|].
    split; [done..| |]; [intros ? ->%list_elem_of_singleton; right; left|intros r Hr; left]; rewrite Hdom; set_solver.
  - destruct Hres as [-> Hb']. exists (set_received_rounds m rounds), d, [], missing. rewrite app_nil_r. split; [done|].
    split; [done..| |]; [intros ? ->%list_elem_of_singleton; simpl in *; tauto|by left].
  - destruct Hres as [-> Hb']. exists (set_received_rounds m rounds), d, [], missing. rewrite app_nil_r. split; [done|].
    split; [done..| |]; [intros ? ->%list_elem_of_singleton; tauto|by left].
Qed.

Lemma received_trans m d bs1 m1 d1 new1 bs2 m2 d2 new2 : received m d bs1 m1 d1 new1 → received m1 d1 bs2 m2 d2 new2 →
  received m d (bs1 ++ bs2) m2 d2 (new1 ++ new2).
Proof.
  intros [Hok1 He1 Hc1 Hb1 Hs1] [Hok2 He2 Hc2 Hb2 Hs2]. split; [done|by eapply extends_trans| | |].
  - apply causal_app; [done|]. eapply causal_impl; [|exact Hc2]. intros a. cbn beta.
    rewrite (ex_known _ _ _ He1), (extends_gced _ _ _ _ He1). tauto.
  - intros b [Hb|Hb]%elem_of_app.
    + destruct (Hb1 b Hb) as [Hk|[Hs|Hg]]; [left; by eapply extends_mono| |tauto]. destruct (Hs2 _ Hs); tauto.
    + destruct (Hb2 b Hb) as [?|[?|Hg]]; [tauto..|]. rewrite (extends_gced _ _ _ _ He1) in Hg. tauto.
  - intros r Hr. destruct (Hs1 r Hr) as [Hr'|Hk]; [by apply Hs2|right; by eapply extends_mono].
Qed.

Lemma received_nil m d : bm_ok m d → received m d [] m d [].
Proof.
  intros Hm. split; [done|apply extends_refl; apply Hm| | |by left].
  - intros [] ?? ?; done.
  - intros ? []%elem_of_nil.
Qed.

Lemma input_ok_extends d bs d' (b : VerifiedBlock) : extends d bs d' → input_ok d b → input_ok d' b.
Proof. intros He. apply input_ok_mono; [apply He|]. intros r. by eapply extends_mono. Qed.

Lemma accept_steps_ok bs : ∀ m d acc missing, bm_ok m d → stamps_ok d → Forall (input_ok d) bs →
  ∃ m' d' new missing', foldM (accept_step now instant false) (m, d, acc, missing) bs = Ret (m', d', acc ++ new, missing') ∧
    received m d bs m' d' new.
Proof.
  induction bs as [|b bs IH]; intros m d acc missing Hm Hst Hin.
  { exists m, d, [], missing. rewrite app_nil_r. split; [done|by apply received_nil]. }
  apply Forall_cons in Hin as [Hb Hbs].
  destruct (accept_step_ok m d acc missing b Hm Hst Hb) as (m1 & d1 & new1 & missing1 & Heq1 & Hr1).
  destruct (IH m1 d1 (acc ++ new1) missing1 (re_ok _ _ _ _ _ _ Hr1)) as (m2 & d2 & new2 & missing2 & Heq2 & Hr2).
  { eapply stamps_ok_extends; [apply Hr1|done]. }
  { eapply Forall_impl; [done|]. intros x. eapply input_ok_extends, Hr1. }
  exists m2, d2, (new1 ++ new2), missing2. cbn [foldM]. rewrite Heq1. cbn [mbind outcome_bind].
  rewrite Heq2, app_assoc. split; [done|]. by apply (received_trans m d [b] m1 d1 new1 bs).
Qed.

Lemma try_accept_blocks_ok m d blocks : bm_ok m d → stamps_ok d → Forall (input_ok d) blocks →
  ∃ m' d' new missing, try_accept_blocks now instant m d blocks = Ret (m', d', new, missing) ∧ received m d blocks m' d' new.
Proof.
  intros Hm Hst Hin. destruct (accept_steps_ok (stable_sort round_le blocks) m d [] ∅ Hm Hst) as (m' & d' & new & missing & Heq & Hr).
  { by rewrite stable_sort_Permutation. }
  exists m', d', new, missing. split; [exact Heq|]. destruct Hr as [? ? ? Hb ?]. split; try done.
  intros b Hb'. apply Hb. by rewrite stable_sort_Permutation.
Qed.
End manager.
