(* ===== verification/BlockManagerOps.v ===== *)
(** * BlockManagerOps: sweeping, fetching and committed blocks

    The remaining operations of the block manager keep its invariant: sweeping
    the garbage-collected ancestors, registering blocks to fetch, and accepting
    the blocks of certified commits. *)
From S2P Require Import Prelude Committee Block StakeAggregator ThresholdClock Commit Error BlockVerifier Store.
From S2P Require Import MemStore ScoringMetrics LeaderScoring DagState BaseCommitter CommitRule CommitterSpec DagInv.
From S2P Require Import DagOps BlockManager BlockManagerInv TestDag.
Local Open Scope N_scope.
Local Open Scope rust_scope.

Section ops.
Context {St : Type} `{StoreLaws St} (now instant : N).
Context (own : AuthorityIndex) (U : VerifiedBlock → Prop).
Context (U_unique : ∀ b b', U b → U b' → author b = own → slot b = slot b' → reference b = reference b').
Implicit Type d : DagState St.

(** ** The garbage-collection round moves *)

Lemma bm_ok_sweep g g' m d : bm_ok own U g m d → (∀ a, a ∈ dom (bm_missing_ancestors m) → g' < ref_round a) →
  g' <= gc_round d → bm_ok own U g' m d.
Proof.
  intros [Hok Hown Hg Hrd Hsus Hlink Hmiss Hf] Hg' Hle. split; try done.
  intros a Ha. destruct (Hmiss a Ha) as [[_ Hv] Hk]. split; [split; [by apply Hg'|done]|done].
Qed.

Lemma bm_ok_advance g m d d' : bm_ok own U g m d → dag_ok d' → ds_context d' = ds_context d → gc_round d <= gc_round d' →
  (∀ r, lookup_block d' r = lookup_block d r) → bm_ok own U g m d'.
Proof.
  intros Hm Hok Hctx Hgc Hl. assert (∀ r, known d' r ↔ known d r) as Hk by (intros r; unfold known; by rewrite Hl).
  assert (∀ r, gced d r → gced d' r) as Hgced.
  { unfold gced, gc_enabled. rewrite Hctx. intros r [? ?]. split; [done|lia]. }
  split; rewrite ?Hctx; try apply Hm; try done.
  - split; [rewrite Hctx; apply Hm|]. intros r b. rewrite Hl. apply (proj2 (bm_own _ _ _ _ _ Hm)).
  - pose proof (bm_swept _ _ _ _ _ Hm). lia.
  - intros r s Hs. rewrite Hk. destruct (bm_suspended _ _ _ _ _ Hm r s Hs) as [Hu [Href Hi Hw Hmi Hrest]]. split; [done|].
    split; try done.
    + apply (input_ok_mono U d); [done| |done]. intros ?. by rewrite Hk.
    + intros a Ha. rewrite Hk. destruct (Hrest a Ha) as [?|[?|?]]; auto.
  - intros a Ha. rewrite Hk. destruct (bm_missing _ _ _ _ _ Hm a Ha) as [[? ?] ?]. unfold missing_ok. by rewrite Hctx.
Qed.

(** The missing ancestors only shrink while children are unsuspended. *)
Lemma unsuspend_child_shrinks a m todo out r x : unsuspend_child a (m, todo, out) r = Ret x →
  bm_missing_ancestors x.1.1 = bm_missing_ancestors m.
Proof.
  unfold unsuspend_child, try_unsuspend_block. destruct (bm_suspended_blocks m !! r) as [s|]; [|done]. cbn.
  destruct (bool_decide (a ∈ _)); [|done]. cbn. case_bool_decide; cbn; by intros [= <-].
Qed.

Lemma unsuspend_loop_shrinks fuel : ∀ m todo out m' out', unsuspend_loop fuel m todo out = Ret (m', out') →
  dom (bm_missing_ancestors m') ⊆ dom (bm_missing_ancestors m).
Proof.
  induction fuel as [|fuel IH]; intros m [|a todo] out m' out' Heq; cbn [unsuspend_loop] in Heq; inv_ret; try done.
  destruct (bm_missing_ancestors m !! a) as [cs|]; [|by eapply IH]. inv_ret.
  match goal with H : foldM _ _ _ = Ret ?x |- _ => destruct x as [[m1 todo1] out1];
    assert (bm_missing_ancestors m1 = delete a (bm_missing_ancestors m)) as Hm1 end.
  { match goal with H : foldM _ _ _ = Ret _ |- _ =>
      refine (foldM_ret_ind (λ _ x, bm_missing_ancestors x.1.1 = delete a (bm_missing_ancestors m)) _ _ _ _ _ _ H); [|done] end.
    intros _ [[m2 t2] o2] r x Hm2 Hstep _. apply unsuspend_child_shrinks in Hstep. by rewrite Hstep. }
  match goal with H : unsuspend_loop _ _ _ _ = Ret _ |- _ => apply IH in H end. rewrite Hm1, dom_delete_L in *. set_solver.
Qed.

(** The lowest missing ancestor is not a suspended block: it would miss an
    ancestor of a lower round. *)
Lemma lowest_not_suspended g m d r : bm_ok own U g m d → btree_first (dom (bm_missing_ancestors m)) = Some r →
  r ∈ dom (bm_missing_ancestors m) ∧ bm_suspended_blocks m !! r = None ∧
  ∀ a, a ∈ dom (bm_missing_ancestors m) → ref_round r <= ref_round a.
Proof.
  intros Hm [Hr Hmin]%btree_first_Some. split_and!; [done| |intros a Ha; by apply ref_le_round, Hmin].
  destruct (bm_suspended_blocks m !! r) as [s|] eqn:Hs; [exfalso|done].
  destruct (bm_suspended _ _ _ _ _ Hm r s Hs) as [_ [Href Hi Hw Hmi _]]. apply set_choose_L in Hw as [a Ha].
  assert (r ∈ children m a) as Hc by (apply (bm_link _ _ _ _ _ Hm); by exists s).
  assert (a ∈ dom (bm_missing_ancestors m)) as Hd.
  { unfold children in Hc. destruct (bm_missing_ancestors m !! a) eqn:E; [by apply elem_of_dom_2 in E|set_solver]. }
  pose proof (bo_round _ _ (in_block _ _ _ Hi) a (Hmi a Ha)) as Hlt. rewrite <-Href in Hmin.
  specialize (Hmin a Hd). apply ref_le_round in Hmin. simpl in *. lia.
Qed.

(** One garbage-collected ancestor. *)
Lemma gc_step_ok g m d r : bm_ok own U g m d → stamps_ok now U d → gc_enabled d = true → btree_first (dom (bm_missing_ancestors m)) = Some r →
  ref_round r <= gc_round d → ∃ m' d' out new,
    try_unsuspend_children_blocks (committee (ds_context d)) (set_missing_blocks m (delete r (bm_missing_blocks m))) r = Ret (m', out) ∧
    verify_block_timestamps_and_accept now instant d out = Ret (d', new) ∧ bm_ok own U g m' d' ∧ extends own U d new d' ∧
    Forall (input_ok U d) new ∧ (size (bm_missing_ancestors m') < size (bm_missing_ancestors m))%nat ∧
    (∀ r, r ∈ dom (bm_suspended_blocks m) → r ∈ dom (bm_suspended_blocks m') ∨ known d' r).
Proof.
  intros Hm Hst Hgc Hr Hle. destruct (lowest_not_suspended g m d r Hm Hr) as (Hdom & Hns & _).
  destruct (bm_missing _ _ _ _ _ Hm r Hdom) as [[Hg Hv] Hk].
  assert (gced d r) as Hgced by (split; [done|lia]).
  assert (loop_ok U g d r (dom (bm_suspended_blocks m)) (set_missing_blocks m (delete r (bm_missing_blocks m))) [r] [] []) as Hl.
  { apply loop_start.
    - intros r' s Hs. destruct (bm_suspended _ _ _ _ _ Hm r' s Hs). split_and!; [done| |done]. congruence.
    - apply Hm.
    - intros a Ha. destruct (bm_missing _ _ _ _ _ Hm a Ha). tauto.
    - intros a. rewrite dom_delete_L, elem_of_difference, elem_of_singleton, (bm_fetch _ _ _ _ _ Hm a). tauto. }
  destruct (unsuspend_children_blocks_ok own U U_unique _ _ _ _ _ Hl) as (m' & out & Heq & Hl' & Hrd).
  destruct (verify_and_accept now instant own U U_unique d (sb_block <$> out)) as (d' & new & Hacc & He & _ & Hrefs & Hsb & _); try apply Hm; [done| | |].
  { by eapply sb_inputs. }
  { eapply causal_impl; [|apply Hl']. cbn beta. intros a [?|[?| ->]]; auto. }
  assert (Forall (input_ok U d) new) as Hnew.
  { pose proof (sb_inputs _ _ _ _ _ _ _ _ _ Hl') as Hin. rewrite Forall_forall in *. auto. }
  exists m', d', (sb_block <$> out), new. split_and!; [done|done| |done|done| |].
  - eapply loop_finish; [exact Hl'|exact He|apply Hm|rewrite Hrd; apply Hm| | |by right]; intros r'; rewrite Hrefs, sb_refs; [done|by right].
  - rewrite <-!size_dom. apply subset_size. split.
    + unfold try_unsuspend_children_blocks in Heq. inv_ret.
      match goal with H : unsuspend_loop _ _ _ _ = Ret ?x |- _ => destruct x as [m2 out2]; apply unsuspend_loop_shrinks in H end.
      inv_ret. done.
    + intros Hsub. destruct (lo_missing _ _ _ _ _ _ _ _ _ Hl' r (Hsub r Hdom)) as (_ & _ & Hin).
      assert (r ∈ @nil BlockRef) as []%elem_of_nil by (apply Hin; by left).
  - intros r' Hr'. apply (lo_before _ _ _ _ _ _ _ _ _ Hl') in Hr' as [?|Hr']; [by left|right].
    apply (ex_known _ _ _ _ _ He). right. by rewrite Hrefs, sb_refs.
Qed.


Lemma gc_loop_ok g fuel : ∀ m d, bm_ok own U g m d → stamps_ok now U d → gc_enabled d = true → (size (bm_missing_ancestors m) < fuel)%nat →
  ∃ m' d' new, gc_loop now instant fuel (gc_round d) m d = Ret (m', d') ∧ bm_ok own U g m' d' ∧ extends own U d new d' ∧
    (∀ a, a ∈ dom (bm_missing_ancestors m') → gc_round d < ref_round a) ∧
    (∀ r, r ∈ dom (bm_suspended_blocks m) → r ∈ dom (bm_suspended_blocks m') ∨ known d' r).
Proof.
  induction fuel as [|fuel IH]; intros m d Hm Hst Hgc Hsz; [lia|]. cbn [gc_loop].
  pose proof (extends_refl own U U_unique d (bm_dag _ _ _ _ _ Hm) (bm_own _ _ _ _ _ Hm)) as Hrefl.
  destruct (btree_first (dom (bm_missing_ancestors m))) as [r|] eqn:Hr.
  2: { apply btree_first_None in Hr. exists m, d, []. split_and!; [done..| |by left]. intros a. rewrite Hr. set_solver. }
  destruct (lowest_not_suspended g m d r Hm Hr) as (Hdom & Hns & Hmin).
  destruct (N.ltb_spec (gc_round d) (ref_round r)) as [Hlt|Hle].
  { exists m, d, []. split_and!; [done..| |by left]. intros a Ha. specialize (Hmin a Ha). lia. }
  destruct (bm_missing _ _ _ _ _ Hm r Hdom) as [[_ Hv] _]. destruct (authority_ret _ _ Hv) as [x ->]. cbn [mbind outcome_bind].
  rewrite Hns, bool_decide_eq_false_2 by by intros []. cbn [negb assert mbind outcome_bind].
  destruct (gc_step_ok g m d r Hm Hst Hgc Hr Hle) as (m1 & d1 & out & new1 & -> & Hacc & Hm1 & He1 & Hin & Hsz1 & Hkeep1).
  cbn [mbind outcome_bind]. rewrite Hacc. cbn [mbind outcome_bind].
  destruct (mapM_is_ret (λ b : VerifiedBlock, authority (committee (ds_context d)) (author b)) new1) as [k ->].
  { intros b Hb. rewrite Forall_forall in Hin. apply authority_ret. apply (Hin b Hb). }
  cbn [mbind outcome_bind]. rewrite <-(extends_gc_round own U _ _ _ He1).
  destruct (IH m1 d1 Hm1) as (m2 & d2 & new & Heq & Hm2 & He2 & Hdone & Hkeep2); [by eapply stamps_ok_extends| |lia|].
  { unfold gc_enabled in *. by rewrite (ex_context _ _ _ _ _ He1). }
  exists m2, d2, (new1 ++ new). split_and!; [done|done|by eapply extends_trans|done|].
  intros r' Hr'. destruct (Hkeep1 r' Hr') as [Hr''|Hk]; [by apply Hkeep2|right; by eapply extends_mono].
Qed.

Lemma sweep_ok g m d : bm_ok own U g m d → stamps_ok now U d → ∃ m' d' new,
  try_unsuspend_blocks_for_latest_gc_round now instant m d = Ret (m', d') ∧
  bm_ok own U (gc_round d) m' d' ∧ extends own U d new d' ∧
  (∀ r, r ∈ dom (bm_suspended_blocks m) → r ∈ dom (bm_suspended_blocks m') ∨ known d' r).
Proof.
  intros Hm Hst. unfold try_unsuspend_blocks_for_latest_gc_round. destruct (gc_enabled d) eqn:Hgc; cbn [negb].
  - destruct (gc_loop_ok g (S (size (bm_missing_ancestors m))) m d Hm Hst Hgc ltac:(lia)) as (m' & d' & new & Heq & Hm' & He & Hd & Hk).
    exists m', d', new. split_and!; [done| |done|done]. eapply bm_ok_sweep; [done..|].
    rewrite (extends_gc_round own U _ _ _ He). lia.
  - exists m, d, []. split_and!; [done| |by apply (extends_refl own U U_unique); apply Hm|by left].
    eapply bm_ok_sweep; [done| |lia]. intros a Ha. destruct (bm_missing _ _ _ _ _ Hm a Ha) as [[? _] _].
    unfold gc_round, calculate_gc_round, gc_enabled in *. rewrite Hgc. unfold GENESIS_ROUND. lia.
Qed.

(** After a sweep a suspended block waits for exactly the ancestors that are
    neither known nor garbage collected. *)
Lemma waits_exactly g m d r s a : bm_ok own U g m d → g = gc_round d → bm_suspended_blocks m !! r = Some s →
  a ∈ sb_missing_ancestors s ↔ a ∈ ancestors (sb_block s) ∧ ¬ known d a ∧ ¬ gced d a.
Proof.
  intros Hm -> Hs. destruct (bm_suspended _ _ _ _ _ Hm r s Hs) as [_ [_ _ _ Hmi Hrest]]. split.
  - intros Ha. assert (r ∈ children m a) as Hc by (apply (bm_link _ _ _ _ _ Hm); by exists s).
    assert (a ∈ dom (bm_missing_ancestors m)) as Hd.
    { unfold children in Hc. destruct (bm_missing_ancestors m !! a) eqn:E; [by apply elem_of_dom_2 in E|set_solver]. }
    destruct (bm_missing _ _ _ _ _ Hm a Hd) as [[Hg _] Hk]. split_and!; [by apply Hmi|done|]. intros [_ ?]. lia.
  - intros (Ha & Hk & Hg). destruct (Hrest a Ha); tauto.
Qed.

Lemma suspended_misses g m d r s : bm_ok own U g m d → bm_suspended_blocks m !! r = Some s →
  ∃ a, a ∈ ancestors (sb_block s) ∧ ¬ known d a ∧ a ∈ dom (bm_missing_ancestors m).
Proof.
  intros Hm Hs. destruct (bm_suspended _ _ _ _ _ Hm r s Hs) as [_ [_ _ Hw Hmi _]]. apply set_choose_L in Hw as [a Ha].
  assert (r ∈ children m a) as Hc by (apply (bm_link _ _ _ _ _ Hm); by exists s).
  assert (a ∈ dom (bm_missing_ancestors m)) as Hd.
  { unfold children in Hc. destruct (bm_missing_ancestors m !! a) eqn:E; [by apply elem_of_dom_2 in E|set_solver]. }
  exists a. split_and!; [by apply Hmi|by apply (bm_missing _ _ _ _ _ Hm)|done].
Qed.

(** ** Blocks to fetch *)

Lemma find_steps_ok d (refs : list BlockRef) : (∀ r, r ∈ refs → is_valid_index (committee (ds_context d)) (ref_author r)) →
  ∀ g m F, bm_ok own U g m d → (∀ r, r ∈ refs → g < ref_round r) → ∃ m' F',
    foldM (find_step (committee (ds_context d))) (m, F) (zip ((λ r, bool_decide (known d r)) <$> refs) refs) = Ret (m', F') ∧
    bm_ok own U g m' d ∧ bm_suspended_blocks m' = bm_suspended_blocks m ∧
    (∀ r, r ∈ F' ↔ r ∈ F ∨ (r ∈ refs ∧ ¬ known d r ∧ r ∉ dom (bm_suspended_blocks m))) ∧
    (∀ r, r ∈ dom (bm_missing_blocks m') ↔ r ∈ dom (bm_missing_blocks m) ∨ (r ∈ refs ∧ ¬ known d r ∧ r ∉ dom (bm_suspended_blocks m))).
Proof.
  induction refs as [|r refs IH]; intros Hval g m F Hm Hg; cbn [fmap list_fmap zip zip_with foldM].
  { exists m, F. split_and!; try done; set_solver. }
  unfold find_step at 2. destruct (bool_decide (known d r) || bool_decide (is_Some (bm_suspended_blocks m !! r))) eqn:Hf.
  { cbn [mbind outcome_bind]. destruct (IH ltac:(set_solver) g m F Hm ltac:(set_solver)) as (m' & F' & Heq & Hm' & Hs & HF & HB).
    exists m', F'. apply orb_true_iff in Hf. rewrite !bool_decide_eq_true, <-elem_of_dom in Hf.
    split_and!; [done..| |]; intros r'; rewrite ?HF, ?HB, elem_of_cons; destruct (decide (r' = r)) as [->|]; tauto. }
  apply orb_false_iff in Hf. rewrite !bool_decide_eq_false, <-elem_of_dom in Hf. destruct Hf as [Hk Hs].
  set (m1 := ensure_missing_ancestor (set_missing_blocks m (<[r := {[ref_author r]}]> (bm_missing_blocks m))) r).
  assert (bm_ok own U g m1 d) as Hm1.
  { destruct Hm as [Hok Hown Hsw Hrd Hsus Hlink Hmi Hfe]. split; try done; simpl.
    - intros a r'. change (waits_for m1 a r') with (waits_for m a r'). rewrite <-Hlink. unfold children. simpl.
      rewrite lookup_insert. case_decide as E; [by subst|done].
    - intros a. rewrite dom_insert_L, elem_of_union, elem_of_singleton. intros [->|Ha]; [|by apply Hmi].
      split; [|done]. split; [apply Hg; left|apply Hval; left].
    - intros a. rewrite !dom_insert_L, !elem_of_union, !elem_of_singleton, Hfe. destruct (decide (a = r)) as [->|]; tauto. }
  assert ((∃ m2, bm_ok own U g m2 d ∧ bm_suspended_blocks m2 = bm_suspended_blocks m ∧
    dom (bm_missing_blocks m2) = {[r]} ∪ dom (bm_missing_blocks m) ∧
    match bm_missing_blocks m !! r with
    | Some _ => Ret (set_missing_blocks m (<[r := {[ref_author r]}]> (bm_missing_blocks m)), {[r]} ∪ F)
    | None => _ ← authority (committee (ds_context d)) (ref_author r); Ret (m1, {[r]} ∪ F)
    end = Ret (m2, {[r]} ∪ F))) as (m2 & Hm2 & Hs2 & Hb2 & ->).
  { exists m1. split; [done|]. split; [done|]. split; [simpl; by rewrite dom_insert_L|].
    destruct (bm_missing_blocks m !! r) as [w|] eqn:Hw; [|by destruct (authority_ret _ _ (Hval r ltac:(left))) as [x ->]].
    do 2 f_equal. unfold m1, ensure_missing_ancestor, set_missing_ancestors, set_missing_blocks. simpl. f_equal.
    assert (r ∈ dom (bm_missing_ancestors m)) as [cs Hcs]%elem_of_dom.
    { apply elem_of_dom_2 in Hw. by apply (bm_fetch _ _ _ _ _ Hm) in Hw as [? _]. }
    rewrite Hcs. simpl. by rewrite insert_id. }
  cbn [mbind outcome_bind].
  destruct (IH ltac:(set_solver) g m2 ({[r]} ∪ F) Hm2 ltac:(set_solver)) as (m' & F' & Heq & Hm' & Hs' & HF & HB).
  exists m', F'. split_and!; [done|done|congruence| |]; intros r'; rewrite ?HF, ?HB, ?Hb2, Hs2, elem_of_cons, elem_of_union, elem_of_singleton.
  all: destruct (decide (r' = r)) as [->|]; tauto.
Qed.

Lemma try_find_blocks_ok g m d refs : bm_ok own U g m d →
  (∀ r, r ∈ refs → is_valid_index (committee (ds_context d)) (ref_author r)) → ∃ m' missing,
    try_find_blocks m d refs = Ret (m', missing) ∧ bm_ok own U g m' d ∧ bm_suspended_blocks m' = bm_suspended_blocks m ∧
    (∀ r, r ∈ missing ↔ r ∈ refs ∧ gc_round d < ref_round r ∧ ¬ known d r ∧ r ∉ dom (bm_suspended_blocks m)) ∧
    (∀ r, r ∈ dom (bm_missing_blocks m') ↔ r ∈ dom (bm_missing_blocks m) ∨ r ∈ missing).
Proof.
  intros Hm Hval. unfold try_find_blocks. set (refs' := filter _ refs).
  assert (∀ r, r ∈ refs' ↔ r ∈ refs ∧ gc_round d < ref_round r) as Hrefs'.
  { intros r. unfold refs'. rewrite list_elem_of_filter. tauto. }
  case_bool_decide as Hnil.
  { exists m, ∅. split_and!; [done..| |set_solver]. intros r. rewrite elem_of_empty. split; [done|].
    intros (Hr & Hgc & _). assert (r ∈ refs') as Hin by by apply Hrefs'. rewrite Hnil in Hin. by apply elem_of_nil in Hin. }
  assert (∀ r, r ∈ stable_sort ref_round_le refs' ↔ r ∈ refs ∧ gc_round d < ref_round r) as Hs.
  { intros r. by rewrite elem_of_stable_sort, Hrefs'. }
  rewrite (contains_blocks_ret d (bm_dag _ _ _ _ _ Hm)) by (intros r [Hr _]%Hs; by apply Hval). cbn [mbind outcome_bind].
  destruct (find_steps_ok d (stable_sort ref_round_le refs')) with (g := g) (m := m) (F := (∅ : gset BlockRef))
    as (m' & F' & Heq & Hm' & Hsus & HF & HB).
  { intros r [Hr _]%Hs. by apply Hval. }
  { done. }
  { intros r [_ Hr]%Hs. pose proof (bm_swept _ _ _ _ _ Hm). lia. }
  exists m', F'. split_and!; [exact Heq|done|done| |].
  - intros r. rewrite HF, Hs. set_solver.
  - intros r. rewrite HB, HF. set_solver.
Qed.

(** ** Committed blocks *)

Lemma foldl_alter_lookup (r : BlockRef) (l : list BlockRef) a : ∀ ma : gmap BlockRef (gset BlockRef),
  foldl (λ ma a, alter (λ refs, refs ∖ {[r]}) a ma) ma l !! a =
  (λ refs, if decide (a ∈ l) then refs ∖ {[r]} else refs) <$> ma !! a.
Proof.
  induction l as [|x l IH]; intros ma; simpl; [by rewrite option_fmap_id|].
  rewrite IH. destruct (decide (x = a)) as [<-|Hne].
  - rewrite lookup_alter_eq, <-option_fmap_compose. apply option_fmap_ext. intros refs. simpl.
    rewrite (decide_True (P := x ∈ x :: l)) by left. case_decide; [set_solver|done].
  - rewrite lookup_alter_ne by done. apply option_fmap_ext. intros refs.
    apply decide_ext. rewrite elem_of_cons. naive_solver.
Qed.

(** The manager once it has forgotten a block. *)
Definition forget (m : BlockManager) (r : BlockRef) : BlockManager :=
  let m := set_missing_blocks m (delete r (bm_missing_blocks m)) in
  match bm_suspended_blocks m !! r with
  | None => m
  | Some s =>
    set_missing_ancestors (set_suspended m (delete r (bm_suspended_blocks m)))
      (foldl (λ ma a, alter (λ refs, refs ∖ {[r]}) a ma) (bm_missing_ancestors m) (btree_iter (sb_missing_ancestors s)))
  end.

Lemma forget_facts m r : (∀ a r, r ∈ children m a ↔ waits_for m a r) →
  bm_suspended_blocks (forget m r) = delete r (bm_suspended_blocks m) ∧
  dom (bm_missing_ancestors (forget m r)) = dom (bm_missing_ancestors m) ∧
  bm_missing_blocks (forget m r) = delete r (bm_missing_blocks m) ∧
  bm_received_block_rounds (forget m r) = bm_received_block_rounds m ∧
  ∀ a r', r' ∈ children (forget m r) a ↔ waits_for (forget m r) a r'.
Proof.
  intros Hlink. unfold forget. simpl. destruct (bm_suspended_blocks m !! r) as [s|] eqn:Hs; simpl.
  - split_and!; [done| |done|done|].
    + apply set_eq. intros a. rewrite !elem_of_dom, foldl_alter_lookup. apply fmap_is_Some.
    + intros a r'. unfold children, waits_for. simpl. rewrite foldl_alter_lookup, lookup_delete.
      specialize (Hlink a). unfold children, waits_for in Hlink.
      destruct (decide (r = r')) as [<-|Hne].
      * split; [|by intros (? & ? & _)]. intros Hin. exfalso.
        specialize (Hlink r). rewrite Hs in Hlink. destruct (bm_missing_ancestors m !! a) as [cs|]; simpl in *; [|set_solver].
        case_decide as Ha; [set_solver|]. rewrite elem_of_btree_iter in Ha. naive_solver.
      * rewrite <-Hlink. destruct (bm_missing_ancestors m !! a) as [cs|]; simpl; [|done]. case_decide; set_solver.
  - split_and!; try done. symmetry. by apply delete_id.
Qed.

Lemma forget_loop_start g m d d1 (b : VerifiedBlock) : bm_ok own U g m d → extends own U d [b] d1 →
  loop_ok U g d1 (reference b) (dom (bm_suspended_blocks (forget m (reference b)))) (forget m (reference b)) [reference b] [] [].
Proof.
  intros Hm He. destruct (forget_facts m (reference b) (bm_link _ _ _ _ _ Hm)) as (Hsus & Hdom & Hmb & _ & Hlink).
  assert (∀ r, known d1 r ↔ known d r ∨ r = reference b) as Hk1.
  { intros r. rewrite (ex_known _ _ _ _ _ He). simpl. by rewrite list_elem_of_singleton. }
  replace (forget m (reference b)) with (set_missing_blocks (forget m (reference b)) (bm_missing_blocks (forget m (reference b))))
    at 2 by by destruct (forget m (reference b)).
  apply loop_start; [|exact Hlink|intros a; rewrite Hdom|intros a; rewrite Hmb, Hdom, Hsus].
  - intros r s. rewrite Hsus, lookup_delete. case_decide as Hne; [done|]. intros Hs.
    destruct (bm_suspended _ _ _ _ _ Hm r s Hs) as [Hu [Href Hi Hw Hmi Hrest]]. rewrite Hk1. split_and!; [naive_solver|congruence|].
    split; try done; [by eapply input_ok_extends|]. intros a Ha. rewrite Hk1, (extends_gced own U _ _ _ _ He).
    destruct (Hrest a Ha); tauto.
  - intros Ha. destruct (bm_missing _ _ _ _ _ Hm a Ha) as [Hmo Hu]. unfold missing_ok in *. rewrite (ex_context _ _ _ _ _ He), Hk1.
    split; [done|]. destruct (decide (a = reference b)); tauto.
  - rewrite !dom_delete_L, !elem_of_difference, !elem_of_singleton, (bm_fetch _ _ _ _ _ Hm a). tauto.
Qed.

Lemma committed_step_ok g m d acc missing (b : VerifiedBlock) : bm_ok own U g m d → stamps_ok now U d → input_ok U d b →
  (∀ a, a ∈ ancestors b → known d a ∨ gced d a) →
  ∃ m' d' new, accept_step now instant true (m, d, acc, missing) b = Ret (m', d', acc ++ new, missing) ∧
    received own U g m d [b] m' d' new ∧ known d' (reference b).
Proof.
  intros Hm0 Hst Hin Hanc. pose proof (in_block _ _ _ Hin) as Hb. unfold accept_step.
  destruct (received_metrics_ok own U g m d b Hm0 (bo_author _ _ Hb)) as (rounds & -> & Hlen). cbn [mbind outcome_bind]. cbn zeta.
  pose proof (bm_ok_received own U g m d rounds Hm0 Hlen) as Hm. set (m0 := set_received_rounds m rounds) in *.
  unfold try_accept_one_committed_block. rewrite (contains_block_ret d (bm_dag _ _ _ _ _ Hm)) by apply Hb.
  cbn [mbind outcome_bind]. case_bool_decide as Hk; cbn [mbind outcome_bind].
  { exists m0, d, []. rewrite app_nil_r. split; [done|]. split; [|done]. split; [done|by apply (extends_refl own U U_unique); apply Hm| | |by left].
    - intros [] ?? ?; done.
    - intros ? ->%list_elem_of_singleton. by left. }
  fold (forget m0 (reference b)).
  destruct (forget_facts m0 (reference b) (bm_link _ _ _ _ _ Hm)) as (Hsus & _ & _ & Hrd & _).
  destruct (accept_blocks_extends now instant own U U_unique [b] d) as (d1 & -> & He1); try apply Hm; [done|by constructor| |].
  { apply causal_cons. split; [done|]. intros [] ?? ?; done. }
  cbn [mbind outcome_bind]. pose proof (ex_context _ _ _ _ _ He1) as Hctx.
  assert (∀ r, known d1 r ↔ known d r ∨ r = reference b) as Hk1.
  { intros r. rewrite (ex_known _ _ _ _ _ He1). simpl. by rewrite list_elem_of_singleton. }
  pose proof (forget_loop_start g m0 d d1 b Hm He1) as Hl.
  destruct (unsuspend_children_blocks_ok own U U_unique _ _ _ _ _ Hl) as (m' & out & -> & Hl' & Hr').
  cbn [mbind outcome_bind app].
  destruct (verify_and_accept now instant own U U_unique d1 (sb_block <$> out)) as (d2 & new & -> & He2 & Hc2 & Hrefs & _ & _); try apply He1.
  { by eapply stamps_ok_extends. } { by eapply sb_inputs. }
  { eapply causal_impl; [|apply Hl']. cbn beta. intros a. rewrite Hk1. tauto. }
  cbn [mbind outcome_bind]. exists m', d2, (b :: new).
  assert (known d2 (reference b)) as Hkb by (eapply extends_mono; [done|]; apply Hk1; by right).
  rewrite <-app_assoc. split; [done|]. split; [|done]. split.
  - eapply loop_finish; [exact Hl'|exact He2| | | | |by left].
    + rewrite (extends_gc_round own U _ _ _ He1). apply Hm.
    + rewrite Hr', Hrd, Hctx. apply Hm.
    + intros r. by rewrite Hrefs, sb_refs.
    + intros r. rewrite Hrefs, sb_refs. by right.
  - by apply (extends_trans own U d d1 d2 [b]).
  - apply causal_cons. split; [done|]. eapply causal_impl; [|exact Hc2]. cbn beta. intros a. rewrite Hk1, (extends_gced own U _ _ _ _ He1). tauto.
  - intros ? ->%list_elem_of_singleton. by left.
  - intros r Hr. destruct (decide (r = reference b)) as [->|Hne]; [by right|].
    assert (r ∈ dom (bm_suspended_blocks (forget m0 (reference b)))) as Hr1.
    { rewrite Hsus, dom_delete_L. apply elem_of_difference. rewrite elem_of_singleton. done. }
    apply (lo_before _ _ _ _ _ _ _ _ _ Hl') in Hr1 as [?|Hr1]; [by left|right].
    apply (ex_known _ _ _ _ _ He2). right. by rewrite Hrefs, sb_refs.
Qed.

Lemma committed_steps_ok g bs : ∀ m d acc missing, bm_ok own U g m d → stamps_ok now U d → Forall (input_ok U d) bs →
  causal (λ a, known d a ∨ gced d a) bs → ∃ m' d' new,
    foldM (accept_step now instant true) (m, d, acc, missing) bs = Ret (m', d', acc ++ new, missing) ∧
    received own U g m d bs m' d' new ∧ ∀ b : VerifiedBlock, b ∈ bs → known d' (reference b).
Proof.
  induction bs as [|b bs IH]; intros m d acc missing Hm Hst Hin Hc.
  { exists m, d, []. rewrite app_nil_r. split_and!; [done|by apply (received_nil own U U_unique)|]. intros ? []%elem_of_nil. }
  apply Forall_cons in Hin as [Hb Hbs]. apply causal_cons in Hc as [Hanc Hc].
  destruct (committed_step_ok g m d acc missing b Hm Hst Hb Hanc) as (m1 & d1 & new1 & Heq1 & Hr1 & Hk1).
  pose proof (re_extends _ _ _ _ _ _ _ _ _ Hr1) as He1.
  destruct (IH m1 d1 (acc ++ new1) missing (re_ok _ _ _ _ _ _ _ _ _ Hr1)) as (m2 & d2 & new2 & Heq2 & Hr2 & Hk2).
  { by eapply stamps_ok_extends. }
  { eapply Forall_impl; [done|]. intros x. by eapply input_ok_extends. }
  { eapply causal_impl; [|exact Hc]. intros a [[Hk|Hg]| ->]; [left; by eapply extends_mono|right; by eapply extends_gced|by left]. }
  exists m2, d2, (new1 ++ new2). cbn [foldM]. rewrite Heq1. cbn [mbind outcome_bind]. rewrite Heq2, app_assoc.
  split; [done|]. split; [by apply (received_trans own U g m d [b] m1 d1 new1 bs)|].
  intros b' [->|Hb']%elem_of_cons; [|by apply Hk2]. eapply extends_mono; [apply Hr2|done].
Qed.

(** Blocks sorted by round come after the ancestors among them. *)
Lemma sorted_causal (R : BlockRef → Prop) d (bs : list VerifiedBlock) : Forall (input_ok U d) bs →
  (∀ b a : _, b ∈ bs → a ∈ ancestors (b : VerifiedBlock) → R a ∨ a ∈ (reference <$> bs)) → causal R (stable_sort round_le bs).
Proof.
  intros Hin Hclosed. rewrite <-(stable_sort_Permutation round_le bs) in Hin. setoid_rewrite <-(elem_of_stable_sort round_le) in Hclosed.
  assert (∀ a, a ∈ (reference <$> bs) ↔ a ∈ (reference <$> stable_sort round_le bs)) as Hrefs.
  { intros a. by rewrite (stable_sort_Permutation round_le bs). }
  setoid_rewrite Hrefs in Hclosed. clear Hrefs.
  eapply ordered_causal; try done. eapply StronglySorted_impl; [|apply stable_sort_sorted].
  - intros a b Hab. unfold round_le in Hab. by apply Is_true_true, N.leb_le in Hab.
  - unfold round_le. intros. rewrite !Is_true_true, ?N.leb_le in *. lia.
  - unfold round_le. intros. rewrite !Is_true_true, ?N.leb_le in *. lia.
Qed.
End ops.
