(* ===== verification/BlockManagerTheorems.v ===== *)
(** * BlockManagerTheorems: what the block manager promises Core

    The claims about the block manager, from the invariant of [BlockManagerInv]
    and the operations of [BlockManagerOps]. *)
From S2P Require Import Prelude Committee Block StakeAggregator ThresholdClock Commit Error BlockVerifier Store.
From S2P Require Import MemStore ScoringMetrics LeaderScoring DagState BaseCommitter CommitRule CommitterSpec DagInv.
From S2P Require Import DagOps TestDag BlockManager BlockManagerInv BlockManagerOps.
Local Open Scope N_scope.
Local Open Scope rust_scope.

Section theorems.
Context {St : Type} `{StoreLaws St} (now instant : N).
Context (own : AuthorityIndex) (U : VerifiedBlock → Prop) (g : Round).
Implicit Type d : DagState St.

(** This authority makes one block per round. *)
Definition one_per_round : Prop :=
  ∀ b b', U b → U b' → author b = own → slot b = slot b' → reference b = reference b'.

(** References identify blocks: the hash function has no collisions. *)
Definition collision_free : Prop := ∀ b b', U b → U b' → reference b = reference b' → b = b'.

(** C15: receiving blocks.  When the protocol takes commit timestamps from the
    median, or no block made is from the future or older than an ancestor
    ([stamps_ok]), [try_accept_blocks] never panics and keeps the invariant of
    the manager and of the DAG state.  The DAG state gains exactly the blocks
    that are returned, and each of them comes after the ancestors it needs:
    every ancestor was known, is garbage collected, or was returned earlier.  A
    received block has one of three outcomes: it is in the DAG state; it is
    skipped, being at or below the garbage-collection round; or it is suspended
    with a missing ancestor. *)
Theorem try_accept_blocks_correct (m : BlockManager) d (blocks : list VerifiedBlock) :
  one_per_round → stamps_ok now U d → bm_ok own U g m d → Forall (input_ok U d) blocks →
  ∃ m' d' accepted missing,
    try_accept_blocks now instant m d blocks = Ret (m', d', accepted, missing) ∧ bm_ok own U g m' d' ∧
    (∀ r, known d' r ↔ known d r ∨ r ∈ (reference <$> accepted)) ∧
    (∀ pre (b : VerifiedBlock) post, accepted = pre ++ b :: post → ∀ a, a ∈ ancestors b →
      known d a ∨ gced d a ∨ a ∈ (reference <$> pre)) ∧
    (∀ b : VerifiedBlock, b ∈ blocks → known d' (reference b) ∨ gced d (reference b) ∨
      ∃ s a, bm_suspended_blocks m' !! reference b = Some s ∧ a ∈ ancestors (sb_block s) ∧ ¬ known d' a ∧
        a ∈ dom (bm_missing_ancestors m')).
Proof.
  intros Hu Hst Hm Hin. destruct (try_accept_blocks_ok now instant own U Hu g m d blocks Hm Hst Hin) as (m' & d' & new & missing & Heq & Hr).
  destruct Hr as [Hm' He Hc Hb _]. exists m', d', new, missing. split_and!; [done|done|apply He| |].
  - intros pre b post Hn a Ha. destruct (Hc pre b post Hn a Ha) as [[?|?]|?]; auto.
  - intros b Hin'. destruct (Hb b Hin') as [?|[[s Hs]%elem_of_dom|?]]; [by left|right; right|by right; left].
    destruct (suspended_misses own U Hu g m' d' _ s Hm' Hs) as (a & Ha & Hk & Hd). eauto 10.
Qed.

(** Several deliveries, one after the other. *)
Definition deliver (m : BlockManager) d (batches : list (list VerifiedBlock)) : outcome (BlockManager * DagState St) :=
  foldM (λ '((m, d) : BlockManager * DagState St) blocks,
    '(m, d, _, _) ← try_accept_blocks now instant m d blocks; Ret (m, d)) (m, d) batches.

Lemma deliver_ok batches : one_per_round → ∀ m d, stamps_ok now U d → bm_ok own U g m d → Forall (input_ok U d) (concat batches) →
  ∃ m' d' new, deliver m d batches = Ret (m', d') ∧ received own U g m d (concat batches) m' d' new.
Proof.
  intros Hu. induction batches as [|bs batches IH]; intros m d Hst Hm Hin.
  { exists m, d, []. split; [done|by apply (received_nil own U Hu)]. }
  simpl in Hin. apply Forall_app in Hin as [H1 H2].
  destruct (try_accept_blocks_ok now instant own U Hu g m d bs Hm Hst H1) as (m1 & d1 & new1 & missing & Heq & Hr1).
  destruct (IH m1 d1) as (m2 & d2 & new2 & Heq2 & Hr2); [eapply stamps_ok_extends; [apply Hr1|done]|apply Hr1| |].
  { eapply Forall_impl; [done|]. intros x. eapply input_ok_extends, Hr1. }
  exists m2, d2, (new1 ++ new2). unfold deliver. cbn [foldM]. rewrite Heq. cbn [mbind outcome_bind].
  split; [exact Heq2|]. simpl. by eapply received_trans.
Qed.

(** C16: every causal history that arrives is accepted.  When the protocol takes
    commit timestamps from the median, or no block made is from the future or
    older than an ancestor, then whatever the order in which the blocks of a causally complete set arrive, and however they are
    batched, once all of them have arrived every one above the
    garbage-collection round is in the DAG state; none of them is left
    suspended. *)
Theorem causal_history_accepted (m : BlockManager) d (batches : list (list VerifiedBlock)) :
  one_per_round → collision_free → stamps_ok now U d → g = gc_round d → bm_ok own U g m d → Forall (input_ok U d) (concat batches) →
  (∀ (b : VerifiedBlock) a, b ∈ concat batches → a ∈ ancestors b →
    known d a ∨ gced d a ∨ a ∈ (reference <$> concat batches)) →
  ∃ m' d', deliver m d batches = Ret (m', d') ∧ bm_ok own U g m' d' ∧
    ∀ b : VerifiedBlock, b ∈ concat batches → known d' (reference b) ∨ gced d (reference b).
Proof.
  intros Hu Hcf Hst Hg Hm Hin Hclosed. destruct (deliver_ok batches Hu m d Hst Hm Hin) as (m' & d' & new & Heq & Hr).
  exists m', d'. split; [done|]. destruct Hr as [Hm' He _ Hb _]. split; [done|].
  cut (∀ n (b : VerifiedBlock), round b < n → b ∈ concat batches → known d' (reference b) ∨ gced d (reference b)).
  { intros Hcut b. apply (Hcut (round b + 1)). lia. }
  induction n as [|n IH] using N.peano_ind; intros b Hlt Hbin; [lia|].
  destruct (Hb b Hbin) as [?|[[s Hs]%elem_of_dom|?]]; [by left| |by right]. exfalso.
  assert (g = gc_round d') as Hg' by (rewrite Hg; symmetry; eapply extends_gc_round, He).
  destruct (bm_suspended _ _ _ _ _ Hm' _ s Hs) as [_ [Href Hi Hw Hmi _]]. apply set_choose_L in Hw as [a Ha].
  pose proof (proj1 (waits_exactly own U Hu g m' d' _ s a Hm' Hg' Hs) Ha) as (Hanc & Hk & Hng).
  rewrite (extends_gced own U _ _ _ a He) in Hng.
  assert (sb_block s = b) as Hsb by (rewrite Forall_forall in Hin; apply Hcf; [apply Hi|apply (Hin b Hbin)|done]). rewrite Hsb in *.
  destruct (Hclosed b a Hbin Hanc) as [?|[?|(b' & -> & Hb')%list_elem_of_fmap]]; [|done|].
  - apply Hk. by eapply extends_mono.
  - pose proof (bo_round _ _ (in_block _ _ _ Hi) _ Hanc) as Hr. simpl in Hr. destruct (IH b' ltac:(lia) Hb'); done.
Qed.

(** C32: sweeping.  When the garbage-collection round has moved,
    [try_unsuspend_blocks_for_latest_gc_round] does not panic, drops the missing
    ancestors at or below it, and accepts the blocks that waited only for those;
    afterwards a suspended block waits for exactly its ancestors that are
    neither known nor garbage collected.  This is so when the protocol takes
    commit timestamps from the median, or when no block made is from the future
    or older than an ancestor: otherwise a block may be rejected and its
    children panic. *)
Theorem sweep_correct (m : BlockManager) d :
  one_per_round → stamps_ok now U d → bm_ok own U g m d →
  ∃ m' d' new, try_unsuspend_blocks_for_latest_gc_round now instant m d = Ret (m', d') ∧
    bm_ok own U (gc_round d) m' d' ∧
    (∀ r, known d' r ↔ known d r ∨ r ∈ (reference <$> (new : list VerifiedBlock))) ∧
    (∀ r, r ∈ dom (bm_suspended_blocks m) → r ∈ dom (bm_suspended_blocks m') ∨ known d' r) ∧
    (∀ a, a ∈ dom (bm_missing_ancestors m') → gc_round d < ref_round a) ∧
    ∀ r s a, bm_suspended_blocks m' !! r = Some s →
      a ∈ sb_missing_ancestors s ↔ a ∈ ancestors (sb_block s) ∧ ¬ known d' a ∧ ¬ gced d' a.
Proof.
  intros Hu Hst Hm. destruct (sweep_ok now instant own U Hu g m d Hm Hst) as (m' & d' & new & Heq & Hm' & He & Hk).
  exists m', d', new. split_and!; [done|done|apply He|done| |].
  - intros a Ha. by destruct (bm_missing _ _ _ _ _ Hm' a Ha) as [[? _] _].
  - intros r s a Hs. apply (waits_exactly own U Hu (gc_round d) m' d' r s a Hm'); [|done]. symmetry. by eapply extends_gc_round.
Qed.

(** Registering blocks to fetch.  [try_find_blocks] does not panic on
    references with valid authors, keeps the invariant, and returns exactly the
    references above the garbage-collection round that are neither in the DAG
    state nor suspended; those are then missing blocks, until they arrive. *)
Theorem try_find_blocks_correct (m : BlockManager) d (refs : list BlockRef) :
  one_per_round → bm_ok own U g m d →
  (∀ r, r ∈ refs → is_valid_index (committee (ds_context d)) (ref_author r)) →
  ∃ m' missing, try_find_blocks m d refs = Ret (m', missing) ∧ bm_ok own U g m' d ∧
    (∀ r, r ∈ missing ↔ r ∈ refs ∧ gc_round d < ref_round r ∧ ¬ known d r ∧ r ∉ dom (bm_suspended_blocks m)) ∧
    (∀ r, r ∈ dom (bm_missing_blocks m') ↔ r ∈ dom (bm_missing_blocks m) ∨ r ∈ missing).
Proof.
  intros Hu Hm Hv. destruct (try_find_blocks_ok own U Hu g m d refs Hm Hv) as (m' & missing & ? & ? & _ & ? & ?).
  by exists m', missing.
Qed.

(** Committed blocks.  The blocks of certified commits, closed under
    ancestors above the garbage-collection round, are all accepted without a
    panic, suspended or not; blocks that waited for them follow. *)
Theorem committed_blocks_accepted (m : BlockManager) d (blocks : list VerifiedBlock) :
  one_per_round → stamps_ok now U d → bm_ok own U g m d → gc_enabled d = true → Forall (input_ok U d) blocks →
  (∀ (b : VerifiedBlock) a, b ∈ blocks → a ∈ ancestors b → known d a ∨ gced d a ∨ a ∈ (reference <$> blocks)) →
  ∃ m' d' accepted, try_accept_committed_blocks now instant m d blocks = Ret (m', d', accepted) ∧ bm_ok own U g m' d' ∧
    (∀ b : VerifiedBlock, b ∈ blocks → known d' (reference b)) ∧
    (∀ r, known d' r ↔ known d r ∨ r ∈ (reference <$> accepted)) ∧
    (∀ r, r ∈ dom (bm_suspended_blocks m) → r ∈ dom (bm_suspended_blocks m') ∨ known d' r).
Proof.
  intros Hu Hst Hm Hgc Hin Hclosed.
  destruct (committed_steps_ok now instant own U Hu g (stable_sort round_le blocks) m d [] ∅ Hm Hst) as (m' & d' & new & Heq & Hr & Hk).
  { by rewrite stable_sort_Permutation. }
  { eapply (sorted_causal own U Hu); [done|]. intros b a Hb Ha. destruct (Hclosed b a Hb Ha) as [?|[?|?]]; auto. }
  exists m', d', new. unfold try_accept_committed_blocks, try_accept_blocks_internal. rewrite Hgc. cbn [negb].
  rewrite Heq. cbn [mbind outcome_bind app]. rewrite bool_decide_eq_true_2 by done. cbn [assert mbind outcome_bind].
  destruct Hr as [Hm' He _ _ Hs]. split_and!; [done|done| |apply He|done].
  intros b Hb. apply Hk. by rewrite stable_sort_Permutation.
Qed.

Lemma bm_ok_new d : dag_ok d → own_ok own U d → bm_ok own U (gc_round d) (BlockManager_new (ds_context d)) d.
Proof.
  intros Hok Hown. split; try done; simpl.
  - by rewrite length_replicate.
  - intros a r. unfold children, waits_for. simpl. rewrite lookup_empty. simpl. set_solver.
  - intros a. rewrite dom_empty_L. set_solver.
Qed.
End theorems.

(** ** Witnesses *)

Section input_check.
Context {St : Type} `{StoreLaws St}.

Definition input_ok_b (d : DagState St) (b : VerifiedBlock) : bool :=
  (0 <? round b) && block_ok_b (committee (ds_context d)) b && ref_ok_b (reference b) && votes_ok_b b &&
  forallb (λ a, negb (ref_round a =? 0) || cached_b d a) (ancestors b).

Lemma input_ok_b_spec (Hst : ∀ b, store_accepts_block St b) d (bs : list VerifiedBlock) : forallb (input_ok_b d) bs = true → Forall (input_ok (.∈ bs) d) bs.
Proof.
  intros Hbs. apply Forall_forall. intros b Hb. rewrite forallb_forall in Hbs. specialize (Hbs b).
  rewrite <-list_elem_of_In in Hbs. specialize (Hbs Hb). unfold input_ok_b in Hbs.
  rewrite !andb_true_iff, forallb_forall, N.ltb_lt in Hbs.
  destruct Hbs as [[[[Hr Hbo%block_ok_b_spec] Href%ref_ok_b_spec] Hv%votes_ok_b_spec] Hanc]. split; try done.
  intros a Ha%list_elem_of_In Hz. specialize (Hanc a Ha). rewrite Hz in Hanc. simpl in Hanc.
  unfold cached_b in Hanc. unfold known, lookup_block. destruct (get_cached d a) as [[]|]; [by eexists|done..].
Qed.

Definition closed_b (d : DagState St) (bs : list VerifiedBlock) : bool :=
  forallb (λ b : VerifiedBlock, forallb (λ a, cached_b d a || bool_decide (a ∈ (reference <$> bs))) (ancestors b)) bs.

Lemma closed_b_spec d bs (b : VerifiedBlock) a : closed_b d bs = true → In b bs → In a (ancestors b) →
  known d a ∨ a ∈ (reference <$> bs).
Proof.
  unfold closed_b. rewrite forallb_forall. intros Hc Hb. specialize (Hc b Hb). rewrite forallb_forall in Hc.
  intros Ha. specialize (Hc a Ha). apply orb_true_iff in Hc as [Hc|Hc]; [left|right; by apply bool_decide_eq_true in Hc].
  unfold cached_b in Hc. unfold known, lookup_block. destruct (get_cached d a) as [[]|]; [by eexists|done..].
Qed.
End input_check.

(** Blocks that are told apart by their slots. *)
Definition slots_distinct (bs : list VerifiedBlock) : bool := bool_decide (NoDup ((λ b : VerifiedBlock, slot b) <$> bs)).

Lemma slots_distinct_spec bs : slots_distinct bs = true → ∀ b b' : VerifiedBlock, b ∈ bs → b' ∈ bs → slot b = slot b' → b = b'.
Proof.
  intros Hnd%bool_decide_eq_true b b' [i Hi]%list_elem_of_lookup [j Hj]%list_elem_of_lookup Heq.
  assert (i = j) as ->; [|congruence]. eapply (NoDup_lookup _ _ _ _ Hnd); rewrite list_lookup_fmap; [by rewrite Hi|by rewrite Hj, Heq].
Qed.

Lemma test_one_per_round n : slots_distinct (test_blocks n) = true → one_per_round 0 (.∈ test_blocks n) ∧ collision_free (.∈ test_blocks n).
Proof.
  intros Hs. split.
  - intros b b' Hb Hb' _ Heq. by rewrite (slots_distinct_spec _ Hs b b' Hb Hb' Heq).
  - intros b b' Hb Hb' Heq. apply (slots_distinct_spec _ Hs b b' Hb Hb'). unfold slot. by injection Heq as -> ->.
Qed.

Lemma own_ok_fresh {St : Type} `{StoreLaws St} ctx gs instant metrics (s : St) U : sv_blocks (store_view s) = ∅ →
  own_ok (own_index ctx) U (fresh_dag ctx gs instant metrics s).
Proof. intros Hs. split; [done|]. intros r b Hb Hr. apply fresh_lookup in Hb; [lia|done]. Qed.

Definition test_manager : BlockManager := BlockManager_new (test_context 60).

Lemma test_manager_ok n : bm_ok 0 (.∈ test_blocks n) 0 test_manager test_fresh.
Proof. apply (bm_ok_new 0 (.∈ test_blocks n) test_fresh); [apply test_fresh_ok|by apply own_ok_fresh]. Qed.

(** A node of a protocol version without the median. *)
Definition test_no_median : Context :=
  mk_context 0 0 (test_committee [1; 1; 1; 1]) (mk_protocol_config 60 false true true 33 1000 512 100000 true true) 100 50 5.
Definition test_late_fresh : DagState MemStore := fresh_dag test_no_median test_genesis_blocks 0 test_metrics MemStore_new.

Lemma test_late_fresh_ok : dag_ok test_late_fresh.
Proof.
  apply dag_ok_fresh; try done.
  - apply test_committee_ok.
  - apply ms_ok_new.
  - assert (forallb (λ b : VerifiedBlock, round b =? 0) test_genesis_blocks = true) as Hg by (vm_compute; reflexivity).
    intros b Hb%list_elem_of_In. rewrite forallb_forall in Hg. by apply N.eqb_eq, Hg.
Qed.

(** The timestamps of two full rounds are in order. *)
Definition in_order_b (now : N) (bs gs : list VerifiedBlock) : bool :=
  forallb (λ b : VerifiedBlock, (timestamp_ms b <=? now) &&
    forallb (λ a : VerifiedBlock, negb (bool_decide (reference a ∈ ancestors b)) || (timestamp_ms a <=? timestamp_ms b)) (bs ++ gs)) bs.

Lemma test_late_stamps : stamps_ok 100 (.∈ test_blocks 2) test_late_fresh.
Proof.
  right. assert (in_order_b 100 (test_blocks 2) ((btree_entries (ds_genesis test_late_fresh)).*2) = true) as Hb by (vm_compute; reflexivity).
  unfold in_order_b in Hb. rewrite forallb_forall in Hb. setoid_rewrite <-list_elem_of_In in Hb. split.
  - intros b [Ht _]%Hb%andb_true_iff. by apply N.leb_le.
  - intros b a [_ Hin]%Hb%andb_true_iff Hu Ha. rewrite forallb_forall in Hin. specialize (Hin a). rewrite <-list_elem_of_In in Hin.
    rewrite bool_decide_eq_true_2 in Hin by done. apply N.leb_le, Hin, elem_of_app. destruct Hu as [?|Hg]; [by left|right].
    apply list_elem_of_fmap. exists (reference a, a). split; [done|]. by apply elem_of_btree_entries.
Qed.

Lemma try_accept_blocks_correct_witness :
  ∃ m' d' accepted missing,
    try_accept_blocks 100 100 (BlockManager_new test_no_median) test_late_fresh (reverse (test_blocks 2)) = Ret (m', d', accepted, missing) ∧
    bm_ok 0 (.∈ test_blocks 2) 0 m' d' ∧ ∀ b : VerifiedBlock, b ∈ test_blocks 2 → known d' (reference b) ∨ gced test_late_fresh (reference b) ∨
      reference b ∈ dom (bm_suspended_blocks m').
Proof.
  destruct (try_accept_blocks_correct 100 100 0 (.∈ test_blocks 2) 0 (BlockManager_new test_no_median) test_late_fresh (reverse (test_blocks 2)))
    as (m' & d' & accepted & missing & Heq & Hm & _ & _ & Hb).
  - apply test_one_per_round. vm_compute. reflexivity.
  - apply test_late_stamps.
  - apply (bm_ok_new 0 (.∈ test_blocks 2) test_late_fresh); [apply test_late_fresh_ok|by apply own_ok_fresh].
  - rewrite reverse_Permutation. apply (input_ok_b_spec mem_accepts). vm_compute. reflexivity.
  - exists m', d', accepted, missing. split; [exact Heq|]. split; [exact Hm|]. intros b Hin. destruct (Hb b) as [?|[?|(s & a & Hs & _)]].
    + by rewrite reverse_Permutation.
    + by left.
    + by right; left.
    + right; right. by apply elem_of_dom_2 in Hs.
Defined.

(** Three rounds, the last one first and each round backwards. *)
Definition test_batches : list (list VerifiedBlock) :=
  [reverse (drop 8 (test_blocks 3)); take 4 (test_blocks 3); reverse (drop 4 (take 8 (test_blocks 3)))].

Lemma causal_history_accepted_witness :
  ∃ m' d', deliver 100 100 test_manager test_fresh test_batches = Ret (m', d') ∧
    ∀ b : VerifiedBlock, b ∈ test_blocks 3 → known d' (reference b) ∨ gced test_fresh (reference b).
Proof.
  assert (concat test_batches ≡ₚ test_blocks 3) as Hperm.
  { unfold test_batches. generalize (test_blocks 3). intros l. cbn [concat]. rewrite !reverse_Permutation, app_nil_r.
    rewrite <-(take_drop 8 l) at 4. rewrite <-(take_drop 4 (take 8 l)) at 2. rewrite take_take. simpl (Nat.min _ _). solve_Permutation. }
  destruct (causal_history_accepted 100 100 0 (.∈ test_blocks 3) 0 test_manager test_fresh test_batches) as (m' & d' & Heq & _ & Hk).
  - apply test_one_per_round. vm_compute. reflexivity.
  - apply test_one_per_round. vm_compute. reflexivity.
  - left. reflexivity.
  - reflexivity.
  - apply test_manager_ok.
  - rewrite Hperm. apply (input_ok_b_spec mem_accepts). vm_compute. reflexivity.
  - intros b a. rewrite Hperm. intros Hb%list_elem_of_In Ha%list_elem_of_In.
    assert (closed_b test_fresh (test_blocks 3) = true) as Hc by (vm_compute; reflexivity).
    destruct (closed_b_spec _ _ b a Hc Hb Ha); auto.
  - exists m', d'. split; [exact Heq|]. intros b Hb. apply Hk. by rewrite Hperm.
Defined.

(** A node with four rounds and garbage collection two rounds below the last
    commit, which then receives a block with an unknown ancestor of round 2. *)
Definition test_late : VerifiedBlock :=
  test_block 3 3 399 31 ((reference <$> take 3 (drop 4 (test_blocks 2))) ++ [mk_ref 2 3 999]).
Definition test_late_made (b : VerifiedBlock) : Prop := b ∈ test_blocks 4 ++ [test_late].

Lemma test_late_unique : one_per_round 0 test_late_made.
Proof.
  intros b b' Hb Hb' Ha Hs. unfold test_late_made in *. rewrite elem_of_app, list_elem_of_singleton in Hb, Hb'.
  destruct Hb as [Hb| ->]; [|done]. destruct Hb' as [Hb'| ->]; [|by injection Hs as _ Hs'; rewrite Ha in Hs'].
  f_equal. apply (slots_distinct_spec (test_blocks 4)); [vm_compute; reflexivity|done..].
Qed.

Definition test_sweep_fresh : DagState MemStore := fresh_dag (test_context 2) test_genesis_blocks 0 test_metrics MemStore_new.

(** The manager and the DAG state after all blocks have been received. *)
Definition test_sweep_run := deliver 100 100 (BlockManager_new (test_context 2)) test_sweep_fresh [test_blocks 4; [test_late]].
Definition test_sweep_manager : BlockManager := match test_sweep_run with Ret (m, _) => m | Panic _ => test_manager end.
Definition test_sweep_dag : DagState MemStore := match test_sweep_run with Ret (_, d) => d | Panic _ => test_sweep_fresh end.

Lemma test_sweep_received : bm_ok 0 test_late_made 0 test_sweep_manager test_sweep_dag.
Proof.
  destruct (deliver_ok 100 100 0 test_late_made 0 [test_blocks 4; [test_late]] test_late_unique (BlockManager_new (test_context 2)) test_sweep_fresh)
    as (m' & d' & new & Heq & Hr).
  - left. reflexivity.
  - apply (bm_ok_new 0 test_late_made test_sweep_fresh); [|by apply own_ok_fresh]. apply dag_ok_fresh; try done.
    + apply test_committee_ok.
    + apply ms_ok_new.
    + assert (forallb (λ b : VerifiedBlock, round b =? 0) test_genesis_blocks = true) as Hg by (vm_compute; reflexivity).
      intros b Hb%list_elem_of_In. rewrite forallb_forall in Hg. by apply N.eqb_eq, Hg.
  - apply (input_ok_b_spec mem_accepts test_sweep_fresh (test_blocks 4 ++ [test_late])). vm_compute. reflexivity.
  - unfold test_sweep_manager, test_sweep_dag, test_sweep_run. rewrite Heq. apply Hr.
Qed.

(** The leader of round 4 is committed. *)
Definition test_sweep_commit : TrustedCommit := mk_trusted (Commit_new 1 0 40 (mk_ref 4 1 401) [mk_ref 4 1 401]) 77 [].
Definition test_sweep_state : DagState MemStore :=
  match add_commit 5 test_sweep_dag test_sweep_commit with Ret d => d | Panic _ => test_sweep_dag end.

Lemma test_sweep_ok : bm_ok 0 test_late_made 0 test_sweep_manager test_sweep_state.
Proof.
  pose proof test_sweep_received as Hm. destruct (add_commit_spec test_sweep_dag (bm_dag _ _ _ _ _ Hm) 5 test_sweep_commit) as
    (d' & Heq & Hok & Hl & Hlast & _ & Hrec & Hctx).
  - split; [vm_compute; done..|]. intros r Hr. apply list_elem_of_singleton in Hr as ->. split; [vm_compute; by eexists|done].
  - unfold test_sweep_state. rewrite Heq. apply (bm_ok_advance 0 test_late_made 0 _ test_sweep_dag); [exact Hm|exact Hok|exact Hctx| |exact Hl].
    assert (gc_round test_sweep_dag = 0) as -> by (vm_compute; reflexivity). lia.
Qed.

Lemma test_sweep_median : median_on test_sweep_state.
Proof. vm_compute. reflexivity. Qed.

Lemma elem_of_dom_b {V} (m : gmap BlockRef V) r : match m !! r with Some _ => true | None => false end = true → r ∈ dom m.
Proof. intros Hr. apply elem_of_dom. destruct (m !! r); [by eexists|done]. Qed.

Lemma sweep_correct_witness : ∃ m' d',
  try_unsuspend_blocks_for_latest_gc_round 100 100 test_sweep_manager test_sweep_state = Ret (m', d') ∧
  bm_ok 0 test_late_made 2 m' d' ∧ reference test_late ∈ dom (bm_suspended_blocks test_sweep_manager) ∧
  known d' (reference test_late).
Proof.
  destruct (sweep_correct 100 100 0 test_late_made 0 test_sweep_manager test_sweep_state test_late_unique (or_introl test_sweep_median) test_sweep_ok)
    as (m' & d' & new & Heq & Hm & _ & Hk & _).
  assert (gc_round test_sweep_state = 2) as Hgc by (vm_compute; reflexivity). rewrite Hgc in Hm.
  assert (reference test_late ∈ dom (bm_suspended_blocks test_sweep_manager)) as Hs.
  { apply elem_of_dom_b. vm_compute. reflexivity. }
  assert (match try_unsuspend_blocks_for_latest_gc_round 100 100 test_sweep_manager test_sweep_state with
    | Ret (m, _) => bool_decide (reference test_late ∈ dom (bm_suspended_blocks m)) | Panic _ => true end = false) as Hgone
    by (vm_compute; reflexivity).
  rewrite Heq in Hgone. apply bool_decide_eq_false_1 in Hgone.
  exists m', d'. split; [exact Heq|]. split; [exact Hm|]. split; [exact Hs|].
  destruct (Hk _ Hs) as [Hin|Hin]; [destruct (Hgone Hin)|exact Hin].
Defined.

Lemma try_find_blocks_correct_witness : ∃ m' missing,
  try_find_blocks test_sweep_manager test_sweep_state [mk_ref 1 1 101; mk_ref 9 2 7; mk_ref 3 3 399] = Ret (m', missing) ∧
  mk_ref 9 2 7 ∈ missing.
Proof.
  destruct (try_find_blocks_correct 0 test_late_made 0 test_sweep_manager test_sweep_state [mk_ref 1 1 101; mk_ref 9 2 7; mk_ref 3 3 399])
    as (m' & missing & Heq & _ & Hmiss & _).
  - apply test_late_unique.
  - apply test_sweep_ok.
  - intros r Hr. apply list_elem_of_In in Hr. simpl in Hr. destruct Hr as [<-|[<-|[<-|[]]]]; vm_compute; exact I.
  - exists m', missing. split; [exact Heq|]. apply Hmiss. clear - Hmiss. split; [constructor 2; constructor 1|].
    split; [vm_compute; reflexivity|]. split.
    + apply eq_None_not_Some. vm_compute. reflexivity.
    + apply not_elem_of_dom. vm_compute. reflexivity.
Defined.

(** The same blocks in a certified commit. *)
Lemma committed_blocks_accepted_witness : ∃ m' d' accepted,
  try_accept_committed_blocks 100 100 test_manager test_fresh (reverse (test_blocks 3)) = Ret (m', d', accepted) ∧
  ∀ b : VerifiedBlock, b ∈ test_blocks 3 → known d' (reference b).
Proof.
  destruct (committed_blocks_accepted 100 100 0 (.∈ test_blocks 3) 0 test_manager test_fresh (reverse (test_blocks 3)))
    as (m' & d' & accepted & Heq & _ & Hk & _).
  - apply test_one_per_round. vm_compute. reflexivity.
  - left. reflexivity.
  - apply test_manager_ok.
  - reflexivity.
  - rewrite reverse_Permutation. apply (input_ok_b_spec mem_accepts). vm_compute. reflexivity.
  - intros b a. rewrite reverse_Permutation. intros Hb%list_elem_of_In Ha%list_elem_of_In.
    assert (closed_b test_fresh (test_blocks 3) = true) as Hc by (vm_compute; reflexivity).
    destruct (closed_b_spec _ _ b a Hc Hb Ha); auto.
  - exists m', d', accepted. split; [exact Heq|]. intros b Hb. apply Hk. by rewrite reverse_Permutation.
Defined.

(** ** Behaviours outside the theorems

    Without the median timestamps, a suspended block that waits for two
    ancestors stops waiting for the first one when it arrives, even when its
    timestamps make the manager reject it.  When the second one arrives the
    block is unsuspended without its first ancestor, which panics. *)
(** A block of round 2 that is older than its ancestors. *)
Definition test_rejected : VerifiedBlock := test_block 2 3 298 5 (reference <$> test_blocks 1).
Definition test_child : VerifiedBlock :=
  test_block 3 3 398 30 ((reference <$> take 3 (drop 4 (test_blocks 2))) ++ [reference test_rejected]).

Theorem rejected_ancestor_panics :
  deliver 100 100 (BlockManager_new test_no_median) test_late_fresh
    [take 6 (test_blocks 2); [test_child]; [test_rejected]; take 1 (drop 6 (test_blocks 2))] =
  Panic "Unsuspended block has a missing ancestor! Ancestor not found in DagState".
Proof. vm_compute. reflexivity. Qed.

(** Asking for a block that is already missing forgets which other authorities
    are known to have it. *)
Definition test_waiting : VerifiedBlock :=
  test_block 2 1 297 20 ((reference <$> take 3 (test_blocks 1)) ++ [mk_ref 1 3 999]).

Theorem find_forgets_authorities :
  match try_accept_blocks 100 100 test_manager test_fresh (take 3 (test_blocks 1) ++ [test_waiting]) with
  | Ret (m, d, _, _) =>
    bm_missing_blocks m !! mk_ref 1 3 999 = Some {[3; 1]} ∧
    match try_find_blocks m d [mk_ref 1 3 999] with
    | Ret (m', _) => bm_missing_blocks m' !! mk_ref 1 3 999 = Some {[3]}
    | Panic _ => False
    end
  | Panic _ => False
  end.
Proof. vm_compute. split; reflexivity. Qed.
