(* ===== verification/DagReads.v ===== *)
(** * DagReads: the latest block of every authority

    What [get_last_cached_block_per_authority] and [get_last_proposed_block] of
    [DagState] return under the invariant.  Proposing blocks and probing rounds
    start from these reads. *)
From S2P Require Import Prelude Committee Block StakeAggregator ThresholdClock Commit Error BlockVerifier Store.
From S2P Require Import ScoringMetrics LeaderScoring DagState BaseCommitter CommitRule CommitterSpec DagInv DagOps.
Local Open Scope N_scope.
Local Open Scope rust_scope.

(** A loop over indexed slots that writes at most its own slot. *)
Lemma fold_slots {A B C} (f : list B * list C → N * A → outcome (list B * list C)) (g : nat → A → option (B * C)) l :
  ∀ k bs cs, length bs = length cs →
  (∀ i x bs' cs', l !! i = Some x → length bs' = length bs → length cs' = length cs →
    f (bs', cs') (N.of_nat (k + i), x) =
    Ret match g (k + i)%nat x with Some (b, c) => (<[(k + i)%nat := b]> bs', <[(k + i)%nat := c]> cs') | None => (bs', cs') end) →
  ∃ bs' cs', foldM f (bs, cs) (zip (N.of_nat <$> seq k (length l)) l) = Ret (bs', cs') ∧
    length bs' = length bs ∧ length cs' = length cs ∧
    ∀ j b c, bs !! j = Some b → cs !! j = Some c →
      match (if decide (k <= j)%nat then l !! (j - k)%nat else None) ≫= g j with
      | Some (b', c') => bs' !! j = Some b' ∧ cs' !! j = Some c'
      | None => bs' !! j = Some b ∧ cs' !! j = Some c
      end.
Proof.
  induction l as [|x l IH]; intros k bs cs Hlen Hf; cbn [length seq fmap list_fmap zip zip_with foldM].
  { exists bs, cs. split_and!; [done..|]. intros j b c Hb Hc. by case_decide. }
  pose proof (Hf 0%nat x bs cs eq_refl eq_refl eq_refl) as H0. rewrite Nat.add_0_r in H0. rewrite H0. cbn [mbind outcome_bind].
  set (bc := match g k x with Some (b, c) => (<[k := b]> bs, <[k := c]> cs) | None => (bs, cs) end).
  assert (length bc.1 = length bs ∧ length bc.2 = length cs) as [Hl1 Hl2].
  { unfold bc. destruct (g k x) as [[b c]|]; simpl; by rewrite ?length_insert. }
  destruct bc as [bs1 cs1] eqn:Hbc. simpl in Hl1, Hl2.
  destruct (IH (S k) bs1 cs1) as (bs' & cs' & Heq & Hb' & Hc' & Hj); [congruence| |].
  { intros i y bs2 cs2 Hy Hb2 Hc2. specialize (Hf (S i) y bs2 cs2 Hy ltac:(congruence) ltac:(congruence)).
    rewrite <-Nat.add_succ_comm in Hf. exact Hf. }
  exists bs', cs'. split_and!; [exact Heq|congruence|congruence|]. intros j b c Hb Hc.
  destruct (decide (j = k)) as [->|Hne].
  - rewrite decide_True, Nat.sub_diag by lia. cbn. specialize (Hj k). rewrite decide_False in Hj by lia. cbn in Hj.
    unfold bc in Hbc. destruct (g k x) as [[b1 c1]|]; injection Hbc as <- <-; [|by apply Hj].
    apply Hj; rewrite list_lookup_insert_eq; by eauto using lookup_lt_Some.
  - specialize (Hj j b c). assert (bs1 !! j = Some b ∧ cs1 !! j = Some c) as [H1 H2].
    { unfold bc in Hbc. destruct (g k x) as [[b1 c1]|]; injection Hbc as <- <-; rewrite ?list_lookup_insert_ne by done; done. }
    specialize (Hj H1 H2). destruct (decide (k <= j)%nat); [|by rewrite decide_False in Hj by lia].
    rewrite decide_True in Hj by lia. by replace (j - k)%nat with (S (j - S k)) by lia.
Qed.

Section reads.
Context {St : Type} `{StoreLaws St} (d : DagState St) (Hok : dag_ok d).
Let c := committee (ds_context d).

(** A block that the node holds as the latest of its author below [end_round]:
    cached, or the genesis block when there is no cached one. *)
Record latest_below (end_round : Round) (a : AuthorityIndex) (b : VerifiedBlock) (eqs : list BlockRef) : Prop := {
  lb_author : author b = a;
  lb_round : round b < end_round;
  lb_known : lookup_block d (reference b) = Some b;
  lb_held : (∃ i, ds_recent_blocks d !! reference b = Some i ∧ bi_block i = b) ∨ round b = 0;
  lb_latest r i : ds_recent_blocks d !! r = Some i → ref_author r = a → ref_round r < end_round →
    (∀ e, ds_evicted_rounds d !! N.to_nat a = Some e → e < ref_round r) → ref_round r <= round b;
  lb_equivocations r : r ∈ eqs → ref_author r = a ∧ ref_round r = round b ∧ r ≠ reference b ∧ is_Some (ds_recent_blocks d !! r);
}.

Lemma genesis_slot a : is_valid_index c a → ∃ b : VerifiedBlock, (snd <$> btree_entries (ds_genesis d)) !! N.to_nat a = Some b ∧
  author b = a ∧ round b = 0 ∧ lookup_block d (reference b) = Some b.
Proof.
  intros Ha%Is_true_true%N.ltb_lt. pose proof (ok_genesis_authors _ Hok) as Hg. fold c in Hg.
  assert (N.to_nat a < N.to_nat (committee_size c))%nat as Hlt by lia.
  assert (((λ kv : BlockRef * VerifiedBlock, author kv.2) <$> btree_entries (ds_genesis d)) !! N.to_nat a = Some a) as Hl.
  { rewrite Hg, list_lookup_fmap, lookup_seq_lt by done. cbn. by rewrite N2Nat.id. }
  rewrite list_lookup_fmap in Hl. apply fmap_Some in Hl as ([r b] & Hrb & Hab). exists b.
  rewrite list_lookup_fmap, Hrb. split; [done|]. split; [done|].
  apply list_elem_of_lookup_2, elem_of_btree_entries in Hrb. destruct (ok_genesis _ Hok _ _ Hrb) as [<- Hz].
  split; [done|]. unfold lookup_block, get_cached. by rewrite Hz, Hrb.
Qed.

Lemma genesis_length : length (snd <$> btree_entries (ds_genesis d)) = N.to_nat (committee_size c).
Proof. rewrite length_fmap. rewrite <-(length_fmap (λ kv : BlockRef * VerifiedBlock, author kv.2)), (ok_genesis_authors _ Hok). by rewrite length_fmap, length_seq. Qed.

(** The references of [a] that the scan looks at, latest first. *)
Definition scanned (end_round : Round) (a : AuthorityIndex) (e : Round) (rs : gset BlockRef) : list BlockRef :=
  reverse (btree_range (λ k, above (Included (mk_ref (e +32 1) a DIGEST_MIN)) k && below (Excluded (mk_ref end_round a DIGEST_MIN)) k) rs).

Lemma elem_of_scanned end_round a e rs r : (∀ r, r ∈ rs → ref_author r = a) → e + 1 < end_round → end_round <= U32_MAX →
  r ∈ scanned end_round a e rs ↔ r ∈ rs ∧ e < ref_round r < end_round.
Proof.
  intros Hrs He Hmax. unfold scanned. rewrite elem_of_reverse, elem_of_btree_range, andb_True. cbn [above below].
  rewrite !bool_decide_spec, wrap32_small by (unfold U32_MOD, U32_MAX in *; lia).
  unfold key_le, BlockRef_ord_key, ref_le. simpl. split.
  - intros [[H1 [H2 H3]] Hr]. pose proof (Hrs r Hr) as Ha. split; [done|]. unfold DIGEST_MIN in *.
    destruct (decide (ref_round r = end_round)) as [Heq|]; [|lia]. exfalso. apply H3. destruct r as [rr ra rd]. simpl in *. f_equal; lia.
  - intros [Hr Hlt]. pose proof (Hrs r Hr) as Ha. split; [|done]. unfold DIGEST_MIN. split; [lia|]. split; [lia|].
    intros ->. simpl in *. lia.
Qed.

Lemma scan_sorted end_round a e rs : StronglySorted (λ x y, ref_round y <= ref_round x) (scanned end_round a e rs).
Proof.
  unfold scanned. set (l := btree_range _ rs). pose proof (btree_range_sorted _ rs : StronglySorted key_le l) as Hs.
  clearbody l. induction Hs as [|x l Hl IH Hx]; [constructor|]. rewrite reverse_cons. apply StronglySorted_app_2; [|done|repeat constructor].
  intros y z Hy ->%list_elem_of_singleton. rewrite elem_of_reverse in Hy. rewrite Forall_forall in Hx. by apply ref_le_round, Hx.
Qed.

Lemma scan_slot end_round a e rs : is_valid_index c a → ds_evicted_rounds d !! N.to_nat a = Some e →
  ds_recent_refs_by_authority d !! N.to_nat a = Some rs → e + 1 < end_round → end_round <= U32_MAX →
  (scanned end_round a e rs = [] ∧ last_and_equivocations d (scanned end_round a e rs) = Ret None ∧
    ∀ r i, ds_recent_blocks d !! r = Some i → ref_author r = a → ref_round r < end_round → ref_round r <= e) ∨
  ∃ b eqs, last_and_equivocations d (scanned end_round a e rs) = Ret (Some (b, eqs)) ∧ latest_below end_round a b eqs.
Proof.
  intros Ha He Hrs Hlt Hmax. pose proof (ok_refs _ Hok _ _ Hrs) as Hin.
  assert (∀ r, r ∈ scanned end_round a e rs ↔ r ∈ rs ∧ e < ref_round r < end_round) as Hsc.
  { intros r. apply elem_of_scanned; [|done..]. intros r' Hr'. by apply Hin. }
  pose proof (scan_sorted end_round a e rs) as Hs.
  assert (NoDup (scanned end_round a e rs)) as Hnd by (unfold scanned; rewrite reverse_Permutation; apply btree_range_NoDup).
  destruct (scanned end_round a e rs) as [|r l].
  - left. split_and!; [done|done|]. intros r i Hi Har Hr. apply N.nlt_ge. intros Hgt.
    assert (r ∈ @nil BlockRef) as []%elem_of_nil. apply Hsc. split; [|lia]. apply Hin. by eauto.
  - right. cbn [last_and_equivocations]. destruct (proj1 (Hsc r)) as [[[i Hi] Har]%Hin Hr]; [left|]. rewrite Hi. cbn [expect mbind outcome_bind].
    do 2 eexists. split; [done|]. destruct (ok_recent _ Hok _ _ Hi) as (Href & _ & Hpos & Hbo).
    apply StronglySorted_cons in Hs as [Hall Hs]. rewrite Forall_forall in Hall. apply NoDup_cons in Hnd as [Hnr _].
    assert (round (bi_block i) = ref_round r) as Hrr by by rewrite <-Href.
    split.
    + rewrite <-Har, <-Href. done.
    + rewrite Hrr. lia.
    + rewrite Href. by apply recent_lookup.
    + left. rewrite Href. eauto.
    + intros r' i' Hi' Har' Hr' Hev. rewrite Hrr. specialize (Hev e He).
      assert (r' ∈ r :: l) as [->|Hl]%elem_of_cons by (apply Hsc; split; [apply Hin; by eauto|lia]); [done|by apply Hall].
    + intros r' Hr'. apply (elem_of_take_while (λ x y, ref_round y <= ref_round x)) in Hr' as [Hl Hge]; [|done|].
      2: { intros y z Hyz. rewrite !Is_true_true, !negb_true_iff, !N.ltb_ge. lia. }
      destruct (proj1 (Hsc r')) as [[Hsome Har']%Hin _]; [by right|].
      apply Is_true_true, negb_true_iff, N.ltb_ge in Hge. specialize (Hall r' Hl). cbn beta in Hall. rewrite Hrr, Href.
      split_and!; [done|lia| |done]. by intros ->.
Qed.

(** The scan sees every cached block below [end_round] of [a]. *)
Definition evicted_before (end_round : Round) : Prop := ∀ a e, ds_evicted_rounds d !! a = Some e → e + 1 < end_round.

Definition slot_result (end_round : Round) (i : nat) (rs : gset BlockRef) : option (VerifiedBlock * list BlockRef) :=
  match ds_evicted_rounds d !! i with
  | Some e => match last_and_equivocations d (scanned end_round (N.of_nat i) e rs) with Ret o => o | Panic _ => None end
  | None => None
  end.

Lemma last_cached_ret end_round : 1 < end_round → end_round <= U32_MAX → evicted_before end_round →
  ∃ l, get_last_cached_block_per_authority d end_round = Ret l ∧ length l = N.to_nat (committee_size c) ∧
    ∀ a, is_valid_index c a → ∃ (b : VerifiedBlock) eqs, l !! N.to_nat a = Some (b, eqs) ∧ latest_below end_round a b eqs.
Proof.
  intros H1 Hmax Hev. unfold get_last_cached_block_per_authority, enumerate. fold c.
  rewrite !(proj2 (N.eqb_neq end_round _)) by (unfold GENESIS_ROUND; lia). cbn zeta.
  match goal with |- context [foldM ?f ?s _] => pose proof (fold_slots f (slot_result end_round) (ds_recent_refs_by_authority d) 0
    (snd <$> btree_entries (ds_genesis d)) (replicate (N.to_nat (committee_size c)) [])) as Hfold end.
  pose proof genesis_length as Hgl. fold c in Hgl.
  destruct Hfold as (bs & eqs & -> & Hbl & Hel & Hj).
  { by rewrite length_replicate. }
  { intros i rs bs' cs' Hrs Hb Hc'. simpl. pose proof (lookup_lt_Some _ _ _ Hrs) as Hi. rewrite (ok_refs_length _ Hok) in Hi. fold c in Hi.
    assert (is_valid_index c (N.of_nat i)) as Ha by (apply Is_true_true, N.ltb_lt; lia).
    unfold to_authority_index. rewrite (proj2 (N.ltb_lt _ _)) by lia. cbn [expect mbind outcome_bind].
    destruct (valid_lookup d _ _ (ok_evicted_length _ Hok) Ha) as [e He]. rewrite Nat2N.id in He.
    unfold vec_index. rewrite Nat2N.id, He. cbn [expect mbind outcome_bind]. pose proof (Hev _ _ He) as Hlt.
    rewrite (proj2 (N.leb_gt _ _)) by lia. rewrite set_range_ret.
    2: { apply bool_decide_eq_true_2. unfold key_le, BlockRef_ord_key, ref_le. simpl. rewrite wrap32_small by (unfold U32_MOD, U32_MAX in *; lia). lia. }
    cbn [mbind outcome_bind]. fold (scanned end_round (N.of_nat i) e rs). unfold slot_result. rewrite He.
    destruct (scan_slot end_round (N.of_nat i) e rs Ha) as [(_ & -> & _)|(b & eqs & -> & _)]; try done; rewrite ?Nat2N.id; try done.
    cbn [mbind outcome_bind]. rewrite !vec_set_in by (rewrite ?length_replicate in *; lia). cbn [mbind outcome_bind]. by rewrite Nat2N.id. }
  cbn [mbind outcome_bind]. rewrite length_replicate in Hel. eexists. split; [done|]. split.
  { rewrite length_zip_with. lia. }
  intros a Ha. destruct (genesis_slot a Ha) as (g & Hg & Hga & Hgr & Hgk).
  pose proof Ha as Ha'. apply Is_true_true, N.ltb_lt in Ha'.
  specialize (Hj (N.to_nat a) g [] Hg). rewrite lookup_replicate_2 in Hj by lia. specialize (Hj eq_refl).
  rewrite decide_True, Nat.sub_0_r in Hj by lia. destruct (refs_valid d Hok a Ha) as (rs & Hrs & _). rewrite Hrs in Hj. cbn in Hj.
  destruct (valid_lookup d _ a (ok_evicted_length _ Hok) Ha) as [e He]. unfold slot_result in Hj. rewrite He, N2Nat.id in Hj.
  rewrite lookup_zip_with.
  destruct (scan_slot end_round a e rs Ha He Hrs (Hev _ _ He) Hmax) as [(_ & Heq & Hnone)|(b & bs0 & Heq & Hlb)]; rewrite Heq in Hj; destruct Hj as [-> ->].
  - exists g, []. split; [done|]. split; try done; [lia|by right| |set_solver].
    intros r i Hi Har Hr Hr'. specialize (Hnone r i Hi Har Hr). specialize (Hr' e He). lia.
  - exists b, bs0. done.
Qed.

(** The block this node proposed last. *)
Lemma last_block_ret a : is_valid_index c a → ∃ b : VerifiedBlock,
  get_last_block_for_authority d a = Ret b ∧ author b = a ∧ lookup_block d (reference b) = Some b ∧
  ((∃ i, ds_recent_blocks d !! reference b = Some i ∧ bi_block i = b) ∨
   (round b = 0 ∧ ∀ r i, ds_recent_blocks d !! r = Some i → ref_author r ≠ a)) ∧
  (∀ r i, ds_recent_blocks d !! r = Some i → ref_author r = a → ref_round r <= round b).
Proof.
  intros Ha. unfold get_last_block_for_authority, vec_index. destruct (refs_valid d Hok a Ha) as (rs & -> & Hrs).
  cbn [expect mbind outcome_bind]. destruct (btree_last rs) as [last|] eqn:Hl.
  - apply btree_last_Some in Hl as [Hin Hmax]. apply Hrs in Hin as [[i Hi] Hai]. rewrite Hi. cbn [expect mbind outcome_bind].
    destruct (ok_recent _ Hok _ _ Hi) as (Href & _). exists (bi_block i).
    split; [done|]. rewrite Href. split_and!; [by rewrite <-Hai, <-Href|by apply recent_lookup|left; eauto|].
    intros r i' Hi' Hr. change (round (bi_block i)) with (ref_round (reference (bi_block i))). rewrite Href.
    apply ref_le_round, Hmax, Hrs. eauto.
  - apply btree_last_None in Hl as ->.
    assert (∀ r i, ds_recent_blocks d !! r = Some i → ref_author r ≠ a) as Hno.
    { intros r i Hi Hr. apply (not_elem_of_empty (C := gset BlockRef) r), Hrs. eauto. }
    destruct (genesis_slot a Ha) as (g & Hg & Hga & Hgr & Hgk).
    rewrite list_lookup_fmap in Hg. apply fmap_Some in Hg as ([r g'] & Hrg & ->). apply list_elem_of_lookup_2 in Hrg. simpl in *.
    destruct (filter (λ kv : BlockRef * VerifiedBlock, ref_author kv.1 = a) (btree_entries (ds_genesis d))) as [|[r1 b1] l] eqn:Hf.
    { assert ((r, g') ∈ @nil (BlockRef * VerifiedBlock)) as []%elem_of_nil. rewrite <-Hf. apply list_elem_of_filter. split; [|done].
      apply elem_of_btree_entries, (ok_genesis _ Hok) in Hrg as [<- _]. done. }
    cbn. assert ((r1, b1) ∈ btree_entries (ds_genesis d) ∧ ref_author r1 = a) as [Hin1 Ha1].
    { assert ((r1, b1) ∈ (r1, b1) :: l) as Hx by left. rewrite <-Hf in Hx. apply list_elem_of_filter in Hx as [? ?]. done. }
    apply elem_of_btree_entries in Hin1. destruct (ok_genesis _ Hok _ _ Hin1) as [<- Hz]. simpl in Ha1, Hz.
    exists b1. split_and!; [done|done| |by right|intros r' i Hi Hr; by destruct (Hno r' i Hi)].
    unfold lookup_block, get_cached. simpl. by rewrite Hz, Hin1.
Qed.
End reads.
