(* ===== verification/QuorumRounds.v ===== *)
(** * QuorumRounds: what a quorum has reported

    Models [consensus/core/src/commit_vote_monitor.rs] and the computation of
    [consensus/core/src/round_prober.rs]; the network requests of the prober are
    an argument, the list of answers in the order of their arrival.  Both
    components sort reported numbers with the stake of their reporters and walk
    until a quorum is reached. *)
From S2P Require Import Prelude Committee Block StakeAggregator ThresholdClock Commit Error BlockVerifier Store.
From S2P Require Import MemStore ScoringMetrics LeaderScoring DagState Election CommitTimestamp BaseCommitter CommitRule.
From S2P Require Import CommitterSpec DagInv DagOps TestDag DagReads.
Local Open Scope N_scope.
Local Open Scope rust_scope.

(** ** Walking to a quorum *)

(** The derived order of [(u32, u64)]. *)
Definition pair_le (a b : N * Stake) : bool := (a.1 <? b.1) || ((a.1 =? b.1) && (a.2 <=? b.2)).

(** [for (value, stake) in l { total += stake; if total >= quorum { return value } }]. *)
Fixpoint quorum_walk (c : Committee) (total : Stake) (l : list (N * Stake)) : option N :=
  match l with
  | [] => None
  | (v, s) :: l =>
    let total := total +64 s in
    if quorum_threshold c <=? total then Some v else quorum_walk c total l
  end.

(** [values.iter().zip(committee.authorities())] with the stakes. *)
Definition with_stake (c : Committee) (values : list N) : list (N * Stake) :=
  zip_with (λ v '((_, a) : AuthorityIndex * Authority), (v, Committee.stake a)) values (authorities c).

(** ** CommitVoteMonitor *)

Record CommitVoteMonitor := mk_monitor {
  cv_context : Context;
  cv_highest_voted_commits : list CommitIndex;
}.

Definition CommitVoteMonitor_new (ctx : Context) : CommitVoteMonitor :=
  mk_monitor ctx (replicate (N.to_nat (committee_size (committee ctx))) 0).

Definition observe_block (m : CommitVoteMonitor) (b : VerifiedBlock) : outcome CommitVoteMonitor :=
  voted ← foldM (λ voted (v : CommitVote),
      old ← vec_index voted (author b);
      if old <? commit_ref_index v then vec_set voted (author b) (commit_ref_index v) else Ret voted)
    (cv_highest_voted_commits m) (commit_votes b);
  Ret (mk_monitor (cv_context m) voted).

Definition quorum_commit_index (m : CommitVoteMonitor) : CommitIndex :=
  let c := committee (cv_context m) in
  default GENESIS_COMMIT_INDEX
    (quorum_walk c 0 (stable_sort (λ a b, pair_le b a) (with_stake c (cv_highest_voted_commits m)))).

(** ** RoundProber *)

Definition QuorumRound : Type := Round * Round.

Definition compute_quorum_round (c : Committee) (target_index : AuthorityIndex) (highest_received_rounds : list (list Round))
    : outcome QuorumRound :=
  rounds ← mapM (λ rounds, vec_index rounds target_index) (take (length (authorities c)) highest_received_rounds);
  let sorted := stable_sort pair_le (with_stake c rounds) in
  Ret (default 0 (quorum_walk c 0 (reverse sorted)), default 0 (quorum_walk c 0 sorted)).

(** An answer to [get_latest_rounds]; [None] is an error or a timeout. *)
Definition LatestRounds : Type := option (list Round * list Round).

(** [highest[peer] = rounds], unless the number of rounds is wrong. *)
Definition record_rounds (c : Committee) (highest : list (list Round)) (peer : AuthorityIndex) (rounds : list Round)
    : outcome (list (list Round)) :=
  if N.of_nat (length rounds) =? committee_size c then vec_set highest peer rounds else Ret highest.

Definition record_answer (ctx : Context) '((received, accepted) : list (list Round) * list (list Round))
    '((peer, answer) : AuthorityIndex * LatestRounds) : outcome (list (list Round) * list (list Round)) :=
  match answer with
  | None => Ret (received, accepted)
  | Some (r, a) =>
    received ← record_rounds (committee ctx) received peer r;
    accepted ← (if consensus_round_prober_probe_accepted_rounds (protocol_config ctx)
                then record_rounds (committee ctx) accepted peer a else Ret accepted);
    Ret (received, accepted)
  end.

(** [probe]: the quorum rounds of every authority and the propagation delay. *)
Definition probe {St : Type} (d : DagState St) (own_received_rounds : list Round)
    (answers : list (AuthorityIndex * LatestRounds)) : outcome (list QuorumRound * list QuorumRound * Round) :=
  let ctx := ds_context d in
  let c := committee ctx in
  let n := N.to_nat (committee_size c) in
  let zeros := replicate n (replicate n 0) in
  blocks ← get_last_cached_block_per_authority d U32_MAX;
  let local := (λ b : VerifiedBlock * list BlockRef, round b.1) <$> (blocks : list (VerifiedBlock * list BlockRef)) in
  last_proposed_round ← vec_index local (own_index ctx);
  own_received ← vec_set own_received_rounds (own_index ctx) last_proposed_round;
  own_accepted ← vec_set local (own_index ctx) last_proposed_round;
  received ← vec_set zeros (own_index ctx) own_received;
  accepted ← vec_set zeros (own_index ctx) own_accepted;
  '(received, accepted) ← foldM (record_answer ctx) (received, accepted) answers;
  received_quorum_rounds ← mapM (λ p, compute_quorum_round c (fst p) received) (authorities c);
  accepted_quorum_rounds ← mapM (λ p, compute_quorum_round c (fst p) accepted) (authorities c);
  own_quorum ← vec_index (received_quorum_rounds : list QuorumRound) (own_index ctx);
  Ret (received_quorum_rounds, accepted_quorum_rounds, last_proposed_round - fst (own_quorum : QuorumRound)).

(** ** The walk finds the quorum *)

Lemma quorum_walk_spec c l : ∀ total, total + stakes l < U64_MOD → total < quorum_threshold c →
  match quorum_walk c total l with
  | Some v => ∃ p s q, l = p ++ (v, s) :: q ∧ total + stakes p < quorum_threshold c <= total + stakes p + s
  | None => total + stakes l < quorum_threshold c
  end.
Proof.
  induction l as [|[v s] l IH]; intros total Hsum Htot; cbn [quorum_walk].
  { unfold stakes. simpl. lia. }
  unfold stakes in *. csimpl in Hsum. rewrite (wrap64_small (total + s)) by lia.
  destruct (N.leb_spec (quorum_threshold c) (total + s)) as [Hle|Hlt].
  { exists [], s, l. split; [done|]. simpl. lia. }
  specialize (IH (total + s) ltac:(lia) Hlt). destruct (quorum_walk c (total + s) l) as [m|].
  - destruct IH as (p & s' & q & -> & Hp). exists ((v, s) :: p), s', q. split; [done|]. csimpl. lia.
  - csimpl. lia.
Qed.

(** The values reported by the authorities, and who reported what. *)
Definition value_at (values : list N) (a : AuthorityIndex) : N := default 0 (values !! N.to_nat a).

Definition reporters (c : Committee) (values : list N) (P : N → Prop) `{!∀ v, Decision (P v)} : gset AuthorityIndex :=
  filter (λ a, P (value_at values a)) (all_indices c).

Section walk.
Context (c : Committee) (Hc : committee_ok c) (values : list N).
Context (Hlen : length values = N.to_nat (committee_size c)).

Lemma with_stake_eq : with_stake c values = (λ a, (value_at values a, stake_at c a)) <$> (N.of_nat <$> seq 0 (length values)).
Proof.
  apply list_eq. intros i. unfold with_stake, authorities. rewrite lookup_zip_with, list_lookup_imap, !list_lookup_fmap.
  unfold committee_size in Hlen. destruct (decide (i < length values)%nat) as [Hi|Hi].
  - destruct (lookup_lt_is_Some_2 values i Hi) as [v Hv]. rewrite lookup_seq_lt by done. cbn.
    destruct (lookup_lt_is_Some_2 (authorities_vec c) i) as [a Ha]; [lia|]. rewrite Hv, Ha. cbn.
    unfold value_at, stake_at. by rewrite Nat2N.id, Hv, Ha.
  - rewrite lookup_seq_ge by lia. rewrite (lookup_ge_None_2 values) by lia. done.
Qed.

Lemma stakes_reporters (P : N → Prop) `{!∀ v, Decision (P v)} :
  stakes (filter (λ x, P x.1) (with_stake c values)) = set_stake c (reporters c values P).
Proof.
  rewrite with_stake_eq, filter_fmap. unfold stakes. rewrite <-list_fmap_compose.
  change (snd ∘ (λ a, (value_at values a, stake_at c a))) with (stake_at c). cbn [fst].
  rewrite sum_stake_list; [|apply NoDup_filter, NoDup_fmap_2; [apply _|apply NoDup_seq]].
  f_equal. apply set_eq. intros a. unfold reporters, all_indices. rewrite elem_of_list_to_set, list_elem_of_filter, elem_of_filter, elem_of_list_to_set.
  unfold committee_size in Hlen. by replace (length values) with (length (authorities_vec c)) by lia.
Qed.

Lemma stakes_all : stakes (with_stake c values) = total_stake c.
Proof.
  destruct (committee_ok_fields c Hc) as (_ & Ht & _). rewrite Ht.
  pose proof (stakes_reporters (λ _, True)) as Hs. rewrite filter_all in Hs by done. rewrite Hs. f_equal. apply set_eq. intros a. unfold reporters. rewrite elem_of_filter. tauto.
Qed.

(** The value found by walking a sorted permutation: a quorum reported a value
    that comes before it, and no quorum a value that comes strictly before. *)
Lemma quorum_walk_sorted (before : N → N → Prop) `{!RelDecision before} l :
  l ≡ₚ with_stake c values → StronglySorted (λ x y, before x.1 y.1) l → Reflexive before →
  ∃ v, quorum_walk c 0 l = Some v ∧ reached_quorum c (set_stake c (reporters c values (λ w, before w v))) ∧
    ¬ reached_quorum c (set_stake c (reporters c values (λ w, ¬ before v w))).
Proof.
  intros Hperm Hsort Hrefl. destruct (committee_ok_fields c Hc) as (_ & _ & Hpos & Hmax & Hq & _).
  assert (stakes l = total_stake c) as Hst by by rewrite Hperm, stakes_all.
  pose proof (quorum_two_thirds c Hc) as Hq3.
  pose proof (quorum_walk_spec c l 0 ltac:(lia) ltac:(rewrite Hq; lia)) as Hspec.
  destruct (quorum_walk c 0 l) as [v|]; [|exfalso; lia].
  destruct Hspec as (p & s & q & Hl & Hp). exists v. split; [done|]. unfold reached_quorum. rewrite !Is_true_true, !N.leb_le.
  rewrite <-!stakes_reporters. rewrite <-(filter_Permutation (λ x : N * Stake, before x.1 v) _ _ Hperm).
  rewrite <-(filter_Permutation (λ x : N * Stake, ¬ before v x.1) _ _ Hperm). rewrite Hl in Hsort |- *.
  rewrite !filter_app, !filter_cons, !stakes_app, decide_True, (decide_False (P := ¬ _)) by (simpl; auto).
  assert (∀ k x, stakes (x :: k) = x.2 + stakes k) as Hcons by done. rewrite Hcons. cbn [snd]. split.
  - rewrite (filter_all _ p); [lia|]. intros x Hx.
    by apply (StronglySorted_app_1_elem_of _ _ _ x (v, s) Hsort Hx); left.
  - rewrite (filter_none _ q).
    + pose proof (stakes_filter_le (λ x : N * Stake, ¬ before v x.1) p). unfold stakes at 2. simpl. lia.
    + intros x Hx Hn. apply Hn. apply StronglySorted_app_1_r, StronglySorted_cons in Hsort as [Hall _].
      rewrite Forall_forall in Hall. by apply (Hall x).
Qed.
End walk.

Lemma pair_le_total a b : pair_le a b ∨ pair_le b a.
Proof. unfold pair_le. rewrite !orb_True, !andb_True, !Is_true_true, !N.ltb_lt, !N.eqb_eq, !N.leb_le. lia. Qed.

Lemma pair_le_trans a b c : pair_le a b → pair_le b c → pair_le a c.
Proof. unfold pair_le. rewrite !orb_True, !andb_True, !Is_true_true, !N.ltb_lt, !N.eqb_eq, !N.leb_le. lia. Qed.

Lemma pair_le_fst a b : pair_le a b → a.1 <= b.1.
Proof. unfold pair_le. rewrite orb_True, andb_True, !Is_true_true, N.ltb_lt, N.eqb_eq, N.leb_le. lia. Qed.

Lemma StronglySorted_reverse {A} (R : relation A) l : StronglySorted R l → StronglySorted (flip R) (reverse l).
Proof.
  induction 1 as [|x l Hl IH Hx]; [constructor|]. rewrite reverse_cons. apply StronglySorted_app_2; [|done|repeat constructor].
  intros y z Hy ->%list_elem_of_singleton. rewrite elem_of_reverse in Hy. rewrite Forall_forall in Hx. exact (Hx _ Hy).
Qed.

Section quorum.
Context (c : Committee) (Hc : committee_ok c) (values : list N).
Context (Hlen : length values = N.to_nat (committee_size c)).

Lemma ascending_walk : ∃ v, quorum_walk c 0 (stable_sort pair_le (with_stake c values)) = Some v ∧
  reached_quorum c (set_stake c (reporters c values (λ w, w <= v))) ∧
  ¬ reached_quorum c (set_stake c (reporters c values (λ w, ¬ v <= w))).
Proof.
  apply (quorum_walk_sorted c Hc values Hlen N.le); [apply stable_sort_Permutation| |intros x; lia].
  eapply StronglySorted_impl; [|apply stable_sort_sorted; [apply pair_le_total|apply pair_le_trans]]. apply pair_le_fst.
Qed.

Lemma descending_walk l : l ≡ₚ with_stake c values → StronglySorted (flip (λ a b, pair_le a b)) l →
  ∃ v, quorum_walk c 0 l = Some v ∧
  reached_quorum c (set_stake c (reporters c values (λ w, v <= w))) ∧
  ¬ reached_quorum c (set_stake c (reporters c values (λ w, ¬ w <= v))).
Proof.
  intros Hperm Hs. apply (quorum_walk_sorted c Hc values Hlen (flip N.le)); [done| |intros x; unfold flip; lia].
  eapply StronglySorted_impl; [|exact Hs]. intros x y Hxy. by apply pair_le_fst.
Qed.

(** Below a threshold that a quorum does not pass there is an honest reporter. *)
Lemma honest_beyond byz (P Q : N → Prop) `{!∀ v, Decision (P v), !∀ v, Decision (Q v)} :
  set_stake c byz < validity_threshold c → (∀ v, P v ∨ Q v) → ¬ reached_quorum c (set_stake c (reporters c values P)) →
  ∃ a, is_valid_index c a ∧ (a ∉ byz) ∧ Q (value_at values a).
Proof.
  intros Hbyz HPQ Hn. destruct (exists_honest c byz (reporters c values Q)) as (a & Ha & Hh).
  - assert (total_stake c <= set_stake c (reporters c values P) + set_stake c (reporters c values Q)) as Htot.
    { destruct (committee_ok_fields c Hc) as (_ & -> & _). rewrite (set_stake_split c (all_indices c) (reporters c values P)).
      apply N.add_le_mono; apply set_stake_mono; unfold reporters; intros a; rewrite ?elem_of_intersection, ?elem_of_difference, !elem_of_filter.
      - tauto.
      - intros [Ha Hnp]. split; [|done]. destruct (HPQ (value_at values a)); [|done]. destruct Hnp. done. }
    unfold reached_quorum in Hn. rewrite Is_true_true, N.leb_le in Hn.
    pose proof (quorum_two_thirds c Hc). pose proof (byz_third c Hc byz Hbyz). lia.
  - exists a. unfold reporters in Ha. rewrite elem_of_filter, elem_of_all_indices in Ha. naive_solver.
Qed.
End quorum.

Lemma reporters_valid c values (P : N → Prop) `{!∀ v, Decision (P v)} : reporters c values P ⊆ all_indices c.
Proof. intros a. unfold reporters. by rewrite elem_of_filter; intros [_ ?]. Qed.

Lemma reporters_mono c values (P Q : N → Prop) `{!∀ v, Decision (P v), !∀ v, Decision (Q v)} :
  (∀ v, P v → Q v) → reached_quorum c (set_stake c (reporters c values P)) → reached_quorum c (set_stake c (reporters c values Q)).
Proof.
  intros HPQ. unfold reached_quorum. rewrite !Is_true_true, !N.leb_le. intros Hq. etrans; [exact Hq|].
  apply set_stake_mono. intros a. unfold reporters. rewrite !elem_of_filter. naive_solver.
Qed.

(** The highest index that a quorum has voted for. *)
Lemma quorum_commit_index_spec m : let c := committee (cv_context m) in
  committee_ok c → length (cv_highest_voted_commits m) = N.to_nat (committee_size c) →
  reached_quorum c (set_stake c (reporters c (cv_highest_voted_commits m) (λ i, quorum_commit_index m <= i))) ∧
  ∀ j, quorum_commit_index m < j → ¬ reached_quorum c (set_stake c (reporters c (cv_highest_voted_commits m) (λ i, j <= i))).
Proof.
  intros c Hc Hlen. unfold quorum_commit_index. fold c.
  destruct (descending_walk c Hc (cv_highest_voted_commits m) Hlen (stable_sort (λ a b, pair_le b a) (with_stake c (cv_highest_voted_commits m))))
    as (v & -> & Hq & Hn).
  - apply stable_sort_Permutation.
  - apply (stable_sort_sorted (λ a b, pair_le b a)); [intros; apply pair_le_total|intros ??? H1 H2; by eapply pair_le_trans].
  - cbn [default from_option id]. split; [done|]. intros j Hj Hq'. apply Hn. eapply reporters_mono; [|exact Hq'].
    intros w Hw. cbn beta in *. lia.
Qed.

(** A quorum has a member outside any set below the validity threshold. *)
Lemma quorum_has_honest c byz X : committee_ok c → set_stake c byz < validity_threshold c → reached_quorum c (set_stake c X) →
  ∃ a, a ∈ X ∧ a ∉ byz.
Proof.
  intros Hc Hbyz Hq. apply (exists_honest c). unfold reached_quorum in Hq. rewrite Is_true_true, N.leb_le in Hq.
  pose proof (quorum_two_thirds c Hc). pose proof (byz_third c Hc byz Hbyz). lia.
Qed.

Lemma foldr_max_ge x l : x <= foldr N.max x l.
Proof. induction l; simpl; lia. Qed.

Lemma foldr_max_elem x y l : y ∈ l → y <= foldr N.max x l.
Proof. induction 1; simpl; lia. Qed.

(** Observing a block raises the highest vote of its author, nothing else. *)
Lemma observe_block_spec m (b : VerifiedBlock) : is_valid_index (committee (cv_context m)) (author b) →
  length (cv_highest_voted_commits m) = N.to_nat (committee_size (committee (cv_context m))) →
  ∃ m', observe_block m b = Ret m' ∧ cv_context m' = cv_context m ∧
    length (cv_highest_voted_commits m') = length (cv_highest_voted_commits m) ∧
    ∀ a, value_at (cv_highest_voted_commits m') a =
      if decide (a = author b)
      then foldr N.max (value_at (cv_highest_voted_commits m) a) (commit_ref_index <$> commit_votes b)
      else value_at (cv_highest_voted_commits m) a.
Proof.
  intros Hb Hlen. unfold observe_block.
  cut (∀ votes voted, length voted = length (cv_highest_voted_commits m) → ∃ voted',
    foldM (λ voted (v : CommitVote), old ← vec_index voted (author b);
      if old <? commit_ref_index v then vec_set voted (author b) (commit_ref_index v) else Ret voted) voted votes = Ret voted' ∧
    length voted' = length voted ∧ ∀ a, value_at voted' a =
      if decide (a = author b) then foldr N.max (value_at voted a) (commit_ref_index <$> votes) else value_at voted a).
  { intros Hcut. destruct (Hcut (commit_votes b) _ eq_refl) as (voted' & -> & Hl & Hv). eexists. split; [done|]. done. }
  assert (N.to_nat (author b) < length (cv_highest_voted_commits m))%nat as Hlt.
  { unfold is_valid_index in Hb. rewrite Is_true_true, N.ltb_lt in Hb. lia. }
  induction votes as [|v votes IH]; intros voted Hl; cbn [foldM].
  { exists voted. split_and!; [done..|]. intros a. by case_decide. }
  destruct (lookup_lt_is_Some_2 voted (N.to_nat (author b))) as [old Hold]; [lia|].
  rewrite (proj2 (vec_index_ret _ _ _) Hold). cbn [mbind outcome_bind].
  assert (value_at voted (author b) = old) as Hva by (unfold value_at; by rewrite Hold).
  destruct (N.ltb_spec old (commit_ref_index v)) as [Hup|Hup]; [rewrite vec_set_in by lia|]; cbn [mbind outcome_bind].
  - destruct (IH (<[N.to_nat (author b) := commit_ref_index v]> voted)) as (voted' & -> & Hl' & Hv'); [by rewrite length_insert|].
    rewrite length_insert in Hl'. exists voted'. split_and!; [done..|]. intros a. rewrite Hv'. unfold value_at at 1 2.
    case_decide as Ha; [subst a; rewrite list_lookup_insert_eq by lia|by rewrite list_lookup_insert_ne by (intros ?%(inj N.to_nat); done)].
    cbn. rewrite Hva. clear - Hup. induction (commit_ref_index <$> votes) as [|x l IHl]; simpl; lia.
  - destruct (IH voted Hl) as (voted' & -> & Hl' & Hv'). exists voted'. split_and!; [done..|]. intros a. rewrite Hv'.
    case_decide as Ha; [subst a|done]. rewrite Hva. clear - Hup.
    cbn. induction (commit_ref_index <$> votes) as [|x l IHl]; simpl; lia.
Qed.

(** C38: the quorum commit index.  [quorum_commit_index] is the highest index
    that a quorum has voted for: authorities with a quorum of stake have voted
    for it or beyond, and no quorum has voted beyond it.  So an authority outside
    any set below the validity threshold has voted for it or beyond.  Observing
    a block of a committee member never panics, records its votes, and never
    lowers the quorum commit index. *)
Theorem quorum_commit_index_correct (m : CommitVoteMonitor) (b : VerifiedBlock) (byz : gset AuthorityIndex) :
  let c := committee (cv_context m) in
  committee_ok c → length (cv_highest_voted_commits m) = N.to_nat (committee_size c) →
  set_stake c byz < validity_threshold c → is_valid_index c (author b) →
  reached_quorum c (set_stake c (reporters c (cv_highest_voted_commits m) (λ i, quorum_commit_index m <= i))) ∧
  (∀ j, quorum_commit_index m < j →
    ¬ reached_quorum c (set_stake c (reporters c (cv_highest_voted_commits m) (λ i, j <= i)))) ∧
  (∃ a, is_valid_index c a ∧ (a ∉ byz) ∧ quorum_commit_index m <= value_at (cv_highest_voted_commits m) a) ∧
  ∃ m', observe_block m b = Ret m' ∧ length (cv_highest_voted_commits m') = N.to_nat (committee_size c) ∧
    quorum_commit_index m <= quorum_commit_index m' ∧
    ∀ v, v ∈ commit_votes b → commit_ref_index v <= value_at (cv_highest_voted_commits m') (author b).
Proof.
  intros c Hc Hlen Hbyz Hb. destruct (quorum_commit_index_spec m Hc Hlen) as [Hq Hn]. split_and!; [done|done| |].
  { destruct (quorum_has_honest c byz _ Hc Hbyz Hq) as (a & Ha & Hh). exists a. unfold reporters in Ha.
    rewrite elem_of_filter, elem_of_all_indices in Ha. naive_solver. }
  destruct (observe_block_spec m b Hb Hlen) as (m' & Heq & Hctx & Hl & Hv). exists m'. split; [done|]. split; [congruence|]. split.
  - destruct (quorum_commit_index_spec m') as [_ Hn']; rewrite ?Hctx in *; [done|by rewrite Hl|].
    apply N.le_ngt. intros Hlt. apply (Hn' _ Hlt). unfold reached_quorum in *. rewrite Is_true_true, N.leb_le in *. etrans; [exact Hq|].
    apply set_stake_mono. intros a. unfold reporters. rewrite !elem_of_filter. intros [Ha Hin]. split; [|done].
    etrans; [exact Ha|]. rewrite Hv. case_decide; [apply foldr_max_ge|done].
  - intros v Hin. rewrite Hv, decide_True by done. by apply foldr_max_elem, list_elem_of_fmap_2.
Qed.

Lemma compute_quorum_round_ret c target highest values : committee_ok c →
  length values = N.to_nat (committee_size c) → length highest = length values →
  (∀ i rs v, highest !! i = Some rs → values !! i = Some v → rs !! N.to_nat target = Some v) →
  ∃ low high, compute_quorum_round c target highest = Ret (low, high) ∧
    reached_quorum c (set_stake c (reporters c values (λ w, low <= w))) ∧
    ¬ reached_quorum c (set_stake c (reporters c values (λ w, ¬ w <= low))) ∧
    reached_quorum c (set_stake c (reporters c values (λ w, w <= high))) ∧
    ¬ reached_quorum c (set_stake c (reporters c values (λ w, ¬ high <= w))).
Proof.
  intros Hc Hlen Hlen' Hval. unfold compute_quorum_round. unfold committee_size in Hlen.
  rewrite take_ge by (unfold authorities; rewrite length_imap; lia).
  assert (mapM (λ rounds, vec_index rounds target) highest = Ret values) as ->.
  { apply mapM_ret_Forall2, Forall2_same_length_lookup_2; [done|]. intros i rs v Hrs Hv. apply vec_index_ret. by eapply Hval. }
  cbn [mbind outcome_bind]. pose proof (stable_sort_sorted pair_le pair_le_total pair_le_trans (with_stake c values)) as Hs.
  destruct (ascending_walk c Hc values) as (high & Hh & ? & ?); [unfold committee_size; lia|].
  destruct (descending_walk c Hc values) with (l := reverse (stable_sort pair_le (with_stake c values))) as (low & Hl & ? & ?);
    [unfold committee_size; lia|by rewrite reverse_Permutation, stable_sort_Permutation|by apply StronglySorted_reverse|].
  exists low, high. rewrite Hh, Hl. done.
Qed.

(** The rounds that the authorities report for [target]. *)
Definition reported (target : AuthorityIndex) (highest : list (list Round)) : list Round :=
  (λ rs, default 0 (rs !! N.to_nat target)) <$> highest.

(** One row per authority, each with one round per authority. *)
Definition square (c : Committee) (highest : list (list Round)) : Prop :=
  length highest = N.to_nat (committee_size c) ∧ Forall (λ rs, length rs = N.to_nat (committee_size c)) highest.

Lemma square_reported c target highest : square c highest → is_valid_index c target →
  ∀ i rs v, highest !! i = Some rs → reported target highest !! i = Some v → rs !! N.to_nat target = Some v.
Proof.
  intros [_ Hrows] Ht i rs v Hrs. unfold reported. rewrite list_lookup_fmap, Hrs. cbn. intros [= <-].
  rewrite Forall_forall in Hrows. pose proof (Hrows rs (list_elem_of_lookup_2 _ _ _ Hrs)) as Hl.
  destruct (lookup_lt_is_Some_2 rs (N.to_nat target)) as [v Hv]; [|by rewrite Hv].
  unfold is_valid_index in Ht. rewrite Is_true_true, N.ltb_lt in Ht. lia.
Qed.

(** C39: quorum rounds are between honest rounds.  For reports with one row per
    authority, [compute_quorum_round] returns a range [low, high]: a quorum
    reports at least [low] and a quorum at most [high], the range is not empty,
    and authorities outside any set below the validity threshold report a round
    at most [low] and a round at least [high]. *)
Theorem quorum_round_bft (c : Committee) (target : AuthorityIndex) (highest : list (list Round)) (byz : gset AuthorityIndex) :
  committee_ok c → square c highest → is_valid_index c target → set_stake c byz < validity_threshold c →
  ∃ low high, compute_quorum_round c target highest = Ret (low, high) ∧ low <= high ∧
    reached_quorum c (set_stake c (reporters c (reported target highest) (λ r, low <= r))) ∧
    reached_quorum c (set_stake c (reporters c (reported target highest) (λ r, r <= high))) ∧
    (∃ a, is_valid_index c a ∧ (a ∉ byz) ∧ value_at (reported target highest) a <= low) ∧
    ∃ a, is_valid_index c a ∧ (a ∉ byz) ∧ high <= value_at (reported target highest) a.
Proof.
  intros Hc Hsq Ht Hbyz. pose proof Hsq as [Hlen _].
  destruct (compute_quorum_round_ret c target highest (reported target highest) Hc) as (low & high & Heq & Hlow & Hlow' & Hhigh & Hhigh').
  { unfold reported. by rewrite length_fmap. } { unfold reported. by rewrite length_fmap. } { by apply (square_reported c). }
  assert (length (reported target highest) = N.to_nat (committee_size c)) as Hlen' by (unfold reported; by rewrite length_fmap).
  exists low, high. split; [done|]. split.
  { destruct (quorums_share_honest c Hc byz Hbyz _ _ (reporters_valid _ _ _) (reporters_valid _ _ _) Hlow Hhigh) as (a & Ha & Ha' & _).
    unfold reporters in Ha, Ha'. rewrite elem_of_filter in Ha, Ha'. lia. }
  split_and!; [done|done| |].
  - apply (honest_beyond c Hc (reported target highest) Hlen' byz (λ w, ¬ w <= low) (λ w, w <= low)); [done| |done]. intros v. lia.
  - apply (honest_beyond c Hc (reported target highest) Hlen' byz (λ w, ¬ high <= w) (λ w, high <= w)); [done| |done]. intros v. lia.
Qed.

Lemma square_set c highest i rs highest' : square c highest → length rs = N.to_nat (committee_size c) →
  vec_set highest i rs = Ret highest' → square c highest'.
Proof.
  intros [Hl Hr] Hrs [_ ->]%vec_set_ret. split; [by rewrite length_insert|]. by apply Forall_insert.
Qed.

Lemma record_rounds_ok c highest peer rounds : square c highest → is_valid_index c peer →
  ∃ highest', record_rounds c highest peer rounds = Ret highest' ∧ square c highest'.
Proof.
  intros Hsq Hp. unfold record_rounds. destruct (N.eqb_spec (N.of_nat (length rounds)) (committee_size c)) as [Hlen|]; [|by eauto].
  assert (vec_set highest peer rounds = Ret (<[N.to_nat peer := rounds]> highest)) as Hset.
  { apply vec_set_in. destruct Hsq as [-> _]. unfold is_valid_index in Hp. rewrite Is_true_true, N.ltb_lt in Hp. lia. }
  eexists. split; [exact Hset|]. eapply square_set; [done| |exact Hset]. lia.
Qed.

Lemma quorum_rounds_ret c highest : committee_ok c → square c highest →
  ∃ qs, mapM (λ p : AuthorityIndex * Authority, compute_quorum_round c p.1 highest) (authorities c) = Ret qs ∧
    length qs = N.to_nat (committee_size c).
Proof.
  intros Hc Hsq. destruct (mapM_is_ret (λ p : AuthorityIndex * Authority, compute_quorum_round c p.1 highest) (authorities c)) as [qs Hqs].
  - intros [p x] Hp%authorities_valid. pose proof Hsq as [Hlen _].
    destruct (compute_quorum_round_ret c p highest (reported p highest) Hc) as (low & high & Heq & _); [by unfold reported; rewrite length_fmap..| |by eexists].
    by apply (square_reported c).
  - exists qs. split; [done|]. apply mapM_ret_Forall2, Forall2_length in Hqs. rewrite <-Hqs.
    unfold authorities, committee_size. rewrite length_imap. lia.
Qed.

(** Probing.  From answers of committee members in any order, including
    failures and answers of the wrong length, [probe] returns one quorum round
    per authority without a panic, for received and for accepted rounds, and the
    distance from the last proposed block to what a quorum has received. *)
Theorem probe_total {St : Type} `{StoreLaws St} (d : DagState St) (own_received : list Round)
    (answers : list (AuthorityIndex * LatestRounds)) :
  let c := committee (ds_context d) in
  dag_ok d → evicted_before d U32_MAX → is_valid_index c (own_index (ds_context d)) →
  length own_received = N.to_nat (committee_size c) → (∀ p x, (p, x) ∈ answers → is_valid_index c p) →
  ∃ received accepted delay, probe d own_received answers = Ret (received, accepted, delay) ∧
    length received = N.to_nat (committee_size c) ∧ length accepted = N.to_nat (committee_size c) ∧
    ∃ (last : VerifiedBlock) eqs q, latest_below d U32_MAX (own_index (ds_context d)) last eqs ∧
      received !! N.to_nat (own_index (ds_context d)) = Some q ∧ delay = round last - q.1.
Proof.
  intros c Hok Hev Hown Hlen Hans. unfold probe. fold c.
  destruct (last_cached_ret d Hok U32_MAX) as (l & -> & Hl & Hlast); [done|done|done|]. cbn [mbind outcome_bind].
  destruct (Hlast _ Hown) as (b & eqs & Hb & Hlb). fold c in Hl.
  assert (∀ {A} (x : list A), length x = N.to_nat (committee_size c) → (N.to_nat (own_index (ds_context d)) < length x)%nat) as Hin.
  { intros A x ->. unfold is_valid_index in Hown. fold c in Hown. rewrite Is_true_true, N.ltb_lt in Hown. lia. }
  assert (vec_index ((λ b : VerifiedBlock * list BlockRef, round b.1) <$> l) (own_index (ds_context d)) = Ret (round b)) as ->
    by (apply vec_index_ret; by rewrite list_lookup_fmap, Hb).
  cbn [mbind outcome_bind].
  do 4 (rewrite vec_set_in by (apply Hin; by rewrite ?length_fmap, ?length_replicate); cbn [mbind outcome_bind]).
  set (n := N.to_nat (committee_size c)) in *.
  assert (∀ rs, length rs = n → square c (<[N.to_nat (own_index (ds_context d)) := rs]> (replicate n (replicate n 0)))) as Hsq.
  { intros rs Hrs. split; [by rewrite length_insert, length_replicate|]. apply Forall_insert; [|done]. by apply Forall_replicate, length_replicate. }
  edestruct (foldM_inv (λ x : list (list Round) * list (list Round), square c x.1 ∧ square c x.2) (record_answer (ds_context d)) answers)
    as ([received accepted] & -> & Hr & Ha).
  { intros [r a] [p o] Hx [H1 H2]. specialize (Hans p o Hx). destruct o as [[rr aa]|]; [|by eexists]. unfold record_answer. fold c.
    destruct (record_rounds_ok c r p rr H1 Hans) as (r' & -> & Hr'). cbn [mbind outcome_bind].
    destruct (consensus_round_prober_probe_accepted_rounds _); [|by eexists].
    destruct (record_rounds_ok c a p aa H2 Hans) as (a' & -> & Ha'). by eexists. }
  { split; apply Hsq; by rewrite length_insert, ?length_fmap. }
  cbn [mbind outcome_bind fst snd] in *.
  destruct (quorum_rounds_ret c received (ok_committee _ Hok) Hr) as (rq & -> & Hrq).
  destruct (quorum_rounds_ret c accepted (ok_committee _ Hok) Ha) as (aq & -> & Haq). cbn [mbind outcome_bind].
  destruct (lookup_lt_is_Some_2 rq (N.to_nat (own_index (ds_context d)))) as [q Hq]; [by apply Hin|].
  rewrite (proj2 (vec_index_ret _ _ _) Hq). cbn [mbind outcome_bind]. exists rq, aq, (round b - q.1).
  split_and!; [done..|]. by exists b, eqs, q.
Qed.

(** ** Witnesses *)

Definition test_monitor : CommitVoteMonitor := mk_monitor (test_context 60) [5; 7; 3; 9].
Definition test_voter : VerifiedBlock :=
  mk_verified (mk_signed (V1 (mk_block_v1 0 1 0 10 [] [] [mk_commit_ref 8 0; mk_commit_ref 6 0] [])) []) 1 [].

Lemma quorum_commit_index_correct_witness :
  quorum_commit_index test_monitor = 5 ∧
  ∃ m', observe_block test_monitor test_voter = Ret m' ∧ 5 <= quorum_commit_index m'.
Proof.
  destruct (quorum_commit_index_correct test_monitor test_voter {[3]}) as (_ & _ & _ & m' & Heq & _ & Hle & _).
  - apply test_committee_ok.
  - reflexivity.
  - vm_compute. reflexivity.
  - vm_compute. exact I.
  - assert (quorum_commit_index test_monitor = 5) as H5 by (vm_compute; reflexivity). rewrite H5 in Hle.
    split; [exact H5|]. exists m'. split; [exact Heq|exact Hle].
Defined.

Definition test_rounds : list (list Round) := [[5; 4; 3; 9]; [5; 6; 3; 8]; [4; 6; 2; 9]; [90; 0; 70; 1]].

Lemma quorum_round_bft_witness : ∃ low high,
  compute_quorum_round (test_committee [1; 1; 1; 1]) 0 test_rounds = Ret (low, high) ∧ low <= high.
Proof.
  destruct (quorum_round_bft (test_committee [1; 1; 1; 1]) 0 test_rounds {[3]}) as (low & high & Heq & Hle & _).
  - apply test_committee_ok.
  - split; [reflexivity|]. repeat constructor.
  - vm_compute. exact I.
  - vm_compute. reflexivity.
  - exists low, high. split; [exact Heq|exact Hle].
Defined.

Lemma probe_total_witness : ∃ received accepted delay,
  probe test_state_a [6; 6; 5; 6] [(1, Some ([6; 6; 6; 6], [6; 6; 5; 5])); (3, None); (2, Some ([6], [5; 5; 6; 6]))] =
    Ret (received, accepted, delay) ∧ length received = 4%nat.
Proof.
  destruct (probe_total test_state_a [6; 6; 5; 6] [(1, Some ([6; 6; 6; 6], [6; 6; 5; 5])); (3, None); (2, Some ([6], [5; 5; 6; 6]))])
    as (received & accepted & delay & Heq & Hlen & _).
  - apply test_state_ok.
  - assert (forallb (λ e, e + 1 <? U32_MAX) (ds_evicted_rounds test_state_a) = true) as Hf by (vm_compute; reflexivity).
    intros a e He%list_elem_of_lookup_2%list_elem_of_In. rewrite forallb_forall in Hf. by apply N.ltb_lt, Hf.
  - vm_compute. exact I.
  - reflexivity.
  - intros p x Hp%list_elem_of_In. simpl in Hp. destruct Hp as [[= <- <-]|[[= <- <-]|[[= <- <-]|[]]]]; vm_compute; exact I.
  - exists received, accepted, delay. split; [exact Heq|exact Hlen].
Defined.
