(* ===== verification/Ancestor.v ===== *)
(** * Ancestor: which authorities' blocks a proposal includes

    Models [consensus/core/src/ancestor.rs].  The state of an authority is
    locked for a number of updates each time it changes; [Core] reads the states
    when it selects ancestors. *)
From S2P Require Import Prelude Committee Block StakeAggregator Commit Error Store ScoringMetrics LeaderScoring DagState.
From S2P Require Import Election CommitTimestamp QuorumRounds.
Local Open Scope N_scope.
Local Open Scope rust_scope.

Inductive AncestorState :=
| AsInclude
| AsExclude (score : N).

Record AncestorInfo := mk_ancestor_info {
  ai_state : AncestorState;
  ai_lock_expiry_count : N;
}.

Definition AncestorInfo_new : AncestorInfo := mk_ancestor_info AsInclude 0.

Definition is_locked (i : AncestorInfo) (propagation_score_update_count quorum_round_update_count : N) : bool :=
  match ai_state i with
  | AsInclude => propagation_score_update_count <? ai_lock_expiry_count i
  | AsExclude _ => quorum_round_update_count <? ai_lock_expiry_count i
  end.

Definition set_lock (i : AncestorInfo) (future_count : N) : AncestorInfo := mk_ancestor_info (ai_state i) future_count.

Record AncestorStateManager := mk_ancestor_manager {
  am_context : Context;
  am_state_map : list AncestorInfo;
  am_propagation_score_update_count : N;
  am_quorum_round_update_count : N;
  am_received_quorum_round_per_authority : list QuorumRound;
  am_accepted_quorum_round_per_authority : list QuorumRound;
  am_propagation_scores : ReputationScores;
}.

Definition STATE_LOCK_QUORUM_ROUND_UPDATES : N := 10.
Definition STATE_LOCK_SCORE_UPDATES : N := 2.
Definition EXCLUSION_THRESHOLD_PERCENTAGE : N := 10.

Definition AncestorStateManager_new (ctx : Context) : AncestorStateManager :=
  let n := N.to_nat (committee_size (committee ctx)) in
  mk_ancestor_manager ctx (replicate n AncestorInfo_new) 0 0 (replicate n (0, 0)) (replicate n (0, 0))
    (mk_scores [] CommitRange_default).

Definition set_quorum_rounds_per_authority (m : AncestorStateManager) (received accepted : list QuorumRound)
    : AncestorStateManager :=
  mk_ancestor_manager (am_context m) (am_state_map m) (am_propagation_score_update_count m)
    (am_quorum_round_update_count m +32 1) received accepted (am_propagation_scores m).

Definition set_propagation_scores (m : AncestorStateManager) (scores : ReputationScores) : AncestorStateManager :=
  mk_ancestor_manager (am_context m) (am_state_map m) (am_propagation_score_update_count m +32 1)
    (am_quorum_round_update_count m) (am_received_quorum_round_per_authority m) (am_accepted_quorum_round_per_authority m) scores.

Definition get_ancestor_states (m : AncestorStateManager) : list AncestorState := ai_state <$> am_state_map m.

Definition set_state_map (m : AncestorStateManager) (x : list AncestorInfo) : AncestorStateManager :=
  mk_ancestor_manager (am_context m) x (am_propagation_score_update_count m) (am_quorum_round_update_count m)
    (am_received_quorum_round_per_authority m) (am_accepted_quorum_round_per_authority m) (am_propagation_scores m).

Definition calculate_network_high_quorum_round_internal (m : AncestorStateManager)
    (high_quorum_rounds_with_stake : list (N * Stake)) : Round :=
  default 0 (quorum_walk (committee (am_context m)) 0 (stable_sort pair_le high_quorum_rounds_with_stake)).

Definition calculate_network_high_accepted_quorum_round (m : AncestorStateManager) : Round :=
  calculate_network_high_quorum_round_internal m
    (with_stake (committee (am_context m)) (snd <$> am_accepted_quorum_round_per_authority m)).

Definition calculate_network_high_received_quorum_round (m : AncestorStateManager) : Round :=
  calculate_network_high_quorum_round_internal m
    (with_stake (committee (am_context m)) (snd <$> am_received_quorum_round_per_authority m)).

Definition calculate_network_high_quorum_round (m : AncestorStateManager) : Round :=
  if consensus_round_prober_probe_accepted_rounds (protocol_config (am_context m))
  then calculate_network_high_accepted_quorum_round m
  else calculate_network_high_received_quorum_round m.

(** What becomes of an authority whose state is not locked. *)
Definition next_info (m : AncestorStateManager) (info : AncestorInfo) (propagation_score : N)
    (authority_high_quorum_round network_high_quorum_round : Round) : AncestorInfo :=
  let low_score_threshold := (highest_score (am_propagation_scores m) *64 EXCLUSION_THRESHOLD_PERCENTAGE) / 100 in
  match ai_state info with
  | AsInclude =>
    if propagation_score <=? low_score_threshold
    then set_lock (mk_ancestor_info (AsExclude propagation_score) (ai_lock_expiry_count info))
           (am_quorum_round_update_count m +32 STATE_LOCK_QUORUM_ROUND_UPDATES)
    else info
  | AsExclude _ =>
    if (low_score_threshold <? propagation_score) || (network_high_quorum_round <=? authority_high_quorum_round)
    then set_lock (mk_ancestor_info AsInclude (ai_lock_expiry_count info))
           (am_propagation_score_update_count m +32 STATE_LOCK_SCORE_UPDATES)
    else info
  end.

Definition update_state (m : AncestorStateManager) (authority_id : AuthorityIndex) (propagation_score : N)
    (authority_high_quorum_round network_high_quorum_round : Round) : outcome AncestorStateManager :=
  _ ← authority (committee (am_context m)) authority_id;
  info ← vec_index (am_state_map m) authority_id;
  if is_locked info (am_propagation_score_update_count m) (am_quorum_round_update_count m) then Ret m
  else
    map ← vec_set (am_state_map m) authority_id
            (next_info m info propagation_score authority_high_quorum_round network_high_quorum_round);
    Ret (set_state_map m map).

Definition update_all_ancestors_state (m : AncestorStateManager) : outcome AncestorStateManager :=
  scores ← mapM (λ '((i, score) : N * N),
              a ← expect (to_authority_index (committee (am_context m)) i) "Index should be valid"; Ret (a, score))
             (enumerate (scores_per_authority (am_propagation_scores m)));
  let network_high_quorum_round := calculate_network_high_quorum_round m in
  foldM (λ m '((a, score) : AuthorityIndex * N),
    q ← vec_index (if consensus_round_prober_probe_accepted_rounds (protocol_config (am_context m))
                   then am_accepted_quorum_round_per_authority m else am_received_quorum_round_per_authority m) a;
    update_state m a score (snd (q : QuorumRound)) network_high_quorum_round) m (scores : list (AuthorityIndex * N)).

(** ** Every authority is updated *)

Definition am_size (m : AncestorStateManager) : nat := N.to_nat (committee_size (committee (am_context m))).

Definition am_ok (m : AncestorStateManager) : Prop :=
  length (am_state_map m) = am_size m ∧
  length (am_received_quorum_round_per_authority m) = am_size m ∧
  length (am_accepted_quorum_round_per_authority m) = am_size m ∧
  (length (scores_per_authority (am_propagation_scores m)) <= am_size m)%nat.

(** The quorum rounds the protocol version reads. *)
Definition quorum_rounds_of (m : AncestorStateManager) : list QuorumRound :=
  if consensus_round_prober_probe_accepted_rounds (protocol_config (am_context m))
  then am_accepted_quorum_round_per_authority m else am_received_quorum_round_per_authority m.

Definition info_of (m : AncestorStateManager) (a : nat) : AncestorInfo := default AncestorInfo_new (am_state_map m !! a).

Definition updated_info (m : AncestorStateManager) (a : nat) : AncestorInfo :=
  match scores_per_authority (am_propagation_scores m) !! a with
  | Some score =>
    if is_locked (info_of m a) (am_propagation_score_update_count m) (am_quorum_round_update_count m) then info_of m a
    else next_info m (info_of m a) score (snd (default ((0, 0) : QuorumRound) (quorum_rounds_of m !! a))) (calculate_network_high_quorum_round m)
  | None => info_of m a
  end.

Lemma quorum_rounds_length m : am_ok m → length (quorum_rounds_of m) = am_size m.
Proof. unfold am_ok, quorum_rounds_of. case_match; naive_solver. Qed.

(** One authority is updated from the state the update started with. *)
Lemma update_state_ok m map (a : nat) info score q : am_ok m → (a < am_size m)%nat → length map = am_size m →
  map !! a = Some info →
  update_state (set_state_map m map) (N.of_nat a) score q (calculate_network_high_quorum_round m) =
    Ret (set_state_map m (<[a := if is_locked info (am_propagation_score_update_count m) (am_quorum_round_update_count m) then info
                                 else next_info m info score q (calculate_network_high_quorum_round m)]> map)).
Proof.
  intros Hok Ha Hlen Hi. unfold update_state. cbn [set_state_map am_context am_state_map am_propagation_score_update_count am_quorum_round_update_count].
  destruct (authority_ret (committee (am_context m)) (N.of_nat a)) as [x ->].
  { unfold is_valid_index. apply Is_true_true, N.ltb_lt. unfold am_size in Ha. lia. }
  cbn [mbind outcome_bind]. rewrite (proj2 (vec_index_ret map (N.of_nat a) info)) by by rewrite Nat2N.id.
  cbn [mbind outcome_bind]. destruct (is_locked _ _ _).
  - by rewrite list_insert_id.
  - rewrite vec_set_in by lia. cbn [mbind outcome_bind]. by rewrite Nat2N.id.
Qed.

Lemma update_all_spec m : am_ok m → ∃ map, update_all_ancestors_state m = Ret (set_state_map m map) ∧
  length map = am_size m ∧ ∀ a, (a < am_size m)%nat → map !! a = Some (updated_info m a).
Proof.
  intros Hok. pose proof Hok as (Hlen & _ & _ & Hsc). unfold update_all_ancestors_state.
  set (scores := scores_per_authority (am_propagation_scores m)) in *.
  rewrite (mapM_ret _ id).
  2:{ intros [i s] Hin. apply list_elem_of_lookup in Hin as [k Hk]. rewrite enumerate_lookup in Hk.
      destruct (scores !! k) eqn:Hs; simplify_eq/=. apply lookup_lt_Some in Hs. unfold to_authority_index.
      unfold am_size in Hsc. by rewrite (proj2 (N.ltb_lt _ _)) by lia. }
  cbn [mbind outcome_bind]. rewrite list_fmap_id.
  cut (∀ todo done, enumerate scores = done ++ todo → ∀ map, length map = am_size m →
    (∀ a, (a < am_size m)%nat → map !! a = Some (if decide (a < length done)%nat then updated_info m a else info_of m a)) →
    ∃ map', foldM (λ m0 '((a, score) : AuthorityIndex * N),
      q ← vec_index (quorum_rounds_of m0) a;
      update_state m0 a score (snd (q : QuorumRound)) (calculate_network_high_quorum_round m)) (set_state_map m map) todo
      = Ret (set_state_map m map') ∧ length map' = am_size m ∧ ∀ a, (a < am_size m)%nat → map' !! a = Some (updated_info m a)).
  { intros Hcut. destruct (Hcut (enumerate scores) [] eq_refl (am_state_map m) Hlen) as (map' & Hf & Hl & Hm).
    - intros a Ha. rewrite decide_False by (simpl; lia). unfold info_of.
      by destruct (lookup_lt_is_Some_2 (am_state_map m) a) as [x ->]; [lia|].
    - exists map'. split_and!; [|done..]. by destruct m. }
  assert (length (enumerate scores) = length scores) as Hel by (unfold enumerate; rewrite length_zip, length_fmap, length_seq; lia).
  induction todo as [|[i s] todo IH]; intros dn Hsplit map Hl Hm; cbn [foldM].
  { exists map. split_and!; [done..|]. intros a Ha. rewrite Hm by done. case_decide as Hd; [done|].
    rewrite app_nil_r in Hsplit. rewrite <-Hsplit, Hel in Hd. unfold updated_info. fold scores.
    by rewrite lookup_ge_None_2 by lia. }
  assert (enumerate scores !! length dn = Some (i, s)) as Hn by (rewrite Hsplit; by apply list_lookup_middle).
  rewrite enumerate_lookup in Hn. destruct (scores !! length dn) eqn:Hs; simplify_eq/=.
  pose proof (lookup_lt_Some _ _ _ Hs) as Hlt. change (quorum_rounds_of (set_state_map m map)) with (quorum_rounds_of m).
  destruct (lookup_lt_is_Some_2 (quorum_rounds_of m) (length dn)) as [q Hq]; [rewrite quorum_rounds_length by done; lia|].
  rewrite (proj2 (vec_index_ret (quorum_rounds_of m) _ q)) by by rewrite Nat2N.id. cbn [mbind outcome_bind].
  rewrite (update_state_ok m map (length dn) (info_of m (length dn))); [|done|lia|done|rewrite Hm by lia; by rewrite decide_False by lia].
  cbn [mbind outcome_bind]. apply (IH (dn ++ [(N.of_nat (length dn), s)])); [by rewrite <-app_assoc|by rewrite length_insert|].
  intros a Ha. rewrite length_app. simpl. destruct (decide (a = length dn)) as [->|Hne].
  - rewrite list_lookup_insert_eq, decide_True by lia. unfold updated_info. fold scores. by rewrite Hs, Hq.
  - rewrite list_lookup_insert_ne, Hm by done. by repeat case_decide; try lia.
Qed.

Lemma info_of_update m a : am_ok m → (a < am_size m)%nat →
  ∃ m', update_all_ancestors_state m = Ret m' ∧ am_ok m' ∧ am_context m' = am_context m ∧ info_of m' a = updated_info m a ∧
    am_quorum_round_update_count m' = am_quorum_round_update_count m ∧
    am_propagation_score_update_count m' = am_propagation_score_update_count m.
Proof.
  intros Hok Ha. destruct (update_all_spec m Hok) as (map & -> & Hl & Hm). eexists. split; [done|].
  split_and!; [|done| |done..].
  - unfold am_ok in *. cbn. naive_solver.
  - unfold info_of. cbn. by rewrite Hm.
Qed.

Lemma snd_lookup (l : list QuorumRound) : ∀ a : nat,
  default 0 ((snd <$> l) !! a) = snd (default ((0, 0) : QuorumRound) (l !! a)).
Proof. induction l as [|q l IH]; intros [|a]; cbn; [done..|]. apply IH. Qed.

(** ** What can happen to the manager between two updates *)

Inductive am_event :=
| EvScores (scores : ReputationScores)
| EvQuorumRounds (received accepted : list QuorumRound)
| EvUpdate.

Definition am_step (m : AncestorStateManager) (e : am_event) : outcome AncestorStateManager :=
  match e with
  | EvScores s => Ret (set_propagation_scores m s)
  | EvQuorumRounds r a => Ret (set_quorum_rounds_per_authority m r a)
  | EvUpdate => update_all_ancestors_state m
  end.

Definition am_event_ok (n : nat) (e : am_event) : Prop :=
  match e with
  | EvScores s => (length (scores_per_authority s) <= n)%nat
  | EvQuorumRounds r a => length r = n ∧ length a = n
  | EvUpdate => True
  end.

Definition is_quorum_round_event (e : am_event) : bool := if e is EvQuorumRounds _ _ then true else false.
Definition is_score_event (e : am_event) : bool := if e is EvScores _ then true else false.

Definition quorum_round_updates (evs : list am_event) : N := N.of_nat (length (filter (λ e, is_quorum_round_event e) evs)).
Definition score_updates (evs : list am_event) : N := N.of_nat (length (filter (λ e, is_score_event e) evs)).

Lemma quorum_round_updates_cons e evs :
  quorum_round_updates (e :: evs) = (if is_quorum_round_event e then 1 else 0) + quorum_round_updates evs.
Proof. unfold quorum_round_updates. rewrite filter_cons. destruct e; cbn [is_quorum_round_event is_score_event]; case_decide; simpl in *; try done; lia. Qed.

Lemma score_updates_cons e evs : score_updates (e :: evs) = (if is_score_event e then 1 else 0) + score_updates evs.
Proof. unfold score_updates. rewrite filter_cons. destruct e; cbn [is_quorum_round_event is_score_event]; case_decide; simpl in *; try done; lia. Qed.

Lemma am_step_ok m e : am_ok m → am_event_ok (am_size m) e →
  ∃ m', am_step m e = Ret m' ∧ am_ok m' ∧ am_size m' = am_size m.
Proof.
  intros Hok He. destruct e as [s|r x|]; cbn [am_step].
  1,2: eexists; split; [done|]; split; [|done]; unfold am_ok, am_size in *; cbn in *; naive_solver.
  destruct (update_all_spec m Hok) as (map & -> & Hl & _). eexists. split; [done|]. split; [|done].
  unfold am_ok, am_size in *. cbn in *. naive_solver.
Qed.

(** A locked state survives every event that does not reach the end of the lock. *)
Lemma am_step_locked m e m' a : am_ok m → (a < am_size m)%nat → am_step m e = Ret m' →
  is_locked (info_of m a) (am_propagation_score_update_count m) (am_quorum_round_update_count m) →
  info_of m' a = info_of m a.
Proof.
  intros Hok Ha Hstep Hlock. destruct e as [s|r x|]; cbn [am_step] in Hstep; simplify_eq/=; [done..|].
  destruct (info_of_update m a Hok Ha) as (m1 & Hu & _ & _ & Hi & _). rewrite Hu in Hstep. simplify_eq.
  rewrite Hi. unfold updated_info. apply Is_true_true in Hlock. rewrite Hlock. by case_match.
Qed.

Lemma am_step_counts m e m' : am_ok m → am_step m e = Ret m' →
  am_quorum_round_update_count m' = (if e is EvQuorumRounds _ _ then am_quorum_round_update_count m +32 1 else am_quorum_round_update_count m) ∧
  am_propagation_score_update_count m' = (if e is EvScores _ then am_propagation_score_update_count m +32 1 else am_propagation_score_update_count m).
Proof.
  intros Hok Hstep. destruct e; cbn [am_step] in Hstep; simplify_eq/=; [done..|].
  destruct (update_all_spec m Hok) as (map & Hu & _). rewrite Hu in Hstep. by simplify_eq.
Qed.

(** Every sequence of events runs, and keeps a state that stays locked. *)
Lemma am_events_locked a evs : ∀ m, am_ok m → (a < am_size m)%nat → Forall (am_event_ok (am_size m)) evs →
  match ai_state (info_of m a) with
  | AsInclude => am_propagation_score_update_count m + score_updates evs < ai_lock_expiry_count (info_of m a)
  | AsExclude _ => am_quorum_round_update_count m + quorum_round_updates evs < ai_lock_expiry_count (info_of m a)
  end → ai_lock_expiry_count (info_of m a) < U32_MOD →
  ∃ m', foldM am_step m evs = Ret m' ∧ am_ok m' ∧ info_of m' a = info_of m a.
Proof.
  induction evs as [|e evs IH]; intros m Hok Ha Hevs Hlock Hmod; cbn [foldM].
  { by exists m. }
  apply Forall_cons in Hevs as [He Hevs]. destruct (am_step_ok m e Hok He) as (m1 & Hs & Hok1 & Hsz).
  destruct (am_step_counts m e m1 Hok Hs) as [Hq Hp].
  assert (info_of m1 a = info_of m a) as Hi.
  { apply (am_step_locked m e m1 a Hok Ha Hs). unfold is_locked.
    destruct (ai_state (info_of m a)); apply Is_true_true, N.ltb_lt; lia. }
  rewrite Hs. cbn [mbind outcome_bind]. destruct (IH m1 Hok1) as (m2 & -> & Hok2 & Hi2); rewrite ?Hsz, ?Hi; [done..| |done|].
  - rewrite quorum_round_updates_cons, score_updates_cons in Hlock.
    destruct (ai_state (info_of m a)), e; cbn in Hlock, Hq, Hp; rewrite ?Hq, ?Hp; rewrite ?wrap32_small; lia.
  - exists m2. split_and!; [done..|congruence].
Qed.

(** The update of the ancestor states.  With one quorum round per authority
    and at most one score per authority, [update_all_ancestors_state] returns.
    The network's high quorum round is the lowest round that a quorum of
    authorities does not exceed.  An authority with a score whose state is not
    locked is excluded exactly when its score is at most a tenth of the highest
    one, and included again exactly when its score is above that or it has
    caught up with the network's high quorum round; a locked state, and that of
    an authority without a score, stays.  The best scorer is never excluded. *)
Theorem update_all_ancestors_correct (m : AncestorStateManager) (a : nat) : let c := committee (am_context m) in
  committee_ok c → am_ok m → (a < am_size m)%nat →
  highest_score (am_propagation_scores m) * EXCLUSION_THRESHOLD_PERCENTAGE < U64_MOD →
  let net := calculate_network_high_quorum_round m in
  let highs := snd <$> quorum_rounds_of m in
  let low := highest_score (am_propagation_scores m) * EXCLUSION_THRESHOLD_PERCENTAGE / 100 in
  let locked := is_locked (info_of m a) (am_propagation_score_update_count m) (am_quorum_round_update_count m) in
  reached_quorum c (set_stake c (reporters c highs (λ w, w <= net))) ∧
  ¬ reached_quorum c (set_stake c (reporters c highs (λ w, ¬ net <= w))) ∧
  ∃ m', update_all_ancestors_state m = Ret m' ∧ am_ok m' ∧
    match scores_per_authority (am_propagation_scores m) !! a with
    | None => info_of m' a = info_of m a
    | Some score =>
      if locked then info_of m' a = info_of m a
      else match ai_state (info_of m a) with
      | AsInclude => ai_state (info_of m' a) = (if score <=? low then AsExclude score else AsInclude)
      | AsExclude s => ai_state (info_of m' a) =
          (if (low <? score) || (net <=? value_at highs (N.of_nat a)) then AsInclude else AsExclude s)
      end ∧
      (score = highest_score (am_propagation_scores m) → 0 < score →
       ai_state (info_of m a) = AsInclude → ai_state (info_of m' a) = AsInclude)
    end.
Proof.
  intros c Hc Hok Ha Hmax net highs low locked.
  assert (net = default 0 (quorum_walk c 0 (stable_sort pair_le (with_stake c highs)))) as Hnet.
  { unfold net, highs, quorum_rounds_of, calculate_network_high_quorum_round. by case_match. }
  destruct (ascending_walk c Hc highs) as (v & Hv & Hq & Hn).
  { unfold highs. rewrite length_fmap. by apply quorum_rounds_length. }
  rewrite Hv in Hnet. cbn in Hnet. rewrite Hnet. split_and!; [done..|]. rewrite <-Hnet.
  destruct (info_of_update m a Hok Ha) as (m' & -> & Hok' & _ & Hi & _). exists m'. split_and!; [done..|].
  rewrite !Hi. unfold updated_info. fold locked net. destruct (scores_per_authority _ !! a) as [score|]; [|done].
  destruct locked; [done|]. unfold next_info. rewrite wrap64_small by done. fold low.
  assert (value_at highs (N.of_nat a) = snd (default ((0, 0) : QuorumRound) (quorum_rounds_of m !! a))) as ->.
  { unfold value_at, highs. rewrite Nat2N.id. apply snd_lookup. }
  destruct (ai_state (info_of m a)) as [|s] eqn:Hst; [|split; [by destruct (_ || _)|done]].
  split; [by destruct (_ <=? _)|]. intros Hsc Hpos _.
  assert (low < score) as Hlow. { unfold low, EXCLUSION_THRESHOLD_PERCENTAGE. rewrite <-Hsc. apply N.Div0.div_lt_upper_bound. lia. }
  by rewrite (proj2 (N.leb_gt _ _)).
Qed.

(** Ancestor states do not flap.  When an update excludes an authority it
    stays excluded through every sequence of score updates, quorum round updates
    and state updates with fewer than [STATE_LOCK_QUORUM_ROUND_UPDATES] quorum
    round updates; when an update includes an authority it stays included
    through every such sequence with fewer than [STATE_LOCK_SCORE_UPDATES]
    score updates; and every such sequence runs without a panic. *)
Theorem ancestor_state_locked (m : AncestorStateManager) (a : nat) (evs : list am_event) :
  am_ok m → (a < am_size m)%nat → Forall (am_event_ok (am_size m)) evs →
  am_quorum_round_update_count m + STATE_LOCK_QUORUM_ROUND_UPDATES < U32_MOD →
  am_propagation_score_update_count m + STATE_LOCK_SCORE_UPDATES < U32_MOD →
  ∃ m1, update_all_ancestors_state m = Ret m1 ∧
    (ai_state (info_of m1 a) ≠ ai_state (info_of m a) →
     match ai_state (info_of m1 a) with
     | AsExclude _ => quorum_round_updates evs < STATE_LOCK_QUORUM_ROUND_UPDATES
     | AsInclude => score_updates evs < STATE_LOCK_SCORE_UPDATES
     end →
     ∃ m2, foldM am_step m1 evs = Ret m2 ∧ am_ok m2 ∧ ai_state (info_of m2 a) = ai_state (info_of m1 a)).
Proof.
  intros Hok Ha Hevs Hq Hp. destruct (info_of_update m a Hok Ha) as (m1 & -> & Hok1 & Hctx & Hi & Hqc & Hpc).
  exists m1. split; [done|]. intros Hne Hlt.
  assert (am_size m1 = am_size m) as Hsz by (unfold am_size; by rewrite Hctx).
  assert (ai_lock_expiry_count (info_of m1 a) =
    match ai_state (info_of m1 a) with
    | AsInclude => am_propagation_score_update_count m + STATE_LOCK_SCORE_UPDATES
    | AsExclude _ => am_quorum_round_update_count m + STATE_LOCK_QUORUM_ROUND_UPDATES
    end) as Hexp.
  { rewrite Hi in Hne |- *. unfold updated_info in *. destruct (scores_per_authority _ !! a) as [score|]; [|done].
    destruct (is_locked _ _ _); [done|]. unfold next_info in *. destruct (ai_state (info_of m a)) eqn:Hst.
    - destruct (_ <=? _); [|done]. cbn. by apply wrap32_small.
    - destruct (_ || _); [|done]. cbn. by apply wrap32_small. }
  destruct (am_events_locked a evs m1) as (m2 & -> & Hok2 & Hi2); [done|lia|by rewrite Hsz| | |].
  - rewrite Hexp, Hqc, Hpc. destruct (ai_state (info_of m1 a)); lia.
  - rewrite Hexp. destruct (ai_state (info_of m1 a)); done.
  - exists m2. split_and!; [done..|by rewrite Hi2].
Qed.

(** ** Witnesses *)

(** Authority 3 scores 10 against a best score of 100. *)
Definition test_ancestors : AncestorStateManager :=
  set_propagation_scores (set_quorum_rounds_per_authority (AncestorStateManager_new (test_context 60))
    [(3, 5); (4, 6); (4, 5); (1, 2)] [(3, 5); (4, 6); (4, 5); (1, 2)]) (mk_scores [100; 80; 90; 10] (CommitRange_new 1 300)).

Lemma test_ancestors_ok : am_ok test_ancestors.
Proof. unfold am_ok. vm_compute. repeat split; lia. Qed.

Lemma update_all_ancestors_correct_witness : ∃ m', update_all_ancestors_state test_ancestors = Ret m' ∧
  ai_state (info_of m' 3) = AsExclude 10.
Proof.
  destruct (update_all_ancestors_correct test_ancestors 3) as (_ & _ & m' & Heq & _ & Hst & _).
  - apply test_committee_ok.
  - apply test_ancestors_ok.
  - vm_compute. lia.
  - vm_compute. reflexivity.
  - exists m'. split; [exact Heq|exact Hst].
Defined.

(** Nine reports of caught-up quorum rounds do not include authority 3 again. *)
Definition test_ancestor_events : list am_event :=
  mjoin (replicate 9 [EvQuorumRounds [(9, 9); (9, 9); (9, 9); (9, 9)] [(9, 9); (9, 9); (9, 9); (9, 9)]; EvUpdate]).

Lemma ancestor_state_locked_witness : ∃ m1 m2, update_all_ancestors_state test_ancestors = Ret m1 ∧
  foldM am_step m1 test_ancestor_events = Ret m2 ∧ ai_state (info_of m2 3) = AsExclude 10.
Proof.
  destruct (ancestor_state_locked test_ancestors 3 test_ancestor_events) as (m1 & Hu & Hrun).
  - apply test_ancestors_ok.
  - vm_compute. lia.
  - repeat constructor.
  - vm_compute. reflexivity.
  - vm_compute. reflexivity.
  - assert (ai_state (info_of m1 3) = AsExclude 10) as H3.
    { vm_compute in Hu. injection Hu as <-. reflexivity. }
    destruct Hrun as (m2 & H2 & _ & H4).
    + rewrite H3. vm_compute. discriminate.
    + rewrite H3. vm_compute. reflexivity.
    + exists m1, m2. split; [exact Hu|]. split; [exact H2|]. rewrite H4. exact H3.
Defined.
