(* ===== verification/Transactions.v ===== *)
(** * Transactions: from the client to the blocks an authority proposes

    Models [consensus/core/src/transaction.rs].  The channel between client and
    consumer is the list of guards in it; the oneshot channel of a guard is a
    number, and so is the status channel created when the guard is acknowledged
    (the number of its guard).  What is sent on these channels is a list of
    [tx_event]s. *)
From S2P Require Import Prelude Committee Block StakeAggregator ThresholdClock Commit Error BlockVerifier.
Local Open Scope N_scope.
Local Open Scope rust_scope.

Definition MAX_PENDING_TRANSACTIONS : N := 2000.

Record TransactionsGuard := mk_guard {
  guard_transactions : list Transaction;
  included_in_block_ack : N;
}.

Inductive BlockStatus :=
| Sequenced (r : BlockRef)
| GarbageCollected (r : BlockRef).

Inductive LimitReached := MaxNumOfTransactions | MaxBytes | AllTransactionsIncluded.

Record TransactionConsumer := mk_consumer {
  tc_context : Context;
  tx_receiver : list TransactionsGuard;
  tc_max_transactions_in_block_bytes : N;
  tc_max_num_transactions_in_block : N;
  pending_transactions : option TransactionsGuard;
  block_status_subscribers : gmap BlockRef (list N);
}.

Inductive tx_event :=
| EvIncluded (ack : N) (r : BlockRef)
| EvStatus (ack : N) (s : BlockStatus).

Definition TransactionConsumer_new (tx_receiver : list TransactionsGuard) (ctx : Context) : TransactionConsumer :=
  mk_consumer ctx tx_receiver (max_transactions_in_block_bytes (protocol_config ctx))
    (max_num_transactions_in_block (protocol_config ctx)) None ∅.

Definition set_receiver (c : TransactionConsumer) (q : list TransactionsGuard) (p : option TransactionsGuard) : TransactionConsumer :=
  mk_consumer (tc_context c) q (tc_max_transactions_in_block_bytes c) (tc_max_num_transactions_in_block c) p (block_status_subscribers c).

Definition set_subscribers (c : TransactionConsumer) (x : gmap BlockRef (list N)) : TransactionConsumer :=
  mk_consumer (tc_context c) (tx_receiver c) (tc_max_transactions_in_block_bytes c) (tc_max_num_transactions_in_block c)
    (pending_transactions c) x.

(** ** [next] *)

(** The variables the closure [handle_txs] captures. *)
Record next_acc := mk_next_acc {
  na_transactions : list Transaction;
  na_acks : list N;
  na_total_bytes : N;
  na_limit_reached : LimitReached;
}.

Definition transactions_bytes (ts : list Transaction) : N := wrap64 (sumN ((λ t, N.of_nat (length (data t))) <$> ts)).

Definition handle_txs (c : TransactionConsumer) (acc : next_acc) (t : TransactionsGuard) : next_acc * option TransactionsGuard :=
  let bytes := transactions_bytes (guard_transactions t) in
  let num := N.of_nat (length (guard_transactions t)) in
  if tc_max_transactions_in_block_bytes c <? na_total_bytes acc +64 bytes
  then (mk_next_acc (na_transactions acc) (na_acks acc) (na_total_bytes acc) MaxBytes, Some t)
  else if tc_max_num_transactions_in_block c <? N.of_nat (length (na_transactions acc)) +64 num
  then (mk_next_acc (na_transactions acc) (na_acks acc) (na_total_bytes acc) MaxNumOfTransactions, Some t)
  else (mk_next_acc (na_transactions acc ++ guard_transactions t) (na_acks acc ++ [included_in_block_ack t])
          (na_total_bytes acc +64 bytes) (na_limit_reached acc), None).

(** [while self.pending_transactions.is_none() { .. try_recv() .. }]. *)
Fixpoint next_loop (c : TransactionConsumer) (acc : next_acc) (receiver : list TransactionsGuard)
    : next_acc * option TransactionsGuard * list TransactionsGuard :=
  match receiver with
  | [] => (acc, None, [])
  | t :: receiver =>
    match handle_txs c acc t with
    | (acc, Some t) => (acc, Some t, receiver)
    | (acc, None) => next_loop c acc receiver
    end
  end.

(** A pending guard that does not fit into an empty block is dropped; the
    returned acknowledgements are those the callback captures. *)
Definition next (c : TransactionConsumer) : TransactionConsumer * list Transaction * list N * LimitReached :=
  let acc := mk_next_acc [] [] 0 AllTransactionsIncluded in
  let acc := match pending_transactions c with
             | Some t => fst (handle_txs c acc t)
             | None => acc
             end in
  let '(acc, pending, receiver) := next_loop c acc (tx_receiver c) in
  (set_receiver c receiver pending, na_transactions acc, na_acks acc, na_limit_reached acc).

(** The callback of [next]. *)
Definition acknowledge (c : TransactionConsumer) (acks : list N) (block_ref : BlockRef) : TransactionConsumer * list tx_event :=
  let gc_enabled := 0 <? gc_depth (protocol_config (tc_context c)) in
  foldl (λ '((c, evs) : TransactionConsumer * list tx_event) ack,
    if gc_enabled
    then (set_subscribers c (<[block_ref := default [] (block_status_subscribers c !! block_ref) ++ [ack]]> (block_status_subscribers c)),
          evs ++ [EvIncluded ack block_ref])
    else (c, evs ++ [EvStatus ack (Sequenced block_ref); EvIncluded ack block_ref])) (c, []) acks.

(** ** [notify_own_blocks_status] *)

Definition notify_committed '((m, evs) : gmap BlockRef (list N) * list tx_event) (block_ref : BlockRef)
    : gmap BlockRef (list N) * list tx_event :=
  match m !! block_ref with
  | Some subscribers => (delete block_ref m, evs ++ ((λ s, EvStatus s (Sequenced block_ref)) <$> subscribers))
  | None => (m, evs)
  end.

(** [while let Some(..) = block_status_subscribers.pop_first()]; each round pops
    an entry, so the size of the map is fuel enough. *)
Fixpoint notify_gced (fuel : nat) (m : gmap BlockRef (list N)) (gc_round : Round) : gmap BlockRef (list N) * list tx_event :=
  match fuel, btree_first (dom m) with
  | S fuel, Some block_ref =>
    let subscribers := default [] (m !! block_ref) in
    if ref_round block_ref <=? gc_round
    then let '(m, evs) := notify_gced fuel (delete block_ref m) gc_round in
         (m, ((λ s, EvStatus s (GarbageCollected block_ref)) <$> subscribers) ++ evs)
    else (<[block_ref := subscribers]> (delete block_ref m), [])
  | _, _ => (m, [])
  end.

Definition notify_own_blocks_status (c : TransactionConsumer) (committed_blocks : list BlockRef) (gc_round : Round)
    : TransactionConsumer * list tx_event :=
  let '(m, evs) := foldl notify_committed (block_status_subscribers c, []) committed_blocks in
  let '(m, evs') := notify_gced (size m) m gc_round in
  (set_subscribers c m, evs ++ evs').

(** ** The client *)

Record TransactionClient := mk_client {
  max_transaction_size : N;
  cl_max_transactions_in_block_bytes : N;
  max_transactions_in_block_count : N;
}.

Inductive ClientError :=
| ConsensusShuttingDown
| OversizedTransaction (size limit : N)
| OversizedTransactionBundleBytes (size limit : N)
| OversizedTransactionBundleCount (count limit : N).

Definition TransactionClient_new (ctx : Context) : TransactionClient * list TransactionsGuard :=
  let cfg := protocol_config ctx in
  (mk_client (max_transaction_size_bytes cfg) (max_transactions_in_block_bytes cfg) (max_num_transactions_in_block cfg), []).

Fixpoint check_bundle (cl : TransactionClient) (bundle_size : N) (transactions : list bytes) : result unit ClientError :=
  match transactions with
  | [] => Ok tt
  | t :: transactions =>
    let len := N.of_nat (length t) in
    if max_transaction_size cl <? len then Err (OversizedTransaction len (max_transaction_size cl))
    else
      let bundle_size := bundle_size +64 len in
      if cl_max_transactions_in_block_bytes cl <? bundle_size
      then Err (OversizedTransactionBundleBytes bundle_size (cl_max_transactions_in_block_bytes cl))
      else check_bundle cl bundle_size transactions
  end.

(** The guard that is sent, with the number [ack] of its new channel; [closed]
    when the consumer is gone. *)
Definition submit_no_wait (cl : TransactionClient) (closed : bool) (ack : N) (transactions : list bytes)
    : result TransactionsGuard ClientError :=
  let count := N.of_nat (length transactions) in
  if max_transactions_in_block_count cl <? count
  then Err (OversizedTransactionBundleCount count (max_transactions_in_block_count cl))
  else match check_bundle cl 0 transactions with
  | Err e => Err e
  | Ok _ => if closed then Err ConsensusShuttingDown else Ok (mk_guard (mk_transaction <$> transactions) ack)
  end.

(** ** Limits *)

Definition tx_sizes (ts : list Transaction) : N := sumN ((λ t, N.of_nat (length (data t))) <$> ts).

(** A list of transactions within the limits of the protocol. *)
Definition within_limits (cfg : ProtocolConfig) (ts : list Transaction) : Prop :=
  N.of_nat (length ts) <= max_num_transactions_in_block cfg ∧ tx_sizes ts <= max_transactions_in_block_bytes cfg ∧
  Forall (λ t, N.of_nat (length (data t)) <= max_transaction_size_bytes cfg) ts.

(** The limits are far from the width of their type. *)
Definition limits_ok (cfg : ProtocolConfig) : Prop :=
  2 * max_transactions_in_block_bytes cfg < U64_MOD ∧ 2 * max_num_transactions_in_block cfg < U64_MOD ∧
  max_transaction_size_bytes cfg + max_transactions_in_block_bytes cfg < U64_MOD.

Definition waiting (c : TransactionConsumer) : list TransactionsGuard := option_list (pending_transactions c) ++ tx_receiver c.
Definition guards_transactions (l : list TransactionsGuard) : list Transaction := mjoin (guard_transactions <$> l).

Lemma tx_sizes_app l k : tx_sizes (l ++ k) = tx_sizes l + tx_sizes k.
Proof. unfold tx_sizes. by rewrite fmap_app, sumN_app. Qed.

Lemma guards_transactions_app l k : guards_transactions (l ++ k) = guards_transactions l ++ guards_transactions k.
Proof. unfold guards_transactions. by rewrite fmap_app, join_app. Qed.

Lemma within_limits_valid ctx ts : limits_ok (protocol_config ctx) → within_limits (protocol_config ctx) ts →
  check_transactions ctx (data <$> ts) = Ok tt.
Proof.
  intros Hl (Hn & Hb & Hs). apply check_transactions_ok. unfold valid_transactions. unfold tx_sizes, limits_ok in *.
  rewrite length_fmap, <-list_fmap_compose.
  change ((λ t : bytes, N.of_nat (length t)) ∘ data) with (λ t, N.of_nat (length (data t))). split_and!.
  - intros _ t (x & -> & Hx)%list_elem_of_fmap. rewrite Forall_forall in Hs. by apply Hs.
  - done.
  - intros _. by rewrite wrap64_small by lia.
Qed.

Section limits.
Context (cfg : ProtocolConfig) (Hcfg : limits_ok cfg).

Definition tc_ok (c : TransactionConsumer) : Prop :=
  protocol_config (tc_context c) = cfg ∧ tc_max_transactions_in_block_bytes c = max_transactions_in_block_bytes cfg ∧
  tc_max_num_transactions_in_block c = max_num_transactions_in_block cfg ∧
  Forall (λ g, within_limits cfg (guard_transactions g)) (waiting c).

(** The accumulator of [next] has taken [taken]. *)
Definition acc_of (acc : next_acc) (taken : list TransactionsGuard) : Prop :=
  na_transactions acc = guards_transactions taken ∧ na_acks acc = included_in_block_ack <$> taken ∧
  na_total_bytes acc = tx_sizes (na_transactions acc) ∧ within_limits cfg (na_transactions acc).

Lemma handle_txs_spec c acc taken g : tc_ok c → acc_of acc taken → within_limits cfg (guard_transactions g) →
  match handle_txs c acc g with
  | (acc', None) => acc_of acc' (taken ++ [g]) ∧ na_limit_reached acc' = na_limit_reached acc
  | (acc', Some g') => g' = g ∧ acc_of acc' taken ∧ na_limit_reached acc' ≠ AllTransactionsIncluded ∧
      ¬ within_limits cfg (guards_transactions (taken ++ [g]))
  end.
Proof using Hcfg.
  intros (_ & Hmb & Hmn & _) (Ht & Ha & Hb & Hw) Hg. destruct Hcfg as (H1 & H2 & H3). pose proof Hw as (Hw1 & Hw2 & Hw3). pose proof Hg as (Hg1 & Hg2 & Hg3).
  unfold handle_txs, transactions_bytes. fold (tx_sizes (guard_transactions g)). rewrite Hmb, Hmn, Hb.
  rewrite (wrap64_small (tx_sizes _)) by lia. rewrite !wrap64_small by lia.
  assert (guards_transactions (taken ++ [g]) = na_transactions acc ++ guard_transactions g) as Hsnoc.
  { rewrite guards_transactions_app, Ht. unfold guards_transactions at 2. cbn. by rewrite app_nil_r. }
  unfold within_limits. rewrite Hsnoc, length_app, tx_sizes_app.
  destruct (N.ltb_spec (max_transactions_in_block_bytes cfg) (tx_sizes (na_transactions acc) + tx_sizes (guard_transactions g))).
  { split_and!; [done|by unfold acc_of|done|]. lia. }
  destruct (N.ltb_spec (max_num_transactions_in_block cfg) (N.of_nat (length (na_transactions acc)) + N.of_nat (length (guard_transactions g)))).
  { split_and!; [done|by unfold acc_of|done|]. lia. }
  split; [|done]. unfold acc_of. cbn [na_transactions na_acks na_total_bytes]. rewrite Hsnoc, fmap_app, Ha, tx_sizes_app. split_and!; [done..|].
  unfold within_limits. rewrite length_app, tx_sizes_app, Forall_app. split_and!; [lia..|done|done].
Qed.

(** Why [next] stopped, with [rest] left. *)
Definition stopped (limit : LimitReached) (taken rest : list TransactionsGuard) : Prop :=
  match rest with
  | [] => limit = AllTransactionsIncluded
  | g :: _ => limit ≠ AllTransactionsIncluded ∧ ¬ within_limits cfg (guards_transactions (taken ++ [g]))
  end.

Lemma next_loop_spec c receiver : tc_ok c → Forall (λ g, within_limits cfg (guard_transactions g)) receiver →
  ∀ acc taken, acc_of acc taken → na_limit_reached acc = AllTransactionsIncluded →
  ∃ acc' more pending receiver', next_loop c acc receiver = (acc', pending, receiver') ∧
    receiver = more ++ option_list pending ++ receiver' ∧ acc_of acc' (taken ++ more) ∧
    stopped (na_limit_reached acc') (taken ++ more) (option_list pending ++ receiver').
Proof using Hcfg.
  intros Hc Hall. induction Hall as [|g receiver Hg Hall IH]; intros acc taken Hacc Hlim; cbn [next_loop].
  { exists acc, [], None, []. by rewrite !app_nil_r. }
  pose proof (handle_txs_spec c acc taken g Hc Hacc Hg) as Hh.
  destruct (handle_txs c acc g) as [acc1 [g'|]].
  - destruct Hh as (-> & Hacc1 & Hlim1 & Hfull). exists acc1, [], (Some g), receiver. by rewrite !app_nil_r.
  - destruct Hh as (Hacc1 & Hlim1). destruct (IH acc1 (taken ++ [g]) Hacc1) as (acc' & more & p & r & -> & -> & Hacc' & Hst); [congruence|].
    exists acc', (g :: more), p, r. rewrite <-app_assoc in Hacc', Hst. done.
Qed.

Lemma within_limits_nil : within_limits cfg [].
Proof. unfold within_limits. cbn. split_and!; [lia..|constructor]. Qed.

Lemma next_spec c : tc_ok c → ∃ c' taken limit,
  next c = (c', guards_transactions taken, included_in_block_ack <$> taken, limit) ∧
  waiting c = taken ++ waiting c' ∧ tc_ok c' ∧ tc_context c' = tc_context c ∧ block_status_subscribers c' = block_status_subscribers c ∧
  within_limits cfg (guards_transactions taken) ∧ stopped limit taken (waiting c') ∧
  (waiting c ≠ [] → taken ≠ []).
Proof using Hcfg.
  intros Hc. pose proof Hc as (Hctx & Hmb & Hmn & Hw). unfold next.
  set (acc0 := mk_next_acc [] [] 0 AllTransactionsIncluded).
  assert (acc_of acc0 []) as H0 by (split_and!; [done..|apply within_limits_nil]).
  unfold waiting in Hw. apply Forall_app in Hw as [Hp Hr].
  assert (∃ acc1, (match pending_transactions c with Some t => fst (handle_txs c acc0 t) | None => acc0 end) = acc1 ∧
    acc_of acc1 (option_list (pending_transactions c)) ∧ na_limit_reached acc1 = AllTransactionsIncluded) as (acc1 & -> & Hacc1 & Hlim1).
  { destruct (pending_transactions c) as [t|]; [|by exists acc0]. cbn in Hp. apply Forall_cons in Hp as [Ht _].
    pose proof (handle_txs_spec c acc0 [] t Hc H0 Ht) as Hh. destruct (handle_txs c acc0 t) as [acc1 [t'|]]; [|by exists acc1].
    destruct Hh as (_ & _ & _ & Hn). destruct Hn. unfold guards_transactions. cbn. by rewrite app_nil_r. }
  destruct (next_loop_spec c (tx_receiver c) Hc Hr acc1 _ Hacc1 Hlim1) as (acc' & more & p & r & -> & Hrec & Hacc' & Hst).
  destruct Hacc' as (Ht & Ha & _ & Hwl). eexists _, _, _. split; [by rewrite Ht, Ha|].
  assert (waiting (set_receiver c r p) = option_list p ++ r) as Hwt by done.
  rewrite Hrec in Hr. apply Forall_app in Hr as [Hmore Hrest].
  assert (tc_ok (set_receiver c r p)) as Hc' by (unfold tc_ok; by rewrite Hwt).
  split_and!; try done.
  - unfold waiting at 1. by rewrite Hrec, app_assoc, Hwt.
  - by rewrite <-Ht.
  - intros Hne Hnil. apply app_nil in Hnil as [Hnil1 ->]. unfold waiting in Hne. rewrite Hrec, Hnil1 in Hne.
    rewrite Hnil1 in Hst. cbn in Hne, Hst. destruct (option_list p ++ r) as [|g l]; [done|]. destruct Hst as [_ Hst]. apply Hst.
    unfold guards_transactions. cbn. rewrite app_nil_r. apply Forall_cons in Hrest. tauto.
Qed.

(** ** Acknowledging *)

Definition included_acks (evs : list tx_event) : list N := omap (λ e, if e is EvIncluded a _ then Some a else None) evs.
Definition status_acks (evs : list tx_event) : list N := omap (λ e, if e is EvStatus a _ then Some a else None) evs.
Definition status_ref (s : BlockStatus) : BlockRef := match s with Sequenced r | GarbageCollected r => r end.
Definition subscriber_acks (m : gmap BlockRef (list N)) : list N := mjoin ((map_to_list m).*2).

Lemma subscriber_acks_delete m r l : m !! r = Some l → subscriber_acks m ≡ₚ l ++ subscriber_acks (delete r m).
Proof. intros Hr. unfold subscriber_acks. by rewrite <-(map_to_list_delete m r l Hr). Qed.

Lemma subscriber_acks_push m r a :
  subscriber_acks (<[r := default [] (m !! r) ++ [a]]> m) ≡ₚ a :: subscriber_acks m.
Proof.
  rewrite (subscriber_acks_delete (<[r := _]> m) r) by by rewrite lookup_insert_eq. rewrite delete_insert_eq.
  destruct (m !! r) as [l|] eqn:Hr; cbn.
  - rewrite (subscriber_acks_delete m r l Hr). by rewrite <-app_assoc, Permutation_middle.
  - by rewrite delete_id.
Qed.

Lemma elem_of_subscriber_acks m a : a ∈ subscriber_acks m ↔ ∃ r l, m !! r = Some l ∧ a ∈ l.
Proof.
  unfold subscriber_acks. rewrite list_elem_of_join. setoid_rewrite list_elem_of_fmap. split.
  - intros (l & Ha & [r l'] & -> & Hr). apply elem_of_map_to_list in Hr. eauto.
  - intros (r & l & Hr & Ha). exists l. split; [done|]. exists (r, l). by rewrite elem_of_map_to_list.
Qed.
End limits.

Lemma included_acks_app l k : included_acks (l ++ k) = included_acks l ++ included_acks k.
Proof. apply omap_app. Qed.
Lemma status_acks_app l k : status_acks (l ++ k) = status_acks l ++ status_acks k.
Proof. apply omap_app. Qed.

(** The acknowledgements of a block, and where its subscribers are afterwards. *)
Lemma acknowledge_spec c acks r : ∃ m evs,
  acknowledge c acks r = (set_subscribers c m, evs) ∧ included_acks evs = acks ∧
  acks ++ subscriber_acks (block_status_subscribers c) ≡ₚ status_acks evs ++ subscriber_acks m ∧
  (∀ e, e ∈ evs → ∃ a, a ∈ acks ∧ (e = EvIncluded a r ∨ e = EvStatus a (Sequenced r))) ∧
  (∀ r' l a, m !! r' = Some l → a ∈ l →
    (r' = r ∧ a ∈ acks) ∨ ∃ l', block_status_subscribers c !! r' = Some l' ∧ a ∈ l').
Proof.
  unfold acknowledge. induction acks as [|a acks IH] using rev_ind.
  { exists (block_status_subscribers c), []. split_and!; [by destruct c|done..|set_solver|eauto]. }
  rewrite foldl_snoc. destruct IH as (m & evs & -> & Hinc & Hperm & Hev & Hsub). destruct (0 <? _).
  - eexists _, _. split; [reflexivity|]. cbn [set_subscribers block_status_subscribers].
    rewrite included_acks_app, status_acks_app, Hinc. cbn. rewrite app_nil_r. split_and!; [done| | |].
    + rewrite subscriber_acks_push, <-app_assoc. cbn. by rewrite <-!Permutation_middle, Hperm.
    + intros e. rewrite elem_of_app, list_elem_of_singleton. intros [He| ->]; [destruct (Hev e He) as (x & Hx & ?)|]; set_solver.
    + intros r' l x. rewrite lookup_insert_Some. intros [[<- <-]|[Hne Hr']].
      * rewrite elem_of_app, list_elem_of_singleton. intros [Hx| ->]; [|left; set_solver].
        destruct (m !! r) as [l|] eqn:Hr; [|set_solver]. destruct (Hsub r l x Hr Hx) as [[_ ?]|?]; [left; set_solver|by right].
      * intros Hx. destruct (Hsub r' l x Hr' Hx) as [[? _]|?]; [done|by right].
  - eexists m, _. split; [reflexivity|]. rewrite included_acks_app, status_acks_app, Hinc. cbn. split_and!; [done| | |].
    + rewrite <-!app_assoc. cbn. by rewrite <-!Permutation_middle, Hperm.
    + intros e [He|He]%elem_of_app; [destruct (Hev e He) as (x & Hx & ?)|]; set_solver.
    + intros r' l x Hr' Hx. destruct (Hsub r' l x Hr' Hx) as [[? ?]|?]; [left; set_solver|by right].
Qed.

(** ** Notifying *)

(** The status of a block when [committed] and [gc_round] are announced. *)
Definition announced (committed : list BlockRef) (gc_round : Round) (r : BlockRef) : option BlockStatus :=
  if decide (r ∈ committed) then Some (Sequenced r)
  else if ref_round r <=? gc_round then Some (GarbageCollected r) else None.

(** [evs] moves the subscribers in [m] but not in [m'] to a status given by [f]. *)
Record notified (f : BlockRef → option BlockStatus) (m m' : gmap BlockRef (list N)) (evs : list tx_event) : Prop := mk_notified {
  nt_map : ∀ r, m' !! r = if f r is Some _ then None else m !! r;
  nt_events : ∀ e, e ∈ evs ↔ ∃ r l a s, m !! r = Some l ∧ a ∈ l ∧ f r = Some s ∧ e = EvStatus a s;
  nt_acks : subscriber_acks m ≡ₚ status_acks evs ++ subscriber_acks m';
}.

Lemma status_acks_fmap (s : BlockStatus) l : status_acks ((λ a, EvStatus a s) <$> l) = l.
Proof. induction l as [|a l IH]; [done|]. cbn. by f_equal. Qed.

Lemma notified_trans f g m m1 m2 evs evs' : notified f m m1 evs → notified g m1 m2 evs' →
  notified (λ r, if f r is Some s then Some s else g r) m m2 (evs ++ evs').
Proof.
  intros [Hm He Ha] [Hm' He' Ha']. split.
  - intros r. rewrite Hm', Hm. by destruct (f r), (g r).
  - intros e. rewrite elem_of_app, He, He'. split.
    + intros [(r & l & a & s & Hr & Hl & Hf & ->)|(r & l & a & s & Hr & Hl & Hg & ->)].
      * exists r, l, a, s. by rewrite Hf.
      * rewrite Hm in Hr. exists r, l, a, s. by destruct (f r).
    + intros (r & l & a & s & Hr & Hl & Hfg & ->). destruct (f r) as [s'|] eqn:Hf; simplify_eq; [left|right].
      * by exists r, l, a, s.
      * exists r, l, a, s. by rewrite Hm, Hf.
  - by rewrite status_acks_app, Ha, Ha', <-app_assoc.
Qed.

Lemma notified_ext f g m m' evs : (∀ r, f r = g r) → notified f m m' evs → notified g m m' evs.
Proof. intros Hfg [H1 H2 H3]. split; [intros r; by rewrite <-Hfg| |done]. intros e. rewrite H2. by setoid_rewrite Hfg. Qed.

(** The subscribers of one block are notified. *)
Lemma notified_one m r l s : m !! r = Some l →
  notified (λ r', if decide (r' = r) then Some s else None) m (delete r m) ((λ a, EvStatus a s) <$> l).
Proof.
  intros Hr. split.
  - intros r'. case_decide as Heq; [subst; by rewrite lookup_delete_eq|by rewrite lookup_delete_ne].
  - intros e. rewrite list_elem_of_fmap. split.
    + intros (a & -> & Ha). exists r, l, a, s. by rewrite decide_True.
    + intros (r' & l' & a & s' & Hr' & Ha & Hs & ->). case_decide; simplify_eq. eauto.
  - rewrite status_acks_fmap. by apply subscriber_acks_delete.
Qed.

Lemma notified_none m : notified (λ _, None) m m [].
Proof. split; [done| |done]. intros e. split; [set_solver|]. by intros (? & ? & ? & ? & _ & _ & ? & _). Qed.

(** A block without subscribers needs no notification. *)
Lemma notified_skip f g m m' evs : (∀ r, is_Some (m !! r) → f r = g r) → notified f m m' evs → notified g m m' evs.
Proof.
  intros Hfg [H1 H2 H3]. split; [| |done].
  - intros r. rewrite H1. destruct (m !! r) as [l|] eqn:Hr; [by rewrite (Hfg r) by by rewrite Hr|]. by destruct (f r), (g r).
  - intros e. rewrite H2. split; intros (r & l & a & s & Hr & Ha & Hs & ->); exists r, l, a, s; split_and!; try done.
    + by rewrite <-Hfg by by rewrite Hr.
    + by rewrite Hfg by by rewrite Hr.
Qed.

Lemma notify_committed_spec committed : ∀ m evs0, ∃ m' evs,
  foldl notify_committed (m, evs0) committed = (m', evs0 ++ evs) ∧
  notified (λ r, if decide (r ∈ committed) then Some (Sequenced r) else None) m m' evs.
Proof.
  induction committed as [|x l IH]; intros m evs0; cbn [foldl].
  { exists m, []. rewrite app_nil_r. split; [done|]. eapply notified_ext; [|apply notified_none]. intros r. by rewrite decide_False by set_solver. }
  unfold notify_committed at 2. destruct (m !! x) as [subs|] eqn:Hx.
  - destruct (IH (delete x m) (evs0 ++ ((λ s, EvStatus s (Sequenced x)) <$> subs))) as (m' & evs & -> & Hn).
    eexists _, _. split; [by rewrite <-app_assoc|]. eapply notified_ext; [|eapply notified_trans; [apply (notified_one m x subs (Sequenced x) Hx)|exact Hn]].
    intros r. cbn beta. repeat case_decide; set_solver.
  - destruct (IH m evs0) as (m' & evs & -> & Hn). exists m', evs. split; [done|]. eapply notified_skip; [|exact Hn].
    intros r Hr. apply decide_ext. rewrite elem_of_cons. split; [by right|]. intros [->|?]; [|done]. rewrite Hx in Hr. by destruct Hr.
Qed.

(** Popping in the order of the references stops at the first later round. *)
Lemma notify_gced_spec gc_round fuel : ∀ m, (size m <= fuel)%nat →
  notified (λ r, if ref_round r <=? gc_round then Some (GarbageCollected r) else None) m
    (notify_gced fuel m gc_round).1 (notify_gced fuel m gc_round).2.
Proof.
  assert (∀ m : gmap BlockRef (list N), (∀ r, is_Some (m !! r) → gc_round < ref_round r) →
    notified (λ r, if ref_round r <=? gc_round then Some (GarbageCollected r) else None) m m []) as Hstop.
  { intros m Hm. eapply notified_skip; [|apply notified_none]. intros r Hr. by rewrite (proj2 (N.leb_gt _ _)) by by apply Hm. }
  induction fuel as [|fuel IH]; intros m Hsz; cbn [notify_gced].
  { apply Hstop. intros r [l Hr]. rewrite (map_size_empty_inv m) in Hr by lia. done. }
  destruct (btree_first (dom m)) as [r|] eqn:Hf.
  2:{ apply btree_first_None, dom_empty_inv_L in Hf. subst m. apply Hstop. intros r [l Hr]. done. }
  apply btree_first_Some in Hf as [Hr Hmin]. apply elem_of_dom in Hr as [l Hr]. rewrite Hr. cbn [default from_option id].
  destruct (N.leb_spec (ref_round r) gc_round) as [Hle|Hgt].
  - specialize (IH (delete r m)). rewrite map_size_delete_Some in IH by by exists l. specialize (IH ltac:(lia)).
    destruct (notify_gced fuel (delete r m) gc_round) as [m' evs]. cbn [fst snd] in *.
    eapply notified_ext; [|eapply notified_trans; [apply (notified_one m r l (GarbageCollected r) Hr)|exact IH]].
    intros r'. cbn beta. case_decide as Hd; [|done]. subst r'. by rewrite (proj2 (N.leb_le _ _)).
  - cbn [fst snd]. rewrite insert_delete_id by done. apply Hstop. intros r' Hr'. apply elem_of_dom, Hmin, ref_le_round in Hr'. lia.
Qed.

Lemma notify_spec c committed gc_round : ∃ m evs, notify_own_blocks_status c committed gc_round = (set_subscribers c m, evs) ∧
  notified (announced committed gc_round) (block_status_subscribers c) m evs.
Proof.
  unfold notify_own_blocks_status.
  destruct (notify_committed_spec committed (block_status_subscribers c) []) as (m & evs & -> & Hn).
  pose proof (notify_gced_spec gc_round (size m) m ltac:(lia)) as Hg.
  destruct (notify_gced (size m) m gc_round) as [m' evs']. eexists _, _. split; [reflexivity|].
  eapply notified_ext; [|eapply notified_trans; [exact Hn|exact Hg]].
  intros r. unfold announced. by destruct (decide (r ∈ committed)).
Qed.

(** ** Clients, proposals and notifications over time *)

(** The consumer, with what has been submitted, proposed and sent so far. *)
Record pool := mk_pool {
  p_consumer : TransactionConsumer;
  p_submitted : list TransactionsGuard;
  p_blocks : list (BlockRef * list Transaction);
  p_events : list tx_event;
}.

Definition pool_new (ctx : Context) : pool := mk_pool (TransactionConsumer_new (TransactionClient_new ctx).2 ctx) [] [] [].

Definition pool_submit (ctx : Context) (p : pool) (transactions : list bytes) : result pool ClientError :=
  match submit_no_wait (TransactionClient_new ctx).1 false (N.of_nat (length (p_submitted p))) transactions with
  | Ok g => Ok (mk_pool (set_receiver (p_consumer p) (tx_receiver (p_consumer p) ++ [g]) (pending_transactions (p_consumer p)))
                  (p_submitted p ++ [g]) (p_blocks p) (p_events p))
  | Err e => Err e
  end.

(** A proposal takes the next transactions and acknowledges them with its block. *)
Definition pool_propose (p : pool) (r : BlockRef) : pool :=
  let '(c, txs, acks, _) := next (p_consumer p) in
  let '(c, evs) := acknowledge c acks r in
  mk_pool c (p_submitted p) (p_blocks p ++ [(r, txs)]) (p_events p ++ evs).

Definition pool_notify (p : pool) (committed : list BlockRef) (gc_round : Round) : pool :=
  let '(c, evs) := notify_own_blocks_status (p_consumer p) committed gc_round in
  mk_pool c (p_submitted p) (p_blocks p) (p_events p ++ evs).

(** [send] waits while the channel is full. *)
Inductive pool_step (ctx : Context) : relation pool :=
| ps_submit p transactions p' : N.of_nat (length (tx_receiver (p_consumer p))) < MAX_PENDING_TRANSACTIONS →
    pool_submit ctx p transactions = Ok p' → pool_step ctx p p'
| ps_propose p r : pool_step ctx p (pool_propose p r)
| ps_notify p committed gc_round : pool_step ctx p (pool_notify p committed gc_round).

Definition pool_reachable (ctx : Context) (p : pool) : Prop := rtc (pool_step ctx) (pool_new ctx) p.

Record pool_ok (ctx : Context) (p : pool) : Prop := mk_pool_ok {
  po_consumer : tc_ok (protocol_config ctx) (p_consumer p);
  po_order : guards_transactions (p_submitted p) = mjoin (p_blocks p).*2 ++ guards_transactions (waiting (p_consumer p));
  po_acks : included_acks (p_events p) ++ (included_in_block_ack <$> waiting (p_consumer p)) =
    N.of_nat <$> seq 0 (length (p_submitted p));
  po_blocks : Forall (λ b, within_limits (protocol_config ctx) b.2) (p_blocks p);
  po_status : ∀ a s, EvStatus a s ∈ p_events p → EvIncluded a (status_ref s) ∈ p_events p;
  po_subscribers : ∀ r l a, block_status_subscribers (p_consumer p) !! r = Some l → a ∈ l → EvIncluded a r ∈ p_events p;
  po_once : included_acks (p_events p) ≡ₚ status_acks (p_events p) ++ subscriber_acks (block_status_subscribers (p_consumer p));
}.

Section pool.
Context (ctx : Context) (Hcfg : limits_ok (protocol_config ctx)).

Lemma pool_ok_new : pool_ok ctx (pool_new ctx).
Proof. split; cbn; try done. set_solver. Qed.

Lemma check_bundle_spec (txs : list bytes) : ∀ size,
  size <= max_transactions_in_block_bytes (protocol_config ctx) →
  check_bundle (TransactionClient_new ctx).1 size txs = Ok tt ↔
    size + tx_sizes (mk_transaction <$> txs) <= max_transactions_in_block_bytes (protocol_config ctx) ∧
    Forall (λ t, N.of_nat (length (data t)) <= max_transaction_size_bytes (protocol_config ctx)) (mk_transaction <$> txs).
Proof using Hcfg.
  destruct Hcfg as (H1 & H2 & H3). unfold tx_sizes.
  induction txs as [|t txs IH]; intros size Hsz; cbn [check_bundle TransactionClient_new fst max_transaction_size cl_max_transactions_in_block_bytes].
  { csimpl. split; [intros _; split; [lia|constructor]|done]. }
  csimpl. rewrite Forall_cons. cbn [data]. destruct (N.ltb_spec (max_transaction_size_bytes (protocol_config ctx)) (N.of_nat (length t))) as [Hl|Hl].
  { split; [done|]. intros (_ & ? & _). lia. }
  rewrite wrap64_small by lia. destruct (N.ltb_spec (max_transactions_in_block_bytes (protocol_config ctx)) (size + N.of_nat (length t))) as [Hb|Hb].
  { split; [done|]. intros (? & _). lia. }
  rewrite IH by done. split; intros (? & ?); split_and?; try tauto; lia.
Qed.

(** The client accepts exactly the bundles that fit into a block. *)
Lemma submit_spec closed ack (txs : list bytes) g : submit_no_wait (TransactionClient_new ctx).1 closed ack txs = Ok g ↔
  closed = false ∧ within_limits (protocol_config ctx) (mk_transaction <$> txs) ∧ g = mk_guard (mk_transaction <$> txs) ack.
Proof using Hcfg.
  unfold submit_no_wait, within_limits. rewrite length_fmap. cbn [TransactionClient_new fst max_transactions_in_block_count].
  destruct (N.ltb_spec (max_num_transactions_in_block (protocol_config ctx)) (N.of_nat (length txs))) as [Hn|Hn].
  { split; [done|]. intros (_ & (? & _) & _). lia. }
  pose proof (check_bundle_spec txs 0 ltac:(lia)) as Hc. rewrite N.add_0_l in Hc. cbn [TransactionClient_new fst] in Hc.
  destruct (check_bundle _ 0 txs) as [[]|e]; [destruct closed|]; naive_solver.
Qed.

Lemma pool_ok_submit p txs p' : pool_ok ctx p → pool_submit ctx p txs = Ok p' → pool_ok ctx p'.
Proof using Hcfg.
  intros [Hc Ho Ha Hb Hs Hsub Honce]. unfold pool_submit.
  destruct (submit_no_wait _ false _ txs) as [g|] eqn:Hg; [|done]. intros [= <-]. apply submit_spec in Hg as (_ & Hw & ->).
  set (g := mk_guard _ _). set (c' := set_receiver _ _ _).
  assert (waiting c' = waiting (p_consumer p) ++ [g]) as Hwt by (unfold waiting; cbn; by rewrite app_assoc).
  split; cbn [p_consumer p_submitted p_blocks p_events]; try done.
  - destruct Hc as (? & ? & ? & ?). split_and!; [done..|]. rewrite Hwt, Forall_app, Forall_singleton. done.
  - by rewrite Hwt, !guards_transactions_app, Ho, app_assoc.
  - rewrite Hwt, fmap_app, app_assoc, Ha, length_app, seq_app, fmap_app. done.
Qed.

Lemma pool_ok_propose p r : pool_ok ctx p → pool_ok ctx (pool_propose p r).
Proof using Hcfg.
  intros [Hc Ho Ha Hb Hs Hsub Honce]. unfold pool_propose.
  destruct (next_spec _ Hcfg (p_consumer p) Hc) as (c' & taken & limit & -> & Hwt & Hc' & _ & Hsame & Hlim & _).
  destruct (acknowledge_spec c' (included_in_block_ack <$> taken) r) as (m & evs & -> & Hinc & Hperm & Hev & Hm).
  assert (∀ a, a ∈ included_in_block_ack <$> taken → EvIncluded a r ∈ evs) as Hin.
  { intros a Hain. rewrite <-Hinc in Hain. unfold included_acks in Hain. apply list_elem_of_omap in Hain as (e & He & Hx).
    destruct (Hev e He) as (x & _ & [->| ->]); by simplify_eq/=. }
  split; cbn [p_consumer p_submitted p_blocks p_events]; try done.
  - rewrite Ho, Hwt, fmap_app, join_app, guards_transactions_app. cbn. by rewrite app_nil_r, app_assoc.
  - rewrite included_acks_app, Hinc, <-app_assoc, <-fmap_app.
    change (waiting (set_subscribers c' m)) with (waiting c'). by rewrite <-Hwt.
  - rewrite Forall_app, Forall_singleton. done.
  - intros a s. rewrite !elem_of_app. intros [He|He]; [left; by apply Hs|right].
    destruct (Hev _ He) as (x & Hx & [?|?]); simplify_eq/=. by apply Hin.
  - intros r' l a Hr' Hl. rewrite elem_of_app. destruct (Hm r' l a Hr' Hl) as [[-> Hx]|(l' & Hl' & Hx)]; [right; by apply Hin|].
    rewrite Hsame in Hl'. left. by eapply Hsub.
  - rewrite included_acks_app, status_acks_app, Hinc. cbn [set_subscribers block_status_subscribers].
    rewrite Honce, <-Hsame, <-!app_assoc. apply Permutation_app_head. by rewrite Permutation_app_comm.
Qed.

Lemma pool_ok_notify p committed gc_round : pool_ok ctx p → pool_ok ctx (pool_notify p committed gc_round).
Proof.
  intros [Hc Ho Ha Hb Hs Hsub Honce]. unfold pool_notify.
  destruct (notify_spec (p_consumer p) committed gc_round) as (m & evs & -> & [Hm Hev Hperm]).
  assert (included_acks evs = []) as Hinc.
  { unfold included_acks. clear Hperm. assert (∀ e, e ∈ evs → ∃ a s, e = EvStatus a s) as Hst.
    { intros e (? & ? & a & s & _ & _ & _ & ->)%Hev. eauto. } clear Hev.
    induction evs as [|e evs IH]; [done|]. destruct (Hst e) as (a & s & ->); [left|]. cbn. apply IH. intros e He. apply Hst. by right. }
  split; cbn [p_consumer p_submitted p_blocks p_events]; rewrite ?included_acks_app, ?Hinc, ?app_nil_r; try done.
  - intros a s. rewrite !elem_of_app. intros [He|He]; [left; by apply Hs|]. left.
    apply Hev in He as (r & l & a' & s' & Hr & Hl & Hann & [= <- <-]).
    replace (status_ref s) with r; [by eapply Hsub|]. unfold announced in Hann. by repeat case_match; simplify_eq.
  - intros r l a Hr Hl. rewrite elem_of_app. left. cbn in Hr. rewrite Hm in Hr. case_match; [done|]. by eapply Hsub.
  - rewrite status_acks_app. cbn [set_subscribers block_status_subscribers]. by rewrite Honce, Hperm, app_assoc.
Qed.

Lemma pool_reachable_ok p : pool_reachable ctx p → pool_ok ctx p.
Proof using Hcfg.
  apply (rtc_ind_r (pool_ok ctx) (pool_new ctx) pool_ok_new). intros q q' _ Hstep Hq.
  destruct Hstep; eauto using pool_ok_submit, pool_ok_propose, pool_ok_notify.
Qed.
End pool.

(** C31: submitted transactions are proposed exactly once and reported exactly
    once.  In every state reachable by submissions, proposals and notifications:
    the transactions of the proposed blocks followed by those still waiting are
    the accepted submissions in their order, so none is lost, repeated or
    overtaken; every proposed list passes the block verifier's transaction check;
    the submissions have been acknowledged in order, each once; no submission has
    received two statuses, a status names the block that included it, and an
    included submission without a status is subscribed to its block. *)
Theorem transactions_exactly_once (ctx : Context) (p : pool) : limits_ok (protocol_config ctx) → pool_reachable ctx p →
  guards_transactions (p_submitted p) = mjoin (p_blocks p).*2 ++ guards_transactions (waiting (p_consumer p)) ∧
  (∀ r txs, (r, txs) ∈ p_blocks p → check_transactions ctx (data <$> txs) = Ok tt) ∧
  included_acks (p_events p) ++ (included_in_block_ack <$> waiting (p_consumer p)) = N.of_nat <$> seq 0 (length (p_submitted p)) ∧
  NoDup (status_acks (p_events p)) ∧
  (∀ a s, EvStatus a s ∈ p_events p → EvIncluded a (status_ref s) ∈ p_events p) ∧
  (∀ a, a ∈ included_acks (p_events p) → a ∈ status_acks (p_events p) ∨
    ∃ r l, block_status_subscribers (p_consumer p) !! r = Some l ∧ a ∈ l ∧ EvIncluded a r ∈ p_events p).
Proof.
  intros Hcfg Hreach. destruct (pool_reachable_ok ctx Hcfg p Hreach) as [Hc Ho Ha Hb Hs Hsub Honce].
  split_and!; [done| |done| |done|].
  - intros r txs Hin. rewrite Forall_forall in Hb. by apply within_limits_valid; [|apply (Hb (r, txs))].
  - assert (NoDup (included_acks (p_events p))) as Hnd.
    { assert (NoDup (N.of_nat <$> seq 0 (length (p_submitted p)))) as Hseq by (apply NoDup_fmap_2; [apply _|apply NoDup_seq]).
      rewrite <-Ha in Hseq. by apply NoDup_app in Hseq as [? _]. }
    rewrite Honce in Hnd. by apply NoDup_app in Hnd as [? _].
  - intros a Hain. rewrite Honce, elem_of_app, elem_of_subscriber_acks in Hain.
    destruct Hain as [?|(r & l & Hr & Hl)]; [by left|right]. exists r, l. eauto.
Qed.

Lemma pool_propose_shrinks ctx p r : limits_ok (protocol_config ctx) → pool_ok ctx p →
  p_submitted (pool_propose p r) = p_submitted p ∧
  (length (waiting (p_consumer (pool_propose p r))) <= length (waiting (p_consumer p)) - 1)%nat.
Proof.
  intros Hcfg Hok. unfold pool_propose.
  destruct (next_spec _ Hcfg (p_consumer p) (po_consumer _ _ Hok)) as (c' & taken & limit & -> & Hwt & _ & _ & _ & _ & _ & Hne).
  destruct (acknowledge_spec c' (included_in_block_ack <$> taken) r) as (m & evs & -> & _). split; [done|].
  cbn [p_consumer]. change (waiting (set_subscribers c' m)) with (waiting c'). rewrite Hwt, length_app.
  destruct taken as [|g taken]; [|simpl; lia]. destruct (waiting (p_consumer p)) eqn:Hw; [|by destruct Hne]. simpl in Hwt. rewrite <-Hwt. simpl. lia.
Qed.

(** C37: accepted transactions are included.  The client accepts a bundle exactly
    when it is within the limits of a block.  From every reachable state, as many
    proposals as there are waiting submissions, for whatever blocks, include and
    acknowledge every submission. *)
Theorem transactions_included (ctx : Context) (p : pool) (txs : list bytes) (rs : list BlockRef) :
  limits_ok (protocol_config ctx) → pool_reachable ctx p →
  ((∃ p', pool_submit ctx p txs = Ok p') ↔ within_limits (protocol_config ctx) (mk_transaction <$> txs)) ∧
  ((length (waiting (p_consumer p)) <= length rs)%nat →
   let p' := foldl pool_propose p rs in
   waiting (p_consumer p') = [] ∧ included_acks (p_events p') = N.of_nat <$> seq 0 (length (p_submitted p)) ∧
   mjoin (p_blocks p').*2 = guards_transactions (p_submitted p)).
Proof.
  intros Hcfg Hreach. apply (pool_reachable_ok ctx Hcfg) in Hreach as Hok. split.
  { unfold pool_submit. split.
    - intros [p' Hp]. destruct (submit_no_wait _ _ _ _) eqn:Hs; [|done]. by apply submit_spec in Hs as (_ & ? & _).
    - intros Hw. rewrite (proj2 (submit_spec ctx Hcfg false _ txs _)) by done. by eexists. }
  clear Hreach. revert p Hok. induction rs as [|r rs IH]; intros p Hok Hlen; cbn [foldl].
  - destruct (waiting (p_consumer p)) eqn:Hw; [|simpl in Hlen; lia]. destruct Hok as [_ Ho Ha _ _ _ _].
    rewrite Hw in Ho, Ha. cbn in Ha. rewrite app_nil_r in Ha. unfold guards_transactions in Ho at 2. cbn in Ho. rewrite app_nil_r in Ho. done.
  - destruct (pool_propose_shrinks ctx p r Hcfg Hok) as [Hsub Hle].
    destruct (IH (pool_propose p r)) as (H1 & H2 & H3); [by apply pool_ok_propose|simpl in Hlen; lia|].
    rewrite Hsub in H2, H3. done.
Qed.

(** Status notifications.  [notify_own_blocks_status] tells exactly the
    subscribers of the committed blocks that their block is sequenced, and
    exactly the subscribers of the other blocks up to the garbage collection
    round that theirs is garbage collected; each is told once and forgotten, and
    all other subscribers stay. *)
Theorem notify_correct (c : TransactionConsumer) (committed : list BlockRef) (gc_round : Round) :
  ∃ c' evs, notify_own_blocks_status c committed gc_round = (c', evs) ∧
    waiting c' = waiting c ∧
    (∀ r, block_status_subscribers c' !! r =
       if bool_decide (r ∈ committed) || (ref_round r <=? gc_round) then None else block_status_subscribers c !! r) ∧
    (∀ e, e ∈ evs ↔ ∃ r l a, block_status_subscribers c !! r = Some l ∧ a ∈ l ∧
       ((r ∈ committed ∧ e = EvStatus a (Sequenced r)) ∨
        ((r ∉ committed) ∧ ref_round r <= gc_round ∧ e = EvStatus a (GarbageCollected r)))) ∧
    subscriber_acks (block_status_subscribers c) ≡ₚ status_acks evs ++ subscriber_acks (block_status_subscribers c').
Proof.
  destruct (notify_spec c committed gc_round) as (m & evs & -> & [Hm Hev Hperm]). eexists _, _. split; [done|].
  split_and!; [done| | |done].
  - intros r. cbn [set_subscribers block_status_subscribers]. rewrite Hm. unfold announced.
    destruct (decide (r ∈ committed)); [by rewrite bool_decide_true|]. rewrite bool_decide_false by done. by destruct (_ <=? _).
  - intros e. rewrite Hev. unfold announced. split.
    + intros (r & l & a & s & Hr & Hl & Hs & ->). exists r, l, a. split_and!; [done..|].
      destruct (decide (r ∈ committed)); simplify_eq; [by left|right]. destruct (N.leb_spec (ref_round r) gc_round); by simplify_eq.
    + intros (r & l & a & Hr & Hl & [[Hc ->]|(Hc & Hle & ->)]); eexists r, l, a, _; (split_and!; [done..| |done]).
      * by rewrite decide_True.
      * rewrite decide_False by done. by rewrite (proj2 (N.leb_le _ _)).
Qed.

(** ** Witnesses *)

Definition test_pool_ctx : Context :=
  mk_context 0 0 (test_committee [1; 1; 1; 1]) (mk_protocol_config 60 true true true 33 4 3 6 true true) 100 50 5.

Definition test_submit (p : pool) (txs : list bytes) : pool := match pool_submit test_pool_ctx p txs with Ok p => p | Err _ => p end.

Definition test_ref (r : Round) : BlockRef := mk_ref r 0 r.

(** Three submissions, two of which fit into the first block together. *)
Definition test_pool_3 : pool :=
  test_submit (test_submit (test_submit (pool_new test_pool_ctx) [[1; 2; 3]]) [[4; 5]; [6]]) [[7; 8; 9]].
Definition test_pool_done : pool :=
  pool_notify (pool_propose (pool_propose test_pool_3 (test_ref 5)) (test_ref 6)) [test_ref 5] 5.

Lemma test_pool_3_reachable : pool_reachable test_pool_ctx test_pool_3.
Proof.
  eapply rtc_l; [eapply (ps_submit _ _ [[1; 2; 3]]); vm_compute; reflexivity|].
  eapply rtc_l; [eapply (ps_submit _ _ [[4; 5]; [6]]); vm_compute; reflexivity|].
  eapply rtc_l; [eapply (ps_submit _ _ [[7; 8; 9]]); vm_compute; reflexivity|]. apply rtc_refl.
Qed.

Lemma transactions_exactly_once_witness : status_acks (p_events test_pool_done) = [0; 1] ∧
  (p_blocks test_pool_done).*2 = [mk_transaction <$> [[1; 2; 3]; [4; 5]; [6]]; mk_transaction <$> [[7; 8; 9]]] ∧
  ∀ r txs, (r, txs) ∈ p_blocks test_pool_done → check_transactions test_pool_ctx (data <$> txs) = Ok tt.
Proof.
  destruct (transactions_exactly_once test_pool_ctx test_pool_done) as (_ & Hb & _).
  - vm_compute. split_and!; reflexivity.
  - apply (PreOrder_Transitive (R := rtc (pool_step test_pool_ctx)) _ test_pool_3); [apply test_pool_3_reachable|]. eapply rtc_l; [apply ps_propose|]. eapply rtc_l; [apply ps_propose|].
    apply rtc_once. apply ps_notify.
  - split; [vm_compute; reflexivity|]. split; [vm_compute; reflexivity|exact Hb].
Defined.

Lemma transactions_included_witness : waiting (p_consumer (foldl pool_propose test_pool_3 [test_ref 5; test_ref 6; test_ref 7])) = [].
Proof.
  destruct (transactions_included test_pool_ctx test_pool_3 [] [test_ref 5; test_ref 6; test_ref 7]) as (_ & Hall).
  - vm_compute. split_and!; reflexivity.
  - apply test_pool_3_reachable.
  - destruct Hall as (Hw & _); [vm_compute; lia|]. exact Hw.
Defined.
