(* ===== verification/HandleCommit.v ===== *)
(** * HandleCommit: delivering commits

    [Linearizer::handle_commit] from the invariant of the DAG state: every
    leader becomes the next commit, its sub-dag is delivered once and only once,
    and two nodes that have delivered the same blocks deliver the same sub-dags
    for the same leaders. *)
From S2P Require Import Prelude Committee Block StakeAggregator ThresholdClock Commit Error BlockVerifier Store.
From S2P Require Import MemStore ScoringMetrics LeaderScoring DagState LeaderSchedule Linearizer CommitTimestamp.
From S2P Require Import BaseCommitter CommitRule CommitterSpec DagInv DagOps SubDag TestDag.
Local Open Scope N_scope.
Local Open Scope rust_scope.

(** Documented behaviour of the third-party code: digests have 32 bytes, and a
    commit can be serialised. *)
Class CryptoLaws `{Crypto} := { hash_bound x : hash_function x <= DIGEST_MAX }.
Class CommitBcsLaws `{CommitBcs} := { bcs_commit_total c : is_Some (bcs_commit c) }.

Section handle.
Context {St : Type} `{StoreLaws St}.
Implicit Type d : DagState St.

(** ** The timestamp *)

(** The parents of a leader above the last commit are known. *)
Lemma parents_known d i leader : dag_ok d → ds_recent_blocks d !! reference leader = Some i → bi_block i = leader →
  last_commit_round d < round leader →
  ∀ a, a ∈ filter (λ r, ref_round r = round leader - 1) (ancestors leader) →
    ∃ b, lookup_block d a = Some b ∧ reference b = a.
Proof.
  intros Hok Hi <- Hr a [Hra Ha]%list_elem_of_filter.
  destruct (ok_complete _ Hok _ _ _ Hi Ha) as [[b Hb]|[Hen Hgc]].
  - exists b. split; [done|]. by eapply lookup_block_reference.
  - exfalso. unfold gc_enabled in Hen. unfold gc_round, calculate_gc_round in Hgc. rewrite Hen in Hgc.
    apply N.ltb_lt in Hen. lia.
Qed.

Definition parent_blocks d (leader : VerifiedBlock) : list VerifiedBlock :=
  default leader ∘ lookup_block d <$> filter (λ r, ref_round r = round leader - 1) (ancestors leader).

Lemma calculate_commit_timestamp_ret d i leader last : dag_ok d →
  ds_recent_blocks d !! reference leader = Some i → bi_block i = leader → last_commit_round d < round leader →
  ∃ t, last <= t ∧ calculate_commit_timestamp d leader last = Ret t ∧
    t = N.max (if consensus_median_timestamp_with_checkpoint_enforcement (protocol_config (ds_context d)) then
                 match median_timestamp_by_stake (committee (ds_context d)) (parent_blocks d leader) with
                 | Ret (Ok m) => m | _ => 0 end
               else timestamp_ms leader) last.
Proof.
  intros Hok Hi Hil Hr. unfold calculate_commit_timestamp.
  destruct (consensus_median_timestamp_with_checkpoint_enforcement _); cbn [mbind outcome_bind].
  2: { eexists. split; [apply N.le_max_r|done]. }
  pose proof (parents_known d i leader Hok Hi Hil Hr) as Hknown.
  destruct (ok_recent _ Hok _ _ Hi) as (_ & (Hw & _) & _ & Hbo). rewrite Hil in Hbo. simpl in Hw.
  rewrite wrap32_sub by (unfold U32_MOD, U32_MAX in *; lia). rewrite get_blocks_ret by apply Hok. cbn [mbind outcome_bind].
  rewrite (mapM_ret _ (default leader)).
  2: { intros o (a & -> & Ha)%list_elem_of_fmap. destruct (Hknown a Ha) as (b & -> & _). done. }
  cbn [mbind outcome_bind]. rewrite <-list_fmap_compose. fold (parent_blocks d leader).
  assert (block_author <$> parent_blocks d leader = ref_author <$> filter (λ r, ref_round r = round leader - 1) (ancestors leader)) as Hau.
  { unfold parent_blocks. rewrite <-list_fmap_compose. apply list_fmap_ext. intros j a Ha%list_elem_of_lookup_2.
    simpl. destruct (Hknown a Ha) as (b & -> & <-). done. }
  assert (∀ b : VerifiedBlock, b ∈ parent_blocks d leader → is_valid_index (committee (ds_context d)) (author b)) as Hval.
  { intros b Hb. assert (block_author b ∈ block_author <$> parent_blocks d leader) as Hin by by apply list_elem_of_fmap_2.
    rewrite Hau in Hin. apply list_elem_of_fmap in Hin as (a & Hba & [_ Ha]%list_elem_of_filter). unfold block_author in Hba.
    rewrite Hba. by apply (bo_index _ _ Hbo). }
  assert (NoDup (block_author <$> parent_blocks d leader)) as Hnd.
  { rewrite Hau. eapply sublist_NoDup; [apply Hbo|]. apply fmap_sublist, sublist_filter. }
  rewrite (median_timestamp_ret _ (ok_committee _ Hok) _ Hval Hnd).
  destruct (stamps_sum _ (ok_committee _ Hok) _ Hval Hnd (parent_blocks d leader) ltac:(done)) as [Hsum Hle].
  assert (quorum_threshold (committee (ds_context d)) <= stakes (stamp (committee (ds_context d)) <$> parent_blocks d leader)) as Hq.
  { rewrite Hsum, Hau. by apply N.leb_le, Is_true_true, Hbo. }
  destruct (quorum_two_thirds _ (ok_committee _ Hok)) as [Hpos _]. destruct (committee_ok_fields _ (ok_committee _ Hok)) as (_ & _ & _ & Htot & _).
  rewrite bool_decide_eq_false_2 by (intros Heq; rewrite Heq in Hq; change (stakes _) with 0 in Hq; lia).
  rewrite (proj2 (N.ltb_ge _ _) Hq).
  destruct (median_spec (stamp (committee (ds_context d)) <$> parent_blocks d leader)) as (m & -> & _); [lia..|].
  cbn [mbind outcome_bind unwrap]. eexists. split; [apply N.le_max_r|done].
Qed.

(** ** What a commit leaves alone *)

(** The scoring of leaders, the highest round and the genesis blocks are the same. *)
Definition same_counters d d' : Prop :=
  ds_scoring_subdag d' = ds_scoring_subdag d ∧ ds_unscored_committed_subdags d' = ds_unscored_committed_subdags d ∧
  ds_highest_accepted_round d' = ds_highest_accepted_round d ∧ ds_genesis d' = ds_genesis d.

Lemma add_commit_counters instant d commit d' : add_commit instant d commit = Ret d' → same_counters d d'.
Proof. unfold add_commit. intros Heq. repeat (inv_ret; case_match); by inv_ret. Qed.

Lemma flush_counters d d' : flush d = Ret d' → same_counters d d'.
Proof.
  unfold flush. intros Heq. case_match; inv_ret; [done|]. case_match; inv_ret.
  match goal with H : foldM _ _ _ = Ret _ |- _ =>
    refine (foldM_ret_ind (λ _ d', same_counters d d') _ _ _ _ _ _ H); [|done] end.
  intros _ d1 [a x] d2 Hd1 Hev _. unfold evict_authority in Hev. inv_ret. done.
Qed.

(** ** A node between commits *)

(** [D] is the set of references delivered so far. *)
Record node_inv d (D : gset BlockRef) : Prop := {
  ni_ok : dag_ok d;
  ni_gc : gc_enabled d = true;
  ni_v2 : consensus_linearize_subdag_v2 (protocol_config (ds_context d)) = true;
  ni_flags r i : ds_recent_blocks d !! r = Some i → bi_committed i = bool_decide (r ∈ D);
  ni_known r : r ∈ D → is_Some (lookup_block d r);
  ni_below r : r ∈ D → ref_round r <= last_commit_round d;
}.

Definition holds d (b : VerifiedBlock) : Prop := ∃ i, ds_recent_blocks d !! reference b = Some i ∧ bi_block i = b.

Lemma leader_fresh d D leader : node_inv d D → holds d leader → last_commit_round d < round leader → fresh_block d leader.
Proof.
  intros Hn (i & Hi & Hil) Hr. exists i. split_and!; [done..| |].
  - rewrite (ni_flags _ _ Hn _ _ Hi). apply bool_decide_eq_false_2. intros HD%(ni_below _ _ Hn). simpl in HD. lia.
  - pose proof (gc_round_le d). lia.
Qed.

(** What one committed leader gives. *)
Record committed_as d leader (scores : list (AuthorityIndex * N)) (sub_dag : CommittedSubDag) (commit : TrustedCommit) : Prop := {
  ca_leader : sub_dag_leader sub_dag = reference leader ∧ commit_leader commit = reference leader;
  ca_blocks : commit_blocks commit = reference <$> sub_dag_blocks sub_dag;
  ca_ref : sub_dag_commit_ref sub_dag = commit_reference commit;
  ca_index : commit_index commit = last_commit_index d + 1;
  ca_previous : previous_digest commit = last_commit_digest d;
  ca_timestamp : sub_dag_timestamp_ms sub_dag = commit_timestamp_ms commit ∧ last_commit_timestamp_ms d <= commit_timestamp_ms commit;
  ca_scores : sub_dag_reputation_scores_desc sub_dag = scores;
  ca_sorted : StronglySorted (λ a b, sub_dag_le a b) (sub_dag_blocks sub_dag);
  ca_nodup : NoDup (reference <$> sub_dag_blocks sub_dag);
  ca_fresh b : b ∈ sub_dag_blocks sub_dag → fresh_block d b;
  ca_sub_dag r : r ∈ reference <$> sub_dag_blocks sub_dag ↔ in_sub_dag d (reference leader) r;
}.

Context `{CryptoLaws} `{CommitBcsLaws} `{!CommitCodec St}.

Lemma collect_spec fuel d D leader scores : node_inv d D → holds d leader → last_commit_round d < round leader →
  last_commit_index d < U32_MAX → (size (ds_recent_blocks d) < fuel)%nat →
  ∃ sub_dag commit, collect_sub_dag_and_commit fuel d leader scores =
      Ret (mark_committed d (list_to_set (reference <$> sub_dag_blocks sub_dag)), sub_dag, commit) ∧
    committed_as d leader scores sub_dag commit ∧
    next_commit (mark_committed d (list_to_set (reference <$> sub_dag_blocks sub_dag))) commit.
Proof.
  intros Hn Hh Hr Hidx Hfuel. pose proof (leader_fresh d D leader Hn Hh Hr) as Hl. pose proof (ni_ok _ _ Hn) as Hok.
  unfold collect_sub_dag_and_commit.
  destruct (linearize_sub_dag_spec d Hok (ni_gc _ _ Hn) fuel leader (ds_last_committed_rounds d) (ni_v2 _ _ Hn) Hl Hfuel)
    as (bs & -> & Hsort & Hnd & Hfr & Hin). cbn [mbind outcome_bind].
  destruct Hh as (i & Hi & Hil). set (dm := mark_committed d _).
  destruct (calculate_commit_timestamp_ret dm (mark_info (list_to_set (reference <$> bs)) (reference leader) i) leader
    (last_commit_timestamp_ms d)) as (t & Hle & -> & _); [by apply dag_ok_mark|by unfold dm; rewrite mark_lookup, Hi|done|done|].
  cbn [mbind outcome_bind].
  destruct (bcs_commit_total (Commit_new (last_commit_index d +32 1) (last_commit_digest d) t (reference leader) (reference <$> bs)))
    as [ser Hser].
  rewrite Hser. cbn [expect mbind outcome_bind]. rewrite (wrap32_small (last_commit_index d + 1)) in Hser |- * by (unfold U32_MOD, U32_MAX in *; lia).
  set (commit := new_trusted _ ser). exists (mk_sub_dag (reference leader) bs t (commit_reference commit) scores), commit.
  split; [done|]. cbn [sub_dag_blocks]. split; [by split|]. split; simpl; try done.
  - split; [cbn; lia|apply hash_bound].
  - by apply accepts_new_commit.
  - unfold commit_round. simpl. unfold dm. change (last_commit_round (mark_committed d _)) with (last_commit_round d). lia.
  - apply (ok_highest _ Hok _ _ Hi).
  - unfold commit_blocks, commit_round. simpl. intros r Hr'. pose proof (proj1 (Hin r) Hr') as Hsub.
    apply list_elem_of_fmap in Hr' as (b & -> & Hb). destruct (Hfr b Hb) as (ib & Hib & _).
    unfold dm. rewrite mark_lookup_block, (recent_lookup d Hok _ _ Hib).
    destruct (ok_recent _ Hok _ _ Hib) as (_ & _ & ? & _). apply (in_sub_dag_round d Hok) in Hsub. by split; [eexists|].
Qed.
Lemma commit_one fuel instant d D leader scores : node_inv d D → holds d leader → last_commit_round d < round leader →
  last_commit_index d < U32_MAX → (size (ds_recent_blocks d) < fuel)%nat →
  ∃ dm sub_dag commit d', collect_sub_dag_and_commit fuel d leader scores = Ret (dm, sub_dag, commit) ∧
    add_commit instant dm commit = Ret d' ∧
    committed_as d leader scores sub_dag commit ∧
    node_inv d' (list_to_set (reference <$> sub_dag_blocks sub_dag) ∪ D) ∧
    ds_last_commit d' = Some commit ∧ ds_context d' = ds_context d ∧
    (∀ b, holds d b → holds d' b) ∧ dom (ds_recent_blocks d') = dom (ds_recent_blocks d) ∧
    (∀ r, lookup_block d' r = lookup_block d r) ∧
    (∀ r, r ∈ reference <$> sub_dag_blocks sub_dag → r ∉ D) ∧ same_counters d d'.
Proof.
  intros Hn Hh Hr Hidx Hfuel. destruct (collect_spec fuel d D leader scores Hn Hh Hr Hidx Hfuel) as (sub_dag & commit & Hcol & Hca & Hnc).
  pose proof (ni_ok _ _ Hn) as Hok. set (X := list_to_set (reference <$> sub_dag_blocks sub_dag)) in *.
  destruct (add_commit_spec _ (dag_ok_mark d Hok X) instant commit Hnc) as (d' & Hadd & Hok' & Hl & Hlast & _ & Hrec & Hctx).
  exists (mark_committed d X), sub_dag, commit, d'.
  assert (∀ r, lookup_block d' r = lookup_block d r) as Hl' by (intros r; by rewrite Hl, mark_lookup_block).
  assert (last_commit_round d' = round leader) as Hlr.
  { unfold last_commit_round. rewrite Hlast. by destruct (ca_leader _ _ _ _ _ Hca) as [_ ->]. }
  split; [done|]. split; [done|]. split; [done|]. split; [split|split_and!]; try done.
  - unfold gc_enabled. rewrite Hctx. apply (ni_gc _ _ Hn).
  - rewrite Hctx. apply (ni_v2 _ _ Hn).
  - intros r i. rewrite Hrec, mark_lookup. intros (i0 & Hi0 & ->)%fmap_Some. simpl. rewrite (ni_flags _ _ Hn _ _ Hi0).
    rewrite <-bool_decide_or. apply bool_decide_ext. set_solver.
  - intros r. rewrite Hl', elem_of_union. intros [Hx|Hx]; [|by apply (ni_known _ _ Hn)].
    unfold X in Hx. apply elem_of_list_to_set, list_elem_of_fmap in Hx as (b & -> & Hb). destruct (ca_fresh _ _ _ _ _ Hca b Hb) as (i & Hi & _).
    by rewrite (recent_lookup d Hok _ _ Hi).
  - intros r. rewrite Hlr, elem_of_union. intros [Hx|Hx]; [|apply (ni_below _ _ Hn) in Hx; lia].
    unfold X in Hx. apply elem_of_list_to_set, (ca_sub_dag _ _ _ _ _ Hca), (in_sub_dag_round d Hok) in Hx. exact Hx.
  - intros b (i & Hi & Hib). exists (mark_info X (reference b) i). by rewrite Hrec, mark_lookup, Hi.
  - rewrite Hrec. apply set_eq. intros r. rewrite !elem_of_dom, mark_lookup. apply fmap_is_Some.
  - intros r (b & -> & Hb)%list_elem_of_fmap HD. destruct (ca_fresh _ _ _ _ _ Hca b Hb) as (i & Hi & _ & Hc & _).
    rewrite (ni_flags _ _ Hn _ _ Hi) in Hc. by apply bool_decide_eq_false in Hc.
  - by apply add_commit_counters in Hadd.
Qed.

Definition delivered_refs (sub_dags : list CommittedSubDag) : list BlockRef := reference <$> (sub_dags ≫= sub_dag_blocks).

Lemma delivered_refs_cons sd sds : delivered_refs (sd :: sds) = (reference <$> sub_dag_blocks sd) ++ delivered_refs sds.
Proof. unfold delivered_refs. rewrite bind_cons, fmap_app. done. Qed.

(** The round of the last commit when the sub-dags [pre] have been committed. *)
Definition committed_round d (pre : list CommittedSubDag) : Round :=
  from_option (λ sd, ref_round (sub_dag_leader sd)) (last_commit_round d) (last pre).

(** The sub-dags [sds] that a node in state [d] that has delivered [D] delivers
    for [leaders].  An ancestor of a block comes before it, in an earlier call, an
    earlier sub-dag or earlier in the same one, unless its round is up to the garbage
    collection round of the commit before. *)
Record deliveries d (D : gset BlockRef) (leaders : list VerifiedBlock) (sds : list CommittedSubDag) : Prop := {
  de_leaders : sub_dag_leader <$> sds = reference <$> leaders;
  de_index k sd : sds !! k = Some sd → commit_ref_index (sub_dag_commit_ref sd) = last_commit_index d + 1 + N.of_nat k;
  de_sorted sd : sd ∈ sds → StronglySorted (λ a b, sub_dag_le a b) (sub_dag_blocks sd) ∧
    sub_dag_leader sd ∈ reference <$> sub_dag_blocks sd;
  de_nodup : NoDup (delivered_refs sds);
  de_new r : r ∈ delivered_refs sds → r ∉ D;
  de_held (b : VerifiedBlock) : b ∈ sds ≫= sub_dag_blocks → holds d b;
  de_causal pre sd post bs (b : VerifiedBlock) bs' a : sds = pre ++ sd :: post → sub_dag_blocks sd = bs ++ b :: bs' → a ∈ ancestors b →
    calculate_gc_round d (committed_round d pre) < ref_round a → a ∈ D ∨ a ∈ delivered_refs pre ∨ a ∈ reference <$> bs;
}.

Lemma deliveries_nil d D : deliveries d D [] [].
Proof. split; try done; try (intros; set_solver); [constructor|]. intros [|? ?]; discriminate. Qed.

(** How far committing [leaders] takes the state. *)
Record advanced d (leaders : list VerifiedBlock) d' : Prop := {
  ad_context : ds_context d' = ds_context d;
  ad_lookup r : lookup_block d' r = lookup_block d r;
  ad_recent r i : ds_recent_blocks d' !! r = Some i → ∃ i0, ds_recent_blocks d !! r = Some i0 ∧ bi_block i = bi_block i0;
  ad_index : last_commit_index d' = last_commit_index d + N.of_nat (length leaders);
  ad_round : last_commit_round d <= last_commit_round d';
  ad_leaders (x : VerifiedBlock) : x ∈ leaders → round x <= last_commit_round d';
  ad_last : leaders = [] ∧ last_commit_round d' = last_commit_round d ∨
    ∃ x : VerifiedBlock, x ∈ leaders ∧ last_commit_round d' = round x;
  ad_counters : same_counters d d';
}.

Lemma advanced_nil d : advanced d [] d.
Proof. split; try done; [by eauto|simpl; lia|set_solver|by left]. Qed.

Lemma advanced_cons d d1 d' (x : VerifiedBlock) leaders : advanced d [x] d1 → advanced d1 leaders d' → advanced d (x :: leaders) d'.
Proof.
  intros [Hc Hl Hr Hi Hlr Hx Hla Hs] [Hc' Hl' Hr' Hi' Hlr' Hx' Hla' Hs']. specialize (Hx x ltac:(left)). split.
  - congruence.
  - intros r. by rewrite Hl', Hl.
  - intros r i (i1 & Hi1 & ->)%Hr'. by apply Hr.
  - rewrite Hi', Hi. simpl. lia.
  - lia.
  - intros y [->|Hy]%elem_of_cons; [lia|by apply Hx'].
  - right. destruct Hla' as [[-> ->]|(y & Hy & ->)]; [|exists y; split; [by right|done]].
    destruct Hla as [[? _]|(y & Hy%list_elem_of_singleton & ->)]; [done|]. subst y. exists x. split; [left|done].
  - destruct Hs as (? & ? & ? & ?), Hs' as (? & ? & ? & ?). split_and!; congruence.
Qed.

(** A delivered block's ancestors are delivered, unless garbage collected. *)
Lemma committed_causal d D leader scores sub_dag commit (b : VerifiedBlock) a : node_inv d D →
  committed_as d leader scores sub_dag commit → b ∈ sub_dag_blocks sub_dag → a ∈ ancestors b → gc_round d < ref_round a →
  a ∈ reference <$> sub_dag_blocks sub_dag ∨ a ∈ D.
Proof.
  intros Hn Hca Hb Ha Hgc. pose proof (ni_ok _ _ Hn) as Hok. destruct (ca_fresh _ _ _ _ _ Hca b Hb) as (i & Hi & <- & _).
  destruct (ancestor_cached d Hok (ni_gc _ _ Hn) _ _ a Hi Ha Hgc) as [ia Hia].
  destruct (decide (a ∈ D)) as [HD|HD]; [by right|left]. apply (ca_sub_dag _ _ _ _ _ Hca).
  apply (sub_ancestor d _ (reference (bi_block i)) i a (bi_block ia)); [|done..|].
  - apply (ca_sub_dag _ _ _ _ _ Hca). by apply list_elem_of_fmap_2.
  - apply uncommitted_Some. exists ia. split_and!; [done..| |set_solver].
    rewrite (ni_flags _ _ Hn _ _ Hia). by apply bool_decide_eq_false_2.
Qed.

(** They come first in the sub-dag. *)
Lemma committed_before d D leader scores sub_dag commit bs (b : VerifiedBlock) bs' a : node_inv d D →
  committed_as d leader scores sub_dag commit → sub_dag_blocks sub_dag = bs ++ b :: bs' → a ∈ ancestors b → gc_round d < ref_round a →
  a ∈ reference <$> bs ∨ a ∈ D.
Proof.
  intros Hn Hca Heq Ha Hgc. assert (b ∈ sub_dag_blocks sub_dag) as Hb by (rewrite Heq; set_solver).
  destruct (committed_causal d D leader scores sub_dag commit b a Hn Hca Hb Ha Hgc) as [Hin|?]; [left|by right].
  destruct (ca_fresh _ _ _ _ _ Hca b Hb) as (i & Hi & <- & _). destruct (ok_recent _ (ni_ok _ _ Hn) _ _ Hi) as (_ & _ & _ & Hbo).
  pose proof (bo_round _ _ Hbo a Ha) as Hlt. pose proof (ca_sorted _ _ _ _ _ Hca) as Hs. rewrite Heq in Hin, Hs.
  apply StronglySorted_app in Hs as (_ & _ & Hs). apply StronglySorted_cons in Hs as [Hs _]. rewrite Forall_forall in Hs.
  rewrite fmap_app, fmap_cons, elem_of_app, elem_of_cons in Hin. destruct Hin as [?|[->|Hin]]; [done|simpl in Hlt; lia|].
  apply list_elem_of_fmap in Hin as (b' & -> & Hb'%Hs). apply Is_true_true, orb_true_iff in Hb'.
  rewrite andb_true_iff, N.ltb_lt, N.eqb_eq in Hb'. simpl in *. lia.
Qed.

(** The first commit advances the state to its leader. *)
Lemma advanced_one d d' leader scores sub_dag commit : committed_as d leader scores sub_dag commit → last_commit_round d < round leader →
  ds_last_commit d' = Some commit → ds_context d' = ds_context d → (∀ b, holds d b → holds d' b) →
  dag_ok d → dom (ds_recent_blocks d') = dom (ds_recent_blocks d) →
  (∀ r, lookup_block d' r = lookup_block d r) → same_counters d d' → advanced d [leader] d'.
Proof.
  intros Hca Hr Hl Hctx Hh Hok Hdom Hlk Hcnt.
  assert (last_commit_round d' = round leader) as Hlr.
  { unfold last_commit_round. rewrite Hl. by destruct (ca_leader _ _ _ _ _ Hca) as [_ ->]. }
  split; try done.
  - intros r i Hi. assert (is_Some (ds_recent_blocks d !! r)) as [i0 Hi0] by (apply elem_of_dom; rewrite <-Hdom; by eapply elem_of_dom_2).
    exists i0. split; [done|]. destruct (ok_recent _ Hok _ _ Hi0) as (Href & _).
    destruct (Hh (bi_block i0)) as (i' & Hi' & <-); [exists i0; by rewrite Href|]. rewrite Href in Hi'. congruence.
  - unfold last_commit_index at 1. rewrite Hl, (ca_index _ _ _ _ _ Hca). simpl. lia.
  - lia.
  - intros x ->%list_elem_of_singleton. lia.
  - right. exists leader. split; [left|done].
Qed.

(** The blocks held after a commit were held before. *)
Lemma advanced_held d leaders d' (b : VerifiedBlock) : advanced d leaders d' → holds d' b → holds d b.
Proof. intros Had (i & Hi & Hb). destruct (ad_recent _ _ _ Had _ _ Hi) as (i0 & Hi0 & Heq). exists i0. by rewrite <-Heq. Qed.

(** The commits [new] of [leaders], one after the other from the state [d] that
    has delivered [D]; [k] is the position of the first one. *)
Inductive collected (sc : N → list (AuthorityIndex * N)) : nat → DagState St → gset BlockRef → list VerifiedBlock →
    list (CommittedSubDag * TrustedCommit) → Prop :=
| collected_nil k d D : collected sc k d D [] []
| collected_cons k d D leader leaders fuel dm sd c d1 new :
    node_inv d D → holds d leader → last_commit_round d < round leader → last_commit_index d < U32_MAX →
    (size (ds_recent_blocks d) < fuel)%nat → collect_sub_dag_and_commit fuel d leader (sc (N.of_nat k)) = Ret (dm, sd, c) →
    node_inv d1 (list_to_set (reference <$> sub_dag_blocks sd) ∪ D) → ds_context d1 = ds_context d → ds_last_commit d1 = Some c →
    (∀ r, lookup_block d1 r = lookup_block d r) → same_counters d d1 →
    collected sc (S k) d1 (list_to_set (reference <$> sub_dag_blocks sd) ∪ D) leaders new →
    collected sc k d D (leader :: leaders) ((sd, c) :: new).

Definition commit_body (fuel : nat) (instant : N) (sc : N → list (AuthorityIndex * N))
    '((d, sub_dags) : DagState St * list CommittedSubDag) '((i, leader_block) : N * VerifiedBlock)
    : outcome (DagState St * list CommittedSubDag) :=
  '(d, sub_dag, commit) ← collect_sub_dag_and_commit fuel d leader_block (sc i);
  d ← add_commit instant d commit;
  Ret (d, sub_dags ++ [sub_dag]).

Lemma commit_loop fuel instant sc leaders : ∀ k d D acc, node_inv d D →
  (∀ x, x ∈ leaders → holds d x) → StronglySorted (λ a b : VerifiedBlock, round a < round b) leaders →
  (∀ x : VerifiedBlock, x ∈ leaders → last_commit_round d < round x) →
  last_commit_index d + N.of_nat (length leaders) <= U32_MAX → (size (ds_recent_blocks d) < fuel)%nat →
  ∃ d' sds, foldM (commit_body fuel instant sc) (d, acc) (zip (N.of_nat <$> seq k (length leaders)) leaders) = Ret (d', acc ++ sds) ∧
    node_inv d' (list_to_set (delivered_refs sds) ∪ D) ∧ deliveries d D leaders sds ∧
    advanced d leaders d' ∧ dom (ds_recent_blocks d') = dom (ds_recent_blocks d) ∧
    (∀ r, r ∈ delivered_refs sds → r ∈ dom (ds_recent_blocks d)).
Proof.
  induction leaders as [|leader leaders IH]; intros k d D acc Hn Hh Hinc Hlast Hidx Hfuel.
  { exists d, []. rewrite app_nil_r. split; [done|]. cbn [delivered_refs mbind list_bind fmap list_fmap list_to_set].
    rewrite (left_id_L ∅ (∪)). split; [done|]. split; [apply deliveries_nil|]. split_and!; [apply advanced_nil|done|set_solver]. }
  apply StronglySorted_cons in Hinc as [Hinc Hsorted]. rewrite Forall_forall in Hinc.
  destruct (commit_one fuel instant d D leader (sc (N.of_nat k)) Hn) as (dm & sd & commit & d1 & Hcol & Hadd & Hca & Hn1 & Hl1 & Hctx1 & Hh1 & Hdom1 & Hlk1 & Hnew & Hcnt1).
  { apply Hh. left. } { apply Hlast. left. } { simpl in Hidx. lia. } { done. }
  pose proof (advanced_one d d1 leader _ sd commit Hca (Hlast leader ltac:(left)) Hl1 Hctx1 Hh1 (ni_ok _ _ Hn) Hdom1 Hlk1 Hcnt1) as Had1.
  assert (last_commit_round d1 = round leader) as Hlr.
  { unfold last_commit_round. rewrite Hl1. by destruct (ca_leader _ _ _ _ _ Hca) as [_ ->]. }
  assert (last_commit_index d1 = last_commit_index d + 1) as Hli by apply (ad_index _ _ _ Had1).
  destruct (IH (S k) d1 _ (acc ++ [sd]) Hn1) as (d' & sds & Hfold & Hn' & Hde & Had' & Hdom' & Hin').
  { intros x Hx. apply Hh1, Hh. by right. } { done. } { intros x Hx. rewrite Hlr. by apply Hinc. }
  { rewrite Hli. simpl in Hidx. lia. } { by rewrite <-size_dom, Hdom1, size_dom. }
  exists d', (sd :: sds). split_and!.
  - cbn [length seq fmap list_fmap zip zip_with foldM].
    assert (commit_body fuel instant sc (d, acc) (N.of_nat k, leader) = Ret (d1, acc ++ [sd])) as ->.
    { unfold commit_body. rewrite Hcol. cbn [mbind outcome_bind]. by rewrite Hadd. }
    cbn [mbind outcome_bind]. rewrite Hfold. by rewrite <-app_assoc.
  - replace (list_to_set (delivered_refs (sd :: sds)) ∪ D)
      with (list_to_set (delivered_refs sds) ∪ (list_to_set (reference <$> sub_dag_blocks sd) ∪ D) : gset BlockRef); [done|].
    rewrite delivered_refs_cons, list_to_set_app_L. set_solver.
  - destruct Hde as [Hle Hix Hso Hnd Hne Hheld Hcau]. split.
    + rewrite !fmap_cons, Hle. f_equal. apply Hca.
    + intros [|j] sd' Hj; simpl in Hj.
      * simplify_eq. rewrite (ca_ref _ _ _ _ _ Hca). simpl. rewrite (ca_index _ _ _ _ _ Hca). lia.
      * rewrite (Hix j sd' Hj), Hli. lia.
    + intros sd' [->|Hsd']%elem_of_cons; [|by apply Hso]. split; [apply Hca|].
      destruct (ca_leader _ _ _ _ _ Hca) as [-> _]. apply (ca_sub_dag _ _ _ _ _ Hca). constructor.
    + rewrite delivered_refs_cons. apply NoDup_app. split_and!; [apply Hca| |done].
      intros r Hr Hr'. apply (Hne r Hr'). apply elem_of_union_l. by apply elem_of_list_to_set.
    + intros r. rewrite delivered_refs_cons, elem_of_app. intros [Hr|Hr]; [by apply Hnew|]. specialize (Hne r Hr). set_solver.
    + intros b. rewrite bind_cons, elem_of_app. intros [Hb|Hb]; [|by apply (advanced_held _ _ _ _ Had1), Hheld].
      destruct (ca_fresh _ _ _ _ _ Hca b Hb) as (i & Hi & Hib & _). by exists i.
    + intros [|sd0 pre] sd' post bs b bs' a [= <- Heq] Hb Ha Hgr.
      * destruct (committed_before d D leader _ sd commit bs b bs' a Hn Hca Hb Ha Hgr) as [?|?]; [by right; right|by left].
      * assert (committed_round d (sd :: pre) = committed_round d1 pre) as Hcr.
        { unfold committed_round. rewrite last_cons. destruct (last pre); [done|]. simpl. destruct (ca_leader _ _ _ _ _ Hca) as [-> _]. by rewrite Hlr. }
        rewrite delivered_refs_cons, elem_of_app. unfold calculate_gc_round in Hcau, Hgr. rewrite Hctx1 in Hcau. rewrite Hcr in Hgr.
        destruct (Hcau pre sd' post bs b bs' a Heq Hb Ha Hgr) as [[Hx|?]%elem_of_union|[?|?]]; [|by left|by right; left; right|by right; right].
        right. left. left. by apply elem_of_list_to_set in Hx.
  - by eapply advanced_cons.
  - by rewrite Hdom'.
  - intros r. rewrite delivered_refs_cons, elem_of_app, <-Hdom1. intros [Hr|Hr]; [|by apply Hin'].
    apply list_elem_of_fmap in Hr as (b & -> & Hb). destruct (ca_fresh _ _ _ _ _ Hca b Hb) as (i & Hi & _).
    rewrite Hdom1. by apply elem_of_dom_2 in Hi.
Qed.

(** Flushing keeps what a node has delivered. *)
Lemma flush_node_inv d D : node_inv d D →
  ∃ d', flush d = Ret d' ∧ node_inv d' D ∧ ds_last_commit d' = ds_last_commit d ∧ ds_context d' = ds_context d ∧
    (∀ r, lookup_block d' r = lookup_block d r) ∧
    (∀ r i, ds_recent_blocks d' !! r = Some i → ds_recent_blocks d !! r = Some i) ∧
    ∀ r i, ds_recent_blocks d !! r = Some i → stored d' r = Some (bi_block i).
Proof.
  intros Hn. pose proof (ni_ok _ _ Hn) as Hok.
  destruct (flush_spec d Hok) as (d' & Heq & Hok' & Hl & Hrec & Hlast & Hctx & Hbw & _ & _ & _ & Hst). exists d'. split; [done|].
  split; [|split_and!; try done].
  - split; try done.
    + unfold gc_enabled. rewrite Hctx. apply (ni_gc _ _ Hn).
    + rewrite Hctx. apply (ni_v2 _ _ Hn).
    + intros r i Hi%Hrec. by apply (ni_flags _ _ Hn).
    + intros r HD. rewrite Hl. by apply (ni_known _ _ Hn).
    + intros r HD. unfold last_commit_round. rewrite Hlast. by apply (ni_below _ _ Hn).
  - intros r i Hi. by apply (flush_persists d Hok d' Hst).
Qed.

Lemma handle_commit_spec fuel instant sched d D leaders : node_inv d D →
  (∀ x, x ∈ leaders → holds d x) → StronglySorted (λ a b : VerifiedBlock, round a < round b) leaders →
  (∀ x : VerifiedBlock, x ∈ leaders → last_commit_round d < round x) →
  last_commit_index d + N.of_nat (length leaders) <= U32_MAX → (size (ds_recent_blocks d) < fuel)%nat →
  ∃ d' sds, handle_commit fuel instant sched d leaders = Ret (d', sds) ∧
    node_inv d' (list_to_set (delivered_refs sds) ∪ D) ∧ deliveries d D leaders sds ∧
    (∀ r, r ∈ delivered_refs sds → is_Some (stored d' r)) ∧ advanced d leaders d'.
Proof.
  intros Hn Hh Hinc Hlast Hidx Hfuel. unfold handle_commit. case_bool_decide as Hnil.
  { subst leaders. exists d, []. split; [done|]. cbn [delivered_refs mbind list_bind fmap list_fmap list_to_set].
    rewrite (left_id_L ∅ (∪)). split; [done|]. split; [apply deliveries_nil|]. split; [set_solver|apply advanced_nil]. }
  set (sc := λ i : N, if leader_schedule_updated sched d && (i =? 0) then reputation_scores_desc (leader_swap_table sched) else []).
  destruct (commit_loop fuel instant sc leaders 0 d D [] Hn Hh Hinc Hlast Hidx Hfuel) as (d1 & sds & Hfold & Hn1 & Hde & Had & Hdom & Hin).
  unfold enumerate. match goal with |- context [foldM ?f (d, []) ?l] => change (foldM f (d, []) l) with (foldM (commit_body fuel instant sc) (d, []) l) end.
  rewrite Hfold. cbn [mbind outcome_bind app]. destruct (flush_node_inv d1 _ Hn1) as (d' & Hfl & Hn' & Hlast' & Hctx' & Hl' & Hrec' & Hst').
  rewrite Hfl.
  cbn [mbind outcome_bind]. exists d', sds. split; [done|]. split; [done|].
  split; [done|].
  split; [intros r Hr%Hin; rewrite <-Hdom in Hr; apply elem_of_dom in Hr as [i Hi]; rewrite (Hst' r i Hi); by eexists|].
  apply flush_counters in Hfl as (Hsc & Hun & Hhi & Hgen). destruct Had as [Hc Hl Hr Hi Hlr Hx Hla (Hs & Hu & Hh' & Hg)].
  split; unfold last_commit_round, last_commit_index in *; rewrite ?Hlast'; try done; [congruence| | |split_and!; congruence].
  - intros r. by rewrite Hl', Hl.
  - intros r i Hir%Hrec'. by apply Hr.
Qed.
End handle.

(** C6: blocks are delivered exactly once and in causal order.  From a state
    that satisfies the invariant, with garbage collection and the second version of
    the linearizer, handling leaders of increasing rounds above the last commit
    returns one sub-dag per leader, with consecutive commit indices.  The blocks of
    each sub-dag are sorted by round and author and include the leader; no block
    appears twice, nor was it delivered before; every ancestor of a delivered block
    comes before it, in an earlier call, an earlier sub-dag or earlier in the same
    sub-dag, unless its round is not above the garbage collection round that the
    commit before the sub-dag sets; every delivered block is stored; and the
    invariant holds again, with the new blocks among those delivered. *)
Theorem handle_commit_exactly_once {St : Type} `{StoreLaws St} `{CryptoLaws} `{CommitBcsLaws} `{!CommitCodec St} (fuel : nat) (instant : N)
    (sched : LeaderSchedule) (d : DagState St) (D : gset BlockRef) (leaders : list VerifiedBlock) :
  node_inv d D → (∀ x, x ∈ leaders → holds d x) →
  StronglySorted (λ a b : VerifiedBlock, round a < round b) leaders →
  (∀ x : VerifiedBlock, x ∈ leaders → last_commit_round d < round x) →
  last_commit_index d + N.of_nat (length leaders) <= U32_MAX → (size (ds_recent_blocks d) < fuel)%nat →
  ∃ d' sds, handle_commit fuel instant sched d leaders = Ret (d', sds) ∧
    node_inv d' (list_to_set (delivered_refs sds) ∪ D) ∧ deliveries d D leaders sds ∧
    (∀ r, r ∈ delivered_refs sds → is_Some (stored d' r)).
Proof.
  intros Hn Hh Hinc Hlast Hidx Hfuel.
  destruct (handle_commit_spec fuel instant sched d D leaders Hn Hh Hinc Hlast Hidx Hfuel) as (d' & sds & ? & ? & ? & ? & _). by exists d', sds.
Qed.

(** ** Concrete instances *)

Definition test_bcs : CommitBcs :=
  {| bcs_commit c := Some (commit_index c :: commit_timestamp_ms c :: (ref_digest <$> commit_blocks c)) |}.

#[export] Instance test_bcs_laws : CommitBcsLaws (H := test_bcs).
Proof. split. by eexists. Qed.

#[export] Instance test_crypto_laws : CryptoLaws (H := test_crypto).
Proof.
  split. intros x. simpl. assert (∀ h, h < 1000003 → foldl (λ h x, (h * 31 + x + 7) mod 1000003) h x < 1000003) as Hf.
  { induction x as [|y x IH]; intros h Hh; [done|]. simpl. apply IH. by apply N.mod_lt. }
  specialize (Hf 0 eq_refl). unfold DIGEST_MAX. lia.
Qed.

Lemma test_node_inv bs :
  forallb (λ kv : BlockRef * BlockInfo, negb (bi_committed kv.2)) (map_to_list (ds_recent_blocks (test_state bs))) = true →
  node_inv (test_state bs) ∅.
Proof.
  intros Hf. destruct (test_state_ok bs) as (Hok & Hctx & Hl). split; try done.
  - unfold gc_enabled. by rewrite Hctx.
  - by rewrite Hctx.
  - intros r i Hi. rewrite forallb_forall in Hf. specialize (Hf (r, i)). rewrite <-list_elem_of_In, elem_of_map_to_list in Hf.
    specialize (Hf Hi). simpl in Hf. apply negb_true_iff in Hf. by rewrite Hf.
Qed.

(** The leaders of rounds 1, 2 and 4. *)
Definition test_leaders : list VerifiedBlock := omap (λ k, test_blocks 6 !! k) [1%nat; 6%nat; 13%nat].

Lemma test_leaders_held bs : forallb (λ x : VerifiedBlock, match ds_recent_blocks (test_state bs) !! reference x with
    | Some i => bool_decide (bi_block i = x) | None => false end) test_leaders = true →
  ∀ x, x ∈ test_leaders → holds (test_state bs) x.
Proof.
  intros Hf x Hx%list_elem_of_In. rewrite forallb_forall in Hf. specialize (Hf x Hx). unfold holds.
  destruct (ds_recent_blocks (test_state bs) !! reference x) as [i|]; [|done]. exists i. split; [done|].
  by apply bool_decide_eq_true in Hf.
Qed.

Lemma test_leaders_rounds bs : StronglySorted (λ a b : VerifiedBlock, round a < round b) test_leaders ∧
  ∀ x : VerifiedBlock, x ∈ test_leaders → last_commit_round (test_state bs) < round x.
Proof.
  split; [vm_compute; repeat constructor|].
  destruct (test_state_ok bs) as (_ & _ & Hl). unfold last_commit_round. rewrite Hl.
  assert (forallb (λ x : VerifiedBlock, 0 <? round x) test_leaders = true) as Hf by (vm_compute; reflexivity).
  rewrite forallb_forall in Hf. intros x Hx%list_elem_of_In. by apply N.ltb_lt, Hf.
Qed.

Definition test_handle_commit (d : DagState MemStore) : outcome (DagState MemStore * list CommittedSubDag) :=
  handle_commit (H0 := test_crypto) (H1 := test_bcs) 50 0 (LeaderSchedule_new (test_context 60) LeaderSwapTable_default) d test_leaders.

Lemma handle_commit_exactly_once_witness :
  ∃ d' sds, test_handle_commit test_state_a = Ret (d', sds) ∧
    length sds = 3%nat ∧ length (delivered_refs sds) = 13%nat ∧ NoDup (delivered_refs sds).
Proof.
  destruct (handle_commit_exactly_once (H1 := test_crypto) (H3 := test_bcs) 50 0
    (LeaderSchedule_new (test_context 60) LeaderSwapTable_default) test_state_a ∅ test_leaders) as (d' & sds & Heq & _ & Hde & _).
  - apply test_node_inv. vm_compute. reflexivity.
  - apply test_leaders_held. vm_compute. reflexivity.
  - apply (test_leaders_rounds (test_blocks 6)).
  - apply (test_leaders_rounds (test_blocks 6)).
  - by vm_compute.
  - apply Nat.ltb_lt. vm_compute. reflexivity.
  - exists d', sds. split; [exact Heq|]. pose proof (de_nodup _ _ _ _ Hde) as Hnd.
    assert (match test_handle_commit test_state_a with
            | Ret (_, s) => (length s, length (delivered_refs s)) | Panic _ => (0, 0)%nat end = (3, 13)%nat) as Hlen
      by (vm_compute; reflexivity).
    unfold test_handle_commit in Hlen. rewrite Heq in Hlen. injection Hlen as Hlen Hlen'.
    split; [exact Hlen|]. split; [exact Hlen'|exact Hnd].
Defined.
