(* ===== verification/CommitObserver.v ===== *)
(** * CommitObserver: the output of consensus, and its recovery

    Models [consensus/core/src/commit_observer.rs].  The unbounded channel to the
    consumer is the list of what was sent, with a flag for a consumer that is
    gone; the store is the one of the DAG state. *)
From S2P Require Import Prelude Committee Block StakeAggregator ThresholdClock Commit Error BlockVerifier Store.
From S2P Require Import MemStore ScoringMetrics LeaderScoring DagState LeaderSchedule Linearizer CommitTimestamp.
From S2P Require Import BaseCommitter CommitRule CommitterSpec DagInv DagOps SubDag TestDag HandleCommit.
Local Open Scope N_scope.
Local Open Scope rust_scope.

Record CommitSender := mk_sender {
  sent : list CommittedSubDag;
  sender_closed : bool;
}.

Definition send (s : CommitSender) (sub_dag : CommittedSubDag) : option CommitSender :=
  if sender_closed s then None else Some (mk_sender (sent s ++ [sub_dag]) false).

(** The loop of [handle_commit] over the committed sub-dags. *)
Fixpoint send_all (s : CommitSender) (sent_sub_dags committed_sub_dags : list CommittedSubDag)
    : CommitSender * ConsensusResult (list CommittedSubDag) :=
  match committed_sub_dags with
  | [] => (s, Ok sent_sub_dags)
  | sub_dag :: rest =>
    match send s sub_dag with
    | None => (s, Err Shutdown)
    | Some s => send_all s (sent_sub_dags ++ [sub_dag]) rest
    end
  end.

Section observer.
Context {St : Type} `{Store St}.
Implicit Type d : DagState St.

Definition observer_handle_commit `{Crypto} `{CommitBcs} (fuel : nat) (instant : N) (sched : LeaderSchedule) d (sender : CommitSender)
    (committed_leaders : list VerifiedBlock) : outcome (DagState St * CommitSender * ConsensusResult (list CommittedSubDag)) :=
  '(d, committed_sub_dags) ← handle_commit fuel instant sched d committed_leaders;
  let '(sender, res) := send_all sender [] committed_sub_dags in
  Ret (d, sender, res).

(** The body of the loop over the commits to send again. *)
Definition resend_commit (store : St) (sched : LeaderSchedule) (num_unsent_commits : N)
    '((sender, last_sent_commit_index) : CommitSender * CommitIndex) '((index, commit) : N * TrustedCommit)
    : outcome (CommitSender * CommitIndex) :=
  _ ← assert (commit_index commit =? last_sent_commit_index +32 1) "assertion failed: commit.index() == last_sent_commit_index + 1";
  let reputation_scores := if index =? num_unsent_commits - 1 then reputation_scores_desc (leader_swap_table sched) else [] in
  committed_sub_dag ← load_committed_subdag_from_store store commit reputation_scores;
  sender ← expect (send sender committed_sub_dag) "Failed to send commit during recovery, probably due to shutdown";
  Ret (sender, last_sent_commit_index +32 1).

Definition recover_and_send_commits (store : St) (sched : LeaderSchedule) (sender : CommitSender)
    (last_processed_commit_index : CommitIndex) : outcome CommitSender :=
  last_commit ← unwrapM (read_last_commit store) "Reading the last commit should not fail";
  nothing ← match (last_commit : option TrustedCommit) with
            | Some last_commit =>
              _ ← assert (last_processed_commit_index <=? commit_index last_commit)
                    "assertion failed: last_commit_index >= last_processed_commit_index";
              Ret (commit_index last_commit =? last_processed_commit_index)
            | None => Ret false
            end;
  if (nothing : bool) then Ret sender
  else
    scanned ← scan_commits store (CommitRange_new (last_processed_commit_index +32 1) U32_MAX);
    unsent_commits ← unwrap scanned "Scanning commits should not fail";
    res ← foldM (resend_commit store sched (N.of_nat (length unsent_commits)))
            (sender, last_processed_commit_index) (enumerate unsent_commits);
    Ret (fst (res : CommitSender * CommitIndex)).

(** [CommitObserver::new]. *)
Definition CommitObserver_new d (sched : LeaderSchedule) (sender : CommitSender) (last_processed_commit_index : CommitIndex)
    : outcome CommitSender :=
  recover_and_send_commits (ds_store d) sched sender last_processed_commit_index.
End observer.

(** ** The log of commits *)

Definition commit_key (c : TrustedCommit) : CommitIndex * CommitDigest := (commit_index c, commit_digest c).

Lemma keyed_unique {K V} (m : K → option V) (l1 l2 : list (K * V)) : (∀ k v, (k, v) ∈ l1 → m k = Some v) →
  (∀ k v, (k, v) ∈ l2 → m k = Some v) → l1.*1 = l2.*1 → l1 = l2.
Proof.
  revert l2. induction l1 as [|[k v] l1 IH]; intros [|[k' v'] l2] H1 H2 Heq; simplify_eq/=; [done|].
  pose proof (H1 k' v ltac:(left)). pose proof (H2 k' v' ltac:(left)). simplify_eq. f_equal. apply IH; [| |done].
  - intros k v0 Hin. apply H1. by right.
  - intros k v0 Hin. apply H2. by right.
Qed.

Lemma btree_entries_unique `{OrdKey K} {V} (m : gmap K V) (l : list (K * V)) : StronglySorted key_le l.*1 → NoDup l.*1 →
  (∀ k v, (k, v) ∈ l ↔ m !! k = Some v) → btree_entries m = l.
Proof.
  intros Hs Hn Hl. apply (keyed_unique (λ k, m !! k)).
  - intros k v. by rewrite elem_of_btree_entries.
  - intros k v. by rewrite Hl.
  - rewrite btree_entries_fst. apply btree_sorted_unique; [apply btree_iter_sorted|done|apply btree_iter_NoDup|done|].
    intros k. unfold btree_keys. rewrite elem_of_btree_iter, elem_of_dom, list_elem_of_fmap. split.
    + intros [v Hv]. exists (k, v). by rewrite Hl.
    + intros ([k' v] & -> & Hin). apply Hl in Hin. by eexists.
Qed.

Lemma StronglySorted_lookup {A} (R : relation A) l :
  (∀ i j a b, l !! i = Some a → l !! j = Some b → (i < j)%nat → R a b) → StronglySorted R l.
Proof.
  induction l as [|x l IH]; intros Hl; [constructor|]. constructor.
  - apply IH. intros i j a b Hi Hj Hij. apply (Hl (S i) (S j)); [done..|lia].
  - apply Forall_forall. intros y [j Hj]%list_elem_of_lookup. apply (Hl 0%nat (S j)); [done..|lia].
Qed.

Record sub_dag_of (sd : CommittedSubDag) (c : TrustedCommit) : Prop := {
  sd_leader : sub_dag_leader sd = commit_leader c;
  sd_leader_in : commit_leader c ∈ commit_blocks c;
  sd_blocks : commit_blocks c = reference <$> sub_dag_blocks sd;
  sd_timestamp : sub_dag_timestamp_ms sd = commit_timestamp_ms c;
  sd_ref : sub_dag_commit_ref sd = commit_reference c;
}.

Section log.
Context {St : Type} `{StoreLaws St}.
Implicit Type d : DagState St.

(** [log] is the sequence of sub-dags committed so far, with their commits; the
    first [n] have been flushed. *)
Record log_ok d (log : list (CommittedSubDag * TrustedCommit)) (n : nat) : Prop := {
  lg_flushed : (n <= length log)%nat;
  lg_last : last_commit_index d = N.of_nat (length log);
  lg_index k sd (c : TrustedCommit) : log !! k = Some (sd, c) → commit_index c = N.of_nat k + 1 ∧ sub_dag_of sd c;
  lg_known k sd (c : TrustedCommit) (b : VerifiedBlock) : log !! k = Some (sd, c) → b ∈ sub_dag_blocks sd →
    0 < round b ∧ lookup_block d (reference b) = Some b ∧ ((k < n)%nat → stored d (reference b) = Some b);
  lg_stored key (c : TrustedCommit) : sv_commits (store_view (ds_store d)) !! key = Some c ↔
    ∃ k sd, (k < n)%nat ∧ log !! k = Some (sd, c) ∧ key = commit_key c;
  lg_pending : ds_commits_to_write d = (drop n log).*2;
}.

Lemma stored_commits d log n : log_ok d log n →
  btree_entries (sv_commits (store_view (ds_store d))) = (λ x : CommittedSubDag * TrustedCommit, (commit_key x.2, x.2)) <$> take n log.
Proof.
  intros Hlog. set (l := _ <$> take n log).
  assert (∀ i k (c : TrustedCommit), l !! i = Some (k, c) ↔ ∃ sd, (i < n)%nat ∧ log !! i = Some (sd, c) ∧ k = commit_key c) as Hl.
  { intros i k c. unfold l. rewrite list_lookup_fmap. destruct (decide (i < n)%nat) as [Hi|Hi].
    - rewrite lookup_take_lt by done. destruct (log !! i) as [[sd c']|]; cbn; split; intros Hx; naive_solver.
    - rewrite lookup_take_ge by lia. split; [done|]. intros (? & ? & _). lia. }
  assert (∀ i k, l.*1 !! i = Some k → k.1 = N.of_nat i + 1) as Hidx.
  { intros i k. rewrite list_lookup_fmap. intros ([k' c] & Hx & ->)%fmap_Some. apply Hl in Hx as (sd & _ & Hx & ->).
    by destruct (lg_index _ _ _ Hlog _ _ _ Hx). }
  apply btree_entries_unique.
  - apply StronglySorted_lookup. intros i j a b Ha Hb Hij. apply Hidx in Ha, Hb. destruct a, b. apply prod_key_le. left.
    rewrite N_key_le. cbn in *. lia.
  - apply NoDup_alt. intros i j k Hi%Hidx Hj%Hidx. lia.
  - intros k c. rewrite (lg_stored _ _ _ Hlog), list_elem_of_lookup. setoid_rewrite Hl. naive_solver.
Qed.

(** The stored commits with an index in a range. *)
Lemma stored_range d log n lo hi : log_ok d log n → 0 < lo →
  snd <$> btree_map_range (λ k : CommitIndex * CommitDigest, (lo <=? k.1) && (k.1 <=? hi)) (sv_commits (store_view (ds_store d))) =
    (drop (N.to_nat lo - 1) (take (N.to_nat hi) (take n log))).*2.
Proof.
  intros Hlog Hlo. unfold btree_map_range. rewrite (stored_commits d log n Hlog), filter_fmap, <-list_fmap_compose. cbn [fst commit_key].
  change (snd ∘ λ x : CommittedSubDag * TrustedCommit, (commit_key x.2, x.2)) with (snd : CommittedSubDag * TrustedCommit → TrustedCommit).
  f_equal. assert (∀ i sd (c : TrustedCommit), take n log !! i = Some (sd, c) → commit_index c = N.of_nat i + 1) as Hidx.
  { intros i sd c [Hi _]%lookup_take_Some. by destruct (lg_index _ _ _ Hlog _ _ _ Hi). }
  set (l := take n log) in *. rewrite <-(take_drop (N.to_nat hi) l) at 1. rewrite filter_app, (filter_none _ (drop (N.to_nat hi) l)), app_nil_r.
  2:{ intros [sd c] [i Hi]%list_elem_of_lookup. rewrite lookup_drop in Hi. apply Hidx in Hi. cbn. rewrite Hi, andb_True, !Is_true_true, !N.leb_le. lia. }
  set (l' := take (N.to_nat hi) l). rewrite <-(take_drop (N.to_nat lo - 1) l') at 1. rewrite filter_app, filter_none, filter_all; [done| |].
  - intros [sd c] [i Hi]%list_elem_of_lookup. rewrite lookup_drop in Hi. apply lookup_take_Some in Hi as [Hi Hlt]. apply Hidx in Hi.
    cbn. rewrite Hi, andb_True, !Is_true_true, !N.leb_le. lia.
  - intros [sd c] [i Hi]%list_elem_of_lookup. apply lookup_take_Some in Hi as [Hi Hlt]. apply lookup_take_Some in Hi as [Hi _]. apply Hidx in Hi.
    cbn. rewrite Hi, andb_True, !Is_true_true, !N.leb_le. lia.
Qed.

Lemma insert_commits_lookup (cs : list TrustedCommit) key (c : TrustedCommit) : ∀ m, NoDup (commit_key <$> cs) →
  insert_commits cs m !! key = Some c ↔ (c ∈ cs ∧ commit_key c = key) ∨ ((key ∉ commit_key <$> cs) ∧ m !! key = Some c).
Proof.
  induction cs as [|c0 cs IH]; intros m Hnd; cbn [insert_commits foldl].
  { split; [right; split; [set_solver|done]|]. intros [[?%elem_of_nil _]|[_ ?]]; done. }
  csimpl in Hnd. apply NoDup_cons in Hnd as [Hc0 Hnd]. fold (insert_commits cs (<[(commit_index c0, commit_digest c0) := c0]> m)).
  rewrite IH by done. change (commit_index c0, commit_digest c0) with (commit_key c0). csimpl. rewrite elem_of_cons, not_elem_of_cons, lookup_insert_Some.
  split.
  - intros [[? ?]|(Hk & [[<- <-]|[? ?]])]; [left; by split; [right|]|left; by split; [left|]|right; by split; [split|]].
  - intros [[[->|?] <-]|[[? ?] ?]]; [|left; done|right; split; [done|right; done]]. right. split; [done|]. by left.
Qed.

Lemma log_key_inj d log n i j x y : log_ok d log n → log !! i = Some x → log !! j = Some y →
  commit_key x.2 = commit_key y.2 → i = j.
Proof.
  intros Hlog Hx Hy. destruct x as [? c], y as [? c']. destruct (lg_index _ _ _ Hlog _ _ _ Hx) as [Hi _].
  destruct (lg_index _ _ _ Hlog _ _ _ Hy) as [Hj _]. unfold commit_key. cbn. intros [= He _]. lia.
Qed.

(** A block that is known is stored once the state is flushed. *)
Lemma flushed_stored d d' (b : VerifiedBlock) : dag_ok d → 0 < round b → lookup_block d (reference b) = Some b →
  ((ds_blocks_to_write d = [] ∧ ds_commits_to_write d = [] ∧ ds_store d' = ds_store d) ∨
   ∃ metrics, store_view (ds_store d') = view_write (store_view (ds_store d))
     (mk_batch (ds_blocks_to_write d) (ds_commits_to_write d) (ds_commit_info_to_write d) metrics)) →
  stored d' (reference b) = Some b.
Proof.
  intros Hok Hpos Hl Hst. destruct (ds_recent_blocks d !! reference b) as [i|] eqn:Hi.
  { rewrite (recent_lookup d Hok _ _ Hi) in Hl. injection Hl as <-. by apply (flush_persists d Hok d' Hst). }
  assert (stored d (reference b) = Some b) as Hs.
  { unfold lookup_block, get_cached in Hl. rewrite (proj2 (N.eqb_neq _ GENESIS_ROUND)) in Hl by (unfold GENESIS_ROUND; cbn; lia). by rewrite Hi in Hl. }
  unfold stored in *. destruct Hst as [(_ & _ & ->)|(metrics & ->)]; [done|]. cbn [view_write sv_blocks wb_blocks].
  rewrite insert_blocks_lookup_ne; [done|]. intros (b' & Hb' & Hin)%list_elem_of_fmap.
  destruct (ok_written _ Hok b' Hin) as (i & Hi' & _). congruence.
Qed.

(** Flushing makes the whole log durable. *)
Lemma log_ok_flush d d' log n : dag_ok d → log_ok d log n → (∀ r, lookup_block d' r = lookup_block d r) →
  ds_last_commit d' = ds_last_commit d → ds_commits_to_write d' = [] →
  ((ds_blocks_to_write d = [] ∧ ds_commits_to_write d = [] ∧ ds_store d' = ds_store d) ∨
   ∃ metrics, store_view (ds_store d') = view_write (store_view (ds_store d))
     (mk_batch (ds_blocks_to_write d) (ds_commits_to_write d) (ds_commit_info_to_write d) metrics)) →
  log_ok d' log (length log).
Proof.
  intros Hok Hlog Hl Hlast Hpend Hst. pose proof (lg_flushed _ _ _ Hlog) as Hn. split.
  - done.
  - unfold last_commit_index. rewrite Hlast. apply (lg_last _ _ _ Hlog).
  - apply (lg_index _ _ _ Hlog).
  - intros k sd c b Hk Hb. destruct (lg_known _ _ _ Hlog _ _ _ _ Hk Hb) as (Hpos & Hlk & _). rewrite Hl.
    split_and!; [done..|]. intros _. by apply (flushed_stored d d').
  - intros key c. assert (sv_commits (store_view (ds_store d')) = insert_commits (ds_commits_to_write d) (sv_commits (store_view (ds_store d)))) as ->.
    { destruct Hst as [(_ & -> & ->)|(metrics & ->)]; done. }
    rewrite (lg_pending _ _ _ Hlog). rewrite insert_commits_lookup, (lg_stored _ _ _ Hlog).
    2:{ rewrite <-list_fmap_compose. apply NoDup_alt. intros i j x. rewrite !list_lookup_fmap, !lookup_drop.
        intros (a & Ha & ->)%fmap_Some (b & Hb & Heq)%fmap_Some. pose proof (log_key_inj _ _ _ _ _ _ _ Hlog Ha Hb Heq). lia. }
    split.
    + intros [[([sd c'] & -> & (k & Hk)%list_elem_of_lookup)%list_elem_of_fmap <-]|[_ (k & sd & ? & Hk & ->)]]; cbn.
      * rewrite lookup_drop in Hk. exists (n + k)%nat, sd. split_and!; [|done..]. by eapply lookup_lt_Some.
      * exists k, sd. split_and!; [lia|done..].
    + intros (k & sd & _ & Hk & ->). destruct (decide (k < n)%nat) as [Hlt|Hge].
      * right. split; [|by exists k, sd]. intros (c' & Heq & Hin)%list_elem_of_fmap. apply list_elem_of_fmap in Hin as (x & -> & Hin).
        apply list_elem_of_lookup in Hin as [j Hj]. rewrite lookup_drop in Hj. pose proof (log_key_inj _ _ _ _ _ _ _ Hlog Hk Hj Heq). lia.
      * left. split; [|done]. apply list_elem_of_fmap. exists (sd, c). split; [done|]. apply list_elem_of_lookup. exists (k - n)%nat.
        rewrite lookup_drop. by replace (n + (k - n))%nat with k by lia.
  - by rewrite Hpend, drop_all.
Qed.

(** Accepting a block leaves the log as it is. *)
Lemma log_ok_accept now instant d d' (b : VerifiedBlock) log n : dag_ok d → acceptable d now b → accept_block now instant d b = Ret d' →
  log_ok d log n → log_ok d' log n.
Proof.
  intros Hok Hb Heq [Hn Hlast Hidx Hk Hst Hp]. destruct (accept_block_spec d Hok now instant b Hb) as (d1 & Heq1 & _ & _ & Hl1 & Hlk).
  destruct (accept_block_cases d Hok now instant b Hb) as [[_ Hsame]|(_ & clock & rs & _ & _ & Hnew)].
  { rewrite Hsame in Heq. by injection Heq as <-. }
  rewrite Heq in Heq1, Hnew. injection Heq1 as <-. injection Hnew as Hnew. split; try done.
  - unfold last_commit_index. rewrite Hl1. done.
  - intros k sd c x Hx Hin. destruct (Hk k sd c x Hx Hin) as (Hpos & Hlx & Hsx). rewrite Hlk, Hlx. by subst d'.
  - by subst d'.
  - by subst d'.
Qed.

Lemma add_commit_fields instant d (c : TrustedCommit) d' : commit_index c = last_commit_index d + 1 → add_commit instant d c = Ret d' →
  ds_store d' = ds_store d ∧ ds_commits_to_write d' = ds_commits_to_write d ++ [c].
Proof.
  unfold add_commit, last_commit_index. intros Hi. destruct (ds_last_commit d) as [last|].
  - rewrite (proj2 (N.leb_gt _ _)) by lia. intros Hd. apply bind_ret_inv in Hd as (_ & _ & Hd). destruct (_ <? commit_timestamp_ms last); [done|].
    apply bind_ret_inv in Hd as (rounds & _ & Hd). apply bind_ret_inv in Hd as (_ & _ & [= <-]). done.
  - intros Hd. apply bind_ret_inv in Hd as (_ & _ & Hd).
    apply bind_ret_inv in Hd as (rounds & _ & Hd). apply bind_ret_inv in Hd as (_ & _ & [= <-]). done.
Qed.

Context `{CryptoLaws} `{CommitBcsLaws} `{!CommitCodec St}.

Lemma committed_sub_dag_of d leader scores sd (c : TrustedCommit) : committed_as d leader scores sd c → sub_dag_of sd c.
Proof.
  intros Hca. destruct (ca_leader _ _ _ _ _ Hca) as [Hl Hl']. split.
  - congruence.
  - rewrite (ca_blocks _ _ _ _ _ Hca), Hl'. apply (ca_sub_dag _ _ _ _ _ Hca). constructor.
  - apply Hca.
  - apply (ca_timestamp _ _ _ _ _ Hca).
  - apply Hca.
Qed.

(** One more commit in the log. *)
Lemma log_ok_commit d d' leader scores sd (c : TrustedCommit) log n : dag_ok d → committed_as d leader scores sd c → log_ok d log n →
  ds_last_commit d' = Some c → (∀ r, lookup_block d' r = lookup_block d r) → ds_store d' = ds_store d →
  ds_commits_to_write d' = ds_commits_to_write d ++ [c] → log_ok d' (log ++ [(sd, c)]) n.
Proof.
  intros Hok Hca [Hn Hlast Hidx Hk Hst Hp] Hl Hlk Hs Hw. pose proof (ca_index _ _ _ _ _ Hca) as Hi. split.
  - rewrite length_app. lia.
  - unfold last_commit_index. rewrite Hl, Hi, length_app. simpl. lia.
  - intros k sd' c'. rewrite lookup_app_Some, list_lookup_singleton_Some. intros [?|(? & ? & [= <- <-])]; [by apply Hidx|].
    split; [lia|]. by eapply committed_sub_dag_of.
  - intros k sd' c' b. rewrite lookup_app_Some, list_lookup_singleton_Some, Hlk. unfold stored. rewrite Hs.
    intros [Hx|(Hge & _ & [= <- <-])] Hb; [by apply (Hk k sd' c')|]. destruct (ca_fresh _ _ _ _ _ Hca b Hb) as (i & Hib & <- & _).
    destruct (ok_recent _ Hok _ _ Hib) as (_ & _ & Hpos & _). rewrite (recent_lookup d Hok _ _ Hib). split_and!; [done..|lia].
  - intros key c'. rewrite Hs, Hst. split; intros (k & sd' & Hkn & Hx & ->); exists k, sd'; (split_and!; [done| |done]).
    + by apply lookup_app_l_Some.
    + rewrite lookup_app_l in Hx by lia. done.
  - rewrite Hw, Hp, drop_app_le by done. by rewrite fmap_app.
Qed.

Lemma log_loop fuel instant sc leaders : ∀ k d D acc log n, node_inv d D → log_ok d log n →
  (∀ x, x ∈ leaders → holds d x) → StronglySorted (λ a b : VerifiedBlock, round a < round b) leaders →
  (∀ x : VerifiedBlock, x ∈ leaders → last_commit_round d < round x) →
  last_commit_index d + N.of_nat (length leaders) <= U32_MAX → (size (ds_recent_blocks d) < fuel)%nat →
  ∃ d' sds new, foldM (commit_body fuel instant sc) (d, acc) (zip (N.of_nat <$> seq k (length leaders)) leaders) = Ret (d', acc ++ sds) ∧
    dag_ok d' ∧ new.*1 = sds ∧ log_ok d' (log ++ new) n ∧ collected sc k d D leaders new ∧
    ds_last_commit d' = match last new with Some x => Some x.2 | None => ds_last_commit d end.
Proof.
  induction leaders as [|leader leaders IH]; intros k d D acc log n Hn Hlog Hh Hinc Hlast Hidx Hfuel.
  { exists d, [], []. rewrite !app_nil_r. split_and!; [done|apply Hn|done|done|constructor|done]. }
  apply StronglySorted_cons in Hinc as [Hinc Hsorted]. rewrite Forall_forall in Hinc.
  pose proof (Hh leader ltac:(left)) as Hhl. pose proof (Hlast leader ltac:(left)) as Hll. simpl in Hidx.
  destruct (commit_one fuel instant d D leader (sc (N.of_nat k)) Hn Hhl Hll ltac:(lia) Hfuel)
    as (dm & sd & c & d1 & Hcol & Hadd & Hca & Hn1 & Hl1 & Hctx1 & Hh1 & Hdom1 & Hlk1 & _ & Hcnt1).
  destruct (collect_spec fuel d D leader (sc (N.of_nat k)) Hn Hhl Hll ltac:(lia) Hfuel) as (sd' & c' & Hcol' & _).
  rewrite Hcol' in Hcol. injection Hcol as <- -> ->.
  destruct (add_commit_fields instant (mark_committed d (list_to_set (reference <$> sub_dag_blocks sd))) c d1
    (ca_index _ _ _ _ _ Hca) Hadd) as [Hs Hw].
  pose proof (log_ok_commit d d1 leader _ sd c log n (ni_ok _ _ Hn) Hca Hlog Hl1 Hlk1 Hs Hw) as Hlog1.
  assert (last_commit_round d1 = round leader) as Hlr.
  { unfold last_commit_round. rewrite Hl1. by destruct (ca_leader _ _ _ _ _ Hca) as [_ ->]. }
  assert (last_commit_index d1 = last_commit_index d + 1) as Hli by (unfold last_commit_index at 1; rewrite Hl1; apply Hca).
  destruct (IH (S k) d1 _ (acc ++ [sd]) (log ++ [(sd, c)]) n Hn1 Hlog1) as (d' & sds & new & Hfold & Hok' & Hnew & Hlog' & Hcd & Hlc).
  { intros x Hx. apply Hh1, Hh. by right. } { done. } { intros x Hx. rewrite Hlr. by apply Hinc. }
  { rewrite Hli. lia. } { by rewrite <-size_dom, Hdom1, size_dom. }
  exists d', (sd :: sds), ((sd, c) :: new). split_and!.
  - cbn [length seq fmap list_fmap zip zip_with foldM].
    assert (commit_body fuel instant sc (d, acc) (N.of_nat k, leader) = Ret (d1, acc ++ [sd])) as ->.
    { unfold commit_body. rewrite Hcol'. cbn [mbind outcome_bind]. by rewrite Hadd. }
    cbn [mbind outcome_bind]. rewrite Hfold. by rewrite <-app_assoc.
  - done.
  - csimpl. by rewrite Hnew.
  - by rewrite <-app_assoc in Hlog'.
  - eapply collected_cons; try done. lia.
  - rewrite Hlc, Hl1. destruct new as [|x new]; [done|]. rewrite last_cons_cons.
    by destruct (last (x :: new)) eqn:Hx; [|apply last_None in Hx].
Qed.

(** The scores sent with the commits of one call: those of a new schedule, with
    the first commit. *)
Definition batch_scores (sched : LeaderSchedule) d (i : N) : list (AuthorityIndex * N) :=
  if leader_schedule_updated sched d && (i =? 0) then reputation_scores_desc (leader_swap_table sched) else [].

(** Handling commits extends the log by what it returns, and makes it durable. *)
Lemma handle_commit_log fuel instant sched d D leaders log : node_inv d D → log_ok d log (length log) →
  (∀ x, x ∈ leaders → holds d x) → StronglySorted (λ a b : VerifiedBlock, round a < round b) leaders →
  (∀ x : VerifiedBlock, x ∈ leaders → last_commit_round d < round x) →
  last_commit_index d + N.of_nat (length leaders) <= U32_MAX → (size (ds_recent_blocks d) < fuel)%nat →
  ∃ d' new, handle_commit fuel instant sched d leaders = Ret (d', new.*1) ∧ log_ok d' (log ++ new) (length (log ++ new)) ∧
    collected (batch_scores sched d) 0 d D leaders new ∧
    ds_last_commit d' = match last new with Some x => Some x.2 | None => ds_last_commit d end.
Proof.
  intros Hn Hlog Hh Hinc Hlast Hidx Hfuel. unfold handle_commit. case_bool_decide as Hnil.
  { exists d, []. rewrite app_nil_r, Hnil. split_and!; [done..|constructor|done]. }
  set (sc := λ i : N, if leader_schedule_updated sched d && (i =? 0) then reputation_scores_desc (leader_swap_table sched) else []).
  destruct (log_loop fuel instant sc leaders 0 d D [] log _ Hn Hlog Hh Hinc Hlast Hidx Hfuel)
    as (d1 & sds & new & Hfold & Hok1 & Hnew & Hlog1 & Hcd & Hlc).
  unfold enumerate. match goal with |- context [foldM ?f (d, []) ?l] => change (foldM f (d, []) l) with (foldM (commit_body fuel instant sc) (d, []) l) end.
  rewrite Hfold. cbn [mbind outcome_bind app].
  destruct (flush_spec d1 Hok1) as (d' & -> & _ & Hl & _ & Hlast' & _ & _ & Hw & _ & _ & Hst). cbn [mbind outcome_bind].
  exists d', new. rewrite Hnew, Hlast'. split; [done|]. split; [by apply (log_ok_flush d1 d' _ _ Hok1 Hlog1)|done].
Qed.
End log.

(** ** Sending and recovering *)

Lemma send_all_spec l : ∀ s acc, send_all s acc l =
  if sender_closed s then (s, if l is [] then Ok acc else Err Shutdown)
  else (mk_sender (sent s ++ l) false, Ok (acc ++ l)).
Proof.
  induction l as [|sd l IH]; intros [st cl] acc; cbn [send_all].
  { destruct cl; cbn; [done|]. by rewrite !app_nil_r. }
  unfold send. cbn [sender_closed]. destruct cl; [done|]. rewrite IH. cbn. by rewrite <-!app_assoc.
Qed.

Definition with_scores (sd : CommittedSubDag) (scores : list (AuthorityIndex * N)) : CommittedSubDag :=
  mk_sub_dag (sub_dag_leader sd) (sub_dag_blocks sd) (sub_dag_timestamp_ms sd) (sub_dag_commit_ref sd) scores.

(** What recovery sends for the log entries [l]: the last one carries the scores. *)
Fixpoint resent (scores : list (AuthorityIndex * N)) (l : list CommittedSubDag) : list CommittedSubDag :=
  match l with
  | [] => []
  | [sd] => [with_scores sd scores]
  | sd :: l => with_scores sd [] :: resent scores l
  end.

Section recovery.
Context {St : Type} `{StoreLaws St}.
Implicit Type d : DagState St.

Lemma load_spec d log n k sd (c : TrustedCommit) scores : dag_ok d → log_ok d log n → log !! k = Some (sd, c) → (k < n)%nat →
  load_committed_subdag_from_store (ds_store d) c scores = Ret (with_scores sd scores).
Proof.
  intros Hok Hlog Hk Hkn. destruct (lg_index _ _ _ Hlog _ _ _ Hk) as [_ [Hl Hin Hb Ht Hr]].
  unfold load_committed_subdag_from_store. rewrite (read_blocks_view _ _ (ok_store _ Hok)). cbn [unwrapM unwrap mbind outcome_bind].
  assert ((λ r, sv_blocks (store_view (ds_store d)) !! r) <$> commit_blocks c = Some <$> sub_dag_blocks sd) as ->.
  { rewrite Hb, <-list_fmap_compose. apply list_fmap_ext. intros i b Hi%list_elem_of_lookup_2.
    destruct (lg_known _ _ _ Hlog _ _ _ b Hk Hi) as (_ & _ & Hst). by apply Hst. }
  assert (mapM (λ o, expect o "We should have the block referenced in the commit data") (Some <$> sub_dag_blocks sd) = Ret (sub_dag_blocks sd)) as ->.
  { clear. induction (sub_dag_blocks sd) as [|b bs IH]; [done|]. rewrite fmap_cons. cbn [mapM]. rewrite IH. reflexivity. }
  cbn [mbind outcome_bind]. rewrite Hb in Hin. apply list_elem_of_fmap in Hin as (b & Hbl & Hbin).
  destruct (last (filter (λ b : VerifiedBlock, reference b = commit_leader c) (sub_dag_blocks sd))) as [x|] eqn:Hx.
  - apply last_Some_elem_of, list_elem_of_filter in Hx as [Hx _]. cbn. unfold with_scores. congruence.
  - apply last_None in Hx. exfalso. assert (b ∈ filter (λ b : VerifiedBlock, reference b = commit_leader c) (sub_dag_blocks sd)) as Hf by by apply list_elem_of_filter.
    rewrite Hx in Hf. by apply elem_of_nil in Hf.
Qed.

Lemma resend_loop d log n sched total : dag_ok d → log_ok d log n → N.of_nat n < U32_MAX → ∀ todo k j s,
  sender_closed s = false → take n log = take k log ++ todo → (k <= n)%nat → total = N.of_nat (j + length todo) →
  foldM (resend_commit (ds_store d) sched total) (s, N.of_nat k) (zip (N.of_nat <$> seq j (length todo)) todo.*2) =
    Ret (mk_sender (sent s ++ resent (reputation_scores_desc (leader_swap_table sched)) todo.*1) false, N.of_nat (k + length todo)).
Proof.
  intros Hok Hlog Hn todo. induction todo as [|[sd c] todo IH]; intros k j s Hs Hsplit Hk Htot; cbn [length seq fmap list_fmap zip zip_with foldM].
  { cbn. rewrite Nat.add_0_r, app_nil_r. by destruct s; simplify_eq/=. }
  pose proof (lg_flushed _ _ _ Hlog) as Hle.
  assert (take n log !! k = Some (sd, c)) as Hat.
  { rewrite Hsplit. rewrite lookup_app_r; rewrite length_take; [|lia]. by replace (k - k `min` length log)%nat with 0%nat by lia. }
  apply lookup_take_Some in Hat as [Hat Hkn]. destruct (lg_index _ _ _ Hlog _ _ _ Hat) as [Hi _].
  unfold resend_commit at 2. cbn [fst snd]. rewrite (wrap32_small (N.of_nat k + 1)) by (unfold U32_MOD, U32_MAX in *; lia).
  rewrite (proj2 (N.eqb_eq _ _) Hi). cbn [assert mbind outcome_bind]. rewrite (load_spec d log n k sd c _ Hok Hlog Hat Hkn).
  cbn [mbind outcome_bind]. unfold send. rewrite Hs. cbn [expect mbind outcome_bind].
  replace (N.of_nat k + 1) with (N.of_nat (S k)) by lia.
  rewrite (IH (S k) (S j)); [|done| |lia|simpl in Htot; lia].
  - f_equal. f_equal; [|lia]. f_equal. cbn [sent]. rewrite <-app_assoc. f_equal. cbn [app fst].
    destruct todo as [|x todo]; cbn [resent fmap list_fmap length] in *.
    + by rewrite (proj2 (N.eqb_eq _ _)) by lia.
    + rewrite (proj2 (N.eqb_neq _ _)) by lia. done.
  - rewrite Hsplit. rewrite (take_S_r log k (sd, c) Hat), <-app_assoc. done.
Qed.

Lemma recover_spec d log n sched k : dag_ok d → log_ok d log n → N.of_nat n < U32_MAX → (k <= n)%nat →
  CommitObserver_new d sched (mk_sender [] false) (N.of_nat k) =
    Ret (mk_sender (resent (reputation_scores_desc (leader_swap_table sched)) (drop k (take n log)).*1) false).
Proof.
  intros Hok Hlog Hn Hk. unfold CommitObserver_new, recover_and_send_commits. pose proof (ok_store _ Hok) as Hso. pose proof (lg_flushed _ _ _ Hlog) as Hle.
  rewrite (read_last_commit_view _ Hso), (stored_commits d log n Hlog). cbn [unwrapM unwrap mbind outcome_bind].
  assert (∀ nothing, nothing = bool_decide (n = k ∧ n ≠ 0%nat) →
    (if nothing then Ret (mk_sender [] false) else
      scanned ← scan_commits (ds_store d) (CommitRange_new (N.of_nat k +32 1) U32_MAX);
      unsent_commits ← unwrap scanned "Scanning commits should not fail";
      res ← foldM (resend_commit (ds_store d) sched (N.of_nat (length unsent_commits)))
              (mk_sender [] false, N.of_nat k) (enumerate unsent_commits);
      Ret (fst (res : CommitSender * CommitIndex))) =
    Ret (mk_sender (resent (reputation_scores_desc (leader_swap_table sched)) (drop k (take n log)).*1) false)) as Hrest.
  { intros nothing ->. case_bool_decide as Hnk.
    { destruct Hnk as [-> _]. by rewrite drop_ge by (rewrite length_take; lia). }
    rewrite (wrap32_small (N.of_nat k + 1)) by (unfold U32_MOD, U32_MAX in *; lia).
    change (CommitRange_new (N.of_nat k + 1) U32_MAX) with (CommitRange_new (N.of_nat k + 1) (U32_MAX - 1)).
    rewrite (scan_commits_between _ _ _ Hso) by (unfold U32_MAX in *; lia). cbn [unwrapM unwrap mbind outcome_bind].
    assert (snd <$> btree_map_range (λ k0 : CommitIndex * CommitDigest, (N.of_nat k + 1 <=? k0.1) && (k0.1 <=? U32_MAX - 1))
      (sv_commits (store_view (ds_store d))) = (drop k (take n log)).*2) as ->.
    { rewrite (stored_range d log n) by (done || lia). rewrite (take_ge (take n log)) by (rewrite length_take; unfold U32_MAX in *; lia). do 2 f_equal. lia. }
    unfold enumerate. rewrite !length_fmap.
    rewrite (resend_loop d log n sched _ Hok Hlog Hn (drop k (take n log)) k 0); [done|done| |done|done].
    rewrite <-(take_drop k (take n log)) at 1. f_equal. by rewrite take_take, Nat.min_l. }
  rewrite fmap_last. destruct (last (take n log)) as [[sd c]|] eqn:Hlast; cbn [fmap option_fmap option_map snd mbind outcome_bind fst].
  - rewrite last_lookup, lookup_take_Some in Hlast. destruct Hlast as [Hi Hlt]. rewrite length_take in Hi, Hlt.
    replace (pred (n `min` length log)) with (n - 1)%nat in Hi, Hlt by lia.
    destruct (lg_index _ _ _ Hlog _ _ _ Hi) as [Hix _]. rewrite Hix. rewrite (proj2 (N.leb_le _ _)) by lia.
    cbn [assert mbind outcome_bind]. apply Hrest. apply eq_bool_prop_intro. rewrite Is_true_true, N.eqb_eq, bool_decide_spec. lia.
  - apply (Hrest false). symmetry. apply bool_decide_eq_false. apply last_None in Hlast. intros [_ Hnz].
    assert (length (take n log) = 0%nat) as Hz by by rewrite Hlast. rewrite length_take in Hz. lia.
Qed.
End recovery.

(** C23: the output of consensus is durable before it is sent.  From the
    invariant, with a log of everything committed so far, [handle_commit]
    appends the sub-dags it commits to the log, makes the whole log durable, and
    sends exactly them, in order, to a consumer that is there; when the consumer
    is gone nothing is sent and the caller is told to shut down, but the commits
    are still durable. *)
Theorem observer_logs_then_sends {St : Type} `{StoreLaws St} `{CryptoLaws} `{CommitBcsLaws} `{!CommitCodec St} (fuel : nat) (instant : N)
    (sched : LeaderSchedule) (d : DagState St) (D : gset BlockRef) (log : list (CommittedSubDag * TrustedCommit))
    (s : CommitSender) (leaders : list VerifiedBlock) :
  node_inv d D → log_ok d log (length log) → (∀ x, x ∈ leaders → holds d x) →
  StronglySorted (λ a b : VerifiedBlock, round a < round b) leaders →
  (∀ x : VerifiedBlock, x ∈ leaders → last_commit_round d < round x) →
  last_commit_index d + N.of_nat (length leaders) <= U32_MAX → (size (ds_recent_blocks d) < fuel)%nat →
  ∃ d' new s' res, observer_handle_commit fuel instant sched d s leaders = Ret (d', s', res) ∧
    log_ok d' (log ++ new) (length (log ++ new)) ∧ sub_dag_leader <$> new.*1 = reference <$> leaders ∧
    if sender_closed s then s' = s ∧ (leaders ≠ [] → res = Err Shutdown)
    else sent s' = sent s ++ new.*1 ∧ res = Ok new.*1.
Proof.
  intros Hn Hlog Hh Hinc Hlast Hidx Hfuel. unfold observer_handle_commit.
  destruct (handle_commit_log fuel instant sched d D leaders log Hn Hlog Hh Hinc Hlast Hidx Hfuel) as (d' & new & Heq & Hlog' & _).
  destruct (handle_commit_spec fuel instant sched d D leaders Hn Hh Hinc Hlast Hidx Hfuel) as (d2 & sds & Heq' & _ & Hde & _).
  rewrite Heq in Heq'. injection Heq' as <- <-. rewrite Heq. cbn [mbind outcome_bind]. rewrite send_all_spec.
  exists d', new. pose proof (de_leaders _ _ _ _ Hde) as Hl. destruct (sender_closed s).
  - eexists _, _. split; [done|]. split_and!; [done..|]. intros Hne. destruct new.*1; [|done].
    destruct leaders; [done|discriminate Hl].
  - eexists _, _. split; [done|]. done.
Qed.

(** C24: recovery sends exactly what was not processed.  From a state whose log
    of commits is durable up to entry [n], a node that restarts for a consumer
    that has processed [k] commits sends the log entries after [k] up to [n],
    each once and in order, with the leader, blocks, timestamp and commit
    reference they were first sent with; only the reputation scores differ: the
    last one carries the current scores. *)
Theorem recovery_resends {St : Type} `{StoreLaws St} (d : DagState St) (log : list (CommittedSubDag * TrustedCommit)) (n k : nat)
    (sched : LeaderSchedule) :
  dag_ok d → log_ok d log n → N.of_nat n < U32_MAX → (k <= n)%nat →
  ∃ s, CommitObserver_new d sched (mk_sender [] false) (N.of_nat k) = Ret s ∧
    length (sent s) = (n - k)%nat ∧
    ∀ i sd c, (k <= i < n)%nat → log !! i = Some (sd, c) →
      sent s !! (i - k)%nat = Some (with_scores sd (if decide (S i = n) then reputation_scores_desc (leader_swap_table sched) else [])).
Proof.
  intros Hok Hlog Hn Hk. rewrite (recover_spec d log n sched k Hok Hlog Hn Hk). eexists. split; [done|]. cbn [sent].
  pose proof (lg_flushed _ _ _ Hlog) as Hle. set (scores := reputation_scores_desc _).
  assert (∀ l, length (resent scores l) = length l ∧ ∀ j sd, l !! j = Some sd →
    resent scores l !! j = Some (with_scores sd (if decide (S j = length l) then scores else []))) as Hres.
  { induction l as [|sd [|sd' l] IH]; [done| |].
    - split; [done|]. intros [|j] x Hx; by simplify_eq/=.
    - destruct IH as [Hl Hx]. split; [cbn [resent length] in *; by rewrite Hl|]. intros [|j] x Hj; [by simplify_eq/=|].
      change (resent scores (sd :: sd' :: l) !! S j) with (resent scores (sd' :: l) !! j). rewrite (Hx j x Hj).
      f_equal. f_equal. apply decide_ext. cbn [length]. lia. }
  destruct (Hres (drop k (take n log)).*1) as [Hl Hx]. rewrite length_fmap, length_drop, length_take in Hl, Hx. split; [lia|].
  intros i sd c Hi Hat. rewrite (Hx (i - k)%nat sd).
  - f_equal. f_equal. apply decide_ext. lia.
  - rewrite list_lookup_fmap, lookup_drop. replace (k + (i - k))%nat with i by lia. by rewrite lookup_take_lt, Hat by lia.
Qed.

(** ** Witnesses *)

Lemma log_ok_empty {St : Type} `{StoreLaws St} (d : DagState St) : ds_last_commit d = None →
  sv_commits (store_view (ds_store d)) = ∅ → ds_commits_to_write d = [] → log_ok d [] 0.
Proof.
  intros Hl Hs Hw. split; try done.
  - unfold last_commit_index. by rewrite Hl.
  - intros key c. rewrite Hs. split; [done|]. intros (k & sd & ? & _). lia.
Qed.

Lemma test_log_ok : log_ok test_state_a [] 0.
Proof.
  apply log_ok_empty.
  - apply (test_state_ok (test_blocks 6)).
  - destruct (test_state_facts (test_blocks 6)) as (_ & _ & _ & _ & Hst). unfold test_state_a. rewrite Hst. reflexivity.
  - vm_compute. reflexivity.
Qed.

Definition test_sched : LeaderSchedule := LeaderSchedule_new (test_context 60) LeaderSwapTable_default.

Lemma observer_logs_then_sends_witness : ∃ d' s' sds,
  observer_handle_commit (H0 := test_crypto) (H1 := test_bcs) 50 0 test_sched test_state_a (mk_sender [] false) test_leaders =
    Ret (d', s', Ok sds) ∧ sent s' = sds ∧ sub_dag_leader <$> sds = reference <$> test_leaders.
Proof.
  destruct (observer_logs_then_sends (H1 := test_crypto) (H3 := test_bcs) 50 0 test_sched test_state_a ∅ [] (mk_sender [] false) test_leaders)
    as (d' & new & s' & res & Heq & _ & Hl & Hs & Hres).
  - apply test_node_inv. vm_compute. reflexivity.
  - apply test_log_ok.
  - apply test_leaders_held. vm_compute. reflexivity.
  - apply (test_leaders_rounds (test_blocks 6)).
  - apply (test_leaders_rounds (test_blocks 6)).
  - by vm_compute.
  - apply Nat.ltb_lt. vm_compute. reflexivity.
  - exists d', s', new.*1. rewrite Hres in Heq. split; [exact Heq|]. split; [exact Hs|exact Hl].
Defined.

Lemma test_logged : ∃ d' new, test_handle_commit test_state_a = Ret (d', new.*1) ∧ dag_ok d' ∧ log_ok d' new 3 ∧ length new = 3%nat.
Proof.
  assert (node_inv test_state_a ∅) as Hn by (apply test_node_inv; vm_compute; reflexivity).
  assert (∀ x, x ∈ test_leaders → holds test_state_a x) as Hh by (apply test_leaders_held; vm_compute; reflexivity).
  destruct (test_leaders_rounds (test_blocks 6)) as [Hs Hr].
  assert (last_commit_index test_state_a + N.of_nat (length test_leaders) <= U32_MAX) as Hi by by vm_compute.
  assert (size (ds_recent_blocks test_state_a) < 50)%nat as Hf by (apply Nat.ltb_lt; vm_compute; reflexivity).
  destruct (handle_commit_log (H1 := test_crypto) (H3 := test_bcs) 50 0 test_sched test_state_a ∅ test_leaders [] Hn test_log_ok Hh Hs Hr Hi Hf)
    as (d' & new & Heq & Hlog & _).
  destruct (handle_commit_spec (H1 := test_crypto) (H3 := test_bcs) 50 0 test_sched test_state_a ∅ test_leaders Hn Hh Hs Hr Hi Hf)
    as (d2 & sds & Heq' & Hn' & Hde & _).
  assert ((d', new.*1) = (d2, sds)) as [= <- <-] by congruence.
  assert (length new = 3%nat) as Hlen. { pose proof (de_leaders _ _ _ _ Hde) as Hl. apply (f_equal length) in Hl. by rewrite !length_fmap in Hl. }
  exists d', new. cbn [app] in Hlog. rewrite Hlen in Hlog. split; [exact Heq|]. split; [apply Hn'|]. split; [exact Hlog|exact Hlen].
Qed.

(** The consumer has processed one of the three commits. *)
Lemma recovery_resends_witness : ∃ d' sds s, test_handle_commit test_state_a = Ret (d', sds) ∧
  CommitObserver_new d' test_sched (mk_sender [] false) 1 = Ret s ∧ length (sent s) = 2%nat.
Proof.
  destruct test_logged as (d' & new & Heq & Hok & Hlog & Hlen).
  destruct (recovery_resends d' new 3 1 test_sched) as (s & Hs & Hl & _).
  - exact Hok.
  - exact Hlog.
  - vm_compute. reflexivity.
  - lia.
  - exists d', new.*1, s. split; [exact Heq|]. split; [exact Hs|exact Hl].
Defined.
