(* ===== verification/Delivery.v ===== *)
(** * Delivery: nodes deliver the same sub-dags

    Two nodes that have delivered the same blocks, with the same last commit,
    deliver the same sub-dags for the same leaders, block by block and in the
    same order, although their DAG states hold different parts of the DAG. *)
From S2P Require Import Prelude Committee Block StakeAggregator ThresholdClock Commit Error BlockVerifier Store.
From S2P Require Import MemStore ScoringMetrics LeaderScoring DagState LeaderSchedule Linearizer CommitTimestamp.
From S2P Require Import BaseCommitter CommitRule CommitterSpec DagInv DagOps SubDag TestDag HandleCommit.
Local Open Scope N_scope.
Local Open Scope rust_scope.

Section agree.
Context {StA StB : Type} `{HA : StoreLaws StA} `{HB : StoreLaws StB}.

(** Two nodes that have delivered [D], and hold no two blocks with the same
    reference. *)
Record same_history (dA : DagState StA) (dB : DagState StB) (D : gset BlockRef) : Prop := {
  sh_a : node_inv dA D;
  sh_b : node_inv dB D;
  sh_last : ds_last_commit dA = ds_last_commit dB;
  sh_committee : committee (ds_context dA) = committee (ds_context dB);
  sh_config : protocol_config (ds_context dA) = protocol_config (ds_context dB);
  sh_blocks r bA bB : lookup_block dA r = Some bA → lookup_block dB r = Some bB → bA = bB;
}.

Section walk.
Context (dA : DagState StA) (dB : DagState StB) (D : gset BlockRef) (Hsame : same_history dA dB D).
Let HokA := ni_ok _ _ (sh_a _ _ _ Hsame).
Let HokB := ni_ok _ _ (sh_b _ _ _ Hsame).
Let HgcA := ni_gc _ _ (sh_a _ _ _ Hsame).
Let HgcB := ni_gc _ _ (sh_b _ _ _ Hsame).

Lemma same_gc_round : gc_round dA = gc_round dB.
Proof.
  unfold gc_round, calculate_gc_round, last_commit_round. by rewrite (sh_config _ _ _ Hsame), (sh_last _ _ _ Hsame).
Qed.

Lemma uncommitted_agree X x a : fresh_block dA x → fresh_block dB x → a ∈ ancestors x →
  uncommitted dA X a = uncommitted dB X a.
Proof.
  intros (iA & HiA & HxA & _) (iB & HiB & HxB & _) Ha. unfold uncommitted. rewrite <-same_gc_round.
  destruct (N.ltb_spec (gc_round dA) (ref_round a)) as [Hlt|Hge].
  - subst x. destruct (ancestor_cached dA HokA HgcA _ _ a HiA Ha Hlt) as [jA HjA]. rewrite <-HxB in Ha. rewrite same_gc_round in Hlt.
    destruct (ancestor_cached dB HokB HgcB _ _ a HiB Ha Hlt) as [jB HjB]. rewrite HjA, HjB. cbn.
    rewrite (ni_flags _ _ (sh_a _ _ _ Hsame) _ _ HjA), (ni_flags _ _ (sh_b _ _ _ Hsame) _ _ HjB).
    assert (bi_block jA = bi_block jB) as ->; [|done].
    eapply (sh_blocks _ _ _ Hsame a); by apply recent_lookup.
  - destruct (ds_recent_blocks dA !! a), (ds_recent_blocks dB !! a); done.
Qed.

Lemma next_blocks_agree X x : fresh_block dA x → fresh_block dB x → next_blocks dA X x = next_blocks dB X x.
Proof.
  intros HxA HxB. unfold next_blocks.
  assert (∀ a, a ∈ ancestors x → uncommitted dA X a = uncommitted dB X a) as Heq by (intros a; by apply uncommitted_agree).
  induction (ancestors x) as [|a l IH]; [done|]. cbn [omap list_omap]. rewrite (Heq a) by left. rewrite IH by set_solver. done.
Qed.

Lemma walk_agree l fuelA : ∀ fuelB X buffer to_commit, walk_inv dA l X buffer to_commit → walk_inv dB l X buffer to_commit →
  (size (ds_recent_blocks dA) < fuelA + length to_commit)%nat → (size (ds_recent_blocks dB) < fuelB + length to_commit)%nat →
  ∃ sA sB bs, linearize_v2 fuelA (mark_committed dA X) (gc_round dA) buffer to_commit = Ret (sA, bs) ∧
    linearize_v2 fuelB (mark_committed dB X) (gc_round dB) buffer to_commit = Ret (sB, bs).
Proof.
  induction fuelA as [|fuelA IH]; intros fuelB X [|x buffer] to_commit HwA HwB HfA HfB.
  1,3: exists (mark_committed dA X), (mark_committed dB X), to_commit; split; [done|by destruct fuelB].
  - pose proof (walk_inv_size dA _ _ _ _ HwA) as Hsz. rewrite length_app in Hsz. simpl in Hsz, HfA. lia.
  - destruct fuelB as [|fuelB].
    { pose proof (walk_inv_size dB _ _ _ _ HwB) as Hsz. rewrite length_app in Hsz. simpl in Hsz, HfB. lia. }
    assert (fresh_block dA x) as HxA by (apply (wi_fresh _ _ _ _ _ HwA x); set_solver).
    assert (fresh_block dB x) as HxB by (apply (wi_fresh _ _ _ _ _ HwB x); set_solver).
    rewrite !walk_step by done. rewrite <-(next_blocks_agree X x) by done.
    apply IH.
    + by apply walk_inv_step.
    + rewrite (next_blocks_agree X x) by done. by apply walk_inv_step.
    + rewrite length_app. simpl. lia.
    + rewrite length_app. simpl. lia.
Qed.

Lemma linearize_agree fuelA fuelB leader rA rB : fresh_block dA leader → fresh_block dB leader →
  (size (ds_recent_blocks dA) < fuelA)%nat → (size (ds_recent_blocks dB) < fuelB)%nat →
  ∃ bs, linearize_sub_dag fuelA dA leader rA = Ret (mark_committed dA (list_to_set (reference <$> bs)), bs) ∧
    linearize_sub_dag fuelB dB leader rB = Ret (mark_committed dB (list_to_set (reference <$> bs)), bs).
Proof.
  intros HlA HlB HfA HfB.
  destruct (linearize_sub_dag_spec dA HokA HgcA fuelA leader rA (ni_v2 _ _ (sh_a _ _ _ Hsame)) HlA HfA) as (bsA & HA' & _).
  destruct (linearize_sub_dag_spec dB HokB HgcB fuelB leader rB (ni_v2 _ _ (sh_b _ _ _ Hsame)) HlB HfB) as (bsB & HB' & _).
  exists bsA. split; [done|]. assert (bsA = bsB) as ->; [|done].
  revert HA' HB'. unfold linearize_sub_dag. rewrite (ni_v2 _ _ (sh_a _ _ _ Hsame)), (ni_v2 _ _ (sh_b _ _ _ Hsame)).
  pose proof HlA as (iA & HiA & _ & HcA & _). pose proof HlB as (iB & HiB & _ & HcB & _).
  pose proof (set_committed_mark dA HokA ∅ _ iA HiA HcA ltac:(set_solver)) as HsA. rewrite (mark_empty dA HokA), (right_id_L ∅ (∪)) in HsA.
  pose proof (set_committed_mark dB HokB ∅ _ iB HiB HcB ltac:(set_solver)) as HsB. rewrite (mark_empty dB HokB), (right_id_L ∅ (∪)) in HsB.
  rewrite HsA, HsB. cbn [assert mbind outcome_bind].
  destruct (walk_agree (reference leader) fuelA fuelB {[reference leader]} [leader] []) as (sA & sB & bs & -> & ->).
  1,2: split; simpl; [set_solver|apply NoDup_singleton| |set_solver|set_solver];
    intros x ->%list_elem_of_singleton; split; [done|constructor].
  1,2: simpl; lia.
  cbn [mbind outcome_bind]. intros HA' HB'. apply bind_ret_inv in HA' as (? & _ & [= _ <-]), HB' as (? & _ & [= _ <-]). done.
Qed.

Lemma parent_blocks_agree leader : holds dA leader → holds dB leader → last_commit_round dA < round leader →
  parent_blocks dA leader = parent_blocks dB leader.
Proof.
  intros (iA & HiA & HA') (iB & HiB & HB') Hr. assert (last_commit_round dB < round leader) as HrB.
  { unfold last_commit_round in *. by rewrite <-(sh_last _ _ _ Hsame). }
  unfold parent_blocks. apply list_fmap_ext. intros j a Ha%list_elem_of_lookup_2. simpl.
  destruct (parents_known dA iA leader HokA HiA HA' Hr a Ha) as (bA & HlA & _).
  destruct (parents_known dB iB leader HokB HiB HB' HrB a Ha) as (bB & HlB & _).
  rewrite HlA, HlB. simpl. by apply (sh_blocks _ _ _ Hsame a).
Qed.

Context `{CryptoLaws} `{CommitBcsLaws} `{!CommitCodec StA} `{!CommitCodec StB}.

Lemma collect_agree fuelA fuelB leader scores : holds dA leader → holds dB leader → last_commit_round dA < round leader →
  last_commit_index dA < U32_MAX → (size (ds_recent_blocks dA) < fuelA)%nat → (size (ds_recent_blocks dB) < fuelB)%nat →
  ∃ mA mB sd commit, collect_sub_dag_and_commit fuelA dA leader scores = Ret (mA, sd, commit) ∧
    collect_sub_dag_and_commit fuelB dB leader scores = Ret (mB, sd, commit).
Proof.
  intros HhA HhB Hr Hidx HfA HfB. assert (last_commit_round dB < round leader) as HrB.
  { unfold last_commit_round in *. by rewrite <-(sh_last _ _ _ Hsame). }
  pose proof (leader_fresh dA D leader (sh_a _ _ _ Hsame) HhA Hr) as HlA.
  pose proof (leader_fresh dB D leader (sh_b _ _ _ Hsame) HhB HrB) as HlB.
  unfold collect_sub_dag_and_commit.
  destruct (linearize_agree fuelA fuelB leader (ds_last_committed_rounds dA) (ds_last_committed_rounds dB) HlA HlB HfA HfB) as (bs & -> & ->).
  cbn [mbind outcome_bind]. set (X := list_to_set (reference <$> bs)).
  pose proof HhA as (iA & HiA & HbA). pose proof HhB as (iB & HiB & HbB).
  destruct (calculate_commit_timestamp_ret (mark_committed dA X) (mark_info X (reference leader) iA) leader (last_commit_timestamp_ms dA))
    as (tA & _ & -> & HtA); [by apply dag_ok_mark|by rewrite mark_lookup, HiA|done|done|].
  destruct (calculate_commit_timestamp_ret (mark_committed dB X) (mark_info X (reference leader) iB) leader (last_commit_timestamp_ms dB))
    as (tB & _ & -> & HtB); [by apply dag_ok_mark|by rewrite mark_lookup, HiB|done|done|].
  assert (tA = tB) as <-.
  { rewrite HtA, HtB. change (ds_context (mark_committed dA X)) with (ds_context dA).
    change (ds_context (mark_committed dB X)) with (ds_context dB). rewrite (sh_config _ _ _ Hsame), (sh_committee _ _ _ Hsame).
    assert (∀ St (H : Store St) (H' : StoreLaws St) (d : DagState St), parent_blocks (mark_committed d X) leader = parent_blocks d leader) as Hpb.
    { intros St ? ? d. unfold parent_blocks. apply list_fmap_ext. intros j a _. simpl. by rewrite mark_lookup_block. }
    rewrite !Hpb, (parent_blocks_agree leader HhA HhB Hr). unfold last_commit_timestamp_ms. by rewrite (sh_last _ _ _ Hsame). }
  cbn [mbind outcome_bind]. unfold last_commit_index, last_commit_digest. rewrite (sh_last _ _ _ Hsame).
  match goal with |- context [bcs_commit ?c] => destruct (bcs_commit_total c) as [ser ->] end.
  cbn [expect mbind outcome_bind]. eauto 10.
Qed.
End walk.

Context `{CryptoLaws} `{CommitBcsLaws} `{!CommitCodec StA} `{!CommitCodec StB}.

Lemma commit_one_agree fuelA fuelB instantA instantB dA dB D leader scores : same_history dA dB D →
  holds dA leader → holds dB leader → last_commit_round dA < round leader → last_commit_index dA < U32_MAX →
  (size (ds_recent_blocks dA) < fuelA)%nat → (size (ds_recent_blocks dB) < fuelB)%nat →
  ∃ mA mB sd commit dA' dB',
    collect_sub_dag_and_commit fuelA dA leader scores = Ret (mA, sd, commit) ∧ add_commit instantA mA commit = Ret dA' ∧
    collect_sub_dag_and_commit fuelB dB leader scores = Ret (mB, sd, commit) ∧ add_commit instantB mB commit = Ret dB' ∧
    same_history dA' dB' (list_to_set (reference <$> sub_dag_blocks sd) ∪ D) ∧
    ds_last_commit dA' = Some commit ∧ commit_index commit = last_commit_index dA + 1 ∧ commit_round commit = round leader ∧
    (∀ b, holds dA b → holds dA' b) ∧ (∀ b, holds dB b → holds dB' b) ∧
    size (ds_recent_blocks dA') = size (ds_recent_blocks dA) ∧ size (ds_recent_blocks dB') = size (ds_recent_blocks dB).
Proof.
  intros Hs HhA HhB Hr Hidx HfA HfB. assert (last_commit_round dB < round leader) as HrB.
  { unfold last_commit_round in *. by rewrite <-(sh_last _ _ _ Hs). }
  assert (last_commit_index dB < U32_MAX) as HidxB.
  { unfold last_commit_index in *. by rewrite <-(sh_last _ _ _ Hs). }
  destruct (commit_one fuelA instantA dA D leader scores (sh_a _ _ _ Hs) HhA Hr Hidx HfA)
    as (mA & sd & commit & dA' & HA' & HaA & HcaA & HnA & HlA & HctxA & HholdA & HdomA & HlkA & _).
  destruct (commit_one fuelB instantB dB D leader scores (sh_b _ _ _ Hs) HhB HrB HidxB HfB)
    as (mB & sd' & commit' & dB' & HB' & HaB & HcaB & HnB & HlB & HctxB & HholdB & HdomB & HlkB & _).
  destruct (collect_agree dA dB D Hs fuelA fuelB leader scores HhA HhB Hr Hidx HfA HfB) as (mA' & mB' & sd0 & c0 & HcA & HcB).
  rewrite HcA in HA'. rewrite HcB in HB'. injection HA' as <- <- <-. injection HB' as <- <- <-.
  exists mA', mB', sd0, c0, dA', dB'. do 4 (split; [done|]). split; [|split_and!; try done].
  - split; try done; [congruence|by rewrite HctxA, HctxB; apply Hs..|]. intros r bA bB. rewrite HlkA, HlkB. apply (sh_blocks _ _ _ Hs).
  - apply HcaA.
  - change (commit_round c0) with (ref_round (commit_leader c0)). by destruct (ca_leader _ _ _ _ _ HcaA) as [_ ->].
  - by rewrite <-!size_dom, HdomA.
  - by rewrite <-!size_dom, HdomB.
Qed.

Lemma commit_loop_agree fuelA fuelB instantA instantB sc leaders : ∀ k dA dB D acc, same_history dA dB D →
  (∀ x, x ∈ leaders → holds dA x ∧ holds dB x) → StronglySorted (λ a b : VerifiedBlock, round a < round b) leaders →
  (∀ x : VerifiedBlock, x ∈ leaders → last_commit_round dA < round x) →
  last_commit_index dA + N.of_nat (length leaders) <= U32_MAX →
  (size (ds_recent_blocks dA) < fuelA)%nat → (size (ds_recent_blocks dB) < fuelB)%nat →
  ∃ dA' dB' sds D', foldM (commit_body fuelA instantA sc) (dA, acc) (zip (N.of_nat <$> seq k (length leaders)) leaders) = Ret (dA', acc ++ sds) ∧
    foldM (commit_body fuelB instantB sc) (dB, acc) (zip (N.of_nat <$> seq k (length leaders)) leaders) = Ret (dB', acc ++ sds) ∧
    same_history dA' dB' D' ∧ D' = list_to_set (delivered_refs sds) ∪ D.
Proof.
  induction leaders as [|leader leaders IH]; intros k dA dB D acc Hs Hh Hinc Hlast Hidx HfA HfB.
  { exists dA, dB, [], D. rewrite app_nil_r. split_and!; [done..|]. cbn. by rewrite (left_id_L ∅ (∪)). }
  apply StronglySorted_cons in Hinc as [Hinc Hsorted]. rewrite Forall_forall in Hinc.
  destruct (commit_one_agree fuelA fuelB instantA instantB dA dB D leader (sc (N.of_nat k)) Hs)
    as (mA & mB & sd & commit & dA1 & dB1 & HcA & HaA & HcB & HaB & Hs1 & Hl1 & Hi1 & Hr1 & HhA & HhB & HzA & HzB).
  { apply Hh. left. } { apply Hh. left. } { apply Hlast. left. } { simpl in Hidx. lia. } { done. } { done. }
  destruct (IH (S k) dA1 dB1 _ (acc ++ [sd]) Hs1) as (dA' & dB' & sds & D' & HfoldA & HfoldB & Hs' & HD').
  { intros x Hx. destruct (Hh x ltac:(by right)) as [??]. split; [by apply HhA|by apply HhB]. } { done. }
  { intros x Hx. unfold last_commit_round. rewrite Hl1. change (ref_round (commit_leader commit)) with (commit_round commit). rewrite Hr1. by apply Hinc. }
  { unfold last_commit_index at 1. rewrite Hl1, Hi1. simpl in Hidx. lia. } { lia. } { lia. }
  exists dA', dB', (sd :: sds), D'. cbn [length seq fmap list_fmap zip zip_with foldM].
  assert (commit_body fuelA instantA sc (dA, acc) (N.of_nat k, leader) = Ret (dA1, acc ++ [sd])) as ->.
  { unfold commit_body. rewrite HcA. cbn [mbind outcome_bind]. by rewrite HaA. }
  assert (commit_body fuelB instantB sc (dB, acc) (N.of_nat k, leader) = Ret (dB1, acc ++ [sd])) as ->.
  { unfold commit_body. rewrite HcB. cbn [mbind outcome_bind]. by rewrite HaB. }
  cbn [mbind outcome_bind]. rewrite HfoldA, HfoldB, <-app_assoc. split_and!; [done..|].
  rewrite HD', delivered_refs_cons, list_to_set_app_L. set_solver.
Qed.

(** C5: nodes deliver the same.  Two nodes with the same history, holding
    possibly different parts of the DAG, handle the same committed leaders: both
    calls return, both give the same list of sub-dags, with the same blocks in
    the same order, the same timestamps and the same commit references, and both
    nodes again have the same history, the new blocks included. *)
Theorem handle_commit_agreement (fuelA fuelB : nat) (instantA instantB : N) (sched : LeaderSchedule)
    (dA : DagState StA) (dB : DagState StB) (D : gset BlockRef) (leaders : list VerifiedBlock) :
  same_history dA dB D → leader_schedule_updated sched dA = leader_schedule_updated sched dB →
  (∀ x, x ∈ leaders → holds dA x ∧ holds dB x) → StronglySorted (λ a b : VerifiedBlock, round a < round b) leaders →
  (∀ x : VerifiedBlock, x ∈ leaders → last_commit_round dA < round x) →
  last_commit_index dA + N.of_nat (length leaders) <= U32_MAX →
  (size (ds_recent_blocks dA) < fuelA)%nat → (size (ds_recent_blocks dB) < fuelB)%nat →
  ∃ dA' dB' sds, handle_commit fuelA instantA sched dA leaders = Ret (dA', sds) ∧
    handle_commit fuelB instantB sched dB leaders = Ret (dB', sds) ∧
    same_history dA' dB' (list_to_set (delivered_refs sds) ∪ D).
Proof.
  intros Hs Hsu Hh Hinc Hlast Hidx HfA HfB. unfold handle_commit. case_bool_decide as Hnil.
  { exists dA, dB, []. split; [done|]. split; [done|]. cbn. by rewrite (left_id_L ∅ (∪)). }
  rewrite <-Hsu.
  set (sc := λ i : N, if leader_schedule_updated sched dA && (i =? 0) then reputation_scores_desc (leader_swap_table sched) else []).
  destruct (commit_loop_agree fuelA fuelB instantA instantB sc leaders 0 dA dB D [] Hs Hh Hinc Hlast Hidx HfA HfB)
    as (dA1 & dB1 & sds & D' & HA' & HB' & Hs1 & HD'). unfold enumerate.
  match goal with |- context [foldM ?f (dA, []) ?l] => change (foldM f (dA, []) l) with (foldM (commit_body fuelA instantA sc) (dA, []) l) end.
  match goal with |- context [foldM ?f (dB, []) ?l] => change (foldM f (dB, []) l) with (foldM (commit_body fuelB instantB sc) (dB, []) l) end.
  rewrite HA', HB'. cbn [mbind outcome_bind app].
  destruct (flush_node_inv dA1 D' (sh_a _ _ _ Hs1)) as (dA' & -> & HnA & HlA & HcA & HlkA & _).
  destruct (flush_node_inv dB1 D' (sh_b _ _ _ Hs1)) as (dB' & -> & HnB & HlB & HcB & HlkB & _).
  cbn [mbind outcome_bind]. exists dA', dB', sds. split; [done|]. split; [done|]. rewrite <-HD'.
  split; try done; [by rewrite HlA, HlB; apply Hs1|by rewrite HcA, HcB; apply Hs1..|].
  intros r bA bB. rewrite HlkA, HlkB. apply (sh_blocks _ _ _ Hs1).
Qed.
End agree.

Lemma handle_commit_agreement_witness :
  ∃ dA' dB' sds, test_handle_commit test_state_a = Ret (dA', sds) ∧ test_handle_commit test_state_b = Ret (dB', sds) ∧
    length (delivered_refs sds) = 13%nat.
Proof.
  destruct (handle_commit_agreement (H1 := test_crypto) (H3 := test_bcs) 50 50 0 0
    (LeaderSchedule_new (test_context 60) LeaderSwapTable_default) test_state_a test_state_b ∅ test_leaders) as (dA' & dB' & sds & HA' & HB' & _).
  - destruct (test_state_ok (test_blocks 6)) as (_ & HcA & HlA).
    destruct (test_state_ok (test_blocks 4 ++ [test_equivocation])) as (_ & HcB & HlB).
    split; [apply test_node_inv; vm_compute; reflexivity|apply test_node_inv; vm_compute; reflexivity|
      exact (eq_trans HlA (eq_sym HlB))|exact (f_equal committee (eq_trans HcA (eq_sym HcB)))|
      exact (f_equal protocol_config (eq_trans HcA (eq_sym HcB)))|apply test_states_agree; vm_compute; reflexivity].
  - vm_compute. reflexivity.
  - intros x Hx. split; (apply test_leaders_held; [vm_compute; reflexivity|exact Hx]).
  - apply (test_leaders_rounds (test_blocks 6)).
  - apply (test_leaders_rounds (test_blocks 6)).
  - apply N.leb_le. vm_compute. reflexivity.
  - apply Nat.ltb_lt. vm_compute. reflexivity.
  - apply Nat.ltb_lt. vm_compute. reflexivity.
  - exists dA', dB', sds. split; [exact HA'|]. split; [exact HB'|].
    assert (match test_handle_commit test_state_a with Ret (_, s) => length (delivered_refs s) | Panic _ => 0%nat end = 13%nat) as Hlen
      by (vm_compute; reflexivity).
    unfold test_handle_commit in Hlen. rewrite HA' in Hlen. exact Hlen.
Defined.
