(* ===== verification/Agreement.v ===== *)
(** * Agreement: two nodes never decide differently

    The safety theorem of the commit rule, for nodes described by the invariant
    of their DAG state and for the committers that the builder makes.  The
    interfaces are discharged here: [dag_ok] provides the committer's view of
    the DAG, and the laws of the random generator with a usable swap table
    provide the election of leaders. *)
From S2P Require Import Prelude Committee Block StakeAggregator Commit Error BlockVerifier Store MemStore.
From S2P Require Import ScoringMetrics LeaderScoring DagState LeaderSchedule Election BaseCommitter.
From S2P Require Import UniversalCommitter CommitRule CommitterSpec Safety DagInv DagOps TestDag.
Local Open Scope N_scope.
Local Open Scope rust_scope.

(** A leader schedule that always finds a leader. *)
Record schedule_ok (c : Committee) (sched : LeaderSchedule) : Prop := {
  so_committee : committee (ls_context sched) = c;
  so_committee_ok : committee_ok c;
  so_stakes a : a ∈ authorities_vec c → 0 < stake a;
  so_table : swap_table_ok c (leader_swap_table sched);
}.

(** The committers of a builder with one leader per round. *)
Lemma build_options pipeline committers o : build (mk_builder DEFAULT_WAVE_LENGTH 1 pipeline) = Ret committers →
  o ∈ committers → wave_length o = 3 ∧ leader_offset o = 0.
Proof.
  intros Hb. destruct pipeline; vm_compute in Hb; injection Hb as <-; rewrite ?elem_of_cons, elem_of_nil;
    intuition (subst; done).
Qed.

Lemma schedule_election `{RngLaws} c sched pipeline committers : schedule_ok c sched →
  build (mk_builder DEFAULT_WAVE_LENGTH 1 pipeline) = Ret committers →
  election c committers sched (λ o r, match committer_elect_leader o sched r with Ret x => x | Panic _ => None end).
Proof.
  intros [<- Hc Hpos Ht] Hb.
  assert (∀ o r, o ∈ committers → ∃ x, committer_elect_leader o sched r = Ret x ∧
    ∀ s, x = Some s → is_valid_index (committee (ls_context sched)) (slot_authority s)) as Hret.
  { intros o r Ho. destruct (build_options _ _ o Hb Ho) as [_ Hoff]. unfold committer_elect_leader.
    destruct (negb _); [by eexists|]. rewrite Hoff.
    destruct (elect_leader_ret sched r Hc Hpos Ht) as (a & -> & Ha). cbn. eexists. split; [done|]. by intros s [= <-]. }
  split.
  - intros o Ho. by eapply build_options.
  - intros o r Ho. by destruct (Hret o r Ho) as (x & -> & _).
  - intros o r s Ho. destruct (Hret o r Ho) as (x & -> & Hx). apply Hx.
Qed.

(** A node: its state satisfies the invariant, the blocks it has above its last
    commit are blocks of the universe, it has committed nothing past the last
    decided leader, and the traversal bound exceeds the number of cached
    blocks. *)
Record honest_node {St : Type} `{StoreLaws St} (c : Committee) (U : gmap BlockRef VerifiedBlock) (last : Slot)
    (d : DagState St) (fuel : nat) : Prop := {
  hn_ok : dag_ok d;
  hn_committee : committee (ds_context d) = c;
  hn_universe r i : ds_recent_blocks d !! r = Some i → last_commit_round d < ref_round r → U !! r = Some (bi_block i);
  hn_last : last_commit_round d <= slot_round last;
  hn_highest : ds_highest_accepted_round d < U32_MAX;
  hn_fuel : (size (ds_recent_blocks d) < fuel)%nat;
}.

Lemma honest_node_ok {St} `{StoreLaws St} c U last (d : DagState St) fuel : honest_node c U last d fuel →
  node_ok c U last d (view_above (last_commit_round d) (ds_recent_blocks d)) (last_commit_round d) fuel.
Proof.
  intros [Hok Hc HU Hl Hh Hf]. split; try done.
  - by apply dag_ok_view.
  - apply map_subseteq_spec. intros r b (i & Hi & <- & Hr)%view_above_Some. apply HU; [done|].
    by destruct (ok_recent _ Hok _ _ Hi) as (<- & _).
  - assert (dom (view_above (last_commit_round d) (ds_recent_blocks d)) ⊆ dom (ds_recent_blocks d)) as Hsub.
    { intros r [b (i & Hi & _)%view_above_Some]%elem_of_dom. by apply elem_of_dom_2 in Hi. }
    apply subseteq_size in Hsub. rewrite !size_dom in Hsub. lia.
Qed.

(** C4: agreement.  In a committee whose Byzantine stake is below the validity
    threshold, let two nodes, each with its own state that satisfies the
    invariant and blocks of the same universe, run [try_decide] from the same
    last decided leader with the committers of the builder and the same leader
    schedule.  Both runs return, and one of the two sequences of decided leaders
    (commits with their blocks, and skips) is a prefix of the other. *)
Theorem try_decide_agreement {StA StB : Type} `{StoreLaws StA} `{StoreLaws StB} `{RngLaws}
    (c : Committee) (byz : gset AuthorityIndex) (U : gmap BlockRef VerifiedBlock)
    (pipeline : bool) (committers : list BaseCommitterOptions) (sched : LeaderSchedule) (last : Slot)
    (dA : DagState StA) (fuelA : nat) (dB : DagState StB) (fuelB : nat) :
  universe_ok c byz U → schedule_ok c sched →
  build (mk_builder DEFAULT_WAVE_LENGTH 1 pipeline) = Ret committers → slot_round last < U32_MAX →
  honest_node c U last dA fuelA → honest_node c U last dB fuelB →
  ∃ decidedA decidedB,
    try_decide fuelA committers sched dA last = Ret decidedA ∧
    try_decide fuelB committers sched dB last = Ret decidedB ∧
    (decidedA `prefix_of` decidedB ∨ decidedB `prefix_of` decidedA).
Proof.
  intros HU Hs Hb Hlast HA%honest_node_ok HB%honest_node_ok. pose proof (schedule_election c sched _ _ Hs Hb) as Hel.
  destruct (node_decides c byz U last dA _ _ fuelA committers sched _ HU Hlast Hel HA) as (n & stsA & HdA & ->).
  destruct (node_decides c byz U last dB _ _ fuelB committers sched _ HU Hlast Hel HB) as (m & stsB & HdB & ->).
  eexists _, _. split; [done|]. split; [done|]. apply prefix_decided_agree. intros i a b.
  eapply (statuses_agree c byz U HU); [done..|apply slots_from_agree|reflexivity].
Qed.

Definition test_schedule : LeaderSchedule := LeaderSchedule_new (test_context 60) LeaderSwapTable_default.

Lemma test_schedule_ok : schedule_ok (test_committee [1; 1; 1; 1]) test_schedule.
Proof.
  split; [done|apply test_committee_ok| |apply swap_table_ok_default].
  assert (forallb (λ a, 0 <? stake a) (authorities_vec (test_committee [1; 1; 1; 1])) = true) as Hs by reflexivity.
  rewrite forallb_forall in Hs. intros a Ha%list_elem_of_In. by apply N.ltb_lt, Hs.
Qed.

Lemma test_state_honest bs :
  forallb (λ kv : BlockRef * BlockInfo, bool_decide (test_universe !! kv.1 = Some (bi_block kv.2)))
    (map_to_list (ds_recent_blocks (test_state bs))) = true →
  (ds_highest_accepted_round (test_state bs) <? U32_MAX) = true → (size (ds_recent_blocks (test_state bs)) <? 50)%nat = true →
  honest_node (test_committee [1; 1; 1; 1]) test_universe (mk_slot 0 0) (test_state bs) 50.
Proof.
  intros Hu Hh Hf. destruct (test_state_ok bs) as (Hok & Hc & Hl). split.
  - done.
  - by rewrite Hc.
  - intros r i Hi _. rewrite forallb_forall in Hu. specialize (Hu (r, i)).
    rewrite <-list_elem_of_In, elem_of_map_to_list, bool_decide_eq_true in Hu. by apply Hu.
  - unfold last_commit_round. rewrite Hl. simpl. lia.
  - by apply N.ltb_lt.
  - by apply Nat.ltb_lt.
Qed.

Lemma try_decide_agreement_witness :
  ∃ committers decidedA decidedB,
    build (mk_builder DEFAULT_WAVE_LENGTH 1 true) = Ret committers ∧
    try_decide (H0 := test_rng) 50 committers test_schedule test_state_a (mk_slot 0 0) = Ret decidedA ∧
    try_decide (H0 := test_rng) 50 committers test_schedule test_state_b (mk_slot 0 0) = Ret decidedB ∧
    length decidedA = 4%nat ∧ length decidedB = 2%nat ∧ decidedB `prefix_of` decidedA.
Proof.
  destruct (build (mk_builder DEFAULT_WAVE_LENGTH 1 true)) as [committers|] eqn:Hb; [|done].
  destruct (try_decide_agreement (H3 := test_rng) (test_committee [1; 1; 1; 1]) {[3]} test_universe true committers test_schedule
    (mk_slot 0 0) test_state_a 50 test_state_b 50) as (decidedA & decidedB & HA & HB & Hpre).
  - apply test_universe_ok.
  - apply test_schedule_ok.
  - exact Hb.
  - done.
  - apply test_state_honest; vm_compute; reflexivity.
  - apply test_state_honest; vm_compute; reflexivity.
  - exists committers, decidedA, decidedB. split; [done|]. split; [exact HA|]. split; [exact HB|].
    injection Hb as <-. vm_compute in HA, HB. injection HA as <-. injection HB as <-.
    split; [reflexivity|]. split; [reflexivity|]. destruct Hpre as [Hpre|Hpre]; [|exact Hpre].
    apply prefix_length in Hpre. simpl in Hpre. lia.
Defined.
