(* ===== verification/Core.v ===== *)
(** * Core: accepting, proposing and committing

    Models [consensus/core/src/core.rs] with its signals, and the signing of a
    block in [block.rs].  A [Core] owns the DAG state, the block manager, the
    transaction consumer, the leader schedule and the sender of the commit
    observer, which the code shares behind locks; every operation threads it.
    The keypair is the class [Signer].  The readings of the clocks during one
    operation are the record [Times].  [fuel] bounds the graph traversals as in
    the committer and the linearizer, [rounds] the loop of [try_commit]. *)
From S2P Require Import Prelude Committee Block StakeAggregator ThresholdClock Commit Error BlockVerifier Store.
From S2P Require Import ScoringMetrics LeaderScoring DagState LeaderSchedule Linearizer BaseCommitter UniversalCommitter.
From S2P Require Import BlockManager QuorumRounds Ancestor Transactions CommitObserver.
Local Open Scope N_scope.
Local Open Scope rust_scope.

Definition MAX_COMMIT_VOTES_PER_BLOCK : N := 100.

(** ** Signing *)

(** [ProtocolKeyPair::sign], as the bytes of the signature. *)
Class Signer := { protocol_sign : bytes → bytes }.

Definition compute_block_signature `{Crypto} `{Signer} (b : Block) : ConsensusResult bytes :=
  match compute_inner_block_digest b with
  | Err e => Err e
  | Ok d =>
    match bcs_block_intent d with
    | None => Err SerializationFailure
    | Some message => Ok (protocol_sign message)
    end
  end.

Definition SignedBlock_new `{Crypto} `{Signer} (b : Block) : ConsensusResult SignedBlock :=
  match compute_block_signature b with
  | Err e => Err e
  | Ok s => Ok (mk_signed b s)
  end.

(** ** Signals *)

Record ExtendedBlock := mk_extended {
  eb_block : VerifiedBlock;
  eb_excluded_ancestors : list BlockRef;
}.

(** What was broadcast, whether anybody listens, and the watched round. *)
Record CoreSignals := mk_signals {
  sg_block_broadcast : list ExtendedBlock;
  sg_has_receivers : bool;
  sg_new_round : Round;
}.

Definition CoreSignals_new (has_receivers : bool) : CoreSignals := mk_signals [] has_receivers 0.

Definition signal_new_block (c : Committee) (s : CoreSignals) (b : ExtendedBlock) : CoreSignals * ConsensusResult unit :=
  if 1 <? committee_size c then
    if round (eb_block b) =? GENESIS_ROUND then (s, Ok tt)
    else if sg_has_receivers s
    then (mk_signals (sg_block_broadcast s ++ [b]) (sg_has_receivers s) (sg_new_round s), Ok tt)
    else (s, Err Shutdown)
  else (s, Ok tt).

Definition signal_new_round (s : CoreSignals) (r : Round) : CoreSignals :=
  mk_signals (sg_block_broadcast s) (sg_has_receivers s) r.

(** ** State *)

Record Core (St : Type) := mk_core {
  co_context : Context;
  co_transaction_consumer : TransactionConsumer;
  co_block_manager : BlockManager;
  co_quorum_subscribers_exists : bool;
  co_propagation_delay : Round;
  co_committers : list BaseCommitterOptions;
  co_last_signaled_round : Round;
  co_last_included_ancestors : list (option BlockRef);
  co_last_decided_leader : Slot;
  co_leader_schedule : LeaderSchedule;
  co_commit_sender : CommitSender;
  co_signals : CoreSignals;
  co_dag_state : DagState St;
  co_last_known_proposed_round : option Round;
  co_ancestor_state_manager : AncestorStateManager;
  (* what was sent to the submitters of transactions *)
  co_tx_events : list tx_event;
}.
Arguments mk_core {St}.
Arguments co_context {St}. Arguments co_transaction_consumer {St}. Arguments co_block_manager {St}.
Arguments co_quorum_subscribers_exists {St}. Arguments co_propagation_delay {St}. Arguments co_committers {St}.
Arguments co_last_signaled_round {St}. Arguments co_last_included_ancestors {St}. Arguments co_last_decided_leader {St}.
Arguments co_leader_schedule {St}. Arguments co_commit_sender {St}. Arguments co_signals {St}. Arguments co_dag_state {St}.
Arguments co_last_known_proposed_round {St}. Arguments co_ancestor_state_manager {St}. Arguments co_tx_events {St}.

Record Times := mk_times {
  t_delay : N;     (* the UTC time the minimum round delay is checked against *)
  t_now : N;       (* the UTC time of a proposal *)
  t_accept : N;    (* the UTC time when a block is accepted *)
  t_instant : N;   (* the monotonic clock *)
}.

Section setters.
Context {St : Type}.
Implicit Type k : Core St.

Definition set_dag k (m : BlockManager) (d : DagState St) : Core St :=
  mk_core (co_context k) (co_transaction_consumer k) m (co_quorum_subscribers_exists k) (co_propagation_delay k) (co_committers k)
    (co_last_signaled_round k) (co_last_included_ancestors k) (co_last_decided_leader k) (co_leader_schedule k) (co_commit_sender k)
    (co_signals k) d (co_last_known_proposed_round k) (co_ancestor_state_manager k) (co_tx_events k).
Definition set_consumer k (t : TransactionConsumer) (evs : list tx_event) : Core St :=
  mk_core (co_context k) t (co_block_manager k) (co_quorum_subscribers_exists k) (co_propagation_delay k) (co_committers k)
    (co_last_signaled_round k) (co_last_included_ancestors k) (co_last_decided_leader k) (co_leader_schedule k) (co_commit_sender k)
    (co_signals k) (co_dag_state k) (co_last_known_proposed_round k) (co_ancestor_state_manager k) evs.
Definition set_ancestors k (included : list (option BlockRef)) (a : AncestorStateManager) : Core St :=
  mk_core (co_context k) (co_transaction_consumer k) (co_block_manager k) (co_quorum_subscribers_exists k) (co_propagation_delay k)
    (co_committers k) (co_last_signaled_round k) included (co_last_decided_leader k) (co_leader_schedule k) (co_commit_sender k)
    (co_signals k) (co_dag_state k) (co_last_known_proposed_round k) a (co_tx_events k).
Definition set_schedule k (s : LeaderSchedule) (d : DagState St) (a : AncestorStateManager) : Core St :=
  mk_core (co_context k) (co_transaction_consumer k) (co_block_manager k) (co_quorum_subscribers_exists k) (co_propagation_delay k)
    (co_committers k) (co_last_signaled_round k) (co_last_included_ancestors k) (co_last_decided_leader k) s (co_commit_sender k)
    (co_signals k) d (co_last_known_proposed_round k) a (co_tx_events k).
Definition set_decided k (s : Slot) : Core St :=
  mk_core (co_context k) (co_transaction_consumer k) (co_block_manager k) (co_quorum_subscribers_exists k) (co_propagation_delay k)
    (co_committers k) (co_last_signaled_round k) (co_last_included_ancestors k) s (co_leader_schedule k) (co_commit_sender k)
    (co_signals k) (co_dag_state k) (co_last_known_proposed_round k) (co_ancestor_state_manager k) (co_tx_events k).
Definition set_sender k (s : CommitSender) (d : DagState St) : Core St :=
  mk_core (co_context k) (co_transaction_consumer k) (co_block_manager k) (co_quorum_subscribers_exists k) (co_propagation_delay k)
    (co_committers k) (co_last_signaled_round k) (co_last_included_ancestors k) (co_last_decided_leader k) (co_leader_schedule k) s
    (co_signals k) d (co_last_known_proposed_round k) (co_ancestor_state_manager k) (co_tx_events k).
Definition set_signals k (s : CoreSignals) (signaled : Round) : Core St :=
  mk_core (co_context k) (co_transaction_consumer k) (co_block_manager k) (co_quorum_subscribers_exists k) (co_propagation_delay k)
    (co_committers k) signaled (co_last_included_ancestors k) (co_last_decided_leader k) (co_leader_schedule k) (co_commit_sender k)
    s (co_dag_state k) (co_last_known_proposed_round k) (co_ancestor_state_manager k) (co_tx_events k).

Definition set_quorum_subscribers_exists k (exists_ : bool) : Core St :=
  mk_core (co_context k) (co_transaction_consumer k) (co_block_manager k) exists_ (co_propagation_delay k) (co_committers k)
    (co_last_signaled_round k) (co_last_included_ancestors k) (co_last_decided_leader k) (co_leader_schedule k) (co_commit_sender k)
    (co_signals k) (co_dag_state k) (co_last_known_proposed_round k) (co_ancestor_state_manager k) (co_tx_events k).

Definition set_propagation_delay_and_quorum_rounds k (delay : Round) (received accepted : list QuorumRound) : Core St :=
  mk_core (co_context k) (co_transaction_consumer k) (co_block_manager k) (co_quorum_subscribers_exists k) delay (co_committers k)
    (co_last_signaled_round k) (co_last_included_ancestors k) (co_last_decided_leader k) (co_leader_schedule k) (co_commit_sender k)
    (co_signals k) (co_dag_state k) (co_last_known_proposed_round k)
    (set_quorum_rounds_per_authority (co_ancestor_state_manager k) received accepted) (co_tx_events k).

Definition set_last_known_proposed_round k (r : Round) : outcome (Core St) :=
  match co_last_known_proposed_round k with
  | Some _ => Panic "Should not attempt to set the last known proposed round if that has been already set"
  | None =>
    Ret (mk_core (co_context k) (co_transaction_consumer k) (co_block_manager k) (co_quorum_subscribers_exists k)
          (co_propagation_delay k) (co_committers k) (co_last_signaled_round k) (co_last_included_ancestors k)
          (co_last_decided_leader k) (co_leader_schedule k) (co_commit_sender k) (co_signals k) (co_dag_state k) (Some r)
          (co_ancestor_state_manager k) (co_tx_events k))
  end.

Definition threshold_clock_round k : Round := clock_round (ds_threshold_clock (co_dag_state k)).

(** [should_propose]; the reasons only differ in a counter. *)
Definition should_propose k : bool :=
  if negb (co_quorum_subscribers_exists k) then false
  else if propagation_delay_stop_proposal_threshold (co_context k) <? co_propagation_delay k then false
  else match co_last_known_proposed_round k with
  | None => false
  | Some last_known_proposed_round => negb (threshold_clock_round k <=? last_known_proposed_round)
  end.

Definition try_signal_new_round k : Core St :=
  let new_clock_round := threshold_clock_round k in
  if new_clock_round <=? co_last_signaled_round k then k
  else set_signals k (signal_new_round (co_signals k) new_clock_round) new_clock_round.
End setters.

Section core.
Context {St : Type} `{Store St} `{Rng} `{Crypto} `{CommitBcs} `{Signer} (fuel : nat).
Implicit Type k : Core St.

(** ** Leaders *)

Definition leaders k (r : Round) : outcome (list Slot) :=
  l ← get_leaders (co_committers k) (co_leader_schedule k) r;
  Ret ((λ a, mk_slot r a) <$> (l : list AuthorityIndex)).

Definition first_leader k (r : Round) : outcome AuthorityIndex :=
  l ← leaders k r;
  s ← expect (head (l : list Slot)) "unwrap";
  Ret (slot_authority s).

Fixpoint all_at_slots (d : DagState St) (slots : list Slot) : outcome bool :=
  match slots with
  | [] => Ret true
  | s :: slots =>
    found ← contains_cached_block_at_slot d s;
    if (found : bool) then all_at_slots d slots else Ret false
  end.

Definition leaders_exist k (r : Round) : outcome bool :=
  l ← leaders k r; all_at_slots (co_dag_state k) l.

(** ** Ancestors of a proposal *)

(** [quorum.add(..)] for the blocks of a round. *)
Definition add_parents (c : Committee) (r : Round) (agg : StakeAggregator QuorumThreshold) (bs : list VerifiedBlock)
    : outcome (StakeAggregator QuorumThreshold) :=
  foldM (λ agg (b : VerifiedBlock), '(agg, _) ← add agg (author b) c; Ret agg) agg (filter (λ b : VerifiedBlock, round b = r) bs).

(** [flat_map] with the watermark of the last included ancestors. *)
Definition not_included (included : list (option BlockRef)) (b : VerifiedBlock) : outcome bool :=
  last ← vec_index included (author b);
  Ret (match last : option BlockRef with Some r => ref_round r <? round b | None => true end).

(** The latest blocks of the other authorities, above the garbage collection
    round once there is one. *)
Definition candidates (d : DagState St) (own : AuthorityIndex) (cached : list VerifiedBlock) : list VerifiedBlock :=
  filter (λ b : VerifiedBlock, gc_enabled d && (GENESIS_ROUND <? gc_round d) = true → gc_round d < round b)
    (filter (λ b : VerifiedBlock, author b ≠ own) cached).

Definition ancestors_to_propose k (clock_round : Round) : outcome (list VerifiedBlock) :=
  let d := co_dag_state k in
  let c := committee (co_context k) in
  let own := own_index (co_context k) in
  entries ← get_last_cached_block_per_authority d clock_round;
  let cached : list VerifiedBlock := fst <$> (entries : list (VerifiedBlock * list BlockRef)) in
  _ ← assert (N.of_nat (length cached) =? committee_size c)
        "Fatal error, number of returned ancestors don't match committee size.";
  last_proposed_block ← vec_index cached own;
  _ ← assert (author last_proposed_block =? own) "assertion failed: last_proposed_block.author()";
  others ← filterM (not_included (co_last_included_ancestors k)) (candidates d own cached);
  quorum ← add_parents c (clock_round -32 1) StakeAggregator_new (last_proposed_block :: others);
  _ ← assert (reached_threshold quorum c) "Fatal error, quorum not reached for parent round when proposing.";
  Ret (last_proposed_block :: others).

(** The first pass of the smart selection over the latest blocks. *)
Record selection := mk_selection {
  se_included : list VerifiedBlock;
  se_pending : list (N * VerifiedBlock);
  se_excluded : gset BlockRef;
}.

Definition select_ancestor (own : AuthorityIndex) (included : list (option BlockRef)) (states : list AncestorState)
    (s : selection) '((ancestor, equivocating) : VerifiedBlock * list BlockRef) : outcome selection :=
  if author ancestor =? own then Ret s
  else
    fresh ← not_included included ancestor;
    if negb fresh then Ret s
    else
      let excluded : gset BlockRef := list_to_set equivocating ∪ se_excluded s in
      state ← vec_index states (author ancestor);
      Ret (match state : AncestorState with
           | AsInclude => mk_selection (se_included s ++ [ancestor]) (se_pending s) excluded
           | AsExclude score => mk_selection (se_included s) (se_pending s ++ [(score, ancestor)]) excluded
           end).

(** [sort_by(|a, b| b.0.cmp(&a.0))]. *)
Definition pending_desc (a b : N * VerifiedBlock) : bool := b.1 <=? a.1.

(** The second pass fills the quorum of parents with the best excluded ones. *)
Definition fill_quorum (c : Committee) (quorum_round : Round)
    '((agg, to_propose, excluded) : StakeAggregator QuorumThreshold * list VerifiedBlock * list (N * VerifiedBlock))
    (x : N * VerifiedBlock) : outcome (StakeAggregator QuorumThreshold * list VerifiedBlock * list (N * VerifiedBlock)) :=
  _ ← authority c (author x.2);
  if negb (reached_threshold agg c) && (round x.2 =? quorum_round) then
    '(agg, _) ← add agg (author x.2) c;
    Ret (agg, to_propose ++ [x.2], excluded)
  else Ret (agg, to_propose, excluded ++ [x]).

Record inclusion := mk_inclusion {
  in_last_included : list (option BlockRef);
  in_to_propose : list VerifiedBlock;
  in_excluded : gset BlockRef;
}.

Definition include_block (s : inclusion) (a : AuthorityIndex) (b : VerifiedBlock) : outcome inclusion :=
  included ← vec_set (in_last_included s) a (Some (reference b));
  Ret (mk_inclusion included (in_to_propose s ++ [b]) (in_excluded s)).

Definition exclude_block (s : inclusion) (b : VerifiedBlock) : inclusion :=
  mk_inclusion (in_last_included s) (in_to_propose s) ({[reference b]} ∪ in_excluded s).

(** The third pass includes what a quorum of the network has accepted. *)
Definition include_accepted (c : Committee) (d : DagState St) (accepted : list QuorumRound) (quorum_round : Round)
    (s : inclusion) (x : N * VerifiedBlock) : outcome inclusion :=
  let ancestor := x.2 in
  _ ← authority c (author ancestor);
  q ← vec_index accepted (author ancestor);
  let accepted_low_quorum_round := N.min (fst (q : QuorumRound)) quorum_round in
  last ← vec_index (in_last_included s) (author ancestor);
  let last_included_round := match last : option BlockRef with Some r => ref_round r | None => GENESIS_ROUND end in
  if round ancestor <=? last_included_round then Ret s
  else if accepted_low_quorum_round <=? last_included_round then Ret (exclude_block s ancestor)
  else if round ancestor <=? accepted_low_quorum_round then include_block s (author ancestor) ancestor
  else
    earlier ← get_last_cached_block_in_range d (author ancestor) (last_included_round +32 1) (accepted_low_quorum_round +32 1);
    match earlier : option VerifiedBlock with
    | None => Ret (exclude_block s ancestor)
    | Some b => include_block (exclude_block s ancestor) (author ancestor) b
    end.

Definition smart_ancestors_to_propose k (clock_round : Round) (smart_select : bool)
    : outcome (Core St * list VerifiedBlock * gset BlockRef) :=
  let d := co_dag_state k in
  let c := committee (co_context k) in
  entries ← get_last_cached_block_per_authority d clock_round;
  _ ← assert (N.of_nat (length (entries : list (VerifiedBlock * list BlockRef))) =? committee_size c)
        "Fatal error, number of returned ancestors don't match committee size.";
  asm ← update_all_ancestors_state (co_ancestor_state_manager k);
  let quorum_round := clock_round - 1 in
  last_proposed_block ← get_last_proposed_block d;
  sel ← foldM (select_ancestor (own_index (co_context k)) (co_last_included_ancestors k) (get_ancestor_states asm))
          (mk_selection [last_proposed_block] [] ∅) entries;
  quorum ← add_parents c quorum_round StakeAggregator_new (se_included sel);
  if smart_select && negb (reached_threshold quorum c)
  then Ret (set_ancestors k (co_last_included_ancestors k) asm, [], ∅)
  else
    '(quorum, to_propose, excluded) ←
      foldM (fill_quorum c quorum_round) (quorum, se_included sel, []) (stable_sort pending_desc (se_pending sel));
    inc ← foldM (include_accepted c d (am_accepted_quorum_round_per_authority asm) quorum_round)
            (mk_inclusion (co_last_included_ancestors k) to_propose (se_excluded sel)) excluded;
    _ ← assert (reached_threshold quorum c) "Fatal error, quorum not reached for parent round when proposing.";
    Ret (set_ancestors k (in_last_included inc) asm, in_to_propose inc, in_excluded inc).

(** ** Proposing *)

(** [None] when the leader of the last round is missing or it is too early. *)
Definition ready_to_propose k (t : Times) (quorum_round : Round) : outcome bool :=
  found ← leaders_exist k quorum_round;
  if negb found then Ret false
  else
    last ← get_last_proposed_block (co_dag_state k);
    Ret (negb (t_delay t - timestamp_ms (last : VerifiedBlock) <? min_round_delay (co_context k))).

(** The ancestors of the proposal and those left out; [None] to wait longer. *)
Definition choose_ancestors k (clock_round : Round) (force : bool)
    : outcome (Core St * option (list VerifiedBlock * list BlockRef)) :=
  let cfg := protocol_config (co_context k) in
  if consensus_distributed_vote_scoring_strategy cfg && consensus_smart_ancestor_selection cfg then
    '(k, ancestors, excluded) ← smart_ancestors_to_propose k clock_round (negb force);
    if bool_decide (ancestors = []) then
      _ ← assert (negb force) "Ancestors should have been returned if force is true!";
      Ret (k, None)
    else
      let limit := (N.to_nat (committee_size (committee (co_context k))) * 2)%nat in
      Ret (k, Some (ancestors, take limit (btree_iter excluded)))
  else
    ancestors ← ancestors_to_propose k clock_round;
    Ret (k, Some (ancestors, [])).

Definition mark_included (included : list (option BlockRef)) (bs : list VerifiedBlock) : outcome (list (option BlockRef)) :=
  foldM (λ included (b : VerifiedBlock), vec_set included (author b) (Some (reference b))) included bs.

Definition check_ancestor_timestamp (ctx : Context) (now : N) (b : VerifiedBlock) : outcome unit :=
  if consensus_median_timestamp_with_checkpoint_enforcement (protocol_config ctx) then
    if now <? timestamp_ms b then _ ← authority (committee ctx) (author b); Ret tt else Ret tt
  else assert (timestamp_ms b <=? now) "Violation: ancestor block has timestamp greater than current timestamp.".

Definition make_block k (clock_round : Round) (now : N) (ancestors : list VerifiedBlock) (txs : list Transaction)
    (votes : list CommitVote) : outcome VerifiedBlock :=
  let block := V1 (mk_block_v1 (committee_epoch (committee (co_context k))) clock_round (own_index (co_context k)) now
                     (reference <$> ancestors) txs votes []) in
  signed_block ← unwrap (SignedBlock_new block) "Block signing failed.";
  serialized ← expect (bcs_signed_block signed_block) "Block serialization failed.";
  Ret (new_verified signed_block serialized).

(** The chosen ancestors are recorded and checked. *)
Definition prepare_proposal k (t : Times) (clock_round : Round) (ancestors : list VerifiedBlock) : outcome (Core St) :=
  let c := committee (co_context k) in
  included ← mark_included (co_last_included_ancestors k) ancestors;
  let k := set_ancestors k included (co_ancestor_state_manager k) in
  leader ← first_leader k (clock_round - 1);
  _ ← authority c leader;
  _ ← mapM (λ b : VerifiedBlock, authority c (author b)) ancestors;
  _ ← mapM (check_ancestor_timestamp (co_context k) (t_now t)) ancestors;
  Ret k.

(** The rest of [try_new_block] once the ancestors are known. *)
Definition propose_block k (t : Times) (clock_round : Round) (ancestors : list VerifiedBlock) (excluded : list BlockRef)
    : outcome (Core St * ExtendedBlock) :=
  k ← prepare_proposal k t clock_round ancestors;
  let '(consumer, txs, acks, _) := next (co_transaction_consumer k) in
  let '(d, votes) := take_commit_votes (co_dag_state k) MAX_COMMIT_VOTES_PER_BLOCK in
  b ← make_block k clock_round (t_now t) ancestors txs votes;
  _ ← get_last_proposed_block d;
  '(m, d, accepted, missing) ← try_accept_blocks (t_accept t) (t_instant t) (co_block_manager k) d [b];
  _ ← assert (bool_decide (length (accepted : list VerifiedBlock) = 1%nat)) "assertion failed: accepted_blocks.len() == 1";
  _ ← assert (bool_decide (missing = ∅)) "assertion failed: missing.is_empty()";
  d ← flush d;
  let '(consumer, evs) := acknowledge consumer acks (reference b) in
  Ret (set_consumer (set_dag k m d) consumer (co_tx_events k ++ evs), mk_extended b excluded).

Definition try_new_block k (t : Times) (force : bool) : outcome (Core St * option ExtendedBlock) :=
  let clock_round := threshold_clock_round k in
  last ← get_last_proposed_block (co_dag_state k);
  if clock_round <=? round (last : VerifiedBlock) then Ret (k, None)
  else
    ready ← (if force then Ret true else ready_to_propose k t (clock_round - 1));
    if negb ready then Ret (k, None)
    else
      '(k, chosen) ← choose_ancestors k clock_round force;
      match chosen : option (list VerifiedBlock * list BlockRef) with
      | None => Ret (k, None)
      | Some (ancestors, excluded) =>
        '(k, b) ← propose_block k t clock_round ancestors excluded;
        Ret (k, Some b)
      end.

(** ** Committing *)

(** The body of [if commits_until_update == 0]. *)
Definition change_schedule k : outcome (Core St) :=
  if consensus_distributed_vote_scoring_strategy (protocol_config (co_context k)) then
    '(s, d) ← update_leader_schedule_v2 (co_leader_schedule k) (co_dag_state k);
    Ret (set_schedule k s d
           (set_propagation_scores (co_ancestor_state_manager k) (swap_reputation_scores (leader_swap_table s))))
  else
    '(s, d) ← update_leader_schedule_v1 (co_leader_schedule k) (co_dag_state k);
    Ret (set_schedule k s d (co_ancestor_state_manager k)).

Definition prepare_schedule k : outcome (Core St * N) :=
  n ← commits_until_leader_schedule_update (co_leader_schedule k) (co_dag_state k);
  '(k, n) ← (if n =? 0 then
               k ← change_schedule k;
               n ← commits_until_leader_schedule_update (co_leader_schedule k) (co_dag_state k);
               Ret (k, n)
             else Ret (k, n));
  _ ← assert (0 <? n) "assertion failed: commits_until_update > 0";
  Ret (k, n).

Definition certified_leader (c : Committee) (commit : CertifiedCommit) : outcome (DecidedLeader * CertifiedCommit) :=
  leader ← expect (last (certified_blocks commit)) "Certified commit should have at least one block";
  _ ← assert (bool_decide (reference leader = commit_leader commit))
        "Last block of the committed sub dag should have the same digest as the leader of the commit";
  _ ← authority c (author leader);
  Ret (DlCommit leader, commit).

(** The leaders to commit, and the certified commits that remain. *)
Definition try_decide_certified k (certified_commits : list CertifiedCommit) (limit : N)
    : outcome (list (DecidedLeader * CertifiedCommit) * list CertifiedCommit) :=
  if negb (gc_enabled (co_dag_state k)) then Ret ([], certified_commits)
  else
    _ ← assert (0 <? limit) "limit should be greater than 0";
    let '(to_commit, rest) :=
      if limit <=? N.of_nat (length certified_commits)
      then (take (N.to_nat limit) certified_commits, drop (N.to_nat limit) certified_commits)
      else (certified_commits, []) in
    decided ← mapM (certified_leader (committee (co_context k))) to_commit;
    Ret (decided, rest).

(** The next decided leaders, from the certified commits or by the commit rule. *)
Definition decide_next k (t : Times) (certified_commits : list CertifiedCommit) (limit : N)
    : outcome (Core St * list DecidedLeader * list CertifiedCommit) :=
  '(certified, rest) ← try_decide_certified k certified_commits limit;
  '(m, d, _) ← try_accept_committed_blocks (t_accept t) (t_instant t) (co_block_manager k) (co_dag_state k)
                 ((certified.*2 : list CertifiedCommit) ≫= certified_blocks);
  let k := set_dag k m d in
  if bool_decide (certified.*1 = []) then
    decided ← try_decide fuel (co_committers k) (co_leader_schedule k) d (co_last_decided_leader k);
    Ret (k, take (N.to_nat limit) decided, rest)
  else Ret (k, certified.*1, rest).

(** What follows a commit: scoring, and unsuspending below the new round. *)
Definition after_commit k (t : Times) (subdags : list CommittedSubDag) : outcome (Core St) :=
  d ← (if consensus_distributed_vote_scoring_strategy (protocol_config (co_context k))
       then add_scoring_subdags (co_dag_state k) subdags
       else Ret (add_unscored_committed_subdags (co_dag_state k) subdags));
  '(m, d) ← try_unsuspend_blocks_for_latest_gc_round (t_accept t) (t_instant t) (co_block_manager k) d;
  Ret (set_dag k m d).

(** One round of the loop; [None] is [break]. *)
Definition commit_iteration k (t : Times) (certified_commits : list CertifiedCommit)
    : outcome (Core St * list CertifiedCommit * ConsensusResult (option (list CommittedSubDag))) :=
  '(k, limit) ← prepare_schedule k;
  '(k, decided, rest) ← decide_next k t certified_commits limit;
  match last decided with
  | None => Ret (k, rest, Ok None)
  | Some last_decided =>
    let k := set_decided k (decided_slot last_decided) in
    let sequenced := omap into_committed_block decided in
    if bool_decide (sequenced = []) then Ret (k, rest, Ok None)
    else
      '(d, sender, res) ← observer_handle_commit fuel (t_instant t) (co_leader_schedule k) (co_dag_state k) (co_commit_sender k) sequenced;
      let k := set_sender k sender d in
      match res with
      | Err e => Ret (k, rest, Err e)
      | Ok subdags => k ← after_commit k t subdags; Ret (k, rest, Ok (Some subdags))
      end
  end.

Fixpoint try_commit_loop (rounds : nat) k (t : Times) (certified_commits : list CertifiedCommit) (committed : list CommittedSubDag)
    : outcome (Core St * ConsensusResult (list CommittedSubDag)) :=
  match rounds with
  | O => Panic "out of fuel"
  | S rounds =>
    '(k, rest, res) ← commit_iteration k t certified_commits;
    match res : ConsensusResult (option (list CommittedSubDag)) with
    | Err e => Ret (k, Err e)
    | Ok None => Ret (k, Ok committed)
    | Ok (Some subdags) => try_commit_loop rounds k t rest (committed ++ subdags)
    end
  end.

(** The sub-dags of certified commits are the certified ones. *)
Fixpoint check_certified (certified : gmap CommitIndex CommitRef) (sub_dags : list CommittedSubDag) : outcome unit :=
  match sub_dags with
  | [] => Ret tt
  | sd :: sub_dags =>
    let index := commit_ref_index (sub_dag_commit_ref sd) in
    match certified !! index with
    | Some r =>
      _ ← assert (bool_decide (r = sub_dag_commit_ref sd))
            "Certified commit has different reference than the committed sub dag";
      check_certified (delete index certified) sub_dags
    | None => check_certified certified sub_dags
    end
  end.

Definition certified_map (certified_commits : list CertifiedCommit) : gmap CommitIndex CommitRef :=
  foldl (λ m (c : CertifiedCommit), <[commit_index c := commit_reference c]> m) ∅ certified_commits.

Definition own_blocks (own : AuthorityIndex) (sub_dags : list CommittedSubDag) : list BlockRef :=
  reference <$> filter (λ b : VerifiedBlock, author b = own) (sub_dags ≫= sub_dag_blocks).

Definition try_commit (rounds : nat) k (t : Times) (certified_commits : list CertifiedCommit)
    : outcome (Core St * ConsensusResult (list CommittedSubDag)) :=
  '(k, res) ← try_commit_loop rounds k t certified_commits [];
  match res : ConsensusResult (list CommittedSubDag) with
  | Err e => Ret (k, Err e)
  | Ok committed =>
    _ ← check_certified (certified_map certified_commits) committed;
    let '(consumer, evs) := notify_own_blocks_status (co_transaction_consumer k)
                              (own_blocks (own_index (co_context k)) committed) (gc_round (co_dag_state k)) in
    Ret (set_consumer k consumer (co_tx_events k ++ evs), Ok committed)
  end.

(** ** The operations of the core thread *)

Definition try_propose (rounds : nat) k (t : Times) (force : bool) : outcome (Core St * ConsensusResult (option VerifiedBlock)) :=
  if negb (should_propose k) then Ret (k, Ok None)
  else
    '(k, o) ← try_new_block k t force;
    match o : option ExtendedBlock with
    | None => Ret (k, Ok None)
    | Some b =>
      let '(signals, sent) := signal_new_block (committee (co_context k)) (co_signals k) b in
      let k := set_signals k signals (co_last_signaled_round k) in
      match sent with
      | Err e => Ret (k, Err e)
      | Ok _ =>
        '(k, res) ← try_commit rounds k t [];
        Ret (k, match res : ConsensusResult (list CommittedSubDag) with Err e => Err e | Ok _ => Ok (Some (eb_block b)) end)
      end
    end.

(** [self.try_commit(..)?; self.try_propose(false)?; self.try_signal_new_round();]. *)
Definition commit_and_propose (rounds : nat) k (t : Times) (certified_commits : list CertifiedCommit)
    : outcome (Core St * ConsensusResult unit) :=
  '(k, res) ← try_commit rounds k t certified_commits;
  match res : ConsensusResult (list CommittedSubDag) with
  | Err e => Ret (k, Err e)
  | Ok _ =>
    '(k, res) ← try_propose rounds k t false;
    match res : ConsensusResult (option VerifiedBlock) with
    | Err e => Ret (k, Err e)
    | Ok _ => Ret (try_signal_new_round k, Ok tt)
    end
  end.

Definition add_blocks (rounds : nat) k (t : Times) (blocks : list VerifiedBlock) : outcome (Core St * ConsensusResult (gset BlockRef)) :=
  '(m, d, accepted, missing) ← try_accept_blocks (t_accept t) (t_instant t) (co_block_manager k) (co_dag_state k) blocks;
  let k := set_dag k m d in
  if bool_decide (accepted = []) then Ret (k, Ok missing)
  else
    '(k, res) ← commit_and_propose rounds k t [];
    Ret (k, match res : ConsensusResult unit with Err e => Err e | Ok _ => Ok missing end).

Definition check_block_refs k (block_refs : list BlockRef) : outcome (Core St * ConsensusResult (gset BlockRef)) :=
  '(m, missing) ← try_find_blocks (co_block_manager k) (co_dag_state k) block_refs;
  Ret (set_dag k m (co_dag_state k), Ok missing).

Definition validate_certified_commits k (commits : list CertifiedCommit) : ConsensusResult (list CertifiedCommit) :=
  let last := last_commit_index (co_dag_state k) in
  let commits := filter (λ c : CertifiedCommit, last < commit_index c) commits in
  match commits with
  | commit :: _ =>
    if negb (commit_index commit =? last +32 1)
    then Err (UnexpectedCertifiedCommitIndex (last +32 1) (commit_index commit)) else Ok commits
  | [] => Ok commits
  end.

Definition add_certified_commits (rounds : nat) k (t : Times) (c : CertifiedCommits) : outcome (Core St * ConsensusResult (gset BlockRef)) :=
  if gc_enabled (co_dag_state k) then
    commits ← unwrap (validate_certified_commits k (certified_commits c)) "Certified commits validation failed";
    '(m, d, _, _) ← try_accept_blocks (t_accept t) (t_instant t) (co_block_manager k) (co_dag_state k) (certified_votes c);
    '(k, res) ← commit_and_propose rounds (set_dag k m d) t commits;
    Ret (k, match res : ConsensusResult unit with Err e => Err e | Ok _ => Ok ∅ end)
  else add_blocks rounds k t (certified_commits c ≫= certified_blocks).

(** On a leader timeout. *)
Definition new_block (rounds : nat) k (t : Times) (r : Round) (force : bool) : outcome (Core St * ConsensusResult (option VerifiedBlock)) :=
  last ← get_last_proposed_block (co_dag_state k);
  if round (last : VerifiedBlock) <? r then
    '(k, res) ← try_propose rounds k t force;
    Ret (try_signal_new_round k, res)
  else Ret (k, Ok None).

(** ** Starting *)

(** [recover]; when the clock is behind the blocks it waits, which is a later [Times]. *)
Definition recover (rounds : nat) k (t : Times) : outcome (Core St) :=
  _ ← get_last_cached_block_per_authority (co_dag_state k) U32_MAX;
  '(k, res) ← try_commit rounds k t [];
  _ ← unwrap res "unwrap";
  '(k, res) ← try_propose rounds k t true;
  proposed ← unwrap res "unwrap";
  k ← match proposed : option VerifiedBlock with
      | Some _ => Ret k
      | None =>
        last ← get_last_proposed_block (co_dag_state k);
        _ ← (if should_propose k
             then assert (GENESIS_ROUND <? round (last : VerifiedBlock))
                    "At minimum a block of round higher than genesis should have been produced during recovery"
             else Ret tt);
        let '(signals, sent) := signal_new_block (committee (co_context k)) (co_signals k) (mk_extended last []) in
        _ ← unwrap sent "unwrap";
        Ret (set_signals k signals (co_last_signaled_round k))
      end;
  Ret (try_signal_new_round k).

(** The ancestors of the last proposed block are included. *)
Definition initial_included (ctx : Context) (last_proposed_block : VerifiedBlock) : outcome (list (option BlockRef)) :=
  foldM (λ included a, vec_set included (ref_author a) (Some a))
    (replicate (N.to_nat (committee_size (committee ctx))) None) (ancestors last_proposed_block).

Definition Core_start (ctx : Context) (sched : LeaderSchedule) (consumer : TransactionConsumer) (m : BlockManager)
    (subscriber_exists : bool) (sender : CommitSender) (signals : CoreSignals) (d : DagState St) (sync_last_known_own_block : bool)
    : outcome (Core St) :=
  last_decided_leader ← last_commit_leader d;
  committers ← build (with_pipeline (with_number_of_leaders UniversalCommitterBuilder_new 1) true);
  last_proposed_block ← get_last_proposed_block d;
  included ← initial_included ctx last_proposed_block;
  Ret (mk_core ctx consumer m subscriber_exists 0 committers (round (last_proposed_block : VerifiedBlock)) included last_decided_leader sched
        sender signals d (if sync_last_known_own_block then None else Some 0)
        (set_propagation_scores (AncestorStateManager_new ctx) (swap_reputation_scores (leader_swap_table sched))) []).

Definition Core_new (rounds : nat) (t : Times) (ctx : Context) (sched : LeaderSchedule) (consumer : TransactionConsumer)
    (m : BlockManager) (subscriber_exists : bool) (sender : CommitSender) (signals : CoreSignals) (d : DagState St)
    (sync_last_known_own_block : bool) : outcome (Core St) :=
  k ← Core_start ctx sched consumer m subscriber_exists sender signals d sync_last_known_own_block;
  recover rounds k t.
End core.
