(* ===== verification/ProposalAncestors.v ===== *)
(** * ProposalAncestors: which blocks a proposal links

    Both ways in which [Core] chooses the ancestors of its next block, from the
    invariant of the DAG state: [ancestors_to_propose], and the selection by
    score of [smart_ancestors_to_propose].  Neither panics; what they choose is
    known to the node, has one block per author with this node's own block
    first, lies below the round of the proposal, is later than what earlier
    proposals have linked, and has a quorum in the round before. *)
From S2P Require Import Prelude Committee Block StakeAggregator ThresholdClock Commit Error BlockVerifier Store.
From S2P Require Import ScoringMetrics LeaderScoring DagState LeaderSchedule BaseCommitter CommitRule CommitterSpec DagInv DagOps.
From S2P Require Import BlockManager DagReads QuorumRounds Ancestor Transactions CommitObserver Core.
Local Open Scope N_scope.
Local Open Scope rust_scope.

(** The authors of the blocks of round [r] among [bs]. *)
Definition block_authors_at (r : Round) (bs : list VerifiedBlock) : gset AuthorityIndex :=
  list_to_set ((λ b : VerifiedBlock, author b) <$> filter (λ b : VerifiedBlock, round b = r) bs).

Lemma elem_of_block_authors_at r bs a : a ∈ block_authors_at r bs ↔ ∃ b : VerifiedBlock, b ∈ bs ∧ round b = r ∧ author b = a.
Proof.
  unfold block_authors_at. rewrite elem_of_list_to_set, list_elem_of_fmap. setoid_rewrite list_elem_of_filter. naive_solver.
Qed.

Section counting.
Context (c : Committee) (Hc : committee_ok c) (r : Round).

(** The aggregator has counted the blocks [bs] of round [r]. *)
Definition counted (agg : StakeAggregator QuorumThreshold) (bs : list VerifiedBlock) : Prop :=
  agg_ok c agg ∧ votes agg = block_authors_at r bs.

Lemma add_parents_spec bs : (∀ b : VerifiedBlock, b ∈ bs → is_valid_index c (author b)) →
  ∃ agg, add_parents c r StakeAggregator_new bs = Ret agg ∧ counted agg bs.
Proof.
  intros Hv. unfold add_parents, counted, block_authors_at.
  apply (foldM_prefix (λ pre agg, agg_ok c agg ∧ votes agg = list_to_set ((λ b : VerifiedBlock, author b) <$> pre))).
  - intros pre b post agg Heq [Ha Hvo]. destruct (add_spec c Hc agg (author b) Ha) as (agg' & -> & Hvo' & Ha').
    { apply Hv. assert (b ∈ filter (λ b : VerifiedBlock, round b = r) bs) as [_ ?]%list_elem_of_filter by (rewrite Heq; set_solver). done. }
    cbn [mbind outcome_bind]. eexists. split; [done|]. split; [done|]. rewrite Hvo', Hvo, fmap_app, list_to_set_app_L. set_solver.
  - split; [apply agg_ok_new|done].
Qed.

Lemma counted_reached agg bs : counted agg bs →
  reached_threshold agg c = reached_quorum c (set_stake c (block_authors_at r bs)).
Proof. intros [[_ Hs] <-]. unfold reached_threshold. cbn. by rewrite Hs. Qed.

Lemma counted_other agg bs (b : VerifiedBlock) : counted agg bs → round b ≠ r → counted agg (bs ++ [b]).
Proof.
  intros [Ha Hv] Hb. split; [done|]. rewrite Hv. apply set_eq. intros a. rewrite !elem_of_block_authors_at.
  setoid_rewrite elem_of_app. setoid_rewrite list_elem_of_singleton. naive_solver.
Qed.
End counting.

(** A list of ancestors for a proposal of round [cr]. *)
Record proposal_ok {St : Type} `{StoreLaws St} (d : DagState St) (own : AuthorityIndex) (included : list (option BlockRef))
    (cr : Round) (bs : list VerifiedBlock) : Prop := {
  po_known (b : VerifiedBlock) : b ∈ bs → lookup_block d (reference b) = Some b ∧ is_valid_index (committee (ds_context d)) (author b);
  po_below (b : VerifiedBlock) : b ∈ bs → round b < cr;
  po_nodup : NoDup ((λ b : VerifiedBlock, author b) <$> bs);
  po_own : ∃ (b : VerifiedBlock) rest, bs = b :: rest ∧ author b = own;
  po_later (b : VerifiedBlock) r : b ∈ bs → author b ≠ own → included !! N.to_nat (author b) = Some (Some r) → ref_round r < round b;
  po_quorum : reached_quorum (committee (ds_context d)) (set_stake (committee (ds_context d)) (block_authors_at (cr - 1) bs));
}.

Section reads.
Context {St : Type} `{StoreLaws St} (d : DagState St) (Hok : dag_ok d).
Let c := committee (ds_context d).
Let cr := clock_round (ds_threshold_clock d).

Context (Hdepth : 2 <= gc_depth (protocol_config (ds_context d))).

Lemma gc_on : gc_enabled d = true.
Proof. unfold gc_enabled. apply N.ltb_lt. lia. Qed.

Lemma gc_round_below : 0 < gc_round d → gc_round d + 1 < cr.
Proof.
  unfold gc_round, calculate_gc_round. rewrite (proj2 (N.ltb_lt _ _)) by lia.
  destruct (ok_clock _ Hok) as [_ Hh Hcm _ _ _ _]. unfold cr. lia.
Qed.

Lemma evicted_gc a e : ds_evicted_rounds d !! a = Some e → e <= gc_round d.
Proof.
  intros He. assert (is_valid_index c (N.of_nat a)) as Ha.
  { apply Is_true_true, N.ltb_lt. apply lookup_lt_Some in He. rewrite (ok_evicted_length _ Hok) in He. unfold c. lia. }
  destruct (refs_valid d Hok _ Ha) as (rs & Hrs & _). destruct (valid_lookup d _ _ (ok_rounds_length _ Hok) Ha) as [lc Hlc].
  pose proof (eviction_round_eq d _ rs lc Hrs Hlc) as Heq. rewrite gc_on in Heq.
  etrans; [eapply (ok_evicted _ Hok); [by rewrite Nat2N.id|exact Heq]|]. unfold gc_eviction_round. lia.
Qed.

Lemma evicted_below a e : ds_evicted_rounds d !! a = Some e → 1 < cr → e + 1 < cr.
Proof. intros He%evicted_gc Hcr. destruct (decide (gc_round d = 0)); [lia|]. pose proof gc_round_below. lia. Qed.

Context (Hmax : cr <= U32_MAX).

(** The latest block of every authority, also in the first round. *)
Lemma latest_blocks : ∃ l, get_last_cached_block_per_authority d cr = Ret l ∧ length l = N.to_nat (committee_size c) ∧
  ∀ a, is_valid_index c a → ∃ (b : VerifiedBlock) eqs, l !! N.to_nat a = Some (b, eqs) ∧ latest_below d cr a b eqs.
Proof.
  destruct (ok_clock _ Hok) as [Hpos _ _ _ _ _ _]. fold cr in Hpos. destruct (decide (cr = 1)) as [H1|H1].
  - rewrite H1. unfold get_last_cached_block_per_authority. cbn [N.eqb]. eexists. split; [done|]. split.
    { rewrite length_fmap. by apply genesis_length. }
    intros a Ha. destruct (genesis_slot d Hok a Ha) as (b & Hb & Hab & Hrb & Hkb). exists b, [].
    rewrite list_lookup_fmap, Hb. split; [done|]. split; [done|lia|done|by right| |set_solver].
    intros r i Hi Har Hr _. destruct (ok_recent _ Hok _ _ Hi) as (_ & _ & ? & _). lia.
  - apply last_cached_ret; [done|lia|done|]. intros a e He. eapply evicted_below; [done|lia].
Qed.

Lemma latest_parent a (b : VerifiedBlock) eqs : authored d (cr - 1) a → latest_below d cr a b eqs → round b = cr - 1.
Proof.
  intros (x & Hx & Hrx & Hax) Hb. pose proof (lb_round _ _ _ _ _ Hb) as Hlt.
  destruct (decide (cr - 1 = 0)) as [Hz|Hz]; [lia|].
  assert (∃ i, ds_recent_blocks d !! reference x = Some i) as [i Hi].
  { unfold lookup_block, get_cached in Hx. destruct (N.eqb_spec (ref_round (reference x)) GENESIS_ROUND) as [Hg|_].
    { unfold GENESIS_ROUND in Hg. simpl in Hg. lia. }
    destruct (ds_recent_blocks d !! reference x) as [i|] eqn:Hi; [by eexists|].
    destruct (ok_stored _ Hok _ _ Hx) as [_ Hv]. destruct (valid_lookup d _ _ (ok_evicted_length _ Hok) Hv) as [e He].
    destruct (ok_cached _ Hok _ _ _ Hx He) as [i' Hi']; [|congruence]. apply evicted_below in He; [simpl; lia|lia]. }
  assert (round x <= round b); [|lia]. apply (lb_latest _ _ _ _ _ Hb _ i Hi); simpl; [done|lia|].
  intros e He. apply evicted_below in He; lia.
Qed.

(** The latest blocks have a quorum in the round before. *)
Lemma latest_quorum (bs : list VerifiedBlock) (l : list (VerifiedBlock * list BlockRef)) :
  (∀ a, is_valid_index c a → ∃ (b : VerifiedBlock) eqs, l !! N.to_nat a = Some (b, eqs) ∧ latest_below d cr a b eqs) →
  (∀ (b : VerifiedBlock) eqs, (b, eqs) ∈ l → round b = cr - 1 → author b ∈ block_authors_at (cr - 1) bs) →
  reached_quorum c (set_stake c (block_authors_at (cr - 1) bs)).
Proof.
  intros Hl Hin. destruct (ci_parents _ (ok_clock _ Hok)) as (X & HX & Hq & Hau).
  apply Is_true_true, N.leb_le in Hq. apply Is_true_true, N.leb_le. etrans; [exact Hq|]. apply set_stake_mono. intros a Ha. destruct (Hl a) as (b & eqs & Hb & Hlb).
  { by apply elem_of_all_indices, HX. }
  pose proof (latest_parent a b eqs (Hau a Ha) Hlb) as Hr. rewrite <-(lb_author _ _ _ _ _ Hlb).
  eapply Hin; [|done]. by eapply list_elem_of_lookup_2.
Qed.
End reads.

Section selection.
Context {St : Type} `{StoreLaws St} (k : Core St).
Let d := co_dag_state k.
Let c := committee (ds_context d).
Let own := own_index (ds_context d).
Let cr := clock_round (ds_threshold_clock d).

(** What [Core] keeps of its last proposal. *)
Record included_ok (included : list (option BlockRef)) (bound : Round) : Prop := {
  io_length : length included = N.to_nat (committee_size c);
  io_below a r : included !! a = Some (Some r) → ref_round r < bound;
}.

Context (Hok : dag_ok d) (Hctx : ds_context d = co_context k) (Hdepth : 2 <= gc_depth (protocol_config (ds_context d))).
Context (Hmax : cr <= U32_MAX) (Hown : is_valid_index c own).
Context (Hinc : included_ok (co_last_included_ancestors k) (cr - 1)).

Definition is_later (b : VerifiedBlock) : bool :=
  match co_last_included_ancestors k !! N.to_nat (author b) with Some (Some r) => ref_round r <? round b | _ => true end.

Lemma not_included_ret (b : VerifiedBlock) : is_valid_index c (author b) →
  not_included (co_last_included_ancestors k) b = Ret (is_later b).
Proof.
  intros Ha. destruct (valid_lookup d _ _ (io_length _ _ Hinc) Ha) as [o Ho]. unfold not_included, is_later, vec_index.
  rewrite Ho. by destruct o.
Qed.

Lemma is_later_spec (b : VerifiedBlock) r : is_later b → co_last_included_ancestors k !! N.to_nat (author b) = Some (Some r) →
  ref_round r < round b.
Proof. unfold is_later. intros Hb Hr. rewrite Hr in Hb. by apply N.ltb_lt, Is_true_true. Qed.

(** Blocks of the round before are never included yet. *)
Lemma parent_later (b : VerifiedBlock) : round b = cr - 1 → is_later b.
Proof.
  intros Hr. unfold is_later. destruct (_ !! _) as [[r|]|] eqn:Hi; [|done..].
  apply Is_true_true, N.ltb_lt. rewrite Hr. by eapply io_below.
Qed.

(** The latest blocks, one per authority. *)
Record latest_list (l : list (VerifiedBlock * list BlockRef)) : Prop := {
  ll_length : length l = N.to_nat (committee_size c);
  ll_slot a : is_valid_index c a → ∃ (b : VerifiedBlock) eqs, l !! N.to_nat a = Some (b, eqs) ∧ latest_below d cr a b eqs;
}.

Lemma ll_elem l (b : VerifiedBlock) eqs : latest_list l → (b, eqs) ∈ l → is_valid_index c (author b) ∧ latest_below d cr (author b) b eqs.
Proof.
  intros Hl [i Hi]%list_elem_of_lookup.
  assert (is_valid_index c (N.of_nat i)) as Hv.
  { apply Is_true_true, N.ltb_lt. apply lookup_lt_Some in Hi. rewrite (ll_length _ Hl) in Hi. lia. }
  destruct (ll_slot _ Hl _ Hv) as (b' & eqs' & Hi' & Hlb). rewrite Nat2N.id in Hi'. simplify_eq.
  by rewrite (lb_author _ _ _ _ _ Hlb).
Qed.

Lemma ll_nodup l : latest_list l → NoDup ((λ e : VerifiedBlock * list BlockRef, author e.1) <$> l).
Proof.
  intros Hl. apply NoDup_alt. intros i j a. rewrite !list_lookup_fmap. intros Hi Hj.
  assert (∀ i, ((λ e : VerifiedBlock * list BlockRef, author e.1) <$> l !! i) = Some a → i = N.to_nat a) as Hx.
  { clear i j Hi Hj. intros i Hi. apply fmap_Some in Hi as ([b eqs] & Hi & ->).
    assert (is_valid_index c (N.of_nat i)) as Hv.
    { apply Is_true_true, N.ltb_lt. apply lookup_lt_Some in Hi. rewrite (ll_length _ Hl) in Hi. lia. }
    destruct (ll_slot _ Hl _ Hv) as (b' & eqs' & Hi' & Hlb). rewrite Nat2N.id in Hi'. simplify_eq. simpl.
    rewrite (lb_author _ _ _ _ _ Hlb). lia. }
  by rewrite (Hx i Hi), (Hx j Hj).
Qed.

Lemma ll_block l (b : VerifiedBlock) : latest_list l → b ∈ l.*1 →
  lookup_block d (reference b) = Some b ∧ is_valid_index c (author b) ∧ round b < cr.
Proof.
  intros Hl ([b' eqs] & -> & Hin)%list_elem_of_fmap. destruct (ll_elem _ _ _ Hl Hin) as [Hv Hlb]. split_and!; [apply Hlb|done|apply Hlb].
Qed.

Lemma ll_authors l : latest_list l → NoDup ((λ b : VerifiedBlock, author b) <$> l.*1).
Proof. intros Hl. rewrite <-list_fmap_compose. by apply ll_nodup. Qed.

(** The own block and the later blocks of others among the latest ones. *)
Lemma candidates_ok (b0 : VerifiedBlock) (others : list VerifiedBlock) :
  lookup_block d (reference b0) = Some b0 → author b0 = own → round b0 < cr →
  (∀ b : VerifiedBlock, b ∈ others → is_later b ∧ author b ≠ own ∧ lookup_block d (reference b) = Some b ∧
    is_valid_index c (author b) ∧ round b < cr) →
  NoDup ((λ b : VerifiedBlock, author b) <$> others) →
  reached_quorum c (set_stake c (block_authors_at (cr - 1) (b0 :: others))) →
  proposal_ok d own (co_last_included_ancestors k) cr (b0 :: others).
Proof.
  intros Hk0 Ho Hr0 Hoth Hnd Hq. split; [| | | | |exact Hq].
  - intros b [->|Hb]%elem_of_cons; [by rewrite Ho|]. by destruct (Hoth b Hb) as (_ & _ & ? & ? & _).
  - intros b [->|Hb]%elem_of_cons; [done|]. by apply Hoth.
  - rewrite fmap_cons. constructor; [|done]. intros (b & Heq & Hb)%list_elem_of_fmap. destruct (Hoth b Hb) as (_ & Hn & _). congruence.
  - eauto.
  - intros b r [->|Hb]%elem_of_cons Hn Hr; [done|]. eapply is_later_spec; [|exact Hr]. by apply Hoth.
Qed.

(** The quorum of the round before, when nothing of that round is left out. *)
Lemma chosen_quorum l (b0 : VerifiedBlock) bs : latest_list l → author b0 = own → round b0 < cr →
  (∀ r i, ds_recent_blocks d !! r = Some i → ref_author r = own → ref_round r < cr → cr - 1 <= ref_round r → ref_round r <= round b0) →
  b0 ∈ bs →
  (∀ (b : VerifiedBlock) eqs, (b, eqs) ∈ l → author b ≠ own → round b = cr - 1 → b ∈ bs) →
  reached_quorum c (set_stake c (block_authors_at (cr - 1) bs)).
Proof.
  intros Hl Ho Hr0 Hmaxo Hb0 Hbs. apply (latest_quorum d Hok Hdepth Hmax bs l); [apply Hl|].
  intros b eqs Hb Hr. fold cr in Hr |- *. apply elem_of_block_authors_at. destruct (decide (author b = own)) as [Heq|Hne]; [|eauto 10].
  exists b0. split_and!; [done| |congruence]. destruct (ll_elem _ _ _ Hl Hb) as [_ Hlb].
  destruct (lb_held _ _ _ _ _ Hlb) as [(i & Hi & _)|Hz]; [|lia].
  pose proof (Hmaxo _ _ Hi) as Hle. simpl in Hle. specialize (Hle Heq). pose proof (lb_round _ _ _ _ _ Hlb). unfold cr in *. lia.
Qed.

(** Without scores: all the candidates. *)
Lemma ancestors_to_propose_ok : ∃ ancs, ancestors_to_propose k cr = Ret ancs ∧
  proposal_ok d own (co_last_included_ancestors k) cr ancs.
Proof.
  destruct (latest_blocks d Hok Hdepth Hmax) as (l & Heq & Hlen & Hslot).
  assert (latest_list l) as Hl by by split. unfold ancestors_to_propose. fold d. fold cr in Heq. rewrite Heq.
  cbn [mbind outcome_bind]. rewrite length_fmap, Hlen. rewrite <-Hctx. fold c own. rewrite (proj2 (N.eqb_eq _ _)) by lia.
  cbn [assert mbind outcome_bind]. destruct (Hslot own Hown) as (b0 & eqs0 & Hb0 & Hlb0).
  unfold vec_index at 1. rewrite list_lookup_fmap, Hb0. cbn [fmap option_fmap option_map expect mbind outcome_bind fst].
  rewrite (proj2 (N.eqb_eq _ _)) by apply (lb_author _ _ _ _ _ Hlb0). cbn [assert mbind outcome_bind].
  rewrite (filterM_ret _ is_later).
  2:{ intros b Hb. apply not_included_ret. unfold candidates in Hb. rewrite !list_elem_of_filter in Hb. destruct Hb as (_ & _ & Hb).
      by apply (ll_block l). }
  cbn [mbind outcome_bind]. set (others := filter is_later (candidates d own l.*1)).
  assert (∀ b : VerifiedBlock, b ∈ others ↔ is_later b ∧ (gc_enabled d && (GENESIS_ROUND <? gc_round d) = true → gc_round d < round b) ∧
    author b ≠ own ∧ b ∈ l.*1) as Hin.
  { intros b. unfold others, candidates. by rewrite !list_elem_of_filter. }
  pose proof (λ b, ll_block l b Hl) as Hll.
  assert (b0 ∈ l.*1) as Hb0' by (apply list_elem_of_fmap; exists (b0, eqs0); split; [done|by eapply list_elem_of_lookup_2]).
  assert (proposal_ok d own (co_last_included_ancestors k) cr (b0 :: others)) as Hp.
  { apply candidates_ok; [by apply Hll|apply Hlb0|by apply Hll| | |].
    - intros b (Hlat & _ & Hne & Hb)%Hin. split; [done|]. split; [done|]. destruct (Hll b Hb) as (? & ? & ?). done.
    - apply (sublist_NoDup _ ((λ b : VerifiedBlock, author b) <$> l.*1)).
      + by apply ll_authors.
      + apply fmap_sublist. unfold others, candidates. etrans; [apply sublist_filter|]. etrans; apply sublist_filter.
    - apply (chosen_quorum l b0); [done|apply Hlb0|by apply Hll| |by left|].
      + intros r i Hi Hr Hr1 Hr2. apply (lb_latest _ _ _ _ _ Hlb0 r i Hi Hr Hr1).
        intros e He. destruct (ok_recent _ Hok _ _ Hi) as (_ & _ & Hpos & _).
        assert (e + 1 < cr); [|lia]. eapply evicted_below; try done. fold cr. lia.
      + intros b eqs Hb Hne Hr. right. apply Hin. split_and!; [by apply parent_later| |done|].
        * intros [_ Hg%N.ltb_lt]%andb_true_iff. pose proof (gc_round_below d Hok Hdepth). unfold GENESIS_ROUND, cr in *. lia.
        * apply list_elem_of_fmap. by exists (b, eqs). }
  destruct (ok_clock _ Hok) as [Hpos _ _ _ _ _ _]. fold cr in Hpos.
  destruct (add_parents_spec c (ok_committee _ Hok) (cr -32 1) (b0 :: others)) as (agg & -> & Hagg).
  { intros b Hb. by apply (po_known _ _ _ _ _ Hp). }
  cbn [mbind outcome_bind]. rewrite (counted_reached _ _ _ _ Hagg). rewrite wrap32_sub by (unfold U32_MAX, U32_MOD in *; lia).
  pose proof (po_quorum _ _ _ _ _ Hp) as Hq. fold c in Hq. rewrite (proj1 (Is_true_true _) Hq). cbn [assert mbind outcome_bind]. eauto.
Qed.
(** The block this node proposed last. *)
Context (mine : VerifiedBlock) (Hlast : get_last_proposed_block d = Ret mine).

Lemma last_proposed_facts : author mine = own ∧ lookup_block d (reference mine) = Some mine ∧
  ∀ r i, ds_recent_blocks d !! r = Some i → ref_author r = own → ref_round r <= round mine.
Proof.
  destruct (last_block_ret d Hok own Hown) as (b & Hb & Hab & Hkb & _ & Hmaxb).
  unfold get_last_proposed_block in Hlast. fold own in Hlast. rewrite Hb in Hlast. by injection Hlast as <-.
Qed.

Context (Hlt : round mine < cr).

(** With scores, first pass. *)
Definition eligible (b : VerifiedBlock) : Prop := author b ≠ own ∧ is_later b.
#[local] Instance eligible_dec b : Decision (eligible b).
Proof. unfold eligible. apply _. Defined.

Lemma select_ok l states : latest_list l → length states = N.to_nat (committee_size c) →
  ∃ sel, foldM (select_ancestor own (co_last_included_ancestors k) states) (mk_selection [mine] [] ∅) l = Ret sel ∧
    (∃ tail, se_included sel = mine :: tail) ∧ se_included sel ++ (se_pending sel).*2 ≡ₚ mine :: filter eligible l.*1.
Proof.
  intros Hl Hst.
  apply (foldM_prefix (λ pre sel, (∃ tail, se_included sel = mine :: tail) ∧
    se_included sel ++ (se_pending sel).*2 ≡ₚ mine :: filter eligible pre.*1)); [|split; [by eexists|done]].
  intros pre [b eqs] post sel Heq [[tail Htail] Hperm].
  assert (b ∈ l.*1) as Hb by (rewrite Heq, fmap_app; set_solver). destruct (ll_block l b Hl Hb) as (_ & Hv & _).
  unfold select_ancestor. rewrite fmap_app, filter_app. cbn [fmap list_fmap fst].
  destruct (N.eqb_spec (author b) own) as [Ho|Ho].
  { exists sel. split; [done|]. split; [by eexists|]. rewrite filter_cons_False by (intros [? _]; done). by rewrite app_nil_r. }
  rewrite not_included_ret by done. cbn [mbind outcome_bind]. destruct (is_later b) eqn:Hlat; cbn [negb].
  2:{ exists sel. split; [done|]. split; [by eexists|]. rewrite filter_cons_False by (unfold eligible; rewrite Hlat; by intros [_ ?]).
      by rewrite app_nil_r. }
  destruct (valid_lookup d _ _ Hst Hv) as [st Hs]. unfold vec_index. rewrite Hs. cbn [expect mbind outcome_bind].
  rewrite filter_cons_True by (split; [done|by rewrite Hlat]). cbn [filter list_filter].
  eexists. split; [done|]. destruct st as [|score]; cbn [se_included se_pending].
  - rewrite Htail. split; [by eexists|]. rewrite <-Htail, <-app_assoc, (Permutation_app_comm [b]), app_assoc, Hperm. done.
  - split; [by eexists|]. rewrite fmap_app, app_assoc, Hperm. done.
Qed.

(** Second pass. *)
Lemma fill_ok qr agg incl (pend : list (N * VerifiedBlock)) : counted c qr agg incl →
  (∀ x : N * VerifiedBlock, x ∈ pend → is_valid_index c (author x.2)) →
  ∃ agg' prop excl, foldM (fill_quorum c qr) (agg, incl, []) pend = Ret (agg', prop, excl) ∧ counted c qr agg' prop ∧
    prop ++ excl.*2 ≡ₚ incl ++ pend.*2 ∧ incl `prefix_of` prop ∧
    (reached_threshold agg' c = true ∨ ∀ x : N * VerifiedBlock, x ∈ excl → round x.2 ≠ qr).
Proof.
  intros Hagg Hv.
  destruct (foldM_prefix (λ pre '(agg', prop, excl), counted c qr agg' prop ∧
    prop ++ excl.*2 ≡ₚ incl ++ pre.*2 ∧ incl `prefix_of` prop ∧ (reached_threshold agg' c = true ∨ ∀ x : N * VerifiedBlock, x ∈ excl → round x.2 ≠ qr))
    (fill_quorum c qr) pend (agg, incl, [])) as ([[agg' prop] excl] & Heq & HP).
  - intros pre x post [[a1 prop] excl] Heq (Hc1 & Hperm & Hpre & Hex). unfold fill_quorum.
    assert (is_valid_index c (author x.2)) as Hx by (apply Hv; rewrite Heq; set_solver).
    destruct (authority_ret c _ Hx) as [y ->]. cbn [mbind outcome_bind].
    destruct (negb (reached_threshold a1 c) && (round x.2 =? qr)) eqn:Hcond.
    + apply andb_true_iff in Hcond as [_ Hr%N.eqb_eq]. destruct Hc1 as [Hok1 Hv1].
      destruct (add_spec c (ok_committee _ Hok) a1 _ Hok1 Hx) as (a2 & -> & Hv2 & Hok2). cbn [mbind outcome_bind]. eexists. split; [done|].
      cbn beta iota. split_and!.
      * split; [done|]. rewrite Hv2, Hv1. apply set_eq. intros i. rewrite elem_of_union, elem_of_singleton, !elem_of_block_authors_at.
        setoid_rewrite elem_of_app. setoid_rewrite list_elem_of_singleton. naive_solver.
      * rewrite fmap_app, <-app_assoc, (Permutation_app_comm [x.2]), !app_assoc, Hperm. done.
      * by apply prefix_app_r.
      * destruct Hex as [Hre|Hex]; [left|by right]. unfold reached_threshold in *. cbn in *. destruct Hok1 as [_ H1], Hok2 as [_ H2].
        rewrite H1 in Hre. rewrite H2, Hv2. apply N.leb_le in Hre. apply N.leb_le. etrans; [exact Hre|]. apply set_stake_mono. set_solver.
    + eexists. split; [done|]. cbn beta iota. split_and!; [done| |done|].
      * rewrite !fmap_app, !app_assoc, Hperm. done.
      * apply andb_false_iff in Hcond as [Hr%negb_false_iff|Hr%N.eqb_neq]; [by left|].
        destruct Hex as [?|Hex]; [by left|right]. intros z [Hz|Hz%list_elem_of_singleton]%elem_of_app; [by apply Hex|by subst].
  - split_and!; [done|done|done|right; set_solver].
  - exists agg', prop, excl. done.
Qed.
(** Third pass: an earlier block of an author. *)
Lemma earlier_ok a lo hi : is_valid_index c a → hi <= U32_MAX →
  ∃ o, get_last_cached_block_in_range d a lo hi = Ret o ∧
    ∀ b : VerifiedBlock, o = Some b → lookup_block d (reference b) = Some b ∧ author b = a ∧ lo <= round b < hi.
Proof.
  intros Ha Hhi. unfold get_last_cached_block_in_range. destruct (N.leb_spec hi lo) as [|Hlh]; [by exists None|].
  destruct (refs_valid d Hok a Ha) as (rs & Hrs & Hin). rewrite (proj2 (vec_index_ret _ _ _) Hrs). cbn [mbind outcome_bind].
  rewrite set_range_ret.
  2:{ apply bool_decide_eq_true_2. unfold key_le, BlockRef_ord_key, ref_le, round_start. simpl. lia. }
  cbn [mbind outcome_bind]. eexists. split; [done|]. intros b Hb.
  destruct (last _) as [r|] eqn:Hl; [|done]. apply last_Some_elem_of, elem_of_btree_range in Hl as [Hr Hrin].
  apply fmap_Some in Hb as (i & Hi & ->). destruct (ok_recent _ Hok _ _ Hi) as (Href & _). rewrite Href.
  apply Hin in Hrin as [_ Har]. split; [by apply recent_lookup|]. rewrite andb_True in Hr. cbn [above below] in Hr. rewrite !bool_decide_spec in Hr.
  unfold key_le, BlockRef_ord_key, ref_le, round_start in Hr. simpl in Hr. destruct Hr as [H1 [H2 H3]].
  split; [by rewrite <-Har, <-Href|]. change (round (bi_block i)) with (ref_round (reference (bi_block i))). rewrite Href.
  split; [lia|]. unfold DIGEST_MIN, AuthorityIndex_ZERO in *. destruct (decide (ref_round r = hi)) as [Heq|]; [|lia]. exfalso. apply H3.
  destruct r as [rr ra rd]. simpl in *. f_equal; lia.
Qed.
(** What the third pass keeps, with the pending blocks [pre] behind it. *)
Record third_pass (prop : list VerifiedBlock) (pre : list (N * VerifiedBlock)) (s : inclusion) : Prop := {
  tp_included : included_ok (in_last_included s) cr;
  tp_rest a : (∀ x : N * VerifiedBlock, x ∈ pre → N.to_nat (author x.2) ≠ a) → in_last_included s !! a = co_last_included_ancestors k !! a;
  tp_proposed : ∃ more, in_to_propose s = prop ++ more ∧ NoDup ((λ b : VerifiedBlock, author b) <$> more) ∧
    ∀ b : VerifiedBlock, b ∈ more → (∃ x : N * VerifiedBlock, x ∈ pre ∧ author b = author x.2) ∧
      is_later b ∧ lookup_block d (reference b) = Some b ∧ is_valid_index c (author b) ∧ round b < cr;
}.

Lemma third_pass_exclude prop pre (x : N * VerifiedBlock) s : third_pass prop pre s → third_pass prop (pre ++ [x]) (exclude_block s x.2) ∧ third_pass prop (pre ++ [x]) s.
Proof.
  intros [Hi Hr (more & Hm & Hnd & Hb)].
  assert (∀ s', in_last_included s' = in_last_included s → in_to_propose s' = in_to_propose s → third_pass prop (pre ++ [x]) s') as Hs';
    [|by split; apply Hs'].
  intros s' H1 H2. split; rewrite ?H1, ?H2; [done| |].
  - intros a Ha. apply Hr. intros y Hy. apply Ha. set_solver.
  - exists more. split; [done|]. split; [done|]. intros b Hbm. destruct (Hb b Hbm) as ((y & Hy & Heq) & Hrest). split; [|done].
    exists y. split; [set_solver|done].
Qed.

Lemma third_pass_include prop pre (x : N * VerifiedBlock) s (b : VerifiedBlock) : third_pass prop pre s →
  (∀ y : N * VerifiedBlock, y ∈ pre → author y.2 ≠ author x.2) → author b = author x.2 → is_later b →
  lookup_block d (reference b) = Some b → is_valid_index c (author b) → round b < cr →
  ∃ s', include_block s (author x.2) b = Ret s' ∧ third_pass prop (pre ++ [x]) s'.
Proof.
  intros [Hi Hr (more & Hm & Hnd & Hb)] Hpre Hau Hlat Hk Hv Hrd. unfold include_block. pose proof Hv as Hv'. apply Is_true_true, N.ltb_lt in Hv'.
  rewrite vec_set_in by (rewrite (io_length _ _ Hi); rewrite Hau in Hv'; lia). cbn [mbind outcome_bind]. eexists. split; [done|].
  split; cbn [in_last_included in_to_propose].
  - split; [by rewrite length_insert, (io_length _ _ Hi)|]. intros a r. rewrite list_lookup_insert. case_decide; [by intros [= <-]|apply Hi].
  - intros a Ha. rewrite list_lookup_insert_ne by (apply Ha; set_solver). apply Hr. intros y Hy. apply Ha. set_solver.
  - exists (more ++ [b]). rewrite Hm, app_assoc. split; [done|]. split.
    + rewrite fmap_app. apply NoDup_app. split; [done|]. split; [|apply NoDup_singleton].
      intros a (y & -> & Hy)%list_elem_of_fmap Hin%list_elem_of_singleton. destruct (Hb y Hy) as ((z & Hz & Heq) & _).
      apply (Hpre z Hz). congruence.
    + intros y [Hy|Hy%list_elem_of_singleton]%elem_of_app.
      * destruct (Hb y Hy) as ((z & Hz & Heq) & Hrest). split; [|done]. exists z. split; [set_solver|done].
      * subst y. split; [|done]. exists x. split; [set_solver|done].
Qed.

Lemma include_ok prop (accepted : list QuorumRound) (excl : list (N * VerifiedBlock)) e : length accepted = N.to_nat (committee_size c) →
  NoDup ((λ x : N * VerifiedBlock, author x.2) <$> excl) →
  (∀ x : N * VerifiedBlock, x ∈ excl → is_later x.2 ∧ lookup_block d (reference x.2) = Some x.2 ∧ is_valid_index c (author x.2) ∧ round x.2 < cr) →
  ∃ s, foldM (include_accepted c d accepted (cr - 1)) (mk_inclusion (co_last_included_ancestors k) prop e) excl = Ret s ∧ third_pass prop excl s.
Proof.
  intros Hacc Hnd Hex. apply (foldM_prefix (third_pass prop)).
  2:{ split; cbn; [split; [apply Hinc|intros a r Hr; apply (io_below _ _ Hinc) in Hr; lia]|done|].
      exists []. rewrite app_nil_r. split; [done|]. split; [constructor|set_solver]. }
  intros pre x post s Heq Hs. destruct (Hex x) as (Hlat & Hk & Hv & Hrd); [rewrite Heq; set_solver|].
  assert (∀ y : N * VerifiedBlock, y ∈ pre → author y.2 ≠ author x.2) as Hpre.
  { intros y Hy Heq'. rewrite Heq, fmap_app, fmap_cons in Hnd. apply NoDup_app in Hnd as (_ & Hd & _).
    apply (Hd (author y.2)); [by apply list_elem_of_fmap; eauto|]. rewrite Heq'. left. }
  unfold include_accepted. destruct (authority_ret c _ Hv) as [z ->]. cbn [mbind outcome_bind].
  destruct (valid_lookup d _ _ Hacc Hv) as [q Hq%vec_index_ret]. rewrite Hq. cbn [mbind outcome_bind].
  assert (in_last_included s !! N.to_nat (author x.2) = co_last_included_ancestors k !! N.to_nat (author x.2)) as Hsame.
  { apply (tp_rest _ _ _ Hs). intros y Hy Hn%(inj N.to_nat). by apply (Hpre y Hy). }
  destruct (valid_lookup d _ _ (io_length _ _ Hinc) Hv) as [o Ho]. unfold vec_index. rewrite Hsame, Ho. cbn [expect mbind outcome_bind].
  set (lo := match o with Some r => ref_round r | None => GENESIS_ROUND end). cbn zeta.
  destruct (third_pass_exclude prop pre x s Hs) as [Hs1 Hs2]. destruct (N.leb_spec (round x.2) lo); [by eexists|].
  destruct (N.leb_spec (N.min (fst q) (cr - 1)) lo); [by eexists|].
  destruct (N.leb_spec (round x.2) (N.min (fst q) (cr - 1))); [by apply third_pass_include|].
  rewrite !wrap32_small by (unfold U32_MAX, U32_MOD in *; lia).
  destruct (earlier_ok (author x.2) (lo + 1) (N.min (fst q) (cr - 1) + 1) Hv) as (eb & -> & Heb); [lia|]. cbn [mbind outcome_bind].
  destruct eb as [b|]; [|by eexists]. destruct (Heb b eq_refl) as (Hkb & Hab & Hrb).
  apply (third_pass_include prop pre x (exclude_block s x.2) b); [by destruct Hs|done|done| |done|by rewrite Hab|lia].
  unfold is_later. rewrite Hab, Ho. unfold lo in Hrb. destruct o as [r|]; [|done]. apply Is_true_true, N.ltb_lt. lia.
Qed.
(** What the first two passes leave: [ptail] is linked beside the own block,
    [excl] is pending. *)
Section passes.
Context (l : list (VerifiedBlock * list BlockRef)) (Hl : latest_list l) (ptail : list VerifiedBlock) (excl : list (N * VerifiedBlock)).
Context (Hsplit : ptail ++ excl.*2 ≡ₚ filter eligible l.*1).

Lemma passes_elem (b : VerifiedBlock) : b ∈ ptail ∨ b ∈ excl.*2 ↔ eligible b ∧ b ∈ l.*1.
Proof. by rewrite <-elem_of_app, Hsplit, list_elem_of_filter. Qed.

Lemma passes_nodup : NoDup ((λ b : VerifiedBlock, author b) <$> (ptail ++ excl.*2)).
Proof. rewrite Hsplit. eapply sublist_NoDup; [by apply (ll_authors l)|]. apply fmap_sublist, sublist_filter. Qed.

Lemma passes_quorum agg : counted c (cr - 1) agg (mine :: ptail) →
  (reached_threshold agg c = true ∨ ∀ x : N * VerifiedBlock, x ∈ excl → round x.2 ≠ cr - 1) → reached_threshold agg c = true.
Proof.
  intros Hagg [?|Hex]; [done|]. rewrite (counted_reached _ _ _ _ Hagg). apply Is_true_true.
  destruct last_proposed_facts as (Hmo & Hmk & Hmmax). apply (chosen_quorum l mine); [done..| |left|].
  - intros r i Hi Hr _ _. by apply (Hmmax r i).
  - intros b eqs Hb Hne Hr. right. destruct (proj2 (passes_elem b)) as [?|(x & -> & Hx)%list_elem_of_fmap]; [|done|by destruct (Hex x Hx)].
    split; [split; [done|by apply parent_later]|]. apply list_elem_of_fmap. by exists (b, eqs).
Qed.

Lemma passes_proposal agg s : counted c (cr - 1) agg (mine :: ptail) → reached_threshold agg c = true →
  third_pass (mine :: ptail) excl s → proposal_ok d own (co_last_included_ancestors k) cr (in_to_propose s).
Proof.
  intros Hagg Hre Hs. destruct (tp_proposed _ _ _ Hs) as (more & -> & Hnd & Hmore). destruct last_proposed_facts as (Hmo & Hmk & _).
  pose proof passes_nodup as Hn. rewrite fmap_app in Hn. apply NoDup_app in Hn as (Hn1 & Hn2 & _).
  assert (∀ x : N * VerifiedBlock, x ∈ excl → eligible x.2) as Hel.
  { intros x Hx. apply passes_elem. right. by apply list_elem_of_fmap_2. }
  apply (candidates_ok mine (ptail ++ more)); [done..| | |].
  - intros b [Hb|Hb]%elem_of_app.
    + destruct (proj1 (passes_elem b) ltac:(by left)) as [[? ?] Hbl]. destruct (ll_block l b Hl Hbl) as (? & ? & ?). done.
    + destruct (Hmore b Hb) as ((x & Hx & Heq) & Hlat & ? & ? & ?). split; [done|]. split; [|done].
      rewrite Heq. by destruct (Hel x Hx).
  - rewrite fmap_app. apply NoDup_app. split; [done|]. split; [|done].
    intros a Ha (b & -> & Hb)%list_elem_of_fmap. destruct (Hmore b Hb) as ((x & Hx & Heq) & _).
    apply (Hn2 _ Ha). rewrite Heq. apply list_elem_of_fmap. exists x.2. split; [done|]. by apply list_elem_of_fmap_2.
  - rewrite (counted_reached _ _ _ _ Hagg) in Hre. apply N.leb_le in Hre. apply Is_true_true, N.leb_le. etrans; [exact Hre|].
    apply set_stake_mono. intros a. rewrite !elem_of_block_authors_at. intros (b & Hb & ?). exists b. split; [|done].
    rewrite app_comm_cons. set_solver.
Qed.
End passes.

(** The three passes together. *)
Lemma smart_ancestors_ok smart_select : am_ok (co_ancestor_state_manager k) → am_context (co_ancestor_state_manager k) = co_context k →
  ∃ included asm ancs excluded, smart_ancestors_to_propose k cr smart_select = Ret (set_ancestors k included asm, ancs, excluded) ∧
    am_ok asm ∧ am_context asm = co_context k ∧ included_ok included cr ∧
    ((smart_select = true ∧ ancs = [] ∧ included = co_last_included_ancestors k) ∨
     proposal_ok d own (co_last_included_ancestors k) cr ancs).
Proof.
  intros Ham Hactx. destruct (latest_blocks d Hok Hdepth Hmax) as (l & Heq & Hlen & Hslot).
  assert (latest_list l) as Hl by by split. unfold smart_ancestors_to_propose. fold d. fold cr in Heq. rewrite Heq.
  cbn [mbind outcome_bind]. rewrite Hlen. rewrite <-Hctx. fold c own. rewrite (proj2 (N.eqb_eq _ _)) by lia.
  cbn [assert mbind outcome_bind]. destruct (update_all_spec _ Ham) as (map & -> & Hmap & _). cbn [mbind outcome_bind].
  set (asm := set_state_map _ map). rewrite Hlast. cbn [mbind outcome_bind].
  assert (am_size (co_ancestor_state_manager k) = N.to_nat (committee_size c)) as Hsize by (unfold am_size; by rewrite Hactx, <-Hctx).
  assert (am_ok asm) as Ham' by (destruct Ham as (_ & ? & ? & ?); done).
  destruct (select_ok l (get_ancestor_states asm) Hl) as (sel & -> & [tail Htail] & Hperm).
  { unfold get_ancestor_states, asm. rewrite length_fmap. cbn. by rewrite Hmap. }
  cbn [mbind outcome_bind]. destruct last_proposed_facts as (Hmo & Hmk & Hmmax).
  assert (∀ b : VerifiedBlock, b ∈ mine :: filter eligible l.*1 → lookup_block d (reference b) = Some b ∧ is_valid_index c (author b) ∧ round b < cr) as Hall.
  { intros b [->|[_ Hb]%list_elem_of_filter]%elem_of_cons; [by rewrite Hmo|by apply (ll_block l)]. }
  destruct (add_parents_spec c (ok_committee _ Hok) (cr - 1) (se_included sel)) as (agg & -> & Hagg).
  { intros b Hb. apply Hall. rewrite <-Hperm. set_solver. }
  cbn [mbind outcome_bind].
  assert (included_ok (co_last_included_ancestors k) cr) as Hinc'.
  { split; [apply Hinc|]. intros a r Hr. apply (io_below _ _ Hinc) in Hr. lia. }
  destruct (smart_select && negb (reached_threshold agg c)) eqn:Hss.
  { apply andb_true_iff in Hss as [-> _]. do 4 eexists. split; [done|]. split; [done|]. split; [by rewrite <-Hctx in Hactx|]. by split; [|left]. }
  destruct (fill_ok (cr - 1) agg (se_included sel) (stable_sort pending_desc (se_pending sel)) Hagg) as (agg' & prop & excl & -> & Hagg' & Hp2 & Hpre & Hr).
  { intros x Hx%elem_of_stable_sort. apply Hall. rewrite <-Hperm. apply elem_of_app. right. by apply list_elem_of_fmap_2. }
  cbn [mbind outcome_bind]. rewrite (stable_sort_Permutation _ (se_pending sel)), Hperm in Hp2.
  destruct Hpre as [rest ->]. rewrite Htail in *. cbn [app] in Hp2, Hagg'. apply Permutation_cons_inv in Hp2.
  pose proof (passes_quorum l Hl _ _ Hp2 agg' Hagg' Hr) as Hre.
  destruct (include_ok (mine :: tail ++ rest) (am_accepted_quorum_round_per_authority asm) excl (se_excluded sel)) as (s & Heqs & Hs).
  { cbn. rewrite <-Hsize. apply Ham. }
  { pose proof (passes_nodup l Hl _ _ Hp2) as Hn. rewrite fmap_app in Hn. apply NoDup_app in Hn as (_ & _ & Hn).
    by rewrite <-list_fmap_compose in Hn. }
  { intros x Hx. destruct (proj1 (passes_elem l _ _ Hp2 x.2)) as [[_ ?] Hxl]; [right; by apply list_elem_of_fmap_2|].
    destruct (ll_block l _ Hl Hxl) as (? & ? & ?). done. }
  cbn [app]. rewrite Heqs. cbn [mbind outcome_bind]. rewrite Hre. cbn [assert mbind outcome_bind].
  do 4 eexists. split; [done|]. split; [done|]. split; [by rewrite <-Hctx in Hactx|]. split; [apply Hs|right].
  by apply (passes_proposal l Hl _ _ Hp2 agg').
Qed.
End selection.
