(* ===== verification/Proposal.v ===== *)
(** * Proposal: this node's own blocks

    The invariant [core_ok] of [Core] between operations, and the correctness of
    [Core::try_new_block] from it: it never panics, and the block it makes is
    valid for every verifier of the committee, is the only block of this
    authority in its round, links only blocks this node has and no block twice,
    and is stored before it is handed out. *)
From S2P Require Import Prelude Committee Block StakeAggregator ThresholdClock Commit Error BlockVerifier Store MemStore.
From S2P Require Import ScoringMetrics LeaderScoring DagState LeaderSchedule Election BaseCommitter UniversalCommitter CommitRule.
From S2P Require Import CommitterSpec DagInv DagOps TestDag BlockManager BlockManagerInv BlockManagerOps BlockManagerTheorems.
From S2P Require Import DagReads QuorumRounds Ancestor Transactions HandleCommit CommitObserver Agreement Core ProposalAncestors.
Local Open Scope N_scope.
Local Open Scope rust_scope.

(** ** What was delivered and logged *)

Section kept.
Context {St : Type} `{StoreLaws St}.
Implicit Type d : DagState St.

(** Genesis blocks are known from the start. *)
Lemma genesis_known d d' r : ds_genesis d' = ds_genesis d → ref_round r = 0 → lookup_block d' r = lookup_block d r.
Proof. intros Hg Hr. unfold lookup_block, get_cached. by rewrite Hr, Hg. Qed.

(** Accepting blocks keeps what was delivered and logged. *)
Lemma node_inv_extends own U d D bs d' : node_inv d D → extends own U d bs d' → node_inv d' D.
Proof.
  intros Hn He. assert (last_commit_round d' = last_commit_round d) as Hl by (unfold last_commit_round; by rewrite (ex_commit _ _ _ _ _ He)).
  split; rewrite ?(ex_context _ _ _ _ _ He), ?Hl; try apply Hn.
  - apply He.
  - unfold gc_enabled. rewrite (ex_context _ _ _ _ _ He). apply (ni_gc _ _ Hn).
  - intros r i Hi. destruct (ex_fresh _ _ _ _ _ He r i Hi) as [Hi'|[-> Hno]]; [by apply (ni_flags _ _ Hn)|].
    symmetry. apply bool_decide_eq_false_2. intros [b Hb]%(ni_known _ _ Hn). congruence.
  - intros r Hr. eapply extends_mono; [done|]. by apply (ni_known _ _ Hn).
Qed.

Lemma log_ok_extends own U d bs d' log n : log_ok d log n → extends own U d bs d' → log_ok d' log n.
Proof.
  intros [Hn Hlast Hidx Hk Hst Hp] He. pose proof (ex_rest _ _ _ _ _ He) as Hrest. injection Hrest as _ _ Hs Hc _.
  split; try done; rewrite ?Hs, ?Hc; try done.
  - unfold last_commit_index. by rewrite (ex_commit _ _ _ _ _ He).
  - intros j sd c x Hx Hin. destruct (Hk j sd c x Hx Hin) as (Hpos & Hlx & Hsx). split_and!; [done|by apply (ex_same _ _ _ _ _ He)|].
    unfold stored. by rewrite Hs.
Qed.

(** A new block [b], accepted and flushed, changes nothing that was delivered or logged. *)
Record kept d (b : VerifiedBlock) d' : Prop := {
  kp_node D : node_inv d D → node_inv d' D;
  kp_log log : log_ok d log (length log) → log_ok d' log (length log);
  kp_commit : ds_last_commit d' = ds_last_commit d;
  kp_scoring : ds_scoring_subdag d' = ds_scoring_subdag d ∧ ds_unscored_committed_subdags d' = ds_unscored_committed_subdags d;
  kp_higher : ds_highest_accepted_round d <= ds_highest_accepted_round d';
  kp_highest : ds_highest_accepted_round d' = ds_highest_accepted_round d ∨ ds_highest_accepted_round d' = round b;
  kp_genesis : ds_genesis d' = ds_genesis d;
}.

Lemma dag_ok_take_votes d n : dag_ok d → dag_ok (take_commit_votes d n).1.
Proof.
  intros Hok. split; try apply Hok; [apply Forall_drop, Hok|]. apply (clock_inv_same d); try done; apply (ok_clock _ Hok).
Qed.

Lemma kept_proposed own U d n (b : VerifiedBlock) d2 d3 : extends own U (take_commit_votes d n).1 [b] d2 → dag_ok d → flush d2 = Ret d3 → kept d b d3.
Proof.
  intros He Hok Hfl. pose proof (flush_counters _ _ Hfl) as (Hsc & Hun & Hhi & Hgen).
  destruct (flush_spec d2 (ex_ok _ _ _ _ _ He)) as (d' & Hfl' & _ & Hl & _ & Hlast & _ & _ & Hw & _ & _ & Hst).
  rewrite Hfl in Hfl'. injection Hfl' as <-. pose proof (ex_rest _ _ _ _ _ He) as Hrest. injection Hrest as Hsc2 Hun2 _ _ Hgen2.
  pose proof (dag_ok_take_votes d n Hok) as Hok1.
  split.
  - intros D Hn. assert (node_inv (take_commit_votes d n).1 D) as Hn1 by (destruct Hn; by split).
    destruct (flush_node_inv d2 D) as (d' & Hfl' & Hn' & _); [by eapply node_inv_extends|]. rewrite Hfl in Hfl'. by injection Hfl' as <-.
  - intros log Hlog. eapply (log_ok_flush d2 d3); [apply He|eapply log_ok_extends; [|exact He]; by destruct Hlog|done..].
  - by rewrite Hlast, (ex_commit _ _ _ _ _ He).
  - by rewrite Hsc, Hun, Hsc2, Hun2.
  - rewrite Hhi. apply (ex_higher _ _ _ _ _ He).
  - rewrite Hhi. destruct (ex_highest _ _ _ _ _ He) as [->|(x & Hx%list_elem_of_singleton & ->)]; [by left|right; by subst x].
  - by rewrite Hgen, Hgen2.
Qed.
End kept.

(** ** Handing an own block to the block manager *)

Section own_block.
Context {St : Type} `{StoreLaws St} (own : AuthorityIndex).
Implicit Type d : DagState St.

Lemma input_ok_made (U U' : VerifiedBlock → Prop) d (b : VerifiedBlock) : (∀ b, U b → U' b) → input_ok U d b → input_ok U' d b.
Proof. intros HU [? ? ? ? ?]. split; auto. Qed.

(** More blocks may have been made. *)
Lemma bm_ok_made (U U' : VerifiedBlock → Prop) g m d : (∀ b, U b → U' b) → bm_ok own U g m d → bm_ok own U' g m d.
Proof.
  intros HU [? [Hidx Ho] ? ? Hs ? ? ?]. split; try done.
  - split; [done|]. intros r b Hb Hr. by apply HU, (Ho r).
  - intros r s Hrs. destruct (Hs r s Hrs) as [? []]. split; [done|]. split; try done. by eapply input_ok_made.
Qed.

Context (U : VerifiedBlock → Prop) (U_unique : one_per_round own U) (g : Round).

(** Nobody waits for [a]. *)
Lemma unsuspend_none c m a : children m a = ∅ → ∃ m', try_unsuspend_children_blocks c m a = Ret (m', []).
Proof.
  unfold children, try_unsuspend_children_blocks. cbn [unsuspend_loop]. intros Hc.
  destruct (bm_missing_ancestors m !! a) as [cs|]; cbn in Hc.
  - rewrite Hc. cbn [foldM mbind outcome_bind]. assert (btree_iter (∅ : gset BlockRef) = []) as -> by (apply elem_of_nil_inv; intros r Hr%elem_of_btree_iter; set_solver).
    cbn [foldM mbind outcome_bind]. destruct (size _); cbn; by eexists.
  - destruct (size _); cbn; by eexists.
Qed.

Lemma accept_own now instant m d (b : VerifiedBlock) : bm_ok own U g m d → median_on d → input_ok U d b → ¬ known d (reference b) →
  reference b ∉ dom (bm_suspended_blocks m) → (∀ r, ¬ waits_for m (reference b) r) → ¬ gced d (reference b) →
  (∀ a, a ∈ ancestors b → known d a) →
  ∃ m' d', try_accept_blocks now instant m d [b] = Ret (m', d', [b], ∅) ∧ bm_ok own U g m' d' ∧ extends own U d [b] d'.
Proof.
  intros Hm0 Hmed Hin Hk Hsus Hwait Hgc Hanc. pose proof (in_block _ _ _ Hin) as Hb.
  unfold try_accept_blocks, try_accept_blocks_internal. change (stable_sort round_le [b]) with [b]. cbn [foldM]. unfold accept_step.
  destruct (received_metrics_ok own U g m d b Hm0 (bo_author _ _ Hb)) as (rounds & -> & Hlen). cbn [mbind outcome_bind]. cbn zeta.
  pose proof (bm_ok_received own U g m d rounds Hm0 Hlen) as Hm.
  destruct (try_accept_one_block_ok instant own U U_unique g _ d b Hm Hin) as (m1 & res & -> & Hres). cbn [mbind outcome_bind].
  destruct res as [b'|to_fetch| |].
  - destruct Hres as (-> & _ & _ & Hsus1 & Hrd & Hl).
    destruct (accept_ready now instant own U U_unique g d m1 (bm_missing_blocks m1) b) as (m' & d' & out & new & Heq & Hacc & Hnew & Hm' & He & _ & _ & _);
      try apply Hm; try done. { by left. } { auto. } { rewrite Hrd. apply Hm. } { by destruct m1. }
    replace (set_missing_blocks m1 (bm_missing_blocks m1)) with m1 in Heq by by destruct m1.
    destruct (unsuspend_none (committee (ds_context d)) m1 (reference b)) as [m2 Hnone].
    { apply set_eq. intros r. split; [|set_solver]. intros Hr. exfalso.
      destruct (proj1 (lo_link _ _ _ _ _ _ _ _ _ Hl (reference b) r)) as (s & Hs & Ha); [by right|].
      apply (Hwait r). exists s. rewrite Hsus1 in Hs. done. }
    rewrite Heq in Hnone. injection Hnone as -> ->. rewrite (Hnew Hmed) in *. rewrite Heq. cbn [mbind outcome_bind app]. rewrite Hacc. cbn [mbind outcome_bind].
    by exists m2, d'.
  - destruct Hres as (_ & _ & a & Ha & Hn). by destruct (Hn (Hanc a Ha)).
  - destruct Hres as [_ [?|?]]; [done|]. by destruct Hsus.
  - by destruct Hres.
Qed.
End own_block.

(** Distinct authorities are no more than the committee. *)
Lemma NoDup_indices c (l : list AuthorityIndex) : NoDup l → (∀ a, a ∈ l → is_valid_index c a) → N.of_nat (length l) <= committee_size c.
Proof.
  intros Hnd Hv. assert (l ⊆+ (N.of_nat <$> seq 0 (N.to_nat (committee_size c)))) as Hsub%submseteq_length.
  { apply NoDup_submseteq; [done|]. intros a Ha. specialize (Hv a Ha). apply Is_true_true, N.ltb_lt in Hv.
    apply list_elem_of_fmap. exists (N.to_nat a). split; [lia|]. apply elem_of_seq. lia. }
  rewrite length_fmap, length_seq in Hsub. lia.
Qed.

(** ** Leaders *)

Lemma leader_of_round o r : o < 3 → r < U32_MOD →
  (leader_round (mk_options 3 0 o) (wave_number (mk_options 3 0 o) r) =? r) = (r mod 3 =? o).
Proof.
  intros Ho Hr. unfold leader_round, wave_number, U32_MOD in *. cbn [wave_length round_offset leader_offset].
  pose proof (N.div_mod' (r - o) 3) as Hdm. pose proof (N.mod_lt (r - o) 3 ltac:(lia)) as Hmod. pose proof (N.div_mod' r 3) as Hr3.
  pose proof (N.mod_lt r 3 ltac:(lia)) as Hm3. revert Hdm Hmod Hr3 Hm3.
  generalize ((r - o) / 3), ((r - o) mod 3), (r / 3), (r mod 3). intros q m q3 m3 Hdm Hmod Hr3 Hm3.
  rewrite (wrap32_small (q * 3)), wrap32_small by (unfold U32_MOD; lia).
  apply eq_bool_prop_intro. rewrite !Is_true_true, !N.eqb_eq. lia.
Qed.

(** The committers of [Core] elect one leader in every round. *)
Definition core_committers (committers : list BaseCommitterOptions) : Prop :=
  build (with_pipeline (with_number_of_leaders UniversalCommitterBuilder_new 1) true) = Ret committers.

Lemma one_leader `{RngLaws} c sched committers r : schedule_ok c sched → core_committers committers → r < U32_MOD →
  ∃ a, get_leaders committers sched r = Ret [a] ∧ is_valid_index c a.
Proof.
  intros [<- Hc Hpos Ht] Hb Hr. vm_compute in Hb. injection Hb as <-.
  destruct (elect_leader_ret sched r Hc Hpos Ht) as (a & Ha & Hv). exists a. split; [|done].
  unfold get_leaders, committer_elect_leader. cbn [mapM leader_offset].
  rewrite !leader_of_round by (unfold U32_MOD in *; lia). rewrite Ha.
  assert (r mod 3 < 3) as Hm by (apply N.mod_lt; lia). revert Hm. generalize (r mod 3). intros m Hm.
  assert (m = 0 ∨ m = 1 ∨ m = 2) as [->|[->| ->]] by lia; reflexivity.
Qed.

(** ** The invariant of [Core] *)

(** Documented behaviour of the third-party code: what is signed with this
    node's keypair verifies under its public key, and blocks can be
    serialised. *)
Class SignerLaws `{Crypto} `{Signer} (key : bytes) := {
  bcs_block_total b : is_Some (bcs_block b);
  bcs_signed_block_total b : is_Some (bcs_signed_block b);
  bcs_block_intent_total x : is_Some (bcs_block_intent x);
  sign_verifies m : ∃ s, decode_signature (protocol_sign m) = Some s ∧ verify_protocol_signature key m s = true;
}.

(** A reference with the digest of no block that this node can sign. *)
Definition fabricated `{Crypto} `{Signer} (r : BlockRef) : Prop :=
  ∀ b s bytes, SignedBlock_new b = Ok s → bcs_signed_block s = Some bytes → reference (new_verified s bytes) ≠ r.

(** [U] are the blocks made so far by anyone, [G] the references of the genesis
    blocks, [g] the round the block manager was swept for.  Every own block is
    known here, and a link to an own block that is not known leads nowhere. *)
Record core_ok {St : Type} `{StoreLaws St} `{Crypto} `{Signer} (U : VerifiedBlock → Prop) (G : gset BlockRef) (g : Round) (k : Core St) : Prop := {
  ck_context : ds_context (co_dag_state k) = co_context k;
  ck_median : consensus_median_timestamp_with_checkpoint_enforcement (protocol_config (co_context k)) = true;
  ck_manager : bm_ok (own_index (co_context k)) U g (co_block_manager k) (co_dag_state k);
  ck_unique : one_per_round (own_index (co_context k)) U;
  ck_own : is_valid_index (committee (co_context k)) (own_index (co_context k));
  ck_known (b : VerifiedBlock) : U b → author b = own_index (co_context k) → known (co_dag_state k) (reference b);
  ck_links (b : VerifiedBlock) r : U b → r ∈ ancestors b → ref_author r = own_index (co_context k) → known (co_dag_state k) r ∨ fabricated r;
  ck_genesis r : ref_round r = 0 → known (co_dag_state k) r ↔ r ∈ G;
  ck_depth : 2 <= gc_depth (protocol_config (co_context k));
  ck_schedule : schedule_ok (committee (co_context k)) (co_leader_schedule k);
  ck_committers : core_committers (co_committers k);
  ck_limits : limits_ok (protocol_config (co_context k));
  ck_consumer : tc_ok (protocol_config (co_context k)) (co_transaction_consumer k);
  ck_scores : am_ok (co_ancestor_state_manager k) ∧ am_context (co_ancestor_state_manager k) = co_context k;
  ck_last : ∃ mine : VerifiedBlock, get_last_proposed_block (co_dag_state k) = Ret mine ∧
    included_ok k (co_last_included_ancestors k) (round mine);
}.

Section propose.
Context {St : Type} `{StoreLaws St} `{RngLaws} `{CryptoLaws} `{!BlockCodec St} `{!Signer} (key : bytes) `{!SignerLaws key}.
Context (U : VerifiedBlock → Prop) (G : gset BlockRef) (g : Round) (k : Core St) (Hk : core_ok U G g k).
Let d := co_dag_state k.
Let c := committee (co_context k).
Let own := own_index (co_context k).
Let cr := clock_round (ds_threshold_clock d).

Lemma core_stamps now : stamps_ok now U d.
Proof. left. unfold d. rewrite (ck_context _ _ _ _ Hk). apply (ck_median _ _ _ _ Hk). Qed.

Lemma core_dag : dag_ok d.
Proof. apply (bm_dag _ _ _ _ _ (ck_manager _ _ _ _ Hk)). Qed.

Context (Hmax : cr < U32_MAX).

(** ** Whether to propose *)

Lemma leaders_exist_ret : ∃ found, leaders_exist k (cr - 1) = Ret found.
Proof.
  destruct (one_leader _ _ _ (cr - 1) (ck_schedule _ _ _ _ Hk) (ck_committers _ _ _ _ Hk)) as (a & Ha & Hv).
  { unfold U32_MAX, U32_MOD in *. lia. }
  unfold leaders_exist, leaders. rewrite Ha. cbn [mbind outcome_bind fmap list_fmap all_at_slots]. fold d.
  pose proof core_dag as Hok. unfold contains_cached_block_at_slot. cbn [slot_round slot_authority].
  destruct (N.eqb_spec (cr - 1) GENESIS_ROUND) as [|Hz]; [by eexists|]. unfold GENESIS_ROUND in Hz.
  pose proof (ck_context _ _ _ _ Hk) as Hctx. fold d in Hctx. rewrite <-Hctx in Hv.
  destruct (valid_lookup d _ _ (ok_evicted_length _ Hok) Hv) as [e He]. rewrite (proj2 (vec_index_ret _ _ _) He). cbn [mbind outcome_bind].
  pose proof (ck_depth _ _ _ _ Hk) as Hd. rewrite <-Hctx in Hd.
  assert (e + 1 < cr) as Hlt by (apply (evicted_below d Hok Hd _ _ He); change (1 < cr); lia).
  rewrite (proj2 (N.leb_gt _ _)) by lia. destruct (refs_valid d Hok a Hv) as (rs & Hrs & _). rewrite (proj2 (vec_index_ret _ _ _) Hrs).
  cbn [mbind outcome_bind]. rewrite set_range_ret by apply slot_bounds_ok. cbn [mbind outcome_bind]. destruct (negb _); by eexists.
Qed.

Lemma ready_ret t : ∃ ready, ready_to_propose k t (cr - 1) = Ret ready.
Proof.
  destruct leaders_exist_ret as [found Hf]. unfold ready_to_propose. rewrite Hf. cbn [mbind outcome_bind].
  destruct found; cbn [negb]; [|by eexists]. destruct (ck_last _ _ _ _ Hk) as (mine & -> & _). by eexists.
Qed.

(** ** The ancestors *)

Context (mine : VerifiedBlock) (Hmine : get_last_proposed_block d = Ret mine) (Hlt : round mine < cr).

Lemma mine_included : included_ok k (co_last_included_ancestors k) (cr - 1).
Proof.
  destruct (ck_last _ _ _ _ Hk) as (mine' & Hm' & [Hl Hb]). fold d in Hm'. rewrite Hmine in Hm'. injection Hm' as <-.
  split; [done|]. intros a r Hr. apply Hb in Hr. lia.
Qed.

Lemma choose_ancestors_ok force : ∃ included asm chosen,
  choose_ancestors k cr force = Ret (set_ancestors k included asm, chosen) ∧ am_ok asm ∧ am_context asm = co_context k ∧
  match chosen with
  | None => force = false ∧ included = co_last_included_ancestors k
  | Some (ancs, _) => included_ok k included cr ∧ proposal_ok d own (co_last_included_ancestors k) cr ancs
  end.
Proof.
  pose proof core_dag as Hok. pose proof (ck_context _ _ _ _ Hk) as Hctx. pose proof (ck_depth _ _ _ _ Hk) as Hd. pose proof (ck_own _ _ _ _ Hk) as Hown.
  destruct (ck_scores _ _ _ _ Hk) as [Ham Hactx]. pose proof mine_included as Hinc. rewrite <-Hctx in Hd, Hown.
  assert (set_ancestors k (co_last_included_ancestors k) (co_ancestor_state_manager k) = k) as Hsame by by destruct k.
  assert (cr <= U32_MAX) as Hmax' by lia.
  unfold choose_ancestors. destruct (_ && _).
  - destruct (smart_ancestors_ok k Hok Hctx Hd Hmax' Hown Hinc mine Hmine Hlt (negb force) Ham Hactx)
      as (included & asm & ancs & excluded & Heq & Ham' & Hactx' & Hinc' & Hcases). fold d cr in Heq. rewrite Heq. cbn [mbind outcome_bind].
    destruct Hcases as [(Hf & -> & ->)|Hp].
    + cbn. destruct force; [done|]. eexists _, asm, None. done.
    + destruct (po_own _ _ _ _ _ Hp) as (b & rest & -> & _). cbn. eexists included, asm, _. split; [done|].
      rewrite Hctx in Hp. done.
  - destruct (ancestors_to_propose_ok k Hok Hctx Hd Hmax' Hown Hinc) as (ancs & Heq & Hp). fold d cr in Heq. rewrite Heq.
    cbn [mbind outcome_bind]. eexists _, _, _. rewrite Hsame. split; [done|]. split; [done|]. split; [done|]. rewrite Hctx in Hp.
    split; [|done]. split; [apply Hinc|]. intros a r Hr. apply (io_below _ _ _ Hinc) in Hr. lia.
Qed.

(** ** The block *)

Lemma mark_included_ok included (ancs : list VerifiedBlock) : included_ok k included cr →
  (∀ b : VerifiedBlock, b ∈ ancs → is_valid_index c (author b) ∧ round b < cr) →
  ∃ included', mark_included included ancs = Ret included' ∧ included_ok k included' cr.
Proof.
  intros Hinc Hv. apply (foldM_inv (λ included, included_ok k included cr)); [|done].
  intros inc b Hb [Hl Hbelow]. destruct (Hv b Hb) as [Ha Hr]. apply Is_true_true, N.ltb_lt in Ha.
  pose proof (ck_context _ _ _ _ Hk) as Hctx. fold d in Hctx, Hl. rewrite Hctx in Hl. fold c in Hl.
  rewrite vec_set_in by lia. eexists. split; [done|]. split.
  - rewrite length_insert. fold d. by rewrite Hctx.
  - intros a r. rewrite list_lookup_insert. case_decide; [by intros [= <-]|apply Hbelow].
Qed.

Context (verify_batch : list bytes → result unit string) (v : SignedBlockVerifier).
Context (Hvc : committee (verifier_context v) = c) (Hvp : protocol_config (verifier_context v) = protocol_config (co_context k)).
Context (Hvg : verifier_genesis v = G) (Hkey : ∃ a, authority c own = Ret a ∧ protocol_key a = key).

Record proposed_block (now : N) (ancs : list VerifiedBlock) (txs : list Transaction) (b : VerifiedBlock) : Prop := {
  pb_epoch : epoch b = committee_epoch c;
  pb_round : round b = cr;
  pb_author : author b = own;
  pb_ancestors : ancestors b = reference <$> ancs;
  pb_transactions : transactions b = txs;
  pb_ref : ref_ok (reference b);
  pb_storable : votes_ok b ∧ store_accepts_block St b;
  pb_signature : verify_signature (verifier_context v) b = Ret (Ok tt);
  pb_made : ¬ fabricated (reference b);
}.

Lemma make_block_ok now ancs txs votes : Forall commit_ref_ok votes → ∃ b, make_block k cr now ancs txs votes = Ret b ∧ proposed_block now ancs txs b.
Proof.
  intros Hvotes. unfold make_block, SignedBlock_new, compute_block_signature, compute_inner_block_digest. set (b0 := V1 _).
  destruct (bcs_block_total b0) as [ser Hser]. rewrite Hser. destruct (bcs_block_intent_total (hash_function ser)) as [m Hm]. rewrite Hm.
  cbn [unwrapM unwrap mbind outcome_bind]. destruct (bcs_signed_block_total (mk_signed b0 (protocol_sign m))) as [ser' Hser']. rewrite Hser'.
  cbn [expect mbind outcome_bind]. eexists. split; [done|].
  pose proof (ck_own _ _ _ _ Hk) as Hown. split; try done.
  - split_and!; [done| |apply hash_bound]. cbn. apply Is_true_true, N.ltb_lt in Hown.
    destruct (committee_ok_fields _ (so_committee_ok _ _ (ck_schedule _ _ _ _ Hk))) as (_ & _ & _ & _ & _ & _ & Hs). fold c own in Hown, Hs |- *. lia.
  - split; [exact Hvotes|by apply accepts_new_block].
  - unfold verify_signature. rewrite Hvc.
    match goal with |- context [is_valid_index c ?x] => change x with own end.
    fold own c in Hown. destruct (is_valid_index c own); [|done]. destruct Hkey as (a & -> & Hka). cbn [mbind outcome_bind].
    unfold verify_block_signature, compute_inner_block_digest. cbn. fold b0. rewrite Hser, Hm, Hka.
    destruct (sign_verifies m) as (s & -> & ->). done.
  - intros Hf. apply (Hf b0 (mk_signed b0 (protocol_sign m)) ser'); [|done|done].
    unfold SignedBlock_new, compute_block_signature, compute_inner_block_digest. by rewrite Hser, Hm.
Qed.

(** The chosen ancestors make a valid block. *)
Lemma proposed_ancestors now included ancs txs (b : VerifiedBlock) : proposal_ok d own included cr ancs → proposed_block now ancs txs b →
  valid_ancestors c G b ∧ block_ok c b ∧ ∀ a, a ∈ ancestors b → known d a.
Proof.
  intros Hp Hb. pose proof core_dag as Hok. pose proof (ck_context _ _ _ _ Hk) as Hctx. fold d in Hctx.
  destruct Hp as [Hkn Hbe Hnd (b0 & rest & Hhd & Ho) _ Hq]. rewrite Hctx in Hkn, Hq. fold c in Hkn, Hq.
  assert (∀ a, a ∈ ancestors b → ∃ x : VerifiedBlock, x ∈ ancs ∧ a = reference x) as Hanc.
  { rewrite (pb_ancestors _ _ _ _ Hb). intros a (x & -> & Hx)%list_elem_of_fmap. eauto. }
  assert (∀ a, a ∈ ancestors b → known d a) as Hk1.
  { intros a (x & Hx & ->)%Hanc. unfold known. destruct (Hkn x Hx) as [-> _]. by eexists. }
  assert (∀ a, a ∈ ancestors b → is_valid_index c (ref_author a)) as Hidx by (intros a (x & Hx & ->)%Hanc; by apply Hkn).
  assert (∀ a, a ∈ ancestors b → ref_round a < round b) as Hround.
  { intros a (x & Hx & ->)%Hanc. rewrite (pb_round _ _ _ _ Hb). by apply Hbe. }
  assert (NoDup (ref_author <$> ancestors b)) as Hnd'.
  { rewrite (pb_ancestors _ _ _ _ Hb), <-list_fmap_compose. exact Hnd. }
  assert (reached_quorum c (set_stake c (ref_authors_at (round b - 1) (ancestors b)))) as Hq'.
  { replace (ref_authors_at (round b - 1) (ancestors b)) with (block_authors_at (cr - 1) ancs); [done|].
    rewrite (pb_round _ _ _ _ Hb), (pb_ancestors _ _ _ _ Hb). apply set_eq. intros i. rewrite elem_of_block_authors_at.
    unfold ref_authors_at. rewrite elem_of_list_to_set, list_elem_of_fmap. setoid_rewrite list_elem_of_filter.
    setoid_rewrite list_elem_of_fmap. split; [intros (x & ? & ? & ?)|intros (a & ? & ? & x & ? & ?)]; [exists (reference x)|exists x]; naive_solver. }
  assert (is_valid_index c (author b)) as Hau by (rewrite (pb_author _ _ _ _ Hb); apply (ck_own _ _ _ _ Hk)).
  split; [|by split]. split; try done.
  - rewrite (pb_ancestors _ _ _ _ Hb), Hhd. done.
  - pose proof (NoDup_indices c _ Hnd') as Hlen. rewrite length_fmap in Hlen. apply Hlen. intros a (x & -> & Hx)%list_elem_of_fmap. by apply Hidx.
  - intros a. rewrite (pb_ancestors _ _ _ _ Hb), Hhd. cbn. intros [= <-]. by rewrite (pb_author _ _ _ _ Hb).
  - intros a Ha Hz. apply (ck_genesis _ _ _ _ Hk); [done|by apply Hk1].
Qed.

(** Own blocks so far are below the proposal. *)
Lemma own_below r : known d r → ref_author r = own → ref_round r <= round mine.
Proof.
  intros Hkr Hr. pose proof core_dag as Hok. destruct (decide (ref_round r = 0)); [lia|].
  destruct (known_above d Hok r Hkr) as [_ (r' & i & Hi & Ha & Hle)]; [lia|]. etrans; [exact Hle|].
  pose proof (ck_context _ _ _ _ Hk) as Hctx. pose proof (ck_own _ _ _ _ Hk) as Hown. rewrite <-Hctx in Hown.
  destruct (last_proposed_facts k Hok Hown mine Hmine) as (_ & _ & Hm). apply (Hm r' i Hi). rewrite Ha, Hr. by rewrite Hctx.
Qed.

(** With nothing left to write, every known block is stored. *)
Lemma lookup_stored (d' : DagState St) r b : dag_ok d' → ds_blocks_to_write d' = [] → 0 < ref_round r → lookup_block d' r = Some b →
  stored d' r = Some b.
Proof.
  intros Hok' Hw Hr. unfold lookup_block, get_cached. rewrite (proj2 (N.eqb_neq _ _)) by (unfold GENESIS_ROUND; lia).
  destruct (ds_recent_blocks d' !! r) as [i|] eqn:Hi; [|done]. intros [= <-].
  destruct (ok_persist _ Hok' _ _ Hi) as [Hin|]; [|done]. rewrite Hw in Hin. set_solver.
Qed.

Definition with_block (b : VerifiedBlock) (x : VerifiedBlock) : Prop := U x ∨ x = b.

Lemma one_per_round_proposed (b : VerifiedBlock) : author b = own → round b = cr → one_per_round own (with_block b).
Proof.
  intros Hb Hr.
  assert (∀ x, U x → slot x = slot b → False) as Hno.
  { intros x Hx [= Hrx Hax]. assert (ref_round (reference x) <= round mine); [|simpl in *; lia].
    apply own_below; [|simpl; congruence]. apply (ck_known _ _ _ _ Hk x); [done|fold own; congruence]. }
  intros x y [Hx| ->] [Hy| ->] Ha Hs; [by apply (ck_unique _ _ _ _ Hk)|by destruct (Hno x Hx)|by destruct (Hno y Hy)|done].
Qed.

Lemma accept_proposed t (d1 : DagState St) now ancs txs included (b : VerifiedBlock) :
  proposal_ok d own included cr ancs → proposed_block now ancs txs b →
  bm_ok own U g (co_block_manager k) d1 → ds_context d1 = ds_context d → (∀ r, lookup_block d1 r = lookup_block d r) →
  gc_round d1 = gc_round d →
  ∃ m' d2, try_accept_blocks (t_accept t) (t_instant t) (co_block_manager k) d1 [b] = Ret (m', d2, [b], ∅) ∧
    bm_ok own (with_block b) g m' d2 ∧ extends own (with_block b) d1 [b] d2.
Proof.
  intros Hp Hb Hm1 Hctx1 Hl Hgc1. pose proof core_dag as Hok. pose proof (ck_context _ _ _ _ Hk) as Hctx. fold d in Hctx.
  destruct (proposed_ancestors _ _ _ _ _ Hp Hb) as (Hva & Hbo & Hanc).
  assert (∀ r, known d1 r ↔ known d r) as Hk1 by (intros r; unfold known; by rewrite Hl).
  destruct (ok_clock _ Hok) as [Hpos _ _ _ _ _ _]. fold cr in Hpos.
  assert (∀ r, known d r → ref_author r = own → ref_round r < cr) as Hbelow.
  { intros r Hr Ha. pose proof (own_below r Hr Ha). lia. }
  assert (¬ known d (reference b)) as Hnew.
  { intros Hkb. apply Hbelow in Hkb; [|by rewrite <-(pb_author _ _ _ _ Hb)]. simpl in Hkb. rewrite (pb_round _ _ _ _ Hb) in Hkb. lia. }
  assert (∀ x, U x → reference b ∉ ancestors x ∧ reference x ≠ reference b) as Hunref.
  { intros x Hx. split.
    - intros Hin. destruct (ck_links _ _ _ _ Hk x (reference b) Hx Hin (pb_author _ _ _ _ Hb)); [done|by apply (pb_made _ _ _ _ Hb)].
    - intros Heq. apply Hnew. rewrite <-Heq. apply (ck_known _ _ _ _ Hk x Hx).
      change (author x) with (ref_author (reference x)). rewrite Heq. apply (pb_author _ _ _ _ Hb). }
  apply (accept_own own (with_block b)).
  - apply one_per_round_proposed; apply Hb.
  - eapply bm_ok_made; [|exact Hm1]. by left.
  - rewrite Hctx1, Hctx. apply (ck_median _ _ _ _ Hk).
  - split; [by rewrite (pb_round _ _ _ _ Hb)|by rewrite Hctx1, Hctx|apply Hb|apply Hb| |by right].
    intros a Ha _. by apply Hk1, Hanc.
  - by rewrite Hk1.
  - intros [s Hs]%elem_of_dom. destruct (bm_suspended _ _ _ _ _ Hm1 _ s Hs) as [_ [Href Hi _ _ _]].
    by destruct (Hunref _ (in_made _ _ _ Hi)).
  - intros r (s & Hs & Ha). destruct (bm_suspended _ _ _ _ _ Hm1 _ s Hs) as [_ [_ Hi _ Hmi _]].
    destruct (Hunref _ (in_made _ _ _ Hi)) as [Hn _]. by apply Hn, Hmi.
  - intros [_ [_ Hle]]. simpl in Hle. rewrite (pb_round _ _ _ _ Hb) in Hle.
    rewrite Hgc1 in Hle. pose proof (ck_depth _ _ _ _ Hk) as Hd. rewrite <-Hctx in Hd.
    pose proof (gc_round_below d Hok Hd) as Hg. fold cr in Hg. lia.
  - intros a Ha. by apply Hk1, Hanc.
Qed.

Lemma dag_ok_votes n : dag_ok (take_commit_votes d n).1.
Proof. apply dag_ok_take_votes, core_dag. Qed.

(** What proposing the block [b] achieves; [k'] is the core afterwards. *)
Record proposed (ancs : list VerifiedBlock) (b : VerifiedBlock) (k' : Core St) : Prop := {
  pr_core : core_ok (with_block b) G g k';
  pr_valid : valid_block verify_batch v b;
  pr_slot : round b = cr ∧ author b = own;
  pr_links : ancestors b = reference <$> ancs;
  pr_transactions : ∃ taken, waiting (co_transaction_consumer k) = taken ++ waiting (co_transaction_consumer k') ∧
    transactions b = guards_transactions taken;
  pr_stored : stored (co_dag_state k') (reference b) = Some b;
  pr_kept : kept d b (co_dag_state k');
  pr_shape : ∃ included asm m' d' consumer evs, k' = set_consumer (set_dag (set_ancestors k included asm) m' d') consumer evs;
}.

Lemma core_ok_proposed (b : VerifiedBlock) included asm m' consumer evs d1 d2 d3 :
  author b = own → round b = cr → (∀ a, a ∈ ancestors b → known d a) →
  am_ok asm → am_context asm = co_context k → included_ok k included cr → tc_ok (protocol_config (co_context k)) consumer →
  ds_context d1 = ds_context d → (∀ r, lookup_block d1 r = lookup_block d r) →
  bm_ok own (with_block b) g m' d2 → extends own (with_block b) d1 [b] d2 →
  dag_ok d3 → (∀ r, lookup_block d3 r = lookup_block d2 r) → ds_context d3 = ds_context d2 → ds_last_commit d3 = ds_last_commit d2 →
  (∀ r i, ds_recent_blocks d3 !! r = Some i → ds_recent_blocks d2 !! r = Some i) →
  core_ok (with_block b) G g (set_consumer (set_dag (set_ancestors k included asm) m' d3) consumer evs).
Proof.
  intros Hau Hr Hanc Ham Hactx Hinc Htc Hc1 Hl1 Hm2 He Hok3 Hl3 Hc3 Hlc3 Hrec.
  pose proof (ck_context _ _ _ _ Hk) as Hctx. fold d in Hctx.
  assert (ds_context d3 = co_context k) as Hctx3 by by rewrite Hc3, (ex_context _ _ _ _ _ He), Hc1.
  assert (∀ r, known d3 r ↔ known d r ∨ r = reference b) as Hkn.
  { intros r. unfold known at 1. rewrite Hl3. fold (known d2 r). rewrite (ex_known _ _ _ _ _ He). unfold known. rewrite Hl1.
    cbn. by rewrite list_elem_of_singleton. }
  destruct (ok_clock _ core_dag) as [Hpos _ _ _ _ _ _]. fold cr in Hpos.
  split; try apply Hk; cbn [set_consumer set_dag set_ancestors co_context co_dag_state co_block_manager co_transaction_consumer
    co_ancestor_state_manager co_last_included_ancestors]; try done.
  - apply (bm_ok_advance own (with_block b) g m' d2 d3); try done.
    unfold gc_round, calculate_gc_round, last_commit_round. rewrite Hc3, Hlc3. done.
  - by apply one_per_round_proposed.
  - intros x [Hx| ->] Hax; apply Hkn; [left; by apply (ck_known _ _ _ _ Hk)|by right].
  - intros x r [Hx| ->] Hxr Har; rewrite Hkn; [|left; left; by apply Hanc]. destruct (ck_links _ _ _ _ Hk x r Hx Hxr Har); auto.
  - intros r Hz. rewrite <-(ck_genesis _ _ _ _ Hk r Hz), Hkn. split; [|by left]. intros [?| ->]; [done|]. simpl in Hz. lia.
  - assert (is_valid_index (committee (ds_context d3)) own) as Hown3 by (rewrite Hctx3; apply (ck_own _ _ _ _ Hk)).
    destruct (last_block_ret d3 Hok3 own Hown3) as (mine' & Hm' & _ & _ & _ & Hmax'). exists mine'.
    split; [unfold get_last_proposed_block; by rewrite Hctx3|].
    assert (cr <= round mine') as Hge.
    { destruct (known_above d3 Hok3 (reference b)) as [_ (r' & i & Hi & Ha & Hle)]; [by apply Hkn; right|simpl; lia|].
      simpl in Hle, Ha. rewrite Hr in Hle. pose proof (Hmax' r' i Hi ltac:(congruence)). lia. }
    destruct Hinc as [Hlen Hbe]. split; [cbn; by rewrite Hctx3, <-Hctx|]. intros a r Hra. specialize (Hbe a r Hra). lia.
Qed.

(** The checks before the block is made. *)
Lemma proposal_checks t included asm ancs : included_ok k included cr → proposal_ok d own (co_last_included_ancestors k) cr ancs →
  ∃ included', included_ok k included' cr ∧
    prepare_proposal (set_ancestors k included asm) t cr ancs = Ret (set_ancestors k included' asm).
Proof.
  intros Hinc Hp. pose proof (ck_context _ _ _ _ Hk) as Hctx. fold d in Hctx.
  assert (∀ b : VerifiedBlock, b ∈ ancs → is_valid_index c (author b) ∧ round b < cr) as Hv.
  { intros b Hb. split; [|by apply (po_below _ _ _ _ _ Hp)]. destruct (po_known _ _ _ _ _ Hp b Hb) as [_ Hv]. by rewrite Hctx in Hv. }
  unfold prepare_proposal. cbn [set_ancestors co_last_included_ancestors co_ancestor_state_manager co_context]. fold c.
  destruct (mark_included_ok included ancs Hinc Hv) as (included' & -> & Hinc'). exists included'. split; [done|].
  cbn [mbind outcome_bind]. unfold first_leader, leaders. cbn [set_ancestors co_committers co_leader_schedule co_context].
  destruct (one_leader _ _ _ (cr - 1) (ck_schedule _ _ _ _ Hk) (ck_committers _ _ _ _ Hk)) as (a & Ha & Hva).
  { unfold U32_MAX, U32_MOD in *. lia. }
  rewrite Ha. cbn. fold c in Hva. destruct (authority_ret c a Hva) as [x ->]. cbn [mbind outcome_bind].
  assert (∀ b : VerifiedBlock, b ∈ ancs → ∃ y, authority c (author b) = Ret y) as Hau by (intros b Hb; apply authority_ret, Hv, Hb).
  destruct (mapM_total (λ b : VerifiedBlock, authority c (author b)) ancs Hau) as [ys ->]. cbn [mbind outcome_bind].
  rewrite (mapM_ret _ (λ _, tt)); [done|]. intros b Hb. unfold check_ancestor_timestamp.
  rewrite (ck_median _ _ _ _ Hk).
  destruct (_ <? _); [|done]. fold c. by destruct (Hau b Hb) as [y ->].
Qed.

Lemma propose_block_ok t included asm ancs excluded : am_ok asm → am_context asm = co_context k → included_ok k included cr →
  proposal_ok d own (co_last_included_ancestors k) cr ancs →
  (∀ n, verify_batch (data <$> guards_transactions (take n (waiting (co_transaction_consumer k)))) = Ok tt) →
  ∃ k' b, propose_block (set_ancestors k included asm) t cr ancs excluded = Ret (k', mk_extended b excluded) ∧ proposed ancs b k'.
Proof.
  intros Ham Hactx Hinc Hp Hvb. destruct (proposal_checks t included asm ancs Hinc Hp) as (included' & Hinc' & Hpre).
  unfold propose_block. rewrite Hpre. cbn [mbind outcome_bind]. cbn [set_ancestors co_transaction_consumer co_dag_state co_block_manager co_tx_events].
  destruct (next_spec _ (ck_limits _ _ _ _ Hk) _ (ck_consumer _ _ _ _ Hk)) as (consumer & taken & limit & -> & Hwt & Htc & _ & _ & Hwl & _ & _).
  fold d. destruct (take_commit_votes d MAX_COMMIT_VOTES_PER_BLOCK) as [d1 votes] eqn:Hvotes.
  assert (d1 = (take_commit_votes d MAX_COMMIT_VOTES_PER_BLOCK).1) as Hd1 by by rewrite Hvotes.
  destruct (make_block_ok (t_now t) ancs (guards_transactions taken) votes) as (b & Hmk & Hb); [injection Hvotes as _ <-; apply Forall_take, core_dag|].
  change (make_block (set_ancestors k included' asm)) with (make_block k). rewrite Hmk. cbn [mbind outcome_bind].
  assert (get_last_proposed_block d1 = Ret mine) as -> by by rewrite Hd1. cbn [mbind outcome_bind].
  pose proof (dag_ok_votes MAX_COMMIT_VOTES_PER_BLOCK) as Hok1. rewrite <-Hd1 in Hok1.
  assert (ds_context d1 = ds_context d ∧ (∀ r, lookup_block d1 r = lookup_block d r) ∧ gc_round d1 = gc_round d) as (Hc1 & Hl1 & Hg1) by by rewrite Hd1.
  destruct (accept_proposed t d1 _ _ _ _ b Hp Hb) as (m' & d2 & Hacc & Hm2 & He); [|done..|].
  { apply (bm_ok_advance own U g _ d d1); [apply Hk|done..|by rewrite Hg1|done]. }
  rewrite Hacc. cbn. pose proof (bm_dag _ _ _ _ _ Hm2) as Hok2.
  destruct (flush_spec d2 Hok2) as (d3 & Hfl & Hok3 & Hl3 & Hrec3 & Hlc3 & Hc3 & Hw3 & _). rewrite Hfl. cbn [mbind outcome_bind].
  destruct (acknowledge_spec consumer (included_in_block_ack <$> taken) (reference b)) as (subs & evs & -> & _).
  destruct (proposed_ancestors _ _ _ _ _ Hp Hb) as (Hva & Hbo & Hanc).
  eexists _, b. split; [done|]. split.
  - apply (core_ok_proposed b included' asm m' _ _ d1 d2 d3); try done; apply Hb.
  - split; rewrite ?Hvc, ?Hvg; [apply Hb| |apply Hbo|apply Hb|done| |].
    + rewrite (pb_round _ _ _ _ Hb). apply (ok_clock _ core_dag).
    + rewrite (pb_transactions _ _ _ _ Hb). pose proof (ck_limits _ _ _ _ Hk) as Hlim. rewrite <-Hvp in Hlim, Hwl.
      by apply check_transactions_ok, within_limits_valid.
    + rewrite (pb_transactions _ _ _ _ Hb). specialize (Hvb (length taken)). by rewrite Hwt, take_app_length in Hvb.
  - split; apply Hb.
  - apply Hb.
  - exists taken. split; [done|apply Hb].
  - apply lookup_stored; [done|done| |].
    { simpl. rewrite (pb_round _ _ _ _ Hb). apply (ok_clock _ core_dag). }
    cbn. rewrite Hl3. destruct (proj2 (ex_known _ _ _ _ _ He (reference b))) as [b' Hb']; [right; left|].
    destruct (ex_new _ _ _ _ _ He _ _ Hb') as [Hold|Hin%list_elem_of_singleton]; [|by subst].
    destruct (ok_clock _ core_dag) as [Hpos _ _ _ _ _ _]. fold cr in Hpos. rewrite Hl1 in Hold.
    assert (ref_round (reference b) <= round mine) as Hle by (apply own_below; [by eexists|apply Hb]).
    simpl in Hle. rewrite (pb_round _ _ _ _ Hb) in Hle. lia.
  - rewrite Hd1 in He. by eapply kept_proposed; [exact He|apply core_dag|].
  - by eexists _, _, _, _, _, _.
Qed.
End propose.

Lemma set_ancestors_same {St} (k : Core St) : ∃ included asm, k = set_ancestors k included asm.
Proof. exists (co_last_included_ancestors k), (co_ancestor_state_manager k). by destruct k. Qed.

Lemma try_new_block_spec {St : Type} `{StoreLaws St} `{RngLaws} `{CryptoLaws} `{!BlockCodec St} `{!Signer} (key : bytes) `{!SignerLaws key}
    (U : VerifiedBlock → Prop) (G : gset BlockRef) (g : Round) (k : Core St) (t : Times) (force : bool)
    (verify_batch : list bytes → result unit string) (v : SignedBlockVerifier) :
  core_ok U G g k → threshold_clock_round k < U32_MAX →
  committee (verifier_context v) = committee (co_context k) →
  protocol_config (verifier_context v) = protocol_config (co_context k) → verifier_genesis v = G →
  (∃ a, authority (committee (co_context k)) (own_index (co_context k)) = Ret a ∧ protocol_key a = key) →
  (∀ n, verify_batch (data <$> guards_transactions (take n (waiting (co_transaction_consumer k)))) = Ok tt) →
  ∃ k' o, try_new_block k t force = Ret (k', o) ∧
  match o with
  | None => core_ok U G g k' ∧ (∃ included asm, k' = set_ancestors k included asm) ∧
      (force = true → ∃ mine : VerifiedBlock, get_last_proposed_block (co_dag_state k) = Ret mine ∧ threshold_clock_round k <= round mine)
  | Some e =>
      let b := eb_block e in
      core_ok (with_block U b) G g k' ∧ valid_block verify_batch v b ∧
      author b = own_index (co_context k) ∧ round b = threshold_clock_round k ∧
      (∀ x : VerifiedBlock, U x → author x = own_index (co_context k) → round x < round b) ∧
      (∀ a, a ∈ ancestors b → known (co_dag_state k) a ∧
        (ref_author a ≠ own_index (co_context k) → ∀ r,
          co_last_included_ancestors k !! N.to_nat (ref_author a) = Some (Some r) → ref_round r < ref_round a)) ∧
      (∃ taken, waiting (co_transaction_consumer k) = taken ++ waiting (co_transaction_consumer k') ∧
        transactions b = guards_transactions taken) ∧
      stored (co_dag_state k') (reference b) = Some b ∧ kept (co_dag_state k) b (co_dag_state k') ∧
      ∃ included asm m' d' consumer evs, k' = set_consumer (set_dag (set_ancestors k included asm) m' d') consumer evs
  end.
Proof.
  intros Hk Hmax Hvc Hvp Hvg Hkey Hvb. destruct (ck_last _ _ _ _ Hk) as (mine & Hmine & Hincl). unfold try_new_block.
  rewrite Hmine. cbn [mbind outcome_bind]. cbn zeta. destruct (N.leb_spec (threshold_clock_round k) (round mine)) as [Hle|Hlt].
  { exists k, None. split; [done|]. split; [done|]. split; [by apply set_ancestors_same|]. eauto. }
  assert (∃ ready, (if force then Ret true else ready_to_propose k t (threshold_clock_round k - 1)) = Ret ready ∧ (force = true → ready = true))
    as (ready & -> & Hready).
  { destruct force; [by eexists|]. destruct (ready_ret U G g k Hk Hmax t) as [ready Hr]. by exists ready. }
  cbn [mbind outcome_bind]. destruct ready; cbn [negb]; [|exists k, None; split; [done|]; split; [done|]; split; [by apply set_ancestors_same|]; by intros ?%Hready].
  destruct (choose_ancestors_ok U G g k Hk Hmax mine Hmine Hlt force) as (included & asm & chosen & Heq & Ham & Hactx & Hch).
  unfold threshold_clock_round in *. rewrite Heq. cbn [mbind outcome_bind]. destruct chosen as [[ancs excluded]|].
  - destruct Hch as [Hinc Hp].
    destruct (propose_block_ok key U G g k Hk Hmax mine Hmine Hlt verify_batch v Hvc Hvp Hvg Hkey t included asm ancs excluded Ham Hactx Hinc Hp Hvb)
      as (k' & b & Hpb & [Hcore Hval [Hr Hau] Hlinks Htx Hst Hkept Hshape]). rewrite Hpb. cbn [mbind outcome_bind].
    eexists _, _. split; [done|]. cbn [eb_block]. split_and!; try done.
    + intros x Hx Hax. rewrite Hr. eapply N.le_lt_trans; [|exact Hlt].
      change (round x) with (ref_round (reference x)). eapply (own_below U G g k Hk); try done. by apply (ck_known _ _ _ _ Hk x).
    + rewrite Hlinks. intros a (x & -> & Hx)%list_elem_of_fmap. split.
      * unfold known. destruct (po_known _ _ _ _ _ Hp x Hx) as [-> _]. by eexists.
      * intros Hne r Hra. by apply (po_later _ _ _ _ _ Hp x r Hx).
  - destruct Hch as [-> ->]. eexists _, None. split; [done|]. split; [|split; [by eexists _, _|done]].
    destruct Hk, Hincl. split; try done. exists mine. by split.
Qed.

(** C7: proposing.  From the invariant of [Core], which is of versions with median
    timestamps and garbage collection, [try_new_block] never panics
    and keeps the invariant, with smart ancestor selection and without.  When it
    makes a block, the block is of this authority and of the round of the
    threshold clock, above all its earlier blocks, so this node does not
    equivocate; every verifier of the committee finds it valid; each ancestor is
    a block this node has, and those of others are later than what earlier
    proposals have linked; the block carries the transactions that waited first;
    and it is stored before it is handed out.  When it makes none, the DAG is
    unchanged, and if the proposal was forced then there is already an own block
    of the clock's round. *)
Theorem try_new_block_correct {St : Type} `{StoreLaws St} `{RngLaws} `{CryptoLaws} `{!BlockCodec St} `{!Signer} (key : bytes) `{!SignerLaws key}
    (U : VerifiedBlock → Prop) (G : gset BlockRef) (g : Round) (k : Core St) (t : Times) (force : bool)
    (verify_batch : list bytes → result unit string) (v : SignedBlockVerifier) :
  core_ok U G g k → threshold_clock_round k < U32_MAX →
  committee (verifier_context v) = committee (co_context k) →
  protocol_config (verifier_context v) = protocol_config (co_context k) → verifier_genesis v = G →
  (∃ a, authority (committee (co_context k)) (own_index (co_context k)) = Ret a ∧ protocol_key a = key) →
  (∀ n, verify_batch (data <$> guards_transactions (take n (waiting (co_transaction_consumer k)))) = Ok tt) →
  ∃ k' o, try_new_block k t force = Ret (k', o) ∧
  match o with
  | None => core_ok U G g k' ∧ co_dag_state k' = co_dag_state k ∧
      (force = true → ∃ mine : VerifiedBlock, get_last_proposed_block (co_dag_state k) = Ret mine ∧ threshold_clock_round k <= round mine)
  | Some e =>
      let b := eb_block e in
      core_ok (with_block U b) G g k' ∧ valid_block verify_batch v b ∧
      author b = own_index (co_context k) ∧ round b = threshold_clock_round k ∧
      (∀ x : VerifiedBlock, U x → author x = own_index (co_context k) → round x < round b) ∧
      (∀ a, a ∈ ancestors b → known (co_dag_state k) a ∧
        (ref_author a ≠ own_index (co_context k) → ∀ r,
          co_last_included_ancestors k !! N.to_nat (ref_author a) = Some (Some r) → ref_round r < ref_round a)) ∧
      (∃ taken, waiting (co_transaction_consumer k) = taken ++ waiting (co_transaction_consumer k') ∧
        transactions b = guards_transactions taken) ∧
      stored (co_dag_state k') (reference b) = Some b
  end.
Proof.
  intros Hk Hmax Hvc Hvp Hvg Hkey Hvb.
  destruct (try_new_block_spec key U G g k t force verify_batch v Hk Hmax Hvc Hvp Hvg Hkey Hvb) as (k' & o & Heq & Ho).
  exists k', o. split; [done|]. destruct o as [e|]; [by destruct Ho as (? & ? & ? & ? & ? & ? & ? & ? & _)|].
  by destruct Ho as (? & (included & asm & ->) & ?).
Qed.

(** ** A concrete core *)

Definition test_key : bytes := match authority (test_committee [1; 1; 1; 1]) 0 with Ret a => protocol_key a | Panic _ => [] end.
Definition test_signer : Signer := {| protocol_sign m := test_key ++ m |}.
#[export] Instance test_signer_laws : @SignerLaws test_crypto test_signer test_key.
Proof.
  split; try by eexists. intros m. exists (test_key ++ m). split; [done|]. apply bool_decide_eq_true_2. done.
Qed.

Definition test_core_consumer : TransactionConsumer :=
  mk_consumer (test_context 60) [mk_guard [mk_transaction [1; 2; 3]] 7]
    (max_transactions_in_block_bytes (test_config 60)) (max_num_transactions_in_block (test_config 60)) None ∅.

(** A node that has just started, with one transaction waiting. *)
Definition test_core : Core MemStore :=
  mk_core (test_context 60) test_core_consumer test_manager true 0 [mk_options 3 0 0; mk_options 3 0 1; mk_options 3 0 2] 0
    (replicate 4 None) (mk_slot 0 0) test_schedule (mk_sender [] false) (CoreSignals_new true) test_fresh (Some 0)
    (AncestorStateManager_new (test_context 60)) [].

Definition test_genesis_refs : gset BlockRef := list_to_set (reference <$> test_genesis_blocks).

Lemma test_core_ok : core_ok (H1 := test_crypto) (H2 := test_signer) (λ _, False) test_genesis_refs 0 test_core.
Proof.
  split; try done.
  - apply (bm_ok_new 0 _ test_fresh); [apply test_fresh_ok|by apply (own_ok_fresh (test_context 60))].
  - by intros ? ? [].
  - intros r Hz. split.
    + intros [b Hb]. cbn [test_core co_dag_state] in Hb. unfold lookup_block, get_cached in Hb. rewrite Hz in Hb. cbn [N.eqb GENESIS_ROUND] in Hb.
      apply insert_blocks_lookup_inv in Hb as [[Hb <-]|Hb]; [|done]. apply elem_of_list_to_set. by apply list_elem_of_fmap_2.
    + intros (b & -> & Hb%list_elem_of_In)%elem_of_list_to_set%list_elem_of_fmap.
      assert (forallb (λ b, match lookup_block test_fresh (reference b) with Some _ => true | None => false end) test_genesis_blocks = true)
        as Hall by (vm_compute; reflexivity).
      rewrite forallb_forall in Hall. specialize (Hall b Hb). unfold known. cbn [test_core co_dag_state].
      destruct (lookup_block test_fresh (reference b)); [by eexists|done].
  - apply test_schedule_ok.
  - split_and!; [done..|]. repeat constructor; vm_compute; congruence.
  - split; [|done]. split_and!; vm_compute; lia.
  - destruct (get_last_proposed_block test_fresh) as [mine|] eqn:Hm; [|by vm_compute in Hm]. exists mine. split; [done|]. split; [done|].
    intros a r Hr. change (replicate 4 None !! a = Some (Some r)) in Hr. by apply lookup_replicate in Hr as [? _].
Qed.

Lemma try_new_block_correct_witness : ∃ k' e,
  @try_new_block MemStore _ test_rng test_crypto test_signer test_core (mk_times 100 100 100 100) false = Ret (k', Some e) ∧
  valid_block (H := test_crypto) (λ _, Ok tt) (mk_verifier (test_context 60) test_genesis_refs) (eb_block e) ∧
  round (eb_block e) = 1 ∧ length (ancestors (eb_block e)) = 4%nat ∧ transactions (eb_block e) = [mk_transaction [1; 2; 3]].
Proof.
  destruct (try_new_block_correct (H1 := test_rng) (H3 := test_crypto) (H5 := test_signer) test_key (λ _, False) test_genesis_refs 0 test_core
    (mk_times 100 100 100 100) false (λ _, Ok tt) (mk_verifier (test_context 60) test_genesis_refs)) as (k' & o & Heq & Ho).
  - apply test_core_ok.
  - vm_compute. reflexivity.
  - reflexivity.
  - reflexivity.
  - reflexivity.
  - eexists. split; vm_compute; reflexivity.
  - reflexivity.
  - destruct o as [e|]; [|vm_compute in Heq; discriminate Heq]. exists k', e. destruct Ho as (_ & Hval & _ & Hr & _).
    split; [exact Heq|]. split; [exact Hval|]. split; [exact Hr|].
    assert (option_map (λ x : Core MemStore * option ExtendedBlock, (λ e, (length (ancestors (eb_block e)), transactions (eb_block e))) <$> x.2)
      (match @try_new_block MemStore _ test_rng test_crypto test_signer test_core (mk_times 100 100 100 100) false with Ret x => Some x | Panic _ => None end)
      = Some (Some (4%nat, [mk_transaction [1; 2; 3]]))) as Hc by (vm_compute; reflexivity).
    rewrite Heq in Hc. injection Hc as Hl Ht. split; [exact Hl|exact Ht].
Defined.
