(* ===== verification/Scoring.v ===== *)
(** * Scoring: the scoring sub-dag and the changes of the leader schedule

    The invariant [scoring_ok] ties the scoring sub-dag to the blocks delivered
    so far.  From it adding the delivered sub-dags, computing the scores and
    changing the leader schedule never panic, the schedule changes after exactly
    the configured number of commits, and the ranges of commits that successive
    schedules are computed from follow each other without a gap or overlap. *)
From S2P Require Import Prelude Committee Block StakeAggregator ThresholdClock Commit Error BlockVerifier Store.
From S2P Require Import ScoringMetrics LeaderScoring DagState LeaderSchedule Election BaseCommitter CommitRule CommitterSpec.
From S2P Require Import DagInv DagOps HandleCommit Agreement.
Local Open Scope N_scope.
Local Open Scope rust_scope.

(** ** Votes *)

Section votes.
Context (c : Committee).
Implicit Type vs : gmap BlockRef (StakeAggregator QuorumThreshold).

(** At most one leader per round. *)
Definition leaders_unique (leaders : gset BlockRef) : Prop :=
  ∀ l l', l ∈ leaders → l' ∈ leaders → ref_round l = ref_round l' → l = l'.

(** The votes are blocks of [D], each with the stake of the authorities that
    include it. *)
Definition votes_ok (D : gset BlockRef) vs : Prop :=
  ∀ r agg, vs !! r = Some agg → r ∈ D ∧ is_valid_index c (ref_author r) ∧ agg_ok c agg.

Lemma votes_ok_mono D D' vs : D ⊆ D' → votes_ok D vs → votes_ok D' vs.
Proof. intros HD Hv r agg Hr. destruct (Hv r agg Hr) as (? & ? & ?). split_and!; [set_solver|done..]. Qed.

Lemma votes_ok_insert D vs r agg : r ∈ D → is_valid_index c (ref_author r) → agg_ok c agg → votes_ok D vs → votes_ok D (<[r := agg]> vs).
Proof.
  intros Hr Ha Hagg Hv r' agg'. destruct (decide (r' = r)) as [->|Hne].
  - rewrite lookup_insert_eq. by intros [= <-].
  - rewrite lookup_insert_ne by done. apply Hv.
Qed.

Context (Hc : committee_ok c).

(** A block whose reference is new votes for at most one leader. *)
Lemma score_block_ok leaders D vs (b : VerifiedBlock) : leaders_unique leaders → votes_ok D vs → block_ok c b → reference b ∉ D →
  ∃ vs', score_block c leaders vs b = Ret vs' ∧ votes_ok ({[reference b]} ∪ D) vs'.
Proof.
  intros Hl Hv Hb Hnew. unfold score_block.
  destruct (foldM_prefix (λ pre vs', votes_ok ({[reference b]} ∪ D) vs' ∧
    (is_Some (vs' !! reference b) → ∃ a, a ∈ pre ∧ a ∈ leaders ∧ ref_round a = round b - 1))
    (score_ancestor c leaders b) (ancestors b) vs) as (vs' & ? & ? & _); [|split|by exists vs'].
  2: { by eapply votes_ok_mono; [|exact Hv]; set_solver. }
  2: { intros [agg Hagg]. by destruct (Hv _ _ Hagg). }
  intros pre a post vs1 Heq [Hv1 Hwhy]. unfold score_ancestor.
  destruct (N.eqb_spec (ref_round a) (round b - 1)) as [Hr|Hr]; cbn [negb].
  2: { exists vs1. split; [done|]. split; [done|]. intros (a' & ? & ? & ?)%Hwhy. exists a'. split_and!; [set_solver|done..]. }
  assert (a ∈ ancestors b) as Ha by (rewrite Heq; set_solver).
  assert (∃ vs2, (if bool_decide (a ∈ leaders) then
      _ ← assert (bool_decide (vs1 !! reference b = None)) "Vote already exists. Duplicate vote found for leader";
      Ret (<[reference b := StakeAggregator_new]> vs1) else Ret vs1) = Ret vs2 ∧ votes_ok ({[reference b]} ∪ D) vs2 ∧
    (is_Some (vs2 !! reference b) → ∃ a', a' ∈ pre ++ [a] ∧ a' ∈ leaders ∧ ref_round a' = round b - 1)) as (vs2 & -> & Hv2 & Hwhy2).
  { case_bool_decide as Hlead.
    - destruct (vs1 !! reference b) as [agg|] eqn:Hvb.
      + destruct Hwhy as (a' & Ha' & Hla' & Hra'); [by eexists|]. assert (a' = a) as -> by (apply Hl; [done..|congruence]).
        pose proof (NoDup_fmap_1 _ _ (bo_nodup _ _ Hb)) as Hnd. rewrite Heq in Hnd. apply NoDup_app in Hnd as (_ & Hd & _).
        exfalso. apply (Hd a Ha'). left.
      + eexists. split; [done|]. split; [|intros _; exists a; split_and!; [set_solver|done..]].
        apply votes_ok_insert; [set_solver|apply Hb|apply agg_ok_new|done].
    - eexists. split; [done|]. split; [done|]. intros (a' & ? & ? & ?)%Hwhy. exists a'. split_and!; [set_solver|done..]. }
  cbn [mbind outcome_bind]. destruct (vs2 !! a) as [agg|] eqn:Hva; [|by exists vs2].
  destruct (Hv2 _ _ Hva) as (HaD & Hai & Hagg).
  destruct (add_spec c Hc agg (author b) Hagg (bo_author _ _ Hb)) as (agg' & -> & _ & Hagg'). cbn [mbind outcome_bind].
  eexists. split; [done|]. split; [by apply votes_ok_insert|]. rewrite lookup_insert. case_decide as Hab; [|exact Hwhy2].
  subst a. intros _. apply Hwhy2. by eexists.
Qed.

Lemma score_blocks_ok leaders (bs : list VerifiedBlock) : leaders_unique leaders → ∀ D vs, votes_ok D vs →
  (∀ b : VerifiedBlock, b ∈ bs → block_ok c b) → NoDup (reference <$> bs) → (∀ b : VerifiedBlock, b ∈ bs → reference b ∉ D) →
  ∃ vs', foldM (score_block c leaders) vs bs = Ret vs' ∧ votes_ok (list_to_set (reference <$> bs) ∪ D) vs'.
Proof.
  intros Hl. induction bs as [|b bs IH]; intros D vs Hv Hb Hnd Hnew.
  { exists vs. split; [done|]. eapply votes_ok_mono; [|done]. set_solver. }
  cbn [fmap list_fmap] in Hnd. apply NoDup_cons in Hnd as [Hnb Hnd].
  destruct (score_block_ok leaders D vs b Hl Hv) as (vs1 & Heq & Hv1); [apply Hb; left|apply Hnew; left|].
  destruct (IH ({[reference b]} ∪ D) vs1 Hv1) as (vs' & Heq' & Hv').
  { intros x Hx. apply Hb. by right. } { done. }
  { intros x Hx. rewrite elem_of_union, elem_of_singleton. intros [Hxb|HxD]; [|by eapply Hnew; [right|]].
    apply Hnb. rewrite <-Hxb. by apply list_elem_of_fmap_2. }
  exists vs'. cbn [foldM]. rewrite Heq. split; [exact Heq'|]. eapply votes_ok_mono; [|done]. cbn [fmap list_fmap list_to_set]. set_solver.
Qed.
End votes.

(** ** The scoring sub-dag *)

Section scoring.
Context (c : Committee).

(** The commits from the start of the range up to [index], whose last leader is
    of round [R], are scored; [D] are the blocks delivered so far. *)
Record scoring_ok (D : gset BlockRef) (R : Round) (index : CommitIndex) (s : ScoringSubdag) : Prop := {
  sc_unique : leaders_unique (sc_leaders s);
  sc_below l : l ∈ sc_leaders s → ref_round l <= R;
  sc_votes_ok : votes_ok c D (sc_votes s);
  sc_range r : sc_commit_range s = Some r → 0 < range_lo r <= index ∧ range_hi r = index + 1;
}.

(** How many commits are scored. *)
Definition scored (s : ScoringSubdag) : N := match sc_commit_range s with Some r => range_hi r - range_lo r | None => 0 end.

Lemma scored_count D R index s : scoring_ok D R index s → scored_subdags_count s = Ret (scored s).
Proof.
  intros Hs. unfold scored_subdags_count, scored, range_size. destruct (sc_commit_range s) as [r|] eqn:Hr; [|done].
  apply (sc_range _ _ _ _ Hs) in Hr. by rewrite (proj2 (N.leb_le _ _)) by lia.
Qed.

Lemma scoring_ok_clear D R index s : scoring_ok D R index (scoring_clear s).
Proof. split; cbn; [by intros l l' []%elem_of_empty|by intros l []%elem_of_empty| |done]. intros r agg. by rewrite lookup_empty. Qed.

Context (Hc : committee_ok c).

Lemma add_subdag_ok D R index s (sd : CommittedSubDag) : scoring_ok D R index s →
  commit_ref_index (sub_dag_commit_ref sd) = index + 1 → index + 1 < U32_MAX → R < ref_round (sub_dag_leader sd) →
  (∀ b : VerifiedBlock, b ∈ sub_dag_blocks sd → block_ok c b ∧ reference b ∉ D) → NoDup (reference <$> sub_dag_blocks sd) →
  ∃ s', add_subdag c s sd = Ret s' ∧
    scoring_ok (list_to_set (reference <$> sub_dag_blocks sd) ∪ D) (ref_round (sub_dag_leader sd)) (index + 1) s' ∧
    scored s' = scored s + 1 ∧
    ∃ r, sc_commit_range s' = Some r ∧ range_lo r = match sc_commit_range s with Some r => range_lo r | None => index + 1 end.
Proof.
  intros [Hu Hbelow Hv Hr] Hidx Hmax HR Hbs Hnd. unfold add_subdag, U32_MAX, U32_MOD in *. rewrite Hidx.
  assert (∃ r, match sc_commit_range s with None => Ret (CommitRange_new (index + 1) (index + 1)) | Some r => extend_to r (index + 1) end = Ret r ∧
    range_lo r = match sc_commit_range s with Some r => range_lo r | None => index + 1 end ∧ range_hi r = index + 2) as (r & -> & Hlo & Hhi).
  { unfold CommitRange_new, extend_to, sat_add32, U32_MAX, U32_MOD. destruct (sc_commit_range s) as [r|].
    - destruct (Hr r eq_refl). rewrite (proj2 (N.leb_le _ _)) by lia. eexists. split; [done|]. cbn. lia.
    - eexists. split; [done|]. cbn. lia. }
  cbn [mbind outcome_bind]. assert (leaders_unique ({[sub_dag_leader sd]} ∪ sc_leaders s)) as Hu'.
  { intros l l'. rewrite !elem_of_union, !elem_of_singleton. intros [->|Hl] [->|Hl'] Heq; [done| | |by apply Hu].
    - apply Hbelow in Hl'. lia.
    - apply Hbelow in Hl. lia. }
  destruct (score_blocks_ok c Hc _ (sub_dag_blocks sd) Hu' D _ Hv) as (vs & -> & Hvs); [intros b Hb; by apply Hbs|done|intros b Hb; by apply Hbs|].
  cbn [mbind outcome_bind]. eexists. split; [done|]. split; [split; cbn; try done|split].
  - intros l. rewrite elem_of_union, elem_of_singleton. intros [->|Hl%Hbelow]; lia.
  - intros r' [= <-]. rewrite Hlo, Hhi. destruct (sc_commit_range s) as [r0|]; [destruct (Hr r0 eq_refl)|]; lia.
  - unfold scored. cbn. rewrite Hlo, Hhi. destruct (sc_commit_range s) as [r0|]; [destruct (Hr r0 eq_refl)|]; lia.
  - by exists r.
Qed.

Lemma add_subdags_ok (sds : list CommittedSubDag) : ∀ D R index s, scoring_ok D R index s →
  (∀ k sd, sds !! k = Some sd → commit_ref_index (sub_dag_commit_ref sd) = index + 1 + N.of_nat k) →
  index + N.of_nat (length sds) < U32_MAX →
  StronglySorted (λ x y, ref_round x < ref_round y) (sub_dag_leader <$> sds) → (∀ sd, sd ∈ sds → R < ref_round (sub_dag_leader sd)) →
  (∀ b : VerifiedBlock, b ∈ sds ≫= sub_dag_blocks → block_ok c b ∧ reference b ∉ D) → NoDup (delivered_refs sds) →
  ∃ s', add_subdags c s sds = Ret s' ∧ scored s' = scored s + N.of_nat (length sds) ∧
    (∀ R', (∀ sd, sd ∈ sds → ref_round (sub_dag_leader sd) <= R') → R <= R' →
      scoring_ok (list_to_set (delivered_refs sds) ∪ D) R' (index + N.of_nat (length sds)) s') ∧
    match sc_commit_range s with
    | Some r => ∃ r', sc_commit_range s' = Some r' ∧ range_lo r' = range_lo r
    | None => sds = [] ∧ sc_commit_range s' = None ∨ ∃ r', sc_commit_range s' = Some r' ∧ range_lo r' = index + 1
    end.
Proof.
  induction sds as [|sd sds IH]; intros D R index s Hs Hidx Hmax Hsort HR Hbs Hnd.
  { exists s. split; [done|]. split; [simpl; lia|]. split; [|destruct (sc_commit_range s) as [r|]; [by exists r|by left]].
    intros R' _ HR'. destruct Hs as [? Hb Hv ?]. rewrite N.add_0_r. split; try done.
    - intros l Hl%Hb. lia.
    - eapply votes_ok_mono; [|done]. set_solver. }
  cbn [fmap list_fmap] in Hsort. apply StronglySorted_cons in Hsort as [Hinc Hsort]. rewrite Forall_forall in Hinc.
  rewrite delivered_refs_cons in Hnd. apply NoDup_app in Hnd as (Hnd1 & Hdisj & Hnd2). cbn [length] in Hmax.
  assert (∀ b : VerifiedBlock, b ∈ sub_dag_blocks sd → b ∈ (sd :: sds) ≫= sub_dag_blocks) as Hin by (intros b ?; rewrite bind_cons; set_solver).
  destruct (add_subdag_ok D R index s sd Hs) as (s1 & Heq1 & Hs1 & Hsc1 & r1 & Hr1 & Hlo1);
    [rewrite (Hidx 0%nat sd eq_refl); lia|lia|apply HR; left|intros b Hb; by apply Hbs, Hin|done|].
  destruct (IH _ _ _ _ Hs1) as (s' & Heq' & Hsc' & Hs' & Hlo').
  { intros k x Hx. rewrite (Hidx (S k) x Hx). lia. } { lia. } { done. }
  { intros x Hx. apply Hinc. by apply list_elem_of_fmap_2. }
  { intros b Hb. destruct (Hbs b) as [? HbD]; [rewrite bind_cons; set_solver|]. split; [done|].
    rewrite elem_of_union, elem_of_list_to_set. intros [Hb'|?]; [|done]. apply (Hdisj _ Hb'). unfold delivered_refs. by apply list_elem_of_fmap_2. }
  { done. }
  exists s'. unfold add_subdags in *. cbn [foldM]. rewrite Heq1. split; [exact Heq'|]. split; [cbn [length]; lia|]. split.
  - intros R' HR' Hle. replace (index + N.of_nat (length (sd :: sds))) with (index + 1 + N.of_nat (length sds)) by (cbn [length]; lia).
    replace (list_to_set (delivered_refs (sd :: sds)) ∪ D)
      with (list_to_set (delivered_refs sds) ∪ (list_to_set (reference <$> sub_dag_blocks sd) ∪ D) : gset BlockRef)
      by (rewrite delivered_refs_cons, list_to_set_app_L; set_solver).
    apply Hs'; [|by apply HR'; left]. intros x Hx. apply HR'. by right.
  - rewrite Hr1 in Hlo'. destruct Hlo' as (r' & Hr' & Hlo'). rewrite Hlo1 in Hlo'.
    destruct (sc_commit_range s); [by exists r'|right; by exists r'].
Qed.

(** The scores: one per authority. *)
Lemma scores_ret D R index s r : scoring_ok D R index s → sc_commit_range s = Some r →
  ∃ scores, calculate_distributed_vote_scores c s = Ret scores ∧
    N.of_nat (length (scores_per_authority scores)) = committee_size c ∧ scores_commit_range scores = r.
Proof.
  intros Hs Hr. unfold calculate_distributed_vote_scores, distributed_votes_scores.
  match goal with |- context [foldM ?f ?z ?l] =>
    destruct (foldM_inv (λ x : list N, length x = N.to_nat (committee_size c)) f l z) as (x & -> & Hx) end.
  - intros x [v agg] Hin Hx. apply elem_of_btree_entries in Hin. destruct (sc_votes_ok _ _ _ _ Hs v agg Hin) as (_ & Ha & _).
    apply Is_true_true, N.ltb_lt in Ha. destruct (lookup_lt_is_Some_2 x (N.to_nat (ref_author v))) as [old Hold]; [lia|].
    rewrite (proj2 (vec_index_ret _ _ _) Hold). cbn [mbind outcome_bind]. eexists. split; [apply vec_set_ret; split; [lia|done]|].
    by rewrite length_insert.
  - by rewrite length_replicate.
  - cbn [mbind outcome_bind]. rewrite Hr. cbn. eexists. split; [done|]. cbn. split; [lia|done].
Qed.
End scoring.

(** ** Changing the schedule *)

(** A committee and a threshold for which a usable swap table always exists: no
    authority alone holds more than the stake to be swapped. *)
Record swap_config_ok (ctx : Context) : Prop := {
  sw_threshold : consensus_bad_nodes_stake_threshold (protocol_config ctx) <= 33;
  sw_width : consensus_bad_nodes_stake_threshold (protocol_config ctx) * total_stake (committee ctx) < U64_MOD;
  sw_small a : is_valid_index (committee ctx) a →
    stake_at (committee ctx) a <= stake_cutoff (committee ctx) (consensus_bad_nodes_stake_threshold (protocol_config ctx));
}.

(** The swap table and the scores of the next one after a sequence of commits,
    computed from the commits alone: a full schedule is changed before the next
    commit is scored. *)
Section scores_after.
Context `{Rng} (ctx : Context).

Definition rescore (x : LeaderSwapTable * ScoringSubdag) : outcome (LeaderSwapTable * ScoringSubdag) :=
  n ← scored_subdags_count x.2;
  if n =? CONSENSUS_COMMITS_PER_SCHEDULE then
    scores ← calculate_distributed_vote_scores (committee ctx) x.2;
    range ← expect (sc_commit_range x.2) "unwrap";
    table ← LeaderSwapTable_new ctx (range_end range) scores;
    Ret (table, ScoringSubdag_new)
  else Ret x.

Definition score_commit (x : LeaderSwapTable * ScoringSubdag) (sd : CommittedSubDag) : outcome (LeaderSwapTable * ScoringSubdag) :=
  y ← rescore x;
  s ← add_subdag (committee ctx) (snd (y : LeaderSwapTable * ScoringSubdag)) sd;
  Ret (y.1, s).

Definition scores_after (sds : list CommittedSubDag) : outcome (LeaderSwapTable * ScoringSubdag) :=
  foldM score_commit (LeaderSwapTable_default, ScoringSubdag_new) sds.
End scores_after.

(** Nodes with the same committee and configuration compute the same. *)
Lemma rescore_ext `{Rng} ctx ctx' x : committee ctx = committee ctx' → protocol_config ctx = protocol_config ctx' → rescore ctx x = rescore ctx' x.
Proof. intros Hc Hp. unfold rescore, LeaderSwapTable_new, LeaderSwapTable_new_inner. by rewrite Hc, Hp. Qed.

Lemma scores_after_ext `{Rng} ctx ctx' sds : committee ctx = committee ctx' → protocol_config ctx = protocol_config ctx' →
  scores_after ctx sds = scores_after ctx' sds.
Proof.
  intros Hc Hp. unfold scores_after. generalize (LeaderSwapTable_default, ScoringSubdag_new).
  induction sds as [|sd sds IH]; intros x; [done|]. cbn [foldM].
  replace (score_commit ctx x sd) with (score_commit ctx' x sd) by (unfold score_commit; by rewrite (rescore_ext ctx ctx'), Hc).
  destruct (score_commit ctx' x sd) as [y|]; [apply IH|done].
Qed.

Section change.
Context {St : Type} `{StoreLaws St}.
Implicit Type d : DagState St.

(** Where the schedule stands: [num_commits_per_schedule] is not exceeded, and
    the commits scored now follow those of the current swap table. *)
Record schedule_inv d (sched : LeaderSchedule) : Prop := {
  sv_positive : 0 < num_commits_per_schedule sched;
  sv_unscored : ds_unscored_committed_subdags d = [];
  sv_count : scored (ds_scoring_subdag d) <= num_commits_per_schedule sched;
  sv_next : let old := scores_commit_range (swap_reputation_scores (leader_swap_table sched)) in
    old = CommitRange_default ∨
    range_hi old = range_lo old + num_commits_per_schedule sched ∧
    match sc_commit_range (ds_scoring_subdag d) with
    | Some r => range_lo r = range_hi old
    | None => range_hi old = last_commit_index d + 1
    end;
}.

(** The states that differ from [d] in the scoring and the pending commit infos. *)
Definition rescored d (s : ScoringSubdag) infos : DagState St :=
  set_to_write (set_scoring d s []) (ds_blocks_to_write d) (ds_commits_to_write d) infos.

Lemma node_inv_rescored d D s infos : node_inv d D → (∀ r i, (r, i) ∈ infos → commit_ref_ok r) → node_inv (rescored d s infos) D.
Proof.
  intros [Hok ? ? ? ? ?] Hinfos. split; try done. split; try apply Hok; [done|]. apply (clock_inv_same d); try done; apply (ok_clock _ Hok).
Qed.

Context `{RngLaws}.

Lemma new_table_ok (ctx : Context) index (scores : ReputationScores) : committee_ok (committee ctx) → swap_config_ok ctx →
  N.of_nat (length (scores_per_authority scores)) = committee_size (committee ctx) →
  ∃ t, LeaderSwapTable_new ctx index scores = Ret t ∧ swap_table_ok (committee ctx) t ∧ swap_reputation_scores t = scores.
Proof.
  intros Hc [Hthr Hw Hsmall] Hlen.
  destruct (table_spec ctx _ index scores Hc Hthr Hw Hlen) as (good & bad & t & Ht & <- & _ & _ & _ & _ & Hval & _ & Hsc & _ & Hne).
  exists t. split; [exact Ht|]. split; [|done]. split; [intros a Ha; apply Hval; by left|]. intros _. by apply Hne.
Qed.

(** When the schedule is full, it changes: the new one is usable, and scoring
    starts again after the last commit. *)
Lemma update_schedule_ok d D sched : node_inv d D → schedule_ok (committee (ds_context d)) sched → ls_context sched = ds_context d →
  swap_config_ok (ds_context d) → schedule_inv d sched →
  scoring_ok (committee (ds_context d)) D (last_commit_round d) (last_commit_index d) (ds_scoring_subdag d) →
  scored (ds_scoring_subdag d) = num_commits_per_schedule sched →
  ∃ sched' infos r, update_leader_schedule_v2 sched d = Ret (sched', rescored d ScoringSubdag_new infos) ∧
    (∀ r i, (r, i) ∈ infos → commit_ref_ok r) ∧
    schedule_ok (committee (ds_context d)) sched' ∧ ls_context sched' = ds_context d ∧
    num_commits_per_schedule sched' = num_commits_per_schedule sched ∧
    schedule_inv (rescored d ScoringSubdag_new infos) sched' ∧
    sc_commit_range (ds_scoring_subdag d) = Some r ∧
    scores_commit_range (swap_reputation_scores (leader_swap_table sched')) = r ∧
    N.of_nat (length (scores_per_authority (swap_reputation_scores (leader_swap_table sched')))) = committee_size (committee (ds_context d)) ∧
    (num_commits_per_schedule sched = CONSENSUS_COMMITS_PER_SCHEDULE →
      rescore (ds_context d) (leader_swap_table sched, ds_scoring_subdag d) = Ret (leader_swap_table sched', ScoringSubdag_new)).
Proof.
  intros Hn Hso Hctx Hsw [Hpos Hun Hcnt Hnext] Hs Hfull. unfold update_leader_schedule_v2, calculate_scoring_subdag_scores.
  destruct (sc_commit_range (ds_scoring_subdag d)) as [r|] eqn:Hr; [|unfold scored in Hfull; rewrite Hr in Hfull; lia].
  destruct (scores_ret _ _ _ _ _ _ Hs Hr) as (scores & Hscores & Hlen & Hrange). rewrite Hscores. cbn [mbind outcome_bind].
  unfold scoring_subdag_commit_range. rewrite Hr. cbn [expect mbind outcome_bind].
  pose proof (sc_range _ _ _ _ _ Hs r Hr) as [Hlo Hhi]. unfold scored in Hfull. rewrite Hr in Hfull.
  unfold add_commit_info. cbn [clear_scoring_subdag set_scoring ds_unscored_committed_subdags ds_scoring_subdag scoring_clear].
  rewrite bool_decide_eq_true_2 by done. cbn [assert mbind outcome_bind].
  change (scoring_is_empty (mk_scoring None ∅ ∅)) with (scoring_is_empty ScoringSubdag_new).
  replace (scoring_is_empty ScoringSubdag_new) with true by (by vm_compute). cbn [assert mbind outcome_bind].
  destruct (ds_last_commit d) as [last|] eqn:Hlast; [|unfold last_commit_index in *; rewrite Hlast in *; lia].
  cbn [clear_scoring_subdag set_scoring ds_last_commit]. rewrite Hlast. cbn [expect mbind outcome_bind].
  pose proof (so_committee _ _ Hso) as Hc. rewrite Hctx in *.
  destruct (new_table_ok (ds_context d) (range_end r) scores (ok_committee _ (ni_ok _ _ Hn)) Hsw Hlen) as (t & Htab & Ht & Hts). rewrite Htab. cbn [mbind outcome_bind].
  unfold update_leader_swap_table. rewrite Hts, Hrange.
  set (old := scores_commit_range (swap_reputation_scores (leader_swap_table sched))) in *.
  assert ((if bool_decide (old = CommitRange_default) then Ret tt else
    ok ← (if is_next_range old r then is_equal_size old r else Ret false); assert ok "The new LeaderSwapTable has an invalid CommitRange.") = Ret tt) as ->.
  { case_bool_decide as Hd; [done|]. destruct Hnext as [?|[Hsize Hstart]]; [done|]. unfold is_next_range, is_equal_size, range_size.
    rewrite Hstart, N.eqb_refl. rewrite !(proj2 (N.leb_le _ _)) by lia. cbn [mbind outcome_bind].
    by rewrite (proj2 (N.eqb_eq _ _)) by lia. }
  cbn [mbind outcome_bind]. eexists _, _, r. split; [unfold rescored, set_to_write, set_scoring; cbn; by rewrite Hun|].
  split; [intros r0 i0 [Hin|[= -> ->]%list_elem_of_singleton]%elem_of_app; [by eapply (ok_infos _ (ni_ok _ _ Hn))|by apply (ok_last_commit _ (ni_ok _ _ Hn))]|].
  cbn [leader_swap_table num_commits_per_schedule ls_context].
  split; [split; try done; apply Hso|]. split; [done|]. split; [done|]. rewrite Hts. split; [split; cbn; [done|done|lia|]|].
  - right. rewrite Hts, Hrange. split; [lia|]. rewrite Hhi. done.
  - split_and!; try done. intros Hnum. unfold rescore. cbn [fst snd]. rewrite (scored_count _ _ _ _ _ Hs).
    cbn [mbind outcome_bind]. unfold scored. rewrite Hr. rewrite (proj2 (N.eqb_eq _ _)) by congruence.
    rewrite Hscores. cbn [mbind outcome_bind]. cbn [expect mbind outcome_bind]. rewrite Htab. done.
Qed.
End change.
