(* ===== verification/History.v ===== *)
(** * History: what a node has decided and delivered

    The decided leaders of a node, one per round from round 1 on, with the sub-dags
    delivered for the committed ones.  [chronicle] says why each decision was made:
    by the commit rule over the blocks made so far, under the swap table that the
    commits before it determine, and how each sub-dag was collected, from a state
    that had delivered the sub-dags before it.  Two chronicles over the same blocks
    never disagree. *)
From S2P Require Import Prelude Committee Block StakeAggregator ThresholdClock Commit Error BlockVerifier Store MemStore.
From S2P Require Import ScoringMetrics LeaderScoring DagState LeaderSchedule Election Linearizer BaseCommitter UniversalCommitter.
From S2P Require Import CommitRule CommitterSpec Safety DagInv DagOps SubDag DagReads HandleCommit CommitObserver Delivery Agreement.
From S2P Require Import Core ProposalAncestors Proposal Scoring.
Local Open Scope N_scope.
Local Open Scope rust_scope.

(** ** The decided leaders *)

Definition slot_before (s s' : Slot) : Prop := slot_round s < slot_round s'.

(** With at most one leader per round, the slots are of increasing rounds. *)
Lemma slots_from_sorted `{Rng} c committers sched el n : election c committers sched el → ∀ lo,
  (∀ r, lo <= r < lo + N.of_nat n → (length (omap (λ o, el o r) committers) <= 1)%nat) →
  StronglySorted slot_before (slots_from committers el lo n) ∧
  ∀ s, s ∈ slots_from committers el lo n → lo <= slot_round s < lo + N.of_nat n.
Proof.
  intros Hel. induction n as [|n IH]; intros lo Hone; cbn [slots_from]; [split; [constructor|by intros s ?%elem_of_nil]|].
  destruct (IH (lo + 1)) as [Hs Hr]; [intros r Hr; apply Hone; lia|].
  assert (∀ s, s ∈ omap (λ o, el o lo) committers → slot_round s = lo) as Hlo.
  { intros s (o & Ho & Hs')%list_elem_of_omap. by destruct (elected_slot _ _ _ _ _ _ _ Hel Ho Hs'). }
  specialize (Hone lo ltac:(lia)). destruct (omap (λ o, el o lo) committers) as [|s [|s' ss]]; [| |simpl in Hone; lia].
  - split; [done|]. intros s' Hs'%Hr. lia.
  - specialize (Hlo s ltac:(left)). cbn [app]. split.
    + constructor; [done|]. apply Forall_forall. intros s' Hs'%Hr. unfold slot_before. lia.
    + intros s' [->|Hs'%Hr]%elem_of_cons; lia.
Qed.

Lemma decided_list_slots c U L ss sts : decided_list c U L ss sts → status_slot <$> sts = ss.
Proof. induction 1 as [|s ss st sts _ IH _ Hs _ _]; [done|]. csimpl. by rewrite IH, Hs. Qed.

Lemma prefix_decided_slots sts : decided_slot <$> prefix_decided sts `prefix_of` status_slot <$> sts.
Proof.
  induction sts as [|st sts IH]; [done|]. cbn [prefix_decided fmap list_fmap].
  destruct st as [b|s|s]; cbn; [by apply prefix_cons..|apply prefix_nil].
Qed.

Lemma prefix_decided_commit sts (b : VerifiedBlock) : DlCommit b ∈ prefix_decided sts → LsCommit b ∈ sts.
Proof.
  induction sts as [|st sts IH]; cbn [prefix_decided]; [by intros ?%elem_of_nil|].
  destruct st as [b'|s|s]; cbn; rewrite ?elem_of_cons; [|intros [?|?]; [done|auto]|by intros ?%elem_of_nil].
  intros [[= ->]|?]; auto.
Qed.

Lemma StronglySorted_prefix {A} (R : relation A) l l' : l `prefix_of` l' → StronglySorted R l' → StronglySorted R l.
Proof. intros [k ->]. apply StronglySorted_app_1_l. Qed.

(** The committed blocks of decided leaders of increasing rounds. *)
Lemma committed_sorted (ds : list DecidedLeader) : StronglySorted slot_before (decided_slot <$> ds) →
  StronglySorted (λ a b : VerifiedBlock, round a < round b) (omap into_committed_block ds).
Proof.
  induction ds as [|dl ds IH]; [constructor|]. csimpl. intros [Hall Hs]%StronglySorted_cons. rewrite Forall_forall in Hall.
  destruct dl as [b|s]; cbn; [|by apply IH]. constructor; [by apply IH|]. apply Forall_forall.
  intros x (y & Hy & Hx)%list_elem_of_omap. destruct y as [b'|]; cbn in Hx; simplify_eq.
  apply (Hall (decided_slot (DlCommit x))). by apply list_elem_of_fmap_2.
Qed.

(** Increasing rounds above [R] up to [M] are no more than [M - R]. *)
Lemma sorted_count (l : list VerifiedBlock) R M : StronglySorted (λ a b : VerifiedBlock, round a < round b) l → R <= M →
  (∀ x : VerifiedBlock, x ∈ l → R < round x <= M) → R + N.of_nat (length l) <= M.
Proof.
  revert R. induction l as [|x l IH]; intros R Hs HR Hx; [simpl; lia|]. apply StronglySorted_cons in Hs as [Hall Hs].
  rewrite Forall_forall in Hall. pose proof (Hx x ltac:(left)). cbn [length].
  specialize (IH (round x) Hs ltac:(lia)). assert (round x + N.of_nat (length l) <= M); [|lia].
  apply IH. intros y Hy. specialize (Hall y Hy). specialize (Hx y ltac:(by right)). lia.
Qed.

(** The committers of [Core] elect at most one leader in a round. *)
Lemma one_slot `{Rng} committers sched r : core_committers committers → r < U32_MOD →
  (length (omap (λ o, match committer_elect_leader o sched r with Ret x => x | Panic _ => None end) committers) <= 1)%nat.
Proof.
  intros Hb Hr. vm_compute in Hb. injection Hb as <-. cbn [omap list_omap]. unfold committer_elect_leader. cbn [leader_offset].
  rewrite !leader_of_round by (unfold U32_MOD in *; lia).
  assert (r mod 3 < 3) as Hm by (apply N.mod_lt; lia). revert Hm. generalize (r mod 3). intros m Hm.
  assert (m = 0 ∨ m = 1 ∨ m = 2) as [->|[->| ->]] by lia; cbn; destruct (elect_leader _ _ _); cbn; lia.
Qed.

Definition delivered (log : list (CommittedSubDag * TrustedCommit)) : gset BlockRef := list_to_set (delivered_refs log.*1).

Lemma delivered_app log new : delivered (log ++ new) = list_to_set (delivered_refs new.*1) ∪ delivered log.
Proof. unfold delivered, delivered_refs. rewrite fmap_app, bind_app, fmap_app, list_to_set_app_L. set_solver. Qed.

Lemma delivered_snoc log sd (c : TrustedCommit) : delivered (log ++ [(sd, c)]) = list_to_set (reference <$> sub_dag_blocks sd) ∪ delivered log.
Proof. rewrite delivered_app. unfold delivered_refs. cbn [fmap list_fmap fst mbind list_bind]. by rewrite app_nil_r. Qed.

(** ** One slot per round *)

(** The leaders that a schedule elects. *)
Definition elected `{Rng} (sched : LeaderSchedule) (o : BaseCommitterOptions) (r : Round) : option Slot :=
  match committer_elect_leader o sched r with Ret x => x | Panic _ => None end.

Lemma elected_ext `{Rng} sched sched' o r : leader_swap_table sched = leader_swap_table sched' →
  committee (ls_context sched) = committee (ls_context sched') → elected sched o r = elected sched' o r.
Proof. intros Ht Hc. unfold elected, committer_elect_leader, elect_leader, elect_leader_stake_based. by rewrite Ht, Hc. Qed.

Lemma slots_from_ext committers el el' n : (∀ o r, el o r = el' o r) → ∀ lo, slots_from committers el lo n = slots_from committers el' lo n.
Proof.
  intros Heq. induction n as [|n IH]; intros lo; cbn [slots_from]; [done|]. rewrite IH. f_equal.
  clear IH. induction committers as [|o cs IHc]; [done|]. csimpl. by rewrite Heq, IHc.
Qed.

Lemma exactly_one_slot `{RngLaws} c sched committers r : schedule_ok c sched → core_committers committers → r < U32_MOD →
  ∃ s, omap (λ o, elected sched o r) committers = [s] ∧ slot_round s = r.
Proof.
  intros [<- Hc Hpos Ht] Hb Hr. vm_compute in Hb. injection Hb as <-. destruct (elect_leader_ret sched r Hc Hpos Ht) as (a & Ha & _).
  exists (mk_slot r a). split; [|done]. cbn [omap list_omap]. unfold elected, committer_elect_leader. cbn [leader_offset].
  rewrite !leader_of_round by (unfold U32_MOD in *; lia). rewrite Ha.
  assert (r mod 3 < 3) as Hm by (apply N.mod_lt; lia). revert Hm. generalize (r mod 3). intros m Hm.
  assert (m = 0 ∨ m = 1 ∨ m = 2) as [->|[->| ->]] by lia; reflexivity.
Qed.

Lemma slots_from_drop committers el i : ∀ lo n, (∀ r, lo <= r < lo + N.of_nat n → length (omap (λ o, el o r) committers) = 1%nat) →
  drop i (slots_from committers el lo n) = slots_from committers el (lo + N.of_nat i) (n - i).
Proof.
  induction i as [|i IH]; intros lo n Hone; [by rewrite drop_0, N.add_0_r, Nat.sub_0_r|].
  destruct n as [|n]; [done|]. cbn [slots_from Nat.sub]. specialize (Hone lo ltac:(lia)) as Hlo.
  destruct (omap (λ o, el o lo) committers) as [|s [|? ?]]; try done. cbn [app drop]. rewrite IH; [f_equal; lia|].
  intros r Hr. apply Hone. lia.
Qed.

Lemma slots_from_lookup committers el i s : ∀ lo n, (∀ r, lo <= r < lo + N.of_nat n → ∃ s, omap (λ o, el o r) committers = [s] ∧ slot_round s = r) →
  slots_from committers el lo n !! i = Some s → slot_round s = lo + N.of_nat i.
Proof.
  induction i as [|i IH]; intros lo n Hone Hs; (destruct n as [|n]; [done|]); cbn [slots_from] in Hs;
    destruct (Hone lo ltac:(lia)) as (s0 & Hs0 & Hr); rewrite Hs0 in Hs; cbn in Hs.
  - simplify_eq. lia.
  - rewrite (IH (lo + 1) n); [lia| |done]. intros r Hr'. apply Hone. lia.
Qed.

Lemma decided_list_drop c U L i : ∀ ss sts, decided_list c U L ss sts → decided_list c U L (drop i ss) (drop i sts).
Proof.
  induction i as [|i IH]; intros ss sts Hd; [by rewrite !drop_0|]. destruct Hd as [|s ss st sts Hd HL Hs Hok Hr]; [constructor|]. by apply IH.
Qed.

Definition decided_status (dl : DecidedLeader) : LeaderStatus := match dl with DlCommit b => LsCommit b | DlSkip s => LsSkip s end.

Lemma prefix_decided_lookup sts : ∀ i dl, prefix_decided sts !! i = Some dl → sts !! i = Some (decided_status dl).
Proof.
  induction sts as [|st sts IH]; intros i dl; cbn [prefix_decided]; [done|].
  destruct st as [b|s|s]; cbn [into_decided_leader]; [..|done]; (destruct i as [|i]; cbn; [by intros [= <-]|apply IH]).
Qed.

(** ** Decisions *)

Section decisions.
Context `{RngLaws} (c : Committee) (byz : gset AuthorityIndex) (committers : list BaseCommitterOptions).

(** The valid blocks among those made. *)
Definition valid_made (U : VerifiedBlock → Prop) (b : VerifiedBlock) : Prop := U b ∧ 0 < round b ∧ block_ok c b.

Definition covers (V : gmap BlockRef VerifiedBlock) (U : VerifiedBlock → Prop) : Prop := ∀ b, valid_made U b → V !! reference b = Some b.

(** The status of the leader of round [r] follows from the commit rule, whatever
    other blocks there are. *)
Definition settles (U : VerifiedBlock → Prop) (table : LeaderSwapTable) (r : Round) (st : LeaderStatus) : Prop :=
  ∀ V, universe_ok c byz V → covers V U → ∃ sched L n sts,
    committee (ls_context sched) = c ∧ leader_swap_table sched = table ∧
    decided_list c V L (slots_from committers (elected sched) r n) sts ∧ head sts = Some st.

Lemma covers_mono V (U U' : VerifiedBlock → Prop) : (∀ b, U b → U' b) → covers V U' → covers V U.
Proof. intros Hsub Hc b (Hb & ? & ?). apply Hc. split_and!; auto. Qed.

Lemma settles_mono (U U' : VerifiedBlock → Prop) table r st : (∀ b, U b → U' b) → settles U table r st → settles U' table r st.
Proof. intros Hsub Hs V HV Hc. apply Hs; [done|]. by eapply covers_mono. Qed.

Lemma settles_agree V (U U' : VerifiedBlock → Prop) table r a b : universe_ok c byz V → covers V U → covers V U' →
  settles U table r a → settles U' table r b → is_decided a → is_decided b → a = b.
Proof.
  intros HV Hc Hc' Ha Hb Hda Hdb. destruct (Ha V HV Hc) as (sA & LA & n & stsA & HcA & HtA & HdA & HhA).
  destruct (Hb V HV Hc') as (sB & LB & m & stsB & HcB & HtB & HdB & HhB).
  rewrite (slots_from_ext _ (elected sB) (elected sA)) in HdB by (intros o x; apply elected_ext; congruence).
  rewrite head_lookup in HhA, HhB. eapply (statuses_agree c byz V HV LA LB); [exact HdA|exact HdB|apply slots_from_agree|reflexivity|done..].
Qed.
End decisions.

(** ** The chronicle of a node *)

Section chronicle.
Context {St : Type} `{StoreLaws St} `{RngLaws} `{CryptoLaws} `{CommitBcsLaws} `{!CommitCodec St}.
Context (ctx : Context) (byz : gset AuthorityIndex) (committers : list BaseCommitterOptions) (genesis : gmap BlockRef VerifiedBlock).
Implicit Types (U : VerifiedBlock → Prop) (d : DagState St) (log : list (CommittedSubDag * TrustedCommit)).

(** A state the node was in when it had delivered [log]. *)
Record past_state U log d : Prop := {
  ps_inv : node_inv d (delivered log);
  ps_last : ds_last_commit d = snd <$> last log;
  ps_context : committee (ds_context d) = committee ctx ∧ protocol_config (ds_context d) = protocol_config ctx;
  ps_made r b : lookup_block d r = Some b → 0 < ref_round r → U b;
  ps_genesis : ds_genesis d = genesis;
}.

Definition delivered_by U log (b : VerifiedBlock) (scores : list (AuthorityIndex * N)) (sd : CommittedSubDag) (cm : TrustedCommit) : Prop :=
  ∃ d fuel dm, past_state U log d ∧ holds d b ∧ last_commit_round d < round b ∧ last_commit_index d < U32_MAX ∧
    (size (ds_recent_blocks d) < fuel)%nat ∧ collect_sub_dag_and_commit fuel d b scores = Ret (dm, sd, cm).

(** The swap table in force after [log], and the scores towards the next one. *)
Definition ranked log (table : LeaderSwapTable) (scores : ScoringSubdag) : Prop :=
  (x ← scores_after ctx log.*1; rescore ctx x) = Ret (table, scores).

Inductive chronicle U : list DecidedLeader → list (CommittedSubDag * TrustedCommit) → Prop :=
| chronicle_nil : chronicle U [] []
| chronicle_skip ds log table scores s :
    chronicle U ds log → ranked log table scores →
    settles (committee ctx) byz committers U table (N.of_nat (length ds) + 1) (LsSkip s) →
    chronicle U (ds ++ [DlSkip s]) log
| chronicle_commit ds log table scores b sd cm :
    chronicle U ds log → ranked log table scores →
    settles (committee ctx) byz committers U table (N.of_nat (length ds) + 1) (LsCommit b) →
    delivered_by U log b (if scoring_is_empty scores then reputation_scores_desc table else []) sd cm →
    chronicle U (ds ++ [DlCommit b]) (log ++ [(sd, cm)]).

Lemma chronicle_mono U (U' : VerifiedBlock → Prop) ds log : (∀ b, U b → U' b) → chronicle U ds log → chronicle U' ds log.
Proof.
  intros Hsub. induction 1 as [|ds log table scores s _ IH Hr Hs|ds log table scores b sd cm _ IH Hr Hs (d & fuel & dm & [] & Hd)].
  - constructor.
  - eapply chronicle_skip; [done..|]. by eapply settles_mono.
  - eapply chronicle_commit; [done..|by eapply settles_mono|]. exists d, fuel, dm. split; [split; eauto|done].
Qed.

Lemma chronicle_prefix U ds log i : chronicle U ds log → ∃ log1, chronicle U (take i ds) log1 ∧ log1 `prefix_of` log.
Proof.
  intros Hc. assert (∀ ds log, chronicle U ds log → (i < length ds)%nat → ∃ ds1 dl log1, ds = ds1 ++ [dl] ∧ chronicle U ds1 log1 ∧ log1 `prefix_of` log) as Hlast.
  { intros ds1 log1 [|ds2 log2 table scores s Hc2|ds2 log2 table scores b sd cm Hc2]; simpl; [lia|..]; intros _; eexists _, _, _; split_and!; try done.
    by apply prefix_app_r. }
  induction (length ds - i)%nat as [|n IH] eqn:Hn in ds, log, Hc |- *.
  - exists log. rewrite take_ge by lia. done.
  - destruct (Hlast ds log Hc ltac:(lia)) as (ds1 & dl & log1 & -> & Hc1 & Hp). rewrite length_app in Hn. simpl in Hn.
    destruct (IH ds1 log1 Hc1 ltac:(lia)) as (log2 & Hc2 & Hp2). exists log2. rewrite take_app_le by lia. split; [done|]. by transitivity log1.
Qed.
End chronicle.

(** ** Extending a chronicle *)

(** The commits scored so far end at [index]. *)
Definition counted (index : CommitIndex) (s : ScoringSubdag) : Prop :=
  ∀ r, sc_commit_range s = Some r → 0 < range_lo r <= index ∧ range_hi r = index + 1.

Lemma counted_count index s : counted index s → scored_subdags_count s = Ret (scored s).
Proof.
  intros Hs. unfold scored_subdags_count, scored, range_size. destruct (sc_commit_range s) as [r|] eqn:Hr; [|done].
  apply Hs in Hr. by rewrite (proj2 (N.leb_le _ _)) by lia.
Qed.

Lemma add_subdag_counted c index s sd s' : counted index s → add_subdag c s sd = Ret s' →
  commit_ref_index (sub_dag_commit_ref sd) = index + 1 → index + 1 < U32_MAX →
  counted (index + 1) s' ∧ scored s' = scored s + 1 ∧ scoring_is_empty s' = false.
Proof.
  unfold add_subdag. intros Hs Heq Hidx Hmax. rewrite Hidx in Heq. apply bind_ret_inv in Heq as (r & Hr & Heq).
  apply bind_ret_inv in Heq as (vs & _ & [= <-]).
  assert (range_lo r = match sc_commit_range s with Some r => range_lo r | None => index + 1 end ∧ range_hi r = index + 2) as [Hlo Hhi].
  { revert Hr. unfold CommitRange_new, extend_to, sat_add32, U32_MAX in *. destruct (sc_commit_range s) as [r0|]; intros Hr; inv_ret; cbn; lia. }
  unfold counted, scored, scoring_is_empty. cbn [sc_commit_range]. destruct (sc_commit_range s) as [r0|] eqn:Hr0.
  - destruct (Hs r0 Hr0) as [? ?]. split_and!; [intros ? [= <-]; lia|lia|]. rewrite (bool_decide_eq_false_2 (Some r = None)) by done. apply andb_false_r.
  - split_and!; [intros ? [= <-]; lia|lia|]. rewrite (bool_decide_eq_false_2 (Some r = None)) by done. apply andb_false_r.
Qed.

Section extend.
Context {St : Type} `{StoreLaws St} `{RngLaws} `{CryptoLaws} `{CommitBcsLaws} `{!CommitCodec St}.
Context (ctx : Context) (byz : gset AuthorityIndex) (committers : list BaseCommitterOptions) (genesis : gmap BlockRef VerifiedBlock).
Implicit Types (U : VerifiedBlock → Prop) (d : DagState St) (log : list (CommittedSubDag * TrustedCommit)).

Lemma scores_after_commit log table s sd cm s' : ranked ctx log table s → add_subdag (committee ctx) s sd = Ret s' →
  scores_after ctx (log ++ [(sd, cm)]).*1 = Ret (table, s').
Proof.
  unfold ranked, scores_after. intros Hr Hadd. rewrite fmap_app. cbn [fmap list_fmap fst]. rewrite foldM_snoc.
  apply bind_ret_inv in Hr as (x & -> & Hx). cbn [mbind outcome_bind]. unfold score_commit. rewrite Hx. cbn [mbind outcome_bind snd fst].
  by rewrite Hadd.
Qed.

Lemma ranked_settled log table s index : scores_after ctx log.*1 = Ret (table, s) → counted index s →
  scored s <> CONSENSUS_COMMITS_PER_SCHEDULE → ranked ctx log table s.
Proof.
  intros Ha Hc Hn. unfold ranked. rewrite Ha. cbn [mbind outcome_bind]. unfold rescore. cbn [snd]. rewrite (counted_count _ _ Hc).
  cbn [mbind outcome_bind]. by rewrite (proj2 (N.eqb_neq _ _) Hn).
Qed.

Lemma past_state_commit U log d d1 sd cm : past_state ctx genesis U log d → node_inv d1 (list_to_set (reference <$> sub_dag_blocks sd) ∪ delivered log) →
  ds_context d1 = ds_context d → ds_last_commit d1 = Some cm → (∀ r, lookup_block d1 r = lookup_block d r) → same_counters d d1 →
  past_state ctx genesis U (log ++ [(sd, cm)]) d1.
Proof.
  intros [_ _ Hc Hm Hg] Hn Hctx Hlast Hlk Hcn. split.
  - by rewrite delivered_snoc.
  - by rewrite last_snoc.
  - by rewrite Hctx.
  - intros r x. rewrite Hlk. apply Hm.
  - destruct Hcn as (_ & _ & _ & ->). done.
Qed.

(** The leaders decided in one round of the commit loop, and what was delivered
    for them. *)
Lemma chronicle_batch U table sc decided : ∀ ds log s k d new s',
  chronicle (St := St) ctx byz committers genesis U ds log → ranked ctx log table s → counted (last_commit_index d) s →
  scored s + N.of_nat (length decided) <= CONSENSUS_COMMITS_PER_SCHEDULE →
  (∀ i dl, decided !! i = Some dl → settles (committee ctx) byz committers U table (N.of_nat (length ds + i) + 1) (decided_status dl)) →
  past_state ctx genesis U log d → last_commit_index d + N.of_nat (length new) < U32_MAX →
  collected sc k d (delivered log) (omap into_committed_block decided) new →
  add_subdags (committee ctx) s new.*1 = Ret s' →
  sc (N.of_nat k) = (if scoring_is_empty s then reputation_scores_desc table else []) → (∀ i, (k < i)%nat → sc (N.of_nat i) = []) →
  chronicle (St := St) ctx byz committers genesis U (ds ++ decided) (log ++ new) ∧
  (new = [] ∧ s' = s ∨ scores_after ctx (log ++ new).*1 = Ret (table, s')).
Proof.
  induction decided as [|dl decided IH]; intros ds log s k d new s' Hch Hrk Hcnt Hlim Hset Hps Hmax Hcol Hadd Hsc Hsc'.
  { inversion Hcol; subst. injection Hadd as <-. rewrite !app_nil_r. split; [done|by left]. }
  pose proof (Hset 0%nat dl eq_refl) as Hdl. rewrite Nat.add_0_r in Hdl. cbn [length] in Hlim.
  assert (∀ i x, decided !! i = Some x → settles (committee ctx) byz committers U table (N.of_nat (length (ds ++ [dl]) + i) + 1) (decided_status x)) as Hset'.
  { intros i x Hx. rewrite length_app. simpl. replace (length ds + 1 + i)%nat with (length ds + S i)%nat by lia. by apply Hset. }
  rewrite cons_middle, app_assoc. destruct dl as [b|sl]; cbn [omap list_omap into_committed_block] in Hcol.
  2: { eapply (IH _ _ s k d); try done; [by eapply chronicle_skip|lia]. }
  inversion Hcol as [|? ? ? ? ? fuel dm sd cm d1 new1 Hn Hh Hr Hi Hf Hcl Hn1 Hctx Hlast Hlk Hcn Hcol1]; subst.
  cbn [fmap list_fmap fst] in Hadd. unfold add_subdags in Hadd. cbn [foldM] in Hadd. apply bind_ret_inv in Hadd as (s1 & Hadd1 & Hadd).
  destruct (collect_spec fuel d _ b (sc (N.of_nat k)) Hn Hh Hr Hi Hf) as (sd2 & cm2 & Hcl2 & Hca & _). rewrite Hcl2 in Hcl. injection Hcl as <- -> ->.
  cbn [length] in Hmax. assert (commit_ref_index (sub_dag_commit_ref sd) = last_commit_index d + 1) as Hidx.
  { rewrite (ca_ref _ _ _ _ _ Hca). apply (ca_index _ _ _ _ _ Hca). }
  destruct (add_subdag_counted _ _ _ _ _ Hcnt Hadd1 Hidx ltac:(lia)) as (Hcnt1 & Hsc1 & Hemp1).
  assert (chronicle (St := St) ctx byz committers genesis U (ds ++ [DlCommit b]) (log ++ [(sd, cm)])) as Hch1.
  { eapply chronicle_commit; [done..|]. rewrite <-Hsc. by exists d, fuel, (mark_committed d (list_to_set (reference <$> sub_dag_blocks sd))). }
  rewrite (cons_middle (sd, cm) log new1), app_assoc. destruct decided as [|dl2 decided].
  { inversion Hcol1; subst. injection Hadd as <-. rewrite !app_nil_r. split; [done|]. right. by eapply scores_after_commit. }
  assert (last_commit_index d1 = last_commit_index d + 1) as Hi1 by (unfold last_commit_index at 1; rewrite Hlast; apply Hca).
  cbn [length] in Hlim. destruct (IH (ds ++ [DlCommit b]) (log ++ [(sd, cm)]) s1 (S k) d1 new1 s' Hch1) as [Hch' Hs']; try done.
  { eapply ranked_settled; [by eapply scores_after_commit|exact Hcnt1|lia]. } { by rewrite Hi1. } { cbn [length]. lia. }
  { by eapply (past_state_commit _ log d). } { lia. } { by rewrite delivered_snoc. } { rewrite Hemp1. apply Hsc'. lia. }
  { intros i Hi'. apply Hsc'. lia. }
  split; [done|]. right. destruct Hs' as [[-> ->]|?]; [|done]. rewrite app_nil_r. by eapply scores_after_commit.
Qed.
End extend.

(** ** Chronicles agree *)

Section agree.
Context {StA StB : Type} `{HA : StoreLaws StA} `{HB : StoreLaws StB} `{RngLaws} `{CryptoLaws} `{CommitBcsLaws}.
Context (ctxA ctxB : Context) (Hcommittee : committee ctxA = committee ctxB) (Hconfig : protocol_config ctxA = protocol_config ctxB).
Context (byz : gset AuthorityIndex) (committers : list BaseCommitterOptions) (genesis : gmap BlockRef VerifiedBlock).
Context (UA UB : VerifiedBlock → Prop) (V : gmap BlockRef VerifiedBlock).
Context (HV : universe_ok (committee ctxA) byz V) (HVA : covers (committee ctxA) V UA) (HVB : covers (committee ctxA) V UB).
(* no two blocks have the same digest *)
Context (Hhash : ∀ b b' : VerifiedBlock, UA b → UB b' → reference b = reference b' → b = b').

Lemma past_agree (dA : DagState StA) (dB : DagState StB) log : past_state ctxA genesis UA log dA → past_state ctxB genesis UB log dB →
  same_history dA dB (delivered log).
Proof.
  intros [HnA HlA [HcA HpA] HmA HgA] [HnB HlB [HcB HpB] HmB HgB]. split; try done; try congruence.
  intros r bA bB HrA HrB. destruct (decide (0 < ref_round r)) as [Hpos|Hz].
  - pose proof (lookup_block_reference dA (ni_ok _ _ HnA) _ _ HrA) as Hra. pose proof (lookup_block_reference dB (ni_ok _ _ HnB) _ _ HrB) as Hrb.
    apply Hhash; [by eapply HmA|by eapply HmB|congruence].
  - unfold lookup_block, get_cached in HrA, HrB. rewrite (proj2 (N.eqb_eq (ref_round r) GENESIS_ROUND)) in HrA, HrB by (unfold GENESIS_ROUND; lia).
    rewrite HgA in HrA. rewrite HgB in HrB. congruence.
Qed.

Lemma delivered_agree log b scores sdA cmA sdB cmB : delivered_by (St := StA) ctxA genesis UA log b scores sdA cmA →
  delivered_by (St := StB) ctxB genesis UB log b scores sdB cmB → sdA = sdB ∧ cmA = cmB.
Proof.
  intros (dA & fuelA & mA & HpA & HhA & HrA & HiA & HfA & HcA) (dB & fuelB & mB & HpB & HhB & HrB & HiB & HfB & HcB).
  destruct (collect_agree dA dB (delivered log) (past_agree _ _ _ HpA HpB) fuelA fuelB b scores HhA HhB HrA HiA HfA HfB) as (? & ? & sd & cm & HA' & HB').
  rewrite HA' in HcA. rewrite HB' in HcB. split; congruence.
Qed.

Lemma ranked_agree log table scores table' scores' : ranked ctxA log table scores → ranked ctxB log table' scores' → table = table' ∧ scores = scores'.
Proof.
  unfold ranked. rewrite (scores_after_ext ctxA ctxB) by done. destruct (scores_after ctxB log.*1) as [x|]; [|done]. cbn [mbind outcome_bind].
  rewrite (rescore_ext ctxA ctxB) by done. intros -> [= -> ->]. done.
Qed.

Lemma chronicle_agree ds log : chronicle (St := StA) ctxA byz committers genesis UA ds log → ∀ ds' log',
  chronicle (St := StB) ctxB byz committers genesis UB ds' log' → length ds = length ds' → ds = ds' ∧ log = log'.
Proof.
  assert (∀ (ds ds' : list DecidedLeader) (log : list (CommittedSubDag * TrustedCommit)) table scores table' scores' dl dl', ds = ds' → ranked ctxA log table scores → ranked ctxB log table' scores' →
    settles (committee ctxA) byz committers UA table (N.of_nat (length ds) + 1) (decided_status dl) →
    settles (committee ctxB) byz committers UB table' (N.of_nat (length ds') + 1) (decided_status dl') → dl = dl') as Hst.
  { intros ? ds1 log1 table scores table' scores' dl dl' -> HrA HrB HsA HsB. destruct (ranked_agree _ _ _ _ _ HrA HrB) as [<- <-].
    rewrite <-Hcommittee in HsB. assert (decided_status dl = decided_status dl') as Heq; [|by destruct dl, dl'; simplify_eq].
    eapply settles_agree; [done|exact HVA|exact HVB|done|done|by destruct dl|by destruct dl']. }
  induction 1 as [|ds log table scores s _ IH Hr Hs|ds log table scores b sd cm _ IH Hr Hs Hd]; intros ds' log' Hc'.
  - destruct Hc' as [|ds' log'|ds' log']; [done|..]; rewrite length_app; simpl; lia.
  - destruct Hc' as [|ds' log' table' scores' s' Hc' Hr' Hs'|ds' log' table' scores' b' sd' cm' Hc' Hr' Hs' Hd']; rewrite ?length_app; simpl; [lia|..];
      intros Hlen; destruct (IH ds' log' Hc' ltac:(lia)) as [-> ->].
    + assert (DlSkip s = DlSkip s') as -> by (by eapply Hst). done.
    + assert (DlSkip s = DlCommit b') as Heq by (by eapply Hst). done.
  - destruct Hc' as [|ds' log' table' scores' s' Hc' Hr' Hs'|ds' log' table' scores' b' sd' cm' Hc' Hr' Hs' Hd']; rewrite ?length_app; simpl; [lia|..];
      intros Hlen; destruct (IH ds' log' Hc' ltac:(lia)) as [-> ->].
    + assert (DlCommit b = DlSkip s') as Heq by (by eapply Hst). done.
    + assert (DlCommit b = DlCommit b') as [= <-] by (by eapply Hst). destruct (ranked_agree _ _ _ _ _ Hr Hr') as [<- <-].
      by destruct (delivered_agree _ _ _ _ _ _ _ Hd Hd') as [<- <-].
Qed.

(** One node is behind the other. *)
Lemma chronicle_prefixes dsA logA dsB logB : chronicle (St := StA) ctxA byz committers genesis UA dsA logA →
  chronicle (St := StB) ctxB byz committers genesis UB dsB logB → logA `prefix_of` logB ∨ logB `prefix_of` logA.
Proof.
  intros HcA HcB. destruct (le_ge_dec (length dsA) (length dsB)) as [Hle|Hle]; [left|right].
  - destruct (chronicle_prefix _ _ _ _ _ _ _ (length dsA) HcB) as (log1 & Hc1 & Hp).
    destruct (chronicle_agree _ _ HcA _ _ Hc1) as [_ ->]; [rewrite length_take; lia|done].
  - destruct (chronicle_prefix _ _ _ _ _ _ _ (length dsB) HcA) as (log1 & Hc1 & Hp).
    destruct (chronicle_agree _ _ Hc1 _ _ HcB) as [_ <-]; [rewrite length_take; lia|done].
Qed.
End agree.

(** ** The history of a core *)

Record history {St : Type} `{StoreLaws St} `{Rng} `{Crypto} `{CommitBcs} (byz : gset AuthorityIndex) (U : VerifiedBlock → Prop)
    (log : list (CommittedSubDag * TrustedCommit)) (k : Core St) : Prop := {
  hi_last : ds_last_commit (co_dag_state k) = snd <$> last log;
  hi_chronicle : ∃ ds, chronicle (St := St) (co_context k) byz (co_committers k) (ds_genesis (co_dag_state k)) U ds log ∧
    N.of_nat (length ds) = slot_round (co_last_decided_leader k);
  hi_number : num_commits_per_schedule (co_leader_schedule k) = CONSENSUS_COMMITS_PER_SCHEDULE;
  (* a full schedule is changed when the next leaders are decided *)
  hi_scores : ∃ x, scores_after (co_context k) log.*1 = Ret x ∧
    let now := (leader_swap_table (co_leader_schedule k), ds_scoring_subdag (co_dag_state k)) in x = now ∨ rescore (co_context k) x = Ret now;
}.

(** What the history of a core depends on. *)
Definition remembered {St : Type} (k : Core St) :=
  (co_context k, co_committers k, co_last_decided_leader k, co_leader_schedule k, ds_last_commit (co_dag_state k), ds_genesis (co_dag_state k),
   ds_scoring_subdag (co_dag_state k)).

Section history.
Context {St : Type} `{StoreLaws St} `{RngLaws} `{CryptoLaws} `{CommitBcsLaws} `{!CommitCodec St}.
Implicit Types (U : VerifiedBlock → Prop) (k : Core St) (log : list (CommittedSubDag * TrustedCommit)).

Lemma history_same byz U U' log k k' : (∀ b, U b → U' b) → remembered k' = remembered k → history byz U log k → history byz U' log k'.
Proof.
  intros HU Heq [Hl (ds & Hc & Hn) Hnum Hs]. injection Heq as E1 E2 E3 E4 E5 E6 E7.
  split; rewrite ?E1, ?E2, ?E3, ?E4, ?E5, ?E6, ?E7; [done| |done|done]. exists ds. split; [by eapply chronicle_mono|done].
Qed.

(** Only a full schedule is changed, and then the scores start again. *)
Lemma rescore_full ctx x table s index : rescore ctx x = Ret (table, s) → counted index s → scored s = CONSENSUS_COMMITS_PER_SCHEDULE → False.
Proof.
  unfold rescore. intros Hx Hc Hs. apply bind_ret_inv in Hx as (n & Hn & Hx). destruct (N.eqb_spec n CONSENSUS_COMMITS_PER_SCHEDULE) as [->|Hne].
  - apply bind_ret_inv in Hx as (scores & _ & Hx). apply bind_ret_inv in Hx as (r & _ & Hx). apply bind_ret_inv in Hx as (t & _ & [= _ <-]).
    by vm_compute in Hs.
  - injection Hx as ->. cbn [snd] in Hn. rewrite (counted_count _ _ Hc) in Hn. congruence.
Qed.

Lemma history_rescored byz U log k k' index : history byz U log k → counted index (ds_scoring_subdag (co_dag_state k)) →
  scored (ds_scoring_subdag (co_dag_state k)) = CONSENSUS_COMMITS_PER_SCHEDULE →
  rescore (co_context k) (leader_swap_table (co_leader_schedule k), ds_scoring_subdag (co_dag_state k)) =
    Ret (leader_swap_table (co_leader_schedule k'), ds_scoring_subdag (co_dag_state k')) →
  num_commits_per_schedule (co_leader_schedule k') = num_commits_per_schedule (co_leader_schedule k) →
  (co_context k', co_committers k', co_last_decided_leader k', ds_last_commit (co_dag_state k'), ds_genesis (co_dag_state k')) =
  (co_context k, co_committers k, co_last_decided_leader k, ds_last_commit (co_dag_state k), ds_genesis (co_dag_state k)) → history byz U log k'.
Proof.
  intros [Hl Hc Hnum (x & Hx & Hor)] Hcnt Hfull Hre Hn' Heq. injection Heq as E1 E2 E3 E4 E5.
  split; rewrite ?E1, ?E2, ?E3, ?E4, ?E5; [done|done|congruence|]. exists x. split; [done|]. right.
  destruct Hor as [->|Hor]; [done|]. by destruct (rescore_full _ _ _ _ _ Hor Hcnt Hfull).
Qed.

(** The table in force while the schedule is not full. *)
Lemma history_ranked byz U log k index : history byz U log k → counted index (ds_scoring_subdag (co_dag_state k)) →
  scored (ds_scoring_subdag (co_dag_state k)) ≠ CONSENSUS_COMMITS_PER_SCHEDULE →
  ranked (co_context k) log (leader_swap_table (co_leader_schedule k)) (ds_scoring_subdag (co_dag_state k)).
Proof.
  intros [_ _ _ (x & Hx & Hor)] Hc Hn. destruct Hor as [->|Hor]; [by eapply ranked_settled|]. unfold ranked. by rewrite Hx.
Qed.
End history.
