(* ===== verification/CoreCommit.v ===== *)
(** * CoreCommit: the commit loop of [Core]

    [Core::try_commit] from the invariant [run_ok] of a running core: the loop
    that changes the leader schedule, decides leaders, delivers their sub-dags,
    scores them and unsuspends blocks returns without a panic, each round of it
    that delivers something moves the last commit forward, and the invariant
    holds again. *)
From S2P Require Import Prelude Committee Block StakeAggregator ThresholdClock Commit Error BlockVerifier Store MemStore.
From S2P Require Import ScoringMetrics LeaderScoring DagState LeaderSchedule Election Linearizer BaseCommitter UniversalCommitter.
From S2P Require Import CommitRule CommitterSpec Safety DagInv DagOps BlockManager BlockManagerInv BlockManagerOps BlockManagerTheorems.
From S2P Require Import DagReads QuorumRounds Ancestor Transactions HandleCommit CommitObserver Agreement Core ProposalAncestors.
From S2P Require Import Proposal Scoring History.
Local Open Scope N_scope.
Local Open Scope rust_scope.

(** ** The invariant of a running core *)

(** The blocks made so far number at most [n], of rounds up to [M]. *)
Definition universe_within (U : VerifiedBlock → Prop) (n : nat) (M : Round) : Prop :=
  ∃ made : list VerifiedBlock, (∀ b, U b → b ∈ made) ∧ (length made <= n)%nat ∧ ∀ b, U b → round b <= M.

(** A core that has committed the sub-dags of [log].  [byz] are the faulty
    authorities; [U], [G] and [g] are as for [core_ok]. *)
Record run_ok {St : Type} `{StoreLaws St} `{Rng} `{Crypto} `{CommitBcs} `{Signer} (byz : gset AuthorityIndex) (U : VerifiedBlock → Prop) (G : gset BlockRef) (g : Round)
    (log : list (CommittedSubDag * TrustedCommit)) (k : Core St) : Prop := {
  ro_core : core_ok U G g k;
  ro_node : node_inv (co_dag_state k) (delivered log);
  ro_log : log_ok (co_dag_state k) log (length log);
  ro_once : NoDup (delivered_refs log.*1);
  ro_sent : sender_closed (co_commit_sender k) = false;
  ro_byz : set_stake (committee (co_context k)) byz < validity_threshold (committee (co_context k));
  ro_honest (b b' : VerifiedBlock) : U b → U b' → slot b = slot b' → author b ∉ byz → b = b';
  ro_decided : last_commit_round (co_dag_state k) <= slot_round (co_last_decided_leader k) <= ds_highest_accepted_round (co_dag_state k);
  ro_highest : ds_highest_accepted_round (co_dag_state k) = 0 ∨ ∃ b : VerifiedBlock, U b ∧ ds_highest_accepted_round (co_dag_state k) = round b;
  ro_index : last_commit_index (co_dag_state k) <= last_commit_round (co_dag_state k);
  ro_scoring : scoring_ok (committee (co_context k)) (delivered log) (last_commit_round (co_dag_state k))
    (last_commit_index (co_dag_state k)) (ds_scoring_subdag (co_dag_state k));
  ro_schedule : schedule_inv (co_dag_state k) (co_leader_schedule k) ∧ ls_context (co_leader_schedule k) = co_context k;
  ro_swap : swap_config_ok (co_context k);
  ro_distributed : consensus_distributed_vote_scoring_strategy (protocol_config (co_context k)) = true;
  ro_history : history byz U log k;
}.

(** Changes of a core that keep its invariant: the context, the committers and
    what was included are the same, and no known block is forgotten. *)
Lemma core_ok_change {St : Type} `{StoreLaws St} `{Crypto} `{Signer} U G g g' (k k' : Core St) : core_ok U G g k →
  co_context k' = co_context k → co_committers k' = co_committers k → co_last_included_ancestors k' = co_last_included_ancestors k →
  schedule_ok (committee (co_context k)) (co_leader_schedule k') →
  tc_ok (protocol_config (co_context k)) (co_transaction_consumer k') →
  am_ok (co_ancestor_state_manager k') ∧ am_context (co_ancestor_state_manager k') = co_context k →
  bm_ok (own_index (co_context k)) U g' (co_block_manager k') (co_dag_state k') →
  ds_context (co_dag_state k') = co_context k → (∀ r, known (co_dag_state k) r → known (co_dag_state k') r) →
  (∀ r, known (co_dag_state k') r → ref_round r = 0 → known (co_dag_state k) r) → core_ok U G g' k'.
Proof.
  intros Hk Hctx Hcm Hinc Hs Ht Ha Hm Hdc Hkn Hgen. split; rewrite ?Hctx, ?Hcm; try apply Hk; try done.
  - intros b Hb Hown. apply Hkn. by apply (ck_known _ _ _ _ Hk b).
  - intros b r Hb Hr Hown. destruct (ck_links _ _ _ _ Hk b r Hb Hr Hown); auto.
  - intros r Hz. rewrite <-(ck_genesis _ _ _ _ Hk r Hz). split; auto.
  - destruct (ck_last _ _ _ _ Hk) as (mine & Hmine & [Hlen Hbe]). pose proof (bm_dag _ _ _ _ _ Hm) as Hok'.
    pose proof (core_dag U G g k Hk) as Hok. pose proof (ck_context _ _ _ _ Hk) as Hdk.
    unfold get_last_proposed_block in *. rewrite Hdk in Hmine. rewrite Hdc.
    destruct (last_block_ret _ Hok (own_index (co_context k))) as (x & Hx & Hxa & Hxl & _); [rewrite Hdk; apply (ck_own _ _ _ _ Hk)|].
    destruct (last_block_ret _ Hok' (own_index (co_context k))) as (y & Hy & _ & _ & _ & Hmax); [rewrite Hdc; apply (ck_own _ _ _ _ Hk)|].
    rewrite Hmine in Hx. injection Hx as <-. exists y. split; [done|]. split; [by rewrite Hinc, Hlen, Hdk, Hdc|].
    rewrite Hinc. intros a r Hr. specialize (Hbe a r Hr).
    assert (round mine <= round y) as Hle; [|lia]. destruct (decide (round mine = 0)) as [->|Hnz]; [lia|].
    destruct (known_above _ Hok' (reference mine)) as [_ (r' & i & Hi & Hra & Hle)]; [apply Hkn; by eexists|simpl; lia|].
    etrans; [exact Hle|]. apply (Hmax r' i Hi). by rewrite Hra.
Qed.

Section state.
Context {St : Type} `{StoreLaws St}.
Implicit Type d : DagState St.

Lemma log_ok_rescored d s infos log n : log_ok d log n → log_ok (rescored d s infos) log n.
Proof. by intros []. Qed.

Lemma size_list_to_set_le (l : list BlockRef) : (size (list_to_set l : gset BlockRef) <= length l)%nat.
Proof.
  induction l as [|x l IH]; [by vm_compute|]. cbn [list_to_set length].
  pose proof (size_union_alt ({[x]} : gset BlockRef) (list_to_set l)) as Hu. rewrite size_singleton in Hu.
  assert (size ((list_to_set l : gset BlockRef) ∖ {[x]}) <= size (list_to_set l : gset BlockRef))%nat; [|lia].
  apply subseteq_size. set_solver.
Qed.

(** The cache holds blocks that have been made. *)
Lemma recents_within U n M own d : dag_ok d → own_ok own U d → universe_within U n M → (size (ds_recent_blocks d) <= n)%nat.
Proof.
  intros Hok [_ Hown] (made & Hm & Hlen & _).
  assert (dom (ds_recent_blocks d) ⊆ list_to_set (reference <$> made)) as Hsub.
  { intros r [i Hi]%elem_of_dom. destruct (ok_recent _ Hok _ _ Hi) as (Href & _ & Hpos & _).
    apply elem_of_list_to_set, list_elem_of_fmap. exists (bi_block i). split; [done|]. apply Hm, (Hown r); [by apply recent_lookup|done]. }
  apply subseteq_size in Hsub. rewrite size_dom in Hsub. pose proof (size_list_to_set_le (reference <$> made)) as Hle.
  rewrite length_fmap in Hle. lia.
Qed.
End state.

(** ** Deciding *)

Section commit.
Context {St : Type} `{StoreLaws St} `{RngLaws} `{CryptoLaws} `{CommitBcsLaws} `{!CommitCodec St} `{!Signer}.
Context (byz : gset AuthorityIndex) (U : VerifiedBlock → Prop) (G : gset BlockRef).
Implicit Type k : Core St.

Lemma run_dag g log k : run_ok byz U G g log k → dag_ok (co_dag_state k).
Proof. intros Hk. apply (ni_ok _ _ (ro_node _ _ _ _ _ _ Hk)). Qed.

Lemma run_context g log k : run_ok byz U G g log k → ds_context (co_dag_state k) = co_context k.
Proof. intros Hk. apply (ck_context _ _ _ _ (ro_core _ _ _ _ _ _ Hk)). Qed.

Lemma run_own g log k : run_ok byz U G g log k → own_ok (own_index (co_context k)) U (co_dag_state k).
Proof. intros Hk. apply (bm_own _ _ _ _ _ (ck_manager _ _ _ _ (ro_core _ _ _ _ _ _ Hk))). Qed.

Lemma extends_made own (d d' : DagState St) bs (b : VerifiedBlock) : extends own U d bs d' → b ∈ bs → 0 < round b →
  ∃ b' : VerifiedBlock, U b' ∧ round b' = round b.
Proof.
  intros He Hb Hpos. destruct (proj2 (ex_known _ _ _ _ _ He (reference b))) as [b' Hb'].
  { right. by apply list_elem_of_fmap_2. }
  exists b'. split; [by apply (proj2 (ex_own _ _ _ _ _ He) _ _ Hb')|].
  apply (lookup_block_reference _ (ex_ok _ _ _ _ _ He)) in Hb'. by injection Hb'.
Qed.

Lemma highest_extends own (d d' : DagState St) bs : extends own U d bs d' →
  (ds_highest_accepted_round d = 0 ∨ ∃ b : VerifiedBlock, U b ∧ ds_highest_accepted_round d = round b) →
  ds_highest_accepted_round d' = 0 ∨ ∃ b : VerifiedBlock, U b ∧ ds_highest_accepted_round d' = round b.
Proof.
  intros He Hd. destruct (ex_highest _ _ _ _ _ He) as [->|(b & Hb & ->)]; [done|].
  destruct (decide (round b = 0)) as [|Hnz]; [by left|right]. destruct (extends_made _ _ _ _ b He Hb ltac:(lia)) as (b' & ? & ?). by exists b'.
Qed.

(** Accepting blocks that have been made keeps the invariant. *)
Lemma run_ok_extends g g' log k m' d' bs : run_ok byz U G g log k →
  bm_ok (own_index (co_context k)) U g' m' d' → extends (own_index (co_context k)) U (co_dag_state k) bs d' →
  run_ok byz U G g' log (set_dag k m' d').
Proof.
  intros Hk Hm He. pose proof (run_context _ _ _ Hk) as Hctx. pose proof (ro_core _ _ _ _ _ _ Hk) as Hcore.
  pose proof (ex_context _ _ _ _ _ He) as Hctx'. pose proof (ex_rest _ _ _ _ _ He) as Hrest. injection Hrest as Hsc Hun _ _ Hgen.
  assert (last_commit_round d' = last_commit_round (co_dag_state k) ∧ last_commit_index d' = last_commit_index (co_dag_state k)) as [Hlr Hli].
  { unfold last_commit_round, last_commit_index. by rewrite (ex_commit _ _ _ _ _ He). }
  split; cbn [set_dag co_dag_state co_context co_leader_schedule co_commit_sender co_last_decided_leader]; rewrite ?Hlr, ?Hli, ?Hsc; try apply Hk.
  - apply (core_ok_change U G g g' k); try done; try apply Hcore; cbn [set_dag co_dag_state].
    + by rewrite Hctx'.
    + intros r. by apply (extends_mono _ _ _ _ _ _ He).
    + intros r. unfold known. intros Hr Hz. by rewrite (genesis_known (co_dag_state k) d') in Hr.
  - eapply node_inv_extends; [apply Hk|done].
  - eapply log_ok_extends; [apply Hk|done].
  - destruct (ro_decided _ _ _ _ _ _ Hk). split; [done|]. etrans; [done|]. apply (ex_higher _ _ _ _ _ He).
  - eapply highest_extends; [done|]. apply Hk.
  - destruct (ro_schedule _ _ _ _ _ _ Hk) as [[? ? ? Hn] ?]. split; [|done]. split; rewrite ?Hsc, ?Hun, ?Hli; done.
  - apply (history_same byz U U log k); [done| |apply Hk]. unfold remembered. cbn. by rewrite Hsc, Hgen, (ex_commit _ _ _ _ _ He).
Qed.

Lemma run_ok_decided g log k s : run_ok byz U G g log k → history byz U log (set_decided k s) →
  last_commit_round (co_dag_state k) <= slot_round s <= ds_highest_accepted_round (co_dag_state k) → run_ok byz U G g log (set_decided k s).
Proof.
  intros Hk Hh Hs. split; cbn [set_decided co_dag_state co_context co_leader_schedule co_commit_sender co_last_decided_leader]; try apply Hk; try done.
  pose proof (ro_core _ _ _ _ _ _ Hk) as Hcore. apply (core_ok_change U G g g k); try done; try apply Hcore.
Qed.

Lemma run_ok_consumer g log k consumer evs : run_ok byz U G g log k → tc_ok (protocol_config (co_context k)) consumer →
  run_ok byz U G g log (set_consumer k consumer evs).
Proof.
  intros Hk Ht. split; cbn [set_consumer co_dag_state co_context co_leader_schedule co_commit_sender co_last_decided_leader]; try apply Hk.
  - pose proof (ro_core _ _ _ _ _ _ Hk) as Hcore. apply (core_ok_change U G g g k); try done; try apply Hcore.
  - apply (history_same byz U U log k); [done|done|apply Hk].
Qed.

(** The blocks are [n] at most, of rounds up to [M]. *)
Context (n : nat) (M : Round) (Hwithin : universe_within U n M) (Hmax : M < U32_MAX) (fuel : nat) (Hfuel : (n < fuel)%nat).

Lemma run_recents g log k : run_ok byz U G g log k → (size (ds_recent_blocks (co_dag_state k)) < fuel)%nat.
Proof.
  intros Hk. pose proof (recents_within U n M _ _ (run_dag _ _ _ Hk) (run_own _ _ _ Hk) Hwithin). lia.
Qed.

Lemma run_highest g log k : run_ok byz U G g log k → ds_highest_accepted_round (co_dag_state k) <= M.
Proof. intros Hk. destruct Hwithin as (_ & _ & _ & HM). destruct (ro_highest _ _ _ _ _ _ Hk) as [->|(b & Hb & ->)]; [lia|by apply HM]. Qed.

(** The uncommitted blocks are a universe with few faulty authorities. *)
Lemma run_universe g log k : run_ok byz U G g log k →
  universe_ok (committee (co_context k)) byz (view_above (last_commit_round (co_dag_state k)) (ds_recent_blocks (co_dag_state k))).
Proof.
  intros Hk. pose proof (run_dag _ _ _ Hk) as Hok. pose proof (run_context _ _ _ Hk) as Hctx.
  assert (∀ r (b : VerifiedBlock), view_above (last_commit_round (co_dag_state k)) (ds_recent_blocks (co_dag_state k)) !! r = Some b →
    reference b = r ∧ 0 < round b ∧ block_ok (committee (co_context k)) b ∧ U b) as Hv.
  { intros r b (i & Hi & <- & _)%view_above_Some. destruct (ok_recent _ Hok _ _ Hi) as (Href & _ & Hpos & Hb). rewrite Hctx in Hb.
    rewrite <-Href in Hpos. split_and!; [done..|]. apply (proj2 (run_own _ _ _ Hk) r); [by apply recent_lookup|by rewrite <-Href]. }
  split.
  - rewrite <-Hctx. apply Hok.
  - apply Hk.
  - intros r b Hb. by destruct (Hv r b Hb).
  - intros r b Hb _. by destruct (Hv r b Hb) as (_ & _ & ? & _).
  - intros r b Hb Hz. destruct (Hv r b Hb) as (_ & ? & _). lia.
  - intros r r' b b' Hb Hb' _ Hr Ha Hh. destruct (Hv r b Hb) as (_ & _ & _ & Hu), (Hv r' b' Hb') as (_ & _ & _ & Hu').
    apply (ro_honest _ _ _ _ _ _ Hk); try done. unfold slot. congruence.
Qed.

(** The decided leaders: slots of increasing rounds after the last decided one,
    the committed ones blocks of the cache. *)
Record decided_ok k (decided : list DecidedLeader) : Prop := {
  do_sorted : StronglySorted slot_before (decided_slot <$> decided);
  do_round dl : dl ∈ decided → slot_round (co_last_decided_leader k) < slot_round (decided_slot dl) <= ds_highest_accepted_round (co_dag_state k);
  do_held (b : VerifiedBlock) : DlCommit b ∈ decided → holds (co_dag_state k) b;
  do_settles i dl : decided !! i = Some dl → slot_round (decided_slot dl) = slot_round (co_last_decided_leader k) + 1 + N.of_nat i ∧
    settles (committee (co_context k)) byz (co_committers k) U (leader_swap_table (co_leader_schedule k)) (slot_round (decided_slot dl)) (decided_status dl);
}.

(** [try_decide] over any universe that has the uncommitted blocks. *)
Lemma decide_spec g log k V : run_ok byz U G g log k → universe_ok (committee (co_context k)) byz V →
  view_above (last_commit_round (co_dag_state k)) (ds_recent_blocks (co_dag_state k)) ⊆ V →
  ∃ sts, decided_list (committee (co_context k)) V (last_commit_round (co_dag_state k))
      (slots_from (co_committers k) (elected (co_leader_schedule k)) (slot_round (co_last_decided_leader k) + 1)
        (N.to_nat (ds_highest_accepted_round (co_dag_state k) - 1 - (slot_round (co_last_decided_leader k) + 1)))) sts ∧
    try_decide fuel (co_committers k) (co_leader_schedule k) (co_dag_state k) (co_last_decided_leader k) = Ret (prefix_decided sts).
Proof.
  intros Hk HU Hsub. set (d := co_dag_state k) in *. set (last := co_last_decided_leader k).
  pose proof (run_dag _ _ _ Hk) as Hok. pose proof (run_highest _ _ _ Hk) as Hhi. pose proof (ro_decided _ _ _ _ _ _ Hk) as Hdec.
  pose proof (ro_core _ _ _ _ _ _ Hk) as Hcore. pose proof (run_context _ _ _ Hk) as Hctx. fold d in Hok, Hhi, Hdec, Hctx. fold last in Hdec.
  assert (honest_node (committee (co_context k)) V last d fuel) as [Hc HV HVU HL Hm Hf]%honest_node_ok.
  { split; try done; [by rewrite Hctx| |lia|lia|by eapply run_recents]. intros r i Hi Hr. eapply lookup_weaken; [|exact Hsub]. apply view_above_Some.
    exists i. destruct (ok_recent _ Hok _ _ Hi) as (Href & _). rewrite <-Href in Hr. by split_and!. }
  pose proof (schedule_election _ _ true _ (ck_schedule _ _ _ _ Hcore) (ck_committers _ _ _ _ Hcore)) as Hel. rewrite <-Hc in *.
  exact (try_decide_spec d _ _ HV byz V HU HVU fuel Hf _ _ _ Hel last HL Hm ltac:(lia)).
Qed.

Lemma slots_once g log k r : run_ok byz U G g log k → r < U32_MOD →
  ∃ s, omap (λ o, elected (co_leader_schedule k) o r) (co_committers k) = [s] ∧ slot_round s = r.
Proof. intros Hk. pose proof (ro_core _ _ _ _ _ _ Hk) as Hcore. eapply exactly_one_slot; apply Hcore. Qed.

(** The uncommitted blocks are among the valid ones made. *)
Lemma view_covered g log k V : run_ok byz U G g log k → covers (committee (co_context k)) V U →
  view_above (last_commit_round (co_dag_state k)) (ds_recent_blocks (co_dag_state k)) ⊆ V.
Proof.
  intros Hk Hc. pose proof (run_dag _ _ _ Hk) as Hok. apply map_subseteq_spec. intros r b (i & Hi & <- & _)%view_above_Some.
  destruct (ok_recent _ Hok _ _ Hi) as (Href & _ & Hpos & Hb). rewrite (run_context _ _ _ Hk) in Hb. rewrite <-Href in Hpos |- *. apply Hc.
  split_and!; [|done|done]. apply (proj2 (run_own _ _ _ Hk) r); [by apply recent_lookup|by rewrite <-Href].
Qed.

Lemma decide_settles g log k decided i dl : run_ok byz U G g log k →
  try_decide fuel (co_committers k) (co_leader_schedule k) (co_dag_state k) (co_last_decided_leader k) = Ret decided → decided !! i = Some dl →
  slot_round (decided_slot dl) = slot_round (co_last_decided_leader k) + 1 + N.of_nat i →
  settles (committee (co_context k)) byz (co_committers k) U (leader_swap_table (co_leader_schedule k)) (slot_round (decided_slot dl)) (decided_status dl).
Proof.
  intros Hk Heq Hi Hr V HV Hcov. destruct (decide_spec _ _ _ V Hk HV (view_covered _ _ _ _ Hk Hcov)) as (sts & Hd & Heq').
  rewrite Heq in Heq'. injection Heq' as ->. apply prefix_decided_lookup in Hi. apply (decided_list_drop _ _ _ i) in Hd.
  pose proof (run_highest _ _ _ Hk) as Hhi. rewrite slots_from_drop in Hd.
  2: { intros r Hr'. destruct (slots_once _ _ _ r Hk) as (s & -> & _); [unfold U32_MAX, U32_MOD in *; lia|done]. }
  exists (co_leader_schedule k), (last_commit_round (co_dag_state k)). eexists _, (drop i sts). rewrite Hr. split_and!; [|done|exact Hd|].
  - apply (ck_schedule _ _ _ _ (ro_core _ _ _ _ _ _ Hk)).
  - by rewrite head_lookup, lookup_drop, Nat.add_0_r.
Qed.

Lemma decide_ok g log k : run_ok byz U G g log k →
  ∃ decided, try_decide fuel (co_committers k) (co_leader_schedule k) (co_dag_state k) (co_last_decided_leader k) = Ret decided ∧ decided_ok k decided.
Proof.
  intros Hk. pose proof (run_highest _ _ _ Hk) as Hhi. pose proof (ro_core _ _ _ _ _ _ Hk) as Hcore.
  destruct (decide_spec _ _ _ _ Hk (run_universe _ _ _ Hk) ltac:(done)) as (sts & Hd & Heq). rewrite Heq. eexists. split; [done|].
  pose proof (decided_list_slots _ _ _ _ _ Hd) as Hsl. pose proof (prefix_decided_slots sts) as Hpre.
  pose proof (schedule_election _ _ true _ (ck_schedule _ _ _ _ Hcore) (ck_committers _ _ _ _ Hcore)) as Hel.
  match type of Hd with decided_list _ _ _ (slots_from ?cs ?el ?lo ?m) _ =>
    destruct (slots_from_sorted _ _ _ el m Hel lo) as [Hsort Hrounds] end.
  { intros r Hr. apply one_slot; [apply Hcore|]. unfold U32_MAX, U32_MOD in *. lia. }
  rewrite Hsl in Hpre. split.
  - by eapply StronglySorted_prefix.
  - intros dl Hdl%(list_elem_of_fmap_2 decided_slot). destruct Hpre as [rest Hpre].
    assert (decided_slot dl ∈ (decided_slot <$> prefix_decided sts) ++ rest) as Hin by set_solver. rewrite <-Hpre in Hin.
    apply Hrounds in Hin. lia.
  - intros b (i & Hi)%prefix_decided_commit%list_elem_of_lookup. destruct (decided_list_lookup _ _ _ _ _ _ _ Hd Hi) as (s & _ & _ & _ & [HVb _] & _).
    apply view_above_Some in HVb as (j & Hj & Hjb & _). by exists j.
  - intros i dl Hi. assert (slot_round (decided_slot dl) = slot_round (co_last_decided_leader k) + 1 + N.of_nat i) as Hr.
    { assert ((decided_slot <$> prefix_decided sts) !! i = Some (decided_slot dl)) as Hs by (by rewrite list_lookup_fmap, Hi).
      eapply prefix_lookup_Some in Hs; [|exact Hpre]. eapply slots_from_lookup; [|exact Hs].
      intros r Hr. eapply slots_once; [done|]. unfold U32_MAX, U32_MOD in *. lia. }
    split; [done|]. by eapply decide_settles.
Qed.

(** ** One round of the loop *)

(** What committing leaves alone. *)
Definition untouched k : Context * CoreSignals * bool * Round * Round * option Round * list (option BlockRef) * gmap BlockRef VerifiedBlock :=
  (co_context k, co_signals k, co_quorum_subscribers_exists k, co_propagation_delay k, co_last_signaled_round k,
   co_last_known_proposed_round k, co_last_included_ancestors k, ds_genesis (co_dag_state k)).

(** What a commit step from [k] to [k'] delivers. *)
Record commit_step k k' (new : list (CommittedSubDag * TrustedCommit)) : Prop := {
  cs_untouched : untouched k' = untouched k;
  cs_consumer : co_transaction_consumer k' = co_transaction_consumer k ∧ co_tx_events k' = co_tx_events k;
  cs_sent : sent (co_commit_sender k') = sent (co_commit_sender k) ++ new.*1;
  cs_round : last_commit_round (co_dag_state k) <= last_commit_round (co_dag_state k');
}.

Lemma commit_step_refl k : commit_step k k [].
Proof. split; [done|done|by rewrite app_nil_r|done]. Qed.

Lemma commit_step_trans k k1 k2 new1 new2 : commit_step k k1 new1 → commit_step k1 k2 new2 → commit_step k k2 (new1 ++ new2).
Proof.
  intros [Hu1 [Hc1 He1] Hs1 Hr1] [Hu2 [Hc2 He2] Hs2 Hr2]. split; [congruence|split; congruence| |lia].
  by rewrite Hs2, Hs1, fmap_app, app_assoc.
Qed.

Lemma commits_until_ret g log k : run_ok byz U G g log k →
  commits_until_leader_schedule_update (co_leader_schedule k) (co_dag_state k) =
  Ret (num_commits_per_schedule (co_leader_schedule k) - scored (ds_scoring_subdag (co_dag_state k))).
Proof.
  intros Hk. destruct (ro_schedule _ _ _ _ _ _ Hk) as [Hsv Hctx]. unfold commits_until_leader_schedule_update, scoring_subdags_count.
  rewrite Hctx, (ro_distributed _ _ _ _ _ _ Hk), (scored_count _ _ _ _ _ (ro_scoring _ _ _ _ _ _ Hk)). cbn [mbind outcome_bind].
  by rewrite (proj2 (N.leb_le _ _)) by apply Hsv.
Qed.

(** The schedule is changed when it is full. *)
Lemma change_schedule_ok g log k : run_ok byz U G g log k →
  scored (ds_scoring_subdag (co_dag_state k)) = num_commits_per_schedule (co_leader_schedule k) →
  ∃ k', change_schedule k = Ret k' ∧ run_ok byz U G g log k' ∧ commit_step k k' [] ∧
    last_commit_round (co_dag_state k') = last_commit_round (co_dag_state k) ∧
    scored (ds_scoring_subdag (co_dag_state k')) = 0.
Proof.
  intros Hk Hfull. pose proof (run_context _ _ _ Hk) as Hctx. destruct (ro_schedule _ _ _ _ _ _ Hk) as [Hsv Hlctx].
  pose proof (ro_core _ _ _ _ _ _ Hk) as Hcore. unfold change_schedule. rewrite (ro_distributed _ _ _ _ _ _ Hk).
  pose proof (ck_schedule _ _ _ _ Hcore) as Hsok. pose proof (ro_swap _ _ _ _ _ _ Hk) as Hsw. pose proof (ro_scoring _ _ _ _ _ _ Hk) as Hsc.
  rewrite <-Hctx in Hlctx, Hsok, Hsw, Hsc.
  destruct (update_schedule_ok (co_dag_state k) (delivered log) (co_leader_schedule k) (ro_node _ _ _ _ _ _ Hk) Hsok Hlctx Hsw Hsv Hsc Hfull) as
    (sched & infos & r & -> & Hinfos & Hso & Hsctx & Hnum & Hsv' & _ & _ & Hlen & Hre). rewrite Hctx in Hso, Hsctx, Hlen, Hre. cbn [mbind outcome_bind]. eexists. split; [done|].
  split; [|split; [split; [done|done|symmetry; apply app_nil_r|done]|done]].
  set (d' := rescored _ _ _) in *. assert (node_inv d' (delivered log)) as Hn' by (apply node_inv_rescored; [apply Hk|exact Hinfos]).
  split; cbn [set_schedule co_dag_state co_context co_leader_schedule co_commit_sender co_last_decided_leader]; try apply Hk; try done.
  - apply (core_ok_change U G g g k); try done; cbn [set_schedule co_leader_schedule co_transaction_consumer
      co_ancestor_state_manager co_block_manager co_dag_state]; try apply Hcore.
    + destruct (ck_scores _ _ _ _ Hcore) as [(Ha1 & Ha2 & Ha3 & _) Hactx]. split; [|done]. split_and!; [done..|].
      unfold am_size. cbn [set_propagation_scores am_propagation_scores am_context]. rewrite Hactx. lia.
    + apply (bm_ok_advance _ U g _ (co_dag_state k)); [apply Hcore|apply Hn'|done|done|done].
  - apply log_ok_rescored, Hk.
  - pose proof (ro_history _ _ _ _ _ _ Hk) as Hh. pose proof (hi_number _ _ _ _ Hh) as Hnum'.
    apply (history_rescored byz U log k _ (last_commit_index (co_dag_state k))); try done; [exact (sc_range _ _ _ _ _ Hsc)|congruence|by apply Hre].
Qed.

Lemma prepare_schedule_ok g log k : run_ok byz U G g log k →
  ∃ k' limit, prepare_schedule k = Ret (k', limit) ∧ run_ok byz U G g log k' ∧ commit_step k k' [] ∧
    last_commit_round (co_dag_state k') = last_commit_round (co_dag_state k) ∧
    0 < limit ∧ scored (ds_scoring_subdag (co_dag_state k')) + limit = num_commits_per_schedule (co_leader_schedule k').
Proof.
  intros Hk. destruct (ro_schedule _ _ _ _ _ _ Hk) as [Hsv _]. pose proof (sv_count _ _ Hsv) as Hcnt. unfold prepare_schedule.
  rewrite (commits_until_ret _ _ _ Hk). cbn [mbind outcome_bind].
  destruct (N.eqb_spec (num_commits_per_schedule (co_leader_schedule k) - scored (ds_scoring_subdag (co_dag_state k))) 0) as [Hz|Hnz].
  - destruct (change_schedule_ok _ _ _ Hk ltac:(lia)) as (k' & -> & Hk' & Hstep & Hlr & Hsc). cbn [mbind outcome_bind].
    rewrite (commits_until_ret _ _ _ Hk'), Hsc. cbn [mbind outcome_bind]. destruct (ro_schedule _ _ _ _ _ _ Hk') as [Hsv' _].
    pose proof (sv_positive _ _ Hsv'). rewrite (proj2 (N.ltb_lt _ _)) by lia. cbn. eexists _, _. split; [done|]. split_and!; try done; lia.
  - cbn [mbind outcome_bind]. rewrite (proj2 (N.ltb_lt _ _)) by lia. cbn. eexists _, _. split; [done|]. split_and!; try done; [apply commit_step_refl|lia..].
Qed.

(** Without certified commits, the commit rule decides. *)
Lemma decide_next_ok g log k t limit : run_ok byz U G g log k → 0 < limit →
  ∃ decided, decide_next fuel k t [] limit = Ret (k, decided, []) ∧ decided_ok k decided ∧ N.of_nat (length decided) <= limit.
Proof.
  intros Hk Hl. destruct (decide_ok _ _ _ Hk) as (decided & Heq & [Hs Hr Hh Hse]).
  unfold decide_next, try_decide_certified, try_accept_committed_blocks. rewrite (ni_gc _ _ (ro_node _ _ _ _ _ _ Hk)). cbn [negb].
  rewrite (proj2 (N.ltb_lt _ _) Hl), (proj2 (N.leb_gt _ _)) by (simpl; lia).
  cbn. rewrite ?bool_decide_eq_true_2 by done. cbn.
  replace (set_dag k (co_block_manager k) (co_dag_state k)) with k by by destruct k.
  rewrite Heq. cbn [mbind outcome_bind]. eexists. split; [done|]. split; [|rewrite length_take; lia].
  assert (take (N.to_nat limit) decided `prefix_of` decided) as Hp by (eexists; symmetry; apply take_drop). split.
  - eapply StronglySorted_prefix; [|done]. destruct Hp as [rest Hp]. exists (decided_slot <$> rest). by rewrite Hp, fmap_app at 1.
  - intros dl Hdl. apply Hr. destruct Hp as [rest ->]. set_solver.
  - intros b Hb. apply Hh. destruct Hp as [rest ->]. set_solver.
  - intros i dl Hi. apply Hse. by eapply prefix_lookup_Some.
Qed.

(** Whatever is delivered for the leaders, with [s] as the last decided slot,
    continues the history. *)
Definition continued (log : list (CommittedSubDag * TrustedCommit)) k (leaders : list VerifiedBlock) (s : Slot) : Prop :=
  ∀ new s' k', collected (batch_scores (co_leader_schedule k) (co_dag_state k)) 0 (co_dag_state k) (delivered log) leaders new →
    add_subdags (committee (co_context k)) (ds_scoring_subdag (co_dag_state k)) new.*1 = Ret s' →
    last_commit_index (co_dag_state k) + N.of_nat (length new) < U32_MAX →
    remembered k' = (co_context k, co_committers k, s, co_leader_schedule k,
      match last new with Some x => Some x.2 | None => ds_last_commit (co_dag_state k) end, ds_genesis (co_dag_state k), s') →
    history byz U (log ++ new) k'.

Lemma history_continued g log k decided dl : run_ok byz U G g log k → decided_ok k decided → last decided = Some dl →
  scored (ds_scoring_subdag (co_dag_state k)) + N.of_nat (length decided) <= num_commits_per_schedule (co_leader_schedule k) →
  continued log k (omap into_committed_block decided) (decided_slot dl).
Proof.
  intros Hk Hdec Hlast Hlim new s' k' Hcol Hadd Hidx Heq. injection Heq as E1 E2 E3 E4 E5 E6 E7. pose proof (ro_history _ _ _ _ _ _ Hk) as Hh.
  pose proof Hh as [Hl (ds & Hch & Hlen) Hnum (x & Hx & Hor)]. pose proof (sc_range _ _ _ _ _ (ro_scoring _ _ _ _ _ _ Hk)) as Hcnt.
  rewrite Hnum in Hlim. apply last_Some in Hlast as [pre Hpre].
  assert (decided !! length pre = Some dl) as Hdl by (rewrite Hpre; by apply list_lookup_middle).
  assert (length decided = S (length pre)) as Hdlen by (rewrite Hpre, length_app; simpl; lia).
  destruct (do_settles _ _ Hdec _ _ Hdl) as [Hround _]. destruct (ro_schedule _ _ _ _ _ _ Hk) as [_ Hls].
  destruct (chronicle_batch (co_context k) byz (co_committers k) (ds_genesis (co_dag_state k)) U (leader_swap_table (co_leader_schedule k))
    (batch_scores (co_leader_schedule k) (co_dag_state k)) decided ds log (ds_scoring_subdag (co_dag_state k)) 0 (co_dag_state k) new s' Hch) as [Hch' Hs']; try done.
  { eapply history_ranked; [done..|]. lia. }
  { intros i y Hi. destruct (do_settles _ _ Hdec _ _ Hi) as [Hr Hs]. rewrite Hr in Hs.
    by replace (N.of_nat (length ds + i) + 1) with (slot_round (co_last_decided_leader k) + 1 + N.of_nat i) by lia. }
  { split; [apply Hk|done|by rewrite (run_context _ _ _ Hk)|apply (run_own _ _ _ Hk)|done]. }
  { unfold batch_scores, leader_schedule_updated, is_scoring_subdag_empty. rewrite Hls, (ro_distributed _ _ _ _ _ _ Hk). cbn. by rewrite andb_true_r. }
  { intros i Hi. unfold batch_scores. rewrite (proj2 (N.eqb_neq _ _)) by lia. by rewrite andb_false_r. }
  split; rewrite ?E1, ?E2, ?E3, ?E4, ?E5, ?E6, ?E7; [| |done|].
  - rewrite last_app. by destruct (last new).
  - eexists. split; [done|]. rewrite length_app. lia.
  - destruct Hs' as [[-> ->]|Hs']; [rewrite app_nil_r; by exists x|]. eexists. split; [done|]. by left.
Qed.

(** ** Delivering *)

Lemma set_scoring_rescored (d : DagState St) s : ds_unscored_committed_subdags d = [] →
  set_scoring d s (ds_unscored_committed_subdags d) = rescored d s (ds_commit_info_to_write d).
Proof. intros ->. done. Qed.

(** Scoring what was delivered. *)
Lemma score_delivered g log k d1 (leaders : list VerifiedBlock) (sds : list CommittedSubDag) : run_ok byz U G g log k →
  deliveries (co_dag_state k) (delivered log) leaders sds → advanced (co_dag_state k) leaders d1 →
  StronglySorted (λ a b : VerifiedBlock, round a < round b) leaders →
  (∀ x : VerifiedBlock, x ∈ leaders → last_commit_round (co_dag_state k) < round x) →
  last_commit_index d1 < U32_MAX →
  scored (ds_scoring_subdag (co_dag_state k)) + N.of_nat (length leaders) <= num_commits_per_schedule (co_leader_schedule k) →
  ∃ s', add_scoring_subdags d1 sds = Ret (rescored d1 s' (ds_commit_info_to_write d1)) ∧
    add_subdags (committee (co_context k)) (ds_scoring_subdag (co_dag_state k)) sds = Ret s' ∧
    scoring_ok (committee (co_context k)) (list_to_set (delivered_refs sds) ∪ delivered log) (last_commit_round d1) (last_commit_index d1) s' ∧
    schedule_inv (rescored d1 s' (ds_commit_info_to_write d1)) (co_leader_schedule k).
Proof.
  intros Hk Hde Had Hsort Habove Hidx Hcnt. pose proof (run_context _ _ _ Hk) as Hctx. pose proof (run_dag _ _ _ Hk) as Hok.
  pose proof (de_leaders _ _ _ _ Hde) as Hl. pose proof (f_equal length Hl) as Hlen. rewrite !length_fmap in Hlen.
  destruct (ad_counters _ _ _ Had) as (Hsc & Hun & _). destruct (ro_schedule _ _ _ _ _ _ Hk) as [[Hp Hu Hc Hnx] _]. rewrite Hu in Hun.
  assert (∀ sd, sd ∈ sds → ∃ x : VerifiedBlock, x ∈ leaders ∧ ref_round (sub_dag_leader sd) = round x) as Hlead.
  { intros sd Hsd%(list_elem_of_fmap_2 sub_dag_leader). rewrite Hl in Hsd. apply list_elem_of_fmap in Hsd as (x & Hx & Hin).
    exists x. by rewrite Hx. }
  destruct (add_subdags_ok (committee (co_context k)) ltac:(rewrite <-Hctx; apply Hok) sds (delivered log) _ _ _ (ro_scoring _ _ _ _ _ _ Hk))
    as (s' & Heq & Hs' & Hsok & Hrange).
  - apply (de_index _ _ _ _ Hde).
  - rewrite (ad_index _ _ _ Had) in Hidx. lia.
  - rewrite Hl. clear -Hsort. induction Hsort as [|x l Hs IH Hx]; csimpl; constructor; [done|]. apply Forall_fmap. exact Hx.
  - intros sd (x & Hx & ->)%Hlead. by apply Habove.
  - intros b Hb. destruct (de_held _ _ _ _ Hde b Hb) as (i & Hi & <-). destruct (ok_recent _ Hok _ _ Hi) as (_ & _ & _ & Hbo).
    rewrite Hctx in Hbo. split; [done|]. apply (de_new _ _ _ _ Hde). unfold delivered_refs. by apply list_elem_of_fmap_2.
  - apply Hde.
  - exists s'. unfold add_scoring_subdags. rewrite (ad_context _ _ _ Had), Hctx, Hsc, Heq. cbn [mbind outcome_bind].
    rewrite set_scoring_rescored by done. split; [done|]. split; [done|]. split; [|split; cbn; try done].
    + rewrite (ad_index _ _ _ Had), <-Hlen. apply Hsok; [|apply Had]. intros sd (x & Hx & ->)%Hlead. by apply (ad_leaders _ _ _ Had).
    + lia.
    + destruct Hnx as [?|[Hsz Hnx]]; [by left|right]. split; [done|].
      change (last_commit_index (rescored d1 s' _)) with (last_commit_index d1). rewrite (ad_index _ _ _ Had), <-Hlen.
      destruct (sc_commit_range (ds_scoring_subdag (co_dag_state k))) as [r|].
      * destruct Hrange as (r' & -> & ->). done.
      * destruct Hrange as [[-> ->]|(r' & -> & ->)]; [simpl; lia|lia].
Qed.

(** The leaders to deliver. *)
Record to_deliver k (leaders : list VerifiedBlock) (s : Slot) : Prop := {
  td_sorted : StronglySorted (λ a b : VerifiedBlock, round a < round b) leaders;
  td_held x : x ∈ leaders → holds (co_dag_state k) x;
  td_round (x : VerifiedBlock) : x ∈ leaders → last_commit_round (co_dag_state k) < round x <= slot_round s;
  td_slot : last_commit_round (co_dag_state k) <= slot_round s <= ds_highest_accepted_round (co_dag_state k);
  td_limit : scored (ds_scoring_subdag (co_dag_state k)) + N.of_nat (length leaders) <= num_commits_per_schedule (co_leader_schedule k);
}.

Lemma to_deliver_index g log k leaders s : run_ok byz U G g log k → to_deliver k leaders s →
  last_commit_index (co_dag_state k) + N.of_nat (length leaders) < U32_MAX.
Proof.
  intros Hk [Hs _ Hr Hsl _]. pose proof (ro_index _ _ _ _ _ _ Hk). pose proof (run_highest _ _ _ Hk).
  pose proof (sorted_count leaders _ (slot_round s) Hs (proj1 Hsl) Hr). lia.
Qed.

(** After the delivery, before blocks are unsuspended. *)
Lemma run_ok_delivered g log new k leaders s d1 s' sender :
  run_ok byz U G g log k → to_deliver k leaders s → deliveries (co_dag_state k) (delivered log) leaders new.*1 →
  advanced (co_dag_state k) leaders d1 → node_inv d1 (list_to_set (delivered_refs new.*1) ∪ delivered log) →
  log_ok d1 (log ++ new) (length (log ++ new)) → sender_closed sender = false →
  scoring_ok (committee (co_context k)) (list_to_set (delivered_refs new.*1) ∪ delivered log) (last_commit_round d1) (last_commit_index d1) s' →
  schedule_inv (rescored d1 s' (ds_commit_info_to_write d1)) (co_leader_schedule k) →
  let k' := set_dag (set_sender (set_decided k s) sender d1) (co_block_manager k) (rescored d1 s' (ds_commit_info_to_write d1)) in
  history byz U (log ++ new) k' → run_ok byz U G g (log ++ new) k'.
Proof.
  intros Hk Htd Hde Had Hn Hlog Hsend Hsc Hsv k' Hh. unfold k' in *. pose proof (run_context _ _ _ Hk) as Hctx. pose proof (ro_core _ _ _ _ _ _ Hk) as Hcore.
  destruct (ad_counters _ _ _ Had) as (_ & _ & Hhi & _). set (d2 := rescored _ _ _) in *.
  assert (node_inv d2 (delivered (log ++ new))) as Hn2 by (rewrite delivered_app; apply node_inv_rescored; [done|apply (ok_infos _ (ni_ok _ _ Hn))]).
  assert (∀ r, lookup_block d2 r = lookup_block (co_dag_state k) r) as Hl2 by apply (ad_lookup _ _ _ Had).
  assert (ds_context d2 = ds_context (co_dag_state k)) as Hc2 by apply (ad_context _ _ _ Had).
  split; cbn [set_dag set_sender set_decided co_dag_state co_context co_leader_schedule co_commit_sender co_last_decided_leader];
    try apply Hk; try done.
  - apply (core_ok_change U G g g k); try done; try apply Hcore; cbn [set_dag set_sender set_decided co_dag_state co_block_manager].
    + apply (bm_ok_advance _ U g _ (co_dag_state k)); [apply Hcore|apply Hn2|done| |done].
      apply gc_round_mono; [done|apply (ad_round _ _ _ Had)].
    + by rewrite Hc2.
    + intros r. unfold known. by rewrite Hl2.
    + intros r. unfold known. by rewrite Hl2.
  - by apply log_ok_rescored.
  - unfold delivered_refs. rewrite fmap_app, bind_app, fmap_app. apply NoDup_app. split_and!; [apply Hk| |apply Hde].
    intros r Hr Hr'. apply (de_new _ _ _ _ Hde r Hr'). by apply elem_of_list_to_set.
  - change (last_commit_round d2) with (last_commit_round d1). change (ds_highest_accepted_round d2) with (ds_highest_accepted_round d1).
    rewrite Hhi. split; [|apply Htd]. destruct (ad_last _ _ _ Had) as [[_ ->]|(x & Hx & ->)]; [apply Htd|by apply Htd].
  - change (ds_highest_accepted_round d2) with (ds_highest_accepted_round d1). rewrite Hhi. apply Hk.
  - change (last_commit_round d2) with (last_commit_round d1). change (last_commit_index d2) with (last_commit_index d1).
    rewrite (ad_index _ _ _ Had). pose proof (ro_index _ _ _ _ _ _ Hk).
    assert (last_commit_round (co_dag_state k) + N.of_nat (length leaders) <= last_commit_round d1); [|lia].
    apply sorted_count; [apply Htd|apply Had|]. intros x Hx. split; [by apply Htd|by apply (ad_leaders _ _ _ Had)].
  - by rewrite delivered_app.
  - split; [done|apply Hk].
Qed.

(** Delivering, scoring and unsuspending. *)
Lemma deliver_leaders_ok g log k t leaders s : run_ok byz U G g log k → to_deliver k leaders s → continued log k leaders s →
  ∃ d1 sender new k' g', observer_handle_commit fuel (t_instant t) (co_leader_schedule k) (co_dag_state k) (co_commit_sender k) leaders =
      Ret (d1, sender, Ok new.*1) ∧
    after_commit (set_sender (set_decided k s) sender d1) t new.*1 = Ret k' ∧ run_ok byz U G g' (log ++ new) k' ∧ commit_step k k' new ∧
    sub_dag_leader <$> new.*1 = reference <$> leaders ∧
    ∀ x : VerifiedBlock, x ∈ leaders → round x <= last_commit_round (co_dag_state k').
Proof.
  intros Hk Htd Hcont. pose proof (ro_node _ _ _ _ _ _ Hk) as Hn. pose proof (run_recents _ _ _ Hk) as Hf.
  pose proof (to_deliver_index _ _ _ _ _ Hk Htd) as Hidx. pose proof Htd as [Hsort Hheld Hround _ Hlim].
  assert (∀ x : VerifiedBlock, x ∈ leaders → last_commit_round (co_dag_state k) < round x) as Habove by (intros x Hx; by apply Hround).
  unfold observer_handle_commit.
  destruct (handle_commit_spec fuel (t_instant t) (co_leader_schedule k) _ _ leaders Hn Hheld Hsort Habove ltac:(lia) Hf)
    as (d1 & sds & Heq & Hn1 & Hde & _ & Had).
  destruct (handle_commit_log fuel (t_instant t) (co_leader_schedule k) _ _ leaders log Hn (ro_log _ _ _ _ _ _ Hk) Hheld Hsort Habove ltac:(lia) Hf)
    as (d1' & new & Heq' & Hlog & Hcol & Hlc). rewrite Heq in Heq'. injection Heq' as <- ->. rewrite Heq. cbn [mbind outcome_bind].
  rewrite send_all_spec, (ro_sent _ _ _ _ _ _ Hk). cbn [app].
  destruct (score_delivered _ _ _ _ _ _ Hk Hde Had Hsort Habove) as (s' & Hadd & Hadd' & Hsc & Hsv); [rewrite (ad_index _ _ _ Had); lia|done|].
  set (sender := mk_sender (sent (co_commit_sender k) ++ new.*1) false).
  pose proof (run_ok_delivered g log new k leaders s d1 s' sender Hk Htd Hde Had Hn1 Hlog eq_refl Hsc Hsv) as Hk2. cbv zeta in Hk2.
  set (k2 := set_dag _ _ _) in Hk2. assert (history byz U (log ++ new) k2) as Hh2.
  { pose proof (f_equal length (de_leaders _ _ _ _ Hde)) as Hlen. rewrite !length_fmap in Hlen. apply (Hcont new s'); try done; [lia|].
    destruct (ad_counters _ _ _ Had) as (_ & _ & _ & Hgen). unfold remembered, k2. cbn. by rewrite Hlc, Hgen. }
  specialize (Hk2 Hh2).
  destruct (sweep_ok (t_accept t) (t_instant t) _ U (ck_unique _ _ _ _ (ro_core _ _ _ _ _ _ Hk2)) g _ _ (ck_manager _ _ _ _ (ro_core _ _ _ _ _ _ Hk2)) (core_stamps _ _ _ _ (ro_core _ _ _ _ _ _ Hk2) _))
    as (m' & d3 & bs & Hsw & Hm3 & He3 & _).
  pose proof (run_ok_extends g _ _ k2 m' d3 bs Hk2 Hm3 He3) as Hk3.
  exists d1, sender, new, (set_dag k2 m' d3), (gc_round (co_dag_state k2)). split; [done|].
  split; [|split; [done|split; [split; [|done|done|]|split; [apply Hde|]]]].
  - unfold after_commit. cbn [set_sender set_decided co_context co_dag_state co_block_manager]. rewrite (ro_distributed _ _ _ _ _ _ Hk), Hadd.
    cbn [mbind outcome_bind]. unfold k2 in Hsw. cbn [set_dag co_block_manager co_dag_state] in Hsw. rewrite Hsw. done.
  - pose proof (ex_rest _ _ _ _ _ He3) as Hrest. injection Hrest as _ _ _ _ Hgen3. destruct (ad_counters _ _ _ Had) as (_ & _ & _ & Hgen).
    unfold untouched. cbn [set_dag co_dag_state]. rewrite Hgen3. cbn. by rewrite Hgen.
  - cbn [set_dag co_dag_state]. unfold last_commit_round at 2. rewrite (ex_commit _ _ _ _ _ He3). apply (ad_round _ _ _ Had).
  - intros x Hx. cbn [set_dag co_dag_state]. unfold last_commit_round. rewrite (ex_commit _ _ _ _ _ He3). by apply (ad_leaders _ _ _ Had).
Qed.

(** ** The loop *)

Lemma sorted_last {A} (R : relation A) l x y : StronglySorted R l → last l = Some y → x ∈ l → x = y ∨ R x y.
Proof.
  intros Hs Hl%last_Some Hx. destruct Hl as [l' ->]. apply elem_of_app in Hx as [Hx|Hx%list_elem_of_singleton]; [right|by left].
  eapply (StronglySorted_app_1_elem_of R); [exact Hs|done|left].
Qed.

Lemma decided_to_deliver g log k decided dl limit : run_ok byz U G g log k → decided_ok k decided → last decided = Some dl →
  N.of_nat (length decided) <= limit → scored (ds_scoring_subdag (co_dag_state k)) + limit = num_commits_per_schedule (co_leader_schedule k) →
  to_deliver k (omap into_committed_block decided) (decided_slot dl).
Proof.
  intros Hk [Hs Hr Hh] Hlast Hlen Hlim. pose proof (ro_decided _ _ _ _ _ _ Hk) as Hdec.
  assert (dl ∈ decided) as Hdl by (apply last_Some in Hlast as [l' ->]; set_solver).
  assert (∀ x : VerifiedBlock, x ∈ omap into_committed_block decided → DlCommit x ∈ decided) as Hin.
  { intros x (y & Hy & Hx)%list_elem_of_omap. by destruct y; cbn in Hx; simplify_eq. }
  pose proof (Hr dl Hdl). split.
  - by apply committed_sorted.
  - intros x Hx%Hin. by apply Hh.
  - intros x Hx%Hin. pose proof (Hr _ Hx) as Hrx. cbn in Hrx. split; [lia|].
    destruct (sorted_last slot_before (decided_slot <$> decided) (decided_slot (DlCommit x)) (decided_slot dl) Hs) as [Heq|Hlt].
    { by rewrite fmap_last, Hlast. } { by apply list_elem_of_fmap_2. }
    + rewrite <-Heq. done.
    + unfold slot_before in Hlt. cbn in Hlt. lia.
  - lia.
  - assert (length (omap into_committed_block decided) <= length decided)%nat; [|lia].
    clear. induction decided as [|[] l IH]; cbn; lia.
Qed.

Lemma commit_iteration_ok g log k t : run_ok byz U G g log k →
  ∃ k' g' new res, commit_iteration fuel k t [] = Ret (k', [], Ok res) ∧ run_ok byz U G g' (log ++ new) k' ∧ commit_step k k' new ∧
    match res with
    | None => new = []
    | Some sds => sds = new.*1 ∧ last_commit_round (co_dag_state k) < last_commit_round (co_dag_state k')
    end.
Proof.
  intros Hk. unfold commit_iteration.
  destruct (prepare_schedule_ok _ _ _ Hk) as (k1 & limit & Heq1 & Hk1 & Hs1 & Hlr1 & Hlim & Hsum). rewrite Heq1. cbn [mbind outcome_bind].
  destruct (decide_next_ok _ _ _ t limit Hk1 Hlim) as (decided & -> & Hdec & Hlen). cbn [mbind outcome_bind].
  destruct (last decided) as [dl|] eqn:Hlast.
  2: { exists k1, g, [], None. rewrite app_nil_r. by split_and!. }
  pose proof (decided_to_deliver _ _ _ _ _ _ Hk1 Hdec Hlast Hlen Hsum) as Htd. pose proof (history_continued _ _ _ _ _ Hk1 Hdec Hlast ltac:(lia)) as Hcont.
  case_bool_decide as Hnil.
  { exists (set_decided k1 (decided_slot dl)), g, [], None. rewrite app_nil_r. split; [done|].
    split; [apply run_ok_decided; [done| |apply Htd]|].
    - rewrite <-(app_nil_r log). pose proof (to_deliver_index _ _ _ _ _ Hk1 Htd). apply (Hcont [] (ds_scoring_subdag (co_dag_state k1))); try done; [|simpl; lia].
      rewrite Hnil. constructor.
    - split; [|done]. destruct Hs1. by split. }
  destruct (deliver_leaders_ok _ _ _ t _ _ Hk1 Htd Hcont) as (d1 & sender & new & k' & g' & Hobs & Haft & Hk' & Hs' & Hleaders & Hround).
  cbn [set_decided co_leader_schedule co_dag_state co_commit_sender]. rewrite Hobs. cbn [mbind outcome_bind]. rewrite Haft. cbn [mbind outcome_bind].
  exists k', g', new, (Some new.*1). split; [done|]. split; [done|]. split; [by apply (commit_step_trans k k1 k' [] new)|]. split; [done|].
  destruct (omap into_committed_block decided) as [|x l] eqn:Hx; [done|]. rewrite <-Hlr1.
  eapply N.lt_le_trans; [apply (td_round _ _ _ Htd x)|apply Hround]; left.
Qed.

(** The loop ends: every round that delivers raises the round of the last
    commit, which stays below that of some block. *)
Lemma try_commit_loop_ok rounds : ∀ g log k t committed, run_ok byz U G g log k →
  M < last_commit_round (co_dag_state k) + N.of_nat rounds →
  ∃ k' g' new, try_commit_loop fuel rounds k t [] committed = Ret (k', Ok (committed ++ new.*1)) ∧
    run_ok byz U G g' (log ++ new) k' ∧ commit_step k k' new.
Proof.
  induction rounds as [|rounds IH]; intros g log k t committed Hk Hr.
  { exfalso. pose proof (run_highest _ _ _ Hk). pose proof (ro_decided _ _ _ _ _ _ Hk). lia. }
  cbn [try_commit_loop]. destruct (commit_iteration_ok _ _ _ t Hk) as (k1 & g1 & new & res & -> & Hk1 & Hs1 & Hres). cbn [mbind outcome_bind].
  destruct res as [sds|]; [|subst new; exists k1, g1, []; split; [by rewrite app_nil_r|done]].
  destruct Hres as [-> Hlt]. destruct (IH _ _ _ t (committed ++ new.*1) Hk1) as (k' & g' & new' & -> & Hk' & Hs'); [lia|].
  exists k', g', (new ++ new'). rewrite fmap_app, !app_assoc. split; [done|]. split; [done|by eapply commit_step_trans].
Qed.

Lemma check_certified_nil sds : check_certified ∅ sds = Ret tt.
Proof. induction sds as [|sd sds IH]; [done|]. cbn [check_certified]. by rewrite lookup_empty. Qed.

(** [try_commit] commits what it can, once, and announces this node's blocks. *)
Lemma try_commit_ok rounds g log k t : run_ok byz U G g log k → M < N.of_nat rounds →
  ∃ k' g' new, try_commit fuel rounds k t [] = Ret (k', Ok new.*1) ∧ run_ok byz U G g' (log ++ new) k' ∧
    untouched k' = untouched k ∧ sent (co_commit_sender k') = sent (co_commit_sender k) ++ new.*1 ∧
    waiting (co_transaction_consumer k') = waiting (co_transaction_consumer k).
Proof.
  intros Hk Hr. unfold try_commit. destruct (try_commit_loop_ok rounds _ _ _ t [] Hk ltac:(lia)) as (k1 & g1 & new & -> & Hk1 & [Hu [Hc He] Hs _]).
  cbn [mbind outcome_bind app]. change (certified_map []) with (∅ : gmap CommitIndex CommitRef). rewrite check_certified_nil. cbn [mbind outcome_bind].
  destruct (notify_spec (co_transaction_consumer k1) (own_blocks (own_index (co_context k1)) new.*1) (gc_round (co_dag_state k1)))
    as (m & evs & -> & _).
  eexists _, g1, new. split; [done|]. split; [|split_and!; try done; cbn; by rewrite Hc].
  apply run_ok_consumer; [done|]. apply (ck_consumer _ _ _ _ (ro_core _ _ _ _ _ _ Hk1)).
Qed.
End commit.
