(* ===== verification/CoreThread.v ===== *)
(** * CoreThread: the thread that runs [Core]

    Models [consensus/core/src/core_thread.rs].  The commands of the other tasks
    wait in a bounded queue; the three settings are watch channels, which keep
    only the latest value.  Each round of the loop of [CoreThread::run] takes one
    of the branches that are ready, in no fixed order: the branch is an argument
    of [select].  The answers to the commands are recorded by the number of the
    sender that waits for them. *)
From S2P Require Import Prelude Committee Block StakeAggregator ThresholdClock Commit Error BlockVerifier Store.
From S2P Require Import ScoringMetrics LeaderScoring DagState LeaderSchedule Linearizer BaseCommitter UniversalCommitter.
From S2P Require Import BlockManager QuorumRounds Ancestor Transactions CommitObserver Core.
Local Open Scope N_scope.
Local Open Scope rust_scope.

Definition CORE_THREAD_COMMANDS_CHANNEL_SIZE : nat := 2000.

Inductive CoreThreadCommand :=
| AddBlocks (blocks : list VerifiedBlock) (sender : N)
| CheckBlockRefs (block_refs : list BlockRef) (sender : N)
| AddCertifiedCommits (commits : CertifiedCommits) (sender : N)
| NewBlock (r : Round) (sender : N) (force : bool)
| GetMissingBlocks (sender : N).

(** What is sent back through the oneshot channels. *)
Inductive CoreThreadReply :=
| MissingRefs (missing : gset BlockRef)
| Done
| MissingBlocks (missing : gmap BlockRef (gset AuthorityIndex)).

Record PropagationDelayAndQuorumRounds := mk_propagation {
  pd_delay : Round;
  pd_received_quorum_rounds : list QuorumRound;
  pd_accepted_quorum_rounds : list QuorumRound;
}.

(** A watch channel: the latest value, and whether the receiver has seen it. *)
Record watch (A : Type) := mk_watch { watch_value : A; watch_changed : bool }.
Arguments mk_watch {A}. Arguments watch_value {A}. Arguments watch_changed {A}.

Definition watch_send {A} (w : watch A) (x : A) : watch A := mk_watch x true.
Definition watch_seen {A} (w : watch A) : watch A := mk_watch (watch_value w) false.

(** The thread with its channels, the dispatcher's counters, and the answers
    given so far.  [ct_open] says that the handle that keeps the queue open
    exists, [ct_running] that the loop has not ended. *)
Record CoreThread (St : Type) := mk_core_thread {
  ct_core : Core St;
  ct_commands : list CoreThreadCommand;
  ct_quorum_subscribers_exists : watch bool;
  ct_propagation : watch PropagationDelayAndQuorumRounds;
  ct_last_known_proposed_round : watch Round;
  ct_highest_received_rounds : list Round;
  ct_replies : list (N * CoreThreadReply);
  ct_open : bool;
  ct_running : bool;
}.
Arguments mk_core_thread {St}. Arguments ct_core {St}. Arguments ct_commands {St}. Arguments ct_quorum_subscribers_exists {St}.
Arguments ct_propagation {St}. Arguments ct_last_known_proposed_round {St}. Arguments ct_highest_received_rounds {St}.
Arguments ct_replies {St}. Arguments ct_open {St}. Arguments ct_running {St}.

Section setters.
Context {St : Type}.
Implicit Type ct : CoreThread St.

Definition ct_set_core ct (k : Core St) : CoreThread St :=
  mk_core_thread k (ct_commands ct) (ct_quorum_subscribers_exists ct) (ct_propagation ct) (ct_last_known_proposed_round ct)
    (ct_highest_received_rounds ct) (ct_replies ct) (ct_open ct) (ct_running ct).
Definition ct_set_commands ct (q : list CoreThreadCommand) : CoreThread St :=
  mk_core_thread (ct_core ct) q (ct_quorum_subscribers_exists ct) (ct_propagation ct) (ct_last_known_proposed_round ct)
    (ct_highest_received_rounds ct) (ct_replies ct) (ct_open ct) (ct_running ct).
Definition ct_set_subscribers ct (w : watch bool) : CoreThread St :=
  mk_core_thread (ct_core ct) (ct_commands ct) w (ct_propagation ct) (ct_last_known_proposed_round ct)
    (ct_highest_received_rounds ct) (ct_replies ct) (ct_open ct) (ct_running ct).
Definition ct_set_propagation ct (w : watch PropagationDelayAndQuorumRounds) : CoreThread St :=
  mk_core_thread (ct_core ct) (ct_commands ct) (ct_quorum_subscribers_exists ct) w (ct_last_known_proposed_round ct)
    (ct_highest_received_rounds ct) (ct_replies ct) (ct_open ct) (ct_running ct).
Definition ct_set_last_known ct (w : watch Round) : CoreThread St :=
  mk_core_thread (ct_core ct) (ct_commands ct) (ct_quorum_subscribers_exists ct) (ct_propagation ct) w
    (ct_highest_received_rounds ct) (ct_replies ct) (ct_open ct) (ct_running ct).
Definition ct_set_received ct (rs : list Round) : CoreThread St :=
  mk_core_thread (ct_core ct) (ct_commands ct) (ct_quorum_subscribers_exists ct) (ct_propagation ct) (ct_last_known_proposed_round ct)
    rs (ct_replies ct) (ct_open ct) (ct_running ct).
Definition ct_set_reply ct (sender : N) (r : CoreThreadReply) : CoreThread St :=
  mk_core_thread (ct_core ct) (ct_commands ct) (ct_quorum_subscribers_exists ct) (ct_propagation ct) (ct_last_known_proposed_round ct)
    (ct_highest_received_rounds ct) (ct_replies ct ++ [(sender, r)]) (ct_open ct) (ct_running ct).
Definition ct_set_running ct (b : bool) : CoreThread St :=
  mk_core_thread (ct_core ct) (ct_commands ct) (ct_quorum_subscribers_exists ct) (ct_propagation ct) (ct_last_known_proposed_round ct)
    (ct_highest_received_rounds ct) (ct_replies ct) (ct_open ct) b.

(** [CoreThreadHandle::stop]. *)
Definition stop ct : CoreThread St :=
  mk_core_thread (ct_core ct) (ct_commands ct) (ct_quorum_subscribers_exists ct) (ct_propagation ct) (ct_last_known_proposed_round ct)
    (ct_highest_received_rounds ct) (ct_replies ct) false (ct_running ct).

(** ** The dispatcher *)

(** [fetch_max] on the counter of the author. *)
Definition fetch_max (rs : list Round) (b : VerifiedBlock) : outcome (list Round) :=
  old ← vec_index rs (author b);
  vec_set rs (author b) (N.max old (round b)).

(** [send]: a command for a thread that shuts down is dropped.  A full queue
    makes the sender wait; the step is then not taken. *)
Definition send_command ct (c : CoreThreadCommand) : CoreThread St :=
  if ct_open ct && ct_running ct then ct_set_commands ct (ct_commands ct ++ [c]) else ct.

Definition dispatch_add_blocks ct (blocks : list VerifiedBlock) (sender : N) : outcome (CoreThread St) :=
  rs ← foldM fetch_max (ct_highest_received_rounds ct) blocks;
  Ret (send_command (ct_set_received ct rs) (AddBlocks blocks sender)).

Definition dispatch_check_block_refs ct (block_refs : list BlockRef) (sender : N) : CoreThread St :=
  send_command ct (CheckBlockRefs block_refs sender).

Definition dispatch_add_certified_commits ct (commits : CertifiedCommits) (sender : N) : outcome (CoreThread St) :=
  rs ← foldM fetch_max (ct_highest_received_rounds ct) (certified_commits commits ≫= certified_blocks);
  Ret (send_command (ct_set_received ct rs) (AddCertifiedCommits commits sender)).

Definition dispatch_new_block ct (r : Round) (force : bool) (sender : N) : CoreThread St :=
  send_command ct (NewBlock r sender force).

Definition dispatch_get_missing_blocks ct (sender : N) : CoreThread St := send_command ct (GetMissingBlocks sender).

(** The watch channels have a receiver while the loop runs; otherwise the caller
    gets [Shutdown]. *)
Definition dispatch_set_quorum_subscribers_exists ct (exists_ : bool) : CoreThread St * bool :=
  if ct_running ct then (ct_set_subscribers ct (watch_send (ct_quorum_subscribers_exists ct) exists_), true) else (ct, false).

Definition dispatch_set_propagation_delay_and_quorum_rounds ct (delay : Round) (received accepted : list QuorumRound) : CoreThread St * bool :=
  if ct_running ct then (ct_set_propagation ct (watch_send (ct_propagation ct) (mk_propagation delay received accepted)), true)
  else (ct, false).

Definition dispatch_set_last_known_proposed_round ct (r : Round) : CoreThread St * bool :=
  if ct_running ct then (ct_set_last_known ct (watch_send (ct_last_known_proposed_round ct) r), true) else (ct, false).

Definition highest_received_rounds ct : list Round := ct_highest_received_rounds ct.
End setters.

Section core_thread.
Context {St : Type} `{Store St} `{Rng} `{Crypto} `{CommitBcs} `{Signer} (fuel rounds : nat).
Implicit Type ct : CoreThread St.

(** [ChannelCoreThreadDispatcher::start]. *)
Definition CoreThread_start (ctx : Context) (d : DagState St) (k : Core St) : outcome (CoreThread St) :=
  rs ← mapM (λ '((i, _) : AuthorityIndex * Authority), b ← get_last_block_for_authority d i; Ret (round (b : VerifiedBlock)))
         (authorities (committee ctx));
  let zeros := replicate (N.to_nat (committee_size (committee ctx))) ((0, 0) : QuorumRound) in
  Ret (mk_core_thread k [] (mk_watch false false) (mk_watch (mk_propagation 0 zeros zeros) false) (mk_watch 0 false) rs [] true true).

(** ** The loop *)

(** [match command]; [?] leaves the loop with the error. *)
Definition handle_command (k : Core St) (t : Times) (c : CoreThreadCommand)
    : outcome (Core St * ConsensusResult (N * CoreThreadReply)) :=
  match c with
  | AddBlocks blocks sender =>
    '(k, res) ← add_blocks fuel rounds k t blocks;
    Ret (k, match res : ConsensusResult (gset BlockRef) with Ok m => Ok (sender, MissingRefs m) | Err e => Err e end)
  | CheckBlockRefs block_refs sender =>
    '(k, res) ← check_block_refs k block_refs;
    Ret (k, match res : ConsensusResult (gset BlockRef) with Ok m => Ok (sender, MissingRefs m) | Err e => Err e end)
  | AddCertifiedCommits commits sender =>
    '(k, res) ← add_certified_commits fuel rounds k t commits;
    Ret (k, match res : ConsensusResult (gset BlockRef) with Ok m => Ok (sender, MissingRefs m) | Err e => Err e end)
  | NewBlock r sender force =>
    '(k, res) ← new_block fuel rounds k t r force;
    Ret (k, match res : ConsensusResult (option VerifiedBlock) with Ok _ => Ok (sender, Done) | Err e => Err e end)
  | GetMissingBlocks sender => Ret (k, Ok (sender, MissingBlocks (bm_missing_blocks (co_block_manager k))))
  end.

(** A block is forced when a setting makes proposing possible. *)
Definition propose_if_unblocked (before : bool) (k : Core St) (t : Times) : outcome (Core St * ConsensusResult unit) :=
  if negb before && should_propose k then
    '(k, res) ← new_block fuel rounds k t U32_MAX true;
    Ret (k, match res : ConsensusResult (option VerifiedBlock) with Ok _ => Ok tt | Err e => Err e end)
  else Ret (k, Ok tt).

Inductive branch := BrCommand | BrLastKnownProposedRound | BrQuorumSubscribersExists | BrPropagation.

(** [changed()] of the branch's channel, or [recv()], is ready. *)
Definition ready ct (b : branch) : bool :=
  ct_running ct &&
  match b with
  | BrCommand => negb (bool_decide (ct_commands ct = [])) || negb (ct_open ct)
  | BrLastKnownProposedRound => watch_changed (ct_last_known_proposed_round ct)
  | BrQuorumSubscribersExists => watch_changed (ct_quorum_subscribers_exists ct)
  | BrPropagation => watch_changed (ct_propagation ct)
  end.

(** An error ends the loop; the task panics unless it is a shutdown. *)
Definition leave ct (e : ConsensusError) : outcome (CoreThread St) :=
  match e with Shutdown => Ret (ct_set_running ct false) | _ => Panic "Fatal error occurred" end.

Definition finish ct (r : Core St * ConsensusResult unit) : outcome (CoreThread St) :=
  let ct := ct_set_core ct r.1 in
  match r.2 with Ok _ => Ret ct | Err e => leave ct e end.

(** The body of one branch of [tokio::select!]. *)
Definition select ct (t : Times) (b : branch) : outcome (CoreThread St) :=
  let k := ct_core ct in
  match b with
  | BrCommand =>
    match ct_commands ct with
    | [] => Ret (ct_set_running ct false)
    | c :: rest =>
      '(k, res) ← handle_command k t c;
      let ct := ct_set_core (ct_set_commands ct rest) k in
      match res : ConsensusResult (N * CoreThreadReply) with
      | Ok (sender, r) => Ret (ct_set_reply ct sender r)
      | Err e => leave ct e
      end
    end
  | BrLastKnownProposedRound =>
    let w := ct_last_known_proposed_round ct in
    let ct := ct_set_last_known ct (watch_seen w) in
    k ← set_last_known_proposed_round k (watch_value w);
    '(k, res) ← new_block fuel rounds k t (watch_value w +32 1) true;
    finish ct (k, match res : ConsensusResult (option VerifiedBlock) with Ok _ => Ok tt | Err e => Err e end)
  | BrQuorumSubscribersExists =>
    let w := ct_quorum_subscribers_exists ct in
    let ct := ct_set_subscribers ct (watch_seen w) in
    r ← propose_if_unblocked (should_propose k) (set_quorum_subscribers_exists k (watch_value w)) t;
    finish ct r
  | BrPropagation =>
    let w := ct_propagation ct in
    let ct := ct_set_propagation ct (watch_seen w) in
    let s := watch_value w in
    r ← propose_if_unblocked (should_propose k)
          (set_propagation_delay_and_quorum_rounds k (pd_delay s) (pd_received_quorum_rounds s) (pd_accepted_quorum_rounds s)) t;
    finish ct r
  end.
End core_thread.
