(* ===== verification/CoreRun.v ===== *)
(** * CoreRun: a node over time

    The core thread as a state machine.  From a fresh start, whatever valid
    blocks other authorities make and however the commands and settings arrive,
    no step panics; this node makes at most one block per round; and the
    sub-dags it hands to the application have consecutive commit indices and
    never repeat a block. *)
From S2P Require Import Prelude Committee Block StakeAggregator ThresholdClock Commit Error BlockVerifier Store MemStore.
From S2P Require Import ScoringMetrics LeaderScoring DagState LeaderSchedule Election Linearizer BaseCommitter UniversalCommitter.
From S2P Require Import CommitRule CommitterSpec DagInv DagOps TestDag BlockManager BlockManagerInv BlockManagerOps BlockManagerTheorems.
From S2P Require Import DagReads QuorumRounds Ancestor Transactions HandleCommit CommitObserver Agreement Core ProposalAncestors.
From S2P Require Import Proposal Scoring History CoreCommit CoreThread.
Local Open Scope N_scope.
Local Open Scope rust_scope.

(** ** More blocks are made *)

Section made.
Context {St : Type} `{StoreLaws St} `{RngLaws} `{CryptoLaws} `{CommitBcsLaws} `{!CommitCodec St} `{!BlockCodec St} `{!Signer}.
Implicit Type k : Core St.

(** The invariants only depend on which blocks have been made. *)
#[export] Instance core_ok_proper : Proper (pointwise_relation _ iff ==> eq ==> eq ==> eq ==> iff) (core_ok (St := St)).
Proof.
  assert (∀ (U U' : VerifiedBlock → Prop) G g k, (∀ b, U b ↔ U' b) → core_ok U G g k → core_ok U' G g k) as Himpl.
  { intros U U' G g k HU Hk. split; try apply Hk.
    - eapply (bm_ok_made _ U); [intros b; apply HU|]. apply Hk.
    - intros b b' Hb Hb'. apply (ck_unique _ _ _ _ Hk); by apply HU.
    - intros b Hb. apply (ck_known _ _ _ _ Hk). by apply HU.
    - intros b r Hb. apply (ck_links _ _ _ _ Hk). by apply HU. }
  intros U U' HU G ? <- g ? <- k ? <-. split; apply Himpl; intros b; [apply HU|symmetry; apply HU].
Qed.

#[export] Instance run_ok_proper byz : Proper (pointwise_relation _ iff ==> eq ==> eq ==> eq ==> eq ==> iff) (run_ok (St := St) byz).
Proof.
  assert (∀ (U U' : VerifiedBlock → Prop) G g log k, (∀ b, U b ↔ U' b) → run_ok byz U G g log k → run_ok byz U' G g log k) as Himpl.
  { intros U U' G g log k HU Hk. split; try apply Hk.
    - rewrite <-(core_ok_proper U U' HU G G eq_refl g g eq_refl k k eq_refl). apply Hk.
    - intros b b' Hb Hb'. apply (ro_honest _ _ _ _ _ _ Hk); by apply HU.
    - destruct (ro_highest _ _ _ _ _ _ Hk) as [?|(b & Hb & ?)]; [by left|right; exists b]. split; [by apply HU|done].
    - apply (history_same byz U U' log k); [intros b; apply HU|done|apply Hk]. }
  intros U U' HU G ? <- g ? <- log ? <- k ? <-. split; apply Himpl; intros b; [apply HU|symmetry; apply HU].
Qed.

(** Another authority makes a block.  Its links to this node are to blocks that
    this node has made, or to references that no block of this node can have:
    nobody foresees the digest of a block before it is made.  An honest authority
    makes one block per round. *)
Record fresh_external (byz : gset AuthorityIndex) (U : VerifiedBlock → Prop) k (b : VerifiedBlock) : Prop := {
  fx_author : author b ≠ own_index (co_context k);
  fx_links a : a ∈ ancestors b → ref_author a = own_index (co_context k) → known (co_dag_state k) a ∨ fabricated a;
  fx_honest b' : author b ∉ byz → U b' → slot b = slot b' → b = b';
}.

Lemma run_ok_external byz U G g log k (b : VerifiedBlock) : run_ok byz U G g log k → fresh_external byz U k b →
  run_ok byz (with_block U b) G g log k.
Proof.
  intros Hk [Ha Hl Hh]. pose proof (ro_core _ _ _ _ _ _ Hk) as Hcore. split; try apply Hk.
  - split; try apply Hcore.
    + eapply (bm_ok_made _ U); [by left|]. apply Hcore.
    + intros x y Hx Hy Hax Hs. assert (author y = own_index (co_context k)) as Hay by (injection Hs as _ <-; done).
      destruct Hx as [Hx| ->]; [|done]. destruct Hy as [Hy| ->]; [|done]. by apply (ck_unique _ _ _ _ Hcore).
    + intros x [Hx| ->] Hown; [by apply (ck_known _ _ _ _ Hcore x)|done].
    + intros x r [Hx| ->] Hr Hown; [by apply (ck_links _ _ _ _ Hcore x)|by apply Hl].
  - intros x y [Hx| ->] [Hy| ->] Hs Hnb; [by apply (ro_honest _ _ _ _ _ _ Hk)| |by apply Hh|done].
    symmetry. apply Hh; [by injection Hs as _ <-|done..].
  - destruct (ro_highest _ _ _ _ _ _ Hk) as [?|(x & Hx & ?)]; [by left|right; exists x]. split; [by left|done].
  - apply (history_same byz U _ log k); [by left|done|apply Hk].
Qed.

(** This node proposes a block. *)
Lemma run_ok_proposed byz U G g log k (b : VerifiedBlock) included asm m' d' consumer evs :
  let k' := set_consumer (set_dag (set_ancestors k included asm) m' d') consumer evs in
  run_ok byz U G g log k → core_ok (with_block U b) G g k' → kept (co_dag_state k) b d' → author b = own_index (co_context k) →
  (∀ x : VerifiedBlock, U x → author x = own_index (co_context k) → round x < round b) →
  run_ok byz (with_block U b) G g log k'.
Proof.
  intros k' Hk Hcore [Hn Hl Hc [Hsc Hun] Hhe Hhi Hgen] Ha Hlater. pose proof (ro_decided _ _ _ _ _ _ Hk).
  assert (last_commit_round d' = last_commit_round (co_dag_state k) ∧ last_commit_index d' = last_commit_index (co_dag_state k)) as [Hlr Hli].
  { unfold last_commit_round, last_commit_index. by rewrite Hc. }
  split; unfold k'; cbn [set_consumer set_dag set_ancestors co_dag_state co_context co_leader_schedule co_commit_sender co_last_decided_leader];
    rewrite ?Hlr, ?Hli, ?Hsc; try apply Hk; try done.
  - apply Hn, Hk.
  - apply Hl, Hk.
  - intros x y [Hx| ->] [Hy| ->] Hs Hnb; [by apply (ro_honest _ _ _ _ _ _ Hk)| | |done].
    + exfalso. injection Hs as Hr Hau. specialize (Hlater x Hx ltac:(congruence)). lia.
    + exfalso. injection Hs as Hr Hau. specialize (Hlater y Hy ltac:(congruence)). lia.
  - lia.
  - destruct Hhi as [->| ->]; [|right; exists b; split; [by right|done]].
    destruct (ro_highest _ _ _ _ _ _ Hk) as [?|(x & Hx & ?)]; [by left|right; exists x]. split; [by left|done].
  - destruct (ro_schedule _ _ _ _ _ _ Hk) as [[? ? ? ?] ?]. split; [|done]. split; rewrite ?Hsc, ?Hun, ?Hli; done.
  - apply (history_same byz U _ log k); [by left| |apply Hk]. unfold remembered. cbn. by rewrite Hc, Hgen, Hsc.
Qed.
End made.

(** The threshold clock is at most one round ahead of the blocks. *)
Lemma clock_within {St : Type} `{StoreLaws St} `{RngLaws} `{CryptoLaws} `{CommitBcsLaws} `{!CommitCodec St} `{!BlockCodec St} `{!Signer} byz U G g log (k : Core St) n M : run_ok byz U G g log k → universe_within U n M →
  threshold_clock_round k <= M + 1.
Proof.
  intros Hk (_ & _ & _ & HM). pose proof (run_dag _ _ _ _ _ _ Hk) as Hok. pose proof (ok_clock _ Hok) as [_ _ _ _ _ _ (X & _ & Hq & Hau)].
  unfold threshold_clock_round. set (cr := clock_round _) in *. destruct (decide (cr <= 1)) as [|Hcr]; [lia|].
  destruct (decide (X = ∅)) as [->|(a & Ha)%set_choose_L].
  { rewrite set_stake_empty in Hq. apply Is_true_true, N.leb_le in Hq. pose proof (quorum_two_thirds _ (ok_committee _ Hok)). lia. }
  destruct (Hau a Ha) as (b & Hb & Hr & _). assert (U b) as Hu%HM; [|lia].
  apply (proj2 (run_own _ _ _ _ _ _ Hk) _ _ Hb). simpl. lia.
Qed.

(** ** A live core *)

Abbreviation broadcasts k := (sg_block_broadcast (co_signals k)) (only parsing).

Section live.
Context {St : Type} `{StoreLaws St} `{RngLaws} `{CryptoLaws} `{CommitBcsLaws} `{!CommitCodec St} `{!BlockCodec St} `{!Signer} (key : bytes) `{!SignerLaws key}.
Context (byz : gset AuthorityIndex) (G : gset BlockRef) (v : SignedBlockVerifier).
Implicit Type k : Core St.


(** The blocks of the other authorities, [E], and those this node has broadcast. *)
Definition made (E : list VerifiedBlock) k (b : VerifiedBlock) : Prop := b ∈ E ∨ b ∈ (eb_block <$> broadcasts k).

(** A core between two commands.  [v] is the verifier of some node of the
    committee; the application's check of the transactions is left out. *)
Record live (E : list VerifiedBlock) (log : list (CommittedSubDag * TrustedCommit)) k : Prop := {
  lv_run : ∃ g, run_ok byz (made E k) G g log k;
  lv_sent : sent (co_commit_sender k) = log.*1;
  lv_external (b : VerifiedBlock) : b ∈ E → author b ≠ own_index (co_context k);
  lv_rounds : StronglySorted (λ x y, round (eb_block x) < round (eb_block y)) (broadcasts k);
  lv_own e : e ∈ broadcasts k → author (eb_block e) = own_index (co_context k) ∧ valid_block (λ _, Ok tt) v (eb_block e);
  lv_receivers : sg_has_receivers (co_signals k) = true ∧ 1 < committee_size (committee (co_context k));
  lv_key : ∃ a, authority (committee (co_context k)) (own_index (co_context k)) = Ret a ∧ protocol_key a = key;
  lv_verifier : committee (verifier_context v) = committee (co_context k) ∧ protocol_config (verifier_context v) = protocol_config (co_context k) ∧
    verifier_genesis v = G;
}.

(** What every operation keeps. *)
Record stepped (log : list (CommittedSubDag * TrustedCommit)) k (log' : list (CommittedSubDag * TrustedCommit)) k' : Prop := {
  st_log : log `prefix_of` log';
  st_broadcast : broadcasts k `prefix_of` broadcasts k';
  st_context : co_context k' = co_context k;
  st_known_round : co_last_known_proposed_round k' = co_last_known_proposed_round k;
  st_genesis : ds_genesis (co_dag_state k') = ds_genesis (co_dag_state k);
}.

Lemma stepped_refl log k : stepped log k log k.
Proof. by split. Qed.

Lemma stepped_trans log1 k1 log2 k2 log3 k3 : stepped log1 k1 log2 k2 → stepped log2 k2 log3 k3 → stepped log1 k1 log3 k3.
Proof. intros [? ? ? ? ?] [? ? ? ? ?]. split; [by etrans|by etrans|congruence..]. Qed.

(** The operations that do not propose. *)
Lemma live_quiet E g log log' k k' : live E log k → run_ok byz (made E k) G g log' k' → co_context k' = co_context k →
  broadcasts k' = broadcasts k → sg_has_receivers (co_signals k') = sg_has_receivers (co_signals k) →
  sent (co_commit_sender k') = log'.*1 → live E log' k'.
Proof.
  intros Hl Hk' Hctx Hb Hrec Hs. split; rewrite ?Hctx, ?Hb, ?Hrec; try apply Hl; [|done].
  exists g. unfold made. by rewrite Hb.
Qed.

(** ** Bounds *)

Context (fuel rounds : nat).

(** The traversal bounds exceed the number and the rounds of the blocks, which
    stay clear of the end of the range of rounds. *)
Definition room (E : list VerifiedBlock) k : Prop :=
  (2 < rounds)%nat ∧ (length E + length (broadcasts k) + 1 < fuel)%nat ∧
  ∀ b : VerifiedBlock, made E k b → round b + 3 < U32_MAX ∧ round b + 2 < N.of_nat rounds.

Lemma room_within E k : room E k → ∃ n M, universe_within (made E k) n M ∧ (S n < fuel)%nat ∧ M + 2 < U32_MAX ∧ M + 1 < N.of_nat rounds.
Proof.
  intros (Hr & Hf & Hb). exists (length E + length (broadcasts k))%nat, (N.min (U32_MAX - 4) (N.of_nat rounds - 3)). split_and!; [|lia|unfold U32_MAX, U32_MOD; lia|lia].
  exists (E ++ (eb_block <$> broadcasts k)). split_and!.
  - intros b Hbm. by apply elem_of_app.
  - rewrite length_app, length_fmap. lia.
  - intros b [? ?]%Hb. lia.
Qed.

Lemma within_proposed U n M (b : VerifiedBlock) : universe_within U n M → round b <= M + 1 → universe_within (with_block U b) (S n) (M + 1).
Proof.
  intros (made & Hm & Hlen & HM) Hb. exists (b :: made). split_and!.
  - intros x [Hx| ->]; [right; by apply Hm|left].
  - simpl. lia.
  - intros x [Hx%HM| ->]; lia.
Qed.

(** ** Proposing *)

Lemma run_ok_signals U g log k signals signaled : run_ok byz U G g log k → run_ok byz U G g log (set_signals k signals signaled).
Proof.
  intros Hk. split; try apply Hk.
  - pose proof (ro_core _ _ _ _ _ _ Hk) as Hcore. apply (core_ok_change U G g g k); try done; apply Hcore.
  - apply (history_same byz U U log k); [done|done|apply Hk].
Qed.

Lemma live_signal_round E log k : live E log k → live E log (try_signal_new_round k) ∧ stepped log k log (try_signal_new_round k).
Proof.
  intros Hl. destruct (lv_run _ _ _ Hl) as [g Hk]. unfold try_signal_new_round. case_match; [by split|]. split; [|by split].
  apply (live_quiet E g log log k); try done; [by apply run_ok_signals|apply Hl].
Qed.

Lemma live_proposed E g log log' k k' e : live E log k → let b := eb_block e in
  run_ok byz (with_block (made E k) b) G g log' k' → broadcasts k' = broadcasts k ++ [e] → sg_has_receivers (co_signals k') = true →
  co_context k' = co_context k → sent (co_commit_sender k') = log'.*1 → author b = own_index (co_context k) → valid_block (λ _, Ok tt) v b →
  (∀ x : VerifiedBlock, made E k x → author x = own_index (co_context k) → round x < round b) → live E log' k'.
Proof.
  intros Hl b Hk' Hb Hrec Hctx Hs Ha Hval Hlater.
  assert (∀ x, with_block (made E k) b x ↔ made E k' x) as Hmade.
  { intros x. unfold made, with_block. rewrite Hb, fmap_app, elem_of_app. cbn. rewrite list_elem_of_singleton. tauto. }
  split; rewrite ?Hctx; try apply Hl; try done.
  - exists g. by rewrite <-(run_ok_proper byz _ _ Hmade G G eq_refl g g eq_refl log' log' eq_refl k' k' eq_refl).
  - rewrite Hb. apply StronglySorted_app. split_and!; [|apply Hl|repeat constructor].
    intros x y Hx ->%list_elem_of_singleton. apply Hlater; [right; by apply list_elem_of_fmap_2|by apply (lv_own _ _ _ Hl)].
  - intros x. rewrite Hb, elem_of_app, list_elem_of_singleton. intros [Hx| ->]; [by apply (lv_own _ _ _ Hl)|done].
  - split; [done|apply Hl].
Qed.

Lemma try_propose_ok E log k t force : live E log k → room E k →
  ∃ k' log' res, try_propose fuel rounds k t force = Ret (k', Ok res) ∧ live E log' k' ∧ stepped log k log' k' ∧
    (res = None → broadcasts k' = broadcasts k ∧ (force = true → should_propose k' = true →
      ∃ mine : VerifiedBlock, get_last_proposed_block (co_dag_state k') = Ret mine ∧ 0 < round mine)).
Proof.
  intros Hl Hroom. destruct (lv_run _ _ _ Hl) as [g Hk]. destruct (room_within _ _ Hroom) as (n & M & Hw & Hf & HM & Hr).
  pose proof (clock_within _ _ _ _ _ _ _ _ Hk Hw) as Hclock. destruct (lv_verifier _ _ _ Hl) as (Hvc & Hvp & Hvg).
  assert (0 < threshold_clock_round k) as Hpos by apply (ok_clock _ (run_dag _ _ _ _ _ _ Hk)).
  unfold try_propose. destruct (should_propose k) eqn:Hsp; cbn [negb]; [|exists k, log, None; split; [done|]; split; [done|]; split; [by split|by rewrite Hsp]].
  destruct (try_new_block_spec key (made E k) G g k t force (λ _, Ok tt) v (ro_core _ _ _ _ _ _ Hk)) as (k1 & o & -> & Ho);
    [lia|done|done|done|apply Hl|done|]. cbn [mbind outcome_bind]. destruct o as [e|].
  2: { destruct Ho as (Hcore & (included & asm & ->) & Hforce). eexists _, log, None. split; [done|].
       split; [|split; [by split|split; [done|]]].
       2: { intros Hf' _. destruct (Hforce Hf') as (mine & Hmine & Hle). exists mine. split; [done|lia]. }
       apply (live_quiet E g log log k); try done; [|apply Hl]. split; try apply Hk; [done|].
       apply (history_same byz (made E k) _ log k); [done|done|apply Hk]. }
  destruct Ho as (Hcore & Hval & Hau & Hrb & Hlater & _ & _ & _ & Hkept & included & asm & m' & d' & consumer & evs & Hshape). subst k1.
  pose proof (run_ok_proposed byz _ G g log k _ _ _ _ _ _ _ Hk Hcore Hkept Hau Hlater) as Hk1.
  set (k1 := set_consumer _ _ _) in *. destruct (lv_receivers _ _ _ Hl) as [Hrec Hsize].
  assert (signal_new_block (committee (co_context k1)) (co_signals k1) e =
    (mk_signals (broadcasts k ++ [e]) true (sg_new_round (co_signals k)), Ok tt)) as ->.
  { unfold signal_new_block. change (co_context k1) with (co_context k). change (co_signals k1) with (co_signals k).
    rewrite (proj2 (N.ltb_lt _ _) Hsize), (proj2 (N.eqb_neq _ _)) by (unfold GENESIS_ROUND; lia). by rewrite Hrec. }
  pose proof (run_ok_signals _ g log k1 (mk_signals (broadcasts k ++ [e]) true (sg_new_round (co_signals k))) (co_last_signaled_round k1) Hk1) as Hk2.
  destruct (try_commit_ok byz _ G (S n) (M + 1) (within_proposed _ _ _ (eb_block e) Hw ltac:(lia)) ltac:(lia) fuel Hf rounds g log _ t Hk2 Hr)
    as (k3 & g3 & new & -> & Hk3 & Hun & Hsent & _). cbn [mbind outcome_bind].
  injection Hun as Hctx3 Hsig3 _ _ _ Hknown3 _ Hgen3. eexists k3, (log ++ new), _. split; [done|]. split; [|split; [|done]].
  - eapply (live_proposed E g3 log _ k k3 e Hl Hk3); try done; try by rewrite Hsig3.
    rewrite Hsent. cbn. by rewrite (lv_sent _ _ _ Hl), fmap_app.
  - split; [by apply prefix_app_r|rewrite Hsig3; by apply prefix_app_r|done|done|].
    rewrite Hgen3. apply (kp_genesis _ _ _ Hkept).
Qed.

(** ** The operations of the core thread *)

Lemma room_same E k k' : broadcasts k' = broadcasts k → room E k → room E k'.
Proof. intros Hb. unfold room, made. by rewrite Hb. Qed.

Lemma commit_ok E log k t : live E log k → room E k →
  ∃ k' log' subdags, try_commit fuel rounds k t [] = Ret (k', Ok subdags) ∧ live E log' k' ∧ stepped log k log' k' ∧ broadcasts k' = broadcasts k.
Proof.
  intros Hl Hroom. destruct (lv_run _ _ _ Hl) as [g Hk]. destruct (room_within _ _ Hroom) as (n & M & Hw & Hf & HM & Hr).
  destruct (try_commit_ok byz _ G n M Hw ltac:(lia) fuel ltac:(lia) rounds g log k t Hk ltac:(lia)) as (k' & g' & new & Heq & Hk' & Hun & Hsent & _).
  injection Hun as Hctx Hsig _ _ _ Hknown _ Hgen. exists k', (log ++ new), new.*1. split; [done|]. split_and!.
  - apply (live_quiet E g' log _ k); try done; [by rewrite Hsig..|]. by rewrite Hsent, (lv_sent _ _ _ Hl), fmap_app.
  - split; [by apply prefix_app_r|by rewrite Hsig|done..].
  - by rewrite Hsig.
Qed.

Lemma commit_and_propose_ok E log k t : live E log k → room E k →
  ∃ k' log', commit_and_propose fuel rounds k t [] = Ret (k', Ok tt) ∧ live E log' k' ∧ stepped log k log' k'.
Proof.
  intros Hl Hroom. unfold commit_and_propose. destruct (commit_ok _ _ _ t Hl Hroom) as (k1 & log1 & sds & -> & Hl1 & Hs1 & Hb1).
  cbn [mbind outcome_bind]. destruct (try_propose_ok _ _ _ t false Hl1 (room_same _ _ _ Hb1 Hroom)) as (k2 & log2 & res & -> & Hl2 & Hs2 & _).
  cbn [mbind outcome_bind]. destruct (live_signal_round _ _ _ Hl2) as [Hl3 Hs3]. eexists _, log2. split; [done|]. split; [done|].
  eapply stepped_trans; [exact Hs1|]. by eapply stepped_trans.
Qed.

(** Blocks that were made by somebody and passed verification. *)
Definition received_ok (E : list VerifiedBlock) k (blocks : list VerifiedBlock) : Prop :=
  Forall (λ b : VerifiedBlock, made E k b ∧ storable St b ∧ ∃ verify_batch, valid_block verify_batch v b) blocks.

Lemma received_input E log k blocks : live E log k → received_ok E k blocks → Forall (input_ok (made E k) (co_dag_state k)) blocks.
Proof.
  intros Hl. destruct (lv_run _ _ _ Hl) as [g Hk]. destruct (lv_verifier _ _ _ Hl) as (Hvc & _ & Hvg).
  intros Hb. eapply Forall_impl; [exact Hb|]. intros b (Hm & (Href & Hvo & Hst) & vb & Hval). rewrite <-(run_context _ _ _ _ _ _ Hk) in Hvc.
  pose proof (valid_block_ok vb v b Hval) as Hbo. rewrite Hvc in Hbo. split; try done; [apply Hval|].
  intros a Ha Hz. apply (ck_genesis _ _ _ _ (ro_core _ _ _ _ _ _ Hk)); [done|]. rewrite <-Hvg. by apply (vb_ancestors _ _ _ Hval).
Qed.

Lemma add_blocks_ok E log k t blocks : live E log k → room E k → received_ok E k blocks →
  ∃ k' log' missing, add_blocks fuel rounds k t blocks = Ret (k', Ok missing) ∧ live E log' k' ∧ stepped log k log' k'.
Proof.
  intros Hl Hroom Hin%(received_input _ _ _ _ Hl). destruct (lv_run _ _ _ Hl) as [g Hk]. pose proof (ro_core _ _ _ _ _ _ Hk) as Hcore.
  unfold add_blocks.
  destruct (try_accept_blocks_ok (t_accept t) (t_instant t) _ _ (ck_unique _ _ _ _ Hcore) g _ _ blocks (ck_manager _ _ _ _ Hcore) (core_stamps _ _ _ _ Hcore _) Hin)
    as (m & d & accepted & missing & -> & [Hm He _ _ _]). cbn [mbind outcome_bind].
  assert (live E log (set_dag k m d)) as Hl1.
  { apply (live_quiet E g log log k); try done; [by eapply run_ok_extends|apply Hl]. }
  pose proof (ex_rest _ _ _ _ _ He) as Hrest. injection Hrest as _ _ _ _ Hgen.
  case_bool_decide; [eexists _, log, missing; split; [done|]; split; [done|by split]|].
  destruct (commit_and_propose_ok E log (set_dag k m d) t Hl1 (room_same _ k (set_dag k m d) eq_refl Hroom)) as (k' & log' & -> & Hl' & [? ? ? ? Hgen']).
  cbn [mbind outcome_bind]. exists k', log', missing. split; [done|]. split; [done|]. split; try done. by rewrite Hgen'.
Qed.

Lemma check_block_refs_ok E log k block_refs : live E log k →
  (∀ r, r ∈ block_refs → is_valid_index (committee (co_context k)) (ref_author r)) →
  ∃ k' missing, check_block_refs k block_refs = Ret (k', Ok missing) ∧ live E log k' ∧ stepped log k log k'.
Proof.
  intros Hl Hv. destruct (lv_run _ _ _ Hl) as [g Hk]. pose proof (ro_core _ _ _ _ _ _ Hk) as Hcore. unfold check_block_refs.
  rewrite <-(run_context _ _ _ _ _ _ Hk) in Hv.
  destruct (try_find_blocks_ok _ _ (ck_unique _ _ _ _ Hcore) g _ _ block_refs (ck_manager _ _ _ _ Hcore) Hv) as (m & missing & -> & Hm & _).
  cbn [mbind outcome_bind]. eexists _, missing. split; [done|]. split; [|by split].
  apply (live_quiet E g log log k); try done; [|apply Hl]. eapply run_ok_extends; [done..|].
  apply extends_refl; [apply Hcore|apply (run_dag _ _ _ _ _ _ Hk)|apply (run_own _ _ _ _ _ _ Hk)].
Qed.

Lemma new_block_ok E log k t r force : live E log k → room E k →
  ∃ k' log' res, new_block fuel rounds k t r force = Ret (k', Ok res) ∧ live E log' k' ∧ stepped log k log' k'.
Proof.
  intros Hl Hroom. destruct (lv_run _ _ _ Hl) as [g Hk]. destruct (ck_last _ _ _ _ (ro_core _ _ _ _ _ _ Hk)) as (mine & Hmine & _).
  unfold new_block. rewrite Hmine. cbn [mbind outcome_bind]. destruct (_ <? _); [|exists k, log, None; split; [done|by split]].
  destruct (try_propose_ok _ _ _ t force Hl Hroom) as (k1 & log1 & res & -> & Hl1 & Hs1 & _). cbn [mbind outcome_bind].
  destruct (live_signal_round _ _ _ Hl1) as [Hl2 Hs2]. eexists _, log1, res. split; [done|]. split; [done|]. by eapply stepped_trans.
Qed.

(** Settings that proposing reads. *)
Lemma live_setting E log k k' : live E log k → co_context k' = co_context k → co_committers k' = co_committers k →
  co_last_included_ancestors k' = co_last_included_ancestors k → co_leader_schedule k' = co_leader_schedule k →
  co_transaction_consumer k' = co_transaction_consumer k → co_block_manager k' = co_block_manager k → co_dag_state k' = co_dag_state k →
  co_commit_sender k' = co_commit_sender k → co_last_decided_leader k' = co_last_decided_leader k → co_signals k' = co_signals k →
  am_ok (co_ancestor_state_manager k') ∧ am_context (co_ancestor_state_manager k') = co_context k → live E log k'.
Proof.
  intros Hl Hctx Hcm Hinc Hs Ht Hm Hd Hse Hde Hsig Ha. destruct (lv_run _ _ _ Hl) as [g Hk]. pose proof (ro_core _ _ _ _ _ _ Hk) as Hcore.
  apply (live_quiet E g log log k); rewrite ?Hsig, ?Hse; try done; [|apply Hl].
  split; rewrite ?Hctx, ?Hs, ?Hd, ?Hse, ?Hde; try apply Hk.
  - apply (core_ok_change _ G g g k); rewrite ?Hs, ?Ht, ?Hm, ?Hd; try done; apply Hcore.
  - apply (history_same byz (made E k) _ log k); [done| |apply Hk]. unfold remembered. by rewrite Hctx, Hcm, Hde, Hs, Hd.
Qed.

Lemma live_scores E log k : live E log k → am_ok (co_ancestor_state_manager k) ∧ am_context (co_ancestor_state_manager k) = co_context k.
Proof. intros Hl. destruct (lv_run _ _ _ Hl) as [g Hk]. apply (ck_scores _ _ _ _ (ro_core _ _ _ _ _ _ Hk)). Qed.

Lemma propose_if_unblocked_ok E log k t before : live E log k → room E k →
  ∃ k' log', propose_if_unblocked fuel rounds before k t = Ret (k', Ok tt) ∧ live E log' k' ∧ stepped log k log' k'.
Proof.
  intros Hl Hroom. unfold propose_if_unblocked. destruct (_ && _); [|exists k, log; split; [done|by split]].
  destruct (new_block_ok E log k t U32_MAX true Hl Hroom) as (k' & log' & res & -> & Hl' & Hs'). cbn [mbind outcome_bind]. by exists k', log'.
Qed.

(** ** The thread *)

(** What may be queued.  Certified commits are not part of these runs. *)
Definition command_ok (E : list VerifiedBlock) k (c : CoreThreadCommand) : Prop :=
  match c with
  | AddBlocks blocks _ => received_ok E k blocks
  | CheckBlockRefs block_refs _ => ∀ r, r ∈ block_refs → is_valid_index (committee (co_context k)) (ref_author r)
  | AddCertifiedCommits _ _ => False
  | NewBlock _ _ _ | GetMissingBlocks _ => True
  end.

Record thread_ok (E : list VerifiedBlock) (log : list (CommittedSubDag * TrustedCommit)) (ct : CoreThread St) : Prop := {
  th_live : live E log (ct_core ct);
  th_commands : Forall (command_ok E (ct_core ct)) (ct_commands ct);
  th_propagation : length (pd_received_quorum_rounds (watch_value (ct_propagation ct))) = N.to_nat (committee_size (committee (co_context (ct_core ct)))) ∧
    length (pd_accepted_quorum_rounds (watch_value (ct_propagation ct))) = N.to_nat (committee_size (committee (co_context (ct_core ct))));
  (* the last known proposed round is set once *)
  th_last_known : watch_changed (ct_last_known_proposed_round ct) = true →
    co_last_known_proposed_round (ct_core ct) = None;
  th_received : length (ct_highest_received_rounds ct) = N.to_nat (committee_size (committee (co_context (ct_core ct))));
  (* the loop only ends when the handle is dropped *)
  th_running : ct_running ct = false → ct_open ct = false;
}.

Lemma made_mono E E' k k' b : (∀ x, x ∈ E → x ∈ E') → broadcasts k `prefix_of` broadcasts k' → made E k b → made E' k' b.
Proof. intros HE [bs Hb] [Hx|Hx]; [left; auto|right]. rewrite Hb, fmap_app. set_solver. Qed.

Lemma command_ok_mono E E' k k' c : (∀ x, x ∈ E → x ∈ E') → broadcasts k `prefix_of` broadcasts k' → co_context k' = co_context k →
  command_ok E k c → command_ok E' k' c.
Proof.
  intros HE Hb Hctx. destruct c; cbn; try done; [|by rewrite Hctx].
  intros Hin. eapply Forall_impl; [exact Hin|]. intros b (Hm & ? & ?). split; [by eapply made_mono|done].
Qed.

(** A new core in the thread. *)
Lemma thread_ok_core E log log' ct ct' k' : thread_ok E log ct → live E log' k' → ct_core ct' = k' →
  (∃ done, ct_commands ct = done ++ ct_commands ct') → watch_value (ct_propagation ct') = watch_value (ct_propagation ct) →
  ct_highest_received_rounds ct' = ct_highest_received_rounds ct →
  (watch_changed (ct_last_known_proposed_round ct') = true → co_last_known_proposed_round k' = None) →
  (ct_running ct' = false → ct_open ct' = false) → broadcasts (ct_core ct) `prefix_of` broadcasts k' → co_context k' = co_context (ct_core ct) → thread_ok E log' ct'.
Proof.
  intros Ht Hl Hk [dn Hc] Hp Hr Hlk Hrun Hb Hctx. split; rewrite ?Hk, ?Hp, ?Hr, ?Hctx; try done; try apply Ht.
  pose proof (th_commands _ _ _ Ht) as Hcs. rewrite Hc in Hcs. apply Forall_app in Hcs as [_ Hcs].
  eapply Forall_impl; [exact Hcs|]. intros c. by apply command_ok_mono.
Qed.

Lemma handle_command_ok E log k t c : live E log k → room E k → command_ok E k c →
  ∃ k' log' reply, handle_command fuel rounds k t c = Ret (k', Ok reply) ∧ live E log' k' ∧ stepped log k log' k'.
Proof.
  intros Hl Hroom Hc. destruct c as [blocks sender|block_refs sender|commits sender|r sender force|sender]; cbn [handle_command].
  - destruct (add_blocks_ok _ _ _ t blocks Hl Hroom Hc) as (k' & log' & missing & -> & Hl' & Hs'). by eexists k', log', _.
  - destruct (check_block_refs_ok _ _ _ block_refs Hl Hc) as (k' & missing & -> & Hl' & Hs'). by eexists k', log, _.
  - done.
  - destruct (new_block_ok _ _ _ t r force Hl Hroom) as (k' & log' & res & -> & Hl' & Hs'). by eexists k', log', _.
  - by eexists k, log, _.
Qed.

(** What never changes. *)
Definition identity k : Context * gmap BlockRef VerifiedBlock := (co_context k, ds_genesis (co_dag_state k)).

(** A branch that has set something and ends with the core [k']. *)
Lemma select_setting E log log' ct ct1 k' : thread_ok E log ct → live E log' k' → log `prefix_of` log' →
  ct_commands ct1 = ct_commands ct → watch_value (ct_propagation ct1) = watch_value (ct_propagation ct) →
  ct_highest_received_rounds ct1 = ct_highest_received_rounds ct → ct_running ct = true → ct_running ct1 = ct_running ct →
  (watch_changed (ct_last_known_proposed_round ct1) = true → co_last_known_proposed_round k' = None) →
  broadcasts (ct_core ct) `prefix_of` broadcasts k' → co_context k' = co_context (ct_core ct) →
  ds_genesis (co_dag_state k') = ds_genesis (co_dag_state (ct_core ct)) →
  ∃ ct' log', finish ct1 (k', Ok tt) = Ret ct' ∧ thread_ok E log' ct' ∧ log `prefix_of` log' ∧
    broadcasts (ct_core ct) `prefix_of` broadcasts (ct_core ct') ∧ identity (ct_core ct') = identity (ct_core ct) ∧
    (ct_running ct' = false → ct_commands ct = []).
Proof.
  intros Ht Hl' Hp Hc Hpr Hh Hrun Hr1 Hlk Hb Hctx Hgen. eexists _, log'. split; [done|].
  split; [|split_and!; try done; cbn; [unfold identity; by rewrite Hctx, Hgen|by rewrite Hr1, Hrun]].
  eapply (thread_ok_core E log log' ct); try done; [exists []; by rewrite <-Hc|]. cbn. by rewrite Hr1, Hrun.
Qed.

Lemma branch_ok E log ct t b : thread_ok E log ct → room E (ct_core ct) → ready ct b = true →
  ∃ ct' log', select fuel rounds ct t b = Ret ct' ∧ thread_ok E log' ct' ∧ log `prefix_of` log' ∧
    broadcasts (ct_core ct) `prefix_of` broadcasts (ct_core ct') ∧ identity (ct_core ct') = identity (ct_core ct) ∧
    (ct_running ct' = false → ct_commands ct = []).
Proof.
  intros Ht Hroom [Hrun Hready]%andb_true_iff. pose proof (th_live _ _ _ Ht) as Hl. destruct b; cbn [select].
  - destruct (ct_commands ct) as [|c rest] eqn:Hc.
    { eexists _, log. split; [done|]. split; [|done].
      unfold ready in Hready. rewrite bool_decide_eq_true_2 in Hready by done. apply negb_true_iff in Hready.
      apply (thread_ok_core E log log ct _ _ Ht Hl); try done; [by exists []|apply Ht]. }
    pose proof (th_commands _ _ _ Ht) as Hcs. rewrite Hc in Hcs. apply Forall_cons in Hcs as [Hcmd _].
    destruct (handle_command_ok _ _ _ t c Hl Hroom Hcmd) as (k' & log' & [sender reply] & -> & Hl' & [? ? Hctx Hlk Hgen]). cbn [mbind outcome_bind].
    eexists _, log'. split; [done|]. split; [|split_and!; try done; cbn; [unfold identity; by rewrite Hctx, Hgen|by rewrite Hrun]].
    eapply (thread_ok_core E log log' ct); try done; [exists [c]; by rewrite Hc| |cbn; by rewrite Hrun].
    intros Hch. rewrite Hlk. by apply (th_last_known _ _ _ Ht).
  - pose proof (th_last_known _ _ _ Ht Hready) as Hnone. unfold set_last_known_proposed_round. rewrite Hnone. cbn [mbind outcome_bind].
    set (k1 := mk_core _ _ _ _ _ _ _ _ _ _ _ _ _ _ _ _).
    assert (live E log k1) as Hl1 by (apply (live_setting E log (ct_core ct)); try done; by apply (live_scores E log (ct_core ct))).
    destruct (new_block_ok E log k1 t (watch_value (ct_last_known_proposed_round ct) +32 1) true Hl1) as (k' & log' & res & -> & Hl' & Hs').
    { by apply (room_same E (ct_core ct)). }
    eapply select_setting; try done; apply Hs'.
  - set (k1 := set_quorum_subscribers_exists _ _).
    assert (live E log k1) as Hl1 by (apply (live_setting E log (ct_core ct)); try done; by apply (live_scores E log (ct_core ct))).
    destruct (propose_if_unblocked_ok E log k1 t (should_propose (ct_core ct)) Hl1) as (k' & log' & -> & Hl' & Hs').
    { by apply (room_same E (ct_core ct)). }
    eapply select_setting; try done; try apply Hs'. intros Hch. rewrite (st_known_round _ _ _ _ Hs'). by apply (th_last_known _ _ _ Ht).
  - set (k1 := set_propagation_delay_and_quorum_rounds _ _ _ _). destruct (live_scores _ _ _ Hl) as [(Ha1 & Ha2 & Ha3 & Ha4) Hactx].
    assert (live E log k1) as Hl1.
    { apply (live_setting E log (ct_core ct)); try done. split; [|done]. destruct (th_propagation _ _ _ Ht).
      split_and!; [done|unfold am_size; cbn; by rewrite Hactx..|done]. }
    destruct (propose_if_unblocked_ok E log k1 t (should_propose (ct_core ct)) Hl1) as (k' & log' & -> & Hl' & Hs').
    { by apply (room_same E (ct_core ct)). }
    eapply select_setting; try done; try apply Hs'. intros Hch. rewrite (st_known_round _ _ _ _ Hs'). by apply (th_last_known _ _ _ Ht).
Qed.
End live.

(** ** Starting *)

Section start.
Context {St : Type} `{StoreLaws St} `{RngLaws} `{CryptoLaws} `{CommitBcsLaws} `{!CommitCodec St} `{!BlockCodec St} `{!Signer} (key : bytes) `{!SignerLaws key}.
Context (byz : gset AuthorityIndex) (v : SignedBlockVerifier).
Context (ctx : Context) (gs : list VerifiedBlock) (instant : N) (metrics : MysticetiScoringMetricsStore) (s : St).
Let d0 : DagState St := fresh_dag ctx gs instant metrics s.
Let G : gset BlockRef := list_to_set (reference <$> gs).

(** A node without blocks or commits, its configuration, and its committee. *)
Record fresh_node (consumer : TransactionConsumer) : Prop := {
  fn_ok : dag_ok d0;
  fn_store : sv_blocks (store_view s) = ∅ ∧ sv_commits (store_view s) = ∅;
  fn_genesis (b : VerifiedBlock) : b ∈ gs → round b = 0 ∧ ancestors b = [];
  fn_depth : 2 <= gc_depth (protocol_config ctx);
  fn_linearize : consensus_linearize_subdag_v2 (protocol_config ctx) = true;
  fn_median : consensus_median_timestamp_with_checkpoint_enforcement (protocol_config ctx) = true;
  fn_distributed : consensus_distributed_vote_scoring_strategy (protocol_config ctx) = true;
  fn_limits : limits_ok (protocol_config ctx);
  fn_consumer : tc_ok (protocol_config ctx) consumer;
  fn_swap : swap_config_ok ctx;
  fn_stakes a : a ∈ authorities_vec (committee ctx) → 0 < stake a;
  fn_own : is_valid_index (committee ctx) (own_index ctx);
  fn_size : 1 < committee_size (committee ctx);
  fn_byz : set_stake (committee ctx) byz < validity_threshold (committee ctx);
  fn_key : ∃ a, authority (committee ctx) (own_index ctx) = Ret a ∧ protocol_key a = key;
  fn_verifier : committee (verifier_context v) = committee ctx ∧ protocol_config (verifier_context v) = protocol_config ctx ∧
    verifier_genesis v = G;
}.

Definition fresh_schedule : LeaderSchedule := LeaderSchedule_new ctx LeaderSwapTable_default.

Lemma fresh_genesis consumer r : fresh_node consumer → ref_round r = 0 → known d0 r ↔ r ∈ G.
Proof.
  intros Hf Hz. unfold known, lookup_block, get_cached. rewrite Hz. cbn [N.eqb GENESIS_ROUND d0 fresh_dag ds_genesis].
  rewrite <-elem_of_dom, insert_blocks_dom, dom_empty_L, (right_id_L ∅ (∪)). done.
Qed.

(** The last proposed block is the genesis block. *)
Lemma fresh_last consumer : fresh_node consumer → ∃ mine : VerifiedBlock, get_last_proposed_block d0 = Ret mine ∧ round mine = 0 ∧ ancestors mine = [].
Proof.
  intros Hf. destruct (last_block_ret d0 (fn_ok _ Hf) (own_index ctx) (fn_own _ Hf)) as (mine & Hm & _ & Hl & _).
  exists mine. split; [done|]. pose proof (fresh_lookup _ _ _ _ _ _ _ (proj1 (fn_store _ Hf)) Hl) as Hz. simpl in Hz. split; [done|].
  unfold lookup_block, get_cached in Hl. simpl in Hl. rewrite Hz in Hl. cbn in Hl.
  apply insert_blocks_lookup_inv in Hl as [[Hin _]|Hx]; [by apply (fn_genesis _ Hf)|done].
Qed.

Lemma fresh_run consumer k0 : fresh_node consumer → core_ok (λ _, False) G (gc_round d0) k0 → co_dag_state k0 = d0 → co_context k0 = ctx →
  co_leader_schedule k0 = fresh_schedule → co_commit_sender k0 = mk_sender [] false → slot_round (co_last_decided_leader k0) = 0 →
  run_ok byz (λ _, False) G (gc_round d0) [] k0.
Proof.
  intros Hf Hcore Hd Hctx Hsched Hsend Hdec. split; rewrite ?Hd, ?Hctx, ?Hsched, ?Hsend; try done; try apply Hf.
  - split; try done; try apply Hf. unfold gc_enabled. apply N.ltb_lt. cbn. pose proof (fn_depth _ Hf). lia.
  - apply log_ok_empty; [done|apply Hf|done].
  - by rewrite Hdec.
  - by left.
  - split; [|done]. split; try done. by left.
  - split; rewrite ?Hd, ?Hctx, ?Hsched; try done.
    + exists []. split; [constructor|]. by rewrite Hdec.
    + eexists. split; [done|]. by left.
Qed.

Lemma fresh_core consumer exists_ sync : fresh_node consumer →
  ∃ k0, Core_start ctx fresh_schedule consumer (BlockManager_new ctx) exists_ (mk_sender [] false) (CoreSignals_new true) d0 sync = Ret k0 ∧
    live key byz G v [] [] k0 ∧ co_dag_state k0 = d0 ∧ sg_block_broadcast (co_signals k0) = [] ∧ co_context k0 = ctx ∧
    co_last_known_proposed_round k0 = (if sync then None else Some 0).
Proof.
  intros Hf. pose proof (fn_ok _ Hf) as Hok. destruct (fresh_last _ Hf) as (mine & Hm & Hmr & Hma). unfold Core_start.
  assert (last_commit_leader d0 = (r ← expect (btree_first (dom (ds_genesis d0))) "Genesis blocks should always be available."; Ret (ref_slot r)))
    as -> by done. destruct (btree_first (dom (ds_genesis d0))) as [r0|] eqn:Hfirst.
  2: { exfalso. apply btree_first_None in Hfirst. destruct (genesis_slot d0 Hok (own_index ctx) (fn_own _ Hf)) as (b & Hb & _).
       assert (ds_genesis d0 = ∅) as Hz by by apply dom_empty_inv_L. rewrite Hz in Hb. by vm_compute in Hb. }
  cbn [expect mbind outcome_bind].
  apply btree_first_Some in Hfirst as [Hr0 _]. apply elem_of_dom in Hr0 as [b0 Hb0]. destruct (ok_genesis _ Hok _ _ Hb0) as [_ Hz0].
  destruct (build _) as [committers|] eqn:Hcm; [|by vm_compute in Hcm]. cbn [mbind outcome_bind]. rewrite Hm. cbn [mbind outcome_bind].
  unfold initial_included. rewrite Hma. cbn [foldM mbind outcome_bind]. eexists. split; [done|]. split; [|by rewrite Hmr].
  assert (core_ok (λ _, False) G (gc_round d0) (mk_core ctx consumer (BlockManager_new ctx) exists_ 0 committers (round mine)
    (replicate (N.to_nat (committee_size (committee ctx))) None) (ref_slot r0) fresh_schedule (mk_sender [] false) (CoreSignals_new true) d0
    (if sync then None else Some 0) (set_propagation_scores (AncestorStateManager_new ctx) ReputationScores_default) [])) as Hcore.
  { split; cbn [co_context co_dag_state co_block_manager co_leader_schedule co_committers co_transaction_consumer co_ancestor_state_manager
      co_last_included_ancestors]; try done; try apply Hf.
    - apply (bm_ok_new (own_index ctx) (λ _, False) d0); [done|by apply own_ok_fresh, Hf].
    - by intros ? ? [].
    - intros r Hr. exact (fresh_genesis consumer r Hf Hr).
    - split; try done; [apply Hok|apply Hf|apply swap_table_ok_default].
    - split; [|done]. unfold am_ok, am_size. cbn. rewrite !length_replicate. split_and!; lia.
    - exists mine. split; [done|]. split; [by rewrite length_replicate|]. intros a r [? _]%lookup_replicate. done. }
  pose proof (fresh_run _ _ Hf Hcore eq_refl eq_refl eq_refl eq_refl Hz0) as Hrun.
  split; cbn [co_context co_signals co_commit_sender sent CoreSignals_new sg_block_broadcast sg_has_receivers]; try done; try apply Hf.
  - exists (gc_round d0). eapply (run_ok_proper byz); [|done..|exact Hrun]. intros b. unfold made. cbn. rewrite !elem_of_nil. tauto.
  - by intros b ?%elem_of_nil.
  - constructor.
  - by intros e ?%elem_of_nil.
  - split; [done|apply Hf].
Qed.

(** Nothing but genesis blocks is known to a core for which no block has been made. *)
Lemma nothing_made log k : live key byz G v [] log k → sg_block_broadcast (co_signals k) = [] →
  ∃ mine : VerifiedBlock, get_last_proposed_block (co_dag_state k) = Ret mine ∧ round mine = 0.
Proof.
  intros Hl Hb. destruct (lv_run _ _ _ _ _ _ _ Hl) as [g Hk]. pose proof (run_dag _ _ _ _ _ _ Hk) as Hok.
  pose proof (run_context _ _ _ _ _ _ Hk) as Hctx. unfold get_last_proposed_block. rewrite Hctx.
  destruct (last_block_ret _ Hok (own_index (co_context k))) as (mine & Hm & _ & Hlk & _).
  { rewrite Hctx. apply (ck_own _ _ _ _ (ro_core _ _ _ _ _ _ Hk)). }
  exists mine. split; [done|]. destruct (decide (round mine = 0)) as [|Hnz]; [done|exfalso].
  destruct (proj2 (run_own _ _ _ _ _ _ Hk) _ _ Hlk) as [Hx|Hx]; [simpl; lia|by apply elem_of_nil in Hx|].
  rewrite Hb in Hx. by apply elem_of_nil in Hx.
Qed.

(** [Core::new] on a fresh node returns a live core. *)
Lemma fresh_new fuel rounds t consumer exists_ sync : fresh_node consumer → (2 < rounds)%nat → (1 < fuel)%nat →
  ∃ k log, Core_new fuel rounds t ctx fresh_schedule consumer (BlockManager_new ctx) exists_ (mk_sender [] false) (CoreSignals_new true) d0 sync = Ret k ∧
    live key byz G v [] log k ∧ identity k = (ctx, ds_genesis d0) ∧ co_last_known_proposed_round k = (if sync then None else Some 0).
Proof.
  intros Hf Hr Hfu. destruct (fresh_core _ exists_ sync Hf) as (k0 & Hk0 & Hl0 & Hd0 & Hb0 & Hctx0 & Hlk0). unfold Core_new.
  rewrite Hk0. cbn [mbind outcome_bind]. unfold recover.
  assert (room fuel rounds [] k0) as Hroom0.
  { split_and!; [done|rewrite Hb0; simpl; lia|]. intros b [Hx|Hx]; [by apply elem_of_nil in Hx|]. rewrite Hb0 in Hx. by apply elem_of_nil in Hx. }
  destruct (last_cached_ret d0 (fn_ok _ Hf) U32_MAX) as (l & Hl & _); [done|done| |].
  { intros a e He. cbn [d0 fresh_dag ds_evicted_rounds] in He. apply lookup_replicate in He as [-> _]. done. }
  rewrite Hd0, Hl. cbn [mbind outcome_bind].
  destruct (commit_ok key byz G v fuel rounds _ _ _ t Hl0 Hroom0) as (k1 & log1 & sds & -> & Hl1 & Hs1 & Hb1). cbn [mbind outcome_bind unwrap].
  destruct (try_propose_ok key byz G v fuel rounds _ _ _ t true Hl1 (room_same _ _ _ _ _ Hb1 Hroom0)) as (k2 & log2 & res & -> & Hl2 & Hs2 & Hnone).
  cbn [mbind outcome_bind unwrap].
  assert (∃ k3, (match res with
    | Some _ => Ret k2
    | None =>
      last ← get_last_proposed_block (co_dag_state k2);
      _ ← (if should_propose k2 then assert (GENESIS_ROUND <? round (last : VerifiedBlock))
             "At minimum a block of round higher than genesis should have been produced during recovery" else Ret tt);
      let '(signals, sent) := signal_new_block (committee (co_context k2)) (co_signals k2) (mk_extended last []) in
      _ ← unwrap sent "unwrap"; Ret (set_signals k2 signals (co_last_signaled_round k2)) end) = Ret k3 ∧
    live key byz G v [] log2 k3 ∧ stepped log2 k2 log2 k3) as (k3 & Heq3 & Hl3 & Hs3).
  { destruct res as [b|]; [by exists k2|]. destruct (Hnone eq_refl) as [Hb2 Hmine].
    destruct (nothing_made log2 k2 Hl2) as (mine & Hm & Hz); [by rewrite Hb2, Hb1|]. rewrite Hm. cbn [mbind outcome_bind].
    destruct (should_propose k2) eqn:Hsp.
    { destruct (Hmine eq_refl eq_refl) as (mine' & Hm' & Hpos). rewrite Hm in Hm'. injection Hm' as <-. lia. }
    cbn [mbind outcome_bind]. unfold signal_new_block. cbn [eb_block]. rewrite Hz. destruct (lv_run _ _ _ _ _ _ _ Hl2) as [g Hk2].
    assert (live key byz G v [] log2 (set_signals k2 (co_signals k2) (co_last_signaled_round k2))) as Hl3.
    { apply (live_quiet key byz G v [] g log2 log2 k2); try done; [by apply run_ok_signals|apply Hl2]. }
    destruct (1 <? _); cbn; (eexists; split; [done|]; split; [exact Hl3|by split]). }
  rewrite Heq3. cbn [mbind outcome_bind]. destruct (live_signal_round key byz G v _ _ _ Hl3) as [Hl4 Hs4].
  eexists _, log2. split; [done|]. split; [exact Hl4|].
  pose proof (stepped_trans _ _ _ _ _ _ (stepped_trans _ _ _ _ _ _ Hs1 Hs2) (stepped_trans _ _ _ _ _ _ Hs3 Hs4)) as [_ _ Hc Hk Hgen].
  unfold identity. rewrite Hc, Hk, Hgen, Hd0, Hctx0. done.
Qed.
End start.
