(* ===== verification/NodeRun.v ===== *)
(** * NodeRun: runs of a node

    The steps of a node, from its start, together with its environment: the other
    authorities make blocks, tasks send commands and settings, and the loop of the
    core thread takes its branches.  What a node has sent to its consumer and to
    its peers stays right in every state of every run, and no step of a run can
    panic.  The run of the witness is computed: [trace] checks the side conditions
    of each step. *)
From S2P Require Import Prelude Committee Block StakeAggregator ThresholdClock Commit Error BlockVerifier Store MemStore.
From S2P Require Import ScoringMetrics LeaderScoring DagState LeaderSchedule Election Linearizer BaseCommitter UniversalCommitter.
From S2P Require Import CommitRule CommitterSpec DagInv DagOps TestDag BlockManager BlockManagerInv BlockManagerOps BlockManagerTheorems.
From S2P Require Import DagReads QuorumRounds Ancestor Transactions HandleCommit CommitObserver Agreement Core ProposalAncestors.
From S2P Require Import Proposal Scoring CoreCommit CoreThread.
From S2P Require Import CoreRun.
Local Open Scope N_scope.
Local Open Scope rust_scope.


(** ** Runs *)

Section runs.
Context {St : Type} `{StoreLaws St} `{RngLaws} `{CryptoLaws} `{CommitBcsLaws} `{!CommitCodec St} `{!BlockCodec St} `{!Signer} (key : bytes) `{!SignerLaws key}.
Context (byz : gset AuthorityIndex) (G : gset BlockRef) (v : SignedBlockVerifier).
Implicit Types (E : list VerifiedBlock) (ct : CoreThread St).

(** A task sends a command. *)
Definition dispatch ct (c : CoreThreadCommand) : outcome (CoreThread St) :=
  match c with
  | AddBlocks blocks sender => dispatch_add_blocks ct blocks sender
  | CheckBlockRefs block_refs sender => Ret (dispatch_check_block_refs ct block_refs sender)
  | AddCertifiedCommits commits sender => dispatch_add_certified_commits ct commits sender
  | NewBlock r sender force => Ret (dispatch_new_block ct r force sender)
  | GetMissingBlocks sender => Ret (dispatch_get_missing_blocks ct sender)
  end.

(** The steps of a node and its environment; [E] are the blocks that the other
    authorities have made.  Certified commits are not sent ([command_ok]), the
    consumer of the commits and the receivers of the broadcasts stay there, and the
    last known own round is set once.  Each branch of the loop may use any bounds
    with room enough. *)
Inductive node_step : list VerifiedBlock * CoreThread St → list VerifiedBlock * CoreThread St → Prop :=
| step_made E ct b : fresh_external byz (made E (ct_core ct)) (ct_core ct) b → node_step (E, ct) (b :: E, ct)
| step_send E ct c ct' : (length (ct_commands ct) < CORE_THREAD_COMMANDS_CHANNEL_SIZE)%nat → command_ok v E (ct_core ct) c →
    dispatch ct c = Ret ct' → node_step (E, ct) (E, ct')
| step_subscribers E ct exists_ : node_step (E, ct) (E, (dispatch_set_quorum_subscribers_exists ct exists_).1)
| step_propagation E ct delay received accepted :
    length received = N.to_nat (committee_size (committee (co_context (ct_core ct)))) →
    length accepted = N.to_nat (committee_size (committee (co_context (ct_core ct)))) →
    node_step (E, ct) (E, (dispatch_set_propagation_delay_and_quorum_rounds ct delay received accepted).1)
| step_last_known E ct r : co_last_known_proposed_round (ct_core ct) = None →
    node_step (E, ct) (E, (dispatch_set_last_known_proposed_round ct r).1)
| step_stop E ct : node_step (E, ct) (E, stop ct)
| step_select fuel rounds E ct t b ct' : ready ct b = true → room fuel rounds E (ct_core ct) → select fuel rounds ct t b = Ret ct' →
    node_step (E, ct) (E, ct').

(** Counting received rounds does not fail. *)
Lemma fetch_max_ok n rs (blocks : list VerifiedBlock) : length rs = n → (∀ b : VerifiedBlock, b ∈ blocks → (N.to_nat (author b) < n)%nat) →
  ∃ rs', foldM fetch_max rs blocks = Ret rs' ∧ length rs' = n.
Proof.
  intros Hlen Hb. apply (foldM_inv (λ rs, length rs = n)); [|done]. intros rs1 b Hin Hl. unfold fetch_max.
  destruct (lookup_lt_is_Some_2 rs1 (N.to_nat (author b))) as [x Hx]; [rewrite Hl; by apply Hb|].
  rewrite (proj2 (vec_index_ret _ _ _) Hx). cbn [mbind outcome_bind]. eexists. split; [apply vec_set_ret; split; [by eapply lookup_lt_Some|done]|].
  by rewrite length_insert.
Qed.

(** Sending a valid command queues it, without a panic. *)
Lemma send_command_ok E log ct c rs : thread_ok key byz G v E log ct → command_ok v E (ct_core ct) c →
  length rs = length (ct_highest_received_rounds ct) → thread_ok key byz G v E log (send_command (ct_set_received ct rs) c).
Proof.
  intros [Hl Hcs Hp Hlk Hrec Hrun] Hc Hlen. unfold send_command. cbn [ct_set_received ct_open ct_running].
  destruct (ct_open ct && ct_running ct); split; cbn; try done; [|congruence..]. apply Forall_app. by split; [|constructor].
Qed.

Lemma dispatch_ok E log ct c : thread_ok key byz G v E log ct → command_ok v E (ct_core ct) c →
  ∃ ct', dispatch ct c = Ret ct' ∧ thread_ok key byz G v E log ct'.
Proof.
  intros Ht Hc.
  assert (∀ c', command_ok v E (ct_core ct) c' → thread_ok key byz G v E log (send_command ct c')) as Hsend.
  { intros c' Hc'. pose proof (send_command_ok E log ct c' (ct_highest_received_rounds ct) Ht Hc' eq_refl) as Hs. by destruct ct. }
  destruct c as [blocks sender|block_refs sender|commits sender|r sender force|sender]; cbn [dispatch];
    try (eexists; split; [done|]; by apply Hsend).
  unfold dispatch_add_blocks. destruct (fetch_max_ok (length (ct_highest_received_rounds ct)) (ct_highest_received_rounds ct) blocks) as (rs & -> & Hlen).
  { done. }
  { intros b Hb. cbn in Hc. unfold received_ok in Hc. rewrite Forall_forall in Hc. destruct (Hc b Hb) as (_ & _ & vb & Hval).
    destruct (lv_verifier _ _ _ _ _ _ _ (th_live _ _ _ _ _ _ _ Ht)) as (Hvc & _). pose proof (vb_author _ _ _ Hval) as Ha.
    rewrite Hvc in Ha. apply Is_true_true, N.ltb_lt in Ha. rewrite (th_received _ _ _ _ _ _ _ Ht). lia. }
  cbn [mbind outcome_bind]. eexists. split; [done|]. by apply send_command_ok.
Qed.

Lemma live_external E log (k : Core St) b : live key byz G v E log k → fresh_external byz (made E k) k b → live key byz G v (b :: E) log k.
Proof.
  intros Hl Hb. destruct (lv_run _ _ _ _ _ _ _ Hl) as [g Hk]. split; try apply Hl.
  - exists g. eapply (run_ok_proper byz); [|done..|exact (run_ok_external _ _ _ _ _ _ _ Hk Hb)].
    intros x. unfold made, with_block. rewrite elem_of_cons. tauto.
  - intros x [->|Hx]%elem_of_cons; [apply Hb|by apply (lv_external _ _ _ _ _ _ _ Hl)].
Qed.

Lemma dispatch_core ct c ct' : dispatch ct c = Ret ct' → ct_core ct' = ct_core ct.
Proof.
  assert (∀ ct0 c0, ct_core (send_command ct0 c0) = ct_core ct0) as Hsend.
  { intros ct0 c0. unfold send_command. by destruct (ct_open ct0 && ct_running ct0). }
  destruct c; cbn [dispatch]; unfold dispatch_add_blocks, dispatch_add_certified_commits; intros Hd; inv_ret; apply (eq_trans (Hsend _ _)); done.
Qed.

Lemma node_step_ok E log ct E' ct' : thread_ok key byz G v E log ct → node_step (E, ct) (E', ct') →
  ∃ log', thread_ok key byz G v E' log' ct' ∧ log `prefix_of` log' ∧ identity (ct_core ct') = identity (ct_core ct).
Proof.
  intros Ht Hstep. pose proof Ht as [Hl Hcs Hp Hlk Hrec Hrun]. inversion Hstep as
    [? ? b Hb|? ? c ? _ Hc Hd|? ? exists_|? ? delay received accepted Hr Ha|? ? r Hnone|? ?|fuel rounds ? ? t b ? Hready Hroom Hsel]; subst.
  - exists log. split; [|done]. split; try done; [by apply live_external|]. eapply Forall_impl; [exact Hcs|]. intros c.
    eapply (command_ok_mono key v); [set_solver|done|done].
  - destruct (dispatch_ok _ _ _ _ Ht Hc) as (ct1 & Hd1 & Ht1). rewrite Hd in Hd1. injection Hd1 as <-. exists log.
    split; [done|]. split; [done|]. by rewrite (dispatch_core _ _ _ Hd).
  - exists log. unfold dispatch_set_quorum_subscribers_exists. destruct (ct_running ct) eqn:Hr; cbn; [|done].
    split; [|done]. by split; cbn; rewrite ?Hr.
  - exists log. unfold dispatch_set_propagation_delay_and_quorum_rounds. destruct (ct_running ct) eqn:Hr'; cbn; [|done].
    split; [|done]. by split; cbn; rewrite ?Hr'.
  - exists log. unfold dispatch_set_last_known_proposed_round. destruct (ct_running ct) eqn:Hr'; cbn; [|done].
    split; [|done]. by split; cbn; rewrite ?Hr'.
  - exists log. split; [|done]. by split.
  - destruct (branch_ok key byz G v fuel rounds E' log ct t b Ht Hroom Hready) as (ct1 & log' & Heq & Ht' & Hpre & _ & Hid & _).
    rewrite Hsel in Heq. injection Heq as <-. by exists log'.
Qed.

Lemma node_run_ok E log ct E' ct' : thread_ok key byz G v E log ct → rtc node_step (E, ct) (E', ct') →
  ∃ log', thread_ok key byz G v E' log' ct' ∧ log `prefix_of` log' ∧ identity (ct_core ct') = identity (ct_core ct).
Proof.
  intros Ht Hr. remember (E, ct) as x eqn:Hx. remember (E', ct') as y eqn:Hy. revert E ct log Hx Ht.
  induction Hr as [x|x [E1 ct1] y Hstep _ IH]; intros E ct log -> Ht.
  - injection Hy as <- <-. by exists log.
  - destruct (node_step_ok _ _ _ _ _ Ht Hstep) as (log1 & Ht1 & Hp1 & Hi1). destruct (IH Hy _ _ _ eq_refl Ht1) as (log' & Ht' & Hp' & Hi').
    exists log'. split; [done|]. split; [by transitivity log1|congruence].
Qed.

(** The thread starts with the rounds of the accepted blocks as received. *)
Lemma start_ok E log (k : Core St) : live key byz G v E log k →
  ∃ ct, CoreThread_start (co_context k) (co_dag_state k) k = Ret ct ∧ thread_ok key byz G v E log ct ∧ ct_core ct = k.
Proof.
  intros Hl. destruct (lv_run _ _ _ _ _ _ _ Hl) as [g Hk]. pose proof (core_dag _ _ _ _ (ro_core _ _ _ _ _ _ Hk)) as Hok.
  unfold CoreThread_start. destruct (mapM_total (λ '((i, _) : AuthorityIndex * Authority),
    b ← get_last_block_for_authority (co_dag_state k) i; Ret (round (b : VerifiedBlock))) (authorities (committee (co_context k)))) as [rs Hrs].
  { intros [i a] (j & Hj)%list_elem_of_lookup. unfold authorities in Hj. rewrite list_lookup_imap in Hj.
    apply fmap_Some in Hj as (a' & Ha & [= -> ->]). apply lookup_lt_Some in Ha.
    destruct (last_block_ret _ Hok (N.of_nat j)) as (b & -> & _); [|by eexists].
    rewrite (run_context _ _ _ _ _ _ Hk). apply Is_true_true, N.ltb_lt. unfold committee_size. lia. }
  rewrite Hrs. cbn [mbind outcome_bind]. eexists. split; [done|]. split; [|done].
  apply mapM_ret_Forall2, Forall2_length in Hrs. unfold authorities in Hrs. rewrite length_imap in Hrs.
  split; cbn; rewrite ?length_replicate; try done. unfold committee_size. lia.
Qed.
End runs.

Section node.
Context {St : Type} `{StoreLaws St} `{RngLaws} `{CryptoLaws} `{CommitBcsLaws} `{!CommitCodec St} `{!BlockCodec St} `{!Signer} (key : bytes) `{!SignerLaws key}.
Context (byz : gset AuthorityIndex) (v : SignedBlockVerifier).

(** What a node has sent to its consumer and to its peers. *)
Record node_safe (k : Core St) : Prop := {
  ns_once : NoDup (delivered_refs (sent (co_commit_sender k)));
  ns_stored i sd : sent (co_commit_sender k) !! i = Some sd → ∃ c : TrustedCommit, commit_index c = N.of_nat i + 1 ∧ sub_dag_of sd c ∧
    sv_commits (store_view (ds_store (co_dag_state k))) !! commit_key c = Some c ∧
    ∀ b : VerifiedBlock, b ∈ sub_dag_blocks sd → stored (co_dag_state k) (reference b) = Some b;
  ns_rounds : StronglySorted (λ x y, round (eb_block x) < round (eb_block y)) (broadcasts k);
  ns_valid e : e ∈ broadcasts k → author (eb_block e) = own_index (co_context k) ∧ valid_block (λ _, Ok tt) v (eb_block e);
}.

Lemma live_safe G E log (k : Core St) : live key byz G v E log k → node_safe k.
Proof.
  intros Hl. destruct (lv_run _ _ _ _ _ _ _ Hl) as [g Hk]. pose proof (ro_log _ _ _ _ _ _ Hk) as Hlog. split; rewrite ?(lv_sent _ _ _ _ _ _ _ Hl).
  - apply (ro_once _ _ _ _ _ _ Hk).
  - intros i sd Hi. rewrite list_lookup_fmap in Hi. apply fmap_Some in Hi as ([sd' c] & Hi & ->).
    destruct (lg_index _ _ _ Hlog _ _ _ Hi) as [Hidx Hof]. pose proof (lookup_lt_Some _ _ _ Hi) as Hlt. exists c. split_and!; try done.
    + apply (lg_stored _ _ _ Hlog). eauto.
    + intros b Hb. by apply (lg_known _ _ _ Hlog _ _ _ _ Hi Hb).
  - apply Hl.
  - apply Hl.
Qed.

(** C2: runs of a node, without commit sync.  Let the committee have Byzantine stake
    below the validity threshold and the protocol version be one that takes commit
    timestamps from the median of the linked blocks ([fresh_node] has the other
    settings), and let a node start without blocks or commits.  [Core::new] and the
    start of the core thread return.  Take any state reached by any interleaving of
    blocks that other authorities make (honest ones at most one per round), of
    commands to add verified blocks, to check references, to propose, and to report
    what is missing, of settings (the last known own round at most once), of a stop,
    and of branches of the loop, while the consumer of the commits and the receivers
    of the broadcasts stay there.  The consumer was sent the sub-dags of commits 1,
    2, 3, and so on, each stored with its blocks, and no block twice.  The node has
    broadcast valid blocks of its own, at most one per round.  None of these commands
    panics when sent, and no ready branch of the loop panics, given bounds with room
    for the blocks made so far; and in these runs the loop ends only when the handle
    is dropped and the queue is empty.  Certified commits are not among the commands,
    and a consumer or receivers that close, which also end the loop, are not part of
    these runs. *)
Theorem node_run_correct ctx gs instant metrics (s : St) fuel0 rounds0 t0 consumer exists_ sync :
  fresh_node key byz v ctx gs instant metrics s consumer → (2 < rounds0)%nat → (1 < fuel0)%nat →
  ∃ k0 ct0, Core_new fuel0 rounds0 t0 ctx (fresh_schedule ctx) consumer (BlockManager_new ctx) exists_ (mk_sender [] false) (CoreSignals_new true)
      (fresh_dag ctx gs instant metrics s) sync = Ret k0 ∧
    CoreThread_start ctx (co_dag_state k0) k0 = Ret ct0 ∧
    ∀ E ct, rtc (node_step byz v) ([], ct0) (E, ct) →
      node_safe (ct_core ct) ∧
      (∀ c, command_ok v E (ct_core ct) c → is_ret (dispatch ct c)) ∧
      (∀ fuel rounds t b, ready ct b = true → room fuel rounds E (ct_core ct) →
        ∃ ct', select fuel rounds ct t b = Ret ct' ∧ sent (co_commit_sender (ct_core ct)) `prefix_of` sent (co_commit_sender (ct_core ct')) ∧
          broadcasts (ct_core ct) `prefix_of` broadcasts (ct_core ct') ∧ (ct_running ct' = false → ct_commands ct = [] ∧ ct_open ct' = false)).
Proof.
  intros Hf Hr Hfu. destruct (fresh_new key byz v ctx gs instant metrics s fuel0 rounds0 t0 consumer exists_ sync Hf Hr Hfu) as (k0 & log0 & Hk0 & Hl0 & [= Hctx _] & _).
  destruct (start_ok key byz _ v _ _ _ Hl0) as (ct0 & Hs & Ht0 & _). rewrite Hctx in Hs. exists k0, ct0. split; [done|]. split; [done|].
  intros E ct Hrun. destruct (node_run_ok _ _ _ _ _ _ _ _ _ Ht0 Hrun) as (log & Ht & _ & _). split_and!.
  - by eapply live_safe, Ht.
  - intros c Hc. destruct (dispatch_ok _ _ _ _ _ _ _ _ Ht Hc) as (ct' & -> & _). by eexists.
  - intros fuel rounds t b Hready Hroom. destruct (branch_ok _ _ _ _ _ _ _ _ _ t b Ht Hroom Hready) as (ct' & log' & Hsel & Ht' & Hpre & Hb & _ & Hend).
    exists ct'. split_and!; try done.
    + rewrite (lv_sent _ _ _ _ _ _ _ (th_live _ _ _ _ _ _ _ Ht)), (lv_sent _ _ _ _ _ _ _ (th_live _ _ _ _ _ _ _ Ht')).
      destruct Hpre as [l ->]. rewrite fmap_app. by eexists.
    + intros Hn. split; [by apply Hend|by apply (th_running _ _ _ _ _ _ _ Ht')].
Qed.
End node.

(** ** Checked runs *)

Inductive action :=
| AcMade (b : VerifiedBlock)
| AcSend (c : CoreThreadCommand)
| AcSelect (t : Times) (b : branch).

Section trace.
Context {St : Type} `{StoreLaws St} `{RngLaws} `{CryptoLaws} `{CommitBcsLaws} `{!CommitCodec St} `{!BlockCodec St} `{!Signer}.
Context (byz : gset AuthorityIndex) (v : SignedBlockVerifier) (fuel rounds : nat).
Implicit Types (E : list VerifiedBlock) (ct : CoreThread St) (k : Core St).

Definition made_list E k : list VerifiedBlock := E ++ (eb_block <$> broadcasts k).

Definition fresh_external_b E k (b : VerifiedBlock) : bool :=
  negb (author b =? own_index (co_context k)) &&
  forallb (λ a, negb (ref_author a =? own_index (co_context k)) || match lookup_block (co_dag_state k) a with Some _ => true | None => false end) (ancestors b) &&
  forallb (λ b' : VerifiedBlock, bool_decide (author b ∈ byz) || negb (bool_decide (slot b = slot b')) || bool_decide (b = b')) (made_list E k).

Definition command_b E k (c : CoreThreadCommand) : bool :=
  match c with
  | AddBlocks blocks _ => forallb (λ b : VerifiedBlock, bool_decide (b ∈ made_list E k) && ref_ok_b (reference b) && votes_ok_b b &&
      match verify (λ _, Ok tt) v b with Ret (Ok _) => true | _ => false end) blocks
  | CheckBlockRefs block_refs _ => forallb (λ r, is_valid_index (committee (co_context k)) (ref_author r)) block_refs
  | AddCertifiedCommits _ _ => false
  | NewBlock _ _ _ | GetMissingBlocks _ => true
  end.

Definition room_b E k : bool :=
  Nat.ltb 2 rounds && Nat.ltb (length E + length (broadcasts k) + 1) fuel &&
  forallb (λ b : VerifiedBlock, (round b + 3 <? U32_MAX) && (round b + 2 <? N.of_nat rounds)) (made_list E k).

Definition act (x : list VerifiedBlock * CoreThread St) (a : action) : option (list VerifiedBlock * CoreThread St) :=
  let '(E, ct) := x in
  match a with
  | AcMade b => if fresh_external_b E (ct_core ct) b then Some (b :: E, ct) else None
  | AcSend c =>
    if Nat.ltb (length (ct_commands ct)) CORE_THREAD_COMMANDS_CHANNEL_SIZE && command_b E (ct_core ct) c
    then match dispatch ct c with Ret ct' => Some (E, ct') | Panic _ => None end else None
  | AcSelect t b =>
    if ready ct b && room_b E (ct_core ct)
    then match select fuel rounds ct t b with Ret ct' => Some (E, ct') | Panic _ => None end else None
  end.

Lemma elem_of_made E k b : b ∈ made_list E k ↔ made E k b.
Proof. apply elem_of_app. Qed.

Lemma act_sound (Hst : ∀ b, store_accepts_block St b) x a y : committee_ok (committee (verifier_context v)) → act x a = Some y → node_step byz v x y.
Proof.
  intros Hc. destruct x as [E ct]. destruct a as [b|c|t b]; cbn [act].
  - unfold fresh_external_b. destruct (_ && _) eqn:Hb; [|done]. intros [= <-]. rewrite !andb_true_iff, !forallb_forall, negb_true_iff, N.eqb_neq in Hb.
    destruct Hb as [[Ha Hl] Hh]. apply step_made. split; [done| |].
    + intros a Hin%list_elem_of_In%Hl Hown. left. rewrite Hown, N.eqb_refl in Hin. cbn in Hin. unfold known.
      destruct (lookup_block _ a); [by eexists|done].
    + intros b' Hn Hm%elem_of_made%list_elem_of_In%Hh Hs. rewrite !orb_true_iff, negb_true_iff, !bool_decide_eq_true, bool_decide_eq_false in Hm. tauto.
  - destruct (_ && _) eqn:Hb; [|done]. rewrite andb_true_iff, Nat.ltb_lt in Hb. destruct Hb as [Hlen Hcmd].
    destruct (dispatch ct c) as [ct'|] eqn:Hd; [|done]. intros [= <-]. eapply step_send; [done| |done].
    destruct c as [blocks ?|refs ?|? ?|? ? ?|?]; cbn in Hcmd |- *; try done; rewrite forallb_forall in Hcmd.
    + apply Forall_forall. intros b Hb%list_elem_of_In%Hcmd. rewrite !andb_true_iff, bool_decide_eq_true in Hb. destruct Hb as [[[Hm Hr] Hvo] Hv].
      split; [by apply elem_of_made|]. split; [split_and!; [by apply ref_ok_b_spec|by apply votes_ok_b_spec|done]|]. exists (λ _, Ok tt). destruct (verify_spec (λ _, Ok tt) v b Hc) as (r & Hr' & Hiff).
      rewrite Hr' in Hv. apply Hiff. by destruct r as [[]|].
    + intros r Hr%list_elem_of_In%Hcmd. by rewrite Hr.
  - destruct (_ && _) eqn:Hb; [|done]. rewrite andb_true_iff in Hb. destruct Hb as [Hr Hroom].
    destruct (select fuel rounds ct t b) as [ct'|] eqn:Hs; [|done]. intros [= <-]. apply (step_select _ _ fuel rounds _ _ t b); try done.
    unfold room_b in Hroom. rewrite !andb_true_iff, !Nat.ltb_lt, forallb_forall in Hroom. destruct Hroom as [[? ?] Hall].
    split_and!; [done..|]. intros b' Hm%elem_of_made%list_elem_of_In%Hall. rewrite andb_true_iff, !N.ltb_lt in Hm. done.
Qed.

(** A run whose actions may depend on the state. *)
Fixpoint trace (x : list VerifiedBlock * CoreThread St) (fs : list (list VerifiedBlock * CoreThread St → action)) : option (list VerifiedBlock * CoreThread St) :=
  match fs with [] => Some x | f :: fs => y ← act x (f x); trace y fs end.

Lemma trace_sound (Hst : ∀ b, store_accepts_block St b) fs : committee_ok (committee (verifier_context v)) → ∀ x y, trace x fs = Some y → rtc (node_step byz v) x y.
Proof.
  intros Hc. induction fs as [|f fs IH]; intros x y; cbn [trace]; [by intros [= ->]|].
  intros (z & Hz & Hy)%bind_Some. eapply rtc_l; [by eapply act_sound|auto].
Qed.
End trace.

(** ** A concrete run *)

(** A block of authority [a], which links all blocks of the round before. *)
Definition test_external (r : Round) (a : AuthorityIndex) (x : list VerifiedBlock * CoreThread MemStore) : VerifiedBlock :=
  let parents := reference <$> filter (λ b : VerifiedBlock, round b = r - 1) (test_genesis_blocks ++ made_list x.1 (ct_core x.2)) in
  let ancs := filter (λ p, ref_author p = a) parents ++ filter (λ p, ref_author p ≠ a) parents in
  let b := V1 (mk_block_v1 0 r a (100 + 10 * r) ancs [] [] []) in
  match SignedBlock_new (H := test_crypto) (H0 := test_signer) b with
  | Ok s => new_verified (H := test_crypto) s (test_bytes s)
  | Err _ => test_block r a 0 0 []
  end.

Definition test_times (r : Round) : Times := mk_times (100 + 100 * r) (100 + 100 * r) (100 + 100 * r) 0.

(** The other authorities make their blocks of round [r], and the node adds them. *)
Definition test_actions (r : Round) : list (list VerifiedBlock * CoreThread MemStore → action) :=
  ((λ a x, AcMade (test_external r a x)) <$> [1; 2; 3]) ++
  [λ x, AcSend (AddBlocks (take 3 x.1) r); λ _, AcSelect (test_times r) BrCommand].

Definition test_node_verifier : SignedBlockVerifier := mk_verifier (test_context 60) test_genesis_refs.

Definition test_node_run (ct : CoreThread MemStore) : option (list VerifiedBlock * CoreThread MemStore) :=
  trace (H1 := test_rng) (H3 := test_crypto) (H5 := test_bcs) (H7 := test_signer) {[3]} test_node_verifier 50 50 ([], ct)
    ([1; 2; 3; 4; 5] ≫= test_actions).

Lemma test_fresh_node : fresh_node test_key {[3]} test_node_verifier (test_context 60) test_genesis_blocks 0 test_metrics MemStore_new
  test_core_consumer.
Proof.
  assert (forallb (λ b : VerifiedBlock, (round b =? 0) && bool_decide (ancestors b = [])) test_genesis_blocks = true) as Hg by (vm_compute; reflexivity).
  rewrite forallb_forall in Hg. split; try done.
  - apply test_fresh_ok.
  - intros b Hb%list_elem_of_In%Hg. rewrite andb_true_iff, N.eqb_eq, bool_decide_eq_true in Hb. done.
  - split_and!; [done..|]. repeat constructor; vm_compute; congruence.
  - split; [vm_compute; congruence|vm_compute; reflexivity|]. intros a Ha%Is_true_true%N.ltb_lt.
    change (a < 4) in Ha. assert (a = 0 ∨ a = 1 ∨ a = 2 ∨ a = 3) as [->|[->|[->| ->]]] by lia; vm_compute; congruence.
  - apply test_schedule_ok.
  - eexists. split; vm_compute; reflexivity.
Qed.

Lemma node_run_correct_witness : ∃ (E : list VerifiedBlock) (ct : CoreThread MemStore),
  node_safe (H3 := test_crypto) test_node_verifier (ct_core ct) ∧
  length (sent (co_commit_sender (ct_core ct))) = 3%nat ∧ length (broadcasts (ct_core ct)) = 6%nat ∧ length E = 15%nat.
Proof.
  destruct (node_run_correct (H1 := test_rng) (H3 := test_crypto) (H5 := test_bcs) (H7 := test_signer) test_key {[3]} test_node_verifier (test_context 60)
    test_genesis_blocks 0 test_metrics MemStore_new 10 10 (test_times 0) test_core_consumer true false) as (k0 & ct0 & Hk0 & Hct0 & Hrun).
  - apply test_fresh_node.
  - lia.
  - lia.
  - assert ((λ x : list VerifiedBlock * CoreThread MemStore, (length (sent (co_commit_sender (ct_core x.2))), length (broadcasts (ct_core x.2)), length x.1)) <$>
      match (k ← Core_new (H0 := test_rng) (H1 := test_crypto) (H2 := test_bcs) (H3 := test_signer) 10 10 (test_times 0) (test_context 60)
               (fresh_schedule (test_context 60)) test_core_consumer (BlockManager_new (test_context 60)) true (mk_sender [] false) (CoreSignals_new true)
               (fresh_dag (test_context 60) test_genesis_blocks 0 test_metrics MemStore_new) false;
             CoreThread_start (test_context 60) (co_dag_state k) k) with Ret ct => test_node_run ct | Panic _ => None end = Some (3%nat, 6%nat, 15%nat)) as Hc
      by (vm_compute; reflexivity).
    rewrite Hk0 in Hc. cbn [mbind outcome_bind] in Hc. rewrite Hct0 in Hc. apply fmap_Some in Hc as ([E ct] & Ht & Heq). injection Heq as Hs Hb Hl.
    apply (trace_sound _ _ _ _ mem_accepts) in Ht; [|apply test_committee_ok]. exists E, ct. split; [apply (Hrun E ct Ht)|]. split; [done|]. split; done.
Defined.
