(* ===== verification/RunAgreement.v ===== *)
(** * RunAgreement: nodes that run deliver the same sequence

    The safety of the whole core: two nodes that start from nothing and run, each
    with its own interleaving of blocks, commands and settings, send the same
    sub-dags to their consumers in the same order.  One node may be ahead of the
    other. *)
From S2P Require Import Prelude Committee Block StakeAggregator ThresholdClock Commit Error BlockVerifier Store MemStore.
From S2P Require Import ScoringMetrics LeaderScoring DagState LeaderSchedule Election Linearizer BaseCommitter UniversalCommitter.
From S2P Require Import CommitRule CommitterSpec DagInv DagOps TestDag BlockManager BlockManagerInv BlockManagerOps BlockManagerTheorems.
From S2P Require Import DagReads QuorumRounds Ancestor Transactions HandleCommit CommitObserver Agreement Core ProposalAncestors.
From S2P Require Import Proposal Scoring History CoreCommit CoreThread CoreRun NodeRun.
Local Open Scope N_scope.
Local Open Scope rust_scope.

(** The blocks [made] by anyone: digests do not collide, and an honest authority
    makes one block per round. *)
Record one_world (byz : gset AuthorityIndex) (made : VerifiedBlock → Prop) : Prop := {
  ow_digest (b b' : VerifiedBlock) : made b → made b' → reference b = reference b' → b = b';
  ow_honest (b b' : VerifiedBlock) : made b → made b' → author b ∉ byz → slot b = slot b' → b = b';
}.

(** The valid blocks of a list, by reference. *)
Definition block_map (c : Committee) (bs : list VerifiedBlock) : gmap BlockRef VerifiedBlock :=
  list_to_map ((λ b, (reference b, b)) <$> filter (λ b : VerifiedBlock, (0 <? round b) && block_ok_b c b) bs).

Lemma block_ok_b_complete c b : block_ok c b → block_ok_b c b = true.
Proof.
  intros [Ha Hi Hr Hn Hq]. unfold block_ok_b. rewrite !andb_true_iff, forallb_forall, bool_decide_eq_true.
  split_and!; [by apply Is_true_true| |done|by apply Is_true_true]. intros a Hin%list_elem_of_In. rewrite andb_true_iff, N.ltb_lt.
  split; [by apply Is_true_true, Hi|by apply Hr].
Qed.

Lemma block_map_Some c bs r (b : VerifiedBlock) : block_map c bs !! r = Some b → reference b = r ∧ b ∈ bs ∧ 0 < round b ∧ block_ok c b.
Proof.
  intros Hb%elem_of_list_to_map_2. apply list_elem_of_fmap in Hb as (x & Heq & Hx). injection Heq as -> ->.
  apply list_elem_of_filter in Hx as [Hv Hin]. apply Is_true_true in Hv. rewrite andb_true_iff, N.ltb_lt in Hv. destruct Hv as [Hr Hv].
  split_and!; [done..|by apply block_ok_b_spec].
Qed.

Lemma block_map_universe c byz bs : one_world byz (.∈ bs) → committee_ok c → set_stake c byz < validity_threshold c → universe_ok c byz (block_map c bs).
Proof.
  intros [_ Hh] Hc Hbyz. split; [done|done|..].
  - by intros r b (? & _)%block_map_Some.
  - by intros r b (_ & _ & _ & ?)%block_map_Some.
  - intros r b (_ & _ & ? & _)%block_map_Some. lia.
  - intros r r' b b' (_ & Hb & _)%block_map_Some (_ & Hb' & _)%block_map_Some _ Hr Ha Hn. apply Hh; try done. unfold slot. congruence.
Qed.

Lemma block_map_covers c byz bs (U : VerifiedBlock → Prop) : one_world byz (.∈ bs) → (∀ b, U b → b ∈ bs) → covers c (block_map c bs) U.
Proof.
  intros [Hd _] HU b (Hb & Hpos & Hok). destruct (block_map c bs !! reference b) as [b'|] eqn:Hl.
  - apply block_map_Some in Hl as (Href & Hb' & _). f_equal. apply Hd; [done|by apply HU|done].
  - apply not_elem_of_list_to_map_2 in Hl. exfalso. apply Hl. rewrite <-list_fmap_compose. apply list_elem_of_fmap. exists b. split; [done|].
    apply list_elem_of_filter. split; [|by apply HU]. rewrite block_ok_b_complete by done. by rewrite (proj2 (N.ltb_lt _ _) Hpos).
Qed.

(** A state of a node that started without blocks or commits, with the genesis
    blocks [gs]; the blocks [E] were made by other authorities. *)
Definition reached {St : Type} `{StoreLaws St} `{Rng} `{Crypto} `{CommitBcs} `{!Signer} (key : bytes) (byz : gset AuthorityIndex) (ctx : Context)
    (gs : list VerifiedBlock) (E : list VerifiedBlock) (ct : CoreThread St) : Prop :=
  ∃ v instant metrics (s : St) fuel rounds t consumer exists_ sync k0 ct0,
    fresh_node key byz v ctx gs instant metrics s consumer ∧ (2 < rounds)%nat ∧ (1 < fuel)%nat ∧
    Core_new fuel rounds t ctx (fresh_schedule ctx) consumer (BlockManager_new ctx) exists_ (mk_sender [] false) (CoreSignals_new true)
      (fresh_dag ctx gs instant metrics s) sync = Ret k0 ∧
    CoreThread_start ctx (co_dag_state k0) k0 = Ret ct0 ∧ rtc (node_step byz v) ([], ct0) (E, ct).

Section node.
Context {St : Type} `{StoreLaws St} `{RngLaws} `{CryptoLaws} `{CommitBcsLaws} `{!CommitCodec St} `{!BlockCodec St} `{!Signer} (key : bytes) `{!SignerLaws key}.

Lemma reached_chronicle byz ctx gs E (ct : CoreThread St) : reached key byz ctx gs E ct → ∃ committers ds log,
  core_committers committers ∧ chronicle (St := St) ctx byz committers (insert_blocks gs ∅) (made E (ct_core ct)) ds log ∧
  sent (co_commit_sender (ct_core ct)) = log.*1 ∧ committee_ok (committee ctx) ∧ set_stake (committee ctx) byz < validity_threshold (committee ctx).
Proof.
  intros (v & instant & metrics & s & fuel & rounds & t & consumer & exists_ & sync & k0 & ct0 & Hf & Hr & Hfu & Hk0 & Hct0 & Hrun).
  destruct (fresh_new key byz v ctx gs instant metrics s fuel rounds t consumer exists_ sync Hf Hr Hfu) as (k0' & log0 & Hk0' & Hl0 & Hid0 & _).
  rewrite Hk0 in Hk0'. injection Hk0' as <-. injection Hid0 as Hctx0 Hgen0.
  destruct (start_ok key byz _ v _ _ _ Hl0) as (ct0' & Hs & Ht0 & Hcore0). rewrite Hctx0, Hct0 in Hs. injection Hs as <-.
  destruct (node_run_ok _ _ _ _ _ _ _ _ _ Ht0 Hrun) as (log & Ht & _ & Hid). rewrite Hcore0 in Hid. injection Hid as Hctx Hgen.
  pose proof (th_live _ _ _ _ _ _ _ Ht) as Hl. destruct (lv_run _ _ _ _ _ _ _ Hl) as [g Hk].
  destruct (hi_chronicle _ _ _ _ (ro_history _ _ _ _ _ _ Hk)) as (ds & Hch & _). rewrite Hctx, Hgen, Hctx0, Hgen0 in Hch.
  eexists _, ds, log. split; [apply (ck_committers _ _ _ _ (ro_core _ _ _ _ _ _ Hk))|]. split; [exact Hch|]. split; [apply Hl|].
  split; [apply (ok_committee _ (fn_ok _ _ _ _ _ _ _ _ _ Hf))|apply Hf].
Qed.
End node.

(** C1: total-order safety of the whole core.  Take two nodes of one committee that
    start from the same genesis blocks and an empty store, and run each through any
    interleaving of received blocks, commands, settings and timer events.  If digests
    do not collide and honest authorities make one block per round (the authorities
    in [byz] hold less than a third of the stake), then the sub-dags that one node
    sent to its consumer are a prefix of those the other sent: the same leaders,
    blocks, order, timestamps, commit references and reputation scores. *)
Theorem runs_agree {St : Type} `{StoreLaws St} `{RngLaws} `{CryptoLaws} `{CommitBcsLaws} `{!CommitCodec St} `{!BlockCodec St}
    (signerA signerB : Signer) (keyA keyB : bytes) (HA : SignerLaws (H0 := signerA) keyA) (HB : SignerLaws (H0 := signerB) keyB)
    (byz : gset AuthorityIndex) (ctxA ctxB : Context) (gs EA EB : list VerifiedBlock) (ctA ctB : CoreThread St) :
  reached (H4 := signerA) keyA byz ctxA gs EA ctA → reached (H4 := signerB) keyB byz ctxB gs EB ctB →
  committee ctxA = committee ctxB → protocol_config ctxA = protocol_config ctxB →
  one_world byz (.∈ made_list EA (ct_core ctA) ++ made_list EB (ct_core ctB)) →
  sent (co_commit_sender (ct_core ctA)) `prefix_of` sent (co_commit_sender (ct_core ctB)) ∨
  sent (co_commit_sender (ct_core ctB)) `prefix_of` sent (co_commit_sender (ct_core ctA)).
Proof.
  intros HrA HrB Hc Hp Hw. set (all := made_list EA (ct_core ctA) ++ made_list EB (ct_core ctB)) in *.
  destruct (reached_chronicle (H7 := signerA) keyA _ _ _ _ _ HrA) as (cmA & dsA & logA & HcmA & HchA & HsA & Hok & Hbyz).
  destruct (reached_chronicle (H7 := signerB) keyB _ _ _ _ _ HrB) as (cmB & dsB & logB & HcmB & HchB & HsB & _ & _).
  unfold core_committers in HcmA, HcmB. rewrite HcmA in HcmB. injection HcmB as <-.
  assert (∀ b, made EA (ct_core ctA) b → b ∈ all) as HallA by (intros b Hb%elem_of_made; apply elem_of_app; by left).
  assert (∀ b, made EB (ct_core ctB) b → b ∈ all) as HallB by (intros b Hb%elem_of_made; apply elem_of_app; by right).
  destruct (chronicle_prefixes ctxA ctxB Hc Hp byz cmA (insert_blocks gs ∅) _ _ (block_map (committee ctxA) all)
    (block_map_universe _ _ _ Hw Hok Hbyz) (block_map_covers _ _ _ _ Hw HallA) (block_map_covers _ _ _ _ Hw HallB)
    ltac:(intros b b' Hb Hb'; apply (ow_digest _ _ Hw); auto) _ _ _ _ HchA HchB) as [[l ->]|[l ->]]; [left|right];
    rewrite HsA, HsB, fmap_app; by eexists.
Qed.

(** ** Two nodes that run together *)

Definition one_world_b (byz : gset AuthorityIndex) (bs : list VerifiedBlock) : bool :=
  forallb (λ b : VerifiedBlock, forallb (λ b' : VerifiedBlock,
    bool_decide (b = b') || negb (bool_decide (reference b = reference b')) && (bool_decide (author b ∈ byz) || negb (bool_decide (slot b = slot b')))) bs) bs.

Lemma one_world_b_sound byz bs : one_world_b byz bs = true → one_world byz (.∈ bs).
Proof.
  unfold one_world_b. rewrite forallb_forall. intros Hall.
  assert (∀ b b' : VerifiedBlock, b ∈ bs → b' ∈ bs → b = b' ∨ reference b ≠ reference b' ∧ (author b ∈ byz ∨ slot b ≠ slot b')) as Hp.
  { intros b b' Hb%list_elem_of_In%Hall Hb'%list_elem_of_In. rewrite forallb_forall in Hb. apply Hb in Hb'.
    rewrite orb_true_iff, andb_true_iff, orb_true_iff, !negb_true_iff, !bool_decide_eq_true, !bool_decide_eq_false in Hb'. done. }
  split; intros b b' Hb Hb'; destruct (Hp b b' Hb Hb') as [?|[? [?|?]]]; done.
Qed.

(** The test context of authority [a]. *)
Definition test_context_of (a : AuthorityIndex) : Context := mk_context 0 a (test_committee [1; 1; 1; 1]) (test_config 60) 100 50 5.

Lemma test_fresh_node_of a : a < 4 → fresh_node test_key {[3]} test_node_verifier (test_context_of a) test_genesis_blocks 0 test_metrics MemStore_new
  test_core_consumer.
Proof.
  intros Ha. destruct test_fresh_node as [Hd Hst Hg Hdep Hlin Hmed Hdis Hlim Hcons Hswap Hstake _ Hsize Hbyz _ Hver].
  assert (a = 0 ∨ a = 1 ∨ a = 2 ∨ a = 3) as Hcases by lia. split; try done.
  - apply dag_ok_fresh; try done; [apply test_committee_ok|apply ms_ok_new|]. intros b Hb. by apply Hg.
  - destruct Hswap. by split.
  - destruct Hcases as [->|[->|[->| ->]]]; done.
  - destruct Hcases as [->|[->|[->| ->]]]; eexists; split; vm_compute; reflexivity.
Qed.

Abbreviation test_trace := (trace (H1 := test_rng) (H3 := test_crypto) (H5 := test_bcs) (H7 := test_signer) {[3]} test_node_verifier 50 50).

Definition test_start (a : AuthorityIndex) : outcome (CoreThread MemStore) :=
  k ← Core_new (H0 := test_rng) (H1 := test_crypto) (H2 := test_bcs) (H3 := test_signer) 10 10 (test_times 0) (test_context_of a)
        (fresh_schedule (test_context_of a)) test_core_consumer (BlockManager_new (test_context_of a)) true (mk_sender [] false) (CoreSignals_new true)
        (fresh_dag (test_context_of a) test_genesis_blocks 0 test_metrics MemStore_new) false;
  CoreThread_start (test_context_of a) (co_dag_state k) k.

(** The node hears of the blocks [bs] of round [r] and adds them. *)
Definition hear (bs : list VerifiedBlock) (r : Round) : list (list VerifiedBlock * CoreThread MemStore → action) :=
  ((λ b _, AcMade b) <$> bs) ++ [λ _, AcSend (AddBlocks bs r); λ _, AcSelect (test_times r) BrCommand].

(** The blocks of round [r] that reach a node from the outside: that of the other
    running node, with state [y], and those of authorities 2 and 3, which follow the
    blocks in [w]. *)
Definition test_peers (r : Round) (w y : list VerifiedBlock * CoreThread MemStore) : list VerifiedBlock :=
  filter (λ b : VerifiedBlock, round b = r) (eb_block <$> broadcasts (ct_core y.2)) ++ [test_external r 2 w; test_external r 3 w].

Fixpoint joint (rs : list Round) (x y : list VerifiedBlock * CoreThread MemStore) : option ((list VerifiedBlock * CoreThread MemStore) * (list VerifiedBlock * CoreThread MemStore)) :=
  match rs with
  | [] => Some (x, y)
  | r :: rs => x' ← test_trace x (hear (test_peers r x y) r); y' ← test_trace y (hear (test_peers r x x) r); joint rs x' y'
  end.

Lemma joint_sound rs : ∀ x y x' y', joint rs x y = Some (x', y') →
  rtc (node_step (H1 := test_rng) (H3 := test_crypto) (H5 := test_bcs) (H7 := test_signer) {[3]} test_node_verifier) x x' ∧
  rtc (node_step (H1 := test_rng) (H3 := test_crypto) (H5 := test_bcs) (H7 := test_signer) {[3]} test_node_verifier) y y'.
Proof.
  induction rs as [|r rs IH]; intros x y x' y'; cbn [joint]; [by intros [= -> ->]|].
  intros (x1 & Hx%(trace_sound _ _ _ _ mem_accepts) & (y1 & Hy%(trace_sound _ _ _ _ mem_accepts) & Hr)%bind_Some)%bind_Some; [|apply test_committee_ok..].
  apply IH in Hr as [Hx' Hy']. split; by etrans.
Qed.

(** The two nodes after four joint rounds, and a fifth one of the first node. *)
Definition test_joint : option ((list VerifiedBlock * CoreThread MemStore) * (list VerifiedBlock * CoreThread MemStore)) :=
  match test_start 0, test_start 1 with
  | Ret a, Ret b => '(x, y) ← joint [1; 2; 3; 4] ([], a) ([], b); x' ← test_trace x (hear (test_peers 5 x y) 5); Some (x', y)
  | _, _ => None
  end.

Lemma test_start_reached a E ct k : a < 4 → test_start a = Ret ct →
  rtc (node_step (H1 := test_rng) (H3 := test_crypto) (H5 := test_bcs) (H7 := test_signer) {[3]} test_node_verifier) ([], ct) (E, k) →
  reached (H1 := test_rng) (H2 := test_crypto) (H3 := test_bcs) (H4 := test_signer) test_key {[3]} (test_context_of a) test_genesis_blocks E k.
Proof.
  intros Ha Hs Hrun. unfold test_start in Hs. destruct (Core_new _ _ _ _ _ _ _ _ _ _ _ _) as [k0|] eqn:Hk0; [|discriminate Hs].
  exists test_node_verifier, 0, test_metrics, MemStore_new, 10%nat, 10%nat, (test_times 0), test_core_consumer, true, false, k0, ct.
  split; [by apply test_fresh_node_of|]. split; [lia|]. split; [lia|]. split; [exact Hk0|].
  split; [exact Hs|exact Hrun].
Qed.

Lemma runs_agree_witness : ∃ (EA EB : list VerifiedBlock) (ctA ctB : CoreThread MemStore),
  length (sent (co_commit_sender (ct_core ctA))) = 3%nat ∧ length (sent (co_commit_sender (ct_core ctB))) = 2%nat ∧
  (sent (co_commit_sender (ct_core ctA)) `prefix_of` sent (co_commit_sender (ct_core ctB)) ∨
   sent (co_commit_sender (ct_core ctB)) `prefix_of` sent (co_commit_sender (ct_core ctA))).
Proof.
  assert ((λ '(x, y), (length (sent (co_commit_sender (ct_core x.2))), length (sent (co_commit_sender (ct_core y.2))),
    one_world_b {[3]} (made_list x.1 (ct_core x.2) ++ made_list y.1 (ct_core y.2)))) <$> test_joint = Some (3%nat, 2%nat, true)) as Hc by (vm_compute; reflexivity).
  apply fmap_Some in Hc as ([[EA ctA] [EB ctB]] & Hj & Heq). injection Heq as HsA HsB Hw. unfold test_joint in Hj.
  destruct (test_start 0) as [a|] eqn:HA; [|discriminate Hj]. destruct (test_start 1) as [b|] eqn:HB; [|discriminate Hj].
  apply bind_Some in Hj as ([x y] & Hj & (x' & Hx%(trace_sound _ _ _ _ mem_accepts) & [= -> ->])%bind_Some); [|apply test_committee_ok]. apply joint_sound in Hj as [Hx0 Hy0].
  exists EA, EB, ctA, ctB. split; [exact (eq_sym HsA)|]. split; [exact (eq_sym HsB)|].
  apply (runs_agree (H1 := test_rng) (H3 := test_crypto) (H5 := test_bcs) test_signer test_signer test_key test_key _ _ {[3]}
    (test_context_of 0) (test_context_of 1) test_genesis_blocks EA EB ctA ctB).
  - apply (test_start_reached 0 _ a); [lia|exact HA|etrans; [exact Hx0|exact Hx]].
  - apply (test_start_reached 1 _ b); [lia|exact HB|exact Hy0].
  - reflexivity.
  - reflexivity.
  - apply one_world_b_sound, eq_sym, Hw.
Defined.
