(* ===== verification/Inflight.v ===== *)
(** * Inflight: the blocks that are being fetched

    Models [InflightBlocksMap] and [BlocksGuard] of
    [consensus/core/src/synchronizer.rs]: a guard is held for a request to a peer,
    the map counts for every block the peers that are asked for it, and dropping a
    guard takes its peer out of the map. *)
From S2P Require Import Prelude Committee Block.
Local Open Scope N_scope.
Local Open Scope rust_scope.

Definition MAX_AUTHORITIES_TO_FETCH_PER_BLOCK : N := 2.
Definition MAX_AUTHORITIES_TO_LIVE_FETCH_PER_BLOCK : N := 1.

Inductive SyncMethod := Live | Periodic.

#[export] Instance SyncMethod_eq_dec : EqDecision SyncMethod.
Proof. solve_decision. Defined.

Record BlocksGuard := mk_guard {
  bg_block_refs : gset BlockRef;
  bg_peer : AuthorityIndex;
  bg_method : SyncMethod;
}.

Notation InflightBlocksMap := (gmap BlockRef (gset AuthorityIndex)).
Definition InflightBlocksMap_new : InflightBlocksMap := ∅.

Implicit Types (m : InflightBlocksMap) (gs : list BlocksGuard).

Definition max_limit (method : SyncMethod) : N :=
  match method with
  | Live => MAX_AUTHORITIES_TO_LIVE_FETCH_PER_BLOCK
  | Periodic => MAX_AUTHORITIES_TO_FETCH_PER_BLOCK
  end.

(** The loop over the missing blocks, with the set of blocks locked so far. *)
Definition lock_block (peer : AuthorityIndex) (method : SyncMethod) '((m, blocks) : InflightBlocksMap * gset BlockRef) (block_ref : BlockRef)
    : outcome (InflightBlocksMap * gset BlockRef) :=
  let authorities := default ∅ (m !! block_ref) in
  let m := <[block_ref := authorities]> m in
  if bool_decide (peer ∈ authorities) then Ret (m, blocks)
  else if N.of_nat (size authorities) <? max_limit method then
    _ ← assert (bool_decide (peer ∉ authorities)) "authorities.insert(peer)";
    Ret (<[block_ref := {[peer]} ∪ authorities]> m, {[block_ref]} ∪ blocks)
  else Ret (m, blocks).

Definition lock_blocks m (missing_block_refs : gset BlockRef) (peer : AuthorityIndex) (method : SyncMethod)
    : outcome (InflightBlocksMap * option BlocksGuard) :=
  '(m, blocks) ← foldM (lock_block peer method) (m, ∅) (btree_iter missing_block_refs);
  Ret (m, if decide (blocks = ∅) then None else Some (mk_guard blocks peer method)).

Definition unlock_block (peer : AuthorityIndex) m (block_ref : BlockRef) : outcome InflightBlocksMap :=
  authorities ← expect (m !! block_ref) "Should have found a non empty map";
  _ ← assert (bool_decide (peer ∈ authorities)) "Peer index should be present!";
  let authorities := (authorities : gset AuthorityIndex) ∖ {[peer]} in
  Ret (if decide (authorities = ∅) then delete block_ref m else <[block_ref := authorities]> m).

Definition unlock_blocks m (block_refs : gset BlockRef) (peer : AuthorityIndex) : outcome InflightBlocksMap :=
  foldM (unlock_block peer) m (btree_iter block_refs).

(** [Drop] of a guard. *)
Definition drop_guard m (g : BlocksGuard) : outcome InflightBlocksMap := unlock_blocks m (bg_block_refs g) (bg_peer g).

Definition swap_locks m (blocks_guard : BlocksGuard) (peer : AuthorityIndex) : outcome (InflightBlocksMap * option BlocksGuard) :=
  m ← drop_guard m blocks_guard;
  lock_blocks m (bg_block_refs blocks_guard) peer (bg_method blocks_guard).

(** ** What the map says of the guards *)

(** The guards that cover a block. *)
Definition holders (r : BlockRef) gs : list BlocksGuard := filter (λ g, r ∈ bg_block_refs g) gs.

(** The map and the guards that are held. *)
Record locked m gs : Prop := {
  lk_map r : default ∅ (m !! r) = list_to_set (bg_peer <$> holders r gs);
  lk_nonempty r s : m !! r = Some s → s ≠ ∅;
  lk_once r : NoDup (bg_peer <$> holders r gs);
  lk_limit r : N.of_nat (length (holders r gs)) <= MAX_AUTHORITIES_TO_FETCH_PER_BLOCK;
  lk_live r : N.of_nat (length (filter (λ g, bg_method g = Live) (holders r gs))) <= MAX_AUTHORITIES_TO_LIVE_FETCH_PER_BLOCK;
}.

#[export] Instance locked_Permutation m : Proper ((≡ₚ) ==> iff) (locked m).
Proof.
  assert (∀ gs gs', gs ≡ₚ gs' → locked m gs → locked m gs') as Hp; [|intros gs gs' Hgs; split; [by apply Hp|by apply Hp]].
  intros gs gs' Hgs [Hm Hn Ho Hl Hv]. assert (∀ r, holders r gs ≡ₚ holders r gs') as Hh by (intros r; unfold holders; by rewrite Hgs).
  split; [|done|..]; intros r; specialize (Hh r); by rewrite <-Hh.
Qed.

Lemma locked_empty : locked InflightBlocksMap_new [].
Proof. split; try done. intros r. constructor. Qed.

(** With no guard held, nothing is locked. *)
Lemma locked_nil m : locked m [] → m = ∅.
Proof.
  intros Hl. apply map_empty. intros r. destruct (m !! r) as [s|] eqn:Hs; [|done]. pose proof (lk_map _ _ Hl r) as Hm. rewrite Hs in Hm.
  by destruct (lk_nonempty _ _ Hl r s Hs).
Qed.

Lemma locked_size m gs r : locked m gs → size (default ∅ (m !! r)) = length (holders r gs).
Proof. intros Hl. rewrite (lk_map _ _ Hl r), size_list_to_set by apply Hl. apply length_fmap. Qed.

(** ** Locking *)

(** A block that a peer may be asked for. *)
Definition lockable m (method : SyncMethod) (peer : AuthorityIndex) (r : BlockRef) : Prop :=
  (peer ∉ default ∅ (m !! r)) ∧ N.of_nat (size (default ∅ (m !! r))) < max_limit method.

#[export] Instance lockable_dec m method peer r : Decision (lockable m method peer r).
Proof. unfold lockable. apply _. Defined.

Lemma lock_loop peer method l : NoDup l → ∀ m blocks,
  ∃ m', foldM (lock_block peer method) (m, blocks) l = Ret (m', list_to_set (filter (lockable m method peer) l) ∪ blocks) ∧
    ∀ r, m' !! r = if decide (r ∈ l ∧ lockable m method peer r) then Some ({[peer]} ∪ default ∅ (m !! r)) else m !! r.
Proof.
  induction l as [|r l IH]; intros Hnd m blocks; cbn [foldM].
  { exists m. rewrite filter_nil. split; [do 2 f_equal; set_solver|]. intros r. by rewrite decide_False by set_solver. }
  apply NoDup_cons in Hnd as [Hr Hnd]. destruct (decide (lockable m method peer r)) as [Hlk|Hlk].
  - assert (lock_block peer method (m, blocks) r = Ret (<[r := {[peer]} ∪ default ∅ (m !! r)]> m, {[r]} ∪ blocks)) as ->.
    { destruct Hlk as [Hp Hs]. unfold lock_block. rewrite bool_decide_eq_false_2 by done. rewrite (proj2 (N.ltb_lt _ _) Hs).
      rewrite bool_decide_eq_true_2 by done. cbn [assert mbind outcome_bind]. do 2 f_equal. apply insert_insert_eq. }
    cbn [mbind outcome_bind]. set (m1 := <[r := _]> m). destruct (IH Hnd m1 ({[r]} ∪ blocks)) as (m' & Hm' & Hlook).
    assert (∀ r', r' ∈ l → (lockable m1 method peer r' ↔ lockable m method peer r')) as Hsame.
    { intros r' Hr'. unfold lockable, m1. assert (r ≠ r') as Hne by set_solver. by rewrite !lookup_insert_ne by done. }
    exists m'. split.
    + rewrite Hm'. do 2 f_equal. apply set_eq. intros x.
      rewrite !elem_of_union, !elem_of_list_to_set, !list_elem_of_filter, elem_of_cons, elem_of_singleton. destruct (decide (x = r)) as [->|Hne]; [tauto|]. specialize (Hsame x). tauto.
    + intros r'. rewrite Hlook. destruct (decide (r' = r)) as [->|Hne].
      * rewrite decide_False by set_solver. rewrite (decide_True (P := r ∈ r :: l ∧ _)) by (split; [left|done]). apply lookup_insert_eq.
      * assert (m1 !! r' = m !! r') as -> by (by apply lookup_insert_ne). apply decide_ext. rewrite elem_of_cons. specialize (Hsame r'). tauto.
  - assert (lock_block peer method (m, blocks) r = Ret (m, blocks)) as ->.
    { unfold lock_block. assert (m !! r = None → False) as Hsome.
      { intros Hn. apply Hlk. unfold lockable. rewrite Hn. cbn. rewrite size_empty. split; [set_solver|by destruct method]. }
      destruct (m !! r) as [s|] eqn:Hs; [|by destruct Hsome]. cbn [default from_option id]. rewrite insert_id by done.
      case_bool_decide as Hp; [done|]. destruct (N.ltb_spec (N.of_nat (size s)) (max_limit method)); [|done].
      destruct Hlk. unfold lockable. by rewrite Hs. }
    cbn [mbind outcome_bind]. destruct (IH Hnd m blocks) as (m' & -> & Hlook). exists m'. rewrite filter_cons_False by done. split; [done|].
    intros r'. rewrite Hlook. apply decide_ext. rewrite elem_of_cons. naive_solver.
Qed.

Lemma holders_cons r g gs : holders r (g :: gs) = if decide (r ∈ bg_block_refs g) then g :: holders r gs else holders r gs.
Proof. unfold holders. by rewrite filter_cons. Qed.

(** The blocks that can be locked are, and the others are left alone. *)
Lemma lock_blocks_spec m gs refs peer method : locked m gs →
  ∃ m' og, lock_blocks m refs peer method = Ret (m', og) ∧
    match og with
    | Some g => bg_peer g = peer ∧ bg_method g = method ∧ bg_block_refs g ≠ ∅ ∧
        (∀ r, r ∈ bg_block_refs g ↔ r ∈ refs ∧ lockable m method peer r) ∧ locked m' (g :: gs)
    | None => m' = m ∧ ∀ r, r ∈ refs → ¬ lockable m method peer r
    end.
Proof.
  intros Hl. unfold lock_blocks. destruct (lock_loop peer method (btree_iter refs) (btree_iter_NoDup refs) m ∅) as (m' & -> & Hm').
  cbn [mbind outcome_bind]. rewrite (right_id_L ∅ (∪)). set (blocks := list_to_set _).
  assert (∀ r, r ∈ blocks ↔ r ∈ refs ∧ lockable m method peer r) as Hb.
  { intros r. unfold blocks. rewrite elem_of_list_to_set, list_elem_of_filter, elem_of_btree_iter. tauto. }
  assert (∀ r, m' !! r = if decide (r ∈ blocks) then Some ({[peer]} ∪ default ∅ (m !! r)) else m !! r) as Hlook.
  { intros r. rewrite Hm'. apply decide_ext. by rewrite Hb, elem_of_btree_iter. }
  eexists _, _. split; [done|]. case_decide as Hz; cbn [bg_peer bg_method bg_block_refs].
  { split; [|set_solver]. apply map_eq. intros r. rewrite Hlook, decide_False by set_solver. done. }
  split_and!; [done..|]. pose proof Hl as [Hm Hn Ho Hli Hv].
  assert (∀ r, r ∈ blocks → (peer ∉ bg_peer <$> holders r gs) ∧ N.of_nat (length (holders r gs)) < max_limit method) as Hfree.
  { intros r [_ [Hp Hs]]%Hb. rewrite (locked_size m gs r Hl) in Hs. rewrite Hm, elem_of_list_to_set in Hp. done. }
  split; intros r; rewrite ?holders_cons; cbn [bg_block_refs].
  - rewrite Hlook. case_decide as Hr; [|apply Hm]. csimpl. by rewrite Hm.
  - intros s. rewrite Hlook. case_decide; [intros [= <-]; set_solver|apply Hn].
  - case_decide as Hr; [|apply Ho]. csimpl. apply NoDup_cons. split; [by apply Hfree|apply Ho].
  - case_decide as Hr; [|apply Hli]. destruct (Hfree r Hr) as [_ Hs]. cbn [length]. unfold MAX_AUTHORITIES_TO_FETCH_PER_BLOCK.
    destruct method; cbn [max_limit] in Hs; unfold MAX_AUTHORITIES_TO_FETCH_PER_BLOCK, MAX_AUTHORITIES_TO_LIVE_FETCH_PER_BLOCK in Hs; lia.
  - case_decide as Hr; [|apply Hv]. destruct (Hfree r Hr) as [_ Hs]. rewrite filter_cons. cbn [bg_method]. case_decide as Hmth; [|apply Hv]. subst method.
    cbn [max_limit] in Hs. unfold MAX_AUTHORITIES_TO_LIVE_FETCH_PER_BLOCK in *. cbn [length].
    destruct (holders r gs) as [|g0 l]; [rewrite filter_nil; cbn; lia|cbn [length] in Hs; lia].
Qed.

(** ** Unlocking *)

Lemma unlock_loop peer l : NoDup l → ∀ m, (∀ r, r ∈ l → ∃ s, m !! r = Some s ∧ peer ∈ s) →
  ∃ m', foldM (unlock_block peer) m l = Ret m' ∧
    ∀ r, m' !! r = if decide (r ∈ l) then (if decide (default ∅ (m !! r) ∖ {[peer]} = ∅) then None else Some (default ∅ (m !! r) ∖ {[peer]})) else m !! r.
Proof.
  induction l as [|r l IH]; intros Hnd m Hin; cbn [foldM].
  { exists m. split; [done|]. intros r. by rewrite decide_False by apply not_elem_of_nil. }
  apply NoDup_cons in Hnd as [Hr Hnd]. destruct (Hin r) as (s & Hs & Hp); [left|]. unfold unlock_block at 2. rewrite Hs. cbn [expect mbind outcome_bind].
  rewrite bool_decide_eq_true_2 by done. cbn [assert mbind outcome_bind]. set (m1 := if decide _ then _ else _).
  assert (m1 !! r = if decide (s ∖ {[peer]} = ∅) then None else Some (s ∖ {[peer]})) as Hm1.
  { unfold m1. case_decide; [apply lookup_delete_eq|apply lookup_insert_eq]. }
  assert (∀ r', r' ≠ r → m1 !! r' = m !! r') as Hne.
  { intros r' Hr'. unfold m1. case_decide; [by apply lookup_delete_ne|by apply lookup_insert_ne]. }
  destruct (IH Hnd m1) as (m' & Hm' & Hlook).
  { intros r' Hr'. rewrite Hne by (by intros ->). apply Hin. by right. }
  exists m'. split; [done|]. intros r'. rewrite Hlook. destruct (decide (r' = r)) as [->|Hr'].
  - rewrite decide_False by done. rewrite (decide_True (P := r ∈ r :: l)) by left. by rewrite Hm1, Hs.
  - rewrite (Hne r' Hr'). apply decide_ext. rewrite elem_of_cons. tauto.
Qed.

(** Dropping a guard that is held does not panic. *)
Lemma drop_guard_spec m g gs : locked m (g :: gs) → ∃ m', drop_guard m g = Ret m' ∧ locked m' gs.
Proof.
  intros [Hm Hn Ho Hli Hv]. unfold drop_guard, unlock_blocks.
  assert (∀ r, r ∈ bg_block_refs g → default ∅ (m !! r) = {[bg_peer g]} ∪ list_to_set (bg_peer <$> holders r gs) ∧ (bg_peer g ∉ bg_peer <$> holders r gs)) as Hg.
  { intros r Hr. specialize (Hm r). specialize (Ho r). rewrite holders_cons, decide_True in Hm, Ho by done. csimpl in Hm. csimpl in Ho.
    apply NoDup_cons in Ho as [Ho _]. done. }
  destruct (unlock_loop (bg_peer g) (btree_iter (bg_block_refs g)) (btree_iter_NoDup _) m) as (m' & -> & Hlook).
  { intros r Hr%elem_of_btree_iter. destruct (Hg r Hr) as [Hmr _]. destruct (m !! r) as [s|]; [|exfalso; cbn in Hmr; set_solver].
    exists s. split; [done|]. cbn in Hmr. rewrite Hmr. set_solver. }
  exists m'. split; [done|].
  assert (∀ r, default ∅ (m' !! r) = list_to_set (bg_peer <$> holders r gs)) as Hm'.
  { intros r. rewrite Hlook. case_decide as Hr.
    - apply elem_of_btree_iter in Hr. destruct (Hg r Hr) as [Hmr Hno]. assert (default ∅ (m !! r) ∖ {[bg_peer g]} = list_to_set (bg_peer <$> holders r gs)) as -> by (rewrite Hmr; set_solver).
      case_decide as Hz; cbn; [by rewrite Hz|done].
    - rewrite elem_of_btree_iter in Hr. rewrite Hm, holders_cons, decide_False by done. done. }
  split; intros r.
  - apply Hm'.
  - intros s. rewrite Hlook. case_decide; [case_decide as Hz; [done|by intros [= <-]]|apply Hn].
  - specialize (Ho r). rewrite holders_cons in Ho. case_decide; [|done]. csimpl in Ho. by apply NoDup_cons in Ho as [_ Ho].
  - specialize (Hli r). rewrite holders_cons in Hli. case_decide; [cbn [length] in Hli; lia|done].
  - specialize (Hv r). rewrite holders_cons in Hv. case_decide; [|done]. rewrite filter_cons in Hv. case_decide; [cbn [length] in Hv; lia|done].
Qed.

Lemma swap_locks_spec m g gs peer : locked m (g :: gs) →
  ∃ m' og, swap_locks m g peer = Ret (m', og) ∧ locked m' (option_list og ++ gs) ∧
    ∀ g', og = Some g' → bg_peer g' = peer ∧ bg_method g' = bg_method g ∧ bg_block_refs g' ⊆ bg_block_refs g.
Proof.
  intros Hl. unfold swap_locks. destruct (drop_guard_spec m g gs Hl) as (m1 & -> & Hl1). cbn [mbind outcome_bind].
  destruct (lock_blocks_spec m1 gs (bg_block_refs g) peer (bg_method g) Hl1) as (m' & og & -> & Hog). exists m', og. split; [done|].
  destruct og as [g'|]; cbn [option_list app].
  - destruct Hog as (Hp & Hmt & _ & Hrefs & Hl'). split; [done|]. intros ? [= <-]. split_and!; [done..|]. intros r Hr. by apply Hrefs.
  - destruct Hog as [-> _]. by split.
Qed.

(** ** Any use of the map *)

Inductive lock_op :=
| Lock (missing_block_refs : gset BlockRef) (peer : AuthorityIndex) (method : SyncMethod)
| Drop (i : nat)
| Swap (i : nat) (peer : AuthorityIndex).

(** The guards that are held, with the newest first. *)
Definition lock_step '((m, gs) : InflightBlocksMap * list BlocksGuard) (op : lock_op) : outcome (InflightBlocksMap * list BlocksGuard) :=
  match op with
  | Lock refs peer method => '(m, og) ← lock_blocks m refs peer method; Ret (m, option_list og ++ gs)
  | Drop i => match gs !! i with Some g => m ← drop_guard m g; Ret (m, delete i gs) | None => Ret (m, gs) end
  | Swap i peer => match gs !! i with Some g => '(m, og) ← swap_locks m g peer; Ret (m, option_list og ++ delete i gs) | None => Ret (m, gs) end
  end.

Lemma lock_step_ok x op : locked x.1 x.2 → ∃ y, lock_step x op = Ret y ∧ locked y.1 y.2.
Proof.
  destruct x as [m gs]. cbn [fst snd]. intros Hl. assert (∀ i g, gs !! i = Some g → locked m (g :: delete i gs)) as Hat.
  { intros i g Hi. by rewrite <-(delete_Permutation gs i g Hi). }
  destruct op as [refs peer method|i|i peer]; cbn [lock_step].
  - destruct (lock_blocks_spec m gs refs peer method Hl) as (m' & og & -> & Hog). cbn [mbind outcome_bind]. eexists. split; [done|]. cbn [fst snd].
    destruct og as [g|]; [by destruct Hog as (_ & _ & _ & _ & ?)|]. by destruct Hog as [-> _].
  - destruct (gs !! i) as [g|] eqn:Hi; [|by eexists]. destruct (drop_guard_spec m g _ (Hat i g Hi)) as (m' & -> & Hl'). by eexists.
  - destruct (gs !! i) as [g|] eqn:Hi; [|by eexists]. destruct (swap_locks_spec m g _ peer (Hat i g Hi)) as (m' & og & -> & Hl' & _). by eexists.
Qed.

(** C21: locks on blocks.  Take any sequence of calls: blocks are locked for a peer,
    guards are dropped, and guards are swapped to another peer.  No call panics.
    A peer is recorded for a block exactly when a guard of that peer that covers
    the block is held, and when no guard is held the map is empty.  A block is never
    fetched from the same peer twice at a time, nor from more than two peers, of
    which at most one was asked by the live synchronizer.  And the next call locks
    of the blocks it is given exactly those that no guard of the peer covers and
    that are covered by fewer guards than the limit of the method. *)
Theorem inflight_locks (ops : list lock_op) :
  ∃ m gs, foldM lock_step (InflightBlocksMap_new, []) ops = Ret (m, gs) ∧
    (∀ r a, a ∈ default ∅ (m !! r) ↔ a ∈ bg_peer <$> holders r gs) ∧ (gs = [] → m = ∅) ∧
    (∀ r, NoDup (bg_peer <$> holders r gs) ∧ N.of_nat (length (holders r gs)) <= 2 ∧
      N.of_nat (length (filter (λ g, bg_method g = Live) (holders r gs))) <= 1) ∧
    ∀ refs peer method, ∃ m' og, lock_blocks m refs peer method = Ret (m', og) ∧
      ∀ r, r ∈ from_option bg_block_refs ∅ og ↔
        r ∈ refs ∧ (peer ∉ bg_peer <$> holders r gs) ∧ N.of_nat (length (holders r gs)) < max_limit method.
Proof.
  destruct (foldM_inv (λ x, locked x.1 x.2) lock_step ops (InflightBlocksMap_new, [])) as ([m gs] & Heq & Hl).
  { intros x op _. apply lock_step_ok. }
  { apply locked_empty. }
  cbn [fst snd] in Hl. exists m, gs. split; [done|]. split; [intros r a; by rewrite (lk_map _ _ Hl r), elem_of_list_to_set|].
  split; [intros ->; by apply locked_nil|]. split; [intros r; split_and!; apply Hl|].
  intros refs peer method. destruct (lock_blocks_spec m gs refs peer method Hl) as (m' & og & Hlk & Hog). exists m', og. split; [done|].
  assert (∀ r, lockable m method peer r ↔ (peer ∉ bg_peer <$> holders r gs) ∧ N.of_nat (length (holders r gs)) < max_limit method) as Hlockable.
  { intros r. unfold lockable. by rewrite (locked_size m gs r Hl), (lk_map _ _ Hl r), elem_of_list_to_set. }
  intros r. rewrite <-Hlockable. destruct og as [g|]; cbn [from_option].
  - by destruct Hog as (_ & _ & _ & Hr & _).
  - destruct Hog as [_ Hno]. split; [by intros ?%elem_of_empty|]. intros [Hr Hlr]. by destruct (Hno r Hr).
Qed.
