(* ===== verification/Subscriptions.v ===== *)
(** * Subscriptions: who listens to the blocks of this authority

    Models [SubscriptionCounter] of [consensus/core/src/authority_service.rs].  Each
    stream of blocks that a peer opens increments the counter, dropping the stream
    decrements it, and the Core thread is told when the subscribers together with
    this authority gain or lose a quorum. *)
From stdpp Require Import gmultiset.
From S2P Require Import Prelude Committee Block StakeAggregator ThresholdClock Commit Error BlockVerifier Store.
From S2P Require Import ScoringMetrics LeaderScoring DagState LeaderSchedule Linearizer BaseCommitter UniversalCommitter.
From S2P Require Import BlockManager QuorumRounds Ancestor Transactions CommitObserver Core CoreThread.
From S2P Require Import MemStore ProposalAncestors Proposal.
Local Open Scope N_scope.
Local Open Scope rust_scope.

Record Counter := mk_counter {
  sc_count : N;
  sc_subscriptions_by_authority : list N;
}.

Definition SubscriptionCounter_new (ctx : Context) : Counter :=
  mk_counter 0 (replicate (N.to_nat (committee_size (committee ctx))) 0).

(** The stake of the subscribers and of this authority. *)
Definition subscribed_stake (ctx : Context) (subs : list N) : outcome Stake :=
  foldM (λ total '((i, _) : AuthorityIndex * Authority),
    n ← vec_index subs i;
    if (1 <=? n) || (own_index ctx =? i) then s ← committee_stake (committee ctx) i; Ret (total +64 s) else Ret total)
    0 (authorities (committee ctx)).

Section counter.
Context {St : Type} (ctx : Context).
Implicit Types (ct : CoreThread St) (counter : Counter).

(** [set_quorum_subscribers_exists] with [map_err] and [?]. *)
Definition notify_subscribers ct (exists_ : bool) : CoreThread St * ConsensusResult unit :=
  let '(ct, sent) := dispatch_set_quorum_subscribers_exists ct exists_ in
  (ct, if sent then Ok tt else Err Shutdown).

Definition increment counter ct (peer : AuthorityIndex) : outcome (Counter * CoreThread St * ConsensusResult unit) :=
  let c := committee ctx in
  let subs := sc_subscriptions_by_authority counter in
  original_subscription_by_peer ← vec_index subs peer;
  subs ← vec_set subs peer (original_subscription_by_peer +64 1);
  let counter := mk_counter (sc_count counter +64 1) subs in
  total_stake ← subscribed_stake ctx subs;
  previous_stake ←
    (if original_subscription_by_peer =? 0 then s ← committee_stake c peer; Ret (total_stake -64 s) else Ret total_stake);
  _ ← authority c peer;
  if negb (reached_quorum c previous_stake) && reached_quorum c total_stake then
    let '(ct, r) := notify_subscribers ct true in Ret (counter, ct, r)
  else Ret (counter, ct, Ok tt).

Definition decrement counter ct (peer : AuthorityIndex) : outcome (Counter * CoreThread St * ConsensusResult unit) :=
  let c := committee ctx in
  let subs := sc_subscriptions_by_authority counter in
  original_subscription_by_peer ← vec_index subs peer;
  subs ← vec_set subs peer (original_subscription_by_peer -64 1);
  let counter := mk_counter (sc_count counter -64 1) subs in
  total_stake ← subscribed_stake ctx subs;
  previous_stake ←
    (if original_subscription_by_peer =? 1 then s ← committee_stake c peer; Ret (total_stake +64 s) else Ret total_stake);
  n ← vec_index subs peer;
  _ ← (if n =? 0 then _ ← authority c peer; Ret tt else Ret tt);
  if reached_quorum c previous_stake && negb (reached_quorum c total_stake) then
    let '(ct, r) := notify_subscribers ct false in Ret (counter, ct, r)
  else Ret (counter, ct, Ok tt).

(** Opening and dropping a [BroadcastStream]; the only error is a shutdown, which
    is ignored. *)
Inductive subscription := Subscribe (peer : AuthorityIndex) | Unsubscribe (peer : AuthorityIndex).

Definition stream_result (r : outcome (Counter * CoreThread St * ConsensusResult unit)) : outcome (Counter * CoreThread St) :=
  '(counter, ct, res) ← r;
  match (res : ConsensusResult unit) with Ok _ | Err Shutdown => Ret (counter, ct) | Err _ => Panic "Unexpected error: {err}" end.

Definition subscribe '((counter, ct) : Counter * CoreThread St) (e : subscription) : outcome (Counter * CoreThread St) :=
  match e with
  | Subscribe peer => stream_result (increment counter ct peer)
  | Unsubscribe peer => stream_result (decrement counter ct peer)
  end.
End counter.

(** ** What the counter promises *)

Section spec.
Context {St : Type} (ctx : Context) (Hc : committee_ok (committee ctx)).
Let c := committee ctx.
Implicit Types (ct : CoreThread St) (counter : Counter) (subs : list N).

Definition subscriptions subs (i : AuthorityIndex) : N := default 0 (subs !! N.to_nat i).

(** The authorities that get the blocks of this one, itself among them. *)
Definition listens subs (i : AuthorityIndex) : Prop := 1 <= subscriptions subs i ∨ i = own_index ctx.
#[local] Instance listens_dec subs i : Decision (listens subs i).
Proof. unfold listens. apply _. Defined.

Definition listeners subs : gset AuthorityIndex := filter (listens subs) (all_indices c).

Lemma authorities_fst : (authorities c).*1 = N.of_nat <$> seq 0 (length (authorities_vec c)).
Proof.
  unfold authorities. apply list_eq. intros i. rewrite !list_lookup_fmap, list_lookup_imap.
  destruct (authorities_vec c !! i) as [x|] eqn:Hx; cbn.
  - rewrite lookup_seq_lt by (by eapply lookup_lt_Some). done.
  - by rewrite lookup_seq_ge by (by apply lookup_ge_None).
Qed.

Lemma subscribed_stake_ret subs : length subs = length (authorities_vec c) → subscribed_stake ctx subs = Ret (set_stake c (listeners subs)).
Proof.
  intros Hlen. unfold subscribed_stake. fold c.
  destruct (foldM_prefix (λ pre total, total = set_stake c (list_to_set (filter (listens subs) pre.*1)))
    (λ total '((i, _) : AuthorityIndex * Authority),
      n ← vec_index subs i; if (1 <=? n) || (own_index ctx =? i) then s ← committee_stake c i; Ret (total +64 s) else Ret total)
    (authorities c) 0) as (t & -> & ->).
  - intros pre [i x] post total Hl ->. assert (is_valid_index c i) as Hi.
    { apply (authorities_valid c i x). rewrite Hl. set_solver. }
    assert (∃ n, subs !! N.to_nat i = Some n) as [n Hn].
    { apply lookup_lt_is_Some_2. rewrite Hlen. unfold is_valid_index, committee_size in Hi. apply Is_true_true, N.ltb_lt in Hi. lia. }
    rewrite (proj2 (vec_index_ret _ _ _) Hn). cbn [mbind outcome_bind]. rewrite fmap_app, filter_app. csimpl.
    assert (((1 <=? n) || (own_index ctx =? i)) = bool_decide (listens subs i)) as ->.
    { apply eq_bool_prop_intro. rewrite orb_True, bool_decide_spec, !Is_true_true, N.leb_le, N.eqb_eq. unfold listens, subscriptions. rewrite Hn. cbn. naive_solver. }
    rewrite filter_cons, filter_nil. case_bool_decide as Hq; [rewrite decide_True by done|rewrite decide_False, (right_id_L [] (++)) by done; by eexists].
    rewrite committee_stake_ret by done. eexists. split; [done|]. rewrite list_to_set_app_L. cbn [list_to_set]. rewrite (right_id_L ∅ (∪)), (comm_L (∪)).
    assert (i ∉ (list_to_set (filter (listens subs) pre.*1) : gset N)) as Hni.
    { rewrite elem_of_list_to_set, list_elem_of_filter. intros [_ Hin]. assert (NoDup (authorities c).*1) as Hnd
        by (rewrite authorities_fst; apply NoDup_fmap_2; [apply _|apply NoDup_seq]).
      rewrite Hl, fmap_app in Hnd. csimpl in Hnd. apply NoDup_app in Hnd as (_ & Hnd & _). apply (Hnd i Hin). left. }
    rewrite set_stake_insert by done. rewrite (N.add_comm (set_stake _ _)). apply wrap64_small.
    rewrite <-set_stake_insert by done. destruct (committee_ok_fields c Hc) as (_ & _ & _ & ? & _).
    assert (set_stake c ({[i]} ∪ list_to_set (filter (listens subs) pre.*1)) <= total_stake c); [|lia]. apply set_stake_le_total; [done|].
    intros j. rewrite elem_of_union, elem_of_singleton, elem_of_list_to_set, list_elem_of_filter, elem_of_all_indices.
    intros [->|[_ Hj]]; [done|]. apply list_elem_of_fmap in Hj as ([j' y] & -> & Hj). apply (authorities_valid c j' y). rewrite Hl. set_solver.
  - cbn. by rewrite set_stake_empty.
  - f_equal. f_equal. apply set_eq. intros i. unfold listeners. rewrite elem_of_list_to_set, list_elem_of_filter, elem_of_filter, authorities_fst.
    unfold all_indices. by rewrite elem_of_list_to_set.
Qed.

(** The streams that are open, one occurrence of the peer for each. *)
Fixpoint opened (open : gmultiset AuthorityIndex) (es : list subscription) : option (gmultiset AuthorityIndex) :=
  match es with
  | [] => Some open
  | Subscribe p :: es => opened (open ⊎ {[+ p +]}) es
  | Unsubscribe p :: es => if decide (p ∈ open) then opened (open ∖ {[+ p +]}) es else None
  end.

Definition peer_ok (p : AuthorityIndex) : Prop := is_valid_index c p ∧ p ≠ own_index ctx.

Record tracked (open : gmultiset AuthorityIndex) counter : Prop := {
  tr_length : length (sc_subscriptions_by_authority counter) = length (authorities_vec c);
  tr_streams i n : sc_subscriptions_by_authority counter !! i = Some n → n = N.of_nat (multiplicity (N.of_nat i) open);
  tr_count : sc_count counter = N.of_nat (size open);
  tr_peers p : p ∈ open → peer_ok p;
}.

Definition reached_by (open : gmultiset AuthorityIndex) : bool := reached_quorum c (set_stake c ({[own_index ctx]} ∪ dom open)).

Context (Hown : is_valid_index c (own_index ctx)).

Lemma valid_lt i : is_valid_index c i → (N.to_nat i < length (authorities_vec c))%nat.
Proof. unfold is_valid_index, committee_size. rewrite Is_true_true, N.ltb_lt. lia. Qed.

Lemma tracked_lookup open counter p : tracked open counter → is_valid_index c p →
  sc_subscriptions_by_authority counter !! N.to_nat p = Some (N.of_nat (multiplicity p open)).
Proof.
  intros Ht Hp. destruct (lookup_lt_is_Some_2 (sc_subscriptions_by_authority counter) (N.to_nat p)) as [n Hn].
  { rewrite (tr_length _ _ Ht). by apply valid_lt. }
  rewrite Hn. f_equal. rewrite (tr_streams _ _ Ht _ _ Hn). by rewrite N2Nat.id.
Qed.

Lemma listeners_tracked open counter : tracked open counter → listeners (sc_subscriptions_by_authority counter) = {[own_index ctx]} ∪ dom open.
Proof.
  intros Ht. apply set_eq. intros i. unfold listeners. rewrite elem_of_filter, elem_of_all_indices, elem_of_union, elem_of_singleton, gmultiset_elem_of_dom.
  unfold listens, subscriptions. split.
  - intros [[Hn| ->] Hi]; [|by left]. right. rewrite (tracked_lookup _ _ _ Ht Hi) in Hn. cbn [from_option id] in Hn. apply elem_of_multiplicity. lia.
  - intros [->|Hi]; [by split; [right|]|]. destruct (tr_peers _ _ Ht i Hi) as [Hv _]. split; [|done]. left.
    rewrite (tracked_lookup _ _ _ Ht Hv). cbn [from_option id]. rewrite elem_of_multiplicity in Hi. lia.
Qed.

Lemma tracked_stake open counter : tracked open counter →
  subscribed_stake ctx (sc_subscriptions_by_authority counter) = Ret (set_stake c ({[own_index ctx]} ∪ dom open)).
Proof. intros Ht. rewrite subscribed_stake_ret by apply Ht. by rewrite (listeners_tracked _ _ Ht). Qed.

(** Writing the new number of streams of a peer. *)
Lemma tracked_set open open' counter p n : tracked open counter → peer_ok p → n = N.of_nat (size open') →
  (∀ q, q ≠ p → multiplicity q open' = multiplicity q open) →
  tracked open' (mk_counter n (<[N.to_nat p := N.of_nat (multiplicity p open')]> (sc_subscriptions_by_authority counter))).
Proof.
  intros Ht Hp -> Hq. split; cbn.
  - rewrite length_insert. apply Ht.
  - intros i m. destruct (decide (i = N.to_nat p)) as [->|Hne].
    + rewrite list_lookup_insert_eq by (rewrite (tr_length _ _ Ht); apply valid_lt, Hp). intros [= <-]. by rewrite N2Nat.id.
    + rewrite list_lookup_insert_ne by done. intros Hm. rewrite (tr_streams _ _ Ht _ _ Hm), Hq; [done|]. lia.
  - done.
  - intros q Hin. destruct (decide (q = p)) as [->|Hne]; [done|]. apply (tr_peers _ _ Ht). apply elem_of_multiplicity. rewrite <-Hq by done. by apply elem_of_multiplicity.
Qed.

Lemma stake_small X : X ⊆ all_indices c → set_stake c X < U64_MOD.
Proof. intros HX. pose proof (set_stake_le_total c Hc X HX). destruct (committee_ok_fields c Hc) as (_ & _ & _ & ? & _). lia. Qed.

Lemma listeners_valid open counter : tracked open counter → {[own_index ctx]} ∪ dom open ⊆ all_indices c.
Proof.
  intros Ht i. rewrite elem_of_union, elem_of_singleton, gmultiset_elem_of_dom, elem_of_all_indices. intros [->|Hi]; [done|]. by apply (tr_peers _ _ Ht).
Qed.

(** The thread is told nothing, or the new answer. *)
Definition informed ct ct' : Prop := ∃ w, ct' = ct_set_subscribers ct w.
Definition told ct : bool := watch_value (ct_quorum_subscribers_exists ct).

Lemma informed_refl ct : informed ct ct.
Proof. exists (ct_quorum_subscribers_exists ct). by destruct ct. Qed.

Lemma informed_trans ct ct1 ct2 : informed ct ct1 → informed ct1 ct2 → informed ct ct2.
Proof. intros [w ->] [w' ->]. by exists w'. Qed.

(** Telling the thread about a change, or keeping quiet when there is none. *)
Lemma notify_told ct (old new : bool) (b : bool) counter : ct_running ct = true → b = new ∨ old = new →
  ∃ ct', (if negb (eqb old new) then let '(ct, r) := notify_subscribers ct b in Ret (counter, ct, r) else Ret (counter, ct, Ok tt)) =
      Ret (counter, ct', Ok tt : ConsensusResult unit) ∧ informed ct ct' ∧ ct_running ct' = true ∧
      told ct' = if eqb old new then told ct else new.
Proof.
  intros Hrun Hb. destruct (eqb old new) eqn:He; cbn [negb].
  - exists ct. split_and!; [done|apply informed_refl|done..].
  - destruct Hb as [->| ->]; [|by rewrite eqb_reflx in He]. unfold notify_subscribers, dispatch_set_quorum_subscribers_exists. rewrite Hrun.
    eexists. split; [done|]. split; [by eexists|done].
Qed.

Lemma multiplicity_size (open : gmultiset AuthorityIndex) p : (multiplicity p open <= size open)%nat.
Proof.
  assert (multiplicity p open *: ({[+ p +]} : gmultiset N) ⊆ open) as Hs%gmultiset_subseteq_size.
  { intros x. rewrite multiplicity_scalar_mul, multiplicity_singleton. case_decide; subst; lia. }
  rewrite gmultiset_size_scalar_mul, gmultiset_size_singleton in Hs. lia.
Qed.

Lemma reached_mono X Y : X ⊆ Y → reached_quorum c (set_stake c X) = true → reached_quorum c (set_stake c Y) = true.
Proof. unfold reached_quorum. rewrite !N.leb_le. intros HX%(set_stake_mono c). lia. Qed.

(** The listeners when a peer opens or closes a stream. *)
Lemma listeners_added (open : gmultiset AuthorityIndex) p : p ≠ own_index ctx → p ∉ open →
  set_stake c ({[own_index ctx]} ∪ dom (open ⊎ {[+ p +]})) = stake_at c p + set_stake c ({[own_index ctx]} ∪ dom open).
Proof.
  intros Hpo Hp. rewrite <-set_stake_insert by (rewrite elem_of_union, elem_of_singleton, gmultiset_elem_of_dom; naive_solver).
  f_equal. apply set_eq. intros i. rewrite !elem_of_union, !elem_of_singleton, !gmultiset_elem_of_dom. multiset_solver.
Qed.

Lemma listeners_same (open : gmultiset AuthorityIndex) p : p ∈ open → dom (open ⊎ {[+ p +]}) = dom open.
Proof. intros Hp. apply set_eq. intros i. rewrite !gmultiset_elem_of_dom. multiset_solver. Qed.

(** What the thread knows after a change of the streams. *)
Definition retold ct (open open' : gmultiset AuthorityIndex) : bool :=
  if eqb (reached_by open) (reached_by open') then told ct else reached_by open'.

Lemma increment_ok open counter ct p : tracked open counter → peer_ok p → N.of_nat (size open) + 1 < U64_MOD →
  ct_running ct = true →
  ∃ counter' ct', increment ctx counter ct p = Ret (counter', ct', Ok tt) ∧ tracked (open ⊎ {[+ p +]}) counter' ∧
    informed ct ct' ∧ ct_running ct' = true ∧ told ct' = retold ct open (open ⊎ {[+ p +]}).
Proof.
  intros Ht [Hp Hpo] Hsz Hrun. unfold increment. fold c.
  pose proof (tracked_lookup _ _ _ Ht Hp) as Hl. rewrite (proj2 (vec_index_ret _ _ _) Hl). cbn [mbind outcome_bind].
  pose proof (multiplicity_size open p) as Hmle. set (open' := open ⊎ {[+ p +]}).
  rewrite (proj2 (vec_set_ret _ _ _ _) (conj (lookup_lt_Some _ _ _ Hl) eq_refl)). cbn [mbind outcome_bind].
  assert (multiplicity p open' = S (multiplicity p open)) as Hm' by (unfold open'; rewrite multiplicity_disj_union, multiplicity_singleton_eq; lia).
  assert (size open' = S (size open)) as Hs' by (unfold open'; rewrite gmultiset_size_disj_union, gmultiset_size_singleton; lia).
  rewrite (tr_count _ _ Ht), !wrap64_small by lia.
  replace (N.of_nat (multiplicity p open) + 1) with (N.of_nat (multiplicity p open')) by lia.
  assert (tracked open' (mk_counter (N.of_nat (size open) + 1) (<[N.to_nat p := N.of_nat (multiplicity p open')]> (sc_subscriptions_by_authority counter)))) as Ht'.
  { apply (tracked_set open); [done|done|lia|]. intros q Hq. unfold open'. rewrite multiplicity_disj_union, multiplicity_singleton_ne by done. lia. }
  pose proof (tracked_stake _ _ Ht') as Hst. cbn [sc_subscriptions_by_authority] in Hst. rewrite Hst. cbn [mbind outcome_bind].
  pose proof (stake_small _ (listeners_valid _ _ Ht')) as Hsmall.
  set (total := set_stake c ({[own_index ctx]} ∪ dom open')) in *. set (prev := set_stake c ({[own_index ctx]} ∪ dom open)) in *.
  assert ((if N.of_nat (multiplicity p open) =? 0 then s ← committee_stake c p; Ret (total -64 s) else Ret total) = Ret prev) as ->.
  { destruct (N.eqb_spec (N.of_nat (multiplicity p open)) 0) as [Hz|Hz].
    - rewrite committee_stake_ret by done. cbn [mbind outcome_bind]. f_equal. pose proof (listeners_added open p Hpo) as Heq.
      fold open' total prev in Heq. assert (p ∉ open) as Hn by (rewrite elem_of_multiplicity; lia). specialize (Heq Hn). rewrite wrap64_sub by lia. lia.
    - unfold total, prev, open'. rewrite listeners_same; [done|]. rewrite elem_of_multiplicity. lia. }
  cbn [mbind outcome_bind]. destruct (authority_ret c p Hp) as [au ->]. cbn [mbind outcome_bind].
  assert (reached_quorum c prev = true → reached_quorum c total = true) as Hmono.
  { apply reached_mono. intros i. rewrite !elem_of_union, !gmultiset_elem_of_dom. unfold open'. multiset_solver. }
  assert (negb (reached_quorum c prev) && reached_quorum c total = negb (eqb (reached_quorum c prev) (reached_quorum c total))) as ->.
  { destruct (reached_quorum c prev); [rewrite Hmono by done|]; by destruct (reached_quorum c total). }
  destruct (notify_told ct (reached_quorum c prev) (reached_quorum c total) true
    (mk_counter (N.of_nat (size open) + 1) (<[N.to_nat p := N.of_nat (multiplicity p open')]> (sc_subscriptions_by_authority counter)))) as (ct' & -> & Hi & Hr & Hto);
    [done|destruct (reached_quorum c prev); [right; by rewrite Hmono|]; destruct (reached_quorum c total); tauto|].
  by eexists _, ct'.
Qed.

Lemma decrement_ok open counter ct p : tracked (open ⊎ {[+ p +]}) counter → N.of_nat (size open) + 1 < U64_MOD →
  ct_running ct = true →
  ∃ counter' ct', decrement ctx counter ct p = Ret (counter', ct', Ok tt) ∧ tracked open counter' ∧
    informed ct ct' ∧ ct_running ct' = true ∧ told ct' = retold ct (open ⊎ {[+ p +]}) open.
Proof.
  intros Ht Hsz Hrun. destruct (tr_peers _ _ Ht p) as [Hp Hpo]; [multiset_solver|]. unfold decrement. fold c.
  pose proof (tracked_lookup _ _ _ Ht Hp) as Hl. rewrite (proj2 (vec_index_ret _ _ _) Hl). cbn [mbind outcome_bind].
  pose proof (multiplicity_size open p) as Hmle. set (open' := open ⊎ {[+ p +]}) in *.
  rewrite (proj2 (vec_set_ret _ _ _ _) (conj (lookup_lt_Some _ _ _ Hl) eq_refl)). cbn [mbind outcome_bind].
  assert (multiplicity p open' = S (multiplicity p open)) as Hm' by (unfold open'; rewrite multiplicity_disj_union, multiplicity_singleton_eq; lia).
  assert (size open' = S (size open)) as Hs' by (unfold open'; rewrite gmultiset_size_disj_union, gmultiset_size_singleton; lia).
  rewrite (tr_count _ _ Ht), !wrap64_sub by lia.
  replace (N.of_nat (multiplicity p open') - 1) with (N.of_nat (multiplicity p open)) by lia.
  replace (N.of_nat (size open') - 1) with (N.of_nat (size open)) by lia.
  set (counter' := mk_counter (N.of_nat (size open)) (<[N.to_nat p := N.of_nat (multiplicity p open)]> (sc_subscriptions_by_authority counter))).
  assert (tracked open counter') as Ht'.
  { apply (tracked_set open'); [done|done|lia|]. intros q Hq. unfold open'. rewrite multiplicity_disj_union, multiplicity_singleton_ne by done. lia. }
  pose proof (tracked_stake _ _ Ht') as Hst. cbn [counter' sc_subscriptions_by_authority] in Hst. rewrite Hst. cbn [mbind outcome_bind].
  pose proof (stake_small _ (listeners_valid _ _ Ht)) as Hsmall.
  set (prev := set_stake c ({[own_index ctx]} ∪ dom open')) in *. set (total := set_stake c ({[own_index ctx]} ∪ dom open)) in *.
  assert ((if N.of_nat (multiplicity p open') =? 1 then s ← committee_stake c p; Ret (total +64 s) else Ret total) = Ret prev) as ->.
  { destruct (N.eqb_spec (N.of_nat (multiplicity p open')) 1) as [Hz|Hz].
    - rewrite committee_stake_ret by done. cbn [mbind outcome_bind]. f_equal. pose proof (listeners_added open p Hpo) as Heq.
      fold open' total prev in Heq. assert (p ∉ open) as Hn by (rewrite elem_of_multiplicity; lia). specialize (Heq Hn). rewrite wrap64_small by lia. lia.
    - unfold total, prev, open'. rewrite listeners_same; [done|]. rewrite elem_of_multiplicity. lia. }
  pose proof (tracked_lookup _ _ _ Ht' Hp) as Hl'. cbn [counter' sc_subscriptions_by_authority] in Hl'. cbn [mbind outcome_bind].
  rewrite (proj2 (vec_index_ret _ _ _) Hl'). cbn [mbind outcome_bind].
  assert ((if N.of_nat (multiplicity p open) =? 0 then _ ← authority c p; Ret tt else Ret tt) = Ret tt) as ->.
  { destruct (_ =? 0); [|done]. by destruct (authority_ret c p Hp) as [au ->]. }
  cbn [mbind outcome_bind]. assert (reached_quorum c total = true → reached_quorum c prev = true) as Hmono.
  { apply reached_mono. intros i. rewrite !elem_of_union, !gmultiset_elem_of_dom. unfold open'. multiset_solver. }
  assert (reached_quorum c prev && negb (reached_quorum c total) = negb (eqb (reached_quorum c prev) (reached_quorum c total))) as ->.
  { destruct (reached_quorum c total); [rewrite Hmono by done|]; by destruct (reached_quorum c prev). }
  destruct (notify_told ct (reached_quorum c prev) (reached_quorum c total) false counter') as (ct' & -> & Hi & Hr & Hto);
    [done|destruct (reached_quorum c total); [right; by rewrite Hmono|]; destruct (reached_quorum c prev); tauto|].
  by eexists _, ct'.
Qed.

Definition event_ok (e : subscription) : Prop := match e with Subscribe p | Unsubscribe p => peer_ok p end.

(** What the thread knows while the streams [open] are open: nothing, if this
    authority is a quorum on its own. *)
Definition heard (open : gmultiset AuthorityIndex) : bool := negb (reached_by ∅) && reached_by open.

Lemma retold_heard ct open open' : told ct = heard open → retold ct open open' = heard open'.
Proof.
  intros Ht. unfold retold, heard in *. rewrite Ht. destruct (reached_by ∅) eqn:H0; cbn [negb andb].
  - assert (∀ o, reached_by o = true) as Hall; [|by rewrite !Hall].
    intros o. revert H0. apply reached_mono. intros i. rewrite !elem_of_union, !gmultiset_elem_of_dom. multiset_solver.
  - destruct (reached_by open), (reached_by open'); done.
Qed.

Lemma subscribe_all_ok es : ∀ open open' counter ct, tracked open counter → ct_running ct = true → told ct = heard open →
  Forall event_ok es → opened open es = Some open' → N.of_nat (size open) + N.of_nat (length es) < U64_MOD →
  ∃ counter' ct', foldM (subscribe ctx) (counter, ct) es = Ret (counter', ct') ∧ tracked open' counter' ∧ informed ct ct' ∧ told ct' = heard open'.
Proof.
  induction es as [|e es IH]; intros open open' counter ct Ht Hrun Htold Hes Ho Hsz; cbn [foldM opened] in Ho |- *.
  - injection Ho as <-. exists counter, ct. split_and!; [done..|apply informed_refl|done].
  - apply Forall_cons in Hes as [He Hes]. cbn [length] in Hsz.
    assert (∃ o1 counter1 ct1, opened o1 es = Some open' ∧ subscribe ctx (counter, ct) e = Ret (counter1, ct1) ∧ tracked o1 counter1 ∧
      informed ct ct1 ∧ ct_running ct1 = true ∧ told ct1 = heard o1 ∧ N.of_nat (size o1) + N.of_nat (length es) < U64_MOD)
      as (o1 & counter1 & ct1 & Ho1 & -> & Ht1 & Hi1 & Hr1 & Hto1 & Hs1).
    { destruct e as [p|p]; cbn [subscribe event_ok] in He |- *.
      - destruct (increment_ok open counter ct p Ht He) as (counter1 & ct1 & -> & ? & ? & ? & Hre); [lia|done|].
        exists (open ⊎ {[+ p +]}), counter1, ct1. rewrite Hre, (retold_heard ct open) by done.
        split_and!; try done. rewrite gmultiset_size_disj_union, gmultiset_size_singleton. lia.
      - destruct (decide (p ∈ open)) as [Hp|]; [|done]. set (o1 := open ∖ {[+ p +]}) in *.
        assert (open = o1 ⊎ {[+ p +]}) as Heq by (unfold o1; multiset_solver).
        assert (size open = S (size o1)) as Hso by (rewrite Heq, gmultiset_size_disj_union, gmultiset_size_singleton; lia).
        rewrite Heq in Ht, Htold. destruct (decrement_ok o1 counter ct p Ht) as (counter1 & ct1 & -> & ? & ? & ? & Hre); [lia|done|].
        exists o1, counter1, ct1. rewrite Hre, (retold_heard ct (o1 ⊎ {[+ p +]})) by done. split_and!; try done. lia. }
    cbn [mbind outcome_bind]. destruct (IH o1 open' counter1 ct1) as (counter' & ct' & -> & Ht' & Hi' & Hto'); try done.
    exists counter', ct'. split_and!; try done. by eapply informed_trans.
Qed.
End spec.

(** C22: what the Core thread knows of the subscribers.  When peers open and close
    block streams in any order, a stream being closed only after it was opened, the
    counter never fails, and it holds the number of open streams, in total and for
    every authority.  The last value that the Core thread was told, which starts as
    false, is whether this authority and the peers with an open stream together hold
    a quorum of the stake, provided that this authority is not a quorum on its own;
    if it is, the thread is never told that a quorum listens. *)
Theorem subscribers_tracked {St : Type} (ctx : Context) (ct : CoreThread St) (es : list subscription) (open : gmultiset AuthorityIndex) :
  let c := committee ctx in
  committee_ok c → is_valid_index c (own_index ctx) → ct_running ct = true → told ct = false →
  Forall (event_ok ctx) es → opened ∅ es = Some open → N.of_nat (length es) < U64_MOD →
  ∃ counter ct', foldM (subscribe ctx) (SubscriptionCounter_new ctx, ct) es = Ret (counter, ct') ∧
    sc_count counter = N.of_nat (size open) ∧
    (∀ p, is_valid_index c p → sc_subscriptions_by_authority counter !! N.to_nat p = Some (N.of_nat (multiplicity p open))) ∧
    informed ct ct' ∧
    told ct' = if reached_quorum c (stake_at c (own_index ctx)) then false else reached_quorum c (set_stake c ({[own_index ctx]} ∪ dom open)).
Proof.
  intros c Hc Hown Hrun Htold Hes Ho Hlen.
  assert (tracked ctx ∅ (SubscriptionCounter_new ctx)) as Ht.
  { split; cbn.
    - rewrite length_replicate. unfold committee_size. lia.
    - intros i n [-> _]%lookup_replicate. by rewrite multiplicity_empty.
    - done.
    - intros p. multiset_solver. }
  destruct (subscribe_all_ok ctx Hc Hown es ∅ open _ ct Ht Hrun) as (counter & ct' & Heq & Ht' & Hi & Hto); try done.
  { rewrite Htold. unfold heard. by destruct (reached_by ctx ∅). }
  exists counter, ct'. split; [done|]. split; [apply Ht'|]. split; [intros p Hp; by apply (tracked_lookup ctx open)|]. split; [done|].
  assert (reached_by ctx ∅ = reached_quorum c (stake_at c (own_index ctx))) as Hown0; [|rewrite Hto; unfold heard; rewrite Hown0; by destruct (reached_quorum c (stake_at _ _))].
  unfold reached_by. assert (dom (∅ : gmultiset N) = ∅) as -> by (apply set_eq; intros i; rewrite gmultiset_elem_of_dom; multiset_solver).
  rewrite (right_id_L ∅ (∪)). unfold set_stake. rewrite elements_singleton. csimpl. by rewrite N.add_0_r.
Qed.

Definition test_listened : CoreThread MemStore :=
  mk_core_thread test_core [] (mk_watch false false) (mk_watch (mk_propagation 0 [] []) false) (mk_watch 0 false) [0; 0; 0; 0] [] true true.

Lemma subscribers_tracked_witness : ∃ counter ct',
  foldM (subscribe (test_context 60)) (SubscriptionCounter_new (test_context 60), test_listened) [Subscribe 1; Subscribe 2; Subscribe 1; Unsubscribe 1] =
    Ret (counter, ct') ∧ sc_count counter = 2 ∧ told ct' = true.
Proof.
  destruct (subscribers_tracked (test_context 60) test_listened [Subscribe 1; Subscribe 2; Subscribe 1; Unsubscribe 1] ({[+ 1 +]} ⊎ {[+ 2 +]}))
    as (counter & ct' & Heq & Hn & _ & _ & Ht).
  - apply test_committee_ok.
  - done.
  - done.
  - done.
  - repeat constructor; vm_compute; congruence.
  - apply (bool_decide_unpack _). vm_compute. exact I.
  - done.
  - exists counter, ct'. split; [exact Heq|]. rewrite Hn, Ht. split; vm_compute; reflexivity.
Defined.
