(* ===== verification/CommitSyncer.v ===== *)
(** * CommitSyncer: importing certified commits from peers

    Models [verify_commits], [fetch_once] and [fetch_loop] of
    [consensus/core/src/commit_syncer.rs].  What a peer answers is an argument:
    any bytes at all.  Decoding with bcs is third-party code, the class
    [BcsDecode].  The waiting of [fetch_once] (pipelined requests, blocks from
    the future) and its metrics change no state and are left out. *)
From S2P Require Import Prelude Committee Block StakeAggregator Commit Error BlockVerifier ScoringMetrics.
Local Open Scope N_scope.
Local Open Scope rust_scope.

(** [[T]::chunks]; [fuel] is the length of the list. *)
Fixpoint chunks_loop {A} (fuel : nat) (n : nat) (l : list A) : list (list A) :=
  match fuel, l with
  | S fuel, _ :: _ => take n l :: chunks_loop fuel n (drop n l)
  | _, _ => []
  end.

Definition chunks {A} (n : N) (l : list A) : outcome (list (list A)) :=
  if n =? 0 then Panic "chunk size must be non-zero"
  else Ret (chunks_loop (length l) (N.to_nat n) l).

Section syncer.
Context `{Crypto} `{BcsDecode} (verify_batch : list bytes → result unit string).

(** ** [Inner::verify_commits] *)

(** Parsing: the commits start at the start of the range, follow each other by
    index and digest, and stop at the end of the range. *)
Fixpoint parse_commits (peer : AuthorityIndex) (commit_range : CommitRange)
    (commits : list (CommitDigest * Commit)) (serialized_commits : list bytes)
    : ConsensusResult (list (CommitDigest * Commit)) :=
  match serialized_commits with
  | [] => Ok commits
  | serialized :: rest =>
    match decode_commit serialized with
    | None => Err MalformedCommit
    | Some commit =>
      let digest := hash_function serialized in
      let continue :=
        if range_end commit_range <? commit_index commit then Ok commits
        else parse_commits peer commit_range (commits ++ [(digest, commit)]) rest in
      match last commits with
      | None =>
        if negb (commit_index commit =? range_start commit_range)
        then Err (UnexpectedStartCommit peer (range_start commit_range) commit) else continue
      | Some (last_commit_digest, last_commit) =>
        if negb (commit_index commit =? commit_index last_commit +32 1)
           || negb (previous_digest commit =? last_commit_digest)
        then Err (UnexpectedCommitSequence peer last_commit commit) else continue
      end
    end
  end.

Record VoteCount := mk_vote_count {
  vc_stake_aggregator : StakeAggregator QuorumThreshold;
  vc_vote_blocks : list VerifiedBlock;
}.

(** The votes of one block on the end commit. *)
Definition count_vote (c : Committee) (end_commit_ref : CommitRef) (b : SignedBlock)
    (agg : StakeAggregator QuorumThreshold) (vote : CommitVote) : outcome (StakeAggregator QuorumThreshold) :=
  if decide (vote = end_commit_ref) then fst <$> add agg (author b) c else Ret agg.

Definition count_votes (c : Committee) (end_commit_ref : CommitRef) (b : SignedBlock)
    (agg : StakeAggregator QuorumThreshold) : outcome (StakeAggregator QuorumThreshold) :=
  foldM (count_vote c end_commit_ref b) agg (commit_votes b).

Fixpoint verify_votes (v : SignedBlockVerifier) (end_commit_ref : CommitRef) (vc : VoteCount)
    (serialized_vote_blocks : list bytes) : outcome (ConsensusResult VoteCount) :=
  match serialized_vote_blocks with
  | [] => Ret (Ok vc)
  | serialized :: rest =>
    match decode_signed_block serialized with
    | None => Ret (Err MalformedBlock)
    | Some block =>
      r ← verify verify_batch v block;
      try r (λ _,
        agg ← count_votes (committee (verifier_context v)) end_commit_ref block (vc_stake_aggregator vc);
        verify_votes v end_commit_ref
          (mk_vote_count agg (vc_vote_blocks vc ++ [new_verified block serialized])) rest)
    end
  end.

Definition verify_commits (v : SignedBlockVerifier) (peer : AuthorityIndex) (commit_range : CommitRange)
    (serialized_commits serialized_vote_blocks : list bytes)
    : outcome (ConsensusResult (list TrustedCommit * list VerifiedBlock)) :=
  try (parse_commits peer commit_range [] serialized_commits) (λ commits,
    match last commits with
    | None => Ret (Err (NoCommitReceived peer))
    | Some (end_commit_digest, end_commit) =>
      let end_commit_ref := mk_commit_ref (commit_index end_commit) end_commit_digest in
      r ← verify_votes v end_commit_ref (mk_vote_count StakeAggregator_new []) serialized_vote_blocks;
      try r (λ vc,
        if negb (reached_threshold (vc_stake_aggregator vc) (committee (verifier_context v)))
        then Ret (Err (NotEnoughCommitVotes (agg_stake (vc_stake_aggregator vc)) peer end_commit))
        else Ret (Ok ((λ '((_, c), s), new_trusted c s) <$> zip commits serialized_commits,
                      vc_vote_blocks vc)))
    end).

(** ** [CommitSyncer::fetch_once] *)

(** Steps 5 to 7 on the answer to one request for blocks. *)
Fixpoint match_blocks (peer : AuthorityIndex) (answer : list (BlockRef * (SignedBlock * bytes)))
    : ConsensusResult (list VerifiedBlock) :=
  match answer with
  | [] => Ok []
  | (requested, (signed, serialized)) :: rest =>
    let received := mk_ref (round signed) (author signed) (compute_digest serialized) in
    if decide (requested = received) then
      match match_blocks peer rest with
      | Ok blocks => Ok (new_verified signed serialized :: blocks)
      | Err e => Err e
      end
    else Err (UnexpectedBlockForCommit peer requested received)
  end.

Definition fetch_chunk (peer : AuthorityIndex) (request : list BlockRef)
    (response : ConsensusResult (list bytes)) : ConsensusResult (list VerifiedBlock) :=
  match response with
  | Err e => Err e
  | Ok serialized_blocks =>
    if negb (N.of_nat (length request) =? N.of_nat (length serialized_blocks))
    then Err (UnexpectedNumberOfBlocksFetched peer (N.of_nat (length request)) (N.of_nat (length serialized_blocks)))
    else match mapM decode_signed_block serialized_blocks with
         | None => Err MalformedBlock
         | Some signed_blocks => match_blocks peer (zip request (zip signed_blocks serialized_blocks))
         end
  end.

(** The answers are awaited in the order of the requests. *)
Fixpoint collect_blocks (fetched_blocks : gmap BlockRef VerifiedBlock)
    (results : list (ConsensusResult (list VerifiedBlock))) : ConsensusResult (gmap BlockRef VerifiedBlock) :=
  match results with
  | [] => Ok fetched_blocks
  | Err e :: _ => Err e
  | Ok blocks :: rest =>
    collect_blocks (foldl (λ m b, <[reference b := b]> m) fetched_blocks blocks) rest
  end.

(** Step 9: each commit takes its blocks out of what was fetched. *)
Fixpoint take_blocks (fetched_blocks : gmap BlockRef VerifiedBlock) (refs : list BlockRef)
    : outcome (gmap BlockRef VerifiedBlock * list VerifiedBlock) :=
  match refs with
  | [] => Ret (fetched_blocks, [])
  | r :: refs =>
    b ← expect (fetched_blocks !! r) "Block should exist";
    '(fetched_blocks, bs) ← take_blocks (delete r fetched_blocks) refs;
    Ret (fetched_blocks, b :: bs)
  end.

Fixpoint certify (fetched_blocks : gmap BlockRef VerifiedBlock) (commits : list TrustedCommit)
    : outcome (list CertifiedCommit) :=
  match commits with
  | [] => Ret []
  | commit :: commits =>
    '(fetched_blocks, blocks) ← take_blocks fetched_blocks (commit_blocks commit);
    rest ← certify fetched_blocks commits;
    Ret (new_certified commit blocks :: rest)
  end.

(** [fetch_commits] is the peer's answer to the request for commits and
    [fetch_blocks] its answers to the requests for blocks, by position.
    [fetch_loop] takes the peers from the committee, so looking up the peer's
    hostname for the metrics, which comes first, does not fail; it is left out. *)
Definition fetch_once (v : SignedBlockVerifier) (max_blocks_per_fetch : N) (target_authority : AuthorityIndex)
    (commit_range : CommitRange) (fetch_commits : ConsensusResult (list bytes * list bytes))
    (fetch_blocks : N → list BlockRef → ConsensusResult (list bytes))
    : outcome (ConsensusResult CertifiedCommits) :=
  try fetch_commits (λ '(serialized_commits, serialized_blocks),
    r ← verify_commits v target_authority commit_range serialized_commits serialized_blocks;
    try r (λ '(commits, vote_blocks),
      requests ← chunks max_blocks_per_fetch (commits ≫= λ c : TrustedCommit, commit_blocks c);
      try (collect_blocks ∅ ((λ '(i, request), fetch_chunk target_authority request (fetch_blocks i request))
                               <$> enumerate requests)) (λ fetched_blocks,
        certified ← certify fetched_blocks commits;
        Ret (Ok (mk_certified_commits certified vote_blocks))))).

(** ** [CommitSyncer::fetch_loop] *)

(** One attempt: the peer does not answer in time, or it answers. *)
Inductive Attempt :=
| TimedOut
| Answered (fetch_commits : ConsensusResult (list bytes * list bytes))
    (fetch_blocks : N → list BlockRef → ConsensusResult (list bytes)).

(** The attempts in the order the shuffled rounds over the other authorities
    make them, until one succeeds.  A failed attempt is charged to the peer. *)
Fixpoint fetch_loop (v : SignedBlockVerifier) (max_blocks_per_fetch : N) (commit_range : CommitRange)
    (store : MysticetiScoringMetricsStore) (attempts : list (AuthorityIndex * Attempt))
    : outcome (MysticetiScoringMetricsStore * option (AuthorityIndex * CommitIndex * CertifiedCommits)) :=
  match attempts with
  | [] => Ret (store, None)
  | (a, TimedOut) :: rest => fetch_loop v max_blocks_per_fetch commit_range store rest
  | (a, Answered fetch_commits fetch_blocks) :: rest =>
    r ← fetch_once v max_blocks_per_fetch a commit_range fetch_commits fetch_blocks;
    match r : ConsensusResult CertifiedCommits with
    | Ok commits => Ret (store, Some (a, range_end commit_range, commits))
    | Err e =>
      store ← update_scoring_metrics_on_block_receival store a e SrcCommitSyncer;
      fetch_loop v max_blocks_per_fetch commit_range store rest
    end
  end.
End syncer.

(** ** What a valid answer is *)
Section specification.
Context `{Crypto} `{BcsDecode} (verify_batch : list bytes → result unit string).

(** The commit that may come after the parsed commits [l]. *)
Definition follows (commit_range : CommitRange) (l : list (bytes * Commit)) (c : Commit) : Prop :=
  match last l with
  | None => commit_index c = range_start commit_range
  | Some (s', c') => commit_index c = commit_index c' +32 1 ∧ previous_digest c = hash_function s'
  end.

(** Bytes and commits that start at the start of the range and are chained. *)
Inductive parsed (commit_range : CommitRange) : list (bytes * Commit) → Prop :=
| parsed_nil : parsed commit_range []
| parsed_snoc l s c :
    parsed commit_range l → decode_commit s = Some c → follows commit_range l c →
    commit_index c <= range_end commit_range → parsed commit_range (l ++ [(s, c)]).

Definition with_digests (l : list (bytes * Commit)) : list (CommitDigest * Commit) :=
  (λ '(s, c), (hash_function s, c)) <$> l.

(** What is wrong with the bytes [s] that come after the parsed commits [l]. *)
Definition parse_defect (peer : AuthorityIndex) (commit_range : CommitRange) (l : list (bytes * Commit))
    (s : bytes) (e : ConsensusError) : Prop :=
  match e with
  | MalformedCommit => decode_commit s = None
  | UnexpectedStartCommit p start c =>
    p = peer ∧ start = range_start commit_range ∧ l = [] ∧ decode_commit s = Some c ∧ commit_index c ≠ start
  | UnexpectedCommitSequence p prev c =>
    p = peer ∧ decode_commit s = Some c ∧ (∃ s', last l = Some (s', prev)) ∧ ¬ follows commit_range l c
  | _ => False
  end.

(** The authors of the blocks that vote for a commit. *)
Definition voters (r : CommitRef) (bs : list SignedBlock) : gset AuthorityIndex :=
  list_to_set ((λ b : SignedBlock, author b) <$> filter (λ b : SignedBlock, r ∈ commit_votes b) bs).

(** What is wrong with a vote block. *)
Definition vote_defect (v : SignedBlockVerifier) (s : bytes) (e : ConsensusError) : Prop :=
  (decode_signed_block s = None ∧ e = MalformedBlock) ∨
  ∃ b, decode_signed_block s = Some b ∧ ¬ valid_block verify_batch v b ∧ verify verify_batch v b = Ret (Err e).

(** The vote blocks [bs] decoded from the bytes [ss]. *)
Definition valid_votes (v : SignedBlockVerifier) (ss : list bytes) (bs : list SignedBlock) : Prop :=
  Forall2 (λ s b, decode_signed_block s = Some b ∧ valid_block verify_batch v b) ss bs.

Lemma last_with_digests l :
  last (with_digests l) = (λ '(s, c), (hash_function s, c)) <$> last l.
Proof. apply fmap_last. Qed.

Lemma with_digests_snoc l s c : with_digests (l ++ [(s, c)]) = with_digests l ++ [(hash_function s, c)].
Proof. unfold with_digests. by rewrite fmap_app. Qed.

(** Why parsing stopped before the bytes [rest]: there are none, or the next
    commit is past the end of the range. *)
Definition stopped (rg : CommitRange) (l : list (bytes * Commit)) (rest : list bytes) : Prop :=
  match rest with
  | [] => True
  | s :: _ => ∃ c, decode_commit s = Some c ∧ follows rg l c ∧ range_end rg < commit_index c
  end.

(** Parsing extends what is parsed by a prefix of the bytes, or names a defect. *)
Lemma parse_commits_spec peer rg ss : ∀ l0, parsed rg l0 →
  match parse_commits peer rg (with_digests l0) ss with
  | Ok out => ∃ l1 rest, ss = l1.*1 ++ rest ∧ out = with_digests (l0 ++ l1) ∧ parsed rg (l0 ++ l1) ∧ stopped rg (l0 ++ l1) rest
  | Err e => ∃ l1 s rest, ss = l1.*1 ++ s :: rest ∧ parsed rg (l0 ++ l1) ∧ parse_defect peer rg (l0 ++ l1) s e
  end.
Proof.
  induction ss as [|s ss IH]; intros l0 Hl0; cbn [parse_commits].
  { exists [], []. by rewrite !app_nil_r. }
  destruct (decode_commit s) as [c|] eqn:Hd; [|exists [], s, ss; by rewrite app_nil_r].
  assert (follows rg l0 c → match (if range_end rg <? commit_index c then Ok (with_digests l0)
      else parse_commits peer rg (with_digests l0 ++ [(hash_function s, c)]) ss) with
    | Ok out => ∃ l1 rest, s :: ss = l1.*1 ++ rest ∧ out = with_digests (l0 ++ l1) ∧ parsed rg (l0 ++ l1) ∧ stopped rg (l0 ++ l1) rest
    | Err e => ∃ l1 s0 rest, s :: ss = l1.*1 ++ s0 :: rest ∧ parsed rg (l0 ++ l1) ∧ parse_defect peer rg (l0 ++ l1) s0 e
    end) as Hcont.
  { intros Hf. destruct (N.ltb_spec (range_end rg) (commit_index c)) as [Hend|Hend].
    { exists [], (s :: ss). rewrite app_nil_r. split_and!; try done. by exists c. }
    specialize (IH (l0 ++ [(s, c)]) (parsed_snoc rg l0 s c Hl0 Hd Hf Hend)).
    rewrite with_digests_snoc in IH. destruct (parse_commits _ _ _ _) as [out|e].
    - destruct IH as (l1 & rest & -> & -> & Hp & Hstop). exists ((s, c) :: l1), rest.
      rewrite <-app_assoc in *. done.
    - destruct IH as (l1 & s0 & rest & -> & Hp & He). exists ((s, c) :: l1), s0, rest.
      rewrite <-app_assoc in *. done. }
  rewrite last_with_digests. unfold follows in Hcont. destruct (last l0) as [[s' c']|] eqn:Hlast; simpl.
  - destruct (N.eqb_spec (commit_index c) (commit_index c' +32 1)), (N.eqb_spec (previous_digest c) (hash_function s'));
      simpl; [by apply Hcont|..];
      (exists [], s, ss; rewrite app_nil_r; unfold parse_defect, follows; rewrite Hlast; naive_solver).
  - destruct (N.eqb_spec (commit_index c) (range_start rg)); simpl; [by apply Hcont|].
    exists [], s, ss. rewrite app_nil_r. apply last_None in Hlast as ->. naive_solver.
Qed.

(** Chained bytes are all accepted. *)
Lemma parse_commits_complete peer rg l : parsed rg l → ∀ ss,
  parse_commits peer rg [] (l.*1 ++ ss) = parse_commits peer rg (with_digests l) ss.
Proof.
  induction 1 as [|l s c Hl IH Hd Hf Hend]; intros ss; [done|].
  rewrite fmap_app, <-app_assoc, IH. simpl. rewrite Hd, last_with_digests. unfold follows in Hf.
  assert (range_end rg <? commit_index c = false) as -> by (by apply N.ltb_ge).
  rewrite with_digests_snoc. destruct (last l) as [[s' c']|]; simpl.
  - destruct Hf as [-> ->]. by rewrite !N.eqb_refl.
  - by rewrite Hf, N.eqb_refl.
Qed.

(** ** Counting the votes *)

Lemma count_votes_spec c r (b : SignedBlock) agg :
  committee_ok c → agg_ok c agg → is_valid_index c (author b) →
  ∃ agg', count_votes c r b agg = Ret agg' ∧ agg_ok c agg' ∧
    votes agg' = votes agg ∪ (if decide (r ∈ commit_votes b) then {[author b]} else ∅).
Proof.
  intros Hc Hagg Hb. unfold count_votes. revert agg Hagg.
  induction (commit_votes b) as [|vote vs IH]; intros agg Hagg; cbn [foldM].
  { exists agg. rewrite decide_False by set_solver. split_and!; [done|done|set_solver]. }
  unfold count_vote at 2. destruct (decide (vote = r)) as [Hv|Hv].
  - destruct (add_spec c Hc agg (author b) Hagg Hb) as (a1 & -> & Hv1 & Ha1). simpl.
    destruct (IH a1 Ha1) as (a2 & -> & Ha2 & Hv2). exists a2. split_and!; try done.
    rewrite Hv2, Hv1. rewrite (decide_True (P := r ∈ vote :: vs)) by set_solver. case_decide; set_solver.
  - simpl. destruct (IH agg Hagg) as (a2 & -> & Ha2 & Hv2). exists a2. split_and!; try done.
    rewrite Hv2. destruct (decide (r ∈ vs)); [rewrite decide_True by set_solver|rewrite decide_False by set_solver]; done.
Qed.

Lemma voters_cons r (b : SignedBlock) bs :
  voters r (b :: bs) = (if decide (r ∈ commit_votes b) then {[author b]} else ∅) ∪ voters r bs.
Proof. unfold voters. rewrite filter_cons. case_decide; set_solver. Qed.

Lemma elem_of_voters r bs i :
  i ∈ voters r bs ↔ ∃ b : SignedBlock, b ∈ bs ∧ r ∈ commit_votes b ∧ author b = i.
Proof.
  unfold voters. rewrite elem_of_list_to_set, list_elem_of_fmap. setoid_rewrite list_elem_of_filter. naive_solver.
Qed.

Lemma verify_votes_spec v r ss : committee_ok (committee (verifier_context v)) → ∀ vc,
  agg_ok (committee (verifier_context v)) (vc_stake_aggregator vc) →
  ∃ res, verify_votes verify_batch v r vc ss = Ret res ∧
  match res with
  | Ok vc' => ∃ bs, valid_votes v ss bs ∧ agg_ok (committee (verifier_context v)) (vc_stake_aggregator vc') ∧
      votes (vc_stake_aggregator vc') = votes (vc_stake_aggregator vc) ∪ voters r bs ∧
      vc_vote_blocks vc' = vc_vote_blocks vc ++ zip_with new_verified bs ss
  | Err e => ∃ s, s ∈ ss ∧ vote_defect v s e
  end.
Proof.
  intros Hc. induction ss as [|s ss IH]; intros vc Hagg; cbn [verify_votes].
  { eexists; split; [done|]. exists []. rewrite app_nil_r. split_and!; [constructor|done|set_solver|done]. }
  destruct (decode_signed_block s) as [b|] eqn:Hd;
    [|eexists; split; [done|]; exists s; split; [left|by left]].
  destruct (verify_spec verify_batch v b Hc) as (rv & Hrv & Hvalid). rewrite Hrv. simpl.
  destruct rv as [[]|e]; simpl.
  - assert (valid_block verify_batch v b) as Hvb by (by apply Hvalid).
    destruct (count_votes_spec (committee (verifier_context v)) r b (vc_stake_aggregator vc) Hc Hagg)
      as (agg' & -> & Hagg' & Hv'); [by destruct Hvb|]. simpl.
    destruct (IH (mk_vote_count agg' (vc_vote_blocks vc ++ [new_verified b s])) Hagg') as (res & -> & Hres).
    exists res. split; [done|]. destruct res as [vc'|e].
    + destruct Hres as (bs & Hbs & Hok & Hvs & Hblocks). exists (b :: bs). split_and!; [by constructor|done| |].
      * rewrite Hvs. simpl. rewrite Hv', voters_cons. set_solver.
      * rewrite Hblocks. simpl. by rewrite <-app_assoc.
    + destruct Hres as (s' & Hin & Hdef). exists s'. split; [by right|done].
  - eexists; split; [done|]. exists s. split; [left|]. right. exists b. split_and!; try done.
    intros Hvb. by apply Hvalid in Hvb.
Qed.

(** ** The whole answer *)

(** What [verify_commits] returns for an answer it accepts. *)
Definition trusted (l : list (bytes * Commit)) : list TrustedCommit := (λ '(s, c), new_trusted c s) <$> l.

Record accepted (v : SignedBlockVerifier) (rg : CommitRange) (ss vs : list bytes)
    (l : list (bytes * Commit)) (bs : list SignedBlock) : Prop := {
  ac_parsed : parsed rg l;
  ac_prefix : l.*1 `prefix_of` ss;
  ac_votes : valid_votes v vs bs;
  ac_quorum : ∃ s c, last l = Some (s, c) ∧
    reached_quorum (committee (verifier_context v))
      (set_stake (committee (verifier_context v)) (voters (mk_commit_ref (commit_index c) (hash_function s)) bs));
}.

(** What is wrong with an answer that is rejected with [e]. *)
Definition defect (v : SignedBlockVerifier) (peer : AuthorityIndex) (rg : CommitRange) (ss vs : list bytes)
    (e : ConsensusError) : Prop :=
  (∃ l s rest, ss = l.*1 ++ s :: rest ∧ parsed rg l ∧ parse_defect peer rg l s e) ∨
  (e = NoCommitReceived peer ∧ (ss = [] ∨ range_end rg < range_start rg)) ∨
  (∃ s, s ∈ vs ∧ vote_defect v s e) ∨
  (∃ l s c bs, parsed rg l ∧ l.*1 `prefix_of` ss ∧ last l = Some (s, c) ∧ valid_votes v vs bs ∧
    let c' := committee (verifier_context v) in
    let stake := set_stake c' (voters (mk_commit_ref (commit_index c) (hash_function s)) bs) in
    e = NotEnoughCommitVotes stake peer c ∧ stake < quorum_threshold c').

Lemma zip_with_digests l ss :
  l.*1 `prefix_of` ss → (λ '((_, c), s), new_trusted c s) <$> zip (with_digests l) ss = trusted l.
Proof.
  intros [rest ->]. revert rest. induction l as [|[s c] l IH]; intros rest; [done|].
  simpl. unfold trusted in *. simpl. f_equal. apply IH.
Qed.

Lemma verify_commits_spec v peer rg ss vs : committee_ok (committee (verifier_context v)) →
  ∃ r, verify_commits verify_batch v peer rg ss vs = Ret r ∧
  match r with
  | Ok (ts, vbs) => ∃ l bs, accepted v rg ss vs l bs ∧ ts = trusted l ∧ vbs = zip_with new_verified bs vs
  | Err e => defect v peer rg ss vs e
  end.
Proof.
  intros Hc. pose proof (parse_commits_spec peer rg ss [] (parsed_nil rg)) as Hp. unfold verify_commits.
  change (with_digests []) with (@nil (N * Commit)) in Hp.
  destruct (parse_commits peer rg [] ss) as [out|e]; simpl;
    [|eexists; split; [done|]; left; exact Hp].
  destruct Hp as (l & rest & Hss & -> & Hl & Hstop). simpl in Hl, Hstop. change ([] ++ l) with l. rewrite last_with_digests.
  assert (l.*1 `prefix_of` ss) as Hpre by (by exists rest).
  destruct (last l) as [[s c]|] eqn:Hlast; simpl.
  - destruct (verify_votes_spec v (mk_commit_ref (commit_index c) (hash_function s)) vs Hc
      (mk_vote_count StakeAggregator_new [])) as (res & -> & Hres); [apply agg_ok_new|]. simpl.
    destruct res as [vc|e]; simpl; [|eexists; split; [done|]; right; right; by left].
    destruct Hres as (bs & Hbs & [_ Hst] & Hv & Hvb). simpl in Hv, Hvb.
    rewrite (left_id_L ∅ (∪)) in Hv. rewrite Hv in Hst. unfold reached_threshold. simpl. rewrite Hst.
    destruct (reached_quorum _ _) eqn:Hq; simpl; (eexists; split; [done|]).
    + exists l, bs. split_and!; [|by apply zip_with_digests|done]. split; try done. exists s, c. by rewrite Hq.
    + right; right; right. exists l, s, c, bs. split_and!; try done. intros c' stake. split; [done|]. unfold reached_quorum in Hq. by apply N.leb_gt.
  - eexists; split; [done|]. right; left. split; [done|]. apply last_None in Hlast as ->.
    destruct rest as [|s rest]; [by left|right]. destruct Hstop as (c & _ & Hf & Hend). unfold follows in Hf.
    simpl in Hf. lia.
Qed.
End specification.

(** C28: a rejected answer is really defective.  Whatever bytes a peer sends,
    [verify_commits] returns, and when it returns an error the error tells what
    is wrong: a commit that does not decode, does not start at the requested
    index or does not follow its predecessor by index and digest (with the two
    commits it names); no commit at all in the range; a vote block that does not
    decode or that block verification rejects with this error; or valid votes
    that hold exactly the reported stake, less than a quorum, for the last
    commit of the answer, which is the one named. *)
Theorem verify_commits_errors `{Crypto} `{BcsDecode} (verify_batch : list bytes → result unit string)
    (v : SignedBlockVerifier) (peer : AuthorityIndex) (rg : CommitRange) (ss vs : list bytes) :
  committee_ok (committee (verifier_context v)) →
  ∃ r, verify_commits verify_batch v peer rg ss vs = Ret r ∧
    ∀ e, r = Err e → defect verify_batch v peer rg ss vs e.
Proof.
  intros Hc. destruct (verify_commits_spec verify_batch v peer rg ss vs Hc) as (r & Hr & Hspec).
  exists r. split; [done|]. by intros e ->.
Qed.

(** ** Soundness: what is imported is what the honest authorities committed *)
Section sound.
Context `{Crypto} `{BcsDecode} (verify_batch : list bytes → result unit string).

(** The commits of the honest authorities: numbered from one, chained by digest,
    serialised in a form that decodes, no block in two of them. *)
Record commit_chain (chain : CommitIndex → option TrustedCommit) : Prop := {
  cc_index i t : chain i = Some t → commit_index t = i ∧ 0 < i;
  cc_bytes i t : chain i = Some t →
    t = new_trusted (commit_inner t) (commit_serialized t) ∧ decode_commit (commit_serialized t) = Some (commit_inner t);
  cc_previous i t : chain i = Some t → 1 < i → ∃ p, chain (i - 1) = Some p ∧ previous_digest t = commit_digest p;
  cc_blocks i t : chain i = Some t → NoDup (commit_blocks t);
  cc_disjoint i j t u r : chain i = Some t → chain j = Some u → r ∈ commit_blocks t → r ∈ commit_blocks u → i = j;
}.

(** No received commit collides with one of the chain. *)
Definition no_collision (chain : CommitIndex → option TrustedCommit) (ss : list bytes) : Prop :=
  ∀ s i t, s ∈ ss → chain i = Some t → hash_function s = commit_digest t → s = commit_serialized t.

(** The received valid blocks of honest authorities vote for commits of the chain. *)
Definition honest_votes (v : SignedBlockVerifier) (byz : gset AuthorityIndex)
    (chain : CommitIndex → option TrustedCommit) (vs : list bytes) : Prop :=
  ∀ s b vote, s ∈ vs → decode_signed_block s = Some b → valid_block verify_batch v b → (author b ∉ byz) →
    vote ∈ commit_votes b → ∃ t, chain (commit_ref_index vote) = Some t ∧ vote = commit_reference t.

Context (chain : CommitIndex → option TrustedCommit) (Hchain : commit_chain chain).

(** The shape of parsed commits, by position. *)
Lemma parsed_decode rg l k s c : parsed rg l → l !! k = Some (s, c) → decode_commit s = Some c.
Proof.
  induction 1 as [|l s' c' Hl IH Hd Hf Hend]; [done|]. rewrite lookup_snoc_Some. naive_solver.
Qed.

Lemma parsed_index rg l : range_hi rg <= U32_MAX → parsed rg l → ∀ k s c,
  l !! k = Some (s, c) → commit_index c = range_start rg + N.of_nat k.
Proof.
  intros Hhi. induction 1 as [|l s' c' Hl IH Hd Hf Hend]; intros k s c; [done|].
  rewrite lookup_snoc_Some. intros [[? ?]|[-> [= <- <-]]]; [by eapply IH|].
  unfold follows in Hf. destruct (last l) as [[s1 c1]|] eqn:Hlast.
  - destruct Hf as [-> _]. rewrite last_lookup in Hlast. pose proof (IH _ _ _ Hlast) as Hi.
    destruct (length l) as [|n] eqn:Hn; [by destruct l|]. simpl in Hi.
    assert (commit_index c1 <= range_end rg) as Hle.
    { inversion Hl as [|? ? ? ? ? ? ? Heq]; subst; [done|]. rewrite length_app in Hn. simpl in Hn.
      rewrite lookup_app_r in Hlast by lia. replace (pred (S n) - length l0)%nat with 0%nat in Hlast by lia.
      simpl in Hlast. by injection Hlast as -> ->. }
    unfold range_end in Hle. rewrite wrap32_small; unfold U32_MOD, U32_MAX in *; lia.
  - apply last_None in Hlast as ->. simpl. lia.
Qed.

Lemma parsed_previous rg l k s c s' c' : parsed rg l → l !! k = Some (s', c') → l !! S k = Some (s, c) →
  previous_digest c = hash_function s'.
Proof.
  induction 1 as [|l s1 c1 Hl IH Hd Hf Hend]; [done|]. rewrite !lookup_snoc_Some.
  intros [[? Hk]|[-> _]] [[? Hk']|[Hlen [= <- <-]]]; try lia; [by apply IH|].
  unfold follows in Hf. rewrite last_lookup, <-Hlen in Hf. simpl in Hf. rewrite Hk in Hf. by destruct Hf.
Qed.

(** Received bytes with the digest of a commit of the chain are that commit. *)
Lemma chain_commit ss s c i t :
  no_collision chain ss → s ∈ ss → decode_commit s = Some c → chain i = Some t →
  hash_function s = commit_digest t → new_trusted c s = t.
Proof.
  intros Hcol Hs Hd Ht Hh. assert (s = commit_serialized t) as -> by eauto.
  destruct (cc_bytes _ Hchain _ _ Ht) as [Hmade Hdec]. rewrite Hd in Hdec. injection Hdec as ->. done.
Qed.

(** From the last commit back to the first, by the digest of the predecessor. *)
Lemma parsed_chain rg ss l : no_collision chain ss → 0 < range_start rg → range_hi rg <= U32_MAX →
  parsed rg l → (∀ s, s ∈ l.*1 → s ∈ ss) →
  ∀ s c t, last l = Some (s, c) → chain (commit_index c) = Some t → hash_function s = commit_digest t →
  ∀ k s' c', l !! k = Some (s', c') → chain (range_start rg + N.of_nat k) = Some (new_trusted c' s').
Proof.
  intros Hcol Hpos Hhi Hl Hss s c t Hlast Ht Hh.
  assert (∀ d k s' c', (k + d = pred (length l))%nat → l !! k = Some (s', c') →
    chain (range_start rg + N.of_nat k) = Some (new_trusted c' s')) as Hback.
  { induction d as [|d IH]; intros k s' c' Hk Hlk.
    - rewrite last_lookup in Hlast. replace (pred (length l)) with k in Hlast by lia.
      rewrite Hlk in Hlast. injection Hlast as -> ->. rewrite <-(parsed_index _ _ Hhi Hl _ _ _ Hlk), Ht.
      f_equal. symmetry. eapply chain_commit; [done| |by eapply parsed_decode|done|done].
      apply Hss. by eapply list_elem_of_lookup_2, list_lookup_fmap_Some_2 with (x := (s, c)).
    - destruct (lookup_lt_is_Some_2 l (S k)) as [[s2 c2] Hk2]; [apply lookup_lt_Some in Hlk; lia|].
      pose proof (IH (S k) s2 c2 ltac:(lia) Hk2) as Hc2.
      destruct (cc_previous _ Hchain _ _ Hc2) as (p & Hp & Hdig); [lia|].
      replace (range_start rg + N.of_nat (S k) - 1) with (range_start rg + N.of_nat k) in Hp by lia.
      rewrite Hp. f_equal. symmetry. eapply chain_commit; [done| |by eapply parsed_decode|done|].
      + apply Hss. by eapply list_elem_of_lookup_2, list_lookup_fmap_Some_2 with (x := (s', c')).
      + rewrite <-Hdig. symmetry. by eapply parsed_previous. }
  intros k s' c' Hk. eapply (Hback (pred (length l) - k)%nat); [|done]. apply lookup_lt_Some in Hk. lia.
Qed.

(** [ts] are the commits of the chain from [start] on. *)
Definition from_chain (start : CommitIndex) (ts : list TrustedCommit) : Prop :=
  ∀ k t, ts !! k = Some t → chain (start + N.of_nat k) = Some t.

(** Commits of the chain have no block in common. *)
Lemma from_chain_NoDup start ts : from_chain start ts → NoDup (ts ≫= λ c : TrustedCommit, commit_blocks c).
Proof.
  revert start. induction ts as [|t ts IH]; intros start Hts; [constructor|]. csimpl.
  assert (chain start = Some t) as Ht by (rewrite <-(N.add_0_r start); by apply (Hts 0%nat)).
  assert (∀ k u, ts !! k = Some u → chain (start + 1 + N.of_nat k) = Some u) as Hrest.
  { intros k u Hk. replace (start + 1 + N.of_nat k) with (start + N.of_nat (S k)) by lia. by apply Hts. }
  apply NoDup_app. split_and!; [by eapply cc_blocks| |by eapply IH].
  intros r Hr. rewrite list_elem_of_bind. intros (u & Hu & [k Hk]%list_elem_of_lookup_1).
  pose proof (cc_disjoint _ Hchain _ _ _ _ _ Ht (Hrest _ _ Hk) Hr Hu). lia.
Qed.

Context (v : SignedBlockVerifier) (Hc : committee_ok (committee (verifier_context v))).
Context (byz : gset AuthorityIndex).
Context (Hbyz : set_stake (committee (verifier_context v)) byz < validity_threshold (committee (verifier_context v))).

(** A quorum of votes has an honest voter, whose vote pins the last commit. *)
Lemma accepted_from_chain rg ss vs l bs :
  0 < range_start rg → range_hi rg <= U32_MAX →
  no_collision chain ss → honest_votes v byz chain vs →
  accepted verify_batch v rg ss vs l bs → from_chain (range_start rg) (trusted l).
Proof.
  intros Hpos Hhi Hcol Hvotes [Hl Hpre Hbs (s & c & Hlast & Hq)].
  unfold reached_quorum in Hq. apply Is_true_true, N.leb_le in Hq.
  pose proof (byz_third _ Hc _ Hbyz). pose proof (quorum_two_thirds _ Hc).
  destruct (exists_honest (committee (verifier_context v)) byz
    (voters (mk_commit_ref (commit_index c) (hash_function s)) bs)) as (i & Hi & Hhon); [lia|].
  apply elem_of_voters in Hi as (b & Hb & Hvote & <-).
  apply list_elem_of_lookup_1 in Hb as [j Hj].
  destruct (Forall2_lookup_r _ _ _ _ _ Hbs Hj) as (sb & Hsb & Hdec & Hvalid).
  destruct (Hvotes sb b _ (list_elem_of_lookup_2 _ _ _ Hsb) Hdec Hvalid Hhon Hvote) as (t & Ht & Href).
  simpl in Ht. injection Href as _ Hdig.
  intros k t' Hk. unfold trusted in Hk. rewrite list_lookup_fmap_Some in Hk. destruct Hk as ([s' c'] & -> & Hk).
  eapply (parsed_chain rg ss l); eauto. intros x Hx. destruct Hpre as [rest ->]. set_solver.
Qed.
End sound.

(** ** Fetching the blocks *)
Section blocks.
Context `{Crypto} `{BcsDecode}.

(** A block built from received bytes. *)
Definition from_bytes (b : VerifiedBlock) : Prop :=
  decode_signed_block (serialized b) = Some (signed_block b) ∧ digest b = compute_digest (serialized b).

Lemma chunks_loop_concat {A} n fuel : (0 < n)%nat → ∀ l : list A, (length l <= fuel)%nat →
  concat (chunks_loop fuel n l) = l.
Proof.
  intros Hn. induction fuel as [|fuel IH]; intros [|x l] Hl; simpl in *; try done; [lia|].
  rewrite IH; [apply (take_drop n (x :: l))|]. rewrite length_drop. simpl. lia.
Qed.

Lemma chunks_loop_length {A} n fuel : ∀ (l : list A) q, q ∈ chunks_loop fuel n l → (length q <= n)%nat.
Proof.
  induction fuel as [|fuel IH]; intros [|x l] q; cbn [chunks_loop]; try by intros ?%elem_of_nil.
  intros [->|Hq]%elem_of_cons; [rewrite length_take; lia|by eapply IH].
Qed.

Lemma match_blocks_ok peer request signed ss bs :
  Forall2 (λ s b, decode_signed_block s = Some b) ss signed → length request = length ss →
  match_blocks peer (zip request (zip signed ss)) = Ok bs →
  reference <$> bs = request ∧ Forall from_bytes bs.
Proof.
  intros Hdec. revert request bs. induction Hdec as [|s b ss signed Hd Hrest IH];
    intros [|r request] bs Hlen; simpl; try done; [by intros [= <-]|].
  case_decide as Hr; [|done]. destruct (match_blocks _ _) as [bs'|] eqn:Hm; [|done]. intros [= <-].
  destruct (IH request bs' ltac:(simpl in Hlen; lia) Hm) as [Href Hall]. split.
  - rewrite fmap_cons, Href, Hr. done.
  - by constructor.
Qed.

Lemma fetch_chunk_ok peer request response bs :
  fetch_chunk peer request response = Ok bs → reference <$> bs = request ∧ Forall from_bytes bs.
Proof.
  unfold fetch_chunk. destruct response as [ss|]; [|done].
  destruct (N.eqb_spec (N.of_nat (length request)) (N.of_nat (length ss))) as [Hlen|]; simpl; [|done].
  destruct (mapM decode_signed_block ss) as [signed|] eqn:Hm; [|done].
  apply mapM_Some in Hm. apply match_blocks_ok; [done|lia].
Qed.

(** What is collected holds every requested block. *)
Definition holds (m : gmap BlockRef VerifiedBlock) (r : BlockRef) : Prop :=
  ∃ b, m !! r = Some b ∧ reference b = r ∧ from_bytes b.

Lemma insert_blocks_holds bs r : Forall from_bytes bs → ∀ m : gmap BlockRef VerifiedBlock,
  holds m r ∨ r ∈ reference <$> bs → holds (foldl (λ m b, <[reference b := b]> m) m bs) r.
Proof.
  induction 1 as [|b bs Hb Hbs IH]; intros m; simpl; [set_solver|].
  intros Hr. apply IH. destruct (decide (r = reference b)) as [->|Hne].
  - left. exists b. by rewrite lookup_insert_eq.
  - destruct Hr as [(b' & Hm & ?)|Hr]; [left|right; set_solver]. exists b'. by rewrite lookup_insert_ne.
Qed.

Lemma collect_blocks_ok results : ∀ m m', collect_blocks m results = Ok m' →
  (∀ bs, Ok bs ∈ results → Forall from_bytes bs) →
  ∀ r, holds m r ∨ (∃ bs, Ok bs ∈ results ∧ r ∈ reference <$> bs) → holds m' r.
Proof.
  induction results as [|[bs|e] results IH]; intros m m'; simpl; [|intros Hm Hall r Hr|done].
  - intros [= ->] _ r [?|(bs & Hin & _)]; [done|]. by apply elem_of_nil in Hin.
  - eapply (IH _ _ Hm); [set_solver|]. destruct Hr as [Hr|(bs' & Hin & Hr)].
    + left. apply insert_blocks_holds; [apply Hall; left|by left].
    + apply elem_of_cons in Hin as [[= ->]|Hin]; [|right; eauto].
      left. apply insert_blocks_holds; [apply Hall; left|by right].
Qed.

(** Taking distinct blocks out of what was fetched finds each of them. *)
Definition taken (refs : list BlockRef) (bs : list VerifiedBlock) : Prop :=
  reference <$> bs = refs ∧ Forall from_bytes bs.

Lemma take_blocks_ok refs : ∀ m, NoDup refs → (∀ r, r ∈ refs → holds m r) →
  ∃ m' bs, take_blocks m refs = Ret (m', bs) ∧ taken refs bs ∧ ∀ r, (r ∉ refs) → m' !! r = m !! r.
Proof.
  induction refs as [|r refs IH]; intros m Hnd Hall; simpl.
  { exists m, []. split; [done|]. split; [by split; [|constructor]|done]. }
  apply NoDup_cons in Hnd as [Hr Hnd]. destruct (Hall r) as (b & Hb & Hbr & Hbb); [left|].
  rewrite Hb. simpl. destruct (IH (delete r m) Hnd) as (m' & bs & -> & [Href Hbs] & Hrest).
  - intros r' Hr'. destruct (Hall r') as (b' & Hb' & ?); [by right|]. exists b'.
    rewrite lookup_delete_ne by (by intros ->). done.
  - exists m', (b :: bs). split; [done|]. split.
    + split; [by rewrite fmap_cons, Href, Hbr|by constructor].
    + intros r' Hr'. apply not_elem_of_cons in Hr' as [??]. rewrite Hrest by done. by rewrite lookup_delete_ne.
Qed.

Lemma certify_ok commits : ∀ m, NoDup (commits ≫= λ c : TrustedCommit, commit_blocks c) →
  (∀ r, r ∈ commits ≫= (λ c : TrustedCommit, commit_blocks c) → holds m r) →
  ∃ cs, certify m commits = Ret cs ∧ certified_commit <$> cs = commits ∧
    ∀ c : CertifiedCommit, c ∈ cs → taken (commit_blocks c) (certified_blocks c).
Proof.
  induction commits as [|t commits IH]; intros m; csimpl.
  { exists []. split; [done|]. split; [done|]. set_solver. }
  intros (Hnd1 & Hdisj & Hnd2)%NoDup_app Hall. setoid_rewrite elem_of_app in Hall.
  destruct (take_blocks_ok (commit_blocks t) m Hnd1) as (m' & bs & -> & Hbs & Hrest); [auto|]. simpl.
  destruct (IH m' Hnd2) as (cs & -> & Hcs & Hblocks).
  - intros r Hr. destruct (Hall r (or_intror Hr)) as (b & Hb & ?). exists b. rewrite Hrest; [done|].
    intros Ht. by apply (Hdisj r).
  - exists (new_certified t bs :: cs). split; [done|]. split; [by rewrite fmap_cons, Hcs|].
    intros c [->|?]%elem_of_cons; [done|auto].
Qed.

Lemma collect_blocks_all results : ∀ m m', collect_blocks m results = Ok m' →
  ∀ res, res ∈ results → ∃ bs, res = Ok bs.
Proof.
  induction results as [|[bs|e] results IH]; intros m m'; simpl; [set_solver| |done].
  intros Hm res [->|Hres]%elem_of_cons; eauto.
Qed.

(** The requests cover all blocks, so a completed fetch holds all of them. *)
Lemma collected_all peer fetch_blocks n (refs : list BlockRef) requests m :
  chunks n refs = Ret requests →
  collect_blocks ∅ ((λ '(i, request), fetch_chunk peer request (fetch_blocks i request)) <$> enumerate requests) = Ok m →
  ∀ r, r ∈ refs → holds m r.
Proof.
  unfold chunks. destruct (N.eqb_spec n 0); [done|]. intros [= <-] Hm r Hr.
  set (requests := chunks_loop _ _ _) in *. assert (concat requests = refs) as Hcat by (apply chunks_loop_concat; lia).
  rewrite <-Hcat in Hr. apply list_elem_of_In, in_concat in Hr as (request & Hreq%list_elem_of_In & Hr%list_elem_of_In).
  apply list_elem_of_lookup_1 in Hreq as [i Hi].
  assert (∀ res, res ∈ (λ '(i, request), fetch_chunk peer request (fetch_blocks i request)) <$> enumerate requests →
    ∃ i request, res = fetch_chunk peer request (fetch_blocks i request)) as Hfetch.
  { intros res ([j q] & -> & _)%list_elem_of_fmap. eauto. }
  eapply (collect_blocks_ok _ _ _ Hm).
  - intros bs (j & q & Hq)%Hfetch. symmetry in Hq. by apply fetch_chunk_ok in Hq as [_ ?].
  - right. assert (fetch_chunk peer request (fetch_blocks (N.of_nat i) request) ∈
      (λ '(i, request), fetch_chunk peer request (fetch_blocks i request)) <$> enumerate requests) as Hin.
    { apply list_elem_of_fmap. exists (N.of_nat i, request). split; [done|].
      apply (list_elem_of_lookup_2 _ i). by rewrite enumerate_lookup, Hi. }
    destruct (collect_blocks_all _ _ _ Hm _ Hin) as [bs Hbs]. exists bs. rewrite <-Hbs. split; [done|].
    apply fetch_chunk_ok in Hbs as [-> _]. done.
Qed.
End blocks.

(** ** Correctness of a fetch *)
Section fetch.
Context `{Crypto} `{BcsDecode} (verify_batch : list bytes → result unit string).

Lemma vote_blocks_valid v vs bs (b : VerifiedBlock) :
  valid_votes verify_batch v vs bs → b ∈ zip_with new_verified bs vs → from_bytes b ∧ valid_block verify_batch v b.
Proof.
  intros Hbs [i Hi]%list_elem_of_lookup_1. rewrite lookup_zip_with_Some in Hi. destruct Hi as (sb & s & -> & Hsb & Hs).
  destruct (Forall2_lookup_lr _ _ _ _ _ _ Hbs Hs Hsb) as [??]. done.
Qed.

Lemma trusted_within rg l (t : TrustedCommit) : parsed rg l → t ∈ trusted l → commit_index t <= range_end rg.
Proof.
  intros Hl ([s c] & -> & Hin)%list_elem_of_fmap. simpl. induction Hl as [|l s' c' Hl IH Hd Hf Hend]; [by apply elem_of_nil in Hin|].
  apply elem_of_app in Hin as [?|[= -> ->]%list_elem_of_singleton]; [by apply IH|done].
Qed.

(** Commits of the chain, serialised, are a chained answer. *)
Lemma chain_parsed chain rg ts : commit_chain chain → 0 < range_start rg → range_hi rg <= U32_MAX →
  from_chain chain (range_start rg) ts → (∀ t : TrustedCommit, t ∈ ts → commit_index t <= range_end rg) →
  parsed rg ((λ t : TrustedCommit, (commit_serialized t, commit_inner t)) <$> ts).
Proof.
  intros Hchain Hpos Hhi. induction ts as [|t ts IH] using rev_ind; intros Hts Hend; [constructor|].
  assert (chain (range_start rg + N.of_nat (length ts)) = Some t) as Ht.
  { apply Hts. by rewrite lookup_app_r, Nat.sub_diag by lia. }
  destruct (cc_index _ Hchain _ _ Ht) as [Hi _]. rewrite fmap_app. constructor.
  - apply IH; [|intros ? ?; apply Hend; set_solver]. intros k u Hk. apply Hts. by apply lookup_app_l_Some.
  - by destruct (cc_bytes _ Hchain _ _ Ht).
  - unfold follows. rewrite fmap_last. destruct (last ts) as [p|] eqn:Hp; simpl.
    + rewrite last_lookup in Hp. assert (0 < length ts)%nat as Hlen by (apply lookup_lt_Some in Hp; lia).
      assert (chain (range_start rg + N.of_nat (length ts) - 1) = Some p) as Hcp.
      { rewrite <-(Hts (pred (length ts)) p); [f_equal; lia|]. by apply lookup_app_l_Some. }
      destruct (cc_index _ Hchain _ _ Hcp) as [Hip _]. destruct (cc_previous _ Hchain _ _ Ht) as (p' & Hp' & ->); [lia|].
      rewrite Hcp in Hp'. injection Hp' as <-. pose proof (Hend t ltac:(set_solver)) as Hle. unfold range_end in Hle.
      rewrite Hi, Hip, wrap32_small by (unfold U32_MOD, U32_MAX in *; lia).
      split; [lia|]. by destruct (cc_bytes _ Hchain _ _ Hcp) as [-> _].
    + apply last_None in Hp as ->. simpl in Hi. lia.
  - apply Hend. set_solver.
Qed.

Lemma trusted_chain chain start ts : commit_chain chain → from_chain chain start ts →
  trusted ((λ t : TrustedCommit, (commit_serialized t, commit_inner t)) <$> ts) = ts.
Proof.
  intros Hchain Hts. unfold trusted. rewrite <-list_fmap_compose. rewrite <-(list_fmap_id ts) at 2.
  apply list_fmap_ext. intros k t Hk. simpl. by destruct (cc_bytes _ Hchain _ _ (Hts k t Hk)) as [<- _].
Qed.

(** A peer's answer to a request for blocks that holds those blocks. *)
Definition answers (request : list BlockRef) (ss : list bytes) : Prop :=
  Forall2 (λ r s, ∃ b, decode_signed_block s = Some b ∧ r = mk_ref (round b) (author b) (compute_digest s)) request ss.

Lemma fetch_chunk_answers peer request ss : answers request ss → ∃ bs, fetch_chunk peer request (Ok ss) = Ok bs.
Proof.
  intros Hans. unfold fetch_chunk. rewrite (Forall2_length _ _ _ Hans), N.eqb_refl. simpl.
  induction Hans as [|r s request ss (b & Hb & ->) Hans IH]; simpl; [by exists []|].
  rewrite Hb. simpl. destruct (mapM decode_signed_block ss) as [signed|]; simpl; [|by destruct IH].
  rewrite decide_True by done. destruct IH as [bs ->]. by eexists.
Qed.

Lemma collect_blocks_total results : (∀ res, res ∈ results → ∃ bs, res = Ok bs) → ∀ m,
  ∃ m', collect_blocks m results = Ok m'.
Proof.
  induction results as [|res results IH]; intros Hall m; simpl; [by exists m|].
  destruct (Hall res) as [bs ->]; [left|]. apply IH. intros res' Hin. apply Hall. by right.
Qed.

Lemma valid_votes_unique v vs bs bs' :
  valid_votes verify_batch v vs bs → valid_votes verify_batch v vs bs' → bs = bs'.
Proof.
  intros Hbs. revert bs'. induction Hbs as [|s b vs bs [Hb _] Hbs IH]; intros bs' Hbs'; inversion Hbs'; subst; [done|].
  destruct_and!. simplify_eq. f_equal. by apply IH.
Qed.

(** Chained commits with valid vote blocks are accepted when the votes for the
    last are a quorum, and rejected with their stake otherwise. *)
Lemma verify_commits_decides v peer rg l s c vs bs : committee_ok (committee (verifier_context v)) →
  parsed rg l → last l = Some (s, c) → valid_votes verify_batch v vs bs →
  let stake := set_stake (committee (verifier_context v)) (voters (mk_commit_ref (commit_index c) (hash_function s)) bs) in
  verify_commits verify_batch v peer rg l.*1 vs =
    if reached_quorum (committee (verifier_context v)) stake
    then Ret (Ok (trusted l, zip_with new_verified bs vs)) else Ret (Err (NotEnoughCommitVotes stake peer c)).
Proof.
  intros Hc Hl Hlast Hbs stake. unfold verify_commits.
  pose proof (parse_commits_complete peer rg l Hl []) as Hp. rewrite app_nil_r in Hp. rewrite Hp.
  cbn [parse_commits try]. rewrite last_with_digests, Hlast. cbn [fmap option_fmap option_map].
  destruct (verify_votes_spec verify_batch v (mk_commit_ref (commit_index c) (hash_function s)) vs Hc
    (mk_vote_count StakeAggregator_new [])) as (res & -> & Hres); [apply agg_ok_new|]. simpl.
  destruct res as [vc|e]; simpl.
  - destruct Hres as (bs' & Hbs' & [_ Hst] & Hv & Hvb). simpl in Hv, Hvb.
    rewrite <-(valid_votes_unique _ _ _ _ Hbs Hbs') in *. rewrite (left_id_L ∅ (∪)) in Hv. rewrite Hv in Hst.
    unfold reached_threshold. simpl. rewrite Hst. fold stake. destruct (reached_quorum _ stake); [|done]. simpl. rewrite Hvb.
    by rewrite zip_with_digests by done.
  - exfalso. destruct Hres as (sb & [k Hk]%list_elem_of_lookup_1 & Hdef).
    destruct (Forall2_lookup_l _ _ _ _ _ Hbs Hk) as (b & _ & Hdec & Hvalid).
    destruct Hdef as [[Hd _]|(b' & Hd & Hinv & _)]; by simplify_eq.
Qed.

(** The answers to the requests for the blocks of distinct commits suffice. *)
Lemma fetch_blocks_honest n peer (ts : list TrustedCommit) fetch_blocks : 0 < n →
  NoDup (ts ≫= λ t : TrustedCommit, commit_blocks t) →
  (∀ i request, N.of_nat (length request) <= n → (∀ r, r ∈ request → r ∈ ts ≫= λ t : TrustedCommit, commit_blocks t) →
    ∃ ss, fetch_blocks i request = Ok ss ∧ answers request ss) →
  ∃ requests m cs, chunks n (ts ≫= λ t : TrustedCommit, commit_blocks t) = Ret requests ∧
    collect_blocks ∅ ((λ '(i, request), fetch_chunk peer request (fetch_blocks i request)) <$> enumerate requests) = Ok m ∧
    certify m ts = Ret cs ∧ certified_commit <$> cs = ts.
Proof.
  intros Hn Hnd Hans. unfold chunks. destruct (N.eqb_spec n 0) as [|_]; [lia|].
  set (refs := ts ≫= _) in *. set (requests := chunks_loop (length refs) (N.to_nat n) refs).
  assert (concat requests = refs) as Hcat by (apply chunks_loop_concat; lia).
  destruct (collect_blocks_total
    ((λ '(i, request), fetch_chunk peer request (fetch_blocks i request)) <$> enumerate requests)) with (m := (∅ : gmap BlockRef VerifiedBlock)) as [m Hm].
  { intros res ([i request] & -> & [k Hk]%list_elem_of_lookup_1)%list_elem_of_fmap.
    rewrite enumerate_lookup in Hk. destruct (requests !! k) as [q|] eqn:Hq; [|done]. injection Hk as <- <-.
    destruct (Hans (N.of_nat k) q) as (ss & -> & Hss); [| |by eapply fetch_chunk_answers].
    { assert (length q <= N.to_nat n)%nat; [|lia]. eapply chunks_loop_length. by eapply list_elem_of_lookup_2. }
    intros r Hr. rewrite <-Hcat. apply list_elem_of_In, in_concat. exists q.
    split; apply list_elem_of_In; [by eapply list_elem_of_lookup_2|done]. }
  destruct (certify_ok ts m Hnd) as (cs & Hcs & Heq & _).
  { intros r Hr. eapply (collected_all peer fetch_blocks n refs requests); [|done|done].
    unfold chunks. destruct (N.eqb_spec n 0); [lia|done]. }
  exists requests, m, cs. done.
Qed.
End fetch.

(** What a successful fetch of the range [rg] returns. *)
Record fetched `{Crypto} `{BcsDecode} (verify_batch : list bytes → result unit string) (v : SignedBlockVerifier)
    (chain : CommitIndex → option TrustedCommit) (rg : CommitRange) (cc : CertifiedCommits) : Prop := {
  fe_nonempty : certified_commits cc ≠ [];
  fe_chain : from_chain chain (range_start rg) (certified_commit <$> certified_commits cc);
  fe_commits (c : CertifiedCommit) : c ∈ certified_commits cc →
    commit_index c <= range_end rg ∧ taken (commit_blocks c) (certified_blocks c);
  fe_votes (b : VerifiedBlock) : b ∈ certified_votes cc → from_bytes b ∧ valid_block verify_batch v b;
}.

Lemma fetch_once_spec `{Crypto} `{BcsDecode} (verify_batch : list bytes → result unit string)
    (v : SignedBlockVerifier) (byz : gset AuthorityIndex) (chain : CommitIndex → option TrustedCommit)
    (max_blocks_per_fetch : N) (peer : AuthorityIndex) (rg : CommitRange)
    (fetch_commits : ConsensusResult (list bytes * list bytes))
    (fetch_blocks : N → list BlockRef → ConsensusResult (list bytes)) :
  committee_ok (committee (verifier_context v)) →
  set_stake (committee (verifier_context v)) byz < validity_threshold (committee (verifier_context v)) →
  commit_chain chain → 0 < range_start rg → range_hi rg <= U32_MAX → 0 < max_blocks_per_fetch →
  (∀ ss vs, fetch_commits = Ok (ss, vs) → no_collision chain ss ∧ honest_votes verify_batch v byz chain vs) →
  ∃ r, fetch_once verify_batch v max_blocks_per_fetch peer rg fetch_commits fetch_blocks = Ret r ∧
  ∀ cc, r = Ok cc → fetched verify_batch v chain rg cc.
Proof.
  intros Hc Hbyz Hchain Hpos Hhi Hmax Hpeer. unfold fetch_once.
  destruct fetch_commits as [[ss vs]|e]; simpl; [|by eexists].
  destruct (Hpeer ss vs eq_refl) as [Hcol Hvotes].
  destruct (verify_commits_spec verify_batch v peer rg ss vs Hc) as (r & -> & Hr). simpl.
  destruct r as [[ts vbs]|e]; simpl; [|by eexists]. destruct Hr as (l & bs & Hacc & -> & ->).
  pose proof (accepted_from_chain verify_batch chain Hchain v Hc byz Hbyz rg ss vs l bs Hpos Hhi Hcol Hvotes Hacc) as Hts.
  pose proof (from_chain_NoDup chain Hchain _ _ Hts) as Hnd.
  destruct (chunks max_blocks_per_fetch _) as [requests|] eqn:Hreq; simpl;
    [|unfold chunks in Hreq; destruct (N.eqb_spec max_blocks_per_fetch 0); [lia|done]].
  destruct (collect_blocks _ _) as [m|e] eqn:Hm; simpl; [|by eexists].
  destruct (certify_ok (trusted l) m Hnd) as (cs & -> & Hcs & Hblocks); [by eapply collected_all|]. simpl.
  eexists. split; [done|]. intros cc [= <-]. split; simpl; [|by rewrite Hcs| |].
  - intros ->. simpl in Hcs. destruct Hacc as [_ _ _ (s & c & Hlast & _)]. destruct l; done.
  - intros c Hin. split; [|by apply Hblocks]. apply (trusted_within rg l); [by destruct Hacc|].
    rewrite <-Hcs. by apply list_elem_of_fmap_2.
  - intros b Hb. eapply vote_blocks_valid; [|done]. by destruct Hacc.
Qed.

(** No collision and no forged vote in what an attempt received. *)
Definition honest_attempt `{Crypto} `{BcsDecode} (verify_batch : list bytes → result unit string)
    (v : SignedBlockVerifier) (byz : gset AuthorityIndex) (chain : CommitIndex → option TrustedCommit)
    (x : AuthorityIndex * Attempt) : Prop :=
  match snd x with
  | TimedOut => True
  | Answered fetch_commits _ =>
    ∀ ss vs, fetch_commits = Ok (ss, vs) → no_collision chain ss ∧ honest_votes verify_batch v byz chain vs
  end.

(** The attempts never panic, charge their errors to the peers asked, and end
    with the result of a successful fetch. *)
Lemma fetch_loop_spec `{Crypto} `{BcsDecode} (verify_batch : list bytes → result unit string)
    (v : SignedBlockVerifier) (byz : gset AuthorityIndex) (chain : CommitIndex → option TrustedCommit)
    (max_blocks_per_fetch : N) (rg : CommitRange) (n : N) (attempts : list (AuthorityIndex * Attempt)) :
  committee_ok (committee (verifier_context v)) →
  set_stake (committee (verifier_context v)) byz < validity_threshold (committee (verifier_context v)) →
  commit_chain chain → 0 < range_start rg → range_hi rg <= U32_MAX → 0 < max_blocks_per_fetch →
  Forall (honest_attempt verify_batch v byz chain) attempts → ∀ store, metrics_store_ok n store →
  ∃ store' r, fetch_loop verify_batch v max_blocks_per_fetch rg store attempts = Ret (store', r) ∧
    metrics_store_ok n store' ∧
    ∀ a e cc, r = Some (a, e, cc) → a ∈ attempts.*1 ∧ e = range_end rg ∧ fetched verify_batch v chain rg cc.
Proof.
  intros Hc Hbyz Hchain Hpos Hhi Hmax Hatt.
  induction Hatt as [|[a att] attempts Ha Hatt IH]; intros store Hstore; cbn [fetch_loop].
  { exists store, None. by split_and!. }
  destruct att as [|fetch_commits fetch_blocks].
  { destruct (IH store Hstore) as (store' & r & -> & ? & Hr). exists store', r. split_and!; [done|done|].
    intros a' e cc Heq. destruct (Hr a' e cc Heq) as (? & ? & ?). split_and!; [by right|done|done]. }
  destruct (fetch_once_spec verify_batch v byz chain max_blocks_per_fetch a rg fetch_commits fetch_blocks
    Hc Hbyz Hchain Hpos Hhi Hmax Ha) as (r & -> & Hok). simpl. destruct r as [cc|e].
  - exists store, (Some (a, range_end rg, cc)). split_and!; [done|done|]. intros a' e cc' [= <- <- <-].
    split_and!; [left|done|by apply Hok].
  - destruct (update_on_receival_ok n store a e SrcCommitSyncer Hstore) as (store1 & -> & Hstore1). simpl.
    destruct (IH store1 Hstore1) as (store' & r & -> & ? & Hr). exists store', r. split_and!; [done|done|].
    intros a' e' cc Heq. destruct (Hr a' e' cc Heq) as (? & ? & ?). split_and!; [by right|done|done].
Qed.

(** C8: commit sync imports only agreed commits.  Let the honest authorities
    agree on a chain of commits, let fewer than a validity threshold of stake be
    Byzantine, and let the received bytes hold no hash collision with the chain
    and no forged vote of an honest authority.  Then for any range and whatever
    the peer answers, [fetch_once] does not panic, and if it succeeds it returns
    at least one commit, the commits are those of the chain from the start of
    the range on and inside the range, each comes with exactly the blocks it
    references, in order, rebuilt from bytes with the referenced digest, and the
    returned votes are valid blocks. *)
Theorem fetch_once_correct `{Crypto} `{BcsDecode} (verify_batch : list bytes → result unit string)
    (v : SignedBlockVerifier) (byz : gset AuthorityIndex) (chain : CommitIndex → option TrustedCommit)
    (max_blocks_per_fetch : N) (peer : AuthorityIndex) (rg : CommitRange)
    (fetch_commits : ConsensusResult (list bytes * list bytes))
    (fetch_blocks : N → list BlockRef → ConsensusResult (list bytes)) :
  committee_ok (committee (verifier_context v)) →
  set_stake (committee (verifier_context v)) byz < validity_threshold (committee (verifier_context v)) →
  commit_chain chain → 0 < range_start rg → range_hi rg <= U32_MAX → 0 < max_blocks_per_fetch →
  (∀ ss vs, fetch_commits = Ok (ss, vs) → no_collision chain ss ∧ honest_votes verify_batch v byz chain vs) →
  ∃ r, fetch_once verify_batch v max_blocks_per_fetch peer rg fetch_commits fetch_blocks = Ret r ∧
  ∀ cc, r = Ok cc → fetched verify_batch v chain rg cc.
Proof. apply fetch_once_spec. Qed.

(** What becomes of an honest peer's answer.  If the peer sends the commits of
    the chain from the start of the range up to any index inside it, valid vote
    blocks, and the requested blocks, then [fetch_once] returns exactly these
    commits when the authors of the votes for the last of them are a quorum, and
    the error that names their stake otherwise. *)
Theorem fetch_once_accepts_honest `{Crypto} `{BcsDecode} (verify_batch : list bytes → result unit string)
    (v : SignedBlockVerifier) (chain : CommitIndex → option TrustedCommit)
    (max_blocks_per_fetch : N) (peer : AuthorityIndex) (rg : CommitRange)
    (ts : list TrustedCommit) (end_commit : TrustedCommit) (vs : list bytes) (bs : list SignedBlock)
    (fetch_blocks : N → list BlockRef → ConsensusResult (list bytes)) :
  committee_ok (committee (verifier_context v)) →
  commit_chain chain → 0 < range_start rg → range_hi rg <= U32_MAX → 0 < max_blocks_per_fetch →
  from_chain chain (range_start rg) ts → (∀ t : TrustedCommit, t ∈ ts → commit_index t <= range_end rg) →
  last ts = Some end_commit → valid_votes verify_batch v vs bs →
  (∀ i request, N.of_nat (length request) <= max_blocks_per_fetch → (∀ r, r ∈ request → r ∈ ts ≫= λ t : TrustedCommit, commit_blocks t) →
    ∃ ss, fetch_blocks i request = Ok ss ∧ answers request ss) →
  let stake := set_stake (committee (verifier_context v)) (voters (commit_reference end_commit) bs) in
  let result := fetch_once verify_batch v max_blocks_per_fetch peer rg (Ok (commit_serialized <$> ts, vs)) fetch_blocks in
  if reached_quorum (committee (verifier_context v)) stake
  then ∃ cc, result = Ret (Ok cc) ∧ certified_commit <$> certified_commits cc = ts
  else result = Ret (Err (NotEnoughCommitVotes stake peer (commit_inner end_commit))).
Proof.
  intros Hc Hchain Hpos Hhi Hmax Hts Hend Hlast Hbs Hans stake result. unfold result, fetch_once. simpl.
  pose proof (chain_parsed chain rg ts Hchain Hpos Hhi Hts Hend) as Hparsed.
  pose proof (trusted_chain chain _ ts Hchain Hts) as Htrusted.
  assert (last ((λ t : TrustedCommit, (commit_serialized t, commit_inner t)) <$> ts) =
    Some (commit_serialized end_commit, commit_inner end_commit)) as Hlast' by (by rewrite fmap_last, Hlast).
  pose proof (verify_commits_decides verify_batch v peer rg _ _ _ vs bs Hc Hparsed Hlast' Hbs) as Hv.
  rewrite <-list_fmap_compose in Hv. change (fst ∘ _) with commit_serialized in Hv. rewrite Htrusted in Hv. cbv zeta in Hv.
  assert (hash_function (commit_serialized end_commit) = commit_digest end_commit) as Hd.
  { rewrite last_lookup in Hlast. destruct (cc_bytes _ Hchain _ _ (Hts _ _ Hlast)) as [Hmade _]. by rewrite Hmade. }
  rewrite Hd in Hv. change (mk_commit_ref _ _) with (commit_reference end_commit) in Hv. fold stake in Hv. rewrite Hv.
  destruct (reached_quorum _ stake); [|done].
  destruct (fetch_blocks_honest max_blocks_per_fetch peer ts fetch_blocks Hmax) as (requests & m & cs & Hreq & Hm & Hcs & Heq);
    [by eapply from_chain_NoDup|done|].
  simpl. rewrite Hreq. simpl. rewrite Hm. simpl. rewrite Hcs. simpl. by eexists.
Qed.

(** ** A run: two commits, certified by three of four authorities *)

Definition sync_signed (a : AuthorityIndex) (vs : list CommitVote) : SignedBlock :=
  let ancs := mk_ref 0 a (a + 10) :: filter (λ r, ref_author r ≠ a) test_genesis in
  let b := V1 (mk_block_v1 0 1 a 5 ancs [] vs []) in
  mk_signed b ([2] ++ [@hash_function test_crypto (test_bytes b)]).

Definition sync_ref (a : AuthorityIndex) : BlockRef := mk_ref 1 a (@hash_function test_crypto [20 + a]).

Definition sync_commit (i : CommitIndex) (prev : CommitDigest) : TrustedCommit :=
  @new_trusted test_crypto (Commit_new i prev 5 (sync_ref i) [sync_ref i]) [i].

Definition sync_first : TrustedCommit := sync_commit 1 0.
Definition sync_second : TrustedCommit := sync_commit 2 (commit_digest sync_first).

Definition sync_chain (i : CommitIndex) : option TrustedCommit :=
  if decide (i = 1) then Some sync_first else if decide (i = 2) then Some sync_second else None.

Definition test_decode : BcsDecode := {|
  decode_commit s := if decide (s = [1]) then Some (commit_inner sync_first)
                     else if decide (s = [2]) then Some (commit_inner sync_second) else None;
  decode_signed_block s :=
    match s with
    | [x] => Some (if x <? 30 then sync_signed (x - 20) [] else sync_signed (x - 30) [commit_reference sync_second])
    | _ => None
    end;
|}.

Definition sync_votes : list bytes := [[30]; [31]; [32]].

Definition sync_fetch_blocks (i : N) (request : list BlockRef) : ConsensusResult (list bytes) :=
  Ok ((λ r, [20 + ref_author r]) <$> request).

Lemma sync_chain_Some i t : sync_chain i = Some t → (i = 1 ∧ t = sync_first) ∨ (i = 2 ∧ t = sync_second).
Proof. unfold sync_chain. repeat case_decide; naive_solver. Qed.

Lemma sync_chain_ok : @commit_chain test_crypto test_decode sync_chain.
Proof.
  split.
  - intros i t [[-> ->]|[-> ->]]%sync_chain_Some; by vm_compute.
  - intros i t [[-> ->]|[-> ->]]%sync_chain_Some; by vm_compute.
  - intros i t [[-> ->]|[-> ->]]%sync_chain_Some Hi; [lia|]. by exists sync_first.
  - intros i t [[-> ->]|[-> ->]]%sync_chain_Some; apply NoDup_singleton.
  - intros i j t u r [[-> ->]|[-> ->]]%sync_chain_Some [[-> ->]|[-> ->]]%sync_chain_Some; try done;
      intros ->%list_elem_of_singleton Hr%list_elem_of_singleton; by vm_compute in Hr.
Qed.

Lemma sync_no_collision : @no_collision test_crypto sync_chain [[1]; [2]].
Proof.
  intros s i t Hs [[-> ->]|[-> ->]]%sync_chain_Some Hh;
    repeat (apply elem_of_cons in Hs as [->|Hs]; [first [done|by vm_compute in Hh]|]); by apply elem_of_nil in Hs.
Qed.

Lemma sync_valid a : a ∈ [0; 1; 2] →
  @valid_block test_crypto (λ _, Ok tt) test_verifier (sync_signed a [commit_reference sync_second]).
Proof.
  intros Ha. destruct (@verify_spec test_crypto (λ _, Ok tt) test_verifier (sync_signed a [commit_reference sync_second])
    test_committee_ok) as (r & Hr & Hiff). apply Hiff.
  repeat (apply elem_of_cons in Ha as [->|Ha]; [vm_compute in Hr; by injection Hr|]). by apply elem_of_nil in Ha.
Qed.

Lemma sync_valid_votes : @valid_votes test_crypto test_decode (λ _, Ok tt) test_verifier sync_votes
  ((λ a, sync_signed a [commit_reference sync_second]) <$> [0; 1; 2]).
Proof. repeat (apply Forall2_cons_2; [split; [done|apply sync_valid; set_solver]|]). constructor. Qed.

Lemma sync_honest_votes :
  @honest_votes test_crypto test_decode (λ _, Ok tt) test_verifier {[3]} sync_chain sync_votes.
Proof.
  intros s b vote Hs Hdec _ _ Hvote. exists sync_second.
  repeat (apply elem_of_cons in Hs as [->|Hs];
    [injection Hdec as <-; apply list_elem_of_singleton in Hvote as ->; done|]). by apply elem_of_nil in Hs.
Qed.

Lemma fetch_once_correct_witness :
  ∃ cc, @fetch_once test_crypto test_decode (λ _, Ok tt) test_verifier 1 3 (CommitRange_new 1 5)
          (Ok ([[1]; [2]], sync_votes)) sync_fetch_blocks = Ret (Ok cc) ∧
    from_chain sync_chain 1 (certified_commit <$> certified_commits cc) ∧
    length (certified_commits cc) = 2%nat.
Proof.
  destruct (@fetch_once_correct test_crypto test_decode (λ _, Ok tt) test_verifier {[3]} sync_chain 1 3
    (CommitRange_new 1 5) (Ok ([[1]; [2]], sync_votes)) sync_fetch_blocks) as (r & Hr & Hok);
    [apply test_committee_ok|by vm_compute|apply sync_chain_ok|done|done|done| |].
  - intros ss vs [= <- <-]. split; [apply sync_no_collision|apply sync_honest_votes].
  - pose proof Hr as Hr'. vm_compute in Hr'. destruct r as [cc|e]; [|done].
    exists cc. split; [exact Hr|]. destruct (Hok cc eq_refl) as [_ Hts _ _]. split; [exact Hts|].
    by injection Hr' as <-.
Defined.

Lemma fetch_once_accepts_honest_witness :
  ∃ cc, @fetch_once test_crypto test_decode (λ _, Ok tt) test_verifier 1 3 (CommitRange_new 1 5)
          (Ok ([[1]; [2]], sync_votes)) sync_fetch_blocks = Ret (Ok cc) ∧
    certified_commit <$> certified_commits cc = [sync_first; sync_second].
Proof.
  refine (@fetch_once_accepts_honest test_crypto test_decode (λ _, Ok tt) test_verifier sync_chain 1 3
    (CommitRange_new 1 5) [sync_first; sync_second] sync_second sync_votes
    ((λ a, sync_signed a [commit_reference sync_second]) <$> [0; 1; 2]) sync_fetch_blocks test_committee_ok sync_chain_ok _ _ _ _ _ eq_refl sync_valid_votes _);
    [done|done|done| | |].
  - intros [|[|k]] t Hk; by simplify_eq/=.
  - intros t Ht. repeat (apply elem_of_cons in Ht as [->|Ht]; [by vm_compute|]). by apply elem_of_nil in Ht.
  - intros i request _ Hreq. exists ((λ r, [20 + ref_author r]) <$> request). split; [done|].
    unfold answers. rewrite Forall2_fmap_r. apply Forall_Forall2_diag, Forall_forall. intros r Hr.
    apply Hreq in Hr. repeat (apply elem_of_cons in Hr as [->|Hr]; [by eexists|]). by apply elem_of_nil in Hr.
Defined.

(** Two votes of four are rejected, naming the stake they hold. *)
Lemma verify_commits_errors_witness :
  ∃ r, @verify_commits test_crypto test_decode (λ _, Ok tt) test_verifier 3 (CommitRange_new 1 5)
         [[1]; [2]] [[30]; [31]] = Ret r ∧
    r = Err (NotEnoughCommitVotes 2 3 (commit_inner sync_second)) ∧
    ∀ e, r = Err e → @defect test_crypto test_decode (λ _, Ok tt) test_verifier 3 (CommitRange_new 1 5) [[1]; [2]] [[30]; [31]] e.
Proof.
  destruct (@verify_commits_errors test_crypto test_decode (λ _, Ok tt) test_verifier 3 (CommitRange_new 1 5)
    [[1]; [2]] [[30]; [31]] test_committee_ok) as (r & Hr & Hdef).
  exists r. split; [exact Hr|]. split; [|exact Hdef]. vm_compute in Hr. by injection Hr as <-.
Defined.
