(* ===== verification/AuthorityService.v ===== *)
(** * AuthorityService: the requests of the other authorities

    Models [consensus/core/src/authority_service.rs]: the handlers of the requests
    that peers send, over the state they share with the rest of the node, the Core
    thread with its DAG state and store, the monitor of commit votes, the counter
    of subscriptions and the synchronizer, of which the requests for missing
    blocks are recorded.  A handler that awaits is cut at its await points: other
    handlers and the Core thread run in between. *)
From S2P Require Import Prelude Committee Block StakeAggregator ThresholdClock Commit Error BlockVerifier Store.
From S2P Require Import ScoringMetrics LeaderScoring DagState LeaderSchedule Linearizer BaseCommitter UniversalCommitter.
From S2P Require Import BlockManager QuorumRounds Ancestor Transactions CommitObserver Core CoreThread Subscriptions.
From S2P Require Import DagInv DagOps DagReads MemStore TestDag BlockManagerTheorems HandleCommit Election Proposal CoreCommit CoreRun NodeRun.
Local Open Scope N_scope.
Local Open Scope rust_scope.

Definition COMMIT_LAG_MULTIPLIER : N := 5.
Definition MAX_ADDITIONAL_BLOCKS : N := 10.

Record ExtendedSerializedBlock := mk_extended_serialized {
  es_block : bytes;
  es_excluded_ancestors : list bytes;
}.

(** The parameters and the protocol flag that the service reads; durations are in
    nanoseconds. *)
Record ServiceParameters := mk_service_parameters {
  max_forward_time_drift : N;
  max_blocks_per_fetch : N;
  max_blocks_per_sync : N;
  service_commit_sync_batch_size : N;
  consensus_batched_block_sync : bool;
}.

Record AuthorityService (St : Type) := mk_service {
  sv_context : Context;
  sv_parameters : ServiceParameters;
  sv_commit_vote_monitor : CommitVoteMonitor;
  sv_block_verifier : SignedBlockVerifier;
  sv_core_dispatcher : CoreThread St;
  sv_subscription_counter : Counter;
  (* the calls of [SynchronizerHandle::fetch_blocks] *)
  sv_fetch_requests : list (gset BlockRef * AuthorityIndex);
}.
Arguments mk_service {St}. Arguments sv_context {St}. Arguments sv_parameters {St}. Arguments sv_commit_vote_monitor {St}.
Arguments sv_block_verifier {St}. Arguments sv_core_dispatcher {St}. Arguments sv_subscription_counter {St}. Arguments sv_fetch_requests {St}.

Definition from_millis (ms : N) : N := ms * 1000000.

Section service.
Context {St : Type} `{Store St} `{Crypto} `{BcsDecode} (verify_batch : list bytes → result unit string) (decode_ref : bytes → option BlockRef).
Implicit Type s : AuthorityService St.

Definition AuthorityService_new (ctx : Context) (params : ServiceParameters) (v : SignedBlockVerifier) (m : CommitVoteMonitor) (ct : CoreThread St)
    : AuthorityService St := mk_service ctx params m v ct (SubscriptionCounter_new ctx) [].

(** The state shared with Core. *)
Definition sv_dag_state s : DagState St := co_dag_state (ct_core (sv_core_dispatcher s)).
Definition sv_store s : St := ds_store (sv_dag_state s).

Definition set_monitor s (m : CommitVoteMonitor) : AuthorityService St :=
  mk_service (sv_context s) (sv_parameters s) m (sv_block_verifier s) (sv_core_dispatcher s) (sv_subscription_counter s) (sv_fetch_requests s).
Definition set_dispatcher s (ct : CoreThread St) : AuthorityService St :=
  mk_service (sv_context s) (sv_parameters s) (sv_commit_vote_monitor s) (sv_block_verifier s) ct (sv_subscription_counter s) (sv_fetch_requests s).
Definition set_subscriptions s (counter : Counter) (ct : CoreThread St) : AuthorityService St :=
  mk_service (sv_context s) (sv_parameters s) (sv_commit_vote_monitor s) (sv_block_verifier s) ct counter (sv_fetch_requests s).
Definition request_fetch s (missing : gset BlockRef) (peer : AuthorityIndex) : AuthorityService St :=
  if decide (missing = ∅) then s
  else mk_service (sv_context s) (sv_parameters s) (sv_commit_vote_monitor s) (sv_block_verifier s) (sv_core_dispatcher s)
         (sv_subscription_counter s) (sv_fetch_requests s ++ [(missing, peer)]).

(** ** [handle_send_block] *)

(** Up to the wait for the block's timestamp; with the time to sleep, in
    milliseconds. *)
Definition receive_block s (now : N) (peer : AuthorityIndex) (block : bytes) : outcome (ConsensusResult (VerifiedBlock * N)) :=
  let ctx := sv_context s in
  _ ← authority (committee ctx) peer;
  match decode_signed_block block with
  | None => Ret (Err MalformedBlock)
  | Some signed_block =>
    if negb (peer =? author signed_block) then Ret (Err (UnexpectedAuthority (author signed_block) peer))
    else
      r ← verify verify_batch (sv_block_verifier s) signed_block;
      try r (λ _,
        let verified_block := new_verified signed_block block in
        let forward_time_drift := timestamp_ms verified_block - now in
        if negb (consensus_median_timestamp_with_checkpoint_enforcement (protocol_config ctx)) then
          if max_forward_time_drift (sv_parameters s) <? from_millis forward_time_drift
          then Ret (Err (BlockRejected (reference verified_block) "Block timestamp is too far in the future: {} > {}"))
          else Ret (Ok (verified_block, forward_time_drift))
        else Ret (Ok (verified_block, 0)))
  end.

(** The commit is so far behind the quorum that blocks are not taken. *)
Definition commit_lagging s (m : CommitVoteMonitor) : bool :=
  last_commit_index (sv_dag_state s) +32 (service_commit_sync_batch_size (sv_parameters s) *32 COMMIT_LAG_MULTIPLIER) <? quorum_commit_index m.

(** From the observation of the votes to the dispatch of the block to Core. *)
Definition admit_block s (verified_block : VerifiedBlock) (sender : N) : outcome (AuthorityService St * ConsensusResult unit) :=
  m ← observe_block (sv_commit_vote_monitor s) verified_block;
  let s := set_monitor s m in
  if commit_lagging s m then
    Ret (s, Err (BlockRejected (reference verified_block) "Last commit index is lagging quorum commit index too much ({last_commit_index} < {quorum_commit_index})"))
  else
    ct ← dispatch_add_blocks (sv_core_dispatcher s) [verified_block] sender;
    Ret (set_dispatcher s ct, Ok tt).

(** The excluded ancestors that came with the block. *)
Definition check_excluded s (excluded_ancestors : list bytes) (sender : N) : outcome (AuthorityService St * ConsensusResult unit) :=
  let c := committee (sv_context s) in
  match mapM decode_ref excluded_ancestors with
  | None => Ret (s, Err MalformedBlock)
  | Some excluded_ancestors =>
    let excluded_ancestors := take (N.to_nat (committee_size c * 2)) excluded_ancestors in
    (* the hostnames, for the metrics *)
    _ ← mapM (λ r, authority c (ref_author r)) excluded_ancestors;
    Ret (set_dispatcher s (dispatch_check_block_refs (sv_core_dispatcher s) excluded_ancestors sender), Ok tt)
  end.

(** Where a call of the handler stands. *)
Inductive SendBlock :=
| Received (message : ExtendedSerializedBlock)
| Timely (verified_block : VerifiedBlock) (wait : N) (excluded_ancestors : list bytes)
| Adding (excluded_ancestors : list bytes)
| Checking
| Handled (r : ConsensusResult unit).

(** One stretch of the handler.  [now] is the time at the start; [answer] is what
    Core sent back, or that it has shut down. *)
Definition handle_send_block s (peer : AuthorityIndex) (sender now : N) (answer : option (gset BlockRef)) (p : SendBlock)
    : outcome (AuthorityService St * SendBlock) :=
  match p with
  | Received message =>
    r ← receive_block s now peer (es_block message);
    Ret (s, match r : ConsensusResult (VerifiedBlock * N) with
            | Ok (verified_block, wait) => Timely verified_block wait (es_excluded_ancestors message)
            | Err e => Handled (Err e)
            end)
  | Timely verified_block _ excluded_ancestors =>
    '(s, r) ← admit_block s verified_block sender;
    Ret (s, match r : ConsensusResult unit with Ok _ => Adding excluded_ancestors | Err e => Handled (Err e) end)
  | Adding excluded_ancestors =>
    match answer with
    | None => Ret (s, Handled (Err Shutdown))
    | Some missing_ancestors =>
      let s := request_fetch s missing_ancestors peer in
      '(s, r) ← check_excluded s excluded_ancestors sender;
      Ret (s, match r : ConsensusResult unit with Ok _ => Checking | Err e => Handled (Err e) end)
    end
  | Checking =>
    match answer with
    | None => Ret (s, Handled (Err Shutdown))
    | Some missing_excluded_ancestors => Ret (request_fetch s missing_excluded_ancestors peer, Handled (Ok tt))
    end
  | Handled r => Ret (s, Handled r)
  end.

(** ** [handle_subscribe_blocks] *)

(** The blocks that the peer missed; the stream of new blocks is counted. *)
Definition handle_subscribe_blocks s (peer : AuthorityIndex) (last_received : Round) : outcome (AuthorityService St * list ExtendedSerializedBlock) :=
  missed_blocks ← get_cached_blocks (sv_dag_state s) (own_index (sv_context s)) (last_received +32 1);
  '(counter, ct) ← subscribe (sv_context s) (sv_subscription_counter s, sv_core_dispatcher s) (Subscribe peer);
  Ret (set_subscriptions s counter ct, (λ b : VerifiedBlock, mk_extended_serialized (serialized b) []) <$> (missed_blocks : list VerifiedBlock)).

(** ** [handle_fetch_blocks] *)

(** The quick validation of the requested references. *)
Fixpoint validate_refs (c : Committee) (block_refs : list BlockRef) : ConsensusResult unit :=
  match block_refs with
  | [] => Ok tt
  | r :: block_refs =>
    if negb (is_valid_index c (ref_author r)) then Err (InvalidAuthorityIndex (ref_author r) (committee_size c))
    else if ref_round r =? GENESIS_ROUND then Err UnexpectedGenesisBlockRequested
    else validate_refs c block_refs
  end.

(** The first [n] references above the rounds that the peer has. *)
Fixpoint newer_refs (highest_accepted_rounds : list Round) (n : nat) (refs : list BlockRef) : outcome (list BlockRef) :=
  match n, refs with
  | O, _ | _, [] => Ret []
  | S n', r :: refs =>
    accepted ← vec_index highest_accepted_rounds (ref_author r);
    if accepted <? ref_round r then rest ← newer_refs highest_accepted_rounds n' refs; Ret (r :: rest)
    else newer_refs highest_accepted_rounds n refs
  end.

(** Without [consensus_batched_block_sync]. *)
Definition fetch_unbatched s (peer : AuthorityIndex) (block_refs : list BlockRef) (highest_accepted_rounds : list Round)
    : outcome (ConsensusResult (list VerifiedBlock)) :=
  let c := committee (sv_context s) in
  let d := sv_dag_state s in
  let commit_sync_handle := bool_decide (highest_accepted_rounds = []) in
  let n := N.of_nat (length highest_accepted_rounds) in
  if max_blocks_per_fetch (sv_parameters s) <? N.of_nat (length block_refs) then Ret (Err (TooManyFetchBlocksRequested peer))
  else if negb commit_sync_handle && negb (n =? committee_size c) then Ret (Err (InvalidSizeOfHighestAcceptedRounds n (committee_size c)))
  else
    blocks ← get_blocks d block_refs;
    ancestor_blocks ←
      (if commit_sync_handle then Ret []
       else
         all_ancestors ← newer_refs highest_accepted_rounds (N.to_nat MAX_ADDITIONAL_BLOCKS)
                           (omap id (blocks : list (option VerifiedBlock)) ≫= λ b : VerifiedBlock, ancestors b);
         if bool_decide (all_ancestors = []) then Ret [] else get_blocks d all_ancestors);
    Ret (Ok (omap id (blocks ++ ancestor_blocks))).

(** Writes what was read back to the places of the references. *)
Definition put_back (blocks : list (option VerifiedBlock)) (indices : list N) (found : list (option VerifiedBlock)) : outcome (list (option VerifiedBlock)) :=
  foldM (λ blocks '((idx, block) : N * option VerifiedBlock), vec_set blocks idx block) blocks (zip indices found).

(** For commit sync: the blocks below the garbage collection round come from the
    store. *)
Definition fetch_committed s (block_refs : list BlockRef) : outcome (ConsensusResult (list VerifiedBlock)) :=
  let d := sv_dag_state s in
  let block_refs := take (N.to_nat (max_blocks_per_fetch (sv_parameters s))) block_refs in
  let below_gc := filter (λ p : N * BlockRef, ref_round p.2 < gc_round d) (enumerate block_refs) in
  let above_gc := filter (λ p : N * BlockRef, ¬ (ref_round p.2 < gc_round d)) (enumerate block_refs) in
  let blocks := replicate (length block_refs) None in
  r ← (if bool_decide (below_gc = []) then Ret (Ok blocks)
       else
         found ← read_blocks (sv_store s) below_gc.*2;
         try found (λ found, blocks ← put_back blocks below_gc.*1 found; Ret (Ok blocks)));
  try r (λ blocks,
    blocks ← (if bool_decide (above_gc = []) then Ret blocks
              else found ← get_blocks d above_gc.*2; put_back blocks above_gc.*1 found);
    Ret (Ok (omap id (blocks : list (option VerifiedBlock))))).

Fixpoint dedup (refs : list BlockRef) : list BlockRef :=
  match refs with
  | r :: (r' :: _) as rest => if decide (r = r') then dedup rest else r :: dedup rest
  | _ => refs
  end.

Definition lowest_missing (rounds : gmap AuthorityIndex Round) (r : BlockRef) : gmap AuthorityIndex Round :=
  <[ref_author r := N.min (default (ref_round r) (rounds !! ref_author r)) (ref_round r)]> rounds.

(** The additional blocks of the authorities, until there are enough. *)
Fixpoint add_cached s (highest_accepted_rounds : list Round) (blocks : list VerifiedBlock) (ordered : list (AuthorityIndex * Round))
    : outcome (list VerifiedBlock) :=
  let limit := max_blocks_per_sync (sv_parameters s) in
  match ordered with
  | [] => Ret blocks
  | (a, lowest_missing_round) :: ordered =>
    highest_accepted_round ← vec_index highest_accepted_rounds a;
    if lowest_missing_round <=? highest_accepted_round then add_cached s highest_accepted_rounds blocks ordered
    else
      missing_blocks ← get_cached_blocks_in_range (sv_dag_state s) a (highest_accepted_round +32 1) lowest_missing_round
                         (limit - N.of_nat (length blocks));
      let blocks := blocks ++ missing_blocks in
      if limit <=? N.of_nat (length blocks) then Ret (take (N.to_nat limit) blocks)
      else add_cached s highest_accepted_rounds blocks ordered
  end.

(** For the synchronizer. *)
Definition fetch_missing s (block_refs : list BlockRef) (highest_accepted_rounds : list Round) : outcome (ConsensusResult (list VerifiedBlock)) :=
  let own := own_index (sv_context s) in
  let block_refs := take (N.to_nat (max_blocks_per_sync (sv_parameters s))) block_refs in
  let block_refs := dedup (stable_sort (λ a b, bool_decide (ref_le a b)) block_refs) in
  found ← get_blocks (sv_dag_state s) block_refs;
  let blocks := omap id (found : list (option VerifiedBlock)) in
  let lowest_missing_rounds := foldl lowest_missing ∅ (reference <$> blocks) in
  let key (p : AuthorityIndex * Round) := if p.1 =? own then 0 else 1 in
  blocks ← add_cached s highest_accepted_rounds blocks (stable_sort (λ p q, key p <=? key q) (btree_entries lowest_missing_rounds));
  Ret (Ok blocks).

Definition handle_fetch_blocks s (peer : AuthorityIndex) (block_refs : list BlockRef) (highest_accepted_rounds : list Round)
    : outcome (ConsensusResult (list bytes)) :=
  try (validate_refs (committee (sv_context s)) block_refs) (λ _,
    r ← (if negb (consensus_batched_block_sync (sv_parameters s)) then fetch_unbatched s peer block_refs highest_accepted_rounds
         else if bool_decide (highest_accepted_rounds = []) then fetch_committed s block_refs
         else fetch_missing s block_refs highest_accepted_rounds);
    Ret (match r : ConsensusResult (list VerifiedBlock) with Ok blocks => Ok ((λ b : VerifiedBlock, serialized b) <$> blocks) | Err e => Err e end)).

(** ** [handle_fetch_commits] *)

(** The loop that drops the last commit until a quorum has voted for it; [commits]
    are the last first. *)
Fixpoint certified_prefix s (commits : list TrustedCommit) : outcome (ConsensusResult (list TrustedCommit * list BlockRef)) :=
  match commits with
  | [] => Ret (Ok ([], []))
  | c :: rest =>
    votes ← read_commit_votes (sv_store s) (commit_index c);
    try votes (λ votes,
      stake_aggregator ← add_votes (T := QuorumThreshold) StakeAggregator_new (ref_author <$> votes) (committee (sv_context s));
      if reached_threshold stake_aggregator (committee (sv_context s)) then Ret (Ok (reverse commits, votes))
      else certified_prefix s rest)
  end.

Definition handle_fetch_commits s (peer : AuthorityIndex) (commit_range : CommitRange) : outcome (ConsensusResult (list TrustedCommit * list VerifiedBlock)) :=
  let inclusive_end := N.min (range_end commit_range)
    (range_start commit_range +32 service_commit_sync_batch_size (sv_parameters s) -32 1) in
  commits ← scan_commits (sv_store s) (CommitRange_new (range_start commit_range) inclusive_end);
  try commits (λ commits,
    r ← certified_prefix s (reverse commits);
    try r (λ '((commits, certifier_block_refs) : list TrustedCommit * list BlockRef),
      certifier_blocks ← read_blocks (sv_store s) certifier_block_refs;
      try certifier_blocks (λ certifier_blocks, Ret (Ok (commits, omap id (certifier_blocks : list (option VerifiedBlock))))))).

(** ** [handle_fetch_latest_blocks] *)
Definition handle_fetch_latest_blocks s (peer : AuthorityIndex) (auths : list AuthorityIndex) : outcome (ConsensusResult (list bytes)) :=
  let c := committee (sv_context s) in
  if committee_size c <? N.of_nat (length auths) then Ret (Err (TooManyAuthoritiesProvided peer))
  else
    match find (λ a, negb (is_valid_index c a)) auths with
    | Some a => Ret (Err (InvalidAuthorityIndex a (committee_size c)))
    | None =>
      blocks ← mapM (get_last_block_for_authority (sv_dag_state s)) auths;
      Ret (Ok ((λ b : VerifiedBlock, serialized b) <$> filter (λ b : VerifiedBlock, round b ≠ GENESIS_ROUND) blocks))
    end.

(** ** [handle_get_latest_rounds] *)
Definition handle_get_latest_rounds s (peer : AuthorityIndex) : outcome (ConsensusResult (list Round * list Round)) :=
  let own := own_index (sv_context s) in
  blocks ← get_last_cached_block_per_authority (sv_dag_state s) U32_MAX;
  let highest_accepted_rounds := (λ p : VerifiedBlock * list BlockRef, round p.1) <$> (blocks : list (VerifiedBlock * list BlockRef)) in
  own_round ← vec_index highest_accepted_rounds own;
  highest_received_rounds ← vec_set (highest_received_rounds (sv_core_dispatcher s)) own own_round;
  Ret (Ok (highest_received_rounds, highest_accepted_rounds)).
End service.

(** ** Which blocks come in *)

Section base.
Context {St : Type} `{StoreLaws St} `{Crypto} `{BcsDecode} (verify_batch : list bytes → result unit string) (v : SignedBlockVerifier).
Implicit Type s : AuthorityService St.

(** What the handler of sent blocks relies on, whatever the protocol version: the
    verifier and the vote monitor are of the node's committee, and the dispatcher
    counts the received rounds of every authority. *)
Record service_base s : Prop := {
  sb_committee : committee_ok (committee (sv_context s));
  sb_verifier : sv_block_verifier s = v ∧ committee (verifier_context v) = committee (sv_context s);
  sb_monitor : committee (cv_context (sv_commit_vote_monitor s)) = committee (sv_context s) ∧
    length (cv_highest_voted_commits (sv_commit_vote_monitor s)) = N.to_nat (committee_size (committee (sv_context s)));
  sb_received : length (ct_highest_received_rounds (sv_core_dispatcher s)) = N.to_nat (committee_size (committee (sv_context s)));
}.

(** The block [b] that a peer may send as [bs] at the time [now]. *)
Definition admissible s (now : N) (peer : AuthorityIndex) (bs : bytes) (b : VerifiedBlock) : Prop :=
  ∃ signed, decode_signed_block bs = Some signed ∧ b = new_verified signed bs ∧ author signed = peer ∧ valid_block verify_batch v signed ∧
    (consensus_median_timestamp_with_checkpoint_enforcement (protocol_config (sv_context s)) = false →
     from_millis (timestamp_ms b - now) <= max_forward_time_drift (sv_parameters s)).

(** The first stretch decides whether the block may come in. *)
Lemma receive_block_spec s now peer bs : service_base s → is_valid_index (committee (sv_context s)) peer →
  ∃ r, receive_block verify_batch s now peer bs = Ret r ∧
    match r with
    | Ok (b, wait) => admissible s now peer bs b ∧
        wait = (if consensus_median_timestamp_with_checkpoint_enforcement (protocol_config (sv_context s)) then 0 else timestamp_ms b - now)
    | Err _ => ∀ b, ¬ admissible s now peer bs b
    end.
Proof.
  intros [Hc [Hve Hvc] _ _] Hp. unfold receive_block, admissible. destruct (authority_ret _ peer Hp) as [au ->].
  cbn [mbind outcome_bind]. destruct (decode_signed_block bs) as [signed|] eqn:Hd; [|eexists; split; [done|]; intros b (? & ? & _); done].
  destruct (N.eqb_spec peer (author signed)) as [Ha|Ha]; cbn [negb].
  2:{ eexists. split; [done|]. intros b (? & [= <-] & _ & Hb & _). done. }
  rewrite Hve. destruct (verify_spec verify_batch v signed) as (r & -> & Hiff); [by rewrite Hvc|]. cbn [mbind outcome_bind].
  destruct r as [[]|e]; cbn [try].
  2:{ eexists. split; [done|]. intros b (? & [= <-] & _ & _ & Hval & _). apply Hiff in Hval. done. }
  destruct (consensus_median_timestamp_with_checkpoint_enforcement _) eqn:Hm; cbn [negb].
  { eexists. split; [done|]. split; [|done]. exists signed. split_and!; try done. by apply Hiff. }
  destruct (N.ltb_spec (max_forward_time_drift (sv_parameters s)) (from_millis (timestamp_ms (new_verified signed bs) - now))) as [Hlt|Hle].
  - eexists. split; [done|]. intros b (? & [= <-] & -> & _ & _ & Ht). specialize (Ht eq_refl). lia.
  - eexists. split; [done|]. split; [|done]. exists signed. split_and!; try done. by apply Hiff.
Qed.

Lemma dispatch_add_blocks_ret (c : Committee) (ct : CoreThread St) blocks sender :
  length (ct_highest_received_rounds ct) = N.to_nat (committee_size c) → (∀ b : VerifiedBlock, b ∈ blocks → is_valid_index c (author b)) →
  ∃ ct', dispatch_add_blocks ct blocks sender = Ret ct' ∧ length (ct_highest_received_rounds ct') = N.to_nat (committee_size c).
Proof.
  intros Hl Hb. unfold dispatch_add_blocks. destruct (fetch_max_ok _ (ct_highest_received_rounds ct) blocks Hl) as (rs & -> & Hrs).
  { intros b Hin. specialize (Hb b Hin). apply Is_true_true, N.ltb_lt in Hb. lia. }
  cbn [mbind outcome_bind]. eexists. split; [done|]. unfold send_command. by destruct (_ && _).
Qed.

(** The votes of the block are counted, whether it is taken or not. *)
Definition observed s (b : VerifiedBlock) s' : Prop :=
  observe_block (sv_commit_vote_monitor s) b = Ret (sv_commit_vote_monitor s').

Lemma admit_block_ret s (b : VerifiedBlock) sender : service_base s → is_valid_index (committee (sv_context s)) (author b) →
  ∃ s' r, admit_block s b sender = Ret (s', r) ∧ service_base s' ∧ observed s b s' ∧ sv_context s' = sv_context s ∧
    (if commit_lagging s (sv_commit_vote_monitor s')
     then (∃ e, r = Err (BlockRejected (reference b) e)) ∧ sv_core_dispatcher s' = sv_core_dispatcher s
     else r = Ok tt ∧ dispatch (sv_core_dispatcher s) (AddBlocks [b] sender) = Ret (sv_core_dispatcher s')).
Proof.
  intros [Hc Hve [Hmc Hml] Hrec] Ha. unfold admit_block.
  destruct (observe_block_spec (sv_commit_vote_monitor s) b) as (m & Hm & Hctx & Hl & _); [by rewrite Hmc|by rewrite Hmc|].
  rewrite Hm. cbn [mbind outcome_bind]. change (commit_lagging (set_monitor s m) m) with (commit_lagging s m).
  destruct (commit_lagging s m) eqn:Hlag.
  - eexists _, _. split; [done|]. split; [split; cbn; rewrite ?Hctx, ?Hl; done|]. split; [done|]. split; [done|].
    cbn [sv_commit_vote_monitor set_monitor]. rewrite Hlag. split; [by eexists|done].
  - destruct (dispatch_add_blocks_ret (committee (sv_context s)) (sv_core_dispatcher s) [b] sender Hrec) as (ct' & Hd & Hrec').
    { intros ? ->%list_elem_of_singleton. done. }
    cbn [set_monitor sv_core_dispatcher]. rewrite Hd. cbn [mbind outcome_bind].
    eexists _, _. split; [done|]. split; [split; cbn; rewrite ?Hctx, ?Hl; done|]. split; [done|]. split; [done|].
    cbn [set_dispatcher sv_commit_vote_monitor set_monitor]. rewrite Hlag. done.
Qed.
End base.

(** ** Sending blocks: the service keeps the node's invariant *)

Section sending.
Context {St : Type} `{StoreLaws St} `{RngLaws} `{CryptoLaws} `{CommitBcsLaws} `{!CommitCodec St} `{!BlockCodec St} `{!Signer} (key : bytes) `{!SignerLaws key}.
Context (byz : gset AuthorityIndex) (G : gset BlockRef) (v : SignedBlockVerifier).
Context `{BcsDecode} (verify_batch : list bytes → result unit string) (decode_ref : bytes → option BlockRef).
Implicit Types (E : list VerifiedBlock) (s : AuthorityService St) (log : list (CommittedSubDag * TrustedCommit)).

Let core s := ct_core (sv_core_dispatcher s).

Record service_ok E log s : Prop := {
  so_thread : thread_ok key byz G v E log (sv_core_dispatcher s);
  so_verifier : sv_block_verifier s = v;
  so_context : sv_context s = co_context (core s);
  so_monitor : committee (cv_context (sv_commit_vote_monitor s)) = committee (sv_context s) ∧
    length (cv_highest_voted_commits (sv_commit_vote_monitor s)) = N.to_nat (committee_size (committee (sv_context s)));
}.

(** A valid block was made by its author, and its integers fit their types. *)
Definition genuine E s (bs : bytes) : Prop :=
  ∀ signed, decode_signed_block bs = Some signed → valid_block verify_batch v signed →
    made E (core s) (new_verified signed bs) ∧ storable St (new_verified signed bs).

(** The excluded ancestors name members of the committee. *)
Definition excluded_ok s (excluded : list bytes) : Prop :=
  ∀ refs r, mapM decode_ref excluded = Some refs → r ∈ take (N.to_nat (committee_size (committee (sv_context s)) * 2)) refs →
    is_valid_index (committee (sv_context s)) (ref_author r).

Definition phase_ok E s (p : SendBlock) : Prop :=
  match p with
  | Received m => genuine E s (es_block m) ∧ excluded_ok s (es_excluded_ancestors m)
  | Timely b _ excluded => received_ok v E (core s) [b] ∧ excluded_ok s excluded
  | Adding excluded => excluded_ok s excluded
  | Checking | Handled _ => True
  end.

Lemma excluded_ok_nil s : excluded_ok s [].
Proof. intros refs r [= <-]. rewrite take_nil. by intros ?%elem_of_nil. Qed.

Lemma service_committee E log s : service_ok E log s → committee_ok (committee (sv_context s)) ∧ committee (verifier_context v) = committee (sv_context s).
Proof.
  intros Hs. pose proof (th_live _ _ _ _ _ _ _ (so_thread _ _ _ Hs)) as Hl. destruct (lv_verifier _ _ _ _ _ _ _ Hl) as (Hvc & _).
  rewrite (so_context _ _ _ Hs). unfold core. split; [|done]. destruct (lv_run _ _ _ _ _ _ _ Hl) as [g Hk]. rewrite <-(run_context _ _ _ _ _ _ Hk).
  apply (ok_committee _ (ni_ok _ _ (ro_node _ _ _ _ _ _ Hk))).
Qed.

Lemma service_ok_base E log s : service_ok E log s → service_base v s.
Proof.
  intros Hs. destruct (service_committee _ _ _ Hs) as [Hc Hvc]. split; [done|by split; [apply (so_verifier _ _ _ Hs)|]|apply (so_monitor _ _ _ Hs)|].
  rewrite (so_context _ _ _ Hs). apply (th_received _ _ _ _ _ _ _ (so_thread _ _ _ Hs)).
Qed.

Lemma admissible_received E s now peer bs b : genuine E s bs → admissible verify_batch v s now peer bs b → received_ok v E (core s) [b].
Proof. intros Hg (signed & Hd & -> & _ & Hval & _). constructor; [|constructor]. destruct (Hg signed Hd Hval) as [Hm Hst]. split; [done|]. split; [done|]. by exists verify_batch. Qed.

Lemma admit_block_spec E log s b sender s' r : service_ok E log s → received_ok v E (core s) [b] → admit_block s b sender = Ret (s', r) →
  service_ok E log s' ∧ core s' = core s ∧ sv_context s' = sv_context s ∧
    (if commit_lagging s (sv_commit_vote_monitor s')
     then (∃ e, r = Err (BlockRejected (reference b) e)) ∧ sv_core_dispatcher s' = sv_core_dispatcher s
     else r = Ok tt ∧ command_ok v E (core s) (AddBlocks [b] sender) ∧ dispatch (sv_core_dispatcher s) (AddBlocks [b] sender) = Ret (sv_core_dispatcher s')).
Proof.
  intros Hs Hb Heq. pose proof (service_ok_base _ _ _ Hs) as Hbase.
  destruct (admit_block_ret v s b sender Hbase) as (s1 & r1 & Heq1 & Hbase' & Hobs & Hctx & Hres).
  { unfold received_ok in Hb. rewrite Forall_singleton in Hb. destruct Hb as (_ & _ & vb & Hval). rewrite <-(proj2 (sb_verifier _ _ Hbase)). apply (vb_author _ _ _ Hval). }
  rewrite Heq in Heq1. injection Heq1 as <- <-.
  assert (sv_block_verifier s' = v) as Hv by apply Hbase'.
  destruct (commit_lagging s (sv_commit_vote_monitor s')).
  - destruct Hres as [Hr Hd]. unfold core. rewrite Hd. split; [|done]. destruct Hs as [Ht _ Hx _]. split; [by rewrite Hd|done| |apply Hbase'].
    unfold core in *. by rewrite Hd, Hctx.
  - destruct Hres as [Hr Hd]. destruct (dispatch_ok key byz G v E log (sv_core_dispatcher s) (AddBlocks [b] sender) (so_thread _ _ _ Hs) Hb) as (ct' & Hd' & Ht').
    rewrite Hd in Hd'. injection Hd' as <-. pose proof (dispatch_core _ _ _ Hd) as Hcore. unfold core. rewrite Hcore. split; [|done].
    split; [done|done| |apply Hbase']. pose proof (so_context _ _ _ Hs) as Hx. unfold core in *. by rewrite Hcore, Hctx.
Qed.

Lemma request_fetch_same s missing peer : sv_core_dispatcher (request_fetch s missing peer) = sv_core_dispatcher s ∧
  sv_context (request_fetch s missing peer) = sv_context s ∧ sv_commit_vote_monitor (request_fetch s missing peer) = sv_commit_vote_monitor s ∧
  sv_block_verifier (request_fetch s missing peer) = sv_block_verifier s.
Proof. unfold request_fetch. by case_decide. Qed.

Lemma request_fetch_ok E log s missing peer : service_ok E log s → service_ok E log (request_fetch s missing peer).
Proof. destruct (request_fetch_same s missing peer) as (H1' & H2' & H3' & H4'). intros [? ? ? ?]. split; unfold core in *; congruence. Qed.

Lemma check_excluded_spec E log s excluded sender : service_ok E log s → excluded_ok s excluded →
  ∃ s' r, check_excluded decode_ref s excluded sender = Ret (s', r) ∧ service_ok E log s' ∧ core s' = core s ∧
    match mapM decode_ref excluded with
    | None => r = Err MalformedBlock ∧ s' = s
    | Some refs => r = Ok tt ∧
        dispatch (sv_core_dispatcher s) (CheckBlockRefs (take (N.to_nat (committee_size (committee (sv_context s)) * 2)) refs) sender) =
          Ret (sv_core_dispatcher s')
    end.
Proof.
  intros Hs Hex. unfold check_excluded. destruct (mapM decode_ref excluded) as [refs|] eqn:Hm; [|by eexists _, _].
  set (taken := take _ refs). assert (∀ r, r ∈ taken → is_valid_index (committee (sv_context s)) (ref_author r)) as Hval by (intros r; by apply Hex).
  destruct (mapM_is_ret (λ r, authority (committee (sv_context s)) (ref_author r)) taken) as [aus ->]; [intros r Hr; by apply authority_ret, Hval|].
  cbn [mbind outcome_bind]. eexists _, _. split; [done|].
  destruct (dispatch_ok key byz G v E log (sv_core_dispatcher s) (CheckBlockRefs taken sender) (so_thread _ _ _ Hs)) as (ct' & Hd & Ht').
  { pose proof (so_context _ _ _ Hs) as Hx. unfold core in Hx. cbn. rewrite <-Hx. exact Hval. }
  pose proof (dispatch_core _ _ _ Hd) as Hcore. cbn [dispatch] in Hd. injection Hd as Hd. split; [|split; [unfold core; cbn; by rewrite Hd|split; [done|cbn; by rewrite Hd]]].
  destruct Hs as [? ? Hx ?]. unfold core in Hx. split; try done; unfold core; cbn; rewrite Hd; [done|]. by rewrite Hcore.
Qed.

(** What a stretch does to the Core thread: nothing, or one valid command. *)
Definition commanded E s s' : Prop :=
  sv_core_dispatcher s' = sv_core_dispatcher s ∨ ∃ c, command_ok v E (core s) c ∧ dispatch (sv_core_dispatcher s) c = Ret (sv_core_dispatcher s').

Lemma handle_send_block_ok E log s peer sender now answer p : service_ok E log s → is_valid_index (committee (sv_context s)) peer → phase_ok E s p →
  ∃ s' p', handle_send_block verify_batch decode_ref s peer sender now answer p = Ret (s', p') ∧ service_ok E log s' ∧ phase_ok E s' p' ∧
    core s' = core s ∧ sv_context s' = sv_context s ∧ commanded E s s'.
Proof.
  intros Hs Hp Hph. destruct p as [m|b wait excluded|excluded| |r]; cbn [handle_send_block phase_ok] in Hph |- *.
  - destruct Hph as [Hg Hex]. destruct (receive_block_spec verify_batch v s now peer (es_block m) (service_ok_base _ _ _ Hs) Hp) as (r & -> & Hr). cbn [mbind outcome_bind].
    exists s. destruct r as [[b wait]|e]; eexists; (split; [done|]); (split; [done|]); (split; [|by split_and!; [..|left]]); [|done].
    split; [|done]. destruct Hr as [Hr _]. by eapply admissible_received.
  - destruct Hph as [Hb Hex]. destruct (admit_block_ret v s b sender (service_ok_base _ _ _ Hs)) as (s' & r & Ha & _).
    { pose proof (service_ok_base _ _ _ Hs) as Hbase. unfold received_ok in Hb. rewrite Forall_singleton in Hb. destruct Hb as (_ & _ & vb & Hval).
      rewrite <-(proj2 (sb_verifier _ _ Hbase)). apply (vb_author _ _ _ Hval). }
    destruct (admit_block_spec E log s b sender s' r Hs Hb Ha) as (Hs' & Hcore & Hctx & Hr). rewrite Ha. cbn [mbind outcome_bind].
    exists s'. destruct (commit_lagging _ _); [destruct Hr as [[e ->] Hd]|destruct Hr as (-> & _ & Hd)]; eexists; (split; [done|]); (split; [done|]).
    + split; [done|]. split_and!; [done..|]. by left.
    + split; [unfold phase_ok, excluded_ok in *; by rewrite Hctx|]. split_and!; [done..|]. right. by exists (AddBlocks [b] sender).
  - destruct answer as [missing|]; [|exists s; eexists; split; [done|]; split; [done|]; split; [done|]; split_and!; [done..|by left]].
    destruct (request_fetch_same s missing peer) as (Hd1 & Hc1 & _). set (s1 := request_fetch s missing peer) in *.
    destruct (check_excluded_spec E log s1 excluded sender) as (s' & r & Ha & Hs' & Hcore & Hr); [by apply request_fetch_ok|unfold excluded_ok in *; by rewrite Hc1|].
    rewrite Ha. cbn [mbind outcome_bind]. unfold core in Hcore. rewrite Hd1 in Hcore.
    assert (sv_context s' = sv_context s) as Hctx by (rewrite (so_context _ _ _ Hs), (so_context _ _ _ Hs'); unfold core; congruence).
    exists s'. rewrite Hd1 in Hr. destruct (mapM decode_ref excluded) as [refs|] eqn:Hm; [destruct Hr as [-> Hd]|destruct Hr as [-> ->]];
      eexists; (split; [done|]); (split; [done|]); (split; [done|]); split_and!; try done; [|left; done].
    right. eexists. split; [|exact Hd]. cbn. pose proof (so_context _ _ _ Hs) as Hx. unfold core in Hx |- *. rewrite <-Hx, Hc1. intros r Hin. by eapply Hph.
  - destruct answer as [missing|]; [|exists s; eexists; split; [done|]; split; [done|]; split; [done|]; split_and!; [done..|by left]].
    destruct (request_fetch_same s missing peer) as (Hd1 & Hc1 & _). eexists _, _. split; [done|]. split; [by apply request_fetch_ok|]. split; [done|].
    unfold core. rewrite Hd1. split_and!; [done..|by left].
  - exists s. eexists. split; [done|]. split; [done|]. split; [done|]. split_and!; [done..|by left].
Qed.

(** ** The service with the node *)

(** The blocks made elsewhere, the service, and the calls in progress with their
    peers. *)
Definition system : Type := list VerifiedBlock * AuthorityService St * list (AuthorityIndex * SendBlock).

Inductive service_step : system → system → Prop :=
| service_node E s calls E' ct' : node_step byz v (E, sv_core_dispatcher s) (E', ct') → service_step (E, s, calls) (E', set_dispatcher s ct', calls)
| service_call E s calls peer m : is_valid_index (committee (sv_context s)) peer → phase_ok E s (Received m) →
    service_step (E, s, calls) (E, s, calls ++ [(peer, Received m)])
| service_advance E s calls i peer p sender now answer s' p' : calls !! i = Some (peer, p) →
    (length (ct_commands (sv_core_dispatcher s)) < CORE_THREAD_COMMANDS_CHANNEL_SIZE)%nat →
    handle_send_block verify_batch decode_ref s peer sender now answer p = Ret (s', p') →
    service_step (E, s, calls) (E, s', <[i := (peer, p')]> calls).

Definition system_ok log (x : system) : Prop :=
  let '(E, s, calls) := x in
  service_ok E log s ∧ Forall (λ c : AuthorityIndex * SendBlock, is_valid_index (committee (sv_context s)) c.1 ∧ phase_ok E s c.2) calls.

Definition system_thread (x : system) : list VerifiedBlock * CoreThread St := (x.1.1, sv_core_dispatcher x.1.2).

Lemma node_step_grows E log ct E' ct' : thread_ok key byz G v E log ct → node_step byz v (E, ct) (E', ct') →
  (∀ b, b ∈ E → b ∈ E') ∧ broadcasts (ct_core ct) `prefix_of` broadcasts (ct_core ct').
Proof.
  intros Ht Hstep. inversion Hstep as
    [? ? b Hb|? ? c ? _ Hc Hd|? ? exists_|? ? delay received accepted Hr Ha|? ? r Hnone|? ?|fuel rounds ? ? t b ? Hready Hroom Hsel]; subst.
  - split; [set_solver|done].
  - by rewrite (dispatch_core _ _ _ Hd).
  - unfold dispatch_set_quorum_subscribers_exists. by destruct (ct_running ct).
  - unfold dispatch_set_propagation_delay_and_quorum_rounds. by destruct (ct_running ct).
  - unfold dispatch_set_last_known_proposed_round. by destruct (ct_running ct).
  - done.
  - destruct (branch_ok key byz G v fuel rounds E' log ct t b Ht Hroom Hready) as (ct1 & log' & Heq & _ & _ & Hb & _).
    rewrite Hsel in Heq. by injection Heq as <-.
Qed.

Lemma phase_ok_mono E s E' s' p : (∀ b, b ∈ E → b ∈ E') → broadcasts (core s) `prefix_of` broadcasts (core s') → sv_context s' = sv_context s →
  phase_ok E s p → phase_ok E' s' p.
Proof.
  intros HE Hb Hctx. assert (∀ ex, excluded_ok s ex → excluded_ok s' ex) as Hex by (intros ex; unfold excluded_ok; by rewrite Hctx).
  destruct p as [m|b w excluded|excluded| |r]; cbn; try done; [| |apply Hex].
  - intros [Hg He]. split; [|by apply Hex]. intros signed Hd Hval. destruct (Hg signed Hd Hval) as [Hm Hst]. split; [|done].
    by eapply (made_mono key).
  - intros [Hr He]. split; [|by apply Hex]. eapply Forall_impl; [exact Hr|]. intros x (Hm & ? & ?). split; [by eapply (made_mono key)|done].
Qed.

Lemma service_step_ok log x y : system_ok log x → service_step x y →
  ∃ log', log `prefix_of` log' ∧ system_ok log' y ∧ rtc (node_step byz v) (system_thread x) (system_thread y).
Proof.
  intros Hx Hstep. destruct Hstep as [E s calls E' ct' Hn|E s calls peer m Hp Hph|E s calls i peer p sender now answer s' p' Hi Hroom Hh]; destruct Hx as [Hs Hcalls].
  - destruct (node_step_ok key byz G v E log _ E' ct' (so_thread _ _ _ Hs) Hn) as (log' & Ht' & Hpre & Hid).
    destruct (node_step_grows E log _ E' ct' (so_thread _ _ _ Hs) Hn) as [HE Hb]. injection Hid as Hctx _.
    exists log'. split; [done|]. split; [|by apply rtc_once]. split.
    + destruct Hs as [_ ? Hx ?]. unfold core in Hx. split; try done. unfold core. cbn. by rewrite Hctx.
    + eapply Forall_impl; [exact Hcalls|]. intros c [Hv Hph]. split; [done|]. by apply (phase_ok_mono E s).
  - exists log. split; [done|]. split; [|done]. split; [done|]. apply Forall_app. split; [done|]. apply Forall_singleton. by split.
  - destruct (proj1 (Forall_lookup _ _) Hcalls i _ Hi) as [Hp Hph]. cbn [fst snd] in Hp, Hph.
    destruct (handle_send_block_ok E log s peer sender now answer p Hs Hp Hph) as (s1 & p1 & Hh1 & Hs1 & Hph1 & Hcore & Hctx & Hcmd).
    rewrite Hh in Hh1. injection Hh1 as <- <-. exists log. split; [done|]. split; [split; [done|]|].
    + apply Forall_insert; [|cbn; by rewrite Hctx]. eapply Forall_impl; [exact Hcalls|]. intros c [Hv Hc]. rewrite Hctx. split; [done|].
      apply (phase_ok_mono E s); [done|by rewrite Hcore|done|done].
    + unfold system_thread. cbn [fst snd]. destruct Hcmd as [-> | (c & Hc & Hd)]; [done|]. apply rtc_once. by apply (step_send byz v E _ c).
Qed.

Lemma service_run_ok log x y : system_ok log x → rtc service_step x y →
  ∃ log', log `prefix_of` log' ∧ system_ok log' y ∧ rtc (node_step byz v) (system_thread x) (system_thread y).
Proof.
  intros Hx Hr. revert log Hx. induction Hr as [x|x y z Hxy _ IH]; intros log Hx; [by exists log|].
  destruct (service_step_ok _ _ _ Hx Hxy) as (log1 & Hp1 & Hy & Hn1). destruct (IH log1 Hy) as (log2 & Hp2 & Hz & Hn2).
  exists log2. split; [by transitivity log1|]. split; [done|]. by transitivity (system_thread y).
Qed.
End sending.

Section service_theorems.
Context {St : Type} `{StoreLaws St} `{RngLaws} `{CryptoLaws} `{CommitBcsLaws} `{!CommitCodec St} `{!BlockCodec St} `{!Signer} (key : bytes) `{!SignerLaws key}.
Context (byz : gset AuthorityIndex) (v : SignedBlockVerifier).
Context `{BcsDecode} (verify_batch : list bytes → result unit string) (decode_ref : bytes → option BlockRef).

Lemma service_new_ok ctx params G E log (ct : CoreThread St) : thread_ok key byz G v E log ct → co_context (ct_core ct) = ctx →
  service_ok key byz G v E log (AuthorityService_new ctx params v (CommitVoteMonitor_new ctx) ct).
Proof. intros Ht Hctx. split; [done|done|done|]. cbn. by rewrite length_replicate. Qed.

(** C3: the service and the node.  Let a node start as in the runs of a node (with
    the median timestamps), and let the other authorities send messages to its
    service.  Take any state reached by any interleaving of steps of the node, new
    calls, and stretches of the calls in progress.  The bytes sent for a block are
    any, but nobody forges a signature: bytes that pass block verification are a
    block that its author has made, which a Byzantine author may do at any time,
    with any content that passes verification and with links to references of this
    node that do not exist.  The excluded ancestors sent along name members of the
    committee.  Then the steps of the service are steps of the node, so all that
    holds of its runs holds here; in particular what it has sent to its consumer and
    to its peers is right.  And no stretch of a call panics, whatever the time, and
    whatever Core answers. *)
Theorem service_run_safe ctx params gs instant metrics (st : St) fuel0 rounds0 t0 consumer exists_ sync :
  fresh_node key byz v ctx gs instant metrics st consumer → (2 < rounds0)%nat → (1 < fuel0)%nat →
  ∃ k0 ct0, Core_new fuel0 rounds0 t0 ctx (fresh_schedule ctx) consumer (BlockManager_new ctx) exists_ (mk_sender [] false) (CoreSignals_new true)
      (fresh_dag ctx gs instant metrics st) sync = Ret k0 ∧
    CoreThread_start ctx (co_dag_state k0) k0 = Ret ct0 ∧
    ∀ y, rtc (service_step byz v verify_batch decode_ref) ([], AuthorityService_new ctx params v (CommitVoteMonitor_new ctx) ct0, []) y →
      rtc (node_step byz v) ([], ct0) (system_thread y) ∧
      node_safe v (ct_core (sv_core_dispatcher y.1.2)) ∧
      ∀ i peer p sender now answer, y.2 !! i = Some (peer, p) → is_ret (handle_send_block verify_batch decode_ref y.1.2 peer sender now answer p).
Proof.
  intros Hf Hr Hfu. destruct (fresh_new key byz v ctx gs instant metrics st fuel0 rounds0 t0 consumer exists_ sync Hf Hr Hfu) as (k0 & log0 & Hk0 & Hl0 & [= Hctx _] & _).
  destruct (start_ok key byz _ v _ _ _ Hl0) as (ct0 & Hs & Ht0 & Hk). rewrite Hctx in Hs. exists k0, ct0. split; [done|]. split; [done|].
  intros [[E s] calls] Hrun. apply (service_run_ok key byz (list_to_set (reference <$> gs)) v verify_batch decode_ref log0) in Hrun as (log & _ & [Hok Hcalls] & Hn).
  2:{ split; [|constructor]. apply service_new_ok; [exact Ht0|]. by rewrite Hk. }
  split; [done|]. split; [by eapply live_safe, (so_thread _ _ _ _ _ _ _ Hok)|]. intros i peer p sender now answer Hi. cbn [snd fst] in Hi |- *.
  destruct (proj1 (Forall_lookup _ _) Hcalls i _ Hi) as [Hp Hph].
  destruct (handle_send_block_ok key byz _ v verify_batch decode_ref E log s peer sender now answer p Hok Hp Hph) as (s' & p' & -> & _). by eexists.
Qed.

(** C18: which blocks come in, with the median timestamps and without.  When a peer
    sends the bytes of a block, the handler goes on with it exactly when the bytes
    decode to a block of that peer that block verification accepts and, unless
    commit timestamps are medians, whose timestamp is not too far ahead; it then
    waits until that time.  The commit votes of such a block are always counted.  If
    the node's commits lag too far behind the commit that a quorum has voted for,
    counting these votes, the block is then rejected and Core is not asked;
    otherwise it is sent to Core.  In a run of the node this is a command that the
    run allows, and the node's invariant holds afterwards. *)
Theorem send_block_admission (s : AuthorityService St) (peer : AuthorityIndex) (bs : bytes) (sender : N) :
  service_base v s → is_valid_index (committee (sv_context s)) peer →
  (∀ now, ∃ r, receive_block verify_batch s now peer bs = Ret r ∧
    ∀ b wait, r = Ok (b, wait) ↔ admissible verify_batch v s now peer bs b ∧
      wait = (if consensus_median_timestamp_with_checkpoint_enforcement (protocol_config (sv_context s)) then 0 else timestamp_ms b - now)) ∧
  ∀ now b, admissible verify_batch v s now peer bs b →
    ∃ s' r, admit_block s b sender = Ret (s', r) ∧ service_base v s' ∧
      (∀ vote, vote ∈ commit_votes b → commit_ref_index vote <= value_at (cv_highest_voted_commits (sv_commit_vote_monitor s')) peer) ∧
      (if commit_lagging s (sv_commit_vote_monitor s')
       then (∃ e, r = Err (BlockRejected (reference b) e)) ∧ sv_core_dispatcher s' = sv_core_dispatcher s
       else r = Ok tt ∧ dispatch (sv_core_dispatcher s) (AddBlocks [b] sender) = Ret (sv_core_dispatcher s')) ∧
      ∀ G E log, service_ok key byz G v E log s → genuine v verify_batch E s bs →
        service_ok key byz G v E log s' ∧ command_ok v E (ct_core (sv_core_dispatcher s)) (AddBlocks [b] sender).
Proof.
  intros Hs Hp. split.
  - intros now. destruct (receive_block_spec verify_batch v s now peer bs Hs Hp) as (r & Hr & Hspec). exists r. split; [done|].
    intros b wait. destruct r as [[b' wait']|e]; [|split; [done|intros [Hb _]; by destruct (Hspec b)]].
    destruct Hspec as [Ha Hw]. split; [by intros [= -> ->]|]. intros [(sg & Hd & -> & _) ->]. pose proof Ha as (sg' & Hd' & Heq & _).
    rewrite Hd in Hd'. injection Hd' as <-. by subst.
  - intros now b Hb. pose proof Hb as (sg & _ & -> & Hpa & Hval & _). destruct (sb_verifier _ _ Hs) as [_ Hvc]. pose proof (vb_author _ _ _ Hval) as Hau. rewrite Hvc in Hau.
    destruct (admit_block_ret v s (new_verified sg bs) sender Hs Hau) as (s' & r & Ha & Hs' & Hobs & _ & Hres).
    exists s', r. split; [done|]. split; [done|]. split; [|split; [done|]].
    + intros vote Hvote. destruct (sb_monitor _ _ Hs) as [Hmc Hml].
      destruct (observe_block_spec (sv_commit_vote_monitor s) (new_verified sg bs)) as (m & Hm & _ & _ & Hv); [by rewrite Hmc|by rewrite Hmc|].
      unfold observed in Hobs. rewrite Hm in Hobs. injection Hobs as <-. rewrite Hv, decide_True by done. by apply foldr_max_elem, list_elem_of_fmap_2.
    + intros G E log Hok Hg. pose proof (admissible_received v verify_batch E s now peer bs _ Hg Hb) as Hrec.
      by destruct (admit_block_spec key byz G v E log s _ sender s' r Hok Hrec Ha) as (? & _).
Qed.
End service_theorems.

(** ** A concrete service *)

Definition test_sent : VerifiedBlock := test_external 1 1 ([], test_listened).

Definition test_service_decode : BcsDecode := {|
  decode_commit _ := None;
  decode_signed_block bs := if decide (bs = serialized test_sent) then Some (signed_block test_sent) else None;
|}.

Definition test_service_parameters : ServiceParameters := mk_service_parameters 500000000 100 20 5 true.

Definition test_service_start : outcome (CoreThread MemStore) :=
  k ← Core_new (H0 := test_rng) (H1 := test_crypto) (H2 := test_bcs) (H3 := test_signer) 10 10 (test_times 0) (test_context 60)
        (fresh_schedule (test_context 60)) test_core_consumer (BlockManager_new (test_context 60)) true (mk_sender [] false) (CoreSignals_new true)
        (fresh_dag (test_context 60) test_genesis_blocks 0 test_metrics MemStore_new) false;
  CoreThread_start (test_context 60) (co_dag_state k) k.

Lemma test_sent_fresh ct : test_service_start = Ret ct →
  node_step (H1 := test_rng) (H3 := test_crypto) (H5 := test_bcs) (H7 := test_signer) {[3]} test_node_verifier ([], ct) ([test_sent], ct).
Proof.
  intros Hct. assert (match test_service_start with Ret ct => fresh_external_b {[3]} [] (ct_core ct) test_sent | Panic _ => false end = true) as Hb
    by (vm_compute; reflexivity).
  rewrite Hct in Hb. apply (act_sound (H1 := test_rng) (H3 := test_crypto) (H5 := test_bcs) (H7 := test_signer) {[3]} test_node_verifier 50 50 mem_accepts ([], ct) (AcMade test_sent)); [apply test_committee_ok|].
  cbn [act]. by rewrite Hb.
Qed.

Definition test_service (ct : CoreThread MemStore) : AuthorityService MemStore :=
  AuthorityService_new (test_context 60) test_service_parameters test_node_verifier (CommitVoteMonitor_new (test_context 60)) ct.

Lemma test_start_empty ct : test_service_start = Ret ct → ct_commands ct = [].
Proof.
  intros Hct. assert (match test_service_start with Ret ct => match ct_commands ct with [] => true | _ => false end | Panic _ => false end = true) as Hb
    by (vm_compute; reflexivity). rewrite Hct in Hb. destruct (ct_commands ct); [reflexivity|discriminate].
Qed.

Lemma test_service_ok : ∃ ct log, test_service_start = Ret ct ∧
  service_ok (H1 := test_rng) (H3 := test_crypto) (H5 := test_bcs) (H7 := test_signer) test_key {[3]} test_genesis_refs test_node_verifier [test_sent] log (test_service ct).
Proof.
  destruct (fresh_new (H1 := test_rng) (H3 := test_crypto) (H5 := test_bcs) (H7 := test_signer) test_key {[3]} test_node_verifier (test_context 60) test_genesis_blocks 0 test_metrics MemStore_new
    10 10 (test_times 0) test_core_consumer true false test_fresh_node) as (k0 & log0 & Hk0 & Hl0 & [= Hctx _] & _); [lia|lia|].
  destruct (start_ok (H1 := test_rng) (H3 := test_crypto) (H5 := test_bcs) (H7 := test_signer) test_key {[3]} _ test_node_verifier _ _ _ Hl0) as (ct0 & Hs & Ht0 & Hk).
  rewrite Hctx in Hs. exists ct0.
  assert (test_service_start = Ret ct0) as Hst by (unfold test_service_start; rewrite Hk0; exact Hs).
  destruct (node_step_ok (H1 := test_rng) (H3 := test_crypto) (H5 := test_bcs) (H7 := test_signer) test_key {[3]} _ test_node_verifier _ _ _ _ _ Ht0 (test_sent_fresh _ Hst)) as (log & Ht & _ & _).
  exists log. split; [exact Hst|]. apply (service_new_ok (H1 := test_rng) (H3 := test_crypto) (H5 := test_bcs) (H7 := test_signer)); [exact Ht|]. rewrite Hk. exact Hctx.
Qed.

Lemma test_sent_genuine (ct : CoreThread MemStore) : genuine (H3 := test_crypto) (H8 := test_service_decode) test_node_verifier (λ _, Ok tt) [test_sent] (test_service ct) (serialized test_sent).
Proof.
  intros signed Hd _. assert (signed = signed_block test_sent) as ->.
  { unfold decode_signed_block, test_service_decode in Hd. rewrite decide_True in Hd by reflexivity. congruence. }
  assert (new_verified (H := test_crypto) (signed_block test_sent) (serialized test_sent) = test_sent) as -> by (vm_compute; reflexivity).
  split; [left; by apply list_elem_of_singleton|]. split; [vm_compute; repeat split; discriminate|]. split; [|exact I].
  assert (commit_votes test_sent = []) as Hv by (vm_compute; reflexivity). unfold votes_ok. rewrite Hv. constructor.
Qed.

Lemma service_run_safe_witness : ∃ (ct : CoreThread MemStore) (s : AuthorityService MemStore) (p : SendBlock),
  handle_send_block (H0 := test_crypto) (H1 := test_service_decode) (λ _, Ok tt) (λ _, None) (test_service ct) 1 0 105 None
    (Received (mk_extended_serialized (serialized test_sent) [])) = Ret (s, p) ∧
  node_safe (H3 := test_crypto) test_node_verifier (ct_core (sv_core_dispatcher s)) ∧
  is_ret (handle_send_block (H0 := test_crypto) (H1 := test_service_decode) (λ _, Ok tt) (λ _, None) s 1 0 106 None p).
Proof.
  destruct test_service_ok as (ct & log & Hct & Hok).
  destruct (service_run_safe (H1 := test_rng) (H3 := test_crypto) (H5 := test_bcs) (H7 := test_signer) (H8 := test_service_decode) test_key {[3]} test_node_verifier (λ _, Ok tt) (λ _, None)
    (test_context 60) test_service_parameters test_genesis_blocks 0 test_metrics MemStore_new 10 10 (test_times 0) test_core_consumer true false test_fresh_node)
    as (k0 & ct0 & Hk0 & Hct0 & Hrun); [lia|lia|].
  pose proof Hct as Hst. unfold test_service_start in Hct. rewrite Hk0 in Hct. cbn [mbind outcome_bind] in Hct. rewrite Hct0 in Hct. injection Hct as ->.
  assert (phase_ok (H3 := test_crypto) (H8 := test_service_decode) test_node_verifier (λ _, Ok tt) (λ _, None) [test_sent] (test_service ct)
    (Received (mk_extended_serialized (serialized test_sent) []))) as Hph.
  { split; [apply test_sent_genuine|apply excluded_ok_nil]. }
  destruct (handle_send_block_ok (H1 := test_rng) (H3 := test_crypto) (H5 := test_bcs) (H7 := test_signer) (H8 := test_service_decode) test_key {[3]} test_genesis_refs test_node_verifier
    (λ _, Ok tt) (λ _, None) [test_sent] log (test_service ct) 1 0 105 None _ Hok I Hph) as (s & p & Hh & _).
  destruct (Hrun ([test_sent], s, [(1, p)])) as (_ & Hsafe & Hret).
  { eapply rtc_l; [apply service_node, (test_sent_fresh ct Hst)|]. eapply rtc_l; [apply (service_call _ _ _ _ _ (test_service ct) [] 1); [exact I|exact Hph]|].
    eapply rtc_l; [|apply rtc_refl]. refine (service_advance _ _ _ _ _ (test_service ct) _ 0 1 _ 0 105 None s p _ _ _); [reflexivity| |exact Hh].
    change (sv_core_dispatcher (test_service ct)) with ct. rewrite (test_start_empty ct Hst). apply Nat.ltb_lt. vm_compute. reflexivity. }
  exists ct, s, p. split; [exact Hh|]. split; [exact Hsafe|]. exact (Hret 0%nat 1 p 0 106 None eq_refl).
Defined.

Lemma test_sent_valid ctx : committee ctx = committee (test_context 60) → verify (H := test_crypto) (λ _, Ok tt) (mk_verifier ctx test_genesis_refs) test_sent = Ret (Ok tt) →
  valid_block (H := test_crypto) (λ _, Ok tt) (mk_verifier ctx test_genesis_refs) test_sent.
Proof.
  intros Hc Hv. destruct (verify_spec (H := test_crypto) (λ _, Ok tt) (mk_verifier ctx test_genesis_refs) test_sent) as (r & Hr & Hiff).
  { cbn [verifier_context]. rewrite Hc. apply test_committee_ok. }
  apply Hiff. rewrite Hr in Hv. congruence.
Qed.

(** A node of a protocol version without the median: the block is five
    milliseconds early. *)
Definition test_late_verifier : SignedBlockVerifier := mk_verifier test_no_median test_genesis_refs.

Definition test_late_start : outcome (CoreThread MemStore) :=
  k ← Core_new (H0 := test_rng) (H1 := test_crypto) (H2 := test_bcs) (H3 := test_signer) 10 10 (test_times 0) test_no_median
        (fresh_schedule test_no_median) test_core_consumer (BlockManager_new test_no_median) true (mk_sender [] false) (CoreSignals_new true)
        test_late_fresh false;
  CoreThread_start test_no_median (co_dag_state k) k.

Definition test_late_service (ct : CoreThread MemStore) : AuthorityService MemStore :=
  AuthorityService_new test_no_median test_service_parameters test_late_verifier (CommitVoteMonitor_new test_no_median) ct.

Lemma test_late_base : ∃ ct, test_late_start = Ret ct ∧ service_base test_late_verifier (test_late_service ct).
Proof.
  assert (match test_late_start with Ret ct => Nat.eqb (length (ct_highest_received_rounds ct)) 4 | Panic _ => false end = true) as Hb by (vm_compute; reflexivity).
  destruct test_late_start as [ct|]; [|discriminate]. exists ct. split; [reflexivity|]. apply Nat.eqb_eq in Hb.
  split; [apply test_committee_ok|by split|by split|exact Hb].
Qed.

Lemma test_late_admissible (ct : CoreThread MemStore) :
  admissible (H1 := test_crypto) (H2 := test_service_decode) (λ _, Ok tt) test_late_verifier (test_late_service ct) 105 1 (serialized test_sent) test_sent.
Proof.
  exists (signed_block test_sent). split; [|split; [|split; [|split]]].
  - unfold decode_signed_block, test_service_decode. rewrite decide_True by reflexivity. reflexivity.
  - vm_compute. reflexivity.
  - vm_compute. reflexivity.
  - apply test_sent_valid; vm_compute; reflexivity.
  - intros _. apply N.leb_le. vm_compute. reflexivity.
Qed.

Lemma send_block_admission_witness : ∃ (ct : CoreThread MemStore) (s : AuthorityService MemStore) (r : ConsensusResult unit),
  admit_block (test_late_service ct) test_sent 0 = Ret (s, r) ∧
  receive_block (H0 := test_crypto) (H1 := test_service_decode) (λ _, Ok tt) (test_late_service ct) 105 1 (serialized test_sent) = Ret (Ok (test_sent, 5)).
Proof.
  destruct test_late_base as (ct & Hct & Hok).
  destruct (send_block_admission (H1 := test_rng) (H3 := test_crypto) (H5 := test_bcs) (H7 := test_signer) (H8 := test_service_decode) test_key {[3]} test_late_verifier (λ _, Ok tt)
    (test_late_service ct) 1 (serialized test_sent) 0 Hok I) as [Hrec Hadm].
  destruct (Hadm 105 test_sent (test_late_admissible ct)) as (s & r & Ha & _). exists ct, s, r. split; [exact Ha|].
  destruct (Hrec 105) as (r' & -> & Hiff). f_equal. apply Hiff. split; [exact (test_late_admissible ct)|]. vm_compute. reflexivity.
Defined.
