(* ===== verification/FetchedBlocks.v ===== *)
(** * FetchedBlocks: the blocks that the synchronizer fetched

    Models [verify_blocks] and [process_fetched_blocks] of
    [consensus/core/src/synchronizer.rs], with the cache of verified blocks, an
    [LruCache] of a third-party package: what a peer answered is checked, the votes
    in it are counted, the blocks are sent to Core, and the locks on the requested
    blocks are released. *)
From S2P Require Import Prelude Committee Block StakeAggregator ThresholdClock Commit Error BlockVerifier Store.
From S2P Require Import ScoringMetrics LeaderScoring DagState LeaderSchedule Linearizer BaseCommitter UniversalCommitter.
From S2P Require Import BlockManager QuorumRounds Ancestor Transactions CommitObserver Core CoreThread Subscriptions.
From S2P Require Import DagInv DagOps DagReads MemStore TestDag HandleCommit Election Proposal CoreCommit CoreRun NodeRun.
From S2P Require Import Inflight CommitSyncer AuthorityService.
Local Open Scope N_scope.
Local Open Scope rust_scope.

Definition VERIFIED_BLOCKS_CACHE_CAP : N := 200000.

(** The operations of [LruCache<BlockDigest, ()>]. *)
Class Lru (C : Type) := {
  lru_get : C → BlockDigest → C * bool;
  lru_put : C → BlockDigest → C;
}.

(** The documented behaviour: the keys, the most recently used first, never more
    than the capacity. *)
Class LruLaws (C : Type) `{Lru C} := {
  lru_keys : C → list BlockDigest;
  lru_get_hit c k : (lru_get c k).2 = bool_decide (k ∈ lru_keys c);
  lru_get_keys c k : lru_keys (lru_get c k).1 = if decide (k ∈ lru_keys c) then k :: filter (.≠ k) (lru_keys c) else lru_keys c;
  lru_put_keys c k : lru_keys (lru_put c k) = take (N.to_nat VERIFIED_BLOCKS_CACHE_CAP) (k :: filter (.≠ k) (lru_keys c));
}.

Section verify.
Context {C : Type} `{Lru C} `{Crypto} `{BcsDecode} (verify_batch : list bytes → result unit string).
Context (ctx : Context) (v : SignedBlockVerifier) (peer_index : AuthorityIndex).

(** The loop; [clock] reads the clock for the blocks to come. *)
Fixpoint verify_fetched (verified_cache : C) (clock : nat → N) (skipped_count : N) (verified_blocks : list VerifiedBlock) (serialized_blocks : list bytes)
    : outcome (C * ConsensusResult (list VerifiedBlock)) :=
  match serialized_blocks with
  | [] =>
    _ ← (if 0 <? skipped_count then _ ← authority (committee ctx) peer_index; Ret tt else Ret tt);
    Ret (verified_cache, Ok verified_blocks)
  | serialized_block :: serialized_blocks =>
    let clock' n := clock (S n) in
    let block_digest := compute_digest serialized_block in
    let '(verified_cache, hit) := lru_get verified_cache block_digest in
    if hit then verify_fetched verified_cache clock' (skipped_count +64 1) verified_blocks serialized_blocks
    else
      match decode_signed_block serialized_block with
      | None => Ret (verified_cache, Err MalformedBlock)
      | Some signed_block =>
        r ← verify verify_batch v signed_block;
        match r : ConsensusResult unit with
        | Err e => _ ← authority (committee ctx) peer_index; Ret (verified_cache, Err e)
        | Ok _ =>
          let verified_cache := lru_put verified_cache block_digest in
          let verified_block := new_verified signed_block serialized_block in
          let drift := timestamp_ms verified_block - clock 0%nat in
          if 0 <? drift then
            _ ← authority (committee ctx) (author verified_block);
            if consensus_median_timestamp_with_checkpoint_enforcement (protocol_config ctx)
            then verify_fetched verified_cache clock' skipped_count (verified_blocks ++ [verified_block]) serialized_blocks
            else verify_fetched verified_cache clock' skipped_count verified_blocks serialized_blocks
          else verify_fetched verified_cache clock' skipped_count (verified_blocks ++ [verified_block]) serialized_blocks
        end
      end
  end.

Definition verify_blocks (serialized_blocks : list bytes) (verified_cache : C) (clock : nat → N) : outcome (C * ConsensusResult (list VerifiedBlock)) :=
  verify_fetched verified_cache clock 0 [] serialized_blocks.
End verify.

(** ** [process_fetched_blocks] *)

(** What the synchronizer shares with the service and Core, the locks, the cache,
    and how often it has tried to send itself [KickOffScheduler]. *)
Record FetchState (St C : Type) := mk_fetch_state {
  fs_node : AuthorityService St;
  fs_inflight_blocks_map : InflightBlocksMap;
  fs_verified_cache : C;
  fs_kick_offs : N;
}.
Arguments mk_fetch_state {St C}. Arguments fs_node {St C}. Arguments fs_inflight_blocks_map {St C}.
Arguments fs_verified_cache {St C}. Arguments fs_kick_offs {St C}.

(** Where the processing of an answer stands. *)
Inductive Fetched :=
| AwaitingCore (guard : BlocksGuard)
| Processed (r : ConsensusResult unit).

Section process.
Context {St C : Type} `{Store St} `{Lru C} `{Crypto} `{BcsDecode} (verify_batch : list bytes → result unit string).
Implicit Type s : FetchState St C.

(** Leaving the function drops the guard. *)
Definition leave s (g : BlocksGuard) (r : ConsensusResult unit) : outcome (FetchState St C * Fetched) :=
  m ← drop_guard (fs_inflight_blocks_map s) g;
  Ret (mk_fetch_state (fs_node s) m (fs_verified_cache s) (fs_kick_offs s), Processed r).

(** Without batched sync: the requested blocks and their ancestors only. *)
Definition unexpected_block (g : BlocksGuard) (blocks : list VerifiedBlock) : option BlockRef :=
  let requested := filter (λ b : VerifiedBlock, reference b ∈ bg_block_refs g) blocks in
  let ancs : gset BlockRef := list_to_set (requested ≫= λ b : VerifiedBlock, ancestors b) in
  reference <$> head (filter (λ b : VerifiedBlock, (reference b ∉ bg_block_refs g) ∧ (reference b ∉ ancs)) blocks).

(** Up to the wait for Core. *)
Definition process_fetched_blocks s (serialized_blocks : list bytes) (peer_index : AuthorityIndex) (guard : BlocksGuard) (clock : nat → N) (sender : N)
    : outcome (FetchState St C * Fetched) :=
  let n := fs_node s in
  let ctx := sv_context n in
  let batched := consensus_batched_block_sync (sv_parameters n) in
  if bool_decide (serialized_blocks = []) then leave s guard (Ok tt)
  else if negb batched && (N.of_nat (size (bg_block_refs guard)) + MAX_ADDITIONAL_BLOCKS <? N.of_nat (length serialized_blocks))
  then leave s guard (Err (TooManyFetchedBlocksReturned peer_index))
  else
    let serialized_blocks := if batched then iter_take (max_blocks_per_sync (sv_parameters n)) serialized_blocks else serialized_blocks in
    '(cache, r) ← verify_blocks verify_batch ctx (sv_block_verifier n) peer_index serialized_blocks (fs_verified_cache s) clock;
    let s := mk_fetch_state n (fs_inflight_blocks_map s) cache (fs_kick_offs s) in
    match r : ConsensusResult (list VerifiedBlock) with
    | Err e => leave s guard (Err e)
    | Ok blocks =>
      match (if batched then None else unexpected_block guard blocks) with
      | Some block_ref => leave s guard (Err (UnexpectedFetchedBlock peer_index block_ref))
      | None =>
        monitor ← foldM observe_block (sv_commit_vote_monitor n) blocks;
        (* the hostnames, for the metrics *)
        _ ← authority (committee ctx) peer_index;
        _ ← mapM (λ b : VerifiedBlock, authority (committee ctx) (author b)) blocks;
        ct ← dispatch_add_blocks (sv_core_dispatcher n) blocks sender;
        Ret (mk_fetch_state (set_dispatcher (set_monitor n monitor) ct) (fs_inflight_blocks_map s) cache (fs_kick_offs s), AwaitingCore guard)
      end
    end.

(** When Core has answered, or has shut down. *)
Definition finish_fetched_blocks s (guard : BlocksGuard) (answer : option (gset BlockRef)) : outcome (FetchState St C * Fetched) :=
  match answer with
  | None => leave s guard (Err Shutdown)
  | Some missing_blocks =>
    m ← drop_guard (fs_inflight_blocks_map s) guard;
    let kick_offs := if bool_decide (missing_blocks = ∅) then fs_kick_offs s else fs_kick_offs s + 1 in
    Ret (mk_fetch_state (fs_node s) m (fs_verified_cache s) kick_offs, Processed (Ok tt))
  end.
End process.

(** ** What the verification returns *)
Section verified.
Context {C : Type} `{LruLaws C} `{Crypto} `{BcsDecode} (verify_batch : list bytes → result unit string).
Context (ctx : Context) (v : SignedBlockVerifier) (peer_index : AuthorityIndex).
Context (Hc : committee_ok (committee ctx)) (Hv : committee (verifier_context v) = committee ctx) (Hpeer : is_valid_index (committee ctx) peer_index).

Let median := consensus_median_timestamp_with_checkpoint_enforcement (protocol_config ctx).

(** The [i]-th answer, decoded to a valid block, in time. *)
Definition checked (clock : nat → N) (blocks : list bytes) (b : VerifiedBlock) : Prop :=
  from_bytes b ∧ valid_block verify_batch v b ∧
  ∃ i, blocks !! i = Some (serialized b) ∧ (median = false → timestamp_ms b <= clock i).

Lemma skipped_ret (n : N) : (if 0 <? n then _ ← authority (committee ctx) peer_index; Ret tt else Ret tt) = Ret tt.
Proof. destruct (0 <? n); [|done]. by destruct (authority_ret _ _ Hpeer) as [a ->]. Qed.

Lemma verify_fetched_spec blocks : ∀ cache clock skipped acc,
  ∃ cache' r, verify_fetched verify_batch ctx v peer_index cache clock skipped acc blocks = Ret (cache', r) ∧
    match r with
    | Ok bs => ∃ new, bs = acc ++ new ∧ ((λ b : VerifiedBlock, serialized b) <$> new) `sublist_of` blocks ∧ Forall (checked clock blocks) new
    | Err e => ∃ x, x ∈ blocks ∧ vote_defect verify_batch v x e
    end.
Proof.
  induction blocks as [|x blocks IH]; intros cache clock skipped acc; cbn [verify_fetched].
  { rewrite skipped_ret. eexists _, _. split; [done|]. exists []. by rewrite app_nil_r. }
  assert (∀ b, checked (λ n, clock (S n)) blocks b → checked clock (x :: blocks) b) as Hlater.
  { intros b (Hb & Hval & i & Hi & Ht). split; [done|]. split; [done|]. by exists (S i). }
  assert (∀ cache skipped,
    ∃ cache' r, verify_fetched verify_batch ctx v peer_index cache (λ n, clock (S n)) skipped acc blocks = Ret (cache', r) ∧
    match r with
    | Ok bs => ∃ new, bs = acc ++ new ∧ ((λ b : VerifiedBlock, serialized b) <$> new) `sublist_of` (x :: blocks) ∧ Forall (checked clock (x :: blocks)) new
    | Err e => ∃ y, y ∈ x :: blocks ∧ vote_defect verify_batch v y e
    end) as Hskip.
  { intros cache1 skipped1. destruct (IH cache1 (λ n, clock (S n)) skipped1 acc) as (cache' & r & -> & Hr). eexists _, _. split; [done|]. destruct r as [bs|e].
    - destruct Hr as (new & -> & Hsub & Hall). exists new. split; [done|]. split; [by constructor|]. eapply Forall_impl; [exact Hall|done].
    - destruct Hr as (y & Hy & Hd). exists y. split; [by right|done]. }
  destruct (lru_get cache (compute_digest x)) as [cache1 hit]. destruct hit; [apply Hskip|].
  destruct (decode_signed_block x) as [signed|] eqn:Hd; [|eexists _, _; split; [done|]; exists x; split; [left|by left]].
  destruct (verify_spec verify_batch v signed) as (r & Hr & Hiff); [by rewrite Hv|]. rewrite Hr. cbn [mbind outcome_bind]. destruct r as [[]|e].
  2:{ destruct (authority_ret _ _ Hpeer) as [a ->]. eexists _, _. split; [done|]. exists x. split; [left|]. right. exists signed. split; [done|]. split; [|done].
      intros Hval%Hiff. done. }
  assert (valid_block verify_batch v signed) as Hval by by apply Hiff. set (b := new_verified signed x). set (cache2 := lru_put _ _).
  assert ((median = false → timestamp_ms b <= clock 0%nat) →
    ∃ cache' r, verify_fetched verify_batch ctx v peer_index cache2 (λ n, clock (S n)) skipped (acc ++ [b]) blocks = Ret (cache', r) ∧
    match r with
    | Ok bs => ∃ new, bs = acc ++ new ∧ ((λ b : VerifiedBlock, serialized b) <$> new) `sublist_of` (x :: blocks) ∧ Forall (checked clock (x :: blocks)) new
    | Err e => ∃ y, y ∈ x :: blocks ∧ vote_defect verify_batch v y e
    end) as Hpush.
  { intros Ht. destruct (IH cache2 (λ n, clock (S n)) skipped (acc ++ [b])) as (cache' & r & -> & Hres). eexists _, _. split; [done|]. destruct r as [bs|e].
    - destruct Hres as (new & -> & Hsub & Hall). exists (b :: new). rewrite <-app_assoc. split; [done|]. split; [csimpl; by constructor|]. constructor.
      + split; [done|]. split; [done|]. by exists 0%nat.
      + eapply Forall_impl; [exact Hall|done].
    - destruct Hres as (y & Hy & Hdef). exists y. split; [by right|done]. }
  destruct (N.ltb_spec 0 (timestamp_ms b - clock 0%nat)) as [Hdrift|Hdrift]; [|apply Hpush; lia].
  destruct (authority_ret (committee ctx) (author b)) as [a ->]; [rewrite <-Hv; apply (vb_author _ _ _ Hval)|]. cbn [mbind outcome_bind]. fold median.
  destruct median; [by apply Hpush|apply Hskip].
Qed.

Lemma lru_put_elem (cache : C) k : k ∈ lru_keys (lru_put cache k).
Proof.
  rewrite lru_put_keys. destruct (N.to_nat VERIFIED_BLOCKS_CACHE_CAP) as [|n] eqn:E; [|left].
  apply (f_equal N.of_nat) in E. rewrite N2Nat.id in E. discriminate E.
Qed.

(** A block in the cache is skipped. *)
Lemma cached_step (cache : C) x clock skipped acc rest : compute_digest x ∈ lru_keys cache →
  ∃ cache', verify_fetched verify_batch ctx v peer_index cache clock skipped acc (x :: rest) =
    verify_fetched verify_batch ctx v peer_index cache' (λ n, clock (S n)) (skipped +64 1) acc rest ∧
    ∀ k, k ∈ lru_keys cache' ↔ k ∈ lru_keys cache.
Proof.
  intros Hin. cbn [verify_fetched]. pose proof (lru_get_hit cache (compute_digest x)) as Hhit. pose proof (lru_get_keys cache (compute_digest x)) as Hkeys.
  destruct (lru_get cache (compute_digest x)) as [cache' hit]. cbn in Hhit, Hkeys. rewrite bool_decide_eq_true_2 in Hhit by done. subst hit.
  exists cache'. split; [done|]. intros k. rewrite Hkeys, decide_True, elem_of_cons, list_elem_of_filter by done.
  destruct (decide (k = compute_digest x)) as [->|]; tauto.
Qed.

Lemma lru_miss (cache : C) k : k ∉ lru_keys cache → ∃ cache', lru_get cache k = (cache', false) ∧ lru_keys cache' = lru_keys cache.
Proof.
  intros Hin. pose proof (lru_get_hit cache k) as Hhit. pose proof (lru_get_keys cache k) as Hkeys.
  destruct (lru_get cache k) as [cache' hit]. cbn in Hhit, Hkeys. rewrite bool_decide_eq_false_2 in Hhit by done. rewrite decide_False in Hkeys by done.
  subst hit. by exists cache'.
Qed.

(** A valid block that is new goes into the cache, whether it is kept or not. *)
Lemma valid_step (cache : C) (b : VerifiedBlock) clock skipped acc rest : from_bytes b → valid_block verify_batch v b → digest b ∉ lru_keys cache →
  ∃ cache', verify_fetched verify_batch ctx v peer_index cache clock skipped acc (serialized b :: rest) =
    verify_fetched verify_batch ctx v peer_index cache' (λ n, clock (S n)) skipped
      (if negb median && (clock 0%nat <? timestamp_ms b) then acc else acc ++ [b]) rest ∧
    digest b ∈ lru_keys cache' ∧ ∀ k, k ∈ lru_keys cache' → k = digest b ∨ k ∈ lru_keys cache.
Proof.
  intros [Hdec Hdig] Hval Hno. cbn [verify_fetched]. rewrite <-Hdig. destruct (lru_miss cache (digest b) Hno) as (cache1 & -> & Hkeys).
  rewrite Hdec. destruct (verify_spec verify_batch v (signed_block b)) as (r & -> & Hiff); [by rewrite Hv|]. rewrite (proj2 Hiff Hval). cbn [mbind outcome_bind].
  assert (new_verified (signed_block b) (serialized b) = b) as -> by (unfold new_verified; rewrite <-Hdig; by destruct b).
  exists (lru_put cache1 (digest b)). split; [|split; [apply lru_put_elem|]].
  - destruct (authority_ret (committee ctx) (author b)) as [a ->]; [rewrite <-Hv; apply (vb_author _ _ _ Hval)|]. cbn [mbind outcome_bind]. fold median.
    destruct (N.ltb_spec 0 (timestamp_ms b - clock 0%nat)), (N.ltb_spec (clock 0%nat) (timestamp_ms b)); try lia; by destruct median.
  - intros k. rewrite lru_put_keys, Hkeys. intros Hin. apply (subseteq_take (N.to_nat VERIFIED_BLOCKS_CACHE_CAP)) in Hin.
    apply elem_of_cons in Hin as [Heq|Hin]; [by left|]. apply list_elem_of_filter in Hin as [_ Hin]. by right.
Qed.

(** Nothing is lost of an answer with valid blocks that are new to the cache. *)
Lemma verify_fetched_complete bs : ∀ cache clock skipped acc,
  (∀ b : VerifiedBlock, b ∈ bs → from_bytes b ∧ valid_block verify_batch v b ∧ digest b ∉ lru_keys cache) → NoDup ((λ b : VerifiedBlock, digest b) <$> bs) →
  (median = false → ∀ i b, bs !! i = Some b → timestamp_ms (b : VerifiedBlock) <= clock i) →
  ∃ cache', verify_fetched verify_batch ctx v peer_index cache clock skipped acc ((λ b : VerifiedBlock, serialized b) <$> bs) = Ret (cache', Ok (acc ++ bs)).
Proof.
  induction bs as [|b bs IH]; intros cache clock skipped acc Hall Hnd Ht; [|rewrite fmap_cons].
  { cbn [fmap list_fmap verify_fetched]. rewrite skipped_ret, app_nil_r. by eexists. }
  destruct (Hall b) as (Hb & Hval & Hno); [left|]. destruct (valid_step cache b clock skipped acc ((λ b : VerifiedBlock, serialized b) <$> bs) Hb Hval Hno) as (cache' & -> & _ & Hkeys).
  assert (negb median && (clock 0%nat <? timestamp_ms b) = false) as ->.
  { destruct median eqn:Hm; [done|]. apply N.ltb_ge. by apply (Ht eq_refl 0%nat b). }
  csimpl in Hnd. apply NoDup_cons in Hnd as [Hnin Hnd]. change (b :: bs) with ([b] ++ bs). rewrite (app_assoc acc). apply IH; [|done|intros Hm i b' Hi; by apply (Ht Hm (S i))].
  intros b' Hb'. destruct (Hall b') as (? & ? & Hno'); [by right|]. split; [done|]. split; [done|]. intros [Heq|Hin]%Hkeys; [|done].
  apply Hnin. rewrite <-Heq. by apply list_elem_of_fmap_2.
Qed.
End verified.

(** ** From the answer to Core *)
Section admitted.
Context {St C : Type} `{StoreLaws St} `{LruLaws C} (v : SignedBlockVerifier).
Implicit Types s : FetchState St C.

Lemma leave_ok g gs s r : locked (fs_inflight_blocks_map s) (g :: gs) →
  ∃ s', leave s g r = Ret (s', Processed r) ∧ locked (fs_inflight_blocks_map s') gs ∧ fs_node s' = fs_node s.
Proof.
  intros Hl. unfold leave. destruct (drop_guard_spec _ _ _ Hl) as (m & -> & Hm). cbn [mbind outcome_bind]. eexists. split; [done|]. by split.
Qed.

Lemma leave_refused g gs s (n : AuthorityService St) : service_base v n → locked (fs_inflight_blocks_map s) (g :: gs) → ∀ r (cache : C),
  ∃ (s' : FetchState St C) p, leave (mk_fetch_state n (fs_inflight_blocks_map s) cache (fs_kick_offs s)) g r = Ret (s', p) ∧ service_base v (fs_node s') ∧
    p = Processed r ∧ locked (fs_inflight_blocks_map s') gs ∧ fs_node s' = n.
Proof.
  intros Hs Hl r cache. destruct (leave_ok g gs (mk_fetch_state n (fs_inflight_blocks_map s) cache (fs_kick_offs s)) r Hl) as (s' & Hs' & Hl' & Hn).
  exists s', (Processed r). cbn in Hn. rewrite Hn. by split_and!.
Qed.

Lemma finish_ok g gs s missing : locked (fs_inflight_blocks_map s) (g :: gs) →
  ∃ s' r, finish_fetched_blocks s g missing = Ret (s', Processed r) ∧ locked (fs_inflight_blocks_map s') gs ∧ fs_node s' = fs_node s ∧ (r = Ok tt ↔ missing ≠ None).
Proof.
  intros Hl. destruct missing as [missing|]; cbn [finish_fetched_blocks].
  - destruct (drop_guard_spec _ _ _ Hl) as (m & -> & Hm). cbn [mbind outcome_bind]. eexists _, _. split; [done|]. by split_and!.
  - destruct (leave_ok g gs s (Err Shutdown) Hl) as (s' & -> & Hl' & Hn). eexists _, _. split; [done|]. by split_and!.
Qed.

Lemma observe_all m (c : Committee) (blocks : list VerifiedBlock) : committee (cv_context m) = c → length (cv_highest_voted_commits m) = N.to_nat (committee_size c) →
  (∀ b : VerifiedBlock, b ∈ blocks → is_valid_index c (author b)) →
  ∃ m', foldM observe_block m blocks = Ret m' ∧ committee (cv_context m') = c ∧ length (cv_highest_voted_commits m') = N.to_nat (committee_size c).
Proof.
  intros Hc Hl Hb. apply (foldM_inv (λ m, committee (cv_context m) = c ∧ length (cv_highest_voted_commits m) = N.to_nat (committee_size c))); [|done].
  intros m1 b Hin [Hc1 Hl1]. destruct (observe_block_spec m1 b) as (m2 & -> & Hctx & Hl2 & _); [rewrite Hc1; by apply Hb|by rewrite Hc1|].
  eexists. split; [done|]. by rewrite Hctx, Hl2.
Qed.

(** Blocks of the committee go to Core. *)
Lemma send_fetched_ok (n : AuthorityService St) blocks sender : service_base v n →
  (∀ b : VerifiedBlock, b ∈ blocks → is_valid_index (committee (sv_context n)) (author b)) →
  ∃ monitor aus ct, foldM observe_block (sv_commit_vote_monitor n) blocks = Ret monitor ∧
    mapM (λ b : VerifiedBlock, authority (committee (sv_context n)) (author b)) blocks = Ret aus ∧
    dispatch_add_blocks (sv_core_dispatcher n) blocks sender = Ret ct ∧
    service_base v (set_dispatcher (set_monitor n monitor) ct).
Proof.
  intros [Hc Hve [Hmc Hml] Hrec] Ha.
  destruct (observe_all (sv_commit_vote_monitor n) (committee (sv_context n)) blocks Hmc Hml Ha) as (m & Hm & Hmc' & Hml').
  destruct (mapM_is_ret (λ b : VerifiedBlock, authority (committee (sv_context n)) (author b)) blocks) as [aus Haus]; [intros b Hin; by apply authority_ret, Ha|].
  destruct (dispatch_add_blocks_ret (committee (sv_context n)) (sv_core_dispatcher n) blocks sender Hrec Ha) as (ct & Hd & Hrec').
  exists m, aus, ct. by split_and!.
Qed.
End admitted.

(** Why an answer ends before Core. *)
Definition refused `{Crypto} `{BcsDecode} (verify_batch : list bytes → result unit string) (v : SignedBlockVerifier) (peer : AuthorityIndex)
    (guard : BlocksGuard) (answer : list bytes) (r : ConsensusResult unit) : Prop :=
  (r = Ok tt ∧ answer = []) ∨
  (r = Err (TooManyFetchedBlocksReturned peer) ∧ N.of_nat (size (bg_block_refs guard)) + MAX_ADDITIONAL_BLOCKS < N.of_nat (length answer)) ∨
  (∃ b : VerifiedBlock, r = Err (UnexpectedFetchedBlock peer (reference b)) ∧ serialized b ∈ answer ∧ from_bytes b ∧ (reference b ∉ bg_block_refs guard)) ∨
  ∃ e x, r = Err e ∧ x ∈ answer ∧ vote_defect verify_batch v x e.

Section fetch_theorems.
Context {St : Type} `{StoreLaws St} `{RngLaws} `{CryptoLaws} `{CommitBcsLaws} `{!CommitCodec St} `{!BlockCodec St} `{!Signer} (key : bytes) `{!SignerLaws key}.
Context (byz : gset AuthorityIndex) (v : SignedBlockVerifier).
Context {C : Type} `{LruLaws C} `{BcsDecode} (verify_batch : list bytes → result unit string).

(** What was sent to Core is what a run of the node may add, when the valid blocks
    among the bytes were made by their authors. *)
Lemma fetched_command G E log (n : AuthorityService St) ctx clock answer bs sender ct : service_ok key byz G v E log n →
  (∀ x, x ∈ answer → genuine v verify_batch E n x) → Forall (checked verify_batch ctx v clock answer) bs →
  dispatch (sv_core_dispatcher n) (AddBlocks bs sender) = Ret ct →
  command_ok v E (ct_core (sv_core_dispatcher n)) (AddBlocks bs sender) ∧ thread_ok key byz G v E log ct ∧ ct_core ct = ct_core (sv_core_dispatcher n).
Proof.
  intros Hs Hg Hchk Hd. assert (received_ok v E (ct_core (sv_core_dispatcher n)) bs) as Hrec.
  { eapply Forall_impl; [exact Hchk|]. intros b ([Hdec Hdig] & Hval & i & Hi%list_elem_of_lookup_2 & _). destruct (Hg _ Hi _ Hdec Hval) as [Hm Hst].
    assert (new_verified (signed_block b) (serialized b) = b) as Hb by (unfold new_verified; rewrite <-Hdig; by destruct b).
    rewrite Hb in Hm, Hst. split; [done|]. split; [done|]. by exists verify_batch. }
  destruct (dispatch_ok key byz G v E log (sv_core_dispatcher n) (AddBlocks bs sender) (so_thread _ _ _ _ _ _ _ Hs) Hrec) as (ct' & Hd' & Ht).
  rewrite Hd in Hd'. injection Hd' as <-. split; [exact Hrec|]. split; [done|]. by apply (dispatch_core _ _ _ Hd).
Qed.

(** C17: fetched blocks, with the median timestamps and without.  Let a peer answer
    a request for which a guard is held, with any bytes.  Processing the answer does
    not panic.  Either it ends at once, the guard is dropped and Core is not asked:
    the answer was empty, too long, had a block that does not decode or is not
    valid, or one that was not asked for.  Or the blocks sent to Core come from the
    answer in its order, each decoded from its bytes, valid, and, unless commit
    timestamps are medians, not from the future; when Core has answered or shut down
    the guard is dropped.  In both cases the other guards keep their locks.  In a
    run of the node, where the valid blocks among the bytes were made by their
    authors, what is sent is a command that the run allows, and the node's invariant
    holds afterwards. *)
Theorem fetched_blocks_admitted gs (s : FetchState St C) (peer : AuthorityIndex) (guard : BlocksGuard) (answer : list bytes) (clock : nat → N) (sender : N) :
  service_base v (fs_node s) → locked (fs_inflight_blocks_map s) (guard :: gs) → is_valid_index (committee (sv_context (fs_node s))) peer →
  ∃ s' p, process_fetched_blocks verify_batch s answer peer guard clock sender = Ret (s', p) ∧ service_base v (fs_node s') ∧
    match p with
    | AwaitingCore g => g = guard ∧ locked (fs_inflight_blocks_map s') (guard :: gs) ∧
        (∃ bs, ((λ b : VerifiedBlock, serialized b) <$> bs) `sublist_of` answer ∧
          Forall (checked verify_batch (sv_context (fs_node s)) v clock answer) bs ∧
          dispatch (sv_core_dispatcher (fs_node s)) (AddBlocks bs sender) = Ret (sv_core_dispatcher (fs_node s')) ∧
          ∀ G E log, service_ok key byz G v E log (fs_node s) → (∀ x, x ∈ answer → genuine v verify_batch E (fs_node s) x) →
            command_ok v E (ct_core (sv_core_dispatcher (fs_node s))) (AddBlocks bs sender) ∧ service_ok key byz G v E log (fs_node s')) ∧
        ∀ missing, ∃ s'' r, finish_fetched_blocks s' guard missing = Ret (s'', Processed r) ∧ locked (fs_inflight_blocks_map s'') gs ∧
          fs_node s'' = fs_node s' ∧ (r = Ok tt ↔ missing ≠ None)
    | Processed r => locked (fs_inflight_blocks_map s') gs ∧ fs_node s' = fs_node s ∧ refused verify_batch v peer guard answer r
    end.
Proof.
  intros Hs Hl Hp. pose proof Hs as [Hc [Hve Hvc] _ _]. set (n := fs_node s) in *.
  pose proof (leave_refused v guard gs s n Hs Hl) as Hleave.
  unfold process_fetched_blocks. fold n. case_bool_decide as Hnil.
  { assert (refused verify_batch v peer guard answer (Ok tt)) as Hr by by left.
    destruct (Hleave (Ok tt) (fs_verified_cache s)) as (s' & p & Heq & Hb & -> & Hl' & Hn). exists s'. eexists. split; [by destruct s|]. by split_and!. }
  set (batched := consensus_batched_block_sync (sv_parameters n)).
  destruct (negb batched && _) eqn:Hmany.
  { apply andb_prop in Hmany as [_ Hmany%N.ltb_lt].
    assert (refused verify_batch v peer guard answer (Err (TooManyFetchedBlocksReturned peer))) as Hr by (right; by left).
    destruct (Hleave (Err (TooManyFetchedBlocksReturned peer)) (fs_verified_cache s)) as (s' & p & Heq & Hb & -> & Hl' & Hn). exists s'. eexists. split; [by destruct s|]. by split_and!. }
  set (taken := if batched then _ else _). assert (taken `prefix_of` answer) as Hpre.
  { unfold taken. destruct batched; [|done]. rewrite iter_take_take. eexists. symmetry. apply take_drop. }
  assert (∀ i x, taken !! i = Some x → answer !! i = Some x) as Hat by (intros i x Hi; by eapply prefix_lookup_Some).
  rewrite Hve. unfold verify_blocks.
  destruct (verify_fetched_spec verify_batch (sv_context n) v peer Hc Hvc Hp taken (fs_verified_cache s) clock 0 []) as (cache & r & -> & Hr). cbn [mbind outcome_bind].
  destruct r as [bs|e].
  2:{ destruct Hr as (x & Hx & Hd). assert (refused verify_batch v peer guard answer (Err e)) as Hr.
      { right; right; right. exists e, x. split; [done|]. split; [|done]. by eapply elem_of_prefix. }
      destruct (Hleave (Err e) cache) as (s' & p & Heq & Hb & -> & Hl' & Hn). exists s'. eexists. split; [exact Heq|]. by split_and!. }
  destruct Hr as (new & Hbs & Hsub & Hall). cbn [app] in Hbs. subst new.
  assert (Forall (checked verify_batch (sv_context n) v clock answer) bs) as Hchk.
  { eapply Forall_impl; [exact Hall|]. intros b (Hb & Hval & i & Hi & Ht). split; [done|]. split; [done|]. exists i. split; [by apply Hat|done]. }
  pose proof Hchk as Hchk'. rewrite Forall_forall in Hchk'. destruct (if batched then None else unexpected_block guard bs) as [r|] eqn:Hun.
  { destruct batched; [done|]. unfold unexpected_block in Hun. destruct (head _) as [b|] eqn:Hh; [|done]. injection Hun as <-.
    apply head_Some_elem_of, list_elem_of_filter in Hh as [[Hno _] Hin]. destruct (Hchk' b Hin) as (Hb & _ & i & Hi & _).
    assert (refused verify_batch v peer guard answer (Err (UnexpectedFetchedBlock peer (reference b)))) as Hr.
    { right; right; left. exists b. split_and!; [done|by eapply list_elem_of_lookup_2|done..]. }
    destruct (Hleave (Err (UnexpectedFetchedBlock peer (reference b))) cache) as (s' & p & Heq & Hb' & -> & Hl' & Hn). exists s'. eexists. split; [exact Heq|]. by split_and!. }
  destruct (send_fetched_ok v n bs sender Hs) as (m & aus & ct & Hm & Haus & Hd & Hs').
  { intros b Hin. destruct (Hchk' b Hin) as (_ & Hval & _). rewrite <-Hvc. apply (vb_author _ _ _ Hval). }
  rewrite Hm. cbn [mbind outcome_bind]. destruct (authority_ret _ _ Hp) as [au ->]. cbn [mbind outcome_bind]. rewrite Haus. cbn [mbind outcome_bind]. rewrite Hd. cbn [mbind outcome_bind].
  eexists _, _. split; [done|]. split; [exact Hs'|]. split; [done|]. split; [done|]. split; [|intros missing; by apply (finish_ok guard gs)].
  exists bs. split_and!; [|done|exact Hd|].
  - destruct Hpre as [rest Hrest]. clearbody taken. rewrite Hrest. by apply sublist_inserts_r.
  - intros G E log Hok Hg. destruct (fetched_command G E log n (sv_context n) clock answer bs sender ct Hok Hg Hchk Hd) as (Hcmd & Ht & Hcore).
    split; [done|]. split; [exact Ht|exact Hve| |apply Hs']. cbn [fs_node set_dispatcher set_monitor sv_context sv_core_dispatcher]. rewrite Hcore. apply Hok.
Qed.
End fetch_theorems.

(** C30: blocks that the cache hides.  A valid block that was verified once is not fetched
    again, although it did not reach Core.  A peer answers with a valid block and
    then bytes that do not decode: the whole answer is an error, but the block is in
    the cache, so the answer of any other peer with this block alone verifies and
    has no block.  And when blocks from the future are dropped, a valid block that
    came early is in the cache too: it is skipped when its time has come. *)
Theorem verified_cache_hides_blocks {C : Type} `{LruLaws C} `{Crypto} `{BcsDecode} (verify_batch : list bytes → result unit string)
    (ctx : Context) (v : SignedBlockVerifier) (peer other : AuthorityIndex) (cache : C) (b : VerifiedBlock) (bad : bytes) (clock : nat → N) :
  committee_ok (committee ctx) → committee (verifier_context v) = committee ctx → is_valid_index (committee ctx) peer → is_valid_index (committee ctx) other →
  from_bytes b → valid_block verify_batch v b → digest b ∉ lru_keys cache →
  decode_signed_block bad = None → compute_digest bad ≠ digest b → compute_digest bad ∉ lru_keys cache →
  (∃ cache', verify_blocks verify_batch ctx v peer [serialized b; bad] cache clock = Ret (cache', Err MalformedBlock) ∧
    ∀ clock', ∃ cache'', verify_blocks verify_batch ctx v other [serialized b] cache' clock' = Ret (cache'', Ok [])) ∧
  (consensus_median_timestamp_with_checkpoint_enforcement (protocol_config ctx) = false → clock 0%nat < timestamp_ms b →
    ∃ cache', verify_blocks verify_batch ctx v peer [serialized b] cache clock = Ret (cache', Ok []) ∧
    ∀ clock', ∃ cache'', verify_blocks verify_batch ctx v other [serialized b] cache' clock' = Ret (cache'', Ok [])).
Proof.
  intros Hc Hv Hp Ho Hb Hval Hno Hbad Hne Hnobad. unfold verify_blocks.
  assert (∀ (cache' : C), digest b ∈ lru_keys cache' → ∀ clock', ∃ cache'',
    verify_fetched verify_batch ctx v other cache' clock' 0 [] [serialized b] = Ret (cache'', Ok [])) as Hskip.
  { intros cache' Hin clock'. destruct Hb as [_ Hdig]. rewrite Hdig in Hin. destruct (cached_step verify_batch ctx v other cache' (serialized b) clock' 0 [] [] Hin) as (cache'' & -> & _).
    cbn [verify_fetched]. rewrite skipped_ret by done. by eexists. }
  split.
  - destruct (valid_step verify_batch ctx v peer Hc Hv cache b clock 0 [] [bad] Hb Hval Hno) as (cache' & -> & Hin & Hkeys). cbn [verify_fetched].
    destruct (lru_miss cache' (compute_digest bad)) as (cache'' & -> & Hk); [by intros [?|?]%Hkeys|]. rewrite Hbad. eexists. split; [done|]. apply Hskip. by rewrite Hk.
  - intros Hm Ht. destruct (valid_step verify_batch ctx v peer Hc Hv cache b clock 0 [] [] Hb Hval Hno) as (cache' & -> & Hin & _).
    rewrite Hm, (proj2 (N.ltb_lt _ _) Ht). cbn [negb andb verify_fetched]. rewrite skipped_ret by done. eexists. split; [done|]. by apply Hskip.
Qed.

(** ** Witnesses *)

(** A cache that keeps the list of its keys. *)
#[local] Instance test_lru : Lru (list BlockDigest) := {|
  lru_get c k := (if decide (k ∈ c) then k :: filter (.≠ k) c else c, bool_decide (k ∈ c));
  lru_put c k := iter_take VERIFIED_BLOCKS_CACHE_CAP (k :: filter (.≠ k) c);
|}.

#[local] Instance test_lru_laws : LruLaws (list BlockDigest).
Proof. refine {| lru_keys := id |}; [done..|]. intros c k. unfold id. apply iter_take_take. Defined.

Definition test_guard : BlocksGuard := mk_guard {[reference test_sent]} 2 Periodic.

Definition test_fetching (ct : CoreThread MemStore) : FetchState MemStore (list BlockDigest) :=
  mk_fetch_state (test_late_service ct) {[reference test_sent := {[2]}]} [] 0.

Lemma test_guard_locked : locked {[reference test_sent := {[2]}]} [test_guard].
Proof.
  destruct (lock_blocks_spec InflightBlocksMap_new [] {[reference test_sent]} 2 Periodic locked_empty) as (m & og & Hlk & Hog).
  assert (lock_blocks InflightBlocksMap_new {[reference test_sent]} 2 Periodic = Ret ({[reference test_sent := {[2]}]}, Some test_guard)) as Heq by (vm_compute; reflexivity).
  rewrite Heq in Hlk. injection Hlk as <- <-. by destruct Hog as (_ & _ & _ & _ & ?).
Qed.

(** Without the median timestamps, a block that is due is sent to Core. *)
Lemma fetched_blocks_admitted_witness : ∃ (ct : CoreThread MemStore) (s : FetchState MemStore (list BlockDigest)) (p : Fetched),
  process_fetched_blocks (H1 := test_crypto) (H2 := test_service_decode) (λ _, Ok tt) (test_fetching ct) [serialized test_sent] 2 test_guard (λ _, 200) 0 = Ret (s, p) ∧
  test_late_start = Ret ct ∧ service_base test_late_verifier (fs_node s).
Proof.
  destruct test_late_base as (ct & Hct & Hok).
  destruct (fetched_blocks_admitted (H1 := test_rng) (H3 := test_crypto) (H5 := test_bcs) (H7 := test_signer) (H10 := test_service_decode) test_key {[3]} test_late_verifier (λ _, Ok tt)
    [] (test_fetching ct) 2 test_guard [serialized test_sent] (λ _, 200) 0) as (s & p & Hp & Hs & _).
  - exact Hok.
  - exact test_guard_locked.
  - exact I.
  - exists ct, s, p. split; [exact Hp|]. split; [exact Hct|exact Hs].
Defined.

Lemma verified_cache_hides_blocks_witness : ∃ cache,
  verify_blocks (H0 := test_crypto) (H1 := test_service_decode) (λ _, Ok tt) (test_context 60) test_node_verifier 2 [serialized test_sent; []] ([] : list BlockDigest) (λ _, 200) =
    Ret (cache, Err MalformedBlock) ∧
  ∃ cache', verify_blocks (H0 := test_crypto) (H1 := test_service_decode) (λ _, Ok tt) (test_context 60) test_node_verifier 1 [serialized test_sent] cache (λ _, 300) = Ret (cache', Ok []).
Proof.
  destruct (verified_cache_hides_blocks (H1 := test_crypto) (H2 := test_service_decode) (λ _, Ok tt) (test_context 60) test_node_verifier 2 1 ([] : list BlockDigest) test_sent [] (λ _, 200))
    as [(cache & Hbad & Hskip) _].
  - apply test_committee_ok.
  - reflexivity.
  - exact I.
  - exact I.
  - vm_compute. split; reflexivity.
  - apply test_sent_valid; vm_compute; reflexivity.
  - apply not_elem_of_nil.
  - vm_compute. reflexivity.
  - vm_compute. discriminate.
  - apply not_elem_of_nil.
  - exists cache. split; [exact Hbad|exact (Hskip (λ _, 300))].
Defined.
