(* ===== verification/OwnBlock.v ===== *)
(** * OwnBlock: learning the last block that this authority proposed

    Models the task [start_fetch_own_last_block_task] of
    [consensus/core/src/synchronizer.rs]: after a restart the node asks the others
    for its own last block, in rounds, until a quorum has answered, and tells Core
    the highest round, so that it does not propose twice in a round. *)
From S2P Require Import Prelude Committee Block StakeAggregator ThresholdClock Commit Error BlockVerifier Store.
From S2P Require Import ScoringMetrics LeaderScoring DagState LeaderSchedule Linearizer BaseCommitter UniversalCommitter.
From S2P Require Import BlockManager QuorumRounds Ancestor Transactions CommitObserver Core CoreThread Subscriptions.
From S2P Require Import DagReads MemStore TestDag Proposal CoreRun NodeRun AuthorityService.
Local Open Scope N_scope.
Local Open Scope rust_scope.

Record OwnBlock := mk_own_block {
  ow_highest_round : Round;
  ow_received_response : list bool;
  ow_total_stake : Stake;
  ow_retries : N;
  (* the requests in flight *)
  ow_results : list AuthorityIndex;
}.

(** What happens in the inner loop: a request ends, or the loop does, by the timer or
    because no request is left. *)
Inductive own_event :=
| Answered (authority_index : AuthorityIndex) (result : ConsensusResult (list bytes))
| Waited.

Section own_block.
Context {St : Type} `{Store St} `{Crypto} `{BcsDecode} (verify_batch : list bytes → result unit string).
Context (ctx : Context) (v : SignedBlockVerifier) (d : DagState St).

(** The closure [process_blocks]. *)
Fixpoint process_blocks (blocks : list bytes) (authority_index : AuthorityIndex) : outcome (ConsensusResult (list VerifiedBlock)) :=
  match blocks with
  | [] => Ret (Ok [])
  | serialized_block :: blocks =>
    match decode_signed_block serialized_block with
    | None => Ret (Err MalformedBlock)
    | Some signed_block =>
      r ← verify verify_batch v signed_block;
      match r : ConsensusResult unit with
      | Err e => _ ← authority (committee ctx) authority_index; Ret (Err e)
      | Ok _ =>
        let verified_block := new_verified signed_block serialized_block in
        if negb (author verified_block =? own_index ctx) then Ret (Err (UnexpectedLastOwnBlock authority_index (reference verified_block)))
        else
          rest ← process_blocks blocks authority_index;
          Ret (match rest : ConsensusResult (list VerifiedBlock) with Ok result => Ok (verified_block :: result) | Err e => Err e end)
      end
    end
  end.

(** The requests of one turn of the main loop, or the end of it for a committee of
    one. *)
Definition ask_peers (st : OwnBlock) : outcome (OwnBlock + Round) :=
  if committee_size (committee ctx) =? 1 then b ← get_last_proposed_block d; Ret (inr (round (b : VerifiedBlock)))
  else
    results ← filterM (λ a, received ← vec_index (ow_received_response st) a; Ret (negb received)) (authorities (committee ctx)).*1;
    Ret (inl (mk_own_block (ow_highest_round st) (ow_received_response st) (ow_total_stake st) (ow_retries st) results)).

Definition fetch_own_block_start : outcome (OwnBlock + Round) :=
  let c := committee ctx in
  received_response ← vec_set (replicate (N.to_nat (committee_size c)) false) (own_index ctx) true;
  total_stake ← committee_stake c (own_index ctx);
  ask_peers (mk_own_block GENESIS_ROUND received_response total_stake 0 []).

Definition fetch_own_block_step (x : OwnBlock + Round) (e : own_event) : outcome (OwnBlock + Round) :=
  match x with
  | inr highest_round => Ret (inr highest_round)
  | inl st =>
    match e with
    | Answered a result =>
      if negb (bool_decide (a ∈ ow_results st)) then Ret (inl st)
      else
        match result with
        (* asked again after a delay *)
        | Err _ => Ret (inl st)
        | Ok blocks =>
          let results := filter (.≠ a) (ow_results st) in
          r ← process_blocks blocks a;
          match r : ConsensusResult (list VerifiedBlock) with
          | Err _ => Ret (inl (mk_own_block (ow_highest_round st) (ow_received_response st) (ow_total_stake st) (ow_retries st) results))
          | Ok blocks =>
            received_response ← vec_set (ow_received_response st) a true;
            let max_round := foldr N.max 0 ((λ b : VerifiedBlock, round b) <$> blocks) in
            s ← committee_stake (committee ctx) a;
            Ret (inl (mk_own_block (N.max (ow_highest_round st) max_round) received_response (ow_total_stake st +64 s) (ow_retries st) results))
          end
        end
    | Waited =>
      if reached_quorum (committee ctx) (ow_total_stake st) then Ret (inr (ow_highest_round st))
      else ask_peers (mk_own_block (ow_highest_round st) (ow_received_response st) (ow_total_stake st) (ow_retries st +32 1) [])
    end
  end.

(** The task, while the events [es] happen. *)
Definition fetch_own_block (es : list own_event) : outcome (OwnBlock + Round) :=
  x ← fetch_own_block_start;
  foldM fetch_own_block_step x es.

(** The end of the task. *)
Definition set_own_block (ct : CoreThread St) (highest_round : Round) : CoreThread St :=
  (dispatch_set_last_known_proposed_round ct highest_round).1.
End own_block.

(** ** What an answer proves *)

Lemma foldr_max_attained (l : list N) : 0 < foldr N.max 0 l → foldr N.max 0 l ∈ l.
Proof.
  induction l as [|x l IH]; cbn [foldr]; [lia|]. intros Hpos. destruct (N.max_spec x (foldr N.max 0 l)) as [[Hlt Heq]|[Hle Heq]]; rewrite Heq in *; [right; apply IH; lia|left].
Qed.

Section learned.
Context {St : Type} `{Store St} `{Crypto} `{BcsDecode} (verify_batch : list bytes → result unit string).
Context (ctx : Context) (v : SignedBlockVerifier) (d : DagState St).
Let c := committee ctx.
Context (Hc : committee_ok c) (Hv : committee (verifier_context v) = c) (Hown : is_valid_index c (own_index ctx)) (Hsize : committee_size c ≠ 1).

(** The blocks of this authority that an answer has. *)
Definition own_blocks (bs : list bytes) (blocks : list VerifiedBlock) : Prop :=
  Forall2 (λ x b, ∃ signed, decode_signed_block x = Some signed ∧ valid_block verify_batch v signed ∧ b = new_verified signed x ∧ author signed = own_index ctx) bs blocks.

Lemma process_blocks_spec bs a : is_valid_index c a →
  ∃ r, process_blocks verify_batch ctx v bs a = Ret r ∧ match r with Ok blocks => own_blocks bs blocks | Err _ => ∀ blocks, ¬ own_blocks bs blocks end.
Proof.
  intros Ha. induction bs as [|x bs (r & Hr & IH)]; cbn [process_blocks]; [eexists; split; [done|]; constructor|].
  destruct (decode_signed_block x) as [signed|] eqn:Hd; [|eexists; split; [done|]; intros blocks Hb; inversion Hb as [|? ? ? ? (? & ? & _)]; congruence].
  destruct (verify_spec verify_batch v signed) as (rv & -> & Hiff); [by rewrite Hv|]. cbn [mbind outcome_bind]. destruct rv as [[]|e].
  2:{ fold c. destruct (authority_ret c a Ha) as [au ->]. eexists. split; [done|]. intros blocks Hb. inversion Hb as [|? ? ? ? (? & Hd' & Hval & _)]; subst.
      rewrite Hd in Hd'. injection Hd' as <-. by apply Hiff in Hval. }
  destruct (N.eqb_spec (author (new_verified signed x)) (own_index ctx)) as [Ho|Ho]; cbn [negb].
  2:{ eexists. split; [done|]. intros blocks Hb. inversion Hb as [|? ? ? ? (? & Hd' & _ & _ & Hau)]; subst. rewrite Hd in Hd'. by injection Hd' as <-. }
  rewrite Hr. cbn [mbind outcome_bind]. eexists. split; [done|]. destruct r as [blocks|e].
  - constructor; [|done]. exists signed. split_and!; [done|by apply Hiff|done..].
  - intros blocks Hb. inversion Hb; subst. by eapply IH.
Qed.

(** The authorities that have answered, with this one. *)
Definition answered (st : OwnBlock) : gset AuthorityIndex := filter (λ a, ow_received_response st !! N.to_nat a = Some true) (all_indices c).

Definition accepted_from (es : list own_event) (a : AuthorityIndex) (blocks : list VerifiedBlock) : Prop :=
  ∃ bs, Answered a (Ok bs) ∈ es ∧ own_blocks bs blocks.

Record own_inv (es : list own_event) (st : OwnBlock) : Prop := {
  oi_length : length (ow_received_response st) = N.to_nat (committee_size c);
  oi_own : own_index ctx ∈ answered st;
  oi_stake : ow_total_stake st = set_stake c (answered st);
  oi_results a : a ∈ ow_results st → is_valid_index c a ∧ a ∉ answered st;
  oi_answers a : a ∈ answered st → a ≠ own_index ctx → ∃ blocks, accepted_from es a blocks ∧ ∀ b : VerifiedBlock, b ∈ blocks → round b <= ow_highest_round st;
  oi_highest : ow_highest_round st = 0 ∨ ∃ a blocks (b : VerifiedBlock), accepted_from es a blocks ∧ b ∈ blocks ∧ round b = ow_highest_round st;
}.

Definition own_state (es : list own_event) (x : OwnBlock + Round) : Prop :=
  match x with
  | inl st => own_inv es st
  | inr h => ∃ st, own_inv es st ∧ ow_highest_round st = h ∧ reached_quorum c (ow_total_stake st)
  end.

Lemma elem_of_answered st a : a ∈ answered st ↔ is_valid_index c a ∧ ow_received_response st !! N.to_nat a = Some true.
Proof. unfold answered. rewrite elem_of_filter, elem_of_all_indices. tauto. Qed.

Lemma own_inv_snoc es e st : own_inv es st → own_inv (es ++ [e]) st.
Proof.
  intros [Hl Ho Hs Hr Ha Hh]. assert (∀ a blocks, accepted_from es a blocks → accepted_from (es ++ [e]) a blocks) as Hm.
  { intros a blocks (bs & Hin & Hb). exists bs. split; [|done]. by apply elem_of_app; left. }
  split; try done.
  - intros a Ha1 Ha2. destruct (Ha a Ha1 Ha2) as (blocks & Hacc & Hle). exists blocks. by split; [apply Hm|].
  - destruct Hh as [?|(a & blocks & b & Hacc & ?)]; [by left|]. right. exists a, blocks, b. by split; [apply Hm|].
Qed.

(** A turn of the main loop asks those that have not answered. *)
Lemma ask_peers_inv es st : own_inv es st → ∃ st', ask_peers ctx d st = Ret (inl st') ∧ own_inv es st' ∧
  answered st' = answered st ∧ ∀ a, is_valid_index c a → a ∉ answered st → a ∈ ow_results st'.
Proof.
  intros [Hl Ho Hs Hr Ha Hh]. unfold ask_peers. fold c. rewrite (proj2 (N.eqb_neq _ _) Hsize).
  destruct (filterM_total (λ a, received ← vec_index (ow_received_response st) a; Ret (negb received)) (authorities c).*1) as (results & -> & _ & Hin).
  { intros a ([a' x] & -> & Hx)%list_elem_of_fmap. apply authorities_valid, Is_true_true, N.ltb_lt in Hx.
    destruct (lookup_lt_is_Some_2 (ow_received_response st) (N.to_nat a')) as [r Hrr]; [cbn in *; lia|]. cbn [fst].
    rewrite (proj2 (vec_index_ret _ _ _) Hrr). by eexists. }
  cbn [mbind outcome_bind]. eexists. split; [done|]. split; [|split; [done|]].
  - split; try done. cbn [ow_results]. intros a [Hx Hret]%Hin.
    apply list_elem_of_fmap in Hx as ([a' x] & -> & Hx%authorities_valid). split; [done|]. rewrite elem_of_answered. cbn [ow_received_response fst] in *. intros [_ Hrr].
    rewrite (proj2 (vec_index_ret _ _ _) Hrr) in Hret. done.
  - intros a Hva Hna. cbn [ow_results]. apply Hin. split; [unfold c; rewrite authorities_fst; rewrite <-elem_of_all_indices in Hva; by apply elem_of_list_to_set in Hva|]. rewrite elem_of_answered in Hna. pose proof Hva as Hlt. apply Is_true_true, N.ltb_lt in Hlt.
    destruct (lookup_lt_is_Some_2 (ow_received_response st) (N.to_nat a)) as [r Hrr]; [lia|]. rewrite (proj2 (vec_index_ret _ _ _) Hrr). destruct r; [|done]. by destruct Hna.
Qed.

Lemma answered_insert st highest stake retries results a : is_valid_index c a → (N.to_nat a < length (ow_received_response st))%nat →
  answered (mk_own_block highest (<[N.to_nat a := true]> (ow_received_response st)) stake retries results) = {[a]} ∪ answered st.
Proof.
  intros Hva Hlt. apply set_eq. intros x. rewrite elem_of_union, elem_of_singleton, !elem_of_answered. cbn [ow_received_response].
  destruct (decide (x = a)) as [->|Hne]; [rewrite list_lookup_insert_eq by done; tauto|]. rewrite list_lookup_insert_ne by lia. tauto.
Qed.

(** An acceptable answer is counted once. *)
Lemma accept_answer es st a bs blocks results : own_inv es st → a ∈ ow_results st → own_blocks bs blocks → (∀ x, x ∈ results → x ∈ ow_results st ∧ x ≠ a) →
  let max_round := foldr N.max 0 ((λ b : VerifiedBlock, round b) <$> blocks) in
  own_inv (es ++ [Answered a (Ok bs)]) (mk_own_block (N.max (ow_highest_round st) max_round) (<[N.to_nat a := true]> (ow_received_response st))
    (ow_total_stake st +64 stake_at c a) (ow_retries st) results).
Proof.
  intros Hi Ha Hb Hres max_round. destruct (own_inv_snoc es (Answered a (Ok bs)) st Hi) as [Hl Ho Hs Hr Han Hh]. destruct (Hr a Ha) as [Hva Hna].
  set (st' := mk_own_block _ _ _ _ _). assert (N.to_nat a < length (ow_received_response st))%nat as Hlt by (apply Is_true_true, N.ltb_lt in Hva; lia).
  assert (answered st' = {[a]} ∪ answered st) as Hans by by apply answered_insert.
  assert (∀ b : VerifiedBlock, b ∈ blocks → round b <= max_round) as Hmax by (intros b Hin; by apply foldr_max_elem, (list_elem_of_fmap_2 (λ b : VerifiedBlock, round b))).
  split; cbn [st' ow_received_response ow_total_stake ow_results ow_highest_round].
  - by rewrite length_insert.
  - rewrite Hans. set_solver.
  - rewrite Hans, set_stake_insert, Hs by done. destruct (committee_ok_fields c Hc) as (_ & Ht & _ & Hw & _).
    assert (set_stake c ({[a]} ∪ answered st) <= total_stake c) as Hle.
    { rewrite Ht. apply set_stake_mono. intros x. rewrite elem_of_all_indices, elem_of_union, elem_of_singleton, elem_of_answered. intros [->|[? _]]; done. }
    rewrite set_stake_insert in Hle by done. rewrite wrap64_small by lia. lia.
  - intros x Hx. destruct (Hres x Hx) as [Hin Hne]. destruct (Hr x Hin) as [? ?]. rewrite Hans. set_solver.
  - intros x. rewrite Hans. destruct (decide (x = a)) as [->|Hne].
    + intros _ _. exists blocks. split; [exists bs; split; [set_solver|done]|]. intros b Hin. specialize (Hmax b Hin). lia.
    + intros [?%elem_of_singleton|Hx]%elem_of_union Hown'; [done|]. destruct (Han x Hx Hown') as (bl & Hacc & Hle). exists bl. split; [done|]. intros b Hin. specialize (Hle b Hin). lia.
  - destruct (N.max_spec (ow_highest_round st) max_round) as [[Hlt' ->]|[_ ->]]; [|done]. right. exists a, blocks.
    assert (∃ b : VerifiedBlock, b ∈ blocks ∧ round b = max_round) as (b & ? & ?).
    { assert (max_round ∈ (λ b : VerifiedBlock, round b) <$> blocks) as (b & Hb' & Hin)%list_elem_of_fmap by (apply foldr_max_attained; fold max_round; lia). exists b. split; [done|]. symmetry. exact Hb'. }
    exists b. split_and!; [|done..]. exists bs. split; [set_solver|done].
Qed.

Lemma answer_step es st a bs blocks : own_inv es st → a ∈ ow_results st → own_blocks bs blocks →
  ∃ st', fetch_own_block_step verify_batch ctx v d (inl st) (Answered a (Ok bs)) = Ret (inl st') ∧ own_inv (es ++ [Answered a (Ok bs)]) st' ∧
    answered st' = {[a]} ∪ answered st ∧ ow_results st' = filter (.≠ a) (ow_results st).
Proof.
  intros Hi Ha Hb. cbn [fetch_own_block_step]. rewrite bool_decide_eq_true_2 by done. cbn [negb]. destruct (oi_results _ _ Hi a Ha) as [Hva _].
  destruct (process_blocks_spec bs a Hva) as (r & -> & Hr). cbn [mbind outcome_bind]. destruct r as [blocks'|e]; [|by destruct (Hr blocks)].
  assert (N.to_nat a < length (ow_received_response st))%nat as Hlt by (rewrite (oi_length _ _ Hi); apply Is_true_true, N.ltb_lt in Hva; lia).
  rewrite (proj2 (vec_set_ret _ (<[N.to_nat a := true]> (ow_received_response st)) _ _)) by done. cbn [mbind outcome_bind].
  fold c. rewrite (committee_stake_ret c a Hva). cbn [mbind outcome_bind]. eexists. split; [done|]. split; [|split; [by apply answered_insert|done]].
  apply accept_answer; [done..|]. by intros x [? ?]%list_elem_of_filter.
Qed.

Lemma own_step es x e : own_state es x → ∃ y, fetch_own_block_step verify_batch ctx v d x e = Ret y ∧ own_state (es ++ [e]) y.
Proof.
  destruct x as [st|h]; cbn [own_state fetch_own_block_step].
  2:{ intros (st & Hi & <- & Hq). eexists. split; [done|]. exists st. split; [by apply own_inv_snoc|done]. }
  intros Hi. destruct e as [a r|].
  - case_bool_decide as Ha; cbn [negb]; [|eexists; split; [done|]; by apply own_inv_snoc].
    destruct r as [bs|e]; [|eexists; split; [done|]; by apply own_inv_snoc]. destruct (oi_results _ _ Hi a Ha) as [Hva _].
    destruct (process_blocks_spec bs a Hva) as (r & Hpb & Hr). rewrite Hpb. cbn [mbind outcome_bind].
    assert (∀ x, x ∈ filter (.≠ a) (ow_results st) → x ∈ ow_results st ∧ x ≠ a) as Hf by (intros x [? ?]%list_elem_of_filter; done).
    destruct r as [blocks|e].
    + destruct (answer_step es st a bs blocks Hi Ha Hr) as (st' & Hst & Hi' & _). cbn [fetch_own_block_step] in Hst. rewrite bool_decide_eq_true_2 in Hst by done.
      cbn [negb] in Hst. rewrite Hpb in Hst. by eexists.
    + eexists. split; [done|]. apply own_inv_snoc. destruct Hi as [Hl Ho Hs Hr' Han Hh]. split; try done. cbn [ow_results]. intros x [? _]%Hf. by apply Hr'.
  - fold c. destruct (reached_quorum c (ow_total_stake st)) eqn:Hq.
    + eexists. split; [done|]. exists st. split; [by apply own_inv_snoc|]. by rewrite Hq.
    + destruct (ask_peers_inv (es ++ [Waited]) (mk_own_block (ow_highest_round st) (ow_received_response st) (ow_total_stake st) (ow_retries st +32 1) [])) as (st' & -> & Hi' & _); [|by eexists].
      apply (own_inv_snoc es Waited) in Hi as [? ? ? ? ? ?]. split; try done. by intros x ?%elem_of_nil.
Qed.

(** The state in which the task starts to wait. *)
Lemma start_inv : ∃ st, fetch_own_block_start ctx d = Ret (inl st) ∧ own_inv [] st ∧ answered st = {[own_index ctx]} ∧
  ∀ a, is_valid_index c a → a ∉ answered st → a ∈ ow_results st.
Proof.
  unfold fetch_own_block_start. fold c. pose proof Hown as Hlt. apply Is_true_true, N.ltb_lt in Hlt.
  rewrite (proj2 (vec_set_ret _ (<[N.to_nat (own_index ctx) := true]> (replicate (N.to_nat (committee_size c)) false)) _ _)) by (rewrite length_replicate; split; [lia|done]).
  cbn [mbind outcome_bind]. rewrite (committee_stake_ret c _ Hown). cbn [mbind outcome_bind].
  set (st := mk_own_block _ _ _ _ _). assert (answered st = {[own_index ctx]}) as Hans.
  { apply set_eq. intros a. rewrite elem_of_answered, elem_of_singleton. cbn [st ow_received_response]. destruct (decide (a = own_index ctx)) as [->|Hne].
    - rewrite list_lookup_insert_eq by (rewrite length_replicate; lia). tauto.
    - rewrite list_lookup_insert_ne by lia. rewrite lookup_replicate. naive_solver. }
  destruct (ask_peers_inv [] st) as (st' & -> & Hi & Ha & Hres).
  { split; rewrite ?Hans; cbn [st ow_received_response ow_total_stake ow_results ow_highest_round].
    - by rewrite length_insert, length_replicate.
    - set_solver.
    - unfold set_stake. rewrite elements_singleton. csimpl. lia.
    - by intros a ?%elem_of_nil.
    - by intros a ->%elem_of_singleton ?.
    - by left. }
  exists st'. split; [done|]. split; [done|]. by rewrite Ha.
Qed.

Lemma fetch_own_block_inv es : ∃ x, fetch_own_block verify_batch ctx v d es = Ret x ∧ own_state es x.
Proof.
  unfold fetch_own_block. destruct start_inv as (st & -> & Hi & _). cbn [mbind outcome_bind]. apply (foldM_prefix own_state); [|done].
  intros pre e post x _. apply own_step.
Qed.

(** When acceptable answers of a quorum come in before the timer, the task ends. *)
Lemma fetch_own_block_ends (l : list (AuthorityIndex * list bytes)) : NoDup l.*1 →
  (∀ a bs, (a, bs) ∈ l → is_valid_index c a ∧ a ≠ own_index ctx ∧ ∃ blocks, own_blocks bs blocks) →
  reached_quorum c (set_stake c ({[own_index ctx]} ∪ list_to_set l.*1)) →
  ∃ h, fetch_own_block verify_batch ctx v d (((λ p : AuthorityIndex * list bytes, Answered p.1 (Ok p.2)) <$> l) ++ [Waited]) = Ret (inr h).
Proof.
  intros Hnd Hl Hq. unfold fetch_own_block. destruct start_inv as (st0 & -> & Hi0 & Ha0 & Hr0). cbn [mbind outcome_bind]. rewrite foldM_snoc.
  assert (∀ l st es, NoDup l.*1 → own_inv es st → (∀ a bs, (a, bs) ∈ l → a ∈ ow_results st ∧ ∃ blocks, own_blocks bs blocks) →
    ∃ st' es', foldM (fetch_own_block_step verify_batch ctx v d) (inl st) ((λ p : AuthorityIndex * list bytes, Answered p.1 (Ok p.2)) <$> l) = Ret (inl st') ∧
      own_inv es' st' ∧ answered st' = answered st ∪ list_to_set l.*1) as Hall.
  { clear l Hnd Hl Hq. induction l as [|[a bs] l IH]; intros st es Hnd Hi Hl; cbn [fmap list_fmap foldM].
    { exists st, es. split; [done|]. split; [done|]. set_solver. }
    csimpl in Hnd. apply NoDup_cons in Hnd as [Hna Hnd]. destruct (Hl a bs) as (Ha & blocks & Hb); [left|].
    destruct (answer_step es st a bs blocks Hi Ha Hb) as (st1 & Hst1 & Hi1 & Hans & Hres). cbn [fst snd]. rewrite Hst1. cbn [mbind outcome_bind].
    destruct (IH st1 _ Hnd Hi1) as (st' & es' & -> & Hi' & Ha').
    { intros a' bs' Hin. destruct (Hl a' bs') as [Ha' Hb']; [by right|]. split; [|done]. rewrite Hres. apply list_elem_of_filter. split; [|done].
      intros ->. apply Hna. by apply (list_elem_of_fmap_2 fst _ (a, bs')). }
    exists st', es'. split; [done|]. split; [done|]. rewrite Ha', Hans. set_solver. }
  destruct (Hall l st0 [] Hnd Hi0) as (st' & es' & -> & Hi' & Ha').
  { intros a bs Hin. destruct (Hl a bs Hin) as (Hv1 & Hne & Hb). split; [|done]. apply Hr0; [done|]. rewrite Ha0. set_solver. }
  cbn [mbind outcome_bind fetch_own_block_step]. rewrite (oi_stake _ _ Hi'), Ha', Ha0. fold c. rewrite (Is_true_true_1 _ Hq). by eexists.
Qed.
End learned.

(** C20: the last own block.  A node of a committee of several asks the others for its own
    last block, and answers, failures and timeouts come in any order.  The task does
    not panic.  The round it ends with is that of a valid block of this authority that
    some peer sent, or zero.  It is not below [R] when members that hold the stake of
    the validity threshold know a block of this authority of round [R] or later, that
    is, when each of their acceptable answers has one: the quorum that ends the task
    has one of them.  This round is what Core is told.  And the task ends at the first
    timeout when a quorum, with this node, has answered acceptably by then. *)
Theorem own_last_block_learned {St : Type} `{Store St} `{Crypto} `{BcsDecode} (verify_batch : list bytes → result unit string)
    (ctx : Context) (v : SignedBlockVerifier) (d : DagState St) :
  let c := committee ctx in
  committee_ok c → committee (verifier_context v) = c → is_valid_index c (own_index ctx) → committee_size c ≠ 1 →
  (∀ es, ∃ x, fetch_own_block verify_batch ctx v d es = Ret x ∧ ∀ h, x = inr h →
    (h = 0 ∨ ∃ a blocks (b : VerifiedBlock), accepted_from verify_batch ctx v es a blocks ∧ b ∈ blocks ∧ round b = h) ∧
    (∀ H R, H ⊆ all_indices c → (own_index ctx ∉ H) → reached_validity c (set_stake c H) →
      (∀ a blocks, a ∈ H → accepted_from verify_batch ctx v es a blocks → ∃ b : VerifiedBlock, b ∈ blocks ∧ R <= round b) → R <= h) ∧
    ∀ ct : CoreThread St, ct_running ct = true → watch_value (ct_last_known_proposed_round (set_own_block ct h)) = h) ∧
  ∀ l, NoDup l.*1 → (∀ a bs, (a, bs) ∈ l → is_valid_index c a ∧ a ≠ own_index ctx ∧ ∃ blocks, own_blocks verify_batch ctx v bs blocks) →
    reached_quorum c (set_stake c ({[own_index ctx]} ∪ list_to_set l.*1)) →
    ∃ h, fetch_own_block verify_batch ctx v d (((λ p : AuthorityIndex * list bytes, Answered p.1 (Ok p.2)) <$> l) ++ [Waited]) = Ret (inr h).
Proof.
  intros c Hc Hv Hown Hsize. split; [|intros l; by apply fetch_own_block_ends]. intros es.
  destruct (fetch_own_block_inv verify_batch ctx v d Hc Hv Hown Hsize es) as (x & Hx & Hst). exists x. split; [done|].
  intros h ->. destruct Hst as (st & [Hl Ho Hs Hr Ha Hh] & <- & Hq). split; [done|]. split.
  - intros H' R Hsub Hno Hval Hknow. rewrite Hs in Hq.
    destruct (set_choose_or_empty (answered ctx st ∩ H')) as [(a & [Hin Hin']%elem_of_intersection)|Hdisj].
    + destruct (Ha a Hin) as (blocks & Hacc & Hle); [by intros ->|]. destruct (Hknow a blocks Hin' Hacc) as (b & Hb & HR). specialize (Hle b Hb). lia.
    + exfalso. destruct (committee_ok_fields c Hc) as (_ & Ht & _ & _ & _ & Hvt & _). pose proof (quorum_two_thirds c Hc).
      destruct (div_ceil_spec (total_stake c) 3) as [_ Hdc]; [lia|]. rewrite <-Hvt in Hdc. apply Is_true_true, N.leb_le in Hval, Hq.
      assert (set_stake c (answered ctx st ∪ H') <= total_stake c) as Hle.
      { rewrite Ht. apply set_stake_mono. intros a [[Ha' _]%elem_of_answered|Ha']%elem_of_union; [by apply elem_of_all_indices|by apply Hsub]. }
      rewrite set_stake_disj_union in Hle by (clear -Hdisj; set_solver). unfold c in *. lia.
  - intros ct Hrun. unfold set_own_block, dispatch_set_last_known_proposed_round. by rewrite Hrun.
Qed.

(** Two peers answer, one of them with the block of round 1. *)
Definition test_own : VerifiedBlock := test_external 1 0 ([], test_listened).

Definition test_own_decode : BcsDecode := {|
  decode_commit _ := None;
  decode_signed_block bs := if decide (bs = serialized test_own) then Some (signed_block test_own) else None;
|}.

Lemma own_last_block_learned_witness : ∃ h,
  fetch_own_block (H0 := test_crypto) (H1 := test_own_decode) (λ _, Ok tt) (test_context 60) test_node_verifier test_fresh
    [Answered 1 (Ok [serialized test_own]); Answered 3 (Err Shutdown); Answered 2 (Ok []); Waited] = Ret (inr h) ∧ 1 <= h.
Proof.
  destruct (own_last_block_learned (H0 := test_crypto) (H1 := test_own_decode) (λ _, Ok tt) (test_context 60) test_node_verifier test_fresh) as [Hrun _].
  - apply test_committee_ok.
  - reflexivity.
  - exact I.
  - discriminate.
  - destruct (Hrun [Answered 1 (Ok [serialized test_own]); Answered 3 (Err Shutdown); Answered 2 (Ok []); Waited]) as (x & Hx & Hfound).
    assert (match fetch_own_block (H0 := test_crypto) (H1 := test_own_decode) (λ _, Ok tt) (test_context 60) test_node_verifier test_fresh
      [Answered 1 (Ok [serialized test_own]); Answered 3 (Err Shutdown); Answered 2 (Ok []); Waited] with Ret (inr _) => true | _ => false end = true) as Hb by (vm_compute; reflexivity).
    rewrite Hx in Hb. destruct x as [st|h]; [discriminate|]. exists h. split; [exact Hx|]. destruct (Hfound h eq_refl) as (_ & Hlow & _).
    apply (Hlow {[1; 3]} 1).
    + intros a Ha. apply elem_of_all_indices. apply elem_of_union in Ha as [Ha|Ha]; apply elem_of_singleton in Ha as ->; exact I.
    + apply (bool_decide_unpack (own_index (test_context 60) ∉ ({[1; 3]} : gset AuthorityIndex))). vm_compute. exact I.
    + vm_compute. exact I.
    + intros a blocks Ha (bs & Hin & Hbs). assert (bs = [serialized test_own]) as ->.
      { apply elem_of_cons in Hin as [[= _ ->]|Hin]; [reflexivity|]. exfalso. apply elem_of_cons in Hin as [Hin|Hin]; [discriminate Hin|].
        apply elem_of_cons in Hin as [[= -> _]|Hin]; [|apply list_elem_of_singleton in Hin; discriminate Hin].
        apply elem_of_union in Ha as [Ha|Ha]; apply elem_of_singleton in Ha; discriminate Ha. }
      inversion Hbs as [|? b ? ? (signed & Hd & _ & -> & _) Hrest]; subst. eexists. split; [left|].
      unfold decode_signed_block, test_own_decode in Hd. rewrite decide_True in Hd by reflexivity. injection Hd as <-. vm_compute. discriminate.
Defined.
