(* ===== verification/ServiceReads.v ===== *)
(** * ServiceReads: what the service answers

    The answers of [AuthorityService] to the requests for blocks, commits and
    rounds, over a DAG state that satisfies its invariant; and that the commits a
    node serves pass the verification of the node that asked for them. *)
From S2P Require Import Prelude Committee Block StakeAggregator ThresholdClock Commit Error BlockVerifier Store MemStore.
From S2P Require Import ScoringMetrics LeaderScoring DagState LeaderSchedule Linearizer BaseCommitter UniversalCommitter DagInv DagOps DagReads TestDag.
From S2P Require Import BlockManager QuorumRounds Ancestor Transactions HandleCommit CommitObserver Core CoreThread Subscriptions CommitSyncer AuthorityService.
From S2P Require Import BlockManagerTheorems Proposal NodeRun.
Local Open Scope N_scope.
Local Open Scope rust_scope.

(** ** Lists *)

Lemma zip_unzip {A B C} (f : B → C) (q : list (A * B)) : zip q.*1 (f <$> q.*2) = (λ p, (p.1, f p.2)) <$> q.
Proof. induction q as [|[a b] q IH]; [done|]. csimpl. by rewrite IH. Qed.

(** Writing the answers for some of the references back to their places. *)
Lemma put_back_from (P : BlockRef → Prop) `{!∀ r, Decision (P r)} (f : BlockRef → option VerifiedBlock) l : ∀ pre blocks,
  length blocks = length l →
  foldM (λ blocks '((idx, block) : N * option VerifiedBlock), vec_set blocks idx block) (pre ++ blocks)
    ((λ p : N * BlockRef, (p.1, f p.2)) <$> filter (λ p : N * BlockRef, P p.2) (zip (N.of_nat <$> seq (length pre) (length l)) l)) =
  Ret (pre ++ zip_with (λ r b, if decide (P r) then f r else b) l blocks).
Proof.
  induction l as [|r l IH]; intros pre [|b blocks] Hlen; try done. injection Hlen as Hlen. csimpl. rewrite filter_cons. cbn [snd].
  assert (∀ x : option VerifiedBlock, foldM (λ blocks '((idx, block) : N * option VerifiedBlock), vec_set blocks idx block) (pre ++ x :: blocks)
    ((λ p : N * BlockRef, (p.1, f p.2)) <$> filter (λ p : N * BlockRef, P p.2) (zip (N.of_nat <$> seq (S (length pre)) (length l)) l)) =
    Ret (pre ++ x :: zip_with (λ r b, if decide (P r) then f r else b) l blocks)) as Hx.
  { intros x. specialize (IH (pre ++ [x]) blocks Hlen). rewrite length_app in IH. cbn [length] in IH. rewrite Nat.add_1_r in IH.
    rewrite <-!app_assoc in IH. exact IH. }
  destruct (decide (P r)) as [HP|HP]; [|apply Hx]. csimpl.
  assert (vec_set (pre ++ b :: blocks) (N.of_nat (length pre)) (f r) = Ret (pre ++ f r :: blocks)) as ->; [|apply Hx].
  apply vec_set_ret. rewrite Nat2N.id, length_app. split; [simpl; lia|]. by rewrite insert_app_r_alt, Nat.sub_diag by lia.
Qed.

Lemma put_back_ret (P : BlockRef → Prop) `{!∀ r, Decision (P r)} (f : BlockRef → option VerifiedBlock) l blocks : length blocks = length l →
  let q := filter (λ p : N * BlockRef, P p.2) (enumerate l) in
  put_back blocks q.*1 (f <$> q.*2) = Ret (zip_with (λ r b, if decide (P r) then f r else b) l blocks).
Proof. intros Hlen q. unfold put_back. rewrite zip_unzip. apply (put_back_from P f l [] blocks Hlen). Qed.

Lemma elem_of_dedup r l : r ∈ dedup l ↔ r ∈ l.
Proof.
  induction l as [|x l IH]; [done|]. destruct l as [|y l]; [done|]. cbn [dedup] in IH |- *. destruct (decide (x = y)) as [->|]; rewrite ?elem_of_cons, IH.
  - rewrite !elem_of_cons. tauto.
  - by rewrite !elem_of_cons.
Qed.

Lemma length_dedup l : (length (dedup l) <= length l)%nat.
Proof. induction l as [|x l IH]; [done|]. destruct l as [|y l]; [done|]. cbn [dedup] in IH |- *. destruct (decide (x = y)); simpl in *; lia. Qed.

(** ** Blocks *)

Section blocks.
Context {St : Type} `{StoreLaws St} `{Crypto} `{BcsDecode} (s : AuthorityService St).
Let d := sv_dag_state s.
Context (Hok : dag_ok d) (Hctx : ds_context d = sv_context s).
Let c := committee (sv_context s).

(** Where a requested block is looked for during commit sync. *)
Definition committed_lookup (r : BlockRef) : option VerifiedBlock := if decide (ref_round r < gc_round d) then stored d r else lookup_block d r.

Lemma fetch_committed_ret refs :
  fetch_committed s refs = Ret (Ok (omap committed_lookup (take (N.to_nat (max_blocks_per_fetch (sv_parameters s))) refs))).
Proof.
  unfold fetch_committed. set (l := take _ refs). fold d. set (P := λ r : BlockRef, ref_round r < gc_round d).
  set (below := filter (λ p : N * BlockRef, ref_round p.2 < gc_round d) (enumerate l)). set (aboves := filter (λ p : N * BlockRef, ¬ (ref_round p.2 < gc_round d)) (enumerate l)).
  set (b1 := zip_with (λ r b, if decide (P r) then stored d r else b) l (replicate (length l) None)).
  assert ((if bool_decide (below = []) then Ret (Ok (replicate (length l) None))
    else found ← read_blocks (sv_store s) below.*2; try found (λ found, blocks ← put_back (replicate (length l) None) below.*1 found; Ret (Ok blocks))) =
    Ret (Ok b1)) as ->.
  { assert (put_back (replicate (length l) None) below.*1 (stored d <$> below.*2) = Ret b1) as Hpb
      by exact (put_back_ret P (stored d) l (replicate (length l) None) (length_replicate _ _)).
    case_bool_decide as Hb; [rewrite Hb in Hpb; cbn in Hpb; by injection Hpb as <-|].
    change (sv_store s) with (ds_store d). rewrite (read_blocks_view _ _ (ok_store _ Hok)). cbn [mbind outcome_bind try].
    change (λ r, sv_blocks (store_view (ds_store d)) !! r) with (stored d). by rewrite Hpb. }
  cbn [mbind outcome_bind try].
  assert ((if bool_decide (aboves = []) then Ret b1 else found ← get_blocks d aboves.*2; put_back b1 aboves.*1 found) = Ret (committed_lookup <$> l)) as ->.
  { assert (length b1 = length l) as Hl1 by (unfold b1; rewrite length_zip_with, length_replicate; lia).
    assert (put_back b1 aboves.*1 (lookup_block d <$> aboves.*2) = Ret (zip_with (λ r b, if decide (¬ P r) then lookup_block d r else b) l b1)) as Hpb
      by exact (put_back_ret (λ r, ¬ P r) (lookup_block d) l b1 Hl1).
    assert (zip_with (λ r b, if decide (¬ P r) then lookup_block d r else b) l b1 = committed_lookup <$> l) as Heq.
    { unfold b1, committed_lookup. clear. induction l as [|r l IH]; [done|]. csimpl. rewrite IH. f_equal. unfold P. do 2 case_decide; tauto. }
    rewrite Heq in Hpb. case_bool_decide as Ha; [rewrite Ha in Hpb; exact Hpb|].
    rewrite get_blocks_ret by apply Hok. cbn [mbind outcome_bind]. exact Hpb. }
  cbn [mbind outcome_bind]. do 2 f_equal. clear. induction l as [|r l IH]; [done|]. csimpl. by destruct (committed_lookup r); rewrite IH.
Qed.

(** The cached blocks of an authority in a range of rounds. *)
Lemma cached_range_ret a start finish limit : is_valid_index c a → finish <= U32_MAX →
  ∃ l, get_cached_blocks_in_range d a start finish limit = Ret l ∧ N.of_nat (length l) <= limit ∧
    ∀ b : VerifiedBlock, b ∈ l → lookup_block d (reference b) = Some b ∧ author b = a ∧ start <= round b < finish.
Proof.
  intros Ha Hmax. unfold get_cached_blocks_in_range. destruct ((finish <=? start) || (limit =? 0)) eqn:Hz.
  { exists []. split; [done|]. split; [simpl; lia|]. intros b Hb. by apply elem_of_nil in Hb. }
  apply orb_false_iff in Hz as [Hlt%N.leb_gt Hpos%N.eqb_neq]. unfold c in Ha. rewrite <-Hctx in Ha.
  destruct (refs_valid d Hok a Ha) as (rs & Hrs & Hin). rewrite (proj2 (vec_index_ret _ _ _) Hrs). cbn [mbind outcome_bind].
  rewrite set_range_ret.
  2:{ apply bool_decide_eq_true_2. unfold key_le, BlockRef_ord_key, ref_le, round_start. simpl. lia. }
  cbn [mbind outcome_bind]. rewrite iter_take_take. set (range := btree_range _ rs).
  assert (∀ r, r ∈ take (N.to_nat limit) range → ∃ i, ds_recent_blocks d !! r = Some i ∧ reference (bi_block i) = r ∧ ref_author r = a ∧ start <= ref_round r < finish) as Hr.
  { intros r (k & Hk)%list_elem_of_lookup. rewrite lookup_take_Some in Hk. destruct Hk as [Hk%list_elem_of_lookup_2 _]. unfold range in Hk.
    apply elem_of_btree_range in Hk as [Hb Hk]. apply Hin in Hk as [[i Hi] Hra]. exists i. split; [done|]. split; [by apply (ok_recent _ Hok _ _ Hi)|]. split; [done|].
    apply andb_prop_elim in Hb as [Hb1 Hb2]. cbn in Hb1, Hb2. apply bool_decide_unpack in Hb1, Hb2.
    unfold key_le, BlockRef_ord_key, ref_le, round_start, DIGEST_MIN, AuthorityIndex_ZERO in Hb1, Hb2. simpl in Hb1, Hb2. destruct Hb2 as [Hb2 Hne].
    split; [lia|]. destruct (decide (ref_round r = finish)) as [Heq|]; [|lia]. exfalso. apply Hne. destruct r as [r0 a0 d0]. simpl in *. f_equal; lia. }
  destruct (mapM_is_ret (λ r, i ← expect (ds_recent_blocks d !! r) "Block should exist in recent blocks"; Ret (bi_block i)) (take (N.to_nat limit) range)) as [l Hl].
  { intros r Hin'. destruct (Hr r Hin') as (i & -> & _). by eexists. }
  rewrite Hl. exists l. split; [done|]. apply mapM_ret_Forall2 in Hl. split; [rewrite <-(Forall2_length _ _ _ Hl), length_take; lia|].
  intros b (k & Hb)%list_elem_of_lookup. destruct (Forall2_lookup_r _ _ _ _ _ Hl Hb) as (r & Hrl%list_elem_of_lookup_2 & Heq). destruct (Hr r Hrl) as (i & Hi & Href & Hra & Hrr). rewrite Hi in Heq. cbn in Heq.
  injection Heq as <-. rewrite Href. split; [by apply recent_lookup|]. change (author (bi_block i)) with (ref_author (reference (bi_block i))).
  change (round (bi_block i)) with (ref_round (reference (bi_block i))). by rewrite Href.
Qed.

Lemma known_round r b : lookup_block d r = Some b → ref_round r <= U32_MAX.
Proof.
  unfold lookup_block, get_cached. destruct (N.eqb_spec (ref_round r) GENESIS_ROUND) as [->|]; [done|].
  destruct (ds_recent_blocks d !! r) as [i|] eqn:Hi.
  - intros _. destruct (ok_recent _ Hok _ _ Hi) as (_ & (Hr & _) & _). lia.
  - intros Hb. apply (store_keys_ok _ _ _ (ok_store _ Hok)) in Hb as [_ (Hr & _)]. lia.
Qed.

Section missing.
Context (refs : list BlockRef) (highest : list Round).
Context (Hvalid : ∀ r, r ∈ refs → is_valid_index c (ref_author r)) (Hhighest : length highest = N.to_nat (committee_size c)).
Let limit := max_blocks_per_sync (sv_parameters s).
Let requested := take (N.to_nat limit) refs.

(** A block that was asked for and is known. *)
Definition asked (b : VerifiedBlock) : Prop := reference b ∈ requested ∧ lookup_block d (reference b) = Some b.

(** A known block that was asked for, or that lies between what the peer has of its
    author and a served block of this author. *)
Definition served (b : VerifiedBlock) : Prop :=
  lookup_block d (reference b) = Some b ∧
  (reference b ∈ requested ∨ ∃ b0 h, asked b0 ∧ author b0 = author b ∧ highest !! N.to_nat (author b) = Some h ∧ h < round b < round b0).

Lemma elem_of_requested r : r ∈ requested → r ∈ refs.
Proof. intros (k & Hk)%list_elem_of_lookup. unfold requested in Hk. rewrite lookup_take_Some in Hk. by eapply list_elem_of_lookup_2, Hk. Qed.

(** The lowest rounds are those of served blocks. *)
Lemma lowest_missing_rounds bs : Forall asked bs → ∀ a r, foldl lowest_missing ∅ (reference <$> bs) !! a = Some r →
  ∃ b0 : VerifiedBlock, asked b0 ∧ author b0 = a ∧ round b0 = r.
Proof.
  assert (∀ m : gmap AuthorityIndex Round, (∀ a r, m !! a = Some r → ∃ b0 : VerifiedBlock, asked b0 ∧ author b0 = a ∧ round b0 = r) → Forall asked bs →
    ∀ a r, foldl lowest_missing m (reference <$> bs) !! a = Some r → ∃ b0 : VerifiedBlock, asked b0 ∧ author b0 = a ∧ round b0 = r) as Hgen.
  { induction bs as [|b bs IH]; intros m Hm Hbs; [done|]. apply Forall_cons in Hbs as [Hb Hbs]. csimpl. apply IH; [|done].
    intros a r. unfold lowest_missing. rewrite lookup_insert_Some. intros [[<- Hmin]|[_ Hl]]; [|by apply Hm].
    change (ref_author (reference b)) with (author b) in Hmin |- *. change (ref_round (reference b)) with (round b) in Hmin.
    destruct (m !! author b) as [r0|] eqn:Hr0; cbn [default from_option id] in Hmin; [|exists b; split; [done|split; [done|lia]]].
    destruct (N.min_spec r0 (round b)) as [[_ Heq]|[_ Heq]]; rewrite Heq in Hmin; subst r; [by apply Hm|by exists b]. }
  intros Hbs. apply Hgen; [|done]. intros a r. by rewrite lookup_empty.
Qed.

Lemma add_cached_ok ordered : (∀ a low, (a, low) ∈ ordered → ∃ b0 : VerifiedBlock, asked b0 ∧ author b0 = a ∧ round b0 = low) →
  ∀ blocks, Forall served blocks → N.of_nat (length blocks) <= limit →
  ∃ blocks', add_cached s highest blocks ordered = Ret blocks' ∧ blocks `prefix_of` blocks' ∧ Forall served blocks' ∧ N.of_nat (length blocks') <= limit.
Proof.
  induction ordered as [|[a low] ordered IH]; intros Hord blocks Hbs Hlen; [by exists blocks|]. cbn [add_cached].
  destruct (Hord a low) as (b0 & Hb0 & Ha0 & Hr0); [left|].
  assert (is_valid_index c a) as Ha. { rewrite <-Ha0. apply (Hvalid (reference b0)), elem_of_requested, Hb0. }
  destruct (lookup_lt_is_Some_2 highest (N.to_nat a)) as [h Hh]. { rewrite Hhighest. apply Is_true_true, N.ltb_lt in Ha. lia. }
  rewrite (proj2 (vec_index_ret _ _ _) Hh). cbn [mbind outcome_bind]. assert (∀ a low, (a, low) ∈ ordered → ∃ b0 : VerifiedBlock, asked b0 ∧ author b0 = a ∧ round b0 = low) as Hord'
    by (intros a' low' Hin; apply Hord; by right).
  destruct (N.leb_spec low h) as [Hle|Hlt]; [by apply IH|]. pose proof (known_round _ _ (proj2 Hb0)) as Hmax.
  change (ref_round (reference b0)) with (round b0) in Hmax. fold d limit.
  destruct (cached_range_ret a (h +32 1) low (limit - N.of_nat (length blocks)) Ha) as (l & -> & Hl & Hin); [lia|].
  cbn [mbind outcome_bind]. rewrite wrap32_small in Hin by (unfold U32_MOD, U32_MAX in *; lia).
  assert (Forall served (blocks ++ l)) as Hserved.
  { apply Forall_app. split; [done|]. apply Forall_forall. intros b (Hk & Hba & Hbr)%Hin. split; [done|]. right. exists b0, h. rewrite Hba. split_and!; [done..|lia|lia]. }
  assert (N.of_nat (length (blocks ++ l)) <= limit) as Hlen' by (rewrite length_app; lia).
  destruct (N.leb_spec limit (N.of_nat (length (blocks ++ l)))) as [Hge|Hlt'].
  - rewrite take_ge by lia. exists (blocks ++ l). split; [done|]. split; [by exists l|done].
  - destruct (IH Hord' (blocks ++ l) Hserved Hlen') as (blocks' & -> & Hp & ? & ?). exists blocks'. split_and!; try done. etrans; [|exact Hp]. by exists l.
Qed.

Lemma fetch_missing_ok : ∃ blocks, fetch_missing s refs highest = Ret (Ok blocks) ∧ N.of_nat (length blocks) <= limit ∧
  (∀ b, asked b → b ∈ blocks) ∧ Forall served blocks.
Proof.
  unfold fetch_missing. fold limit requested. fold d. set (sorted := dedup _). rewrite get_blocks_ret by apply Hok. cbn [mbind outcome_bind].
  assert (∀ r, r ∈ sorted ↔ r ∈ requested) as Hsort by (intros r; unfold sorted; by rewrite elem_of_dedup, elem_of_stable_sort).
  assert (omap id (lookup_block d <$> sorted) = omap (lookup_block d) sorted) as ->
    by (clear; induction sorted as [|r l IH]; [done|]; csimpl; by destruct (lookup_block d r); rewrite IH).
  set (found := omap (lookup_block d) sorted).
  assert (∀ b : VerifiedBlock, b ∈ found ↔ asked b) as Hfound.
  { intros b. unfold found, asked. rewrite list_elem_of_omap. split.
    - intros (r & Hr & Hb). pose proof (lookup_block_reference d Hok _ _ Hb) as Href. rewrite Href. by rewrite <-Hsort.
    - intros [Hr Hb]. exists (reference b). by rewrite Hsort. }
  assert (length found <= N.to_nat limit)%nat as Hlen.
  { assert (length found <= length sorted)%nat.
    { unfold found. clear. induction sorted as [|r l IH]; [done|]. csimpl. destruct (lookup_block d r); simpl; lia. }
    assert (length sorted <= length requested)%nat by (unfold sorted; rewrite length_dedup, stable_sort_Permutation; done).
    unfold requested in *. rewrite length_take in *. lia. }
  assert (Forall asked found) as Hasked by (apply Forall_forall; intros b; apply Hfound).
  edestruct add_cached_ok as (blocks & -> & Hp & Hserved & Hl); [| | |exists blocks; split; [done|]; split; [exact Hl|]; split; [|done]].
  - intros a low Hin. rewrite elem_of_stable_sort, elem_of_btree_entries in Hin. by eapply lowest_missing_rounds.
  - eapply Forall_impl; [exact Hasked|]. intros b [? ?]. split; [done|by left].
  - lia.
  - intros b Hb%Hfound. by eapply elem_of_prefix.
Qed.
End missing.
End blocks.

Lemma validate_refs_spec (c : Committee) refs :
  match validate_refs c refs with
  | Ok _ => ∀ r, r ∈ refs → is_valid_index c (ref_author r) ∧ 0 < ref_round r
  | Err (InvalidAuthorityIndex a n) => a ∈ ref_author <$> refs ∧ ¬ is_valid_index c a ∧ n = committee_size c
  | Err UnexpectedGenesisBlockRequested => 0 ∈ ref_round <$> refs
  | Err _ => False
  end.
Proof.
  induction refs as [|r refs IH]; cbn [validate_refs]; [by intros r ?%elem_of_nil|].
  destruct (is_valid_index c (ref_author r)) eqn:Hv; cbn [negb]; [|split; [left|rewrite Hv; split; [by intros []|done]]].
  destruct (N.eqb_spec (ref_round r) GENESIS_ROUND) as [Hz|Hz]; [rewrite fmap_cons, Hz; left|].
  destruct (validate_refs c refs) as [[]|e].
  - intros r' [->|Hr']%elem_of_cons; [rewrite Hv; unfold GENESIS_ROUND in Hz; split; [done|lia]|by apply IH].
  - destruct e; try done; [by right|]. destruct IH as (? & ? & ?). split_and!; [by right|done..].
Qed.

(** C19: serving blocks.  A request with a reference outside the committee, or to a
    genesis block, is refused with that reason.  Otherwise the request is answered.
    A request for commit sync, which carries no rounds, gets the bytes of the blocks
    that are known among the first [max_blocks_per_fetch] references, in the order
    of the request, where those below the garbage collection round are looked up in
    the store only.  A request of the synchronizer, with the rounds it has accepted
    from every authority, gets at most [max_blocks_per_sync] blocks: every known
    block among the first [max_blocks_per_sync] references, and then known blocks
    of the same authors, above the round that the peer has and below a block it
    asked for. *)
Theorem fetch_blocks_served {St : Type} `{StoreLaws St} `{Crypto} `{BcsDecode} (s : AuthorityService St) (peer : AuthorityIndex)
    (refs : list BlockRef) (highest : list Round) :
  dag_ok (sv_dag_state s) → ds_context (sv_dag_state s) = sv_context s → consensus_batched_block_sync (sv_parameters s) = true →
  (highest = [] ∨ length highest = N.to_nat (committee_size (committee (sv_context s)))) →
  ∃ r, handle_fetch_blocks s peer refs highest = Ret r ∧
    match r with
    | Err (InvalidAuthorityIndex a n) => a ∈ ref_author <$> refs ∧ ¬ is_valid_index (committee (sv_context s)) a ∧ n = committee_size (committee (sv_context s))
    | Err UnexpectedGenesisBlockRequested => 0 ∈ ref_round <$> refs
    | Err _ => False
    | Ok answer =>
      (∀ r, r ∈ refs → is_valid_index (committee (sv_context s)) (ref_author r) ∧ 0 < ref_round r) ∧
      ∃ blocks, answer = (λ b : VerifiedBlock, serialized b) <$> blocks ∧
        if decide (highest = []) then blocks = omap (committed_lookup s) (take (N.to_nat (max_blocks_per_fetch (sv_parameters s))) refs)
        else N.of_nat (length blocks) <= max_blocks_per_sync (sv_parameters s) ∧ (∀ b, asked s refs b → b ∈ blocks) ∧ Forall (served s refs highest) blocks
    end.
Proof.
  intros Hok Hctx Hbat Hh. unfold handle_fetch_blocks. pose proof (validate_refs_spec (committee (sv_context s)) refs) as Hval.
  destruct (validate_refs (committee (sv_context s)) refs) as [[]|e]; cbn [try]; [|by eexists]. rewrite Hbat. cbn [negb].
  case_bool_decide as Hn.
  - rewrite (fetch_committed_ret s Hok). cbn [mbind outcome_bind]. eexists. split; [done|]. split; [done|]. eexists. split; [done|]. by rewrite decide_True.
  - destruct Hh as [|Hh]; [done|]. destruct (fetch_missing_ok s Hok Hctx refs highest (λ r Hr, proj1 (Hval r Hr)) Hh) as (blocks & -> & Hb).
    cbn [mbind outcome_bind]. eexists. split; [done|]. split; [done|]. exists blocks. split; [done|]. by rewrite decide_False.
Qed.

(** C29: what is not checked.  Two requests of a peer stop the handler with a panic.  A
    block may come with excluded ancestors; when one of the first of them, up to
    twice the size of the committee, names an author outside the committee, the
    lookup of the host name for a metric is out of bounds.  And with batched block
    sync, a request for a known block whose author is beyond the end of the vector
    of accepted rounds that the peer sent, but not an empty vector, reads that
    vector out of bounds. *)
Theorem unchecked_requests_panic {St : Type} `{StoreLaws St} `{Crypto} `{BcsDecode} (verify_batch : list bytes → result unit string)
    (decode_ref : bytes → option BlockRef) (s : AuthorityService St) (peer : AuthorityIndex) :
  (∀ sender now missing excluded refs r, mapM decode_ref excluded = Some refs →
    r ∈ take (N.to_nat (committee_size (committee (sv_context s)) * 2)) refs → is_valid_index (committee (sv_context s)) (ref_author r) = false →
    ∃ why, handle_send_block verify_batch decode_ref s peer sender now (Some missing) (Adding excluded) = Panic why) ∧
  (∀ r b highest, dag_ok (sv_dag_state s) → consensus_batched_block_sync (sv_parameters s) = true → 0 < max_blocks_per_sync (sv_parameters s) →
    is_valid_index (committee (sv_context s)) (ref_author r) = true → 0 < ref_round r → lookup_block (sv_dag_state s) r = Some b →
    highest ≠ [] → (length highest <= N.to_nat (ref_author r))%nat →
    ∃ why, handle_fetch_blocks s peer [r] highest = Panic why).
Proof.
  split.
  - intros sender now missing excluded refs r Hm Hr Hv. cbn [handle_send_block]. unfold check_excluded.
    destruct (request_fetch_same s missing peer) as (_ & -> & _). rewrite Hm. set (taken := take _ refs) in *.
    assert (∃ why, mapM (λ r, authority (committee (sv_context s)) (ref_author r)) taken = Panic why) as [why ->]; [|by exists why].
    destruct (mapM (λ r, authority (committee (sv_context s)) (ref_author r)) taken) as [l|why] eqn:Hl; [|by exists why]. exfalso.
    apply mapM_ret_Forall2 in Hl. apply list_elem_of_lookup in Hr as [i Hi]. destruct (Forall2_lookup_l _ _ _ _ _ Hl Hi) as (a & _ & Ha).
    unfold authority in Ha. apply vec_index_ret, lookup_lt_Some in Ha. unfold is_valid_index, committee_size in Hv. apply N.ltb_ge in Hv. lia.
  - intros r b highest Hok Hbat Hpos Hv Hr Hb Hne Hlen. unfold handle_fetch_blocks. cbn [validate_refs]. rewrite Hv. cbn [negb].
    rewrite (proj2 (N.eqb_neq _ GENESIS_ROUND)) by (unfold GENESIS_ROUND; lia). cbn [try]. rewrite Hbat. cbn [negb].
    rewrite bool_decide_eq_false_2 by done. unfold fetch_missing.
    assert (take (N.to_nat (max_blocks_per_sync (sv_parameters s))) [r] = [r]) as -> by (apply take_ge; simpl; lia).
    change (dedup _) with [r]. rewrite get_blocks_ret by apply Hok. cbn [mbind outcome_bind]. csimpl. rewrite Hb. csimpl.
    pose proof (lookup_block_reference _ Hok _ _ Hb) as Href. rewrite Href.
    change (lowest_missing ∅ r) with (<[ref_author r := N.min (default (ref_round r) ((∅ : gmap AuthorityIndex Round) !! ref_author r)) (ref_round r)]> (∅ : gmap AuthorityIndex Round)).
    rewrite lookup_empty, insert_empty. cbn [default from_option id]. rewrite N.min_id.
    assert (btree_entries ({[ref_author r := ref_round r]} : gmap AuthorityIndex Round) = [(ref_author r, ref_round r)]) as ->.
    { unfold btree_entries, btree_keys. rewrite dom_singleton_L. unfold btree_iter. rewrite elements_singleton. csimpl. by rewrite lookup_singleton_eq. }
    cbn [stable_sort foldr sorted_insert add_cached]. unfold vec_index. rewrite lookup_ge_None_2 by done. cbn. by eexists.
Qed.

(** ** The latest blocks and rounds *)

(** The latest blocks and rounds.  A request for the latest blocks is refused when
    it names more authorities than there are, or one outside the committee;
    otherwise the answer has, in the order of the request, a known block of each
    named authority that no cached block of that authority is above, and the
    authorities with only a genesis block are left out.  A request for rounds is
    answered with a round for every authority: the round of its latest cached
    block, and the highest round received from it, where the node's own is the
    round of its own latest block. *)
Theorem latest_served {St : Type} `{StoreLaws St} `{Crypto} `{BcsDecode} (s : AuthorityService St) (peer : AuthorityIndex) :
  let c := committee (sv_context s) in
  let d := sv_dag_state s in
  dag_ok d → ds_context d = sv_context s → evicted_before d U32_MAX → is_valid_index c (own_index (sv_context s)) →
  length (highest_received_rounds (sv_core_dispatcher s)) = N.to_nat (committee_size c) →
  (∀ auths, ∃ r, handle_fetch_latest_blocks s peer auths = Ret r ∧
    match r with
    | Ok answer => (∀ a, a ∈ auths → is_valid_index c a) ∧ ∃ blocks : list VerifiedBlock,
        Forall2 (λ a (b : VerifiedBlock), author b = a ∧ lookup_block d (reference b) = Some b ∧
          ∀ r i, ds_recent_blocks d !! r = Some i → ref_author r = a → ref_round r <= round b) auths blocks ∧
        answer = (λ b : VerifiedBlock, serialized b) <$> filter (λ b : VerifiedBlock, round b ≠ 0) blocks
    | Err (TooManyAuthoritiesProvided p) => p = peer ∧ committee_size c < N.of_nat (length auths)
    | Err (InvalidAuthorityIndex a m) => a ∈ auths ∧ ¬ is_valid_index c a ∧ m = committee_size c
    | Err _ => False
    end) ∧
  ∃ received accepted, handle_get_latest_rounds s peer = Ret (Ok (received, accepted)) ∧
    length received = N.to_nat (committee_size c) ∧ length accepted = N.to_nat (committee_size c) ∧
    ∀ a, is_valid_index c a → ∃ (b : VerifiedBlock) eqs, latest_below d U32_MAX a b eqs ∧ accepted !! N.to_nat a = Some (round b) ∧
      received !! N.to_nat a = if decide (a = own_index (sv_context s)) then Some (round b) else highest_received_rounds (sv_core_dispatcher s) !! N.to_nat a.
Proof.
  intros c d Hok Hctx Hev Hown Hlen. split.
  - intros auths. unfold handle_fetch_latest_blocks. fold c d. destruct (N.ltb_spec (committee_size c) (N.of_nat (length auths))); [by eexists|].
    destruct (find (λ a, negb (is_valid_index c a)) auths) as [a|] eqn:Hf.
    { apply find_some in Hf as [Hin Hv]. eexists. split; [done|]. apply list_elem_of_In in Hin. apply negb_true_iff in Hv. split; [done|]. split; [|done]. intros Hx. by rewrite Hv in Hx. }
    assert (∀ a, a ∈ auths → is_valid_index c a) as Hv.
    { intros a Ha%list_elem_of_In. apply (find_none _ _ Hf), negb_false_iff in Ha. by rewrite Ha. }
    assert (∃ blocks, mapM (get_last_block_for_authority d) auths = Ret blocks) as [blocks Hb].
    { apply mapM_is_ret. intros a Ha. destruct (last_block_ret d Hok a) as (b & -> & _); [rewrite Hctx; by apply Hv|by eexists]. }
    rewrite Hb. cbn [mbind outcome_bind]. eexists. split; [done|]. split; [done|]. exists blocks. split; [|done].
    apply mapM_ret_Forall2 in Hb. clear Hf. induction Hb as [|a b auths blocks Heq Hb IH]; [constructor|]. constructor; [|apply IH; [simpl in *; lia|set_solver]].
    destruct (last_block_ret d Hok a) as (b' & Hb' & Hau & Hl & _ & Hmax); [rewrite Hctx; apply Hv; left|]. rewrite Heq in Hb'. by injection Hb' as <-.
  - unfold handle_get_latest_rounds. fold d. destruct (last_cached_ret d Hok U32_MAX) as (l & -> & Hl & Hlat); [done..|]. rewrite Hctx in Hl, Hlat.
    cbn [mbind outcome_bind]. set (acc := _ <$> l). destruct (Hlat _ Hown) as (b & eqs & Hb & _).
    assert (acc !! N.to_nat (own_index (sv_context s)) = Some (round b)) as Hacc by (unfold acc; by rewrite list_lookup_fmap, Hb).
    rewrite (proj2 (vec_index_ret _ _ _) Hacc). cbn [mbind outcome_bind]. apply Is_true_true, N.ltb_lt in Hown. fold c in Hown.
    set (rs := highest_received_rounds (sv_core_dispatcher s)) in *.
    assert (vec_set rs (own_index (sv_context s)) (round b) = Ret (<[N.to_nat (own_index (sv_context s)) := round b]> rs)) as ->.
    { apply vec_set_ret. split; [rewrite Hlen; lia|done]. }
    cbn [mbind outcome_bind]. eexists _, _. split; [done|]. split; [by rewrite length_insert|]. split; [unfold acc; by rewrite length_fmap|].
    intros a Ha. destruct (Hlat a Ha) as (b' & eqs' & Hb' & Hlb). exists b', eqs'. split; [done|]. split; [unfold acc; by rewrite list_lookup_fmap, Hb'|].
    case_decide as Heq; [|apply list_lookup_insert_ne; lia]. subst a. rewrite Hb in Hb'. injection Hb' as <- _. apply list_lookup_insert_eq. rewrite Hlen. lia.
Qed.

(** ** Commits *)

(** The references of the blocks that vote for a commit with the index [i]. *)
Definition vote_refs (v : StoreView) (i : CommitIndex) : list BlockRef := snd <$> btree_range (λ k, k.1.1 =? i) (sv_commit_votes v).

Definition certified (c : Committee) (v : StoreView) (i : CommitIndex) : bool :=
  reached_quorum c (set_stake c (list_to_set (ref_author <$> vote_refs v i))).

Lemma elem_of_vote_refs v i r : r ∈ vote_refs v i ↔ ∃ dg, (i, dg, r) ∈ sv_commit_votes v.
Proof.
  unfold vote_refs. rewrite list_elem_of_fmap. setoid_rewrite elem_of_btree_range. setoid_rewrite Is_true_true. setoid_rewrite N.eqb_eq. split.
  - intros ([[i' dg] r'] & -> & Hi & Hin). cbn in Hi. subst. by exists dg.
  - intros [dg Hin]. by exists (i, dg, r).
Qed.

(** The rows of votes come from stored blocks. *)
Definition votes_backed (v : StoreView) : Prop :=
  ∀ i dg r, (i, dg, r) ∈ sv_commit_votes v → ∃ b : VerifiedBlock, sv_blocks v !! r = Some b ∧ mk_commit_ref i dg ∈ commit_votes b.

Lemma elem_of_insert_votes bs i dg r : ∀ m, (i, dg, r) ∈ insert_votes bs m ↔
  (i, dg, r) ∈ m ∨ ∃ b : VerifiedBlock, b ∈ bs ∧ reference b = r ∧ mk_commit_ref i dg ∈ commit_votes b.
Proof.
  unfold insert_votes. induction bs as [|b bs IH]; intros m; cbn [foldl]; [set_solver|]. rewrite IH.
  assert (∀ vs (m : gset (CommitIndex * CommitDigest * BlockRef)), (i, dg, r) ∈ foldl (λ m v, {[(commit_ref_index v, commit_ref_digest v, reference b)]} ∪ m) m vs ↔
    (i, dg, r) ∈ m ∨ (reference b = r ∧ mk_commit_ref i dg ∈ vs)) as Hv.
  { clear. induction vs as [|[i' dg'] vs IH]; intros m; cbn [foldl]; [set_solver|]. rewrite IH, elem_of_union, elem_of_singleton, elem_of_cons. naive_solver. }
  rewrite Hv. setoid_rewrite elem_of_cons. naive_solver.
Qed.

(** A store whose references determine their blocks keeps it. *)
Lemma votes_backed_write v w : votes_backed v →
  (∀ b r b', b ∈ wb_blocks w → reference b = r → sv_blocks v !! r = Some b' ∨ (b' ∈ wb_blocks w ∧ reference b' = r) → b' = b) →
  votes_backed (view_write v w).
Proof.
  intros Hv Huniq i dg r. cbn [view_write sv_commit_votes sv_blocks]. rewrite elem_of_insert_votes.
  assert (∀ b, b ∈ wb_blocks w → insert_blocks (wb_blocks w) (sv_blocks v) !! reference b = Some b) as Hnew.
  { intros b Hb. assert (is_Some (insert_blocks (wb_blocks w) (sv_blocks v) !! reference b)) as [b' Hb'].
    { apply elem_of_dom. rewrite insert_blocks_dom, elem_of_union, elem_of_list_to_set. left. by apply list_elem_of_fmap_2. }
    rewrite Hb'. f_equal. apply (Huniq b (reference b) b' Hb eq_refl). apply insert_blocks_lookup_inv in Hb' as [?|?]; [by right|by left]. }
  intros [Hin|(b & Hb & <- & Hvote)]; [|exists b; by rewrite Hnew].
  destruct (Hv _ _ _ Hin) as (b & Hb & Hvote). exists b. split; [|done].
  destruct (decide (r ∈ reference <$> wb_blocks w)) as [(b' & -> & Hb')%list_elem_of_fmap|Hr]; [|by rewrite insert_blocks_lookup_ne].
  rewrite (Hnew b' Hb'). f_equal. symmetry. by eapply (Huniq b' (reference b') b); [|done|left].
Qed.

Section commits.
Context {St : Type} `{StoreLaws St} (s : AuthorityService St).
Let c := committee (sv_context s).
Let view := store_view (sv_store s).

(** The loop ends at the last commit that a quorum has voted for. *)
Lemma certified_prefix_spec l : store_ok (sv_store s) → committee_ok c →
  (∀ t : TrustedCommit, t ∈ l → commit_index t <= U32_MAX) →
  (∀ t r, t ∈ l → r ∈ vote_refs view (commit_index (t : TrustedCommit)) → is_valid_index c (ref_author r)) →
  ∃ skipped rest, l = skipped ++ rest ∧ (∀ t : TrustedCommit, t ∈ skipped → certified c view (commit_index t) = false) ∧
    certified_prefix s l = Ret (Ok (reverse rest, match rest with t :: _ => vote_refs view (commit_index t) | [] => [] end)) ∧
    (∀ t, head rest = Some t → certified c view (commit_index (t : TrustedCommit))).
Proof.
  intros Hs Hc. induction l as [|t l IH]; intros Hw Hv; cbn [certified_prefix].
  { exists [], []. split; [done|]. split; [by intros ? ?%elem_of_nil|]. by split. }
  rewrite read_commit_votes_view by (done || apply Hw; left). cbn [mbind outcome_bind try]. fold view. fold (vote_refs view (commit_index t)).
  destruct (add_votes_spec (T := QuorumThreshold) c (ref_author <$> vote_refs view (commit_index t)) Hc _ (agg_ok_new c)) as (a & Ha & Hvotes & Hagg).
  { apply Forall_fmap, Forall_forall. intros r Hr. apply (Hv t); [left|done]. }
  fold c. rewrite Ha. cbn [mbind outcome_bind]. change (votes StakeAggregator_new) with (∅ : gset AuthorityIndex) in Hvotes. rewrite (right_id_L ∅ (∪)) in Hvotes.
  assert (reached_threshold a c = certified c view (commit_index t)) as ->.
  { destruct Hagg as [_ Hst]. unfold reached_threshold, certified. rewrite Hst, Hvotes. done. }
  destruct (certified c view (commit_index t)) eqn:Hq.
  - exists [], (t :: l). split; [done|]. split; [by intros ? ?%elem_of_nil|]. split; [done|]. intros t' [= <-]. by rewrite Hq.
  - destruct IH as (sk & rest & -> & Hsk & Heq & Hr); [intros ? ?; apply Hw; by right|intros ? ? ?; apply Hv; by right|].
    exists (t :: sk), rest. split; [done|]. split; [intros t' [->|?]%elem_of_cons; [done|by apply Hsk]|]. by split.
Qed.
End commits.

(** ** Commit sync from end to end *)

(** What the client makes of a call. *)
Definition answer_of {A} (r : outcome (ConsensusResult A)) : ConsensusResult A := match r with Ret r => r | Panic _ => Err Shutdown end.

Section sync.
Context {St : Type} `{StoreLaws St} `{Crypto} `{BcsDecode} (verify_batch : list bytes → result unit string) (v : SignedBlockVerifier).
Context (chain : CommitIndex → option TrustedCommit).

(** A node with the first commits of [chain], of which [n] are stored.  The stored
    blocks are valid for the node that asks. *)
Record serving (s : AuthorityService St) (log : list (CommittedSubDag * TrustedCommit)) (n : nat) : Prop := {
  sg_dag : dag_ok (sv_dag_state s);
  sg_context : ds_context (sv_dag_state s) = sv_context s;
  sg_committee : committee (verifier_context v) = committee (sv_context s);
  sg_log : log_ok (sv_dag_state s) log n;
  sg_width : N.of_nat n < U32_MAX;
  sg_chain k sd t : log !! k = Some (sd, t) → chain (N.of_nat k + 1) = Some t;
  sg_blocks r b : stored (sv_dag_state s) r = Some b → from_bytes b ∧ valid_block verify_batch v b;
  sg_votes : votes_backed (store_view (sv_store s));
}.

Context (s : AuthorityService St) (log : list (CommittedSubDag * TrustedCommit)) (n : nat) (Hs : serving s log n).
Let c := committee (sv_context s).
Let view := store_view (sv_store s).

Lemma serving_stored r b : stored (sv_dag_state s) r = Some b → reference b = r ∧ is_valid_index c (ref_author r) ∧ 0 < ref_round r.
Proof.
  intros Hb. destruct (store_keys_ok _ _ _ (ok_store _ (sg_dag _ _ _ Hs)) Hb) as [Hr _]. split; [done|].
  destruct (ok_stored _ (sg_dag _ _ _ Hs) _ _ Hb) as [Hpos Hv]. rewrite (sg_context _ _ _ Hs) in Hv. done.
Qed.

(** Stored blocks that are asked for are sent. *)
Lemma fetch_stored client request : N.of_nat (length request) <= max_blocks_per_fetch (sv_parameters s) →
  (∀ r, r ∈ request → ∃ b, stored (sv_dag_state s) r = Some b ∧ lookup_block (sv_dag_state s) r = Some b) →
  ∃ ss, handle_fetch_blocks s client request [] = Ret (Ok ss) ∧ answers request ss.
Proof.
  intros Hlen Hin. set (d := sv_dag_state s) in *. pose proof (sg_dag _ _ _ Hs) as Hok. fold d in Hok.
  assert (∃ bs, lookup_block d <$> request = Some <$> bs ∧ committed_lookup s <$> request = Some <$> bs ∧ answers request ((λ b : VerifiedBlock, serialized b) <$> bs)) as (bs & Hl & Hcl & Ha).
  { clear Hlen. induction request as [|r request IH]; [exists []; split_and!; [done|done|constructor]|]. destruct IH as (bs & Hl & Hcl & Ha); [intros; apply Hin; by right|].
    destruct (Hin r) as (b & Hst & Hlk); [left|]. exists (b :: bs). csimpl. rewrite Hl, Hlk, Hcl. split; [done|]. split.
    - f_equal. unfold committed_lookup. fold d. by rewrite Hst, Hlk; case_decide.
    - constructor; [|done]. destruct (sg_blocks _ _ _ Hs _ _ Hst) as [[Hdec Hdig] _]. exists (signed_block b). split; [done|].
      destruct (serving_stored _ _ Hst) as [<- _]. by rewrite <-Hdig. }
  assert (∀ (f : BlockRef → option VerifiedBlock), f <$> request = Some <$> bs → omap f request = bs) as Hom.
  { intros f. clear. revert bs. induction request as [|r request IH]; intros [|b bs]; csimpl; try done. intros [= -> Hf]. by rewrite (IH bs). }
  exists ((λ b : VerifiedBlock, serialized b) <$> bs). split; [|done]. unfold handle_fetch_blocks.
  assert (validate_refs (committee (sv_context s)) request = Ok tt) as ->.
  { clear Hlen Hl Hcl Ha Hom. induction request as [|r request IH]; [done|]. cbn [validate_refs]. destruct (Hin r) as (b & Hst & _); [left|].
    destruct (serving_stored _ _ Hst) as (_ & Hv & Hpos). unfold c in Hv. rewrite (Is_true_true_1 _ Hv). cbn [negb].
    rewrite (proj2 (N.eqb_neq _ GENESIS_ROUND)) by (unfold GENESIS_ROUND; lia). apply IH. intros; apply Hin; by right. }
  cbn [try]. destruct (consensus_batched_block_sync (sv_parameters s)); cbn [negb].
  - rewrite bool_decide_eq_true_2 by done. rewrite (fetch_committed_ret s Hok). cbn [mbind outcome_bind]. do 3 f_equal. rewrite take_ge by lia. by apply Hom.
  - unfold fetch_unbatched. rewrite (proj2 (N.ltb_ge _ _) Hlen), bool_decide_eq_true_2 by done. cbn [negb andb].
    fold d. rewrite get_blocks_ret by apply Hok. cbn [mbind outcome_bind]. rewrite app_nil_r, Hl. do 3 f_equal. clear. induction bs as [|b bs IH]; [done|]. csimpl. by rewrite IH.
Qed.

(** The commits of the range that are stored, as many as are served. *)
Definition servable (rg : CommitRange) : list TrustedCommit :=
  let finish := N.min (range_end rg) (range_start rg + service_commit_sync_batch_size (sv_parameters s) - 1) in
  (drop (N.to_nat (range_start rg) - 1) (take (N.to_nat finish) (take n log))).*2.

Lemma servable_lookup rg k t : 0 < range_start rg → servable rg !! k = Some t →
  chain (range_start rg + N.of_nat k) = Some t ∧ commit_index t = range_start rg + N.of_nat k ∧
  commit_index t <= range_end rg ∧ commit_index t <= U32_MAX ∧
  ∀ r, r ∈ commit_blocks t → ∃ b, stored (sv_dag_state s) r = Some b ∧ lookup_block (sv_dag_state s) r = Some b.
Proof.
  intros Hpos. unfold servable. rewrite list_lookup_fmap_Some. intros ([sd t'] & -> & Hk). cbn [snd].
  rewrite lookup_drop in Hk. apply lookup_take_Some in Hk as [Hk Hfin]. apply lookup_take_Some in Hk as [Hk Hn].
  destruct (lg_index _ _ _ (sg_log _ _ _ Hs) _ _ _ Hk) as [Hi Hsd]. pose proof (sg_chain _ _ _ Hs _ _ _ Hk) as Hch. pose proof (sg_width _ _ _ Hs).
  replace (N.of_nat (N.to_nat (range_start rg) - 1 + k) + 1) with (range_start rg + N.of_nat k) in Hch, Hi by lia.
  split; [done|]. split; [done|]. split; [lia|]. split; [lia|]. intros r. rewrite (sd_blocks _ _ Hsd). intros (b & -> & Hb)%list_elem_of_fmap.
  destruct (lg_known _ _ _ (sg_log _ _ _ Hs) _ _ _ b Hk Hb) as (_ & Hl & Hst). exists b. by split; [apply Hst|].
Qed.

(** What the handler returns. *)
Lemma fetch_commits_ret client rg : 0 < range_start rg → range_end rg < U32_MAX →
  0 < service_commit_sync_batch_size (sv_parameters s) → range_start rg <= range_end rg →
  range_start rg + service_commit_sync_batch_size (sv_parameters s) <= U32_MAX →
  ∃ ts skipped certifiers, servable rg = ts ++ skipped ∧ (∀ t : TrustedCommit, t ∈ skipped → certified c view (commit_index t) = false) ∧
    handle_fetch_commits s client rg = Ret (Ok (ts, certifiers)) ∧
    match last ts with
    | Some t => certified c view (commit_index t) ∧ Some <$> certifiers = stored (sv_dag_state s) <$> vote_refs view (commit_index t)
    | None => certifiers = []
    end.
Proof.
  intros Hpos Hend Hb Hle Hw. pose proof (sg_dag _ _ _ Hs) as Hok. pose proof (ok_store _ Hok) as Hst. unfold handle_fetch_commits. fold (sv_store s) in *.
  rewrite (wrap32_small (range_start rg + _)), wrap32_sub by (unfold U32_MOD, U32_MAX in *; lia).
  rewrite scan_commits_between by (done || unfold U32_MAX in *; lia). cbn [mbind outcome_bind try].
  rewrite (stored_range (sv_dag_state s) log n) by (done || apply Hs). fold (servable rg).
  assert (∀ r, r ∈ sv_commit_votes view → ∃ b, stored (sv_dag_state s) r.2 = Some b) as Hback.
  { intros [[i dg] r] Hr. destruct (sg_votes _ _ _ Hs _ _ _ Hr) as (b & Hbk & _). by exists b. }
  destruct (certified_prefix_spec s (reverse (servable rg)) Hst) as (sk & rest & Hsplit & Hsk & -> & Hcert).
  { rewrite <-(sg_context _ _ _ Hs). apply Hok. }
  { intros t Ht. rewrite elem_of_reverse in Ht. apply list_elem_of_lookup in Ht as [k Hk]. by destruct (servable_lookup rg k t Hpos Hk) as (_ & _ & _ & ? & _). }
  { intros t r _ (dg & Hr)%elem_of_vote_refs. destruct (Hback _ Hr) as [b Hbk]. by destruct (serving_stored _ _ Hbk) as (_ & ? & _). }
  cbn [mbind outcome_bind try]. rewrite read_blocks_view by done. cbn [mbind outcome_bind try].
  set (refs := match rest with t :: _ => _ | [] => [] end).
  assert (∃ bs, (λ r, sv_blocks (store_view (sv_store s)) !! r) <$> refs = Some <$> bs) as [bs Hbs].
  { assert (∀ r, r ∈ refs → ∃ b, stored (sv_dag_state s) r = Some b) as Hrefs.
    { unfold refs. destruct rest as [|t rest]; [by intros r ?%elem_of_nil|]. intros r (dg & Hr)%elem_of_vote_refs. by apply Hback in Hr. }
    clearbody refs. clear -Hrefs. induction refs as [|r refs IH]; [by exists []|]. destruct (Hrefs r) as [b Hb]; [left|].
    destruct IH as [bs Hbs]; [intros; apply Hrefs; by right|]. exists (b :: bs). csimpl. rewrite Hbs. f_equal. exact Hb. }
  exists (reverse rest), (reverse sk), bs. split_and!.
  - by rewrite <-reverse_app, <-Hsplit, reverse_involutive.
  - intros t Ht. apply Hsk. by rewrite elem_of_reverse in Ht.
  - rewrite Hbs. do 3 f_equal. clear. induction bs as [|b bs IH]; [done|]. csimpl. by rewrite IH.
  - rewrite last_reverse. destruct rest as [|t rest]; cbn [head] in *.
    + unfold refs in Hbs. by destruct bs.
    + split; [by apply Hcert|]. symmetry. exact Hbs.
Qed.

(** The blocks that vote for an index are valid. *)
Lemma certifiers_valid i (certifiers : list VerifiedBlock) :
  Some <$> certifiers = stored (sv_dag_state s) <$> vote_refs view i →
  valid_votes verify_batch v ((λ b : VerifiedBlock, serialized b) <$> certifiers) ((λ b : VerifiedBlock, signed_block b) <$> certifiers).
Proof.
  intros Hcs. unfold valid_votes. rewrite Forall2_fmap_l, Forall2_fmap_r. apply Forall_Forall2_diag, Forall_forall. intros b Hb.
  assert (Some b ∈ Some <$> certifiers) as Hin by by apply list_elem_of_fmap_2. rewrite Hcs in Hin.
  apply list_elem_of_fmap in Hin as (r & Hst & _). destruct (sg_blocks _ _ _ Hs r b (eq_sym Hst)) as [[Hd _] Hv]. by split.
Qed.

(** When they all vote for the same commit, it has the quorum that was counted. *)
Lemma certifiers_agree (t : TrustedCommit) (certifiers : list VerifiedBlock) : certified c view (commit_index t) →
  (∀ dg r, (commit_index t, dg, r) ∈ sv_commit_votes view → dg = commit_digest t) →
  Some <$> certifiers = stored (sv_dag_state s) <$> vote_refs view (commit_index t) →
  reached_quorum c (set_stake c (voters (commit_reference t) ((λ b : VerifiedBlock, signed_block b) <$> certifiers))).
Proof.
  intros Hq Hagree Hcs. unfold certified, reached_quorum in *. rewrite !Is_true_true, !N.leb_le in *. etrans; [exact Hq|]. apply set_stake_mono.
  intros a. rewrite elem_of_voters, elem_of_list_to_set, list_elem_of_fmap.
  intros (r & -> & Hr). assert (stored (sv_dag_state s) r ∈ Some <$> certifiers) as Hin by (rewrite Hcs; by apply list_elem_of_fmap_2).
  apply list_elem_of_fmap in Hin as (b & Hst & Hin). exists (signed_block b). split; [by apply list_elem_of_fmap_2|]. apply elem_of_vote_refs in Hr as [dg Hr].
  destruct (sg_votes _ _ _ Hs _ _ _ Hr) as (b' & Hb' & Hvote). unfold stored in Hst. fold (sv_store s) in Hst. rewrite Hb' in Hst. injection Hst as <-.
  rewrite (Hagree _ _ Hr) in Hvote. split; [done|]. by destruct (store_keys_ok _ _ _ (ok_store _ (sg_dag _ _ _ Hs)) Hb') as [<- _].
Qed.
End sync.

(** C9: commit sync from end to end.  A node has the first commits of the chain and
    stores blocks with votes; another node, with the same committee, asks for a
    range of commits.  The server answers with the stored commits of the range,
    from its start up to the last one whose index has stored votes of a quorum,
    and with the blocks that cast these votes.  The server does not look at the
    digest the votes name; the client does.  The client's [fetch_once], fed with
    this answer and with the server's answers to its requests for blocks, returns
    exactly these commits when the authors of the votes for the last one's digest
    are themselves a quorum (which they are when all the stored votes for that
    index name this digest); otherwise it fails with the stake of these authors,
    and nothing of the range is served although earlier commits may be certified.
    Without a commit to send, the client sees an empty answer and says so. *)
Theorem commit_sync_served {St : Type} `{StoreLaws St} `{Crypto} `{BcsDecode} (verify_batch : list bytes → result unit string) (v : SignedBlockVerifier)
    (chain : CommitIndex → option TrustedCommit) (s : AuthorityService St) log n (client server : AuthorityIndex) (rg : CommitRange) :
  let c := committee (sv_context s) in
  let view := store_view (sv_store s) in
  commit_chain chain → serving verify_batch v chain s log n → 0 < max_blocks_per_fetch (sv_parameters s) →
  0 < service_commit_sync_batch_size (sv_parameters s) → range_start rg + service_commit_sync_batch_size (sv_parameters s) <= U32_MAX →
  0 < range_start rg → range_start rg <= range_end rg → range_hi rg <= U32_MAX →
  ∃ ts skipped certifiers,
    servable s log n rg = ts ++ skipped ∧
    (∀ t', t' ∈ skipped → certified c view (commit_index (t' : TrustedCommit)) = false) ∧
    handle_fetch_commits s client rg = Ret (Ok (ts, certifiers)) ∧
    let result := fetch_once verify_batch v (max_blocks_per_fetch (sv_parameters s)) server rg
      (Ok (commit_serialized <$> ts, (λ b : VerifiedBlock, serialized b) <$> certifiers))
      (λ _ request, answer_of (handle_fetch_blocks s client request [])) in
    match last ts with
    | None => certifiers = [] ∧ result = Ret (Err (NoCommitReceived server))
    | Some t =>
      certified c view (commit_index t) ∧ Some <$> certifiers = stored (sv_dag_state s) <$> vote_refs view (commit_index t) ∧
      let stake := set_stake c (voters (commit_reference t) ((λ b : VerifiedBlock, signed_block b) <$> certifiers)) in
      ((∀ dg r, (commit_index t, dg, r) ∈ sv_commit_votes view → dg = commit_digest t) → reached_quorum c stake) ∧
      if reached_quorum c stake then ∃ cc, result = Ret (Ok cc) ∧ certified_commit <$> certified_commits cc = ts
      else result = Ret (Err (NotEnoughCommitVotes stake server (commit_inner t)))
    end.
Proof.
  intros c view Hchain Hs Hmax Hb Hw Hpos Hle Hhi.
  destruct (fetch_commits_ret verify_batch v chain s log n Hs client rg Hpos) as (ts & sk & cs & Hsplit & Hsk & Hret & Hlast); [unfold range_end in *; lia|done..|].
  exists ts, sk, cs. split; [done|]. split; [done|]. split; [done|]. intros result. destruct (last ts) as [t|] eqn:Ht.
  2:{ split; [done|]. apply last_None in Ht. unfold result. by rewrite Ht. }
  destruct Hlast as [Hcert Hcs]. split; [done|]. split; [done|]. intros stake. split; [intros Hag; by apply (certifiers_agree verify_batch v chain s log n Hs)|].
  assert (∀ k u, ts !! k = Some u → servable s log n rg !! k = Some u) as Hpre by (intros k u Hk; rewrite Hsplit; by apply lookup_app_l_Some).
  assert (∀ k u, ts !! k = Some u → chain (range_start rg + N.of_nat k) = Some u ∧ commit_index u <= range_end rg ∧
    ∀ r, r ∈ commit_blocks u → ∃ b, stored (sv_dag_state s) r = Some b ∧ lookup_block (sv_dag_state s) r = Some b) as Hts.
  { intros k u Hk. destruct (servable_lookup verify_batch v chain s log n Hs rg _ _ Hpos (Hpre _ _ Hk)) as (? & _ & ? & _ & ?). done. }
  pose proof (certifiers_valid verify_batch v chain s log n Hs (commit_index t) cs Hcs) as Hvv.
  pose proof (fetch_once_accepts_honest verify_batch v chain (max_blocks_per_fetch (sv_parameters s)) server rg ts t ((λ b : VerifiedBlock, serialized b) <$> cs)
    ((λ b : VerifiedBlock, signed_block b) <$> cs) (λ _ request, answer_of (handle_fetch_blocks s client request []))) as Hf.
  rewrite (sg_committee _ _ _ _ _ _ Hs) in Hf. apply Hf; try done.
  - rewrite <-(sg_context _ _ _ _ _ _ Hs). apply (sg_dag _ _ _ _ _ _ Hs).
  - intros k u Hk. by apply Hts.
  - intros u (k & Hk)%list_elem_of_lookup. by apply (Hts k).
  - intros _ request Hlen Hreq. destruct (fetch_stored verify_batch v chain s log n Hs client request Hlen) as (ss & -> & Hans); [|by exists ss].
    intros r (u & Hr & (k & Hk)%list_elem_of_lookup)%Hreq%list_elem_of_bind. by apply (Hts k u).
Qed.

(** ** A concrete service *)

(** A node with six full rounds. *)
Definition test_answering : AuthorityService MemStore :=
  test_service (mk_core_thread (set_dag test_core test_manager test_state_a) [] (mk_watch false false) (mk_watch (mk_propagation 0 [] []) false)
    (mk_watch 0 false) [0; 0; 0; 0] [] true true).

Definition test_asked : BlockRef := reference (nth 21 (test_blocks 6) test_sent).

Lemma fetch_blocks_served_witness : ∃ answer, handle_fetch_blocks test_answering 2 [test_asked] [3; 3; 3; 3] = Ret (Ok answer) ∧ length answer = 3%nat.
Proof.
  destruct (fetch_blocks_served (H1 := test_crypto) (H2 := test_service_decode) test_answering 2 [test_asked] [3; 3; 3; 3]) as (r & Hr & _).
  - apply test_state_facts.
  - apply test_state_facts.
  - reflexivity.
  - right. reflexivity.
  - assert (match handle_fetch_blocks test_answering 2 [test_asked] [3; 3; 3; 3] with Ret (Ok l) => (length l =? 3)%nat | _ => false end) as Hv by (vm_compute; exact I).
    rewrite Hr in Hv. destruct r as [answer|]; [|destruct Hv]. exists answer. split; [exact Hr|]. apply Nat.eqb_eq. destruct (length answer =? 3)%nat; [reflexivity|destruct Hv].
Defined.

Lemma latest_served_witness : ∃ answer received, handle_fetch_latest_blocks test_answering 2 [1; 3] = Ret (Ok answer) ∧ length answer = 2%nat ∧
  handle_get_latest_rounds test_answering 2 = Ret (Ok (received, [6; 6; 6; 6])).
Proof.
  destruct (latest_served (H1 := test_crypto) (H2 := test_service_decode) test_answering 2) as [Hblocks (received & accepted & Hrounds & _)].
  - apply test_state_facts.
  - apply test_state_facts.
  - intros a e He. assert (ds_evicted_rounds (sv_dag_state test_answering) = [0; 0; 0; 0]) as Hz by (vm_compute; reflexivity). rewrite Hz in He.
    apply list_elem_of_lookup_2 in He. repeat (apply elem_of_cons in He as [->|He]; [vm_compute; reflexivity|]). destruct (not_elem_of_nil _ He).
  - exact I.
  - reflexivity.
  - destruct (Hblocks [1; 3]) as (r & Hr & _).
    assert (match handle_fetch_latest_blocks test_answering 2 [1; 3] with Ret (Ok l) => Nat.eqb (length l) 2 | _ => false end = true) as Hv by (vm_compute; reflexivity).
    rewrite Hr in Hv. destruct r as [answer|]; [|discriminate]. exists answer, received. split; [exact Hr|]. split; [exact (proj1 (Nat.eqb_eq _ _) Hv)|]. rewrite Hrounds.
    assert (match handle_get_latest_rounds test_answering 2 with Ret (Ok (_, l)) => bool_decide (l = [6; 6; 6; 6]) | _ => false end = true) as Hw by (vm_compute; reflexivity).
    rewrite Hrounds in Hw. apply bool_decide_eq_true_1 in Hw as ->. reflexivity.
Defined.

Lemma unchecked_requests_panic_witness :
  (∃ why, handle_send_block (H0 := test_crypto) (H1 := test_service_decode) (λ _, Ok tt) (λ _, Some (mk_ref 1 9 0)) test_answering 2 0 105 (Some ∅) (Adding [[]]) = Panic why) ∧
  ∃ why, handle_fetch_blocks test_answering 2 [test_asked] [3] = Panic why.
Proof.
  destruct (unchecked_requests_panic (H1 := test_crypto) (H2 := test_service_decode) (λ _, Ok tt) (λ _, Some (mk_ref 1 9 0)) test_answering 2) as [Hsend Hfetch].
  split.
  - apply (Hsend 0 105 ∅ [[]] [mk_ref 1 9 0] (mk_ref 1 9 0)); [reflexivity|left|reflexivity].
  - apply (Hfetch test_asked (nth 21 (test_blocks 6) test_sent)); [apply test_state_facts|reflexivity..| | |discriminate|].
    + vm_compute. reflexivity.
    + unfold sv_dag_state. change (co_dag_state _) with test_state_a. unfold test_state_a. rewrite test_state_lookup. vm_compute. reflexivity.
    + apply Nat.leb_le. vm_compute. reflexivity.
Defined.

(** A node with one commit, and the blocks of three authorities that vote for it. *)
Definition test_vote (a : AuthorityIndex) (votes : list CommitVote) : VerifiedBlock :=
  let parents := reference <$> test_genesis_blocks in
  let ancs := filter (λ p, ref_author p = a) parents ++ filter (λ p, ref_author p ≠ a) parents in
  match SignedBlock_new (H := test_crypto) (H0 := test_signer) (V1 (mk_block_v1 0 1 a (50 + N.of_nat (length votes)) ancs [] votes [])) with
  | Ok s => new_verified (H := test_crypto) s (test_bytes s)
  | Err _ => test_sent
  end.

Definition test_synced : TrustedCommit :=
  new_trusted (H := test_crypto) (Commit_new 1 0 50 (reference (test_vote 1 [])) [reference (test_vote 1 [])]) [1].

Definition test_sync_blocks : list VerifiedBlock := test_vote 1 [] :: ((λ a, test_vote a [commit_reference test_synced]) <$> [1; 2; 3]).

Definition test_sync_decode : BcsDecode := {|
  decode_commit bs := if decide (bs = [1]) then Some (commit_inner test_synced) else None;
  decode_signed_block bs := (λ b : VerifiedBlock, signed_block b) <$> find (λ b : VerifiedBlock, bool_decide (serialized b = bs)) test_sync_blocks;
|}.

Definition test_sync_chain (i : CommitIndex) : option TrustedCommit := if decide (i = 1) then Some test_synced else None.

Definition test_sync_dag : DagState MemStore :=
  match (d ← add_commit 0 (test_state test_sync_blocks) test_synced; flush d) with Ret d => d | Panic _ => test_fresh end.

Definition test_server : AuthorityService MemStore :=
  test_service (mk_core_thread (set_dag test_core test_manager test_sync_dag) [] (mk_watch false false) (mk_watch (mk_propagation 0 [] []) false)
    (mk_watch 0 false) [0; 0; 0; 0] [] true true).

Definition test_sync_log : list (CommittedSubDag * TrustedCommit) :=
  [(mk_sub_dag (commit_leader test_synced) [test_vote 1 []] 50 (commit_reference test_synced) [], test_synced)].

Lemma test_sync_chain_Some i t : test_sync_chain i = Some t → i = 1 ∧ t = test_synced.
Proof. unfold test_sync_chain. case_decide; [by intros [= <-]|discriminate]. Qed.

Lemma test_sync_chain_ok : commit_chain (H := test_crypto) (H0 := test_sync_decode) test_sync_chain.
Proof.
  split.
  - intros i t [-> ->]%test_sync_chain_Some. vm_compute. split; reflexivity.
  - intros i t [-> ->]%test_sync_chain_Some. vm_compute. split; reflexivity.
  - intros i t [-> ->]%test_sync_chain_Some Hi. lia.
  - intros i t [-> ->]%test_sync_chain_Some. apply NoDup_singleton.
  - intros i j t u r [-> ->]%test_sync_chain_Some [-> ->]%test_sync_chain_Some _ _. reflexivity.
Qed.

Lemma test_sync_dag_ok : dag_ok test_sync_dag ∧ ds_context test_sync_dag = test_context 60.
Proof.
  destruct (test_state_facts test_sync_blocks) as (Hok & Hctx & Hlast & _).
  assert (next_commit (test_state test_sync_blocks) test_synced) as Hnc.
  { split; unfold last_commit_index, last_commit_timestamp_ms, last_commit_round; rewrite ?Hlast; [reflexivity| |exact I|..].
    - split; vm_compute; discriminate.
    - vm_compute. discriminate.
    - vm_compute. discriminate.
    - vm_compute. discriminate.
    - intros r ->%list_elem_of_singleton. rewrite test_state_lookup. split; [|vm_compute; split; [reflexivity|discriminate]].
      assert (match (if ref_round (reference (test_vote 1 [])) =? 0 then ds_genesis test_fresh !! reference (test_vote 1 [])
        else bi_block <$> ds_recent_blocks (test_state test_sync_blocks) !! reference (test_vote 1 [])) with Some _ => true | None => false end = true) as Hs by (vm_compute; reflexivity).
      destruct (if _ =? 0 then _ else _); [by eexists|discriminate]. }
  destruct (add_commit_spec _ Hok 0 test_synced Hnc) as (d1 & Hd1 & Hok1 & _ & _ & _ & _ & Hc1).
  destruct (flush_spec d1 Hok1) as (d2 & Hd2 & Hok2 & _ & _ & _ & Hc2 & _). unfold test_sync_dag. rewrite Hd1. cbn [mbind outcome_bind]. rewrite Hd2. split; [exact Hok2|congruence].
Qed.

Lemma test_sync_store : let view := store_view (ds_store test_sync_dag) in
  sv_blocks view = insert_blocks test_sync_blocks ∅ ∧ sv_commit_votes view = insert_votes test_sync_blocks ∅ ∧
  sv_commits view = {[commit_key test_synced := test_synced]} ∧ NoDup (reference <$> test_sync_blocks).
Proof.
  intros view. split; [|split; [|split]]; match goal with |- ?P => apply (bool_decide_unpack P); vm_compute; exact I end.
Qed.

Lemma test_sync_valid b : b ∈ test_sync_blocks →
  from_bytes (H := test_crypto) (H0 := test_sync_decode) b ∧ valid_block (H := test_crypto) (λ _, Ok tt) test_node_verifier b.
Proof.
  intros Hb. split.
  - repeat (apply elem_of_cons in Hb as [->|Hb]; [vm_compute; split; reflexivity|]). by apply elem_of_nil in Hb.
  - destruct (verify_spec (H := test_crypto) (λ _, Ok tt) test_node_verifier b) as (r & Hr & Hiff); [apply test_committee_ok|]. apply Hiff.
    assert (forallb (λ b : VerifiedBlock, match verify (H := test_crypto) (λ _, Ok tt) test_node_verifier b with Ret (Ok _) => true | _ => false end) test_sync_blocks = true) as Hall
      by (vm_compute; reflexivity).
    rewrite forallb_forall in Hall. apply list_elem_of_In, Hall in Hb. rewrite Hr in Hb. destruct r as [[]|]; [reflexivity|discriminate].
Qed.

Lemma test_serving : serving (H1 := test_crypto) (H2 := test_sync_decode) (λ _, Ok tt) test_node_verifier test_sync_chain test_server test_sync_log 1.
Proof.
  destruct test_sync_dag_ok as [Hok Hctx]. destruct test_sync_store as (Hbs & Hvs & Hcs & Hnd).
  assert (stored test_sync_dag (reference (test_vote 1 [])) = Some (test_vote 1 [])) as Hst.
  { unfold stored. rewrite Hbs. apply insert_blocks_lookup; [exact Hnd|left]. }
  split.
  - exact Hok.
  - exact Hctx.
  - reflexivity.
  - change (sv_dag_state test_server) with test_sync_dag. split.
    + apply Nat.leb_le. reflexivity.
    + vm_compute. reflexivity.
    + intros [|k] sd c [= <- <-]. split; [reflexivity|]. split; try reflexivity. left.
    + intros [|k] sd c b [= <- <-] ->%list_elem_of_singleton. split; [vm_compute; reflexivity|]. split; [|intros _; exact Hst].
      vm_compute. reflexivity.
    + intros key c. rewrite Hcs, lookup_singleton_Some. split.
      * intros [<- <-]. exists 0%nat. eexists. split; [lia|]. split; reflexivity.
      * intros ([|k] & sd & _ & [= _ <-] & ->). split; reflexivity.
    + vm_compute. reflexivity.
  - vm_compute. reflexivity.
  - intros [|k] sd t [= _ <-]. reflexivity.
  - intros r b Hb. apply test_sync_valid. change (sv_dag_state test_server) with test_sync_dag in Hb. unfold stored in Hb. rewrite Hbs in Hb.
    apply insert_blocks_lookup_inv in Hb as [[Hb _]|Hb]; [exact Hb|discriminate Hb].
  - intros i dg r Hr. change (sv_store test_server) with (ds_store test_sync_dag) in *. rewrite Hvs in Hr. rewrite Hbs.
    destruct (proj1 (elem_of_insert_votes _ _ _ _ _) Hr) as [Hr'|(b & Hb & <- & Hv)]; [destruct (not_elem_of_empty _ Hr')|]. exists b. split; [exact (insert_blocks_lookup _ _ _ Hnd Hb)|exact Hv].
Qed.

Lemma test_sync_agree i dg r : (i, dg, r) ∈ sv_commit_votes (store_view (sv_store test_server)) → dg = commit_digest test_synced.
Proof.
  change (sv_store test_server) with (ds_store test_sync_dag). destruct test_sync_store as (_ & -> & _ & _).
  intros [Hr|(b & Hb & _ & Hv)]%elem_of_insert_votes; [destruct (not_elem_of_empty _ Hr)|].
  repeat (apply elem_of_cons in Hb as [->|Hb]; [first [by apply elem_of_nil in Hv|apply list_elem_of_singleton in Hv; exact (f_equal commit_ref_digest Hv)]|]). by apply elem_of_nil in Hb.
Qed.

Lemma commit_sync_served_witness : ∃ certifiers cc,
  handle_fetch_commits test_server 2 (CommitRange_new 1 5) = Ret (Ok ([test_synced], certifiers)) ∧
  fetch_once (H := test_crypto) (H0 := test_sync_decode) (λ _, Ok tt) test_node_verifier 100 0 (CommitRange_new 1 5)
    (Ok ([commit_serialized test_synced], (λ b : VerifiedBlock, serialized b) <$> certifiers)) (λ _ request, answer_of (handle_fetch_blocks test_server 2 request [])) = Ret (Ok cc) ∧
  certified_commit <$> certified_commits cc = [test_synced].
Proof.
  destruct (commit_sync_served (H1 := test_crypto) (H2 := test_sync_decode) (λ _, Ok tt) test_node_verifier test_sync_chain test_server test_sync_log 1 2 0 (CommitRange_new 1 5))
    as (ts & sk & cs & Hsplit & Hsk & Hret & Hans).
  - apply test_sync_chain_ok.
  - apply test_serving.
  - vm_compute. reflexivity.
  - vm_compute. reflexivity.
  - vm_compute. discriminate.
  - vm_compute. reflexivity.
  - vm_compute. discriminate.
  - vm_compute. discriminate.
  - change (servable test_server test_sync_log 1 (CommitRange_new 1 5)) with [test_synced] in Hsplit.
    assert (certified (committee (sv_context test_server)) (store_view (sv_store test_server)) (commit_index test_synced) = true) as Hcert
      by (change (sv_store test_server) with (ds_store test_sync_dag); vm_compute; reflexivity).
    assert (ts = [test_synced]) as ->.
    { destruct ts as [|u [|u' ts]]; [|injection Hsplit as <- _; reflexivity|discriminate Hsplit].
      change ([] ++ sk) with sk in Hsplit. specialize (Hsk test_synced). rewrite <-Hsplit, Hcert in Hsk. discriminate Hsk. left. }
    destruct Hans as (_ & Hcs & Hag & Hans).
    assert (reached_quorum (committee (sv_context test_server)) (set_stake (committee (sv_context test_server))
      (voters (commit_reference test_synced) ((λ b : VerifiedBlock, signed_block b) <$> cs)))) as Hq.
    { apply Hag. intros dg r Hr. apply test_sync_agree in Hr. exact Hr. }
    rewrite (Is_true_true_1 _ Hq) in Hans. destruct Hans as (cc & Hcc & Heq). exists cs, cc. split; [exact Hret|]. split; [exact Hcc|exact Heq].
Defined.
