(* ===== verification/CommitSchedule.v ===== *)
(** * CommitSyncer: the schedule of fetches

    Models the scheduler of [consensus/core/src/commit_syncer.rs]: [new],
    [try_schedule_once], [handle_fetch_result], [try_start_fetches] and the
    iterations of [schedule_loop] as a step relation.  A running [fetch_loop]
    task is the range it fetches; what it may return is what [CommitSyncer]
    proves of [fetch_once].  Of the Core thread behind the dispatcher the
    scheduler sees the index of its last commit and the replies to
    [add_certified_commits]; both are arbitrary here, and the calls are kept in
    a log. *)
From S2P Require Import Prelude Committee Block Commit Error BlockVerifier CommitSyncer DagState Core.
Local Open Scope N_scope.
Local Open Scope rust_scope.

(** [Ord for CommitRange]: by start, then by end.  The code compares the
    inclusive ends; all ranges made by [CommitRange::new] have [range_hi > 0],
    where the two orders agree. *)
Definition range_le (a b : CommitRange) : Prop :=
  range_lo a < range_lo b ∨ (range_lo a = range_lo b ∧ range_hi a <= range_hi b).

#[export] Instance range_le_dec : RelDecision range_le.
Proof. intros a b. unfold range_le. apply _. Defined.

#[export] Program Instance CommitRange_countable : Countable CommitRange :=
  inj_countable' (λ r, (range_lo r, range_hi r)) (λ '(lo, hi), mk_range lo hi) _.
Next Obligation. by intros []. Qed.

#[export] Program Instance CommitRange_ord_key : OrdKey CommitRange := {| key_le := range_le |}.
Next Obligation. split; [intros a | intros a b d]; unfold range_le; lia. Qed.
Next Obligation. intros [lo hi] [lo' hi']. unfold range_le. simpl. intros. f_equal; lia. Qed.
Next Obligation. intros a b. unfold range_le. lia. Qed.

(** The parameters of the node that the scheduler reads. *)
Record SyncParameters := mk_sync_parameters {
  commit_sync_parallel_fetches : N;
  commit_sync_batch_size : N;
  commit_sync_batches_ahead : N;
}.

Record CommitSyncer := mk_syncer {
  cs_inflight_fetches : list CommitRange;
  cs_pending_fetches : gset CommitRange;
  cs_fetched_ranges : gmap CommitRange CertifiedCommits;
  cs_highest_scheduled_index : option CommitIndex;
  cs_highest_fetched_commit_index : CommitIndex;
  cs_synced_commit_index : CommitIndex;
}.

(** A call of [add_certified_commits] on the dispatcher: the last commit index of
    the DAG state the scheduler had read before, what it sent, and the reply. *)
Record Sent := mk_sent {
  sent_after : CommitIndex;
  sent_commits : CertifiedCommits;
  sent_reply : ConsensusResult (gset BlockRef);
}.

Section schedule.
Context (c : Committee) (p : SyncParameters).

Definition CommitSyncer_new (last_commit_index : CommitIndex) : CommitSyncer :=
  mk_syncer [] ∅ ∅ None 0 last_commit_index.

Definition unhandled_commits_threshold : CommitIndex :=
  commit_sync_batch_size p *32 wrap32 (commit_sync_batches_ahead p).

(** The loop of [try_schedule_once] from [prev_end]; [steps] is the number of
    elements left of the stepped range. *)
Fixpoint schedule_batches (steps : nat) (quorum_commit_index highest_handled_index prev_end : CommitIndex)
    (σ : CommitSyncer) : CommitSyncer :=
  match steps with
  | O => σ
  | S steps =>
    let batch_range_start := prev_end +32 1 in
    let batch_range_end := prev_end +32 commit_sync_batch_size p in
    if quorum_commit_index <? batch_range_end then σ
    else if highest_handled_index +32 unhandled_commits_threshold <? batch_range_end then σ
    else schedule_batches steps quorum_commit_index highest_handled_index (prev_end + commit_sync_batch_size p)
           (mk_syncer (cs_inflight_fetches σ)
              ({[CommitRange_new batch_range_start batch_range_end]} ∪ cs_pending_fetches σ)
              (cs_fetched_ranges σ) (Some batch_range_end)
              (cs_highest_fetched_commit_index σ) (cs_synced_commit_index σ))
  end.

Definition set_synced (σ : CommitSyncer) (i : CommitIndex) : CommitSyncer :=
  mk_syncer (cs_inflight_fetches σ) (cs_pending_fetches σ) (cs_fetched_ranges σ)
    (cs_highest_scheduled_index σ) (cs_highest_fetched_commit_index σ) (N.max (cs_synced_commit_index σ) i).

(** [(a..=b).step_by(n)] has [(b - a) / n + 1] elements, none if [b < a]. *)
Definition step_count (a b n : N) : nat :=
  if b <? a then 0%nat else N.to_nat ((b - a) / n + 1).

Definition try_schedule_once (quorum_commit_index local_commit_index highest_handled_index : CommitIndex)
    (σ : CommitSyncer) : outcome CommitSyncer :=
  let σ := set_synced σ local_commit_index in
  let fetch_after_index := N.max (cs_synced_commit_index σ) (default 0 (cs_highest_scheduled_index σ)) in
  _ ← assert (negb (commit_sync_batch_size p =? 0)) "assertion failed: step != 0";
  Ret (schedule_batches (step_count fetch_after_index quorum_commit_index (commit_sync_batch_size p))
         quorum_commit_index highest_handled_index fetch_after_index σ).

Definition target_parallel_fetches (σ : CommitSyncer) : N :=
  N.max (N.min (N.min (commit_sync_parallel_fetches p) (committee_size c * 2 / 3))
           (commit_sync_batches_ahead p - N.of_nat (size (cs_fetched_ranges σ)))) 1.

(** [fuel] is the number of pending ranges. *)
Fixpoint start_fetches (fuel : nat) (target : N) (inflight : list CommitRange) (pending : gset CommitRange)
    : list CommitRange * gset CommitRange :=
  match fuel with
  | O => (inflight, pending)
  | S fuel =>
    if target <=? N.of_nat (length inflight) then (inflight, pending)
    else match btree_first pending with
         | None => (inflight, pending)
         | Some commit_range => start_fetches fuel target (inflight ++ [commit_range]) (pending ∖ {[commit_range]})
         end
  end.

Definition try_start_fetches (σ : CommitSyncer) : CommitSyncer :=
  let '(inflight, pending) := start_fetches (size (cs_pending_fetches σ)) (target_parallel_fetches σ)
                                (cs_inflight_fetches σ) (cs_pending_fetches σ) in
  mk_syncer inflight pending (cs_fetched_ranges σ) (cs_highest_scheduled_index σ)
    (cs_highest_fetched_commit_index σ) (cs_synced_commit_index σ).

Definition set_fetched (σ : CommitSyncer) (fetched : gmap CommitRange CertifiedCommits) : CommitSyncer :=
  mk_syncer (cs_inflight_fetches σ) (cs_pending_fetches σ) fetched
    (cs_highest_scheduled_index σ) (cs_highest_fetched_commit_index σ) (cs_synced_commit_index σ).

(** Core's replies: any function of the calls before and of the commits sent. *)
Context (reply : list Sent → CertifiedCommits → ConsensusResult (gset BlockRef)).

(** The [while let] loop of [handle_fetch_result]; [fuel] is the number of
    fetched ranges, each iteration that goes on takes one out. *)
Fixpoint process_fetched (fuel : nat) (local_commit_index : CommitIndex) (σ : CommitSyncer) (log : list Sent)
    : outcome (CommitSyncer * list Sent) :=
  match fuel, head (btree_entries (cs_fetched_ranges σ)) with
  | S fuel, Some (r, commits) =>
    if range_start r <=? cs_synced_commit_index σ +32 1 then
      let σ := set_fetched σ (delete r (cs_fetched_ranges σ)) in
      if range_end r <=? cs_synced_commit_index σ then process_fetched fuel local_commit_index σ log
      else
        let res := reply log commits in
        let log := log ++ [mk_sent local_commit_index commits res] in
        match res with
        | Err _ => Ret (σ, log)
        | Ok missing =>
          _ ← mapM (λ block_ref, authority c (ref_author block_ref)) (btree_iter missing);
          process_fetched fuel local_commit_index (set_synced σ (range_end r)) log
        end
    else Ret (σ, log)
  | _, _ => Ret (σ, log)
  end.

Definition handle_fetch_result (σ : CommitSyncer) (log : list Sent) (local_commit_index : CommitIndex)
    (authority_index : AuthorityIndex) (target_end : CommitIndex) (commits : CertifiedCommits) : outcome (CommitSyncer * list Sent) :=
  _ ← assert (negb (bool_decide (certified_commits commits = []))) "assertion failed: !certified_commits.commits().is_empty()";
  _ ← authority c authority_index;
  first ← expect (head (certified_commits commits)) "called `Option::unwrap()` on a `None` value";
  final ← expect (last (certified_commits commits)) "called `Option::unwrap()` on a `None` value";
  let commit_start := commit_index (first : CertifiedCommit) in
  let commit_end := commit_index (final : CertifiedCommit) in
  let pending := if commit_end <? target_end
                 then {[CommitRange_new (commit_end +32 1) target_end]} ∪ cs_pending_fetches σ
                 else cs_pending_fetches σ in
  let synced := N.max (cs_synced_commit_index σ) local_commit_index in
  let fetched := if synced <? commit_end
                 then <[CommitRange_new commit_start commit_end := commits]> (cs_fetched_ranges σ)
                 else cs_fetched_ranges σ in
  process_fetched (size fetched) local_commit_index
    (mk_syncer (cs_inflight_fetches σ) pending fetched (cs_highest_scheduled_index σ)
       (N.max (cs_highest_fetched_commit_index σ) commit_end) synced) log.
End schedule.

(** ** The ranges under way *)

(** The indices of a range, one by one. *)
Definition indices (r : CommitRange) : list CommitIndex :=
  (λ k, range_lo r + N.of_nat k) <$> seq 0 (N.to_nat (range_hi r - range_lo r)).

Lemma elem_of_indices r i : i ∈ indices r ↔ range_lo r <= i < range_hi r.
Proof.
  unfold indices. rewrite list_elem_of_fmap. setoid_rewrite elem_of_seq. split.
  - intros (k & -> & ?). lia.
  - intros ?. exists (N.to_nat (i - range_lo r)). lia.
Qed.

Lemma indices_NoDup r : NoDup (indices r).
Proof. unfold indices. apply NoDup_fmap_2; [intros ???; lia|apply NoDup_seq]. Qed.

Lemma indices_split lo m hi : lo <= m <= hi →
  indices (mk_range lo hi) = indices (mk_range lo m) ++ indices (mk_range m hi).
Proof.
  intros Hm. unfold indices. simpl.
  replace (N.to_nat (hi - lo)) with (N.to_nat (m - lo) + N.to_nat (hi - m))%nat by lia.
  rewrite seq_app, fmap_app. f_equal. simpl. rewrite <-(Nat.add_0_r (N.to_nat (m - lo))) at 1. rewrite <-fmap_add_seq.
  rewrite <-list_fmap_compose. apply list_fmap_ext. intros ? k _. simpl. lia.
Qed.

(** Ranges [rs] that share no index, lie between one and [sched], and, unless
    [closed], hold every index above [synced] up to [sched]. *)
Record good (closed : bool) (synced sched : CommitIndex) (rs : list CommitRange) : Prop := {
  gd_nodup : NoDup (rs ≫= indices);
  gd_bounds r : r ∈ rs → 0 < range_lo r < range_hi r ∧ range_hi r <= sched + 1;
  gd_cover i : closed = false → synced < i <= sched → i ∈ rs ≫= indices;
}.

#[export] Instance good_proper closed synced sched : Proper ((≡ₚ) ==> iff) (good closed synced sched).
Proof.
  assert (∀ rs rs', rs ≡ₚ rs' → good closed synced sched rs → good closed synced sched rs') as Hp.
  { intros rs rs' Heq [Hnd Hb Hc]. split.
    - by rewrite <-Heq.
    - intros r Hr. apply Hb. by rewrite Heq.
    - intros i Hcl Hi. rewrite <-Heq. by apply Hc. }
  intros rs rs' Heq. split; by apply Hp.
Qed.

Section good.
Context (closed : bool) (sched : CommitIndex).

Lemma good_nil : ∀ synced, sched <= synced → good closed synced sched [].
Proof. intros synced Hle. split; [constructor|by intros r ?%elem_of_nil|lia]. Qed.

Lemma good_synced synced synced' rs : good closed synced sched rs → synced <= synced' → good closed synced' sched rs.
Proof. intros [Hnd Hb Hc] Hle. split; [done..|]. intros i Hcl Hi. apply Hc; [done|lia]. Qed.

(** A range whose indices are synced is no longer needed. *)
Lemma good_drop synced synced' r rs :
  good closed synced sched (r :: rs) → synced <= synced' → range_end r <= synced' → good closed synced' sched rs.
Proof.
  intros [Hnd Hb Hc] Hle Hr. csimpl in *. apply NoDup_app in Hnd as (_ & _ & Hnd). split; [done| |].
  - intros r' Hr'. apply Hb. by right.
  - intros i Hcl Hi. destruct (proj1 (elem_of_app _ _ _) (Hc i Hcl ltac:(lia))) as [Hin|]; [|done].
    apply elem_of_indices in Hin. unfold range_end in Hr. lia.
Qed.

Lemma good_weaken closed' synced rs : (closed = true → closed' = true) →
  good closed synced sched rs → good closed' synced sched rs.
Proof.
  intros Hcl [Hnd Hb Hc]. split; [done..|]. intros i Hc'. apply Hc.
  destruct closed; [by rewrite Hcl in Hc'|done].
Qed.

(** A range may be given up once the consumer is gone. *)
Lemma good_closed synced r rs : good closed synced sched (r :: rs) → good true synced sched rs.
Proof.
  intros [Hnd Hb _]. csimpl in *. apply NoDup_app in Hnd as (_ & _ & Hnd). split; [done| |done].
  intros r' Hr'. apply Hb. by right.
Qed.

Lemma good_split synced lo m hi rs : lo < m < hi →
  good closed synced sched (mk_range lo hi :: rs) → good closed synced sched (mk_range lo m :: mk_range m hi :: rs).
Proof.
  intros Hm [Hnd Hb Hc]. csimpl in *. rewrite (indices_split lo m hi), <-app_assoc in * by lia.
  destruct (Hb (mk_range lo hi) ltac:(left)) as [? ?]. simpl in *. split; [done| |].
  - intros r [->|[->|Hr]%elem_of_cons]%elem_of_cons; simpl; [lia..|]. apply Hb. by right.
  - intros i Hcl Hi. csimpl. by apply Hc.
Qed.

(** A new range after everything scheduled so far. *)
Lemma good_extend synced b rs : let a := N.max synced sched in a < b →
  good closed synced sched rs → good closed synced b (mk_range (a + 1) (b + 1) :: rs).
Proof.
  intros a Hab [Hnd Hb Hc]. split; csimpl.
  - apply NoDup_app. split_and!; [apply indices_NoDup| |done]. intros i Hi%elem_of_indices.
    rewrite list_elem_of_bind. intros (r & Hr%elem_of_indices & Hin). apply Hb in Hin. simpl in Hi. lia.
  - intros r [->|Hr]%elem_of_cons; simpl; [lia|]. apply Hb in Hr. lia.
  - intros i Hcl Hi. rewrite elem_of_app, elem_of_indices. simpl.
    destruct (decide (i <= a)); [right; apply Hc; [done|lia]|left; lia].
Qed.

(** A range that is there is not there a second time. *)
Lemma good_fresh synced r rs : good closed synced sched (r :: rs) → (r ∉ rs).
Proof.
  intros [Hnd Hb _] Hr. csimpl in *. apply NoDup_app in Hnd as (_ & Hnd & _).
  destruct (Hb r ltac:(left)) as [? _]. apply (Hnd (range_lo r)); [apply elem_of_indices; lia|].
  apply list_elem_of_bind. exists r. split; [apply elem_of_indices; lia|done].
Qed.
End good.

(** ** The invariant *)

(** Commits with consecutive indices from [start] on. *)
Definition consecutive (start : CommitIndex) (cs : list CertifiedCommit) : Prop :=
  ∀ k (x : CertifiedCommit), cs !! k = Some x → commit_index x = start + N.of_nat k.

(** What is kept for a fetched range: its commits, all of them. *)
Definition batch_ok (r : CommitRange) (commits : CertifiedCommits) : Prop :=
  consecutive (range_lo r) (certified_commits commits) ∧
  range_lo r + N.of_nat (length (certified_commits commits)) = range_hi r.

(** Of a log: whether Core ever replied with an error (it has shut down), and the
    last index of what it took. *)
Definition core_left (log : list Sent) : bool :=
  existsb (λ s, match sent_reply s with Err _ => true | Ok _ => false end) log.

Definition batch_end (commits : CertifiedCommits) : CommitIndex :=
  from_option (λ x : CertifiedCommit, commit_index x) 0 (last (certified_commits commits)).

Definition taken (log : list Sent) : CommitIndex :=
  foldr (λ s m, match sent_reply s with Ok _ => N.max (batch_end (sent_commits s)) m | Err _ => m end) 0 log.

(** Every call sends consecutive commits that leave no gap to the commits Core
    had reported or taken before, and go beyond them. *)
Definition log_ok (log : list Sent) : Prop := ∀ pre s post, log = pre ++ s :: post →
  let before := N.max (sent_after s) (taken pre) in
  ∃ start, consecutive start (certified_commits (sent_commits s)) ∧ certified_commits (sent_commits s) ≠ [] ∧
    0 < start <= before + 1 ∧ before < batch_end (sent_commits s).

(** The missing ancestors Core reports are of members of the committee. *)
Definition reply_ok (c : Committee) (reply : list Sent → CertifiedCommits → ConsensusResult (gset BlockRef)) : Prop :=
  ∀ log commits missing b, reply log commits = Ok missing → b ∈ missing → is_valid_index c (ref_author b).

Lemma core_left_snoc log s : core_left (log ++ [s]) = core_left log || match sent_reply s with Err _ => true | Ok _ => false end.
Proof. unfold core_left. rewrite existsb_app. simpl. by rewrite orb_false_r. Qed.

Lemma taken_snoc log s : taken (log ++ [s]) =
  match sent_reply s with Ok _ => N.max (taken log) (batch_end (sent_commits s)) | Err _ => taken log end.
Proof.
  induction log as [|s' log IH]; simpl.
  - destruct (sent_reply s); lia.
  - rewrite IH. destruct (sent_reply s'), (sent_reply s); lia.
Qed.

Lemma log_ok_snoc log s : log_ok log →
  (∃ start, consecutive start (certified_commits (sent_commits s)) ∧ certified_commits (sent_commits s) ≠ [] ∧
    0 < start <= N.max (sent_after s) (taken log) + 1 ∧ N.max (sent_after s) (taken log) < batch_end (sent_commits s)) →
  log_ok (log ++ [s]).
Proof.
  intros Hlog Hs pre s' post Heq. destruct post as [|x post _] using rev_ind.
  - apply app_inj_tail in Heq as [<- <-]. exact Hs.
  - rewrite app_comm_cons, app_assoc in Heq. apply app_inj_tail in Heq as [Heq _]. by apply (Hlog _ _ post).
Qed.

(** Core, when it is not behind what it reported and took, finds no gap. *)
Lemma validate_consecutive {St} (k : Core St) start commits :
  consecutive start commits → start <= last_commit_index (co_dag_state k) + 1 → last_commit_index (co_dag_state k) < U32_MAX →
  validate_certified_commits k commits =
    Ok (filter (λ x : CertifiedCommit, last_commit_index (co_dag_state k) < commit_index x) commits).
Proof.
  intros Hcons Hstart Hmax. unfold validate_certified_commits. set (i := last_commit_index (co_dag_state k)) in *.
  rewrite wrap32_small by (unfold U32_MOD, U32_MAX in *; lia).
  revert start Hcons Hstart. induction commits as [|x commits IH]; intros start Hcons Hstart; [done|].
  pose proof (Hcons 0%nat x eq_refl) as Hx. rewrite !filter_cons. destruct (decide (i < commit_index x)) as [Hlt|Hge].
  - rewrite (proj2 (N.eqb_eq _ _)) by lia. done.
  - apply (IH (start + 1)); [|lia]. intros j y Hy. rewrite (Hcons (S j) y Hy). lia.
Qed.

Definition ranges (σ : CommitSyncer) : list CommitRange :=
  cs_inflight_fetches σ ++ elements (cs_pending_fetches σ) ++ (map_to_list (cs_fetched_ranges σ)).*1.

Definition scheduled (σ : CommitSyncer) : CommitIndex := default 0 (cs_highest_scheduled_index σ).

Section invariant.
Context (c : Committee) (p : SyncParameters).

(** [index] is the last commit index of Core's DAG state. *)
Record syncer_inv (σ : CommitSyncer) (index : CommitIndex) (log : list Sent) : Prop := {
  si_good : good (core_left log) (cs_synced_commit_index σ) (scheduled σ) (ranges σ);
  si_synced : cs_synced_commit_index σ <= N.max index (taken log) < U32_MAX;
  si_taken : taken log <= cs_synced_commit_index σ;
  si_log : log_ok log;
  si_scheduled : scheduled σ < U32_MAX;
  si_batch r commits : cs_fetched_ranges σ !! r = Some commits → batch_ok r commits;
}.

(** Between two iterations of the loop, moreover, nothing waits when nothing is
    in flight. *)
Definition no_stall (σ : CommitSyncer) (log : list Sent) : Prop :=
  core_left log = false → cs_inflight_fetches σ = [] → cs_pending_fetches σ = ∅ ∧ cs_fetched_ranges σ = ∅.

Lemma ranges_fetched σ r commits : cs_fetched_ranges σ !! r = Some commits →
  ranges σ ≡ₚ r :: ranges (set_fetched σ (delete r (cs_fetched_ranges σ))).
Proof.
  intros Hr. unfold ranges, set_fetched. simpl. rewrite <-(map_to_list_delete _ _ _ Hr). csimpl.
  by rewrite <-!Permutation_middle.
Qed.

Lemma ranges_insert inflight pending fetched r commits sched high synced :
  fetched !! r = None →
  ranges (mk_syncer inflight pending (<[r := commits]> fetched) sched high synced) ≡ₚ
  r :: ranges (mk_syncer inflight pending fetched sched high synced).
Proof.
  intros Hr. unfold ranges. simpl. rewrite map_to_list_insert by done. csimpl. by rewrite <-!Permutation_middle.
Qed.

Lemma ranges_pending inflight pending fetched r sched high synced : r ∉ pending →
  ranges (mk_syncer inflight ({[r]} ∪ pending) fetched sched high synced) ≡ₚ
  r :: ranges (mk_syncer inflight pending fetched sched high synced).
Proof.
  intros Hr. unfold ranges. simpl. rewrite elements_union_singleton by done. csimpl. by rewrite <-!Permutation_middle.
Qed.

Lemma ranges_not_pending r σ : (r ∉ ranges σ) → (r ∉ cs_pending_fetches σ).
Proof. unfold ranges. rewrite !elem_of_app, elem_of_elements. tauto. Qed.

Lemma ranges_not_fetched r σ : (r ∉ ranges σ) → cs_fetched_ranges σ !! r = None.
Proof.
  unfold ranges. rewrite !elem_of_app. intros Hr. apply eq_None_not_Some. intros [commits Hc]. apply Hr.
  right; right. apply list_elem_of_fmap. exists (r, commits). split; [done|]. by apply elem_of_map_to_list.
Qed.

(** ** Scheduling *)

Lemma schedule_batches_inv quorum handled index log steps : ∀ prev_end σ,
  0 < commit_sync_batch_size p → quorum + commit_sync_batch_size p < U32_MAX →
  prev_end = N.max (cs_synced_commit_index σ) (scheduled σ) → (steps ≠ 0%nat → prev_end <= quorum) →
  syncer_inv σ index log → syncer_inv (schedule_batches p steps quorum handled prev_end σ) index log.
Proof.
  induction steps as [|steps IH]; intros prev_end σ Hsize Hq Hprev Hle Hinv; [done|]. cbn [schedule_batches].
  specialize (Hle ltac:(done)). rewrite !(wrap32_small (prev_end + _)) by (unfold U32_MOD, U32_MAX in *; lia).
  destruct (N.ltb_spec quorum (prev_end + commit_sync_batch_size p)) as [|Hend]; [done|].
  destruct (_ <? _); [done|]. destruct Hinv as [Hgood Hsync Htaken Hlog Hsched Hbatch].
  assert (CommitRange_new (prev_end + 1) (prev_end + commit_sync_batch_size p) =
    mk_range (prev_end + 1) (prev_end + commit_sync_batch_size p + 1)) as ->.
  { unfold CommitRange_new, sat_add32. f_equal. lia. }
  pose proof (good_extend (core_left log) (scheduled σ) (cs_synced_commit_index σ)
    (prev_end + commit_sync_batch_size p) (ranges σ)) as Hgood'.
  cbv zeta in Hgood'. rewrite <-Hprev in Hgood'. specialize (Hgood' ltac:(lia) Hgood). pose proof (good_fresh _ _ _ _ _ Hgood') as Hfresh.
  apply IH; [done|done|unfold scheduled in *; simpl; lia|done|].
  split; simpl; [|done|done|done|unfold scheduled; simpl; lia|done].
  rewrite ranges_pending by (by apply ranges_not_pending). by destruct σ.
Qed.

Lemma schedule_batches_frame quorum handled steps : ∀ prev_end σ,
  cs_inflight_fetches (schedule_batches p steps quorum handled prev_end σ) = cs_inflight_fetches σ ∧
  cs_fetched_ranges (schedule_batches p steps quorum handled prev_end σ) = cs_fetched_ranges σ.
Proof.
  induction steps as [|steps IH]; intros prev_end σ; [done|]. cbn [schedule_batches].
  destruct (_ <? _); [done|]. destruct (_ <? _); [done|]. by edestruct IH as [-> ->].
Qed.

Lemma set_synced_inv σ index log i : syncer_inv σ index log → i <= index → syncer_inv (set_synced σ i) index log.
Proof.
  intros [Hgood Hsync Htaken Hlog Hsched Hbatch] Hi. split; simpl; [|lia|lia|done|done|done]. eapply good_synced; [done|lia].
Qed.

Lemma try_schedule_once_inv quorum handled index log σ :
  0 < commit_sync_batch_size p → quorum + commit_sync_batch_size p < U32_MAX → syncer_inv σ index log →
  ∃ σ', try_schedule_once p quorum index handled σ = Ret σ' ∧ syncer_inv σ' index log ∧
    cs_inflight_fetches σ' = cs_inflight_fetches σ ∧ cs_fetched_ranges σ' = cs_fetched_ranges σ.
Proof.
  intros Hsize Hq Hinv. unfold try_schedule_once. destruct (N.eqb_spec (commit_sync_batch_size p) 0); [lia|]. simpl.
  eexists. split; [done|]. split.
  - apply schedule_batches_inv; [done|done|done| |by apply set_synced_inv].
    unfold step_count. intros Hn. destruct (N.ltb_spec quorum (N.max (N.max (cs_synced_commit_index σ) index)
      (default 0 (cs_highest_scheduled_index σ)))); done.
  - by edestruct schedule_batches_frame as [-> ->].
Qed.

(** ** Starting fetches *)

Lemma start_fetches_spec fuel target : ∀ inflight pending, (size pending <= fuel)%nat →
  let '(inflight', pending') := start_fetches fuel target inflight pending in
  inflight' ++ elements pending' ≡ₚ inflight ++ elements pending ∧
  (0 < target → inflight' = [] → pending' = ∅).
Proof.
  induction fuel as [|fuel IH]; intros inflight pending Hsize; simpl.
  { split; [done|]. intros _ _. apply leibniz_equiv, size_empty_iff. lia. }
  destruct (N.leb_spec target (N.of_nat (length inflight))) as [Hle|_].
  { split; [done|]. intros Ht ->. simpl in Hle. lia. }
  destruct (btree_first pending) as [r|] eqn:Hr.
  - apply btree_first_Some in Hr as [Hr _].
    specialize (IH (inflight ++ [r]) (pending ∖ {[r]})). destruct (start_fetches _ _ _ _) as [inflight' pending'].
    destruct IH as [Hperm Hemp].
    { rewrite size_difference by set_solver. rewrite size_singleton. lia. }
    split; [|done]. rewrite Hperm, <-app_assoc. apply Permutation_app_head.
    rewrite (union_difference_L {[r]} pending) at 2 by set_solver.
    rewrite elements_union_singleton by set_solver. done.
  - apply btree_first_None in Hr. done.
Qed.

Lemma try_start_fetches_inv σ index log : syncer_inv σ index log →
  syncer_inv (try_start_fetches c p σ) index log ∧
  (cs_inflight_fetches (try_start_fetches c p σ) = [] → cs_pending_fetches (try_start_fetches c p σ) = ∅) ∧
  cs_fetched_ranges (try_start_fetches c p σ) = cs_fetched_ranges σ ∧
  cs_synced_commit_index (try_start_fetches c p σ) = cs_synced_commit_index σ.
Proof.
  intros [Hgood Hsync Htaken Hlog Hsched Hbatch]. unfold try_start_fetches.
  pose proof (start_fetches_spec (size (cs_pending_fetches σ)) (target_parallel_fetches c p σ)
    (cs_inflight_fetches σ) (cs_pending_fetches σ) ltac:(done)) as Hs.
  destruct (start_fetches _ _ _ _) as [inflight pending]. destruct Hs as [Hperm Hemp].
  split_and!; [|simpl; apply Hemp; unfold target_parallel_fetches; lia|done|done].
  split; simpl; try done. unfold ranges in *. simpl. by rewrite app_assoc, Hperm, <-app_assoc.
Qed.

(** Something pending is started. *)
Lemma try_start_fetches_idle σ : cs_inflight_fetches (try_start_fetches c p σ) = [] →
  cs_inflight_fetches σ = [] ∧ cs_pending_fetches σ = ∅.
Proof.
  unfold try_start_fetches.
  pose proof (start_fetches_spec (size (cs_pending_fetches σ)) (target_parallel_fetches c p σ)
    (cs_inflight_fetches σ) (cs_pending_fetches σ) ltac:(done)) as Hs.
  destruct (start_fetches _ _ _ _) as [inflight pending]. simpl. intros ->. destruct Hs as [Hperm Hemp].
  rewrite Hemp, elements_empty in Hperm by (done || unfold target_parallel_fetches; lia).
  simpl in Hperm. apply Permutation_nil, app_eq_nil in Hperm as [? Hp]. split; [done|].
  by apply leibniz_equiv, elements_empty_iff.
Qed.

(** ** Handing fetched commits to Core *)

Lemma head_btree_entries {V} (m : gmap CommitRange V) :
  match head (btree_entries m) with
  | None => m = ∅
  | Some (r, x) => m !! r = Some x ∧ ∀ r', r' ∈ dom m → range_lo r <= range_lo r'
  end.
Proof.
  pose proof (btree_entries_fst m) as Hfst. pose proof (btree_iter_sorted (dom m)) as Hsort.
  unfold btree_keys in Hfst. destruct (btree_entries m) as [|[r x] l] eqn:Hm; simpl in *.
  - apply map_eq. intros k. rewrite lookup_empty. apply eq_None_not_Some. intros [x Hx].
    apply elem_of_btree_entries in Hx. rewrite Hm in Hx. by apply elem_of_nil in Hx.
  - split; [apply elem_of_btree_entries; rewrite Hm; left|]. intros r' Hr'%elem_of_btree_iter.
    rewrite <-Hfst in Hsort, Hr'. apply elem_of_cons in Hr' as [->|Hr']; [done|].
    apply StronglySorted_inv in Hsort as [_ Hall]. rewrite Forall_forall in Hall. specialize (Hall r' Hr').
    change (range_le r r') in Hall. unfold range_le in Hall. lia.
Qed.

Lemma batch_ok_end r commits : 0 < range_lo r < range_hi r → batch_ok r commits →
  certified_commits commits ≠ [] ∧ batch_end commits = range_end r.
Proof.
  intros Hr [Hcons Hlen]. unfold batch_end, range_end.
  destruct (last (certified_commits commits)) as [x|] eqn:Hlast; simpl.
  - split; [by intros Heq; rewrite Heq in Hlast|]. rewrite last_lookup in Hlast. rewrite (Hcons _ _ Hlast).
    apply lookup_lt_Some in Hlast. lia.
  - apply last_None in Hlast. rewrite Hlast in Hlen. simpl in Hlen. lia.
Qed.

Section replies.
Context (reply : list Sent → CertifiedCommits → ConsensusResult (gset BlockRef)) (Hreply : reply_ok c reply).

Lemma missing_authors_ret log commits missing : reply log commits = Ok missing →
  ∃ xs, mapM (λ block_ref, authority c (ref_author block_ref)) (btree_iter missing) = Ret xs.
Proof.
  intros Hr. apply mapM_total. intros b Hb%elem_of_btree_iter. apply authority_ret. by eapply Hreply.
Qed.

(** A fetched range that reaches beyond the synced index, sent to Core. *)
Lemma sent_inv σ index log r commits : syncer_inv σ index log → index <= cs_synced_commit_index σ →
  cs_fetched_ranges σ !! r = Some commits → range_start r <= cs_synced_commit_index σ + 1 → cs_synced_commit_index σ < range_end r →
  let σ1 := set_fetched σ (delete r (cs_fetched_ranges σ)) in
  let log' := log ++ [mk_sent index commits (reply log commits)] in
  match reply log commits with
  | Ok _ => syncer_inv (set_synced σ1 (range_end r)) index log'
  | Err _ => syncer_inv σ1 index log' ∧ core_left log' = true
  end.
Proof.
  intros [Hgood Hsync Htaken Hlog Hsched Hbatch] Hidx Hr Hstart Hnew σ1 log'.
  rewrite (ranges_fetched σ r commits Hr) in Hgood. fold σ1 in Hgood.
  destruct (gd_bounds _ _ _ _ Hgood r ltac:(left)) as [Hb1 Hb2]. destruct (Hbatch r commits Hr) as [Hcons Hlen].
  destruct (batch_ok_end r commits Hb1 (Hbatch r commits Hr)) as [Hne Hend].
  assert (∀ r commits, cs_fetched_ranges σ1 !! r = Some commits → batch_ok r commits) as Hbatch1.
  { intros r' commits' Hr'. simpl in Hr'. apply lookup_delete_Some in Hr' as [_ Hr']. by apply Hbatch. }
  assert (log_ok log') as Hlog'.
  { apply log_ok_snoc; [done|]. exists (range_lo r). simpl. rewrite Hend. unfold range_start in *. split_and!; [done|done|lia..]. }
  pose proof (taken_snoc log (mk_sent index commits (reply log commits))) as Htk. fold log' in Htk. simpl in Htk. rewrite Hend in Htk.
  pose proof (core_left_snoc log (mk_sent index commits (reply log commits))) as Hcl. fold log' in Hcl. simpl in Hcl.
  destruct (reply log commits) as [missing|e].
  - rewrite orb_false_r in Hcl. split; simpl; rewrite ?Htk, ?Hcl; [|unfold range_end; simpl in *; lia|lia|done..].
    eapply good_drop; [exact Hgood|apply N.le_max_l|apply N.le_max_r].
  - rewrite orb_true_r in Hcl. split; [|done]. split; simpl; rewrite ?Htk, ?Hcl; [by eapply good_closed|lia|lia|done..].
Qed.

(** The loop stops at a gap, or when Core is gone. *)
Lemma process_fetched_inv index fuel : ∀ σ log, (size (cs_fetched_ranges σ) <= fuel)%nat →
  index <= cs_synced_commit_index σ → syncer_inv σ index log →
  ∃ σ' log', process_fetched c reply fuel index σ log = Ret (σ', log') ∧ syncer_inv σ' index log' ∧
    (core_left log' = false → ∀ r, r ∈ dom (cs_fetched_ranges σ') → cs_synced_commit_index σ' + 1 < range_lo r).
Proof.
  induction fuel as [|fuel IH]; intros σ log Hfuel Hidx Hinv.
  { exists σ, log. split_and!; [done|done|]. intros _ r Hr.
    assert (cs_fetched_ranges σ = ∅) as Hemp by (apply map_size_empty_inv; lia). rewrite Hemp in Hr. set_solver. }
  cbn [process_fetched]. pose proof (head_btree_entries (cs_fetched_ranges σ)) as Hhead.
  destruct (head (btree_entries (cs_fetched_ranges σ))) as [[r commits]|].
  2:{ exists σ, log. split_and!; [done|done|]. intros _ r. rewrite Hhead. set_solver. }
  destruct Hhead as [Hr Hmin]. pose proof Hinv as [Hgood Hsync Htaken Hlog Hsched Hbatch].
  rewrite (wrap32_small (cs_synced_commit_index σ + 1)) by (unfold U32_MOD, U32_MAX in *; lia).
  destruct (N.leb_spec (range_start r) (cs_synced_commit_index σ + 1)) as [Hstart|Hgap].
  2:{ exists σ, log. split_and!; [done|done|]. intros _ r' Hr'%Hmin. unfold range_start in Hgap. lia. }
  set (σ1 := set_fetched σ _) in *. assert (size (cs_fetched_ranges σ1) <= fuel)%nat as Hfuel1.
  { simpl. rewrite map_size_delete_Some by eauto. lia. }
  destruct (N.leb_spec (range_end r) (cs_synced_commit_index σ1)) as [Hold|Hnew].
  - apply IH; [done|done|]. rewrite (ranges_fetched σ r commits Hr) in Hgood. fold σ1 in Hgood. split; [|done..|].
    + eapply good_drop; [done|simpl in *; lia|done].
    + intros r' commits' Hr'. simpl in Hr'. apply lookup_delete_Some in Hr' as [_ Hr']. by apply Hbatch.
  - pose proof (sent_inv σ index log r commits Hinv Hidx Hr Hstart Hnew) as Hsent. cbv zeta in Hsent. fold σ1 in Hsent.
    destruct (reply log commits) as [missing|e] eqn:Hres.
    + destruct (missing_authors_ret log commits missing Hres) as [xs ->]. simpl. apply IH; [done|simpl in *; lia|done].
    + destruct Hsent as [Hsent Hcl]. eexists _, _. split_and!; [done|done|congruence].
Qed.

Definition set_inflight (σ : CommitSyncer) (inflight : list CommitRange) : CommitSyncer :=
  mk_syncer inflight (cs_pending_fetches σ) (cs_fetched_ranges σ)
    (cs_highest_scheduled_index σ) (cs_highest_fetched_commit_index σ) (cs_synced_commit_index σ).

(** What a fetch of the range [r] may return: its first commits. *)
Definition fetch_of (r : CommitRange) (commits : CertifiedCommits) : Prop :=
  certified_commits commits ≠ [] ∧ consecutive (range_lo r) (certified_commits commits) ∧
  range_lo r + N.of_nat (length (certified_commits commits)) <= range_hi r.

(** This is what a [fetch_loop] task for the range returns (by [fetch_loop_spec]). *)
Lemma fetched_fetch_of `{Crypto} `{BcsDecode} verify_batch v chain r commits :
  commit_chain chain → range_lo r < range_hi r → fetched verify_batch v chain r commits → fetch_of r commits.
Proof.
  intros Hchain Hr [Hne Hts Hcs _].
  assert (consecutive (range_lo r) (certified_commits commits)) as Hcons.
  { intros k x Hk. destruct (cc_index _ Hchain (range_start r + N.of_nat k) x) as [? _]; [|done].
    apply Hts. by rewrite list_lookup_fmap, Hk. }
  split_and!; [done|done|]. destruct (last (certified_commits commits)) as [x|] eqn:Hlast; [|by apply last_None in Hlast].
  pose proof Hlast as Hx. rewrite last_lookup in Hx. pose proof (Hcons _ _ Hx) as Hi.
  destruct (Hcs x (list_elem_of_lookup_2 _ _ _ Hx)) as [Hle _]. unfold range_end in Hle.
  apply lookup_lt_Some in Hx. lia.
Qed.

Lemma fetch_of_ends r commits : fetch_of r commits → ∃ first final : CertifiedCommit,
  head (certified_commits commits) = Some first ∧ last (certified_commits commits) = Some final ∧
  commit_index first = range_lo r ∧
  commit_index final + 1 = range_lo r + N.of_nat (length (certified_commits commits)).
Proof.
  intros (Hne & Hcons & _). destruct (certified_commits commits) as [|x l] eqn:Hl; [done|].
  destruct (last (x :: l)) as [y|] eqn:Hlast; [|by apply last_None in Hlast].
  exists x, y. split_and!; [done|done| |].
  - rewrite (Hcons 0%nat x eq_refl). lia.
  - rewrite last_lookup in Hlast. rewrite (Hcons _ _ Hlast). simpl. lia.
Qed.

Lemma range_new_ends lo hi : lo < hi <= U32_MAX → CommitRange_new lo (hi - 1) = mk_range lo hi.
Proof. intros ?. unfold CommitRange_new, sat_add32. f_equal. lia. Qed.

(** The part of the range that is still missing is pending again. *)
Lemma pending_rest_inv closed synced σ r m :
  range_lo r < m <= range_hi r → range_hi r <= U32_MAX →
  good closed synced (scheduled σ) (r :: ranges σ) →
  good closed synced (scheduled σ) (mk_range (range_lo r) m ::
    ranges (mk_syncer (cs_inflight_fetches σ)
      (if m - 1 <? range_end r then {[CommitRange_new ((m - 1) +32 1) (range_end r)]} ∪ cs_pending_fetches σ
       else cs_pending_fetches σ)
      (cs_fetched_ranges σ) (cs_highest_scheduled_index σ) (cs_highest_fetched_commit_index σ) (cs_synced_commit_index σ))).
Proof.
  intros Hm Hhi Hgood. destruct r as [lo hi]. unfold range_end. simpl in *.
  destruct (N.ltb_spec (m - 1) (hi - 1)) as [Hlt|Hge].
  - rewrite wrap32_small by (unfold U32_MOD, U32_MAX in *; lia). replace (m - 1 + 1) with m by lia.
    rewrite range_new_ends by lia. pose proof (good_split _ _ _ lo m hi _ ltac:(lia) Hgood) as Hsplit.
    assert (mk_range m hi ∉ ranges σ) as Hfresh.
    { rewrite Permutation_swap in Hsplit. apply good_fresh in Hsplit. set_solver. }
    rewrite ranges_pending by (by apply ranges_not_pending). by destruct σ.
  - replace m with hi by lia. by destruct σ.
Qed.

Lemma handle_fetch_result_inv σ index log l1 r l2 a commits :
  syncer_inv σ index log → cs_inflight_fetches σ = l1 ++ r :: l2 → is_valid_index c a → fetch_of r commits →
  ∃ σ' log', handle_fetch_result c reply (set_inflight σ (l1 ++ l2)) log index a (range_end r) commits = Ret (σ', log') ∧
    syncer_inv σ' index log' ∧
    (core_left log' = false → ∀ r, r ∈ dom (cs_fetched_ranges σ') → cs_synced_commit_index σ' + 1 < range_lo r).
Proof.
  intros [Hgood Hsync Htaken Hlog Hsched Hbatch] Hin Ha Hfetch. set (σ0 := set_inflight σ (l1 ++ l2)).
  assert (ranges σ ≡ₚ r :: ranges σ0) as Hperm.
  { unfold ranges, σ0. simpl. rewrite Hin, <-!app_assoc. simpl. by rewrite <-Permutation_middle. }
  rewrite Hperm in Hgood. destruct (gd_bounds _ _ _ _ Hgood r ltac:(left)) as [Hb1 Hb2].
  destruct (fetch_of_ends r commits Hfetch) as (first & final & Hfirst & Hfinal & Hi1 & Hi2).
  destruct Hfetch as (Hne & Hcons & Hlen). unfold handle_fetch_result.
  rewrite bool_decide_eq_false_2 by done. destruct (authority_ret c a Ha) as [x ->]. simpl. rewrite Hfirst, Hfinal. simpl.
  rewrite Hi1. set (m := range_lo r + N.of_nat (length (certified_commits commits))) in *.
  assert (commit_index final = m - 1) as -> by lia.
  assert (range_lo r < m) as Hlom by (destruct (certified_commits commits); [done|]; simpl in m; lia).
  pose proof (pending_rest_inv _ _ σ0 r m ltac:(lia) ltac:(unfold scheduled in *; simpl in *; lia) Hgood) as Hgood1.
  apply process_fetched_inv; [done|simpl; lia|]. clear Hgood. revert Hgood1. unfold σ0. simpl.
  set (pending := if m - 1 <? range_end r then _ else _). intros Hgood1.
  split; simpl; [|lia|lia|done|done|].
  - destruct (N.ltb_spec (N.max (cs_synced_commit_index σ) index) (m - 1)) as [Hnew|Hold].
    + rewrite range_new_ends by lia. pose proof (good_fresh _ _ _ _ _ Hgood1) as Hfresh.
      rewrite ranges_insert by (by apply ranges_not_fetched in Hfresh). eapply good_synced; [exact Hgood1|lia].
    + eapply good_drop; [exact Hgood1|lia|unfold range_end; simpl; lia].
  - intros r' commits'. destruct (N.max _ _ <? _); [|apply Hbatch]. rewrite range_new_ends by lia.
    intros [[<- <-]|[_ ?]]%lookup_insert_Some; [by split|by apply Hbatch].
Qed.

End replies.

(** ** The loop *)

(** One iteration of [schedule_loop] (a tick of the interval, or the result of a
    fetch in flight), or commits made by Core, whose last commit index never
    decreases.  Core's replies are any. *)
Inductive loop_step : CommitSyncer * CommitIndex * list Sent → CommitSyncer * CommitIndex * list Sent → Prop :=
| step_tick quorum handled σ σ' index log :
    quorum + commit_sync_batch_size p < U32_MAX →
    try_schedule_once p quorum index handled σ = Ret σ' →
    loop_step (σ, index, log) (try_start_fetches c p σ', index, log)
| step_result reply l1 r l2 a commits σ σ' index log log' : reply_ok c reply →
    cs_inflight_fetches σ = l1 ++ r :: l2 → is_valid_index c a → fetch_of r commits →
    handle_fetch_result c reply (set_inflight σ (l1 ++ l2)) log index a (range_end r) commits = Ret (σ', log') →
    loop_step (σ, index, log) (try_start_fetches c p σ', index, log')
| step_core σ index index' log : index <= index' < U32_MAX →
    loop_step (σ, index, log) (σ, index', log).

Context (Hsize : 0 < commit_sync_batch_size p).

Lemma no_stall_idle σ index log : syncer_inv σ index log → no_stall σ log → core_left log = false →
  cs_inflight_fetches σ = [] → scheduled σ <= cs_synced_commit_index σ.
Proof.
  intros [Hgood _ _ _ _ _] Hstall Hcl Hin. destruct (Hstall Hcl Hin) as [Hp Hf].
  destruct (decide (scheduled σ <= cs_synced_commit_index σ)) as [|Hlt]; [done|exfalso].
  pose proof (gd_cover _ _ _ _ Hgood (scheduled σ) Hcl ltac:(lia)) as Hcov.
  unfold ranges in Hcov. rewrite Hin, Hp, Hf, elements_empty, map_to_list_empty in Hcov. by apply elem_of_nil in Hcov.
Qed.

(** When nothing is in flight and nothing pending, a fetched range would need
    the index after the synced one to be covered by a range that starts there. *)
Lemma no_stall_gap σ index log : syncer_inv σ index log →
  (cs_inflight_fetches σ = [] → cs_pending_fetches σ = ∅) →
  (core_left log = false → ∀ r, r ∈ dom (cs_fetched_ranges σ) → cs_synced_commit_index σ + 1 < range_lo r) →
  no_stall σ log.
Proof.
  intros [Hgood _ _ _ _ _] Hp Hgap Hcl Hin. split; [by apply Hp|]. apply map_eq. intros r. rewrite lookup_empty.
  apply eq_None_not_Some. intros Hr%elem_of_dom. pose proof (Hgap Hcl r Hr) as Hlo.
  assert (r ∈ ranges σ) as Hin'.
  { unfold ranges. rewrite !elem_of_app. right; right. apply elem_of_dom in Hr as [commits Hr].
    apply list_elem_of_fmap. exists (r, commits). split; [done|]. by apply elem_of_map_to_list. }
  destruct (gd_bounds _ _ _ _ Hgood r Hin') as [Hb1 Hb2].
  pose proof (gd_cover _ _ _ _ Hgood (cs_synced_commit_index σ + 1) Hcl ltac:(lia)) as Hcov.
  apply list_elem_of_bind in Hcov as (r' & Hi%elem_of_indices & Hr').
  unfold ranges in Hr'. rewrite Hin, (Hp Hin), elements_empty in Hr'. simpl in Hr'.
  apply list_elem_of_fmap in Hr' as ([r2 commits] & -> & Hm%elem_of_map_to_list). simpl in *.
  pose proof (Hgap Hcl r2 ltac:(by apply elem_of_dom_2 in Hm)). lia.
Qed.

Definition loop_inv (s : CommitSyncer * CommitIndex * list Sent) : Prop :=
  let '(σ, index, log) := s in syncer_inv σ index log ∧ no_stall σ log.

Lemma loop_step_inv s s' : loop_step s s' → loop_inv s → loop_inv s'.
Proof.
  intros [quorum handled σ σ' index log Hq Htick|reply' l1 r l2 a commits σ σ' index log log' Hrep Hin Ha Hf Hres|σ index index' log Hi] [Hinv Hstall].
  - destruct (try_schedule_once_inv quorum handled index log σ Hsize Hq Hinv) as (σ1 & Heq & Hinv1 & Hin & Hfe).
    rewrite Htick in Heq. injection Heq as <-. destruct (try_start_fetches_inv σ' index log Hinv1) as (Hinv2 & Hp & Hf & _).
    split; [done|]. intros Hcl Hin2. split; [by apply Hp|]. rewrite Hf, Hfe. apply Hstall; [done|].
    rewrite <-Hin. by apply try_start_fetches_idle in Hin2 as [? _].
  - destruct (handle_fetch_result_inv reply' Hrep σ index log l1 r l2 a commits Hinv Hin Ha Hf) as (σ1 & log1 & Heq & Hinv1 & Hgap).
    rewrite Hres in Heq. injection Heq as <- <-. destruct (try_start_fetches_inv σ' index log' Hinv1) as (Hinv2 & Hp & Hfe & Hs).
    split; [done|]. eapply no_stall_gap; [done|done|]. by rewrite Hfe, Hs.
  - destruct Hinv as [Hgood Hsync Htaken Hlog Hsched Hbatch]. split; [split; [done|lia|done..]|done].
Qed.

Lemma reachable_inv index0 s : index0 < U32_MAX →
  rtc loop_step (CommitSyncer_new index0, index0, []) s → loop_inv s.
Proof.
  intros Hlt Hrtc.
  assert (∀ s0, rtc loop_step s0 s → loop_inv s0 → loop_inv s) as Hind.
  { induction 1 as [|s0 s1 s2 Hstep _ IH]; [done|]. intros Hs0. apply IH; [done|]. by eapply loop_step_inv. }
  apply (Hind _ Hrtc). split; [|done]. split; simpl; [|lia|lia|by intros [] |done|done].
  unfold ranges. simpl. rewrite elements_empty, map_to_list_empty. apply good_nil. unfold scheduled. simpl. lia.
Qed.

(** A tick that finds the node a whole batch behind, with the consumer keeping
    up, schedules a batch. *)
Lemma schedule_batches_pending quorum handled steps : ∀ prev_end σ r,
  r ∈ cs_pending_fetches σ → r ∈ cs_pending_fetches (schedule_batches p steps quorum handled prev_end σ).
Proof.
  induction steps as [|steps IH]; intros prev_end σ r Hr; [done|]. cbn [schedule_batches].
  destruct (_ <? _); [done|]. destruct (_ <? _); [done|]. apply IH. simpl. set_solver.
Qed.

Lemma try_schedule_once_pending quorum handled index σ σ' :
  let fetch_after := N.max (N.max (cs_synced_commit_index σ) index) (scheduled σ) in
  fetch_after + commit_sync_batch_size p <= quorum → quorum + commit_sync_batch_size p < U32_MAX →
  fetch_after + commit_sync_batch_size p <= handled +32 unhandled_commits_threshold p →
  try_schedule_once p quorum index handled σ = Ret σ' → cs_pending_fetches σ' ≠ ∅.
Proof.
  intros a Hq Hmax Hh. unfold try_schedule_once. destruct (N.eqb_spec (commit_sync_batch_size p) 0); [lia|]. simpl.
  intros [= <-]. unfold step_count. change (default 0 (cs_highest_scheduled_index σ)) with (scheduled σ). fold a.
  destruct (N.ltb_spec quorum a); [lia|].
  rewrite N.add_1_r, N2Nat.inj_succ. cbn [schedule_batches].
  rewrite !(wrap32_small (a + _)) by (unfold U32_MOD, U32_MAX in *; lia).
  rewrite (proj2 (N.ltb_ge quorum _)) by lia. rewrite (proj2 (N.ltb_ge _ (a + _))) by lia.
  intros Hemp. apply (not_elem_of_empty (C := gset CommitRange) (CommitRange_new (a + 1) (a + commit_sync_batch_size p))).
  rewrite <-Hemp. apply schedule_batches_pending. simpl. set_solver.
Qed.
End invariant.

(** C10: no commit is lost by the schedule of fetches, and Core is never sent a
    gap.  However ticks, results of fetches (in any order, complete or partial),
    and Core's own commits interleave, and whatever Core replies: no index is in
    two of the ranges in flight, pending or fetched; unless Core has replied
    with an error, every index above the synced one that was scheduled is in one
    of those ranges; the synced index is between what Core took and what it took
    or reported committed; each call of [add_certified_commits] sends
    consecutive commits that begin at most one after the highest of Core's last
    commit and what Core took before, and end after it, so that a Core that is
    not behind those finds no gap when it validates them; and the next tick and
    the next result are handled without a panic. *)
Theorem schedule_no_gap (c : Committee) (p : SyncParameters) (index0 index : CommitIndex) (σ : CommitSyncer) (log : list Sent) :
  0 < commit_sync_batch_size p → index0 < U32_MAX →
  rtc (loop_step c p) (CommitSyncer_new index0, index0, []) (σ, index, log) →
  NoDup (ranges σ ≫= indices) ∧
  taken log <= cs_synced_commit_index σ <= N.max index (taken log) ∧
  (core_left log = false → ∀ i, cs_synced_commit_index σ < i <= scheduled σ → ∃ r, r ∈ ranges σ ∧ in_range r i) ∧
  (∀ pre s post, log = pre ++ s :: post →
    let before := N.max (sent_after s) (taken pre) in
    (∃ start, consecutive start (certified_commits (sent_commits s)) ∧ 0 < start <= before + 1) ∧
    before < batch_end (sent_commits s) ∧
    ∀ St (k : Core St), before <= last_commit_index (co_dag_state k) < U32_MAX →
      validate_certified_commits k (certified_commits (sent_commits s)) =
        Ok (filter (λ x : CertifiedCommit, last_commit_index (co_dag_state k) < commit_index x) (certified_commits (sent_commits s)))) ∧
  (∀ quorum handled, quorum + commit_sync_batch_size p < U32_MAX →
    is_ret (try_schedule_once p quorum index handled σ)) ∧
  (∀ reply l1 r l2 a commits, reply_ok c reply →
    cs_inflight_fetches σ = l1 ++ r :: l2 → is_valid_index c a → fetch_of r commits →
    is_ret (handle_fetch_result c reply (set_inflight σ (l1 ++ l2)) log index a (range_end r) commits)).
Proof.
  intros Hsize Hlt Hrtc. destruct (reachable_inv c p Hsize index0 _ Hlt Hrtc) as [Hinv _].
  pose proof Hinv as [[Hnd Hb Hcov] Hsync Htaken Hlog _ _]. split_and!; [done|done|lia| | | |].
  - intros Hcl i Hi. apply Hcov in Hi as (r & Hr%elem_of_indices & Hin)%list_elem_of_bind; [|done].
    exists r. split; [done|]. unfold in_range, range_start, range_end. lia.
  - intros pre s post Heq before. destruct (Hlog pre s post Heq) as (start & Hcons & _ & Hstart & Hend). fold before in Hstart, Hend.
    split_and!; [by exists start|done|]. intros St k Hk. apply (validate_consecutive k start); [done|lia|lia].
  - intros quorum handled Hq. destruct (try_schedule_once_inv p quorum handled index log σ Hsize Hq Hinv) as (σ' & -> & _). by eexists.
  - intros reply l1 r l2 a commits Hrep Hin Ha Hf.
    destruct (handle_fetch_result_inv c reply Hrep σ index log l1 r l2 a commits Hinv Hin Ha Hf) as (σ' & log' & -> & _). by eexists.
Qed.

(** C11: the schedule of fetches never stalls.  As long as Core has not replied
    with an error, when no fetch is in flight then everything scheduled is
    synced and nothing waits; and a tick leaves a fetch in flight when the
    quorum is a whole batch ahead of what is synced and scheduled, and the
    handled commits are at most [unhandled_commits_threshold] behind the end of
    that batch (the scheduler pauses while the consumer lags more). *)
Theorem schedule_never_stalls (c : Committee) (p : SyncParameters) (index0 index : CommitIndex) (σ : CommitSyncer) (log : list Sent) :
  0 < commit_sync_batch_size p → index0 < U32_MAX →
  rtc (loop_step c p) (CommitSyncer_new index0, index0, []) (σ, index, log) → core_left log = false →
  (cs_inflight_fetches σ = [] →
    scheduled σ <= cs_synced_commit_index σ ∧ cs_pending_fetches σ = ∅ ∧ cs_fetched_ranges σ = ∅) ∧
  ∀ quorum handled,
    let next := N.max (N.max (cs_synced_commit_index σ) index) (scheduled σ) + commit_sync_batch_size p in
    next <= quorum → quorum + commit_sync_batch_size p < U32_MAX → next <= handled +32 unhandled_commits_threshold p →
    ∃ σ', try_schedule_once p quorum index handled σ = Ret σ' ∧ cs_inflight_fetches (try_start_fetches c p σ') ≠ [].
Proof.
  intros Hsize Hlt Hrtc Hcl. destruct (reachable_inv c p Hsize index0 _ Hlt Hrtc) as [Hinv Hstall]. split.
  - intros Hin. split; [by eapply no_stall_idle|by apply Hstall].
  - intros quorum handled next Hn Hq Hh. destruct (try_schedule_once_inv p quorum handled index log σ Hsize Hq Hinv) as (σ' & Htick & _).
    exists σ'. split; [done|]. intros Hin. apply try_start_fetches_idle in Hin as [_ Hp]. revert Hp.
    by eapply (try_schedule_once_pending p Hsize quorum handled index σ σ').
Qed.

(** ** A run with partial and out-of-order results *)

(** Core takes what it is sent. *)
Definition test_reply (log : list Sent) (commits : CertifiedCommits) : ConsensusResult (gset BlockRef) := Ok ∅.

Lemma test_reply_ok c : reply_ok c test_reply.
Proof. intros log commits missing b [= <-] Hb. set_solver. Qed.

Definition test_params : SyncParameters := mk_sync_parameters 8 5 32.

Definition test_batch (start : CommitIndex) (n : nat) : CertifiedCommits :=
  mk_certified_commits ((λ k, new_certified (mk_trusted (Commit_new (start + N.of_nat k) 0 0 (mk_ref 0 0 0) []) 0 []) []) <$> seq 0 n) [].

Lemma test_batch_fetch start n r : n ≠ 0%nat → range_lo r = start → start + N.of_nat n <= range_hi r → fetch_of r (test_batch start n).
Proof.
  intros Hn <- Hle. unfold fetch_of, test_batch. simpl. rewrite length_fmap, length_seq. split_and!; [by destruct n| |done].
  intros k x. rewrite list_lookup_fmap_Some. intros (j & -> & [-> _]%lookup_seq). done.
Qed.

(** The quorum is at 10 and the node at 0; the second batch arrives first, then
    the first three commits of the first batch. *)
Definition test_tick : outcome CommitSyncer := try_schedule_once test_params 10 0 0 (CommitSyncer_new 0).

Definition test_out_of_order : outcome (CommitSyncer * list Sent) :=
  σ ← test_tick;
  let σ := try_start_fetches (test_committee [1; 1; 1; 1]) test_params σ in
  handle_fetch_result (test_committee [1; 1; 1; 1]) test_reply (set_inflight σ [CommitRange_new 1 5]) [] 0 1 10 (test_batch 6 5).

Definition test_partial : outcome (CommitSyncer * list Sent) :=
  '(σ, log) ← test_out_of_order;
  let σ := try_start_fetches (test_committee [1; 1; 1; 1]) test_params σ in
  handle_fetch_result (test_committee [1; 1; 1; 1]) test_reply (set_inflight σ []) log 0 2 5 (test_batch 1 3).

Lemma test_run : ∃ σ log, test_partial = Ret (σ, log) ∧
  rtc (loop_step (test_committee [1; 1; 1; 1]) test_params) (CommitSyncer_new 0, 0, [])
    (try_start_fetches (test_committee [1; 1; 1; 1]) test_params σ, 0, log).
Proof.
  destruct test_tick as [σ1|] eqn:H1; [|by vm_compute in H1].
  destruct test_out_of_order as [[σ2 log2]|] eqn:H2; [|by vm_compute in H2].
  destruct test_partial as [[σ3 log3]|] eqn:H3; [|by vm_compute in H3].
  exists σ3, log3. split; [done|]. pose proof H2 as H2'. pose proof H3 as H3'.
  unfold test_out_of_order in H2'. rewrite H1 in H2'. simpl in H2'.
  unfold test_partial in H3'. rewrite H2 in H3'. simpl in H3'.
  eapply rtc_l; [eapply (step_tick _ _ 10 0); [done|exact H1]|].
  eapply rtc_l; [eapply (step_result _ _ test_reply [CommitRange_new 1 5] (CommitRange_new 6 10) [] 1 (test_batch 6 5));
    [apply test_reply_ok| |done| |exact H2']|].
  { vm_compute in H1. by injection H1 as <-. }
  { by apply test_batch_fetch. }
  eapply rtc_l; [eapply (step_result _ _ test_reply [] (CommitRange_new 1 5) [] 2 (test_batch 1 3));
    [apply test_reply_ok| |done| |exact H3']|apply rtc_refl].
  { vm_compute in H2. by injection H2 as <- <-. }
  by apply test_batch_fetch.
Qed.

Lemma schedule_no_gap_witness : ∃ σ log, test_partial = Ret (σ, log) ∧ sent_commits <$> log = [test_batch 1 3] ∧
  let σ := try_start_fetches (test_committee [1; 1; 1; 1]) test_params σ in
  cs_synced_commit_index σ = 3 ∧ scheduled σ = 10 ∧ ∃ r, r ∈ ranges σ ∧ in_range r 4.
Proof.
  destruct test_run as (σ & log & Hrun & Hrtc). exists σ, log. split; [exact Hrun|].
  destruct (schedule_no_gap (test_committee [1; 1; 1; 1]) test_params 0 0 _ log ltac:(by vm_compute) ltac:(by vm_compute) Hrtc)
    as (_ & _ & Hcov & _).
  assert (core_left log = false) as Hcl. { vm_compute in Hrun. by injection Hrun as <- <-. }
  specialize (Hcov Hcl 4). revert Hcov. vm_compute in Hrun. injection Hrun as <- <-. intros Hcov.
  split; [done|]. split; [done|]. split; [done|]. apply Hcov. by vm_compute.
Defined.

Lemma schedule_never_stalls_witness : ∃ σ, test_tick = Ret σ ∧
  cs_inflight_fetches (try_start_fetches (test_committee [1; 1; 1; 1]) test_params σ) ≠ [].
Proof.
  destruct (schedule_never_stalls (test_committee [1; 1; 1; 1]) test_params 0 0 (CommitSyncer_new 0) []
    ltac:(by vm_compute) ltac:(by vm_compute) (rtc_refl _ _) eq_refl) as [_ Hstart].
  apply (Hstart 10 0); by vm_compute.
Defined.
